(** * MMJP: the double-array trie, the NPYCRF decoders, the lossless
    whitespace coding, the model loader and the MDL pruning of the unigram
    model, embedded from the C sources, and what they guarantee.

    The first part holds the programs: one module per source file, every
    function under the name it has in C.  The second part holds the proofs. *)

From Stdlib Require Import ZArith List Lia Bool Floats Uint63 Zbitwise Permutation.
Import ListNotations.
Open Scope Z_scope.

(** * Part I: the programs *)

(** * C arrays and fixed-width integers

    A C array is a [list Z] indexed by [Z]; [zget] reads a cell (0 outside the
    list, as a [calloc]ed extension would read) and [zset] writes one (no cell
    is written outside the list).  Fixed-width values are kept in [Z] and the
    conversions of the C code are written out with [wrap_s] / [wrap_u]. *)
Module Mem.

Definition zget (l : list Z) (i : Z) : Z :=
  if i <? 0 then 0 else nth (Z.to_nat i) l 0.

Fixpoint upd_nat (l : list Z) (n : nat) (v : Z) : list Z :=
  match l with
  | [] => []
  | h :: t => match n with
              | O => v :: t
              | S n' => h :: upd_nat t n' v
              end
  end.

Definition zset (l : list Z) (i v : Z) : list Z :=
  if i <? 0 then l else upd_nat l (Z.to_nat i) v.

Definition zlen (l : list Z) : Z := Z.of_nat (length l).

(** [zseq lo n] is [lo; lo+1; ...; lo+n-1]: the values a C [for] counter takes. *)
Definition zseq (lo : Z) (n : nat) : list Z :=
  map (fun i => lo + Z.of_nat i) (seq 0 n).

(** [range lo hi]: the counter values of [for (i = lo; i < hi; i++)]. *)
Definition range (lo hi : Z) : list Z := zseq lo (Z.to_nat (hi - lo)).

(** Two's-complement reading of [x] on [w] bits, and the unsigned one. *)
Definition wrap_u (w x : Z) : Z := x mod 2 ^ w.
Definition wrap_s (w x : Z) : Z := (x + 2 ^ (w - 1)) mod 2 ^ w - 2 ^ (w - 1).

Definition u8 (x : Z) : Z := wrap_u 8 x.
Definition u16 (x : Z) : Z := wrap_u 16 x.
Definition u32 (x : Z) : Z := wrap_u 32 x.
Definition i16 (x : Z) : Z := wrap_s 16 x.
Definition i32 (x : Z) : Z := wrap_s 32 x.

(** [int32_t] addition as the compiled code performs it. *)
Definition add32 (a b : Z) : Z := i32 (a + b).

Definition in_i16 (x : Z) : Prop := -32768 <= x <= 32767.
Definition in_i32 (x : Z) : Prop := -2147483648 <= x <= 2147483647.

(** Arrays of [double]. *)
Definition fget (l : list float) (i : Z) : float :=
  if i <? 0 then 0%float else nth (Z.to_nat i) l 0%float.

Fixpoint fupd_nat (l : list float) (n : nat) (v : float) : list float :=
  match l with
  | [] => []
  | h :: t => match n with
              | O => v :: t
              | S n' => h :: fupd_nat t n' v
              end
  end.

Definition fset (l : list float) (i : Z) (v : float) : list float :=
  if i <? 0 then l else fupd_nat l (Z.to_nat i) v.

(** [(double)q] for an integer [q]. *)
Definition z2f (q : Z) : float :=
  if q <? 0 then PrimFloat.opp (PrimFloat.of_uint63 (Uint63.of_Z (- q)))
  else PrimFloat.of_uint63 (Uint63.of_Z q).

End Mem.

(** * The double-array trie (src/double_array/double_array_trie.c) *)
Module DA.
Import Mem.

Definition DA_ROOT : Z := 1.
Definition DA_ALPHABET_SIZE : Z := 256.
Definition DA_OK : Z := 0.
Definition DA_ERR_BADARG : Z := -1.
Definition DA_ERR_NOMEM : Z := -2.
Definition DA_ERR_FULL : Z := -3.
Definition SIZE_MAX : Z := 2 ^ 64 - 1.

(** [da_trie_t]: the two arrays and the ownership flag; the [capacity] field
    is the arrays' common length. *)
Record da_trie_t := {
  base : list Z;
  check : list Z;
  dynamic : bool
}.

Definition capacity (da : da_trie_t) : Z := zlen (base da).

Definition set_base (da : da_trie_t) (i v : Z) : da_trie_t :=
  {| base := zset (base da) i v; check := check da; dynamic := dynamic da |}.
Definition set_check (da : da_trie_t) (i v : Z) : da_trie_t :=
  {| base := base da; check := zset (check da) i v; dynamic := dynamic da |}.

Section Allocator.

(** The largest number of cells [calloc] hands out for one array: a request
    beyond it fails, any other succeeds. *)
Variable mem_limit : Z.

Definition da_is_initialized (da : da_trie_t) : bool := DA_ROOT <? capacity da.

(** The doubling loop of [da_reserve]; [None] is the [size_t] overflow exit. *)
Fixpoint grow_cap (fuel : nat) (newcap need : Z) : option Z :=
  if newcap <? need then
    match fuel with
    | O => None
    | S f =>
      let prev := newcap in
      let newcap := (newcap * 2) mod (SIZE_MAX + 1) in
      if newcap <? prev then None else grow_cap f newcap need
    end
  else Some newcap.

Definition da_reserve (da : da_trie_t) (need : Z) : Z * da_trie_t :=
  if need <=? capacity da then (DA_OK, da)
  else if negb (dynamic da) then (DA_ERR_FULL, da)
  else
    match grow_cap 64 (if capacity da =? 0 then 256 else capacity da) need with
    | None => (DA_ERR_NOMEM, da)
    | Some newcap =>
      if mem_limit <? newcap then (DA_ERR_NOMEM, da)
      else
        let extra := Z.to_nat (newcap - capacity da) in
        (DA_OK, {| base := base da ++ repeat 0 extra;
                   check := check da ++ repeat 0 extra;
                   dynamic := dynamic da |})
    end.

Definition da_next (da : da_trie_t) (cur code : Z) : Z :=
  if negb (da_is_initialized da) then 0
  else if (cur <=? 0) || (capacity da <=? cur) then 0
  else
    let b := zget (base da) cur in
    if b <=? 0 then 0
    else
      let idx := b + code in
      if capacity da <=? idx then 0
      else if idx =? cur then 0
      else if zget (check da) idx =? cur then idx
      else 0.

(** The codes [0..255] in the order the C loops visit them. *)
Definition all_codes : list Z := range 0 DA_ALPHABET_SIZE.

Definition da_collect_children_codes (da : da_trie_t) (parent : Z) : list Z :=
  let b := zget (base da) parent in
  if b <=? 0 then []
  else
    filter (fun c => let idx := b + c in
                     negb (idx =? parent) && (idx <? capacity da)
                     && (zget (check da) idx =? parent))
           all_codes.

Definition da_codes_contains (codes : list Z) (code : Z) : bool :=
  existsb (fun c => c =? code) codes.

(** The inner loop of [da_find_base]: is every slot [b + codes[i]] usable? *)
Definition base_fits (da : da_trie_t) (parent b : Z) (codes : list Z) : bool :=
  forallb (fun c => let idx := b + c in
                    negb (idx =? parent)
                    && ((zget (check da) idx =? 0) || (zget (check da) idx =? parent)))
          codes.

(** The scan [for (b = 1; b > 0; b++)]: it ends with a base or with the
    error of [da_reserve]; [fuel] counts the bases still to try. *)
Fixpoint find_base_from (fuel : nat) (da : da_trie_t) (parent : Z) (codes : list Z)
         (maxc b : Z) : Z * Z * da_trie_t :=
  match fuel with
  | O => (DA_ERR_FULL, 0, da)
  | S f =>
    let need := b + maxc + 1 in
    match da_reserve da need with
    | (0, da) =>
      if base_fits da parent b codes then (DA_OK, b, da)
      else find_base_from f da parent codes maxc (b + 1)
    | (rc, da) => (rc, 0, da)
    end
  end.

(** [da_find_base]: the code, [*out_base] and the trie (it may have grown).
    A base [b] is tried only after [da_reserve] granted [b + maxc + 1]
    cells, so no more than [max (capacity da) mem_limit] bases are tried. *)
Definition da_find_base (da : da_trie_t) (parent : Z) (codes : list Z) : Z * Z * da_trie_t :=
  match codes with
  | [] => (DA_ERR_BADARG, 0, da)
  | _ =>
    let maxc := fold_left Z.max codes 0 in
    find_base_from (S (Z.to_nat (Z.max (capacity da) mem_limit))) da parent codes maxc 1
  end.

(** The snapshot loop of [da_relocate_children]: [da_reserve] for every new
    slot, and the triples [(old_idx, new_idx, child_base)]. *)
Fixpoint relocate_snapshot (da : da_trie_t) (old_base new_base : Z) (codes : list Z)
         (snap : list (Z * Z * Z)) : Z * da_trie_t * list (Z * Z * Z) :=
  match codes with
  | [] => (DA_OK, da, snap)
  | c :: rest =>
    let o := old_base + c in
    let nn := new_base + c in
    match da_reserve da (nn + 1) with
    | (0, da) => relocate_snapshot da old_base new_base rest (snap ++ [(o, nn, zget (base da) o)])
    | (rc, da) => (rc, da, snap)
    end
  end.

Definition clear_old (da : da_trie_t) (e : Z * Z * Z) : da_trie_t :=
  let '(o, _, _) := e in set_check (set_base da o 0) o 0.

Definition write_new (parent : Z) (da : da_trie_t) (e : Z * Z * Z) : da_trie_t :=
  let '(_, nn, cb) := e in set_base (set_check da nn parent) nn cb.

(** First pass over the grandchildren of one child: [check == old_child]
    becomes [-new_child]. *)
Definition mark_grandchildren (da : da_trie_t) (e : Z * Z * Z) : da_trie_t :=
  let '(old_child, new_child, b) := e in
  if b <=? 0 then da
  else fold_left (fun da c => let g := b + c in
                              if (g <? capacity da) && (zget (check da) g =? old_child)
                              then set_check da g (- new_child) else da)
                 all_codes da.

(** Second pass: [check == -new_child] becomes [new_child]. *)
Definition unmark_grandchildren (da : da_trie_t) (e : Z * Z * Z) : da_trie_t :=
  let '(_, new_child, b) := e in
  if b <=? 0 then da
  else fold_left (fun da c => let g := b + c in
                              if (g <? capacity da) && (zget (check da) g =? - new_child)
                              then set_check da g new_child else da)
                 all_codes da.

Definition da_relocate_children (da : da_trie_t) (parent new_base : Z) : Z * da_trie_t :=
  let codes := da_collect_children_codes da parent in
  let old_base := zget (base da) parent in
  match relocate_snapshot da old_base new_base codes [] with
  | (0, da, snap) =>
    let da := fold_left clear_old snap da in
    let da := fold_left (write_new parent) snap da in
    let da := fold_left mark_grandchildren snap da in
    let da := fold_left unmark_grandchildren snap da in
    (DA_OK, set_base da parent new_base)
  | (rc, da, _) => (rc, da)
  end.

(** [da_ensure_transition]: the code, [*out_next] and the trie. *)
Definition da_ensure_transition (da : da_trie_t) (parent code : Z) : Z * Z * da_trie_t :=
  if negb (da_is_initialized da) then (DA_ERR_BADARG, 0, da)
  else if (parent <=? 0) || (capacity da <=? parent) then (DA_ERR_BADARG, 0, da)
  else
    let b := zget (base da) parent in
    let r :=
      if b <=? 0 then
        match da_find_base da parent [code] with
        | (0, new_base, da) => (DA_OK, new_base, set_base da parent new_base)
        | (rc, _, da) => (rc, 0, da)
        end
      else (DA_OK, b, da) in
    match r with
    | (0, b, da) =>
      let idx := b + code in
      match da_reserve da (idx + 1) with
      | (0, da) =>
        let chk := zget (check da) idx in
        if chk =? parent then (DA_OK, idx, da)
        else if chk =? 0 then (DA_OK, idx, set_base (set_check da idx parent) idx 0)
        else
          let codes := da_collect_children_codes da parent in
          let codes := if negb (da_codes_contains codes code) then codes ++ [code] else codes in
          match da_find_base da parent codes with
          | (0, new_base, da) =>
            match da_relocate_children da parent new_base with
            | (0, da) =>
              let idx := new_base + code in
              match da_reserve da (idx + 1) with
              | (0, da) =>
                if negb (zget (check da) idx =? 0) then (DA_ERR_FULL, 0, da)
                else (DA_OK, idx, set_base (set_check da idx parent) idx 0)
              | (rc, da) => (rc, 0, da)
              end
            | (rc, da) => (rc, 0, da)
            end
          | (rc, _, da) => (rc, 0, da)
          end
      | (rc, da) => (rc, 0, da)
      end
    | (rc, _, da) => (rc, 0, da)
    end.

Definition da_trie_clear (da : da_trie_t) : Z * da_trie_t :=
  if capacity da <? 2 then (DA_ERR_BADARG, da)
  else
    let n := length (base da) in
    (DA_OK, {| base := zset (repeat 0 n) DA_ROOT 1;
               check := zset (repeat 0 (length (check da))) DA_ROOT DA_ROOT;
               dynamic := dynamic da |}).

Definition da_trie_init_dynamic (initial_capacity : Z) : Z * da_trie_t :=
  let initial_capacity := if initial_capacity <? 16 then 16 else initial_capacity in
  let empty := {| base := []; check := []; dynamic := false |} in
  if mem_limit <? initial_capacity then (DA_ERR_NOMEM, empty)
  else
    da_trie_clear {| base := repeat 0 (Z.to_nat initial_capacity);
                     check := repeat 0 (Z.to_nat initial_capacity);
                     dynamic := true |}.

(** [da_trie_init_static]: [capacity] cells of caller memory for each array
    (whatever they held, [da_trie_clear] zeroes them). *)
Definition da_trie_init_static (capacity_ : Z) : Z * da_trie_t :=
  let empty := {| base := []; check := []; dynamic := false |} in
  if capacity_ <? 16 then (DA_ERR_BADARG, empty)
  else
    da_trie_clear {| base := repeat 0 (Z.to_nat capacity_);
                     check := repeat 0 (Z.to_nat capacity_);
                     dynamic := false |}.

(** The loop over the key bytes of [da_trie_add_bytes]. *)
Fixpoint add_loop (da : da_trie_t) (bytes : list Z) (cur : Z) : Z * Z * da_trie_t :=
  match bytes with
  | [] => (DA_OK, cur, da)
  | c :: rest =>
    match da_ensure_transition da cur c with
    | (0, next, da) => add_loop da rest next
    | r => r
    end
  end.

Definition da_trie_add_bytes (da : da_trie_t) (bytes : list Z) : Z * da_trie_t :=
  match bytes with
  | [] => (DA_ERR_BADARG, da)
  | _ =>
    if negb (da_is_initialized da) then (DA_ERR_BADARG, da)
    else
      match add_loop da bytes DA_ROOT with
      | (0, cur, da) =>
        match da_ensure_transition da cur 0 with
        | (0, _, da) => (DA_OK, da)
        | (rc, _, da) => (rc, da)
        end
      | (rc, _, da) => (rc, da)
      end
  end.

(** The walk shared by [da_trie_contains_bytes] and
    [da_trie_search_prefix_bytes]: 0 as soon as a transition is missing. *)
Fixpoint da_walk (da : da_trie_t) (bytes : list Z) (cur : Z) : Z :=
  match bytes with
  | [] => cur
  | c :: rest =>
    let cur := da_next da cur c in
    if cur =? 0 then 0 else da_walk da rest cur
  end.

Definition da_trie_search_prefix_bytes (da : da_trie_t) (bytes : list Z) : Z :=
  if negb (da_is_initialized da) then 0 else da_walk da bytes DA_ROOT.

Definition da_trie_contains_bytes (da : da_trie_t) (bytes : list Z) : Z :=
  if negb (da_is_initialized da) then 0
  else
    let cur := da_walk da bytes DA_ROOT in
    if cur =? 0 then 0
    else if negb (da_next da cur 0 =? 0) then 1 else 0.

End Allocator.

End DA.

(** * npycrf_lite: the semi-Markov decoder (src/npycrf_lite/npycrf_lite.c) *)
Module Npycrf.
Import Mem.

Definition NPYCRF_Q : Z := 8.
Definition NPYCRF_SCORE_SCALE : Z := 256.
Definition NPYCRF_SCORE_NEG_INF : Z := -1073741823.  (* -0x3fffffff *)

Definition CC_OTHER : Z := 0.
Definition CC_SPACE : Z := 1.
Definition CC_DIGIT : Z := 2.
Definition CC_ALPHA : Z := 3.
Definition CC_HIRAGANA : Z := 4.
Definition CC_KATAKANA : Z := 5.
Definition CC_KANJI : Z := 6.
Definition CC_FULLWIDTH : Z := 7.
Definition CC_SYMBOL : Z := 8.
Definition CC_UTF8_2BYTE : Z := 9.
Definition CC_UTF8_3BYTE : Z := 10.
Definition CC_UTF8_4BYTE : Z := 11.
Definition CC_BOS : Z := 250.
Definition CC_EOS : Z := 251.

Definition NPYCRF_CC_MODE_ASCII : Z := 0.
Definition NPYCRF_CC_MODE_UTF8LEN : Z := 1.
Definition NPYCRF_CC_MODE_RANGES : Z := 2.
Definition NPYCRF_CC_MODE_COMPAT : Z := 3.

Definition NPYCRF_ID_NONE : Z := 65535.
Definition NPYCRF_ID_BOS : Z := 65534.

Definition LOSSLESS_ESCAPE : Z := 0x2580.
Definition LOSSLESS_CR : Z := 0x2584.

(** ** Data model.  A pointer field that may be NULL is an [option]. *)

Record npycrf_cc_range_t := {
  lo : Z; hi : Z; class_id : Z
}.

Record npycrf_cc_t := {
  mode : Z;
  fallback : Z;
  ranges : option (list npycrf_cc_range_t);
  range_count : Z
}.

Record npycrf_crf_t := {
  trans00 : Z; trans01 : Z; trans10 : Z; trans11 : Z;
  bos_to1 : Z;
  feat_key : option (list Z);
  feat_w : option (list Z);
  feat_count : Z
}.

(** The read-only trie view: [base]/[check] arrays and the capacity field. *)
Record da_trie_ro_t := {
  ro_base : list Z;
  ro_check : list Z;
  ro_capacity : Z
}.

Record npycrf_lm_t := {
  trie : da_trie_ro_t;
  logp_uni : option (list Z);
  vocab_size : Z;
  bigram_key : option (list Z);
  logp_bi : option (list Z);
  bigram_size : Z;
  unk_base : Z;
  unk_per_cp : Z
}.

Record npycrf_model_t := {
  crf : npycrf_crf_t;
  lm : npycrf_lm_t;
  lambda0 : Z;
  max_word_len : Z;
  flags : Z;
  cc : npycrf_cc_t
}.

Record npycrf_work_t := {
  max_n_cp : Z;
  w_max_word_len : Z;
  cp_off : list Z;
  emit0 : list Z;
  emit1 : list Z;
  pref_emit0 : list Z;
  span_id : list Z;
  span_luni : list Z;
  bp_prevlen : list Z;
  dp_ring : list Z
}.

Definition set_cp_off (w : npycrf_work_t) (a : list Z) : npycrf_work_t :=
  {| max_n_cp := max_n_cp w; w_max_word_len := w_max_word_len w; cp_off := a;
     emit0 := emit0 w; emit1 := emit1 w; pref_emit0 := pref_emit0 w;
     span_id := span_id w; span_luni := span_luni w; bp_prevlen := bp_prevlen w;
     dp_ring := dp_ring w |}.
Definition set_emit0 (w : npycrf_work_t) (a : list Z) : npycrf_work_t :=
  {| max_n_cp := max_n_cp w; w_max_word_len := w_max_word_len w; cp_off := cp_off w;
     emit0 := a; emit1 := emit1 w; pref_emit0 := pref_emit0 w;
     span_id := span_id w; span_luni := span_luni w; bp_prevlen := bp_prevlen w;
     dp_ring := dp_ring w |}.
Definition set_emit1 (w : npycrf_work_t) (a : list Z) : npycrf_work_t :=
  {| max_n_cp := max_n_cp w; w_max_word_len := w_max_word_len w; cp_off := cp_off w;
     emit0 := emit0 w; emit1 := a; pref_emit0 := pref_emit0 w;
     span_id := span_id w; span_luni := span_luni w; bp_prevlen := bp_prevlen w;
     dp_ring := dp_ring w |}.
Definition set_pref_emit0 (w : npycrf_work_t) (a : list Z) : npycrf_work_t :=
  {| max_n_cp := max_n_cp w; w_max_word_len := w_max_word_len w; cp_off := cp_off w;
     emit0 := emit0 w; emit1 := emit1 w; pref_emit0 := a;
     span_id := span_id w; span_luni := span_luni w; bp_prevlen := bp_prevlen w;
     dp_ring := dp_ring w |}.
Definition set_span_id (w : npycrf_work_t) (a : list Z) : npycrf_work_t :=
  {| max_n_cp := max_n_cp w; w_max_word_len := w_max_word_len w; cp_off := cp_off w;
     emit0 := emit0 w; emit1 := emit1 w; pref_emit0 := pref_emit0 w;
     span_id := a; span_luni := span_luni w; bp_prevlen := bp_prevlen w;
     dp_ring := dp_ring w |}.
Definition set_span_luni (w : npycrf_work_t) (a : list Z) : npycrf_work_t :=
  {| max_n_cp := max_n_cp w; w_max_word_len := w_max_word_len w; cp_off := cp_off w;
     emit0 := emit0 w; emit1 := emit1 w; pref_emit0 := pref_emit0 w;
     span_id := span_id w; span_luni := a; bp_prevlen := bp_prevlen w;
     dp_ring := dp_ring w |}.
Definition set_bp_prevlen (w : npycrf_work_t) (a : list Z) : npycrf_work_t :=
  {| max_n_cp := max_n_cp w; w_max_word_len := w_max_word_len w; cp_off := cp_off w;
     emit0 := emit0 w; emit1 := emit1 w; pref_emit0 := pref_emit0 w;
     span_id := span_id w; span_luni := span_luni w; bp_prevlen := a;
     dp_ring := dp_ring w |}.
Definition set_dp_ring (w : npycrf_work_t) (a : list Z) : npycrf_work_t :=
  {| max_n_cp := max_n_cp w; w_max_word_len := w_max_word_len w; cp_off := cp_off w;
     emit0 := emit0 w; emit1 := emit1 w; pref_emit0 := pref_emit0 w;
     span_id := span_id w; span_luni := span_luni w; bp_prevlen := bp_prevlen w;
     dp_ring := a |}.

(** [npycrf_work_init]: the caller's buffer split into the eight tables
    (sizes as in [npycrf_workbuf_size]); the cells start as zero here. *)
Definition npycrf_work_init (max_n_cp_ max_word_len_ : Z) : npycrf_work_t :=
  let ncp1 := Z.to_nat (max_n_cp_ + 1) in
  let L1 := Z.to_nat (max_word_len_ + 1) in
  let spanN := (ncp1 * L1)%nat in
  {| max_n_cp := max_n_cp_; w_max_word_len := max_word_len_;
     cp_off := repeat 0 ncp1;
     emit0 := repeat 0 (Z.to_nat max_n_cp_);
     emit1 := repeat 0 (Z.to_nat max_n_cp_);
     pref_emit0 := repeat 0 ncp1;
     span_id := repeat 0 spanN;
     span_luni := repeat 0 spanN;
     bp_prevlen := repeat 0 spanN;
     dp_ring := repeat 0 (L1 * L1)%nat |}.

Definition oget (a : option (list Z)) (i : Z) : Z :=
  match a with Some l => zget l i | None => 0 end.

Definition is_null {A} (a : option A) : bool :=
  match a with Some _ => false | None => true end.

(** ** Fixed point *)

(** [(int32)(((int64)a * (int64)b) >> 8)]: the shift is arithmetic. *)
Definition q16_mul_q8 (a_q8 b_q8 : Z) : Z := i32 (Z.shiftr (a_q8 * b_q8) NPYCRF_Q).

(** ** UTF-8 *)

(** [utf8_decode1 s i]: [Some (i', cp)] when a code point starts at byte [i]
    ([i'] is the updated [*io]), [None] for the C function's 0. *)
Definition utf8_decode1 (s : list Z) (i : Z) : option (Z * Z) :=
  let len := zlen s in
  if len <=? i then None else
  let c0 := zget s i in
  if Z.land c0 0x80 =? 0 then Some (i + 1, c0)
  else if Z.land c0 0xE0 =? 0xC0 then
    if len <=? i + 1 then None else
    let c1 := zget s (i + 1) in
    if negb (Z.land c1 0xC0 =? 0x80) then None else
    let cp := Z.lor (Z.shiftl (Z.land c0 0x1F) 6) (Z.land c1 0x3F) in
    if cp <? 0x80 then None else Some (i + 2, cp)
  else if Z.land c0 0xF0 =? 0xE0 then
    if len <=? i + 2 then None else
    let c1 := zget s (i + 1) in
    let c2 := zget s (i + 2) in
    if negb (Z.land c1 0xC0 =? 0x80) || negb (Z.land c2 0xC0 =? 0x80) then None else
    let cp := Z.lor (Z.lor (Z.shiftl (Z.land c0 0x0F) 12)
                           (Z.shiftl (Z.land c1 0x3F) 6))
                    (Z.land c2 0x3F) in
    if cp <? 0x800 then None
    else if (0xD800 <=? cp) && (cp <=? 0xDFFF) then None
    else Some (i + 3, cp)
  else if Z.land c0 0xF8 =? 0xF0 then
    if len <=? i + 3 then None else
    let c1 := zget s (i + 1) in
    let c2 := zget s (i + 2) in
    let c3 := zget s (i + 3) in
    if negb (Z.land c1 0xC0 =? 0x80) || negb (Z.land c2 0xC0 =? 0x80)
       || negb (Z.land c3 0xC0 =? 0x80) then None else
    let cp := Z.lor (Z.lor (Z.lor (Z.shiftl (Z.land c0 0x07) 18)
                                  (Z.shiftl (Z.land c1 0x3F) 12))
                           (Z.shiftl (Z.land c2 0x3F) 6))
                    (Z.land c3 0x3F) in
    if cp <? 0x10000 then None
    else if 0x10FFFF <? cp then None
    else Some (i + 4, cp)
  else None.

(** The [while (i < len)] loop of [npycrf_utf8_make_offsets]; [None] is a
    [return 0] from inside the loop.  Every turn advances [i], so
    [length utf8] turns and one more test always reach the exit. *)
Fixpoint make_offsets_loop (fuel : nat) (utf8 : list Z) (out_cap : Z)
         (i n : Z) (out_off : list Z) : option (Z * list Z) :=
  if i <? zlen utf8 then
    match fuel with
    | O => None
    | S f =>
      if out_cap <=? n + 1 then None else
      let out_off := zset out_off n (u16 i) in
      match utf8_decode1 utf8 i with
      | None => None
      | Some (i', _) => make_offsets_loop f utf8 out_cap i' (n + 1) out_off
      end
    end
  else Some (n, out_off).

(** Returns the code point count (0 on error) and the offsets written. *)
Definition npycrf_utf8_make_offsets (utf8 : list Z) (out_off : list Z) (out_cap : Z)
  : Z * list Z :=
  match make_offsets_loop (length utf8) utf8 out_cap 0 0 out_off with
  | None => (0, out_off)
  | Some (n, off) =>
    if out_cap <=? n then (0, off)
    else (n, zset off n (u16 (zlen utf8)))
  end.

Definition npycrf_boundaries_cp_to_bytes (cp_off_ b_cp : list Z) : list Z :=
  map (fun b => zget cp_off_ b) b_cp.

(** ** Character classes *)

Definition char_class_ascii (cp : Z) : Z :=
  if (cp =? 32) || (cp =? 9) || (cp =? 10) || (cp =? 13) then CC_SPACE
  else if (48 <=? cp) && (cp <=? 57) then CC_DIGIT
  else if ((65 <=? cp) && (cp <=? 90)) || ((97 <=? cp) && (cp <=? 122)) then CC_ALPHA
  else CC_SYMBOL.

Definition is_lossless_meta (cp : Z) : bool :=
  (LOSSLESS_ESCAPE <=? cp) && (cp <=? LOSSLESS_CR).

Definition char_class_utf8len (cp : Z) : Z :=
  if cp <=? 0x7F then char_class_ascii cp
  else if cp <=? 0x7FF then CC_UTF8_2BYTE
  else if cp <=? 0xFFFF then CC_UTF8_3BYTE
  else CC_UTF8_4BYTE.

Definition range_at (rs : list npycrf_cc_range_t) (i : Z) : npycrf_cc_range_t :=
  nth (Z.to_nat i) rs {| lo := 0; hi := 0; class_id := 0 |}.

Fixpoint ranges_linear (rs : list npycrf_cc_range_t) (is_ : list Z) (cp : Z) : Z :=
  match is_ with
  | [] => CC_OTHER
  | i :: rest =>
    if (lo (range_at rs i) <=? cp) && (cp <=? hi (range_at rs i))
    then class_id (range_at rs i)
    else ranges_linear rs rest cp
  end.

Fixpoint ranges_bsearch (fuel : nat) (rs : list npycrf_cc_range_t) (lo_ hi_ cp : Z) : Z :=
  match fuel with
  | O => CC_OTHER
  | S f =>
    if lo_ <? hi_ then
      let mid := lo_ + (hi_ - lo_) / 2 in
      if cp <? lo (range_at rs mid) then ranges_bsearch f rs lo_ mid cp
      else if hi (range_at rs mid) <? cp then ranges_bsearch f rs (mid + 1) hi_ cp
      else class_id (range_at rs mid)
    else CC_OTHER
  end.

Definition char_class_from_ranges (rs : option (list npycrf_cc_range_t)) (count cp : Z) : Z :=
  match rs with
  | None => CC_OTHER
  | Some l =>
    if count =? 0 then CC_OTHER
    else if count <=? 8 then ranges_linear l (range 0 count) cp
    else ranges_bsearch (S (Z.to_nat count)) l 0 count cp
  end.

Definition japanese_ranges (cp : Z) : Z :=
  if (0x3040 <=? cp) && (cp <=? 0x309F) then CC_HIRAGANA
  else if (0x30A0 <=? cp) && (cp <=? 0x30FF) then CC_KATAKANA
  else if (0x4E00 <=? cp) && (cp <=? 0x9FFF) then CC_KANJI
  else if (0xFF00 <=? cp) && (cp <=? 0xFFEF) then CC_FULLWIDTH
  else CC_OTHER.

(** [npycrf_char_class_cp cc cp]; [cc = None] is the NULL pointer. *)
Definition npycrf_char_class_cp (c : option npycrf_cc_t) (cp : Z) : Z :=
  if is_lossless_meta cp then CC_SPACE
  else if cp <=? 0x7F then char_class_ascii cp
  else match c with
       | None => japanese_ranges cp
       | Some c =>
         if mode c =? NPYCRF_CC_MODE_ASCII then CC_OTHER
         else if mode c =? NPYCRF_CC_MODE_UTF8LEN then char_class_utf8len cp
         else if mode c =? NPYCRF_CC_MODE_RANGES then
           let cls := char_class_from_ranges (ranges c) (range_count c) cp in
           if negb (cls =? CC_OTHER) then cls
           else if fallback c =? NPYCRF_CC_MODE_UTF8LEN then char_class_utf8len cp
           else CC_OTHER
         else if mode c =? NPYCRF_CC_MODE_COMPAT then japanese_ranges cp
         else CC_OTHER
       end.

Definition char_class (cp : Z) : Z := npycrf_char_class_cp None cp.

(** ** CRF features *)

Definition npycrf_feat_key (template_id label v1 v2 : Z) : Z :=
  Z.lor (Z.lor (Z.lor (Z.shiftl template_id 24) (Z.shiftl label 16)) (Z.shiftl v1 8)) v2.

Fixpoint bsearch_key (fuel : nat) (keys vals : option (list Z)) (lo_ hi_ key dflt : Z) : Z :=
  match fuel with
  | O => dflt
  | S f =>
    if lo_ <? hi_ then
      let mid := lo_ + (hi_ - lo_) / 2 in
      let k := oget keys mid in
      if k =? key then oget vals mid
      else if k <? key then bsearch_key f keys vals (mid + 1) hi_ key dflt
      else bsearch_key f keys vals lo_ mid key dflt
    else dflt
  end.

Definition crf_lookup_w (c : npycrf_crf_t) (key : Z) : Z :=
  if is_null (feat_key c) || is_null (feat_w c) || (feat_count c =? 0) then 0
  else bsearch_key (S (Z.to_nat (feat_count c))) (feat_key c) (feat_w c) 0 (feat_count c) key 0.

Definition clamp16 (x : Z) : Z :=
  let x := if 32767 <? x then 32767 else x in
  if x <? -32768 then -32768 else x.

Definition crf_emit_pos (c : npycrf_crf_t) (label prev_c cur_c next_c : Z) : Z :=
  let sum := 0 in
  let sum := add32 sum (crf_lookup_w c (npycrf_feat_key 0 label cur_c 0)) in
  let sum := add32 sum (crf_lookup_w c (npycrf_feat_key 1 label prev_c 0)) in
  let sum := add32 sum (crf_lookup_w c (npycrf_feat_key 2 label next_c 0)) in
  let sum := add32 sum (crf_lookup_w c (npycrf_feat_key 3 label prev_c cur_c)) in
  let sum := add32 sum (crf_lookup_w c (npycrf_feat_key 4 label cur_c next_c)) in
  clamp16 sum.

(** ** Trie values *)

Definition da_next_ro_local (da : da_trie_ro_t) (cur code : Z) : Z :=
  if (cur <=? 0) || (ro_capacity da <=? cur) then 0 else
  let b := zget (ro_base da) cur in
  if b <=? 0 then 0 else
  let idx := b + code in
  if ro_capacity da <=? idx then 0
  else if zget (ro_check da) idx =? cur then idx
  else 0.

Fixpoint ro_walk (da : da_trie_ro_t) (key : list Z) (cur : Z) : Z :=
  match key with
  | [] => cur
  | c :: rest =>
    let cur := da_next_ro_local da cur c in
    if cur =? 0 then 0 else ro_walk da rest cur
  end.

(** [Some id] for the C function's 1 with [*out_id = id], [None] for 0. *)
Definition npycrf_da_ro_get_term_value (da : da_trie_ro_t) (key : list Z) : option Z :=
  let cur := ro_walk da key 1 in
  if cur =? 0 then None else
  let term := da_next_ro_local da cur 0 in
  if term =? 0 then None else
  let v := zget (ro_base da) term in
  if 0 <=? v then None else
  let id := u32 (- v - 1) in
  if 0xFFFF <? id then None else Some id.

(** The walk of [npycrf_da_set_term_value] to the node of [key];
    [None] is its [return DA_ERR_BADARG]. *)
Fixpoint set_walk (da : DA.da_trie_t) (key : list Z) (cur : Z) : option Z :=
  match key with
  | [] => Some cur
  | c :: rest =>
    let b := zget (DA.base da) cur in
    if b <=? 0 then None else
    let idx := b + c in
    if DA.capacity da <=? idx then None
    else if negb (zget (DA.check da) idx =? cur) then None
    else set_walk da rest idx
  end.

(** [npycrf_da_set_term_value]; [mem_limit] is the allocator's bound that
    [da_trie_add_bytes] runs against. *)
Definition npycrf_da_set_term_value (mem_limit : Z) (da : DA.da_trie_t) (key : list Z) (id : Z)
  : Z * DA.da_trie_t :=
  match DA.da_trie_add_bytes mem_limit da key with
  | (0, da) =>
    match set_walk da key 1 with
    | None => (DA.DA_ERR_BADARG, da)
    | Some cur =>
      let b := zget (DA.base da) cur in
      if b <=? 0 then (DA.DA_ERR_BADARG, da) else
      let tidx := b + 0 in
      if DA.capacity da <=? tidx then (DA.DA_ERR_BADARG, da)
      else if negb (zget (DA.check da) tidx =? cur) then (DA.DA_ERR_BADARG, da)
      else (DA.DA_OK, DA.set_base da tidx (i32 (- id - 1)))
    end
  | r => r
  end.

(** The read-only view of a writable trie (the arrays are shared). *)
Definition ro_view (da : DA.da_trie_t) : da_trie_ro_t :=
  {| ro_base := DA.base da; ro_check := DA.check da; ro_capacity := DA.capacity da |}.

(** ** Language model *)

Definition lm_unigram_logp (l : npycrf_lm_t) (id len_cp : Z) : Z :=
  if negb (id =? NPYCRF_ID_NONE) && negb (id =? NPYCRF_ID_BOS)
     && (id <? vocab_size l) && negb (is_null (logp_uni l))
  then oget (logp_uni l) id
  else clamp16 (unk_base l + unk_per_cp l * len_cp).

Definition lm_bigram_logp (l : npycrf_lm_t) (prev curr curr_backoff : Z) : Z :=
  if is_null (bigram_key l) || is_null (logp_bi l) || (bigram_size l =? 0) then curr_backoff
  else if (prev =? NPYCRF_ID_NONE) || (curr =? NPYCRF_ID_NONE) then curr_backoff
  else
    let key := Z.lor (u32 (Z.shiftl prev 16)) curr in
    bsearch_key (S (Z.to_nat (bigram_size l))) (bigram_key l) (logp_bi l)
                0 (bigram_size l) key curr_backoff.

Definition span_index (end_pos len L : Z) : Z := end_pos * (L + 1) + len.

(** ** Precomputation *)

Definition class_at (utf8 off : list Z) (i : Z) : option Z :=
  match utf8_decode1 utf8 (zget off i) with
  | None => None
  | Some (_, cp) => Some (char_class cp)
  end.

(** The first loop of [precompute_emissions], over the CRF part [&m->crf] of
    the model; the result code is 0 or -2. *)
Fixpoint emissions_loop (c : npycrf_crf_t) (utf8 off : list Z) (n_cp : Z)
         (is_ : list Z) (w : npycrf_work_t) : Z * npycrf_work_t :=
  match is_ with
  | [] => (0, w)
  | i :: rest =>
    match class_at utf8 off i with
    | None => (-2, w)
    | Some cur =>
      match (if 0 <? i then class_at utf8 off (i - 1) else Some CC_BOS) with
      | None => (-2, w)
      | Some prev =>
        match (if i + 1 <? n_cp then class_at utf8 off (i + 1) else Some CC_EOS) with
        | None => (-2, w)
        | Some next =>
          let w := set_emit0 w (zset (emit0 w) i (crf_emit_pos c 0 prev cur next)) in
          let w := set_emit1 w (zset (emit1 w) i (crf_emit_pos c 1 prev cur next)) in
          emissions_loop c utf8 off n_cp rest w
        end
      end
    end
  end.

Definition prefix_step (w : npycrf_work_t) (i : Z) : npycrf_work_t :=
  set_pref_emit0 w (zset (pref_emit0 w) (i + 1)
                         (add32 (zget (pref_emit0 w) i) (zget (emit0 w) i))).

Definition precompute_emissions (m : npycrf_model_t) (utf8 off : list Z) (n_cp : Z)
           (w : npycrf_work_t) : Z * npycrf_work_t :=
  match emissions_loop (crf m) utf8 off n_cp (range 0 n_cp) w with
  | (0, w) =>
    let w := set_pref_emit0 w (zset (pref_emit0 w) 0 0) in
    (0, fold_left prefix_step (range 0 n_cp) w)
  | r => r
  end.

Fixpoint walk_bytes (da : da_trie_ro_t) (utf8 : list Z) (bis : list Z) (node : Z) : Z :=
  match bis with
  | [] => node
  | bi :: rest =>
    let node := da_next_ro_local da node (zget utf8 bi) in
    if node =? 0 then 0 else walk_bytes da utf8 rest node
  end.

(** The loop over [l] of [precompute_spans] for one [start_cp], over the
    trie [&m->lm.trie]. *)
Fixpoint spans_len_loop (da : da_trie_ro_t) (utf8 off : list Z) (start_cp L : Z)
         (ls : list Z) (node : Z) (w : npycrf_work_t) : npycrf_work_t :=
  match ls with
  | [] => w
  | l :: rest =>
    let cp_i := u16 (start_cp + l - 1) in
    let b0 := zget off cp_i in
    let b1 := zget off (cp_i + 1) in
    let node := walk_bytes da utf8 (range b0 b1) node in
    if node =? 0 then w else
    let term := da_next_ro_local da node 0 in
    let w :=
      if negb (term =? 0) then
        let v := zget (ro_base da) term in
        if v <? 0 then
          let id := u32 (- v - 1) in
          if id <=? 0xFFFF then
            let end_cp := u16 (start_cp + l) in
            set_span_id w (zset (span_id w) (span_index end_cp l L) id)
          else w
        else w
      else w in
    spans_len_loop da utf8 off start_cp L rest node w
  end.

Definition spans_start_step (m : npycrf_model_t) (utf8 off : list Z) (n_cp L : Z)
           (w : npycrf_work_t) (start_cp : Z) : npycrf_work_t :=
  let max_l := u16 (if start_cp + L <=? n_cp then L else n_cp - start_cp) in
  spans_len_loop (trie (lm m)) utf8 off start_cp L (range 1 (max_l + 1)) 1 w.

Definition spans_init_step (w : npycrf_work_t) (i : Z) : npycrf_work_t :=
  let w := set_span_id w (zset (span_id w) i NPYCRF_ID_NONE) in
  let w := set_span_luni w (zset (span_luni w) i 0) in
  set_bp_prevlen w (zset (bp_prevlen w) i 0).

Definition spans_luni_step (m : npycrf_model_t) (L : Z) (w : npycrf_work_t) (el : Z * Z)
  : npycrf_work_t :=
  let '(end_cp, l) := el in
  let idx := span_index end_cp l L in
  set_span_luni w (zset (span_luni w) idx (lm_unigram_logp (lm m) (zget (span_id w) idx) l)).

Definition spans_luni_end (m : npycrf_model_t) (L : Z) (w : npycrf_work_t) (end_cp : Z)
  : npycrf_work_t :=
  let max_l := if end_cp <=? L then end_cp else L in
  fold_left (fun w l => spans_luni_step m L w (end_cp, l)) (range 1 (max_l + 1)) w.

Definition precompute_spans (m : npycrf_model_t) (utf8 off : list Z) (n_cp : Z)
           (w : npycrf_work_t) : Z * npycrf_work_t :=
  let L := max_word_len m in
  if L =? 0 then (-1, w)
  else if (max_n_cp w <? n_cp) || (w_max_word_len w <? L) then (-2, w)
  else
    let spanN := (n_cp + 1) * (L + 1) in
    let w := fold_left spans_init_step (range 0 spanN) w in
    let w := set_span_id w (zset (span_id w) (span_index 0 0 L) NPYCRF_ID_BOS) in
    let w := set_span_luni w (zset (span_luni w) (span_index 0 0 L) 0) in
    let w := fold_left (spans_start_step m utf8 off n_cp L) (range 0 n_cp) w in
    let w := fold_left (spans_luni_end m L) (range 1 (n_cp + 1)) w in
    (0, w).

(** ** CRF segment score *)

Definition crf_seg_score (m : npycrf_model_t) (w : npycrf_work_t) (s t : Z) : Z :=
  let k := u16 (t - s) in
  if k =? 0 then 0
  else if k =? 1 then add32 (zget (emit1 w) s) (trans11 (crf m))
  else
    let score := 0 in
    let score := add32 score (zget (emit1 w) s) in
    let score := add32 score (trans10 (crf m)) in
    let sum0 := i32 (zget (pref_emit0 w) t - zget (pref_emit0 w) (s + 1)) in
    let score := add32 score sum0 in
    let score := add32 score (i32 (trans00 (crf m) * (k - 2))) in
    let score := add32 score (trans01 (crf m)) in
    score.

(** ** Viterbi decoding *)

(** What [npycrf_decode] hands back: the return code, the boundaries it
    wrote to [out_b_cp] ([out_b_count] of them) and [*out_best_score]. *)
Record decode_out := {
  d_rc : Z;
  d_b_cp : list Z;
  d_b_count : Z;
  d_score : Z
}.

Definition decode_err (rc : Z) : decode_out :=
  {| d_rc := rc; d_b_cp := []; d_b_count := 0; d_score := 0 |}.

(** One turn of the loop over the previous word length [j >= 1]. *)
Definition vit_prev_step (m : npycrf_model_t) (w : npycrf_work_t)
           (L prev_pos seg curr_id curr_luni : Z) (st : Z * Z) (j : Z) : Z * Z :=
  let L1 := L + 1 in
  let prev_row := prev_pos mod L1 in
  let prev_score := zget (dp_ring w) (prev_row * L1 + j) in
  if prev_score =? NPYCRF_SCORE_NEG_INF then st else
  let prev_id := zget (span_id w) (span_index prev_pos j L) in
  let lmv := lm_bigram_logp (lm m) prev_id curr_id curr_luni in
  let add := q16_mul_q8 (lambda0 m) lmv in
  let cand := add32 (add32 prev_score seg) add in
  if fst st <? cand then (cand, u8 j) else st.

(** The scan of the predecessors of state [(pos, k)]: [(best, best_j)]. *)
Definition vit_cell_best (m : npycrf_model_t) (L pos : Z) (w : npycrf_work_t) (k : Z)
  : Z * Z :=
  let L1 := L + 1 in
  let start := u16 (pos - k) in
  let seg := crf_seg_score m w start pos in
  let idx_curr := span_index pos k L in
  let curr_id := zget (span_id w) idx_curr in
  let curr_luni := zget (span_luni w) idx_curr in
  let prev_pos := start in
  let prev_row := prev_pos mod L1 in
  let st :=
    if prev_pos =? 0 then
      let prev_score := zget (dp_ring w) (prev_row * L1 + 0) in
      if negb (prev_score =? NPYCRF_SCORE_NEG_INF) then
        let lmv := lm_bigram_logp (lm m) NPYCRF_ID_BOS curr_id curr_luni in
        let add := q16_mul_q8 (lambda0 m) lmv in
        (add32 (add32 prev_score seg) add, 0)
      else (NPYCRF_SCORE_NEG_INF, 0)
    else (NPYCRF_SCORE_NEG_INF, 0) in
  let jmax := if prev_pos <=? L then prev_pos else L in
  fold_left (vit_prev_step m w L prev_pos seg curr_id curr_luni) (range 1 (jmax + 1)) st.

(** The body of the loop over [k]: state [(pos, k)] is filled in. *)
Definition vit_cell (m : npycrf_model_t) (L pos : Z) (w : npycrf_work_t) (k : Z)
  : npycrf_work_t :=
  let L1 := L + 1 in
  let row := pos mod L1 in
  let st := vit_cell_best m L pos w k in
  let w := set_dp_ring w (zset (dp_ring w) (row * L1 + k) (fst st)) in
  set_bp_prevlen w (zset (bp_prevlen w) (span_index pos k L) (snd st)).

(** The body of the loop over [pos]. *)
Definition vit_pos (m : npycrf_model_t) (L : Z) (w : npycrf_work_t) (pos : Z)
  : npycrf_work_t :=
  let L1 := L + 1 in
  let row := pos mod L1 in
  let w := fold_left (fun w k => set_dp_ring w (zset (dp_ring w) (row * L1 + k)
                                                      NPYCRF_SCORE_NEG_INF))
                     (range 0 (L + 1)) w in
  let kmax := if pos <=? L then pos else L in
  fold_left (vit_cell m L pos) (range 1 (kmax + 1)) w.

Definition vit_final_step (w : npycrf_work_t) (L end_row : Z) (st : Z * Z) (k : Z) : Z * Z :=
  let v := zget (dp_ring w) (end_row * (L + 1) + k) in
  if fst st <? v then (v, k) else st.

(** The backtracking [while (1)]: [acc] holds the boundaries written so far,
    the last one written first, so that at the exit [acc] is the array after
    its in-place reversal.  Every turn writes a boundary and the loop leaves
    once more than [n_cp + 1] are written, so [n_cp + 3] turns always do. *)
Fixpoint vit_backtrack (fuel : nat) (w : npycrf_work_t) (L n_cp pos k : Z) (acc : list Z)
  : Z * list Z :=
  match fuel with
  | O => (-23, acc)
  | S f =>
    let acc := pos :: acc in
    if pos =? 0 then (0, acc) else
    let start := u16 (pos - k) in
    let j := zget (bp_prevlen w) (span_index pos k L) in
    let pos := start in
    let k := j in
    if pos =? 0 then (0, 0 :: acc)
    else if k =? 0 then (-22, acc)
    else if n_cp + 1 <? zlen acc then (-23, acc)
    else vit_backtrack f w L n_cp pos k acc
  end.

(** [npycrf_decode model utf8 len work out_b_cp out_b_cap out_b_count
    out_best_score]; the pointers are taken to be non-NULL. *)
Definition npycrf_decode (m : npycrf_model_t) (utf8 : list Z) (w : npycrf_work_t)
           (out_b_cap : Z) : decode_out :=
  if max_word_len m =? 0 then decode_err (-1)
  else if max_n_cp w =? 0 then decode_err (-2)
  else
    let '(n_cp_sz, off) := npycrf_utf8_make_offsets utf8 (cp_off w) (max_n_cp w + 1) in
    let w := set_cp_off w off in
    if n_cp_sz =? 0 then decode_err (-3)
    else if max_n_cp w <? n_cp_sz then decode_err (-3)
    else
      let n_cp := n_cp_sz in
      let L := max_word_len m in
      if w_max_word_len w <? L then decode_err (-4)
      else if out_b_cap <? 2 then decode_err (-5)
      else
        match precompute_emissions m utf8 (cp_off w) n_cp w with
        | (0, w) =>
          match precompute_spans m utf8 (cp_off w) n_cp w with
          | (0, w) =>
            let L1 := L + 1 in
            let w := fold_left (fun w i => set_dp_ring w (zset (dp_ring w) i
                                                               NPYCRF_SCORE_NEG_INF))
                               (range 0 (L1 * L1)) w in
            let w := set_dp_ring w (zset (dp_ring w) 0 (bos_to1 (crf m))) in
            let w := fold_left (vit_pos m L) (range 1 (n_cp + 1)) w in
            let end_row := n_cp mod L1 in
            let kmax_end := if n_cp <=? L then n_cp else L in
            let '(best_final, best_k) :=
              fold_left (vit_final_step w L end_row) (range 1 (kmax_end + 1))
                        (NPYCRF_SCORE_NEG_INF, 0) in
            if n_cp =? 0 then
              {| d_rc := 0; d_b_cp := [0; 0]; d_b_count := 2; d_score := zget (dp_ring w) 0 |}
            else if (best_k =? 0) || (best_final =? NPYCRF_SCORE_NEG_INF) then decode_err (-20)
            else if out_b_cap <? n_cp + 1 then decode_err (-21)
            else
              match vit_backtrack (Z.to_nat (n_cp + 3)) w L n_cp n_cp best_k [] with
              | (0, b) =>
                if negb (zget b 0 =? 0) || negb (zget b (zlen b - 1) =? n_cp)
                then decode_err (-24)
                else {| d_rc := 0; d_b_cp := b; d_b_count := zlen b; d_score := best_final |}
              | (rc, _) => decode_err rc
              end
          | _ => decode_err (-11)
          end
        | _ => decode_err (-10)
        end.

(** ** N-best decoding *)

(** The three parallel arrays of a top-N cell: score, previous length, previous rank. *)
Definition topn : Type := (list Z * list Z * list Z)%type.

(** [for (u = nbest - 1; u > t; u--) a[u] = a[u - 1];] *)
Definition shift_right (nbest t : Z) (a : list Z) : list Z :=
  fold_left (fun a u => zset a u (zget a (u - 1))) (rev (range (t + 1) nbest)) a.

(** The scan [for (t = 0; t < nbest; t++) if (cand > best_s[t]) { ...; break; }]. *)
Fixpoint insert_scan (ts : list Z) (nbest cand x y : Z) (b : topn) : topn :=
  match ts with
  | [] => b
  | t :: rest =>
    let '(bs, bx, by_) := b in
    if zget bs t <? cand then
      (zset (shift_right nbest t bs) t cand,
       zset (shift_right nbest t bx) t x,
       zset (shift_right nbest t by_) t y)
    else insert_scan rest nbest cand x y b
  end.

Definition topn_insert (nbest cand x y : Z) (b : topn) : topn :=
  insert_scan (range 0 nbest) nbest cand x y b.

Definition topn_init (nbest : Z) : topn :=
  (repeat NPYCRF_SCORE_NEG_INF (Z.to_nat nbest),
   repeat 0 (Z.to_nat nbest), repeat 0 (Z.to_nat nbest)).

(** The N-best tables [dp], [bp_len], [bp_rank] carved out of [nbest_buf]. *)
Record nbest_tabs := {
  nb_dp : list Z;
  nb_len : list Z;
  nb_rank : list Z
}.

(** The loop over the rank [pr] of one predecessor state [sid_prev]. *)
Definition nb_rank_step (tabs : nbest_tabs) (nbest sid_prev edge pl : Z) (b : topn) (pr : Z)
  : topn :=
  let prev := zget (nb_dp tabs) (sid_prev * nbest + pr) in
  if prev =? NPYCRF_SCORE_NEG_INF then b
  else topn_insert nbest (add32 prev edge) pl (u8 pr) b.

Definition nb_prev_step (m : npycrf_model_t) (w : npycrf_work_t) (tabs : nbest_tabs)
           (L nbest start seg curr_id curr_luni : Z) (b : topn) (j : Z) : topn :=
  let prev_id := zget (span_id w) (span_index start j L) in
  let lmv := lm_bigram_logp (lm m) prev_id curr_id curr_luni in
  let add := q16_mul_q8 (lambda0 m) lmv in
  let edge := add32 seg add in
  let sid_prev := start * (L + 1) + j in
  fold_left (nb_rank_step tabs nbest sid_prev edge (u8 j)) (range 0 nbest) b.

Definition nb_store (nbest sid : Z) (src dst : list Z) : list Z :=
  fold_left (fun d r => zset d (sid * nbest + r) (zget src r)) (range 0 nbest) dst.

(** The top-N arrays [best_s], [best_pl], [best_pr] of state [(pos, k)]. *)
Definition nb_cell_best (m : npycrf_model_t) (w : npycrf_work_t) (L nbest pos : Z)
           (tabs : nbest_tabs) (k : Z) : topn :=
  let start := u16 (pos - k) in
  let seg := crf_seg_score m w start pos in
  let idx_curr := span_index pos k L in
  let curr_id := zget (span_id w) idx_curr in
  let curr_luni := zget (span_luni w) idx_curr in
  let b := topn_init nbest in
  if start =? 0 then
    let lmv := lm_bigram_logp (lm m) NPYCRF_ID_BOS curr_id curr_luni in
    let add0 := q16_mul_q8 (lambda0 m) lmv in
    let edge := add32 seg add0 in
    fold_left (nb_rank_step tabs nbest 0 edge 0) (range 0 nbest) b
  else
    let jmax := if start <=? L then start else L in
    fold_left (nb_prev_step m w tabs L nbest start seg curr_id curr_luni)
              (range 1 (jmax + 1)) b.

(** The body of the loop over [k]: the top-N of [(pos, k)], then "store". *)
Definition nb_cell (m : npycrf_model_t) (w : npycrf_work_t) (L nbest pos : Z)
           (tabs : nbest_tabs) (k : Z) : nbest_tabs :=
  let '(bs, bpl, bpr) := nb_cell_best m w L nbest pos tabs k in
  let sid := pos * (L + 1) + k in
  {| nb_dp := nb_store nbest sid bs (nb_dp tabs);
     nb_len := nb_store nbest sid bpl (nb_len tabs);
     nb_rank := nb_store nbest sid bpr (nb_rank tabs) |}.

Definition nb_pos (m : npycrf_model_t) (w : npycrf_work_t) (L nbest : Z)
           (tabs : nbest_tabs) (pos : Z) : nbest_tabs :=
  let kmax := if pos <=? L then pos else L in
  fold_left (nb_cell m w L nbest pos) (range 1 (kmax + 1)) tabs.

(** The merge of the final row: the three arrays are [top_s], [top_k], [top_r]. *)
Definition nb_final_rank (tabs : nbest_tabs) (nbest sid k : Z) (b : topn) (r : Z) : topn :=
  let s := zget (nb_dp tabs) (sid * nbest + r) in
  if s =? NPYCRF_SCORE_NEG_INF then b
  else topn_insert nbest s k (u8 r) b.

Definition nb_final_k (tabs : nbest_tabs) (L nbest n_cp : Z) (b : topn) (k : Z) : topn :=
  let sid := n_cp * (L + 1) + k in
  fold_left (nb_final_rank tabs nbest sid k) (range 0 nbest) b.

Fixpoint nb_backtrack (fuel : nat) (tabs : nbest_tabs) (L nbest n_cp pos k r : Z)
         (acc : list Z) : Z * list Z :=
  match fuel with
  | O => (-31, acc)
  | S f =>
    let acc := pos :: acc in
    if pos =? 0 then (0, acc) else
    let start := u16 (pos - k) in
    let sid := pos * (L + 1) + k in
    let pl := zget (nb_len tabs) (sid * nbest + r) in
    let pr := zget (nb_rank tabs) (sid * nbest + r) in
    let pos := start in
    let k := pl in
    let r := pr in
    if pos =? 0 then (0, 0 :: acc)
    else if k =? 0 then (-30, acc)
    else if n_cp + 1 <? zlen acc then (-31, acc)
    else nb_backtrack f tabs L nbest n_cp pos k r acc
  end.

(** What [npycrf_decode_nbest] hands back: the return code (the number of
    candidates, or a negative error) and, per rank [i < nbest], the row of
    [out_b_cp_flat] it wrote, [out_b_count[i]] and [out_scores[i]]. *)
Record nbest_out := {
  n_rc : Z;
  n_b_cp : list (list Z);
  n_b_count : list Z;
  n_scores : list Z
}.

Definition nbest_err (rc : Z) : nbest_out :=
  {| n_rc := rc; n_b_cp := []; n_b_count := []; n_scores := [] |}.

(** The loop "5) backtrack each" over the ranks [is_]; [o] is the output so
    far with [n_rc o] the running [out_n]. *)
Fixpoint nb_emit (is_ : list Z) (tabs : nbest_tabs) (L nbest n_cp : Z) (top : topn)
         (o : nbest_out) : nbest_out :=
  match is_ with
  | [] => o
  | i :: rest =>
    let '(top_s, top_k, top_r) := top in
    if (zget top_s i =? NPYCRF_SCORE_NEG_INF) || (zget top_k i =? 0)
    then nb_emit rest tabs L nbest n_cp top
                 {| n_rc := n_rc o; n_b_cp := n_b_cp o ++ [[]];
                    n_b_count := n_b_count o; n_scores := n_scores o |}
    else
      match nb_backtrack (Z.to_nat (n_cp + 3)) tabs L nbest n_cp n_cp
                         (zget top_k i) (zget top_r i) [] with
      | (0, b) =>
        if negb (zget b 0 =? 0) || negb (zget b (zlen b - 1) =? n_cp)
        then {| n_rc := -32; n_b_cp := n_b_cp o ++ [b];
                n_b_count := n_b_count o; n_scores := n_scores o |}
        else nb_emit rest tabs L nbest n_cp top
                     {| n_rc := n_rc o + 1; n_b_cp := n_b_cp o ++ [b];
                        n_b_count := zset (n_b_count o) i (zlen b);
                        n_scores := zset (n_scores o) i (zget top_s i) |}
      | (rc, b) =>
        {| n_rc := rc; n_b_cp := n_b_cp o ++ [b];
           n_b_count := n_b_count o; n_scores := n_scores o |}
      end
  end.

(** [npycrf_decode_nbest]; [pad] is the alignment slack in front of the
    tables inside [nbest_buf] and [nbest_buf_size] the buffer's size. *)
Definition npycrf_decode_nbest (m : npycrf_model_t) (utf8 : list Z) (w : npycrf_work_t)
           (pad nbest_buf_size nbest out_b_cap : Z) : nbest_out :=
  if nbest_buf_size =? 0 then nbest_err (-1)
  else if (max_word_len m =? 0) || (nbest =? 0) then nbest_err (-1)
  else if max_n_cp w =? 0 then nbest_err (-2)
  else
    let '(n_cp_sz, off) := npycrf_utf8_make_offsets utf8 (cp_off w) (max_n_cp w + 1) in
    let w := set_cp_off w off in
    if n_cp_sz =? 0 then nbest_err (-3)
    else if max_n_cp w <? n_cp_sz then nbest_err (-3)
    else
      let n_cp := n_cp_sz in
      let L := max_word_len m in
      if w_max_word_len w <? L then nbest_err (-4)
      else if out_b_cap <? n_cp + 1 then nbest_err (-5)
      else
        match precompute_emissions m utf8 (cp_off w) n_cp w with
        | (0, w) =>
          match precompute_spans m utf8 (cp_off w) n_cp w with
          | (0, w) =>
            let L1 := L + 1 in
            let states := (n_cp + 1) * L1 in
            let need := pad + states * nbest * 4 + states * nbest + states * nbest in
            if nbest_buf_size <? need then nbest_err (-12)
            else
              let total := Z.to_nat (states * nbest) in
              let tabs := {| nb_dp := repeat NPYCRF_SCORE_NEG_INF total;
                             nb_len := repeat 0 total;
                             nb_rank := repeat 0 total |} in
              let tabs := {| nb_dp := zset (nb_dp tabs) 0 (bos_to1 (crf m));
                             nb_len := nb_len tabs; nb_rank := nb_rank tabs |} in
              (* the test [nbest > 64] stands at the head of the first cell and
                 again after the forward loop, with no output in between *)
              if 64 <? nbest then nbest_err (-13)
              else
                let tabs := fold_left (nb_pos m w L nbest) (range 1 (n_cp + 1)) tabs in
                let kmax_end := if n_cp <=? L then n_cp else L in
                let top := fold_left (nb_final_k tabs L nbest n_cp)
                                     (range 1 (kmax_end + 1)) (topn_init nbest) in
                nb_emit (range 0 nbest) tabs L nbest n_cp top
                        {| n_rc := 0; n_b_cp := [];
                           n_b_count := repeat 0 (Z.to_nat nbest);
                           n_scores := repeat 0 (Z.to_nat nbest) |}
          | _ => nbest_err (-11)
          end
        | _ => nbest_err (-10)
        end.

(** ** Forward-filtering backward-sampling

    [double] is the binary64 type [float]; [exp] and [log] of <math.h> are
    not operations of the IEEE standard and are taken as parameters. *)
Section Sampling.

Variable c_exp : float -> float.
Variable c_log : float -> float.

Definition xs32 (state : Z) : Z :=
  let x := if negb (state =? 0) then state else 0x12345678 in
  let x := Z.lxor x (u32 (Z.shiftl x 13)) in
  let x := Z.lxor x (Z.shiftr x 17) in
  let x := Z.lxor x (u32 (Z.shiftl x 5)) in
  x.

(** The random number in [0,1) and the new state. *)
Definition xs32_u01 (state : Z) : float * Z :=
  let x := xs32 state in
  (PrimFloat.mul (z2f (Z.shiftr x 8)) (PrimFloat.div 1%float 16777216%float), x).

Definition logsumexp2 (a b : float) : float :=
  if PrimFloat.eqb a neg_infinity then b
  else if PrimFloat.eqb b neg_infinity then a
  else
    let mx := if PrimFloat.ltb b a then a else b in
    PrimFloat.add mx (c_log (PrimFloat.add (c_exp (PrimFloat.sub a mx))
                                           (c_exp (PrimFloat.sub b mx)))).

Definition score_q88_to_f (q : Z) : float :=
  PrimFloat.div (z2f q) (z2f NPYCRF_SCORE_SCALE).

(** The temperature after the guard on the first line of the body. *)
Definition sane_temperature (temperature : float) : float :=
  if negb (PrimFloat.ltb 0%float temperature) || PrimFloat.is_nan temperature
     || PrimFloat.is_infinity temperature
  then 1%float else temperature.

(** [score_q88_to_f(seg + add) / temperature] for the edge from [(start, j)]. *)
Definition sample_edge (m : npycrf_model_t) (w : npycrf_work_t) (temperature : float)
           (seg prev_id curr_id curr_luni : Z) : float :=
  let lmv := lm_bigram_logp (lm m) prev_id curr_id curr_luni in
  let add := q16_mul_q8 (lambda0 m) lmv in
  PrimFloat.div (score_q88_to_f (add32 seg add)) temperature.

Definition fs_prev_step (m : npycrf_model_t) (w : npycrf_work_t) (alpha : list float)
           (temperature : float) (L start seg curr_id curr_luni : Z)
           (log_sum : float) (j : Z) : float :=
  let prev := fget alpha (start * (L + 1) + j) in
  if PrimFloat.eqb prev neg_infinity then log_sum else
  let prev_id := zget (span_id w) (span_index start j L) in
  let edge := sample_edge m w temperature seg prev_id curr_id curr_luni in
  logsumexp2 log_sum (PrimFloat.add prev edge).

Definition fs_cell (m : npycrf_model_t) (w : npycrf_work_t) (temperature : float)
           (L pos : Z) (alpha : list float) (k : Z) : list float :=
  let start := u16 (pos - k) in
  let seg := crf_seg_score m w start pos in
  let idx_curr := span_index pos k L in
  let curr_id := zget (span_id w) idx_curr in
  let curr_luni := zget (span_luni w) idx_curr in
  let log_sum :=
    if start =? 0 then
      let prev := fget alpha 0 in
      if negb (PrimFloat.eqb prev neg_infinity) then
        PrimFloat.add prev (sample_edge m w temperature seg NPYCRF_ID_BOS curr_id curr_luni)
      else neg_infinity
    else
      let jmax := if start <=? L then start else L in
      fold_left (fs_prev_step m w alpha temperature L start seg curr_id curr_luni)
                (range 1 (jmax + 1)) neg_infinity in
  fset alpha (pos * (L + 1) + k) log_sum.

Definition fs_pos (m : npycrf_model_t) (w : npycrf_work_t) (temperature : float)
           (L : Z) (alpha : list float) (pos : Z) : list float :=
  let kmax := if pos <=? L then pos else L in
  fold_left (fs_cell m w temperature L pos) (range 1 (kmax + 1)) alpha.

(** The scan that picks the final [k]: [cur_k] stays 1 unless a [k] breaks. *)
Fixpoint fs_pick_final (ks : list Z) (alpha : list float) (row : Z) (logZ u cdf : float) : Z :=
  match ks with
  | [] => 1
  | k :: rest =>
    let lp := PrimFloat.sub (fget alpha (row + k)) logZ in
    let cdf := PrimFloat.add cdf (c_exp lp) in
    if PrimFloat.leb u cdf then k else fs_pick_final rest alpha row logZ u cdf
  end.

(** The log-weight of predecessor [j], [None] when [alpha[start, j]] is -inf. *)
Definition fs_lw (m : npycrf_model_t) (w : npycrf_work_t) (alpha : list float)
           (temperature : float) (L start seg curr_id curr_luni : Z) (alpha_cur : float)
           (j : Z) : option float :=
  let a_prev := fget alpha (start * (L + 1) + j) in
  if PrimFloat.eqb a_prev neg_infinity then None else
  let prev_id := zget (span_id w) (span_index start j L) in
  let edge := sample_edge m w temperature seg prev_id curr_id curr_luni in
  Some (PrimFloat.sub (PrimFloat.add a_prev edge) alpha_cur).

(** Third pass: [pick] becomes each valid [j] in turn until [r <= acc]. *)
Fixpoint fs_pick_prev (js : list Z) (lw : Z -> option float) (maxlw r acc : float) (pick : Z)
  : Z :=
  match js with
  | [] => pick
  | j :: rest =>
    match lw j with
    | None => fs_pick_prev rest lw maxlw r acc pick
    | Some x =>
      let acc := PrimFloat.add acc (c_exp (PrimFloat.sub x maxlw)) in
      if PrimFloat.leb r acc then j else fs_pick_prev rest lw maxlw r acc j
    end
  end.

(** The backward sampling [while (1)]; the result is the code, the
    boundaries (reversed in place, as [vit_backtrack]) and the seed. *)
Fixpoint fs_backward (fuel : nat) (m : npycrf_model_t) (w : npycrf_work_t)
         (alpha : list float) (temperature : float) (L n_cp pos k seed : Z) (acc : list Z)
  : Z * list Z :=
  match fuel with
  | O => (-23, acc)
  | S f =>
    let acc := pos :: acc in
    if pos =? 0 then (0, acc) else
    let start := u16 (pos - k) in
    if start =? 0 then (0, 0 :: acc) else
    let jmax := if start <=? L then start else L in
    let seg := crf_seg_score m w start pos in
    let idx_curr := span_index pos k L in
    let curr_id := zget (span_id w) idx_curr in
    let curr_luni := zget (span_luni w) idx_curr in
    let alpha_cur := fget alpha (pos * (L + 1) + k) in
    let lw := fs_lw m w alpha temperature L start seg curr_id curr_luni alpha_cur in
    let js := range 1 (jmax + 1) in
    let '(maxlw, valid) :=
      fold_left (fun (st : float * Z) j =>
                   match lw j with
                   | None => st
                   | Some x => ((if PrimFloat.ltb (fst st) x then x else fst st), snd st + 1)
                   end) js (neg_infinity, 0) in
    if (valid =? 0) || PrimFloat.eqb maxlw neg_infinity then (-22, acc) else
    let sum :=
      fold_left (fun (sm : float) j =>
                   match lw j with
                   | None => sm
                   | Some x => PrimFloat.add sm (c_exp (PrimFloat.sub x maxlw))
                   end) js 0%float in
    if negb (PrimFloat.ltb 0%float sum) || PrimFloat.is_nan sum || PrimFloat.is_infinity sum
    then (-22, acc) else
    let '(u, seed) := xs32_u01 seed in
    let r := PrimFloat.mul u sum in
    let pick := fs_pick_prev js lw maxlw r 0%float 1 in
    if n_cp + 1 <? zlen acc then (-23, acc)
    else fs_backward f m w alpha temperature L n_cp start pick seed acc
  end.

(** The score of the sampled path, summed over its segments [i]. *)
Definition fs_score_step (m : npycrf_model_t) (w : npycrf_work_t) (L : Z) (b : list Z)
           (total : Z) (i : Z) : Z :=
  let s := zget b i in
  let t := zget b (i + 1) in
  let len_cp := u16 (t - s) in
  if (len_cp =? 0) || (L <? len_cp) then total else
  let seg := crf_seg_score m w s t in
  let idx := span_index t len_cp L in
  let curr_id := zget (span_id w) idx in
  let curr_luni := zget (span_luni w) idx in
  let prev_id :=
    if 0 <? i then
      let ps := zget b (i - 1) in
      let pt := zget b i in
      let plen := u16 (pt - ps) in
      if (0 <? plen) && (plen <=? L) then zget (span_id w) (span_index pt plen L)
      else NPYCRF_ID_BOS
    else NPYCRF_ID_BOS in
  let lmv := lm_bigram_logp (lm m) prev_id curr_id curr_luni in
  let add := q16_mul_q8 (lambda0 m) lmv in
  add32 total (add32 seg add).

(** [npycrf_decode_sample]; [pad] is the alignment slack in front of the
    alpha table inside [sample_buf]. *)
Definition npycrf_decode_sample (m : npycrf_model_t) (utf8 : list Z) (w : npycrf_work_t)
           (pad sample_buf_size : Z) (temperature : float) (seed : Z) (out_b_cap : Z)
  : decode_out :=
  if sample_buf_size =? 0 then decode_err (-1)
  else if max_word_len m =? 0 then decode_err (-1)
  else
    let temperature := sane_temperature temperature in
    if max_n_cp w =? 0 then decode_err (-2)
    else
      let '(n_cp_sz, off) := npycrf_utf8_make_offsets utf8 (cp_off w) (max_n_cp w + 1) in
      let w := set_cp_off w off in
      if n_cp_sz =? 0 then decode_err (-3)
      else if max_n_cp w <? n_cp_sz then decode_err (-3)
      else
        let n_cp := n_cp_sz in
        let L := max_word_len m in
        if w_max_word_len w <? L then decode_err (-4)
        else if out_b_cap <? 2 then decode_err (-5)
        else
          match precompute_emissions m utf8 (cp_off w) n_cp w with
          | (0, w) =>
            match precompute_spans m utf8 (cp_off w) n_cp w with
            | (0, w) =>
              let L1 := L + 1 in
              let states := (n_cp + 1) * L1 in
              let need := pad + states * 8 in
              if sample_buf_size <? need then decode_err (-12)
              else
                let alpha := repeat neg_infinity (Z.to_nat states) in
                let alpha := fset alpha 0
                                  (PrimFloat.div (score_q88_to_f (bos_to1 (crf m))) temperature) in
                let alpha := fold_left (fs_pos m w temperature L) (range 1 (n_cp + 1)) alpha in
                if n_cp =? 0 then
                  {| d_rc := 0; d_b_cp := [0; 0]; d_b_count := 2; d_score := bos_to1 (crf m) |}
                else
                  let kmax_end := if n_cp <=? L then n_cp else L in
                  let logZ := fold_left (fun z k => logsumexp2 z (fget alpha (n_cp * L1 + k)))
                                        (range 1 (kmax_end + 1)) neg_infinity in
                  if PrimFloat.eqb logZ neg_infinity then decode_err (-20)
                  else
                    let '(u, seed) := xs32_u01 seed in
                    let cur_k := fs_pick_final (range 1 (kmax_end + 1)) alpha (n_cp * L1)
                                               logZ u 0%float in
                    if out_b_cap <? n_cp + 1 then decode_err (-21)
                    else
                      match fs_backward (Z.to_nat (n_cp + 3)) m w alpha temperature
                                        L n_cp n_cp cur_k seed [] with
                      | (0, b) =>
                        if negb (zget b 0 =? 0) || negb (zget b (zlen b - 1) =? n_cp)
                        then decode_err (-24)
                        else
                          {| d_rc := 0; d_b_cp := b; d_b_count := zlen b;
                             d_score := fold_left (fs_score_step m w L b)
                                                  (range 0 (zlen b - 1)) (bos_to1 (crf m)) |}
                      | (rc, _) => decode_err rc
                      end
            | _ => decode_err (-11)
            end
          | _ => decode_err (-10)
          end.

End Sampling.

End Npycrf.

(** * mmjp_lossless.c *)
Module Lossless.

Import Mem.
Definition MMJP_LOSSLESS_ESCAPE : Z := 0x2580.
Definition MMJP_LOSSLESS_SPACE : Z := 0x2581.
Definition MMJP_LOSSLESS_TAB : Z := 0x2582.
Definition MMJP_LOSSLESS_LF : Z := 0x2583.
Definition MMJP_LOSSLESS_CR : Z := 0x2584.

(** [utf8_encode_cp]: the bytes written to [out]; their number is the
    return value. *)
Definition utf8_encode_cp (cp : Z) : list Z :=
  if cp <=? 0x7F then [u8 cp]
  else if cp <=? 0x7FF then
    [u8 (Z.lor 0xC0 (Z.land (Z.shiftr cp 6) 0x1F));
     u8 (Z.lor 0x80 (Z.land cp 0x3F))]
  else if cp <=? 0xFFFF then
    [u8 (Z.lor 0xE0 (Z.land (Z.shiftr cp 12) 0x0F));
     u8 (Z.lor 0x80 (Z.land (Z.shiftr cp 6) 0x3F));
     u8 (Z.lor 0x80 (Z.land cp 0x3F))]
  else
    [u8 (Z.lor 0xF0 (Z.land (Z.shiftr cp 18) 0x07));
     u8 (Z.lor 0x80 (Z.land (Z.shiftr cp 12) 0x3F));
     u8 (Z.lor 0x80 (Z.land (Z.shiftr cp 6) 0x3F));
     u8 (Z.lor 0x80 (Z.land cp 0x3F))].

(** [utf8_decode_cp s len pos out_cp out_adv] with [len] the length of [s]:
    [Some (cp, adv)] for the return value 1, [None] for 0. *)
Definition utf8_decode_cp (s : list Z) (pos : Z) : option (Z * Z) :=
  let len := zlen s in
  if len <=? pos then None else
  let b0 := zget s pos in
  if b0 <? 0x80 then Some (b0, 1)
  else if Z.land b0 0xE0 =? 0xC0 then
    if len <? pos + 2 then None else
    let b1 := zget s (pos + 1) in
    if negb (Z.land b1 0xC0 =? 0x80) then None
    else Some (Z.lor (Z.shiftl (Z.land b0 0x1F) 6) (Z.land b1 0x3F), 2)
  else if Z.land b0 0xF0 =? 0xE0 then
    if len <? pos + 3 then None else
    let b1 := zget s (pos + 1) in
    let b2 := zget s (pos + 2) in
    if negb (Z.land b1 0xC0 =? 0x80) || negb (Z.land b2 0xC0 =? 0x80) then None
    else Some (Z.lor (Z.lor (Z.shiftl (Z.land b0 0x0F) 12) (Z.shiftl (Z.land b1 0x3F) 6))
                     (Z.land b2 0x3F), 3)
  else if Z.land b0 0xF8 =? 0xF0 then
    if len <? pos + 4 then None else
    let b1 := zget s (pos + 1) in
    let b2 := zget s (pos + 2) in
    let b3 := zget s (pos + 3) in
    if negb (Z.land b1 0xC0 =? 0x80) || negb (Z.land b2 0xC0 =? 0x80)
       || negb (Z.land b3 0xC0 =? 0x80) then None
    else Some (Z.lor (Z.lor (Z.lor (Z.shiftl (Z.land b0 0x07) 18)
                                   (Z.shiftl (Z.land b1 0x3F) 12))
                            (Z.shiftl (Z.land b2 0x3F) 6))
                     (Z.land b3 0x3F), 4)
  else None.

Definition is_meta_char (cp : Z) : bool :=
  (MMJP_LOSSLESS_ESCAPE <=? cp) && (cp <=? MMJP_LOSSLESS_CR).

(** [memcpy (dst + off, bytes, n)] with [n] the length of [bytes]. *)
Fixpoint memcpy (dst : list Z) (off : Z) (bytes : list Z) : list Z :=
  match bytes with
  | [] => dst
  | b :: rest => memcpy (zset dst off b) (off + 1) rest
  end.

(** The bytes [src[pos .. pos + n - 1]]. *)
Definition slice (src : list Z) (pos n : Z) : list Z :=
  firstn (Z.to_nat n) (skipn (Z.to_nat pos) src).

(** [if (dst && out_len + n <= dst_cap) memcpy (dst + out_len, bytes, n)];
    a NULL [dst] is [None]. *)
Definition put (dst : option (list Z)) (dst_cap out_len : Z) (bytes : list Z)
  : option (list Z) :=
  match dst with
  | Some d => if out_len + zlen bytes <=? dst_cap then Some (memcpy d out_len bytes) else dst
  | None => None
  end.

(** [if (dst && out_len < dst_cap) dst[out_len] = b]. *)
Definition put1 (dst : option (list Z)) (dst_cap out_len : Z) (b : Z) : option (list Z) :=
  match dst with
  | Some d => if out_len <? dst_cap then Some (zset d out_len b) else dst
  | None => None
  end.

(** The [while (pos < src_len)] loop of [mmjp_lossless_encode].  Every turn
    advances [pos], so [src_len] turns and one more test reach the exit. *)
Fixpoint encode_loop (fuel : nat) (src : list Z) (dst_cap : Z) (include_newlines : bool)
         (pos out_len : Z) (dst : option (list Z)) : Z * option (list Z) :=
  if pos <? zlen src then
    match fuel with
    | O => (out_len, dst)
    | S f =>
      match utf8_decode_cp src pos with
      | None =>
        let dst := put1 dst dst_cap out_len (zget src pos) in
        encode_loop f src dst_cap include_newlines (pos + 1) (out_len + 1) dst
      | Some (cp, adv) =>
        let emit enc :=
          let dst := put dst dst_cap out_len enc in
          encode_loop f src dst_cap include_newlines (pos + adv) (out_len + zlen enc) dst in
        if cp =? 32 then emit (utf8_encode_cp MMJP_LOSSLESS_SPACE)
        else if cp =? 9 then emit (utf8_encode_cp MMJP_LOSSLESS_TAB)
        else if include_newlines && (cp =? 10) then emit (utf8_encode_cp MMJP_LOSSLESS_LF)
        else if include_newlines && (cp =? 13) then emit (utf8_encode_cp MMJP_LOSSLESS_CR)
        else if is_meta_char cp then
          emit (utf8_encode_cp MMJP_LOSSLESS_ESCAPE ++ utf8_encode_cp cp)
        else emit (slice src pos adv)
      end
    end
  else (out_len, dst).

(** [mmjp_lossless_encode src src_len dst dst_cap include_newlines] for a
    non-NULL [src] of length [src_len]: the return value and [dst]. *)
Definition mmjp_lossless_encode (src : list Z) (dst : option (list Z)) (dst_cap : Z)
           (include_newlines : bool) : Z * option (list Z) :=
  let '(out_len, dst) := encode_loop (length src) src dst_cap include_newlines 0 0 dst in
  (out_len, put1 dst dst_cap out_len 0).

(** The loop of [mmjp_lossless_decode]. *)
Fixpoint decode_loop (fuel : nat) (src : list Z) (dst_cap : Z)
         (pos out_len : Z) (dst : option (list Z)) : Z * option (list Z) :=
  if pos <? zlen src then
    match fuel with
    | O => (out_len, dst)
    | S f =>
      match utf8_decode_cp src pos with
      | None =>
        let dst := put1 dst dst_cap out_len (zget src pos) in
        decode_loop f src dst_cap (pos + 1) (out_len + 1) dst
      | Some (cp, adv) =>
        let emit pos adv dec :=
          let dst := put dst dst_cap out_len dec in
          decode_loop f src dst_cap (pos + adv) (out_len + zlen dec) dst in
        if cp =? MMJP_LOSSLESS_SPACE then emit pos adv [32]
        else if cp =? MMJP_LOSSLESS_TAB then emit pos adv [9]
        else if cp =? MMJP_LOSSLESS_LF then emit pos adv [10]
        else if cp =? MMJP_LOSSLESS_CR then emit pos adv [13]
        else if cp =? MMJP_LOSSLESS_ESCAPE then
          let pos := pos + adv in
          if pos <? zlen src then
            match utf8_decode_cp src pos with
            | Some (next_cp, next_adv) => emit pos next_adv (utf8_encode_cp next_cp)
            | None => emit pos 0 (utf8_encode_cp MMJP_LOSSLESS_ESCAPE)
            end
          else emit pos 0 (utf8_encode_cp MMJP_LOSSLESS_ESCAPE)
        else emit pos adv (slice src pos adv)
      end
    end
  else (out_len, dst).

Definition mmjp_lossless_decode (src : list Z) (dst : option (list Z)) (dst_cap : Z)
  : Z * option (list Z) :=
  let '(out_len, dst) := decode_loop (length src) src dst_cap 0 0 dst in
  (out_len, put1 dst dst_cap out_len 0).

(** [mmjp_lossless_detokenize tokens token_lens n_tokens dst dst_cap] for
    non-NULL [tokens] and [token_lens]: [tokens[i]] is [None] for a NULL
    pointer, and [token_lens[i]] is the length of the list otherwise.  The
    decoder is called on [dst + out_len], the buffer from index [out_len]
    on, with the [size_t] difference [dst_cap - out_len] (64 bits wide) as
    its capacity; what it wrote is put back behind the first [out_len]
    bytes.  The sum [total_len] is computed and never used. *)
Definition detokenize_step (dst_cap : Z) (st : Z * option (list Z)) (tok : option (list Z))
  : Z * option (list Z) :=
  let '(out_len, dst) := st in
  match tok with
  | None => st
  | Some t =>
    if zlen t =? 0 then st else
    match dst with
    | Some d =>
      let n := Z.to_nat out_len in
      let '(decoded, sub) :=
        mmjp_lossless_decode t (Some (skipn n d)) (wrap_u 64 (dst_cap - out_len)) in
      (out_len + decoded,
       match sub with Some s => Some (firstn n d ++ s) | None => Some d end)
    | None => (out_len + fst (mmjp_lossless_decode t None 0), None)
    end
  end.

Definition mmjp_lossless_detokenize (tokens : list (option (list Z)))
           (dst : option (list Z)) (dst_cap : Z) : Z * option (list Z) :=
  let '(out_len, dst) := fold_left (detokenize_step dst_cap) tokens (0, dst) in
  (out_len, put1 dst dst_cap out_len 0).

End Lossless.

(** * tools/mmjp_model.c *)
Module ModelIO.

Import Mem Npycrf.
(** ["MMJPv1\0\0"] and ["MMJPv2\0\0"]. *)
Definition MMJP_MODEL_MAGIC_V1 : list Z := [77; 77; 74; 80; 118; 49; 0; 0].
Definition MMJP_MODEL_VERSION_V1 : Z := 1.
Definition MMJP_MODEL_MAGIC : list Z := [77; 77; 74; 80; 118; 50; 0; 0].
Definition MMJP_MODEL_VERSION : Z := 2.
Definition MMJP_DA_INDEX_BYTES : Z := 4.

Record mmjp_loaded_model_t := {
  m : npycrf_model_t;
  cc_ranges_count : Z;
  owned_bytes : Z
}.

(** The file position is the list of bytes still unread; a read that
    comes up short is [None]. *)
Definition reader (A : Type) : Type := list Z -> option (A * list Z).

(** [fread (buf, 1, n, f) == n]. *)
Definition rd_bytes (n : nat) : reader (list Z) :=
  fun f => if (n <=? length f)%nat then Some (firstn n f, skipn n f) else None.

Definition rd_u32 : reader Z :=
  fun f =>
    match rd_bytes 4 f with
    | Some ([b0; b1; b2; b3], f) =>
      Some (Z.lor (Z.lor (Z.lor b0 (Z.shiftl b1 8)) (Z.shiftl b2 16)) (Z.shiftl b3 24), f)
    | _ => None
    end.

Definition rd_i16 : reader Z :=
  fun f =>
    match rd_bytes 2 f with
    | Some ([b0; b1], f) => Some (i16 (Z.lor b0 (Z.shiftl b1 8)), f)
    | _ => None
    end.

(** [n] reads in a row, all of which must succeed. *)
Fixpoint rd_many {A} (r : reader A) (n : nat) : reader (list A) :=
  fun f =>
    match n with
    | O => Some ([], f)
    | S k =>
      match r f with
      | Some (x, f) =>
        match rd_many r k f with
        | Some (xs, f) => Some (x :: xs, f)
        | None => None
        end
      | None => None
      end
    end.

(** [fread (a, sizeof (uint32_t), n, f) == n] into a [uint32_t] array and
    the same for [int16_t], on a little-endian host. *)
Definition rd_u32_array (n : Z) : reader (list Z) := rd_many rd_u32 (Z.to_nat n).
Definition rd_i16_array (n : Z) : reader (list Z) := rd_many rd_i16 (Z.to_nat n).

(** One entry of the class range table: [lo], [hi], [class_id], padding. *)
Definition rd_cc_range : reader npycrf_cc_range_t :=
  fun f =>
    match rd_u32 f with
    | Some (lo_, f) =>
      match rd_u32 f with
      | Some (hi_, f) =>
        match rd_bytes 4 f with
        | Some (buf4, f) => Some ({| lo := lo_; hi := hi_; class_id := zget buf4 0 |}, f)
        | None => None
        end
      | None => None
      end
    | None => None
    end.

(** The result of a step that leaves with [return rc] on failure. *)
Definition orelse {A} (rc : Z) (r : option A) : Z + A :=
  match r with Some x => inr x | None => inl rc end.

Notation "'try' x <- e 'else' rc ; k" :=
  (match orelse rc e with inl c => inl c | inr x => k end)
  (at level 10, x pattern, e at level 9, rc at level 0, k at level 200).

Definition list_eqb (a b : list Z) : bool :=
  (length a =? length b)%nat && forallb (fun p => fst p =? snd p) (combine a b).

(** [mmjp_model_load_bin]: [file] is the content of the file at [path]
    ([None] when it cannot be opened) and [mem_limit] what [malloc] can
    give; the result is the return code or the loaded model. *)
Definition mmjp_model_load_bin (mem_limit : Z) (file : option (list Z))
  : Z + mmjp_loaded_model_t :=
  match file with
  | None => inl (-10)
  | Some f =>
    try (magic, f) <- (rd_bytes 8 f) else (-11);
    match (if list_eqb magic MMJP_MODEL_MAGIC then Some false
           else if list_eqb magic MMJP_MODEL_MAGIC_V1 then Some true else None) with
    | None => inl (-12)
    | Some is_v1 =>
      try (hdr, f) <- (rd_many rd_u32 5 f) else (-13);
      let version := zget hdr 0 in
      let da_index_bytes := zget hdr 1 in
      let da_cap := zget hdr 2 in
      let vocab := zget hdr 3 in
      let max_word_len_ := zget hdr 4 in
      if negb (version =? (if is_v1 then MMJP_MODEL_VERSION_V1 else MMJP_MODEL_VERSION))
      then inl (-14)
      else if negb (da_index_bytes =? MMJP_DA_INDEX_BYTES) then inl (-15)
      else if (da_cap <? 2) || (vocab =? 0) || (max_word_len_ =? 0) then inl (-16)
      else
        try (lmp, f) <- (rd_many rd_i16 3 f) else (-17);
        try (tr, f) <- (rd_many rd_i16 5 f) else (-18);
        try (cnt, f) <- (rd_many rd_u32 2 f) else (-19);
        let feat_count_ := zget cnt 0 in
        let bigram_size_ := zget cnt 1 in
        try (flags_, cc_mode, cc_fallback, cc_range_count, f) <-
            (if is_v1
             then Some (0, u8 NPYCRF_CC_MODE_UTF8LEN, u8 NPYCRF_CC_MODE_ASCII, 0, f)
             else
               match rd_u32 f with
               | Some (flags_, f) =>
                 match rd_bytes 4 f with
                 | Some (buf4, f) =>
                   match rd_u32 f with
                   | Some (n, f) => Some (flags_, zget buf4 0, zget buf4 1, n, f)
                   | None => None
                   end
                 | None => None
                 end
               | None => None
               end) else (-19);
        let bytes := da_cap * 4 + da_cap * 4 + vocab * 2 + bigram_size_ * 4
                     + bigram_size_ * 2 + feat_count_ * 4 + feat_count_ * 2
                     + cc_range_count * 12 in
        if mem_limit <? bytes then inl (-20)
        else
          try (base_, f) <- (rd_u32_array da_cap f) else (-21);
          try (check_, f) <- (rd_u32_array da_cap f) else (-22);
          try (unigram, f) <- (rd_i16_array vocab f) else (-23);
          try (bigram_key_, f) <-
              (if 0 <? bigram_size_
               then match rd_u32_array bigram_size_ f with
                    | Some (a, f) => Some (Some a, f)
                    | None => None
                    end
               else Some (None, f)) else (-24);
          try (logp_bi_, f) <-
              (if 0 <? bigram_size_
               then match rd_i16_array bigram_size_ f with
                    | Some (a, f) => Some (Some a, f)
                    | None => None
                    end
               else Some (None, f)) else (-25);
          try (feat_key_, f) <-
              (if 0 <? feat_count_
               then match rd_u32_array feat_count_ f with
                    | Some (a, f) => Some (Some a, f)
                    | None => None
                    end
               else Some (None, f)) else (-26);
          try (feat_w_, f) <-
              (if 0 <? feat_count_
               then match rd_i16_array feat_count_ f with
                    | Some (a, f) => Some (Some a, f)
                    | None => None
                    end
               else Some (None, f)) else (-27);
          try (cc_ranges, f) <-
              (if 0 <? cc_range_count
               then if negb is_v1
                    then match rd_many rd_cc_range (Z.to_nat cc_range_count) f with
                         | Some (a, f) => Some (Some a, f)
                         | None => None
                         end
                    else Some (Some (repeat {| lo := 0; hi := 0; class_id := 0 |}
                                            (Z.to_nat cc_range_count)), f)
               else Some (None, f)) else (-28);
          inr {| m := {| crf := {| trans00 := zget tr 0; trans01 := zget tr 1;
                                   trans10 := zget tr 2; trans11 := zget tr 3;
                                   bos_to1 := zget tr 4;
                                   feat_key := feat_key_; feat_w := feat_w_;
                                   feat_count := feat_count_ |};
                         lm := {| trie := {| ro_base := map i32 base_;
                                             ro_check := map i32 check_;
                                             ro_capacity := da_cap |};
                                  logp_uni := Some unigram;
                                  vocab_size := vocab;
                                  bigram_key := bigram_key_; logp_bi := logp_bi_;
                                  bigram_size := bigram_size_;
                                  unk_base := zget lmp 0; unk_per_cp := zget lmp 1 |};
                         lambda0 := zget lmp 2;
                         max_word_len := u16 max_word_len_;
                         flags := flags_;
                         cc := {| mode := cc_mode; fallback := cc_fallback;
                                  ranges := cc_ranges; range_count := cc_range_count |} |};
                 cc_ranges_count := cc_range_count;
                 owned_bytes := bytes |}
    end
  end.

(** ** Writing *)

Definition wr_u32 (v : Z) : list Z :=
  [Z.land v 0xFF; Z.land (Z.shiftr v 8) 0xFF; Z.land (Z.shiftr v 16) 0xFF;
   Z.land (Z.shiftr v 24) 0xFF].

Definition wr_i16 (v : Z) : list Z :=
  let u := u16 v in [Z.land u 0xFF; Z.land (Z.shiftr u 8) 0xFF].

(** [fwrite (a, sizeof (uint32_t), n, f)] from a [uint32_t] array and the
    same for [int16_t], on a little-endian host. *)
Definition wr_u32_array (a : option (list Z)) (n : Z) : list Z :=
  flat_map (fun i => wr_u32 (oget a i)) (range 0 n).
Definition wr_i16_array (a : option (list Z)) (n : Z) : list Z :=
  flat_map (fun i => wr_i16 (oget a i)) (range 0 n).

(** The trie cells, saved as [int32_t]. *)
Definition wr_cells (a : list Z) (n : Z) : list Z :=
  flat_map (fun i => wr_u32 (u32 (i32 (zget a i)))) (range 0 n).

(** One entry of the class range table: [lo], [hi], [class_id], padding. *)
Definition wr_cc_range (r : npycrf_cc_range_t) : list Z :=
  wr_u32 (lo r) ++ wr_u32 (hi r) ++ [u8 (class_id r)] ++ [0; 0; 0].

(** [mmjp_model_save_bin]: [can_open] tells whether [fopen] succeeds; the
    result is the return code and the bytes written to the file ([None]
    when no file was opened). *)
Definition mmjp_model_save_bin (can_open : bool) (m : npycrf_model_t) : Z * option (list Z) :=
  if ro_capacity (trie (lm m)) =? 0 then (-2, None)
  else if is_null (logp_uni (lm m)) || (vocab_size (lm m) =? 0) then (-3, None)
  else if negb can_open then (-10, None)
  else
    let f := MMJP_MODEL_MAGIC in
    let f := f ++ wr_u32 MMJP_MODEL_VERSION in
    let f := f ++ wr_u32 MMJP_DA_INDEX_BYTES in
    let f := f ++ wr_u32 (u32 (ro_capacity (trie (lm m)))) in
    let f := f ++ wr_u32 (u32 (vocab_size (lm m))) in
    let f := f ++ wr_u32 (u32 (max_word_len m)) in
    let f := f ++ wr_i16 (unk_base (lm m)) in
    let f := f ++ wr_i16 (unk_per_cp (lm m)) in
    let f := f ++ wr_i16 (lambda0 m) in
    let f := f ++ wr_i16 (trans00 (crf m)) in
    let f := f ++ wr_i16 (trans01 (crf m)) in
    let f := f ++ wr_i16 (trans10 (crf m)) in
    let f := f ++ wr_i16 (trans11 (crf m)) in
    let f := f ++ wr_i16 (bos_to1 (crf m)) in
    let f := f ++ wr_u32 (feat_count (crf m)) in
    let f := f ++ wr_u32 (bigram_size (lm m)) in
    let f := f ++ wr_u32 (flags m) in
    let f := f ++ [u8 (mode (cc m))] in
    let f := f ++ [u8 (fallback (cc m))] in
    let f := f ++ [0; 0] in
    let f := f ++ wr_u32 (range_count (cc m)) in
    let f := f ++ wr_cells (ro_base (trie (lm m))) (ro_capacity (trie (lm m))) in
    let f := f ++ wr_cells (ro_check (trie (lm m))) (ro_capacity (trie (lm m))) in
    let f := f ++ wr_i16_array (logp_uni (lm m)) (vocab_size (lm m)) in
    if (0 <? bigram_size (lm m))
       && (is_null (bigram_key (lm m)) || is_null (logp_bi (lm m)))
    then (-4, Some f)
    else
      let f := if 0 <? bigram_size (lm m)
               then f ++ wr_u32_array (bigram_key (lm m)) (bigram_size (lm m))
                      ++ wr_i16_array (logp_bi (lm m)) (bigram_size (lm m))
               else f in
      if (0 <? feat_count (crf m))
         && (is_null (feat_key (crf m)) || is_null (feat_w (crf m)))
      then (-5, Some f)
      else
        let f := if 0 <? feat_count (crf m)
                 then f ++ wr_u32_array (feat_key (crf m)) (feat_count (crf m))
                        ++ wr_i16_array (feat_w (crf m)) (feat_count (crf m))
                 else f in
        let f := match ranges (cc m) with
                 | Some rs =>
                   if 0 <? range_count (cc m)
                   then f ++ flat_map (fun i => wr_cc_range (range_at rs i))
                                      (range 0 (range_count (cc m)))
                   else f
                 | None => f
                 end in
        (0, Some f).

End ModelIO.

(** * The unigram model and its MDL pruning (src/unilm_mdl/unilm_mdl.c) *)
Module Unilm.
Import Mem.

Definition UNILM_OK : Z := 0.
Definition UNILM_ERR_BADARG : Z := -1.
Definition UNILM_ERR_FULL : Z := -3.
Definition UNILM_ERR_RANGE : Z := -6.
Definition UNILM_ERR_INTERNAL : Z := -7.
Definition UNILM_DA_ROOT : Z := 1.
Definition UNILM_PIECE_MANDATORY : Z := 1.

Record unilm_piece_t := {
  str_off : Z;
  len : Z;
  len_cp : Z;
  flags : Z
}.

Definition piece0 : unilm_piece_t :=
  {| str_off := 0; len := 0; len_cp := 0; flags := 0 |}.

Definition pget (l : list unilm_piece_t) (i : Z) : unilm_piece_t :=
  if i <? 0 then piece0 else nth (Z.to_nat i) l piece0.

Fixpoint pupd_nat (l : list unilm_piece_t) (n : nat) (v : unilm_piece_t)
  : list unilm_piece_t :=
  match l with
  | [] => []
  | h :: t => match n with
              | O => v :: t
              | S n' => h :: pupd_nat t n' v
              end
  end.

Definition pset (l : list unilm_piece_t) (i : Z) (v : unilm_piece_t)
  : list unilm_piece_t :=
  if i <? 0 then l else pupd_nat l (Z.to_nat i) v.

(** [unilm_model_t]: [strbuf_cap] and [vocab_cap] are the lengths of
    [strbuf] and of [pieces] / [logp]. *)
Record unilm_model_t := {
  strbuf : list Z;
  pieces : list unilm_piece_t;
  logp : list float;
  vocab_size : Z;
  trie : DA.da_trie_t
}.

(** The pruning part of [unilm_workspace_t]: [keep_cap] is the length of
    [keep], [heap_cap] the length of [heap_idx] and [heap_score]. *)
Record unilm_workspace_t := {
  keep : list Z;
  heap_idx : list Z;
  heap_score : list float
}.

Definition keep_cap (wk : unilm_workspace_t) : Z := zlen (keep wk).
Definition heap_cap (wk : unilm_workspace_t) : Z := zlen (heap_idx wk).

(** The fields of [unilm_train_config_t] that pruning reads. *)
Record unilm_train_config_t := {
  mdl_lambda0 : float;
  mdl_lambda_len : float;
  target_vocab_size : Z;
  min_prob : float
}.

(** [unilm_utf8_next] on the bytes at [off] of [buf]. *)
Definition unilm_utf8_next (buf : list Z) (off len pos : Z) : Z :=
  if len <=? pos then len
  else
    let b := zget buf (off + pos) in
    if b <? 0x80 then pos + 1
    else if Z.land b 0xE0 =? 0xC0 then
      let n := pos + 2 in if len <? n then len else n
    else if Z.land b 0xF0 =? 0xE0 then
      let n := pos + 3 in if len <? n then len else n
    else if Z.land b 0xF8 =? 0xF0 then
      let n := pos + 4 in if len <? n then len else n
    else pos + 1.

Definition unilm_da_next_raw (da : DA.da_trie_t) (cur code : Z) : Z :=
  if (cur <=? 0) || (DA.capacity da <=? cur) then 0 else
  let b := zget (DA.base da) cur in
  if b <=? 0 then 0 else
  let idx := b + code in
  if DA.capacity da <=? idx then 0
  else if zget (DA.check da) idx =? cur then idx
  else 0.

Definition unilm_da_term_id (da : DA.da_trie_t) (node : Z) : Z :=
  let term := unilm_da_next_raw da node 0 in
  if term =? 0 then -1 else
  let v := zget (DA.base da) term in
  if 0 <=? v then -1 else i32 (- v - 1).

(** The walk over the key bytes; 0 when a transition is missing. *)
Fixpoint raw_walk (da : DA.da_trie_t) (bytes : list Z) (cur : Z) : Z :=
  match bytes with
  | [] => cur
  | c :: rest =>
    let cur := unilm_da_next_raw da cur c in
    if cur =? 0 then 0 else raw_walk da rest cur
  end.

Definition unilm_da_set_term_id (da : DA.da_trie_t) (bytes : list Z) (id : Z)
  : Z * DA.da_trie_t :=
  match bytes with
  | [] => (UNILM_ERR_BADARG, da)
  | _ =>
    let cur := raw_walk da bytes UNILM_DA_ROOT in
    if cur =? 0 then (UNILM_ERR_INTERNAL, da) else
    let term := unilm_da_next_raw da cur 0 in
    if term =? 0 then (UNILM_ERR_INTERNAL, da)
    else (UNILM_OK, DA.set_base da term (i32 (- (i32 id + 1))))
  end.

Definition unilm_model_is_init (m : unilm_model_t) : bool :=
  (0 <? Z.of_nat (length (pieces m))) && (0 <? zlen (strbuf m)).

Definition unilm_model_find_id (m : unilm_model_t) (bytes : list Z) : Z :=
  match bytes with
  | [] => -1
  | _ =>
    if negb (unilm_model_is_init m) then -1 else
    let cur := raw_walk (trie m) bytes UNILM_DA_ROOT in
    if cur =? 0 then -1 else unilm_da_term_id (trie m) cur
  end.

(** [unilm_model_piece_bytes]: the offset in [strbuf] and the length, [None]
    for the NULL result. *)
Definition unilm_model_piece_bytes (m : unilm_model_t) (id : Z) : option (Z * Z) :=
  if vocab_size m <=? id then None
  else Some (str_off (pget (pieces m) id), len (pget (pieces m) id)).

Definition bytes_at (buf : list Z) (off n : Z) : list Z :=
  map (zget buf) (range off (off + n)).

Definition unilm_piece_is_mandatory (m : unilm_model_t) (id : Z) : bool :=
  negb (Z.land (flags (pget (pieces m) id)) UNILM_PIECE_MANDATORY =? 0)
  || (len_cp (pget (pieces m) id) <=? 1).

(** The loop of [unilm_piece_char_cost]; every round moves [pos] forward, so
    [len] rounds are enough. *)
Fixpoint char_cost_loop (fuel : nat) (m : unilm_model_t) (off len pos : Z)
         (cost : float) : float :=
  if len <=? pos then cost
  else
    match fuel with
    | O => cost
    | S f =>
      let next := unilm_utf8_next (strbuf m) off len pos in
      if next <=? pos then infinity
      else
        let clen := next - pos in
        let cid := unilm_model_find_id m (bytes_at (strbuf m) (off + pos) clen) in
        if cid <? 0 then infinity
        else char_cost_loop f m off len next
                            (PrimFloat.add cost (PrimFloat.opp (fget (logp m) (u32 cid))))
    end.

Definition unilm_piece_char_cost (m : unilm_model_t) (id : Z) : float :=
  match unilm_model_piece_bytes m id with
  | None => infinity
  | Some (off, len) =>
    if len =? 0 then infinity
    else char_cost_loop (Z.to_nat len) m off len 0 0%float
  end.

(** The min-heap of the top-K selection; the loops stop after at most [i]
    and [n] rounds. *)
Fixpoint sift_up_loop (fuel : nat) (idx : list Z) (score : list float) (i : Z)
  : list Z * list float :=
  match fuel with
  | O => (idx, score)
  | S f =>
    if i <=? 0 then (idx, score)
    else
      let p := (i - 1) / 2 in
      if PrimFloat.leb (fget score p) (fget score i) then (idx, score)
      else
        sift_up_loop f (zset (zset idx p (zget idx i)) i (zget idx p))
                     (fset (fset score p (fget score i)) i (fget score p)) p
  end.

Definition heap_sift_up (idx : list Z) (score : list float) (i : Z)
  : list Z * list float :=
  sift_up_loop (Z.to_nat i) idx score i.

Fixpoint sift_down_loop (fuel : nat) (idx : list Z) (score : list float) (n i : Z)
  : list Z * list float :=
  match fuel with
  | O => (idx, score)
  | S f =>
    let l := 2 * i + 1 in
    let r := l + 1 in
    let s := i in
    let s := if (l <? n) && PrimFloat.ltb (fget score l) (fget score s) then l else s in
    let s := if (r <? n) && PrimFloat.ltb (fget score r) (fget score s) then r else s in
    if s =? i then (idx, score)
    else
      sift_down_loop f (zset (zset idx s (zget idx i)) i (zget idx s))
                     (fset (fset score s (fget score i)) i (fget score s)) n s
  end.

Definition heap_sift_down (idx : list Z) (score : list float) (n i : Z)
  : list Z * list float :=
  sift_down_loop (Z.to_nat n) idx score n i.

(** The state of the scoring loop of [unilm_prune_mdl]. *)
Record prune_state := {
  ps_keep : list Z;
  ps_idx : list Z;
  ps_score : list float;
  ps_n : Z
}.

Definition prune_step (m : unilm_model_t) (cfg : unilm_train_config_t)
           (counts : list float) (want_size_limit : bool) (K : Z)
           (st : prune_state) (i : Z) : prune_state :=
  if negb (zget (ps_keep st) i =? 0) then st
  else
    let p := pget (pieces m) i in
    let c := fget counts i in
    let c := if negb (PrimFloat.ltb 0%float c) then 0%float else c in
    let alt := unilm_piece_char_cost m i in
    let self := PrimFloat.opp (fget (logp m) i) in
    if negb (PrimFloat.is_finite alt) || negb (PrimFloat.is_finite self) then st
    else
      let saved := PrimFloat.mul (PrimFloat.sub alt self) c in
      let cost := PrimFloat.add (mdl_lambda0 cfg)
                                (PrimFloat.mul (mdl_lambda_len cfg) (z2f (len_cp p))) in
      let score := PrimFloat.sub saved cost in
      if negb want_size_limit then
        if PrimFloat.ltb 0%float score
        then {| ps_keep := zset (ps_keep st) i 1; ps_idx := ps_idx st;
                ps_score := ps_score st; ps_n := ps_n st |}
        else st
      else if K =? 0 then st
      else if ps_n st <? K then
        let (idx, sc) := heap_sift_up (zset (ps_idx st) (ps_n st) i)
                                      (fset (ps_score st) (ps_n st) score) (ps_n st) in
        {| ps_keep := ps_keep st; ps_idx := idx; ps_score := sc; ps_n := ps_n st + 1 |}
      else if PrimFloat.ltb (fget (ps_score st) 0) score then
        let (idx, sc) := heap_sift_down (zset (ps_idx st) 0 i)
                                        (fset (ps_score st) 0 score) (ps_n st) 0 in
        {| ps_keep := ps_keep st; ps_idx := idx; ps_score := sc; ps_n := ps_n st |}
      else st.

(** The score that [prune_step] gives the piece [i], and the pieces it
    scores: those that are not mandatory and whose two costs are finite. *)
Definition prune_score (m : unilm_model_t) (cfg : unilm_train_config_t)
           (counts : list float) (i : Z) : float :=
  let c := fget counts i in
  let c := if negb (PrimFloat.ltb 0%float c) then 0%float else c in
  let alt := unilm_piece_char_cost m i in
  let self := PrimFloat.opp (fget (logp m) i) in
  PrimFloat.sub (PrimFloat.mul (PrimFloat.sub alt self) c)
                (PrimFloat.add (mdl_lambda0 cfg)
                               (PrimFloat.mul (mdl_lambda_len cfg)
                                              (z2f (len_cp (pget (pieces m) i))))).

Definition prune_candidate (m : unilm_model_t) (i : Z) : bool :=
  negb (unilm_piece_is_mandatory m i)
  && PrimFloat.is_finite (unilm_piece_char_cost m i)
  && PrimFloat.is_finite (PrimFloat.opp (fget (logp m) i)).

(** The in-place compaction of the vocabulary. *)
Definition compact_step (kp : list Z)
           (st : list unilm_piece_t * list float * Z) (i : Z)
  : list unilm_piece_t * list float * Z :=
  let '(ps, lp, newV) := st in
  if negb (zget kp i =? 0) then
    if negb (newV =? i)
    then (pset ps newV (pget ps i), fset lp newV (fget lp i), newV + 1)
    else (ps, lp, newV + 1)
  else st.

Section Runtime.

(** The allocator's bound of the trie, and [exp] / [log] of <math.h>. *)
Variable mem_limit : Z.
Variable c_exp : float -> float.
Variable c_log : float -> float.

Definition norm_pass (lp : list float) (V : Z) (inv minp : float) : list float :=
  fold_left (fun lp i =>
               let p := PrimFloat.mul (c_exp (fget lp i)) inv in
               let p := if PrimFloat.ltb p minp then minp else p in
               fset lp i (c_log p))
            (range 0 V) lp.

Definition unilm_model_normalize (m : unilm_model_t) (min_prob : float)
  : Z * unilm_model_t :=
  if vocab_size m =? 0 then (UNILM_ERR_BADARG, m)
  else
    let V := vocab_size m in
    let minp := if negb (PrimFloat.ltb 0%float min_prob) then 1e-12%float else min_prob in
    let sum := fold_left (fun sum i =>
                            let p := c_exp (fget (logp m) i) in
                            let p := if negb (PrimFloat.ltb 0%float p) then 0%float else p in
                            PrimFloat.add sum p)
                         (range 0 V) 0%float in
    if negb (PrimFloat.ltb 0%float sum) then (UNILM_ERR_INTERNAL, m)
    else
      let inv := PrimFloat.div 1%float sum in
      let lp := norm_pass (logp m) V inv minp in
      let m1 := {| strbuf := strbuf m; pieces := pieces m; logp := lp;
                   vocab_size := vocab_size m; trie := trie m |} in
      let sum := fold_left (fun sum i => PrimFloat.add sum (c_exp (fget lp i)))
                           (range 0 V) 0%float in
      if negb (PrimFloat.ltb 0%float sum) then (UNILM_ERR_INTERNAL, m1)
      else
        let inv := PrimFloat.div 1%float sum in
        (UNILM_OK, {| strbuf := strbuf m; pieces := pieces m;
                      logp := norm_pass lp V inv minp;
                      vocab_size := vocab_size m; trie := trie m |}).

(** The loop that rebuilds the trie with the new ids; [m] holds the
    compacted pieces and still the old [vocab_size]. *)
Fixpoint rebuild_loop (m : unilm_model_t) (ids : list Z) (tr : DA.da_trie_t)
  : Z * DA.da_trie_t :=
  match ids with
  | [] => (UNILM_OK, tr)
  | id :: rest =>
    match unilm_model_piece_bytes m id with
    | None => (UNILM_ERR_INTERNAL, tr)
    | Some (off, blen) =>
      if blen =? 0 then (UNILM_ERR_INTERNAL, tr)
      else
        let b := bytes_at (strbuf m) off blen in
        match DA.da_trie_add_bytes mem_limit tr b with
        | (0, tr) =>
          match unilm_da_set_term_id tr b id with
          | (0, tr) => rebuild_loop m rest tr
          | (_, tr) => (UNILM_ERR_INTERNAL, tr)
          end
        | (_, tr) => (UNILM_ERR_FULL, tr)
        end
    end
  end.

Definition with_keep (wk : unilm_workspace_t) (kp : list Z) : unilm_workspace_t :=
  {| keep := kp; heap_idx := heap_idx wk; heap_score := heap_score wk |}.

(** [unilm_prune_mdl]: the return value, the model and the workspace. *)
Definition unilm_prune_mdl (m : unilm_model_t) (cfg : unilm_train_config_t)
           (wk : unilm_workspace_t) (counts : list float)
  : Z * unilm_model_t * unilm_workspace_t :=
  if vocab_size m =? 0 then (UNILM_ERR_BADARG, m, wk)
  else
    let V := vocab_size m in
    if keep_cap wk <? V then (UNILM_ERR_RANGE, m, wk)
    else
      let kp := fold_left (fun kp i => zset kp i 0) (range 0 V) (keep wk) in
      let '(kp, mandatory) :=
        fold_left (fun '(kp, mandatory) i =>
                     if unilm_piece_is_mandatory m i
                     then (zset kp i 1, mandatory + 1)
                     else (kp, mandatory))
                  (range 0 (u32 V)) (kp, 0) in
      let want_size_limit := 0 <? target_vocab_size cfg in
      if negb want_size_limit
         && negb (PrimFloat.ltb 0%float (mdl_lambda0 cfg)
                  || PrimFloat.ltb 0%float (mdl_lambda_len cfg))
      then (i32 V, m, with_keep wk kp)
      else
        let K := if want_size_limit
                 then (if target_vocab_size cfg <=? mandatory then 0
                       else target_vocab_size cfg - mandatory)
                 else 0 in
        if want_size_limit && (heap_cap wk <? K) then (UNILM_ERR_RANGE, m, with_keep wk kp)
        else
          let st := fold_left (prune_step m cfg counts want_size_limit K)
                              (range 0 (u32 V))
                              {| ps_keep := kp; ps_idx := heap_idx wk;
                                 ps_score := heap_score wk; ps_n := 0 |} in
          let kp := if want_size_limit
                    then fold_left (fun kp j => zset kp (zget (ps_idx st) j) 1)
                                   (range 0 (ps_n st)) (ps_keep st)
                    else ps_keep st in
          let wk := {| keep := kp; heap_idx := ps_idx st; heap_score := ps_score st |} in
          let '(ps, lp, newV) :=
            fold_left (compact_step kp) (range 0 (u32 V)) (pieces m, logp m, 0) in
          let m1 := {| strbuf := strbuf m; pieces := ps; logp := lp;
                       vocab_size := vocab_size m; trie := trie m |} in
          match DA.da_trie_clear (trie m) with
          | (0, tr) =>
            match rebuild_loop m1 (range 0 (u32 newV)) tr with
            | (0, tr) =>
              let m2 := {| strbuf := strbuf m; pieces := ps; logp := lp;
                           vocab_size := newV; trie := tr |} in
              (i32 newV, snd (unilm_model_normalize m2 (min_prob cfg)), wk)
            | (rc, tr) =>
              (rc, {| strbuf := strbuf m; pieces := ps; logp := lp;
                      vocab_size := vocab_size m; trie := tr |}, wk)
            end
          | (_, tr) =>
            (UNILM_ERR_INTERNAL,
             {| strbuf := strbuf m; pieces := ps; logp := lp;
                vocab_size := vocab_size m; trie := tr |}, wk)
          end.

End Runtime.

(** ** The vocabulary *)

(** The loop of [unilm_utf8_count_codepoints]; every round moves [pos]
    forward, so [len] rounds are enough. *)
Fixpoint count_loop (fuel : nat) (s : list Z) (len pos n : Z) : Z :=
  if len <=? pos then n
  else
    match fuel with
    | O => n
    | S f =>
      let next := unilm_utf8_next s 0 len pos in
      if next <=? pos then n else count_loop f s len next (n + 1)
    end.

Definition unilm_utf8_count_codepoints (s : list Z) : Z :=
  count_loop (length s) s (zlen s) 0 0.

(** [memcpy (dst + off, src, len)]. *)
Definition memcpy_at (dst : list Z) (off : Z) (src : list Z) : list Z :=
  fold_left (fun d i => zset d (off + i) (zget src i)) (range 0 (zlen src)) dst.

Definition with_flags (p : unilm_piece_t) (fl : Z) : unilm_piece_t :=
  {| str_off := str_off p; len := len p; len_cp := len_cp p; flags := fl |}.

(** The field [strbuf_len] of the C model is not in [unilm_model_t]: the
    functions that use it take it beside the model and return it.
    [unilm_model_clear]: the return value, the model and [strbuf_len]. *)
Definition unilm_model_clear (m : unilm_model_t) : Z * unilm_model_t * Z :=
  match DA.da_trie_clear (trie m) with
  | (0, tr) =>
    (UNILM_OK, {| strbuf := strbuf m; pieces := pieces m; logp := logp m;
                  vocab_size := 0; trie := tr |}, 0)
  | (_, tr) =>
    (UNILM_ERR_INTERNAL, {| strbuf := strbuf m; pieces := pieces m; logp := logp m;
                            vocab_size := 0; trie := tr |}, 0)
  end.

Section Vocabulary.

(** The allocator's bound of the trie. *)
Variable mem_limit : Z.

(** [unilm_model_add_piece]: the id or -1, the model and [strbuf_len]. *)
Definition unilm_model_add_piece (m : unilm_model_t) (strbuf_len : Z)
           (bytes : list Z) (fl : Z) : Z * unilm_model_t * Z :=
  match bytes with
  | [] => (-1, m, strbuf_len)
  | _ =>
    if negb (unilm_model_is_init m) then (-1, m, strbuf_len)
    else
      let existing := unilm_model_find_id m bytes in
      if 0 <=? existing then
        let p := pget (pieces m) existing in
        (existing,
         {| strbuf := strbuf m;
            pieces := pset (pieces m) existing (with_flags p (Z.lor (flags p) fl));
            logp := logp m; vocab_size := vocab_size m; trie := trie m |},
         strbuf_len)
      else if Z.of_nat (length (pieces m)) <=? vocab_size m then (-1, m, strbuf_len)
      else if zlen (strbuf m) <? strbuf_len + zlen bytes then (-1, m, strbuf_len)
      else
        let id := u32 (vocab_size m) in
        let off := u32 strbuf_len in
        let sb := memcpy_at (strbuf m) strbuf_len bytes in
        let sl := strbuf_len + zlen bytes in
        let ps := pset (pieces m) id
                       {| str_off := off; len := u16 (zlen bytes);
                          len_cp := u16 (unilm_utf8_count_codepoints bytes);
                          flags := fl |} in
        match DA.da_trie_add_bytes mem_limit (trie m) bytes with
        | (0, tr) =>
          match unilm_da_set_term_id tr bytes id with
          | (0, tr) =>
            (i32 id, {| strbuf := sb; pieces := ps; logp := fset (logp m) id 0%float;
                        vocab_size := vocab_size m + 1; trie := tr |}, sl)
          | (_, tr) =>
            (-1, {| strbuf := sb; pieces := ps; logp := logp m;
                    vocab_size := vocab_size m; trie := tr |}, sl)
          end
        | (_, tr) =>
          (-1, {| strbuf := sb; pieces := ps; logp := logp m;
                  vocab_size := vocab_size m; trie := tr |}, sl)
        end
  end.

(** Successive [unilm_model_add_piece] calls, with the ids they return. *)
Fixpoint add_pieces (m : unilm_model_t) (strbuf_len : Z) (reqs : list (list Z * Z))
  : list Z * unilm_model_t * Z :=
  match reqs with
  | [] => ([], m, strbuf_len)
  | (bytes, fl) :: rest =>
    let '(id, m1, sl1) := unilm_model_add_piece m strbuf_len bytes fl in
    let '(ids, m2, sl2) := add_pieces m1 sl1 rest in
    (id :: ids, m2, sl2)
  end.

End Vocabulary.

End Unilm.

(** * Insertion sequences and the child-map trie they are compared with *)
Module TrieSpec.
Import Mem DA.

(** The keys of a trie: non-empty, of bytes other than 0. *)
Definition valid_key (k : list Z) : Prop :=
  k <> [] /\ Forall (fun c => 1 <= c <= 255) k.

(** Successive [da_trie_add_bytes] calls, stopping at the first error. *)
Fixpoint add_all (mem_limit : Z) (d : da_trie_t) (ks : list (list Z)) : Z * da_trie_t :=
  match ks with
  | [] => (DA_OK, d)
  | k :: rest =>
    match da_trie_add_bytes mem_limit d k with
    | (0, d) => add_all mem_limit d rest
    | r => r
    end
  end.

(** The naive trie: every node holds the map from a byte to its child. *)
Inductive ctrie : Type := CNode (children : list (Z * ctrie)).

Definition ct_children (t : ctrie) : list (Z * ctrie) :=
  match t with CNode ch => ch end.

Fixpoint assoc_find (c : Z) (ch : list (Z * ctrie)) : option ctrie :=
  match ch with
  | [] => None
  | (c', s) :: rest => if c' =? c then Some s else assoc_find c rest
  end.

Fixpoint assoc_set (c : Z) (s : ctrie) (ch : list (Z * ctrie)) : list (Z * ctrie) :=
  match ch with
  | [] => [(c, s)]
  | (c', s') :: rest => if c' =? c then (c, s) :: rest else (c', s') :: assoc_set c s rest
  end.

Definition ct_child (t : ctrie) (c : Z) : option ctrie := assoc_find c (ct_children t).

Fixpoint ct_insert (t : ctrie) (p : list Z) : ctrie :=
  match p with
  | [] => t
  | c :: rest =>
    let sub := match ct_child t c with Some s => s | None => CNode [] end in
    CNode (assoc_set c (ct_insert sub rest) (ct_children t))
  end.

Fixpoint ct_walk (t : ctrie) (w : list Z) : option ctrie :=
  match w with
  | [] => Some t
  | c :: rest =>
    match ct_child t c with
    | Some s => ct_walk s rest
    | None => None
    end
  end.

(** The keys go in with the end marker 0, as in the double array. *)
Definition ct_of_keys (ks : list (list Z)) : ctrie :=
  fold_left (fun t k => ct_insert t (k ++ [0])) ks (CNode []).

(** Trie updates: adding a key, or storing a word id at a key. *)
Inductive trie_op : Type :=
| OpAdd (key : list Z)
| OpSet (key : list Z) (id : Z).

Definition op_key (o : trie_op) : list Z :=
  match o with OpAdd k => k | OpSet k _ => k end.

Definition op_id (o : trie_op) : Z :=
  match o with OpAdd _ => 0 | OpSet _ id => id end.

Definition op_ok (o : trie_op) : Prop :=
  valid_key (op_key o) /\ 0 <= op_id o <= 0xFFFE.

Definition run_op (mem_limit : Z) (d : da_trie_t) (o : trie_op) : Z * da_trie_t :=
  match o with
  | OpAdd k => da_trie_add_bytes mem_limit d k
  | OpSet k id => Npycrf.npycrf_da_set_term_value mem_limit d k id
  end.

Fixpoint run_ops (mem_limit : Z) (d : da_trie_t) (ops : list trie_op) : Z * da_trie_t :=
  match ops with
  | [] => (DA_OK, d)
  | o :: rest =>
    match run_op mem_limit d o with
    | (0, d) => run_ops mem_limit d rest
    | r => r
    end
  end.

Definition key_eqb (a b : list Z) : bool :=
  if list_eq_dec Z.eq_dec a b then true else false.

(** The id last stored at [k] by the updates [ops], from [v0] before them. *)
Fixpoint last_value (ops : list trie_op) (k : list Z) (v0 : option Z) : option Z :=
  match ops with
  | [] => v0
  | OpAdd _ :: rest => last_value rest k v0
  | OpSet k' id :: rest => last_value rest k (if key_eqb k' k then Some id else v0)
  end.

End TrieSpec.

(** * Part II: the proofs *)

(** ** Arrays and fixed-width integers *)
Module MemFacts.
Import Mem.

Lemma zlen_app (a b : list Z) : zlen (a ++ b) = zlen a + zlen b.
Proof. unfold zlen. rewrite length_app. lia. Qed.

Lemma zlen_nonneg (a : list Z) : 0 <= zlen a.
Proof. unfold zlen. lia. Qed.

Lemma zlen_repeat (v : Z) (n : nat) : zlen (repeat v n) = Z.of_nat n.
Proof. unfold zlen. rewrite repeat_length. reflexivity. Qed.

Lemma zlen_cons (x : Z) (l : list Z) : zlen (x :: l) = zlen l + 1.
Proof. unfold zlen. simpl length. lia. Qed.

Lemma zget_nil i : zget [] i = 0.
Proof. unfold zget. destruct (i <? 0); [reflexivity|]. destruct (Z.to_nat i); reflexivity. Qed.

Lemma upd_nat_length l n v : length (upd_nat l n v) = length l.
Proof. revert n; induction l as [|h t IH]; intros [|n]; simpl; auto. Qed.

Lemma zset_length l i v : length (zset l i v) = length l.
Proof. unfold zset. destruct (i <? 0); [reflexivity|apply upd_nat_length]. Qed.

Lemma zlen_zset l i v : zlen (zset l i v) = zlen l.
Proof. unfold zlen. now rewrite zset_length. Qed.

Lemma nth_upd_nat_same l n v : (n < length l)%nat -> nth n (upd_nat l n v) 0 = v.
Proof. revert n; induction l as [|h t IH]; intros [|n] H; simpl in *; try lia; auto. apply IH; lia. Qed.

Lemma nth_upd_nat_other l n k v : n <> k -> nth k (upd_nat l n v) 0 = nth k l 0.
Proof.
  revert n k; induction l as [|h t IH]; intros [|n] [|k] H; simpl; auto; try congruence.
Qed.

Lemma zget_zset_same l i v : 0 <= i < zlen l -> zget (zset l i v) i = v.
Proof.
  unfold zget, zset, zlen. intros H.
  destruct (i <? 0) eqn:E; [apply Z.ltb_lt in E; lia|].
  apply nth_upd_nat_same. lia.
Qed.

Lemma zget_zset_other l i j v : i <> j -> zget (zset l i v) j = zget l j.
Proof.
  unfold zget, zset. intros H.
  destruct (j <? 0) eqn:Ej; [reflexivity|].
  destruct (i <? 0) eqn:Ei; [reflexivity|].
  apply nth_upd_nat_other. apply Z.ltb_ge in Ej, Ei. lia.
Qed.

Lemma zget_zset l i j v :
  zget (zset l i v) j = if (i =? j) && (0 <=? i) && (i <? zlen l) then v else zget l j.
Proof.
  destruct (Z.eqb_spec i j) as [->|Hne]; simpl.
  - destruct (Z.leb_spec 0 j); simpl.
    + destruct (Z.ltb_spec j (zlen l)).
      * apply zget_zset_same; lia.
      * unfold zget, zset. destruct (j <? 0); [reflexivity|].
        f_equal. unfold zlen in H0.
        assert (Hl : (length l <= Z.to_nat j)%nat) by lia.
        revert Hl. generalize (Z.to_nat j) as n. clear. intros n. revert n. induction l as [|h t IH]; intros [|n] Hl; simpl in *; auto; try lia.
        f_equal. apply IH. lia.
    + unfold zset. destruct (j <? 0) eqn:E; [reflexivity|apply Z.ltb_ge in E; lia].
  - apply zget_zset_other; assumption.
Qed.

Lemma zget_out l i : zlen l <= i -> zget l i = 0.
Proof.
  unfold zget, zlen. intros H. destruct (i <? 0); [reflexivity|].
  apply nth_overflow. lia.
Qed.

Lemma zget_neg l i : i < 0 -> zget l i = 0.
Proof. unfold zget. intros H. apply Z.ltb_lt in H. now rewrite H. Qed.

Lemma zget_app_l l l' i : i < zlen l -> zget (l ++ l') i = zget l i.
Proof.
  unfold zget, zlen. intros H. destruct (i <? 0) eqn:E; [reflexivity|].
  apply Z.ltb_ge in E. apply app_nth1. lia.
Qed.

Lemma zget_app_zeros l n i : zget (l ++ repeat 0 n) i = zget l i.
Proof.
  destruct (Z.ltb_spec i (zlen l)); [now apply zget_app_l|].
  rewrite (zget_out l) by assumption.
  unfold zget. destruct (i <? 0); [reflexivity|].
  unfold zlen in H. rewrite app_nth2 by lia.
  generalize (Z.to_nat i - length l)%nat as k. clear.
  induction n as [|n IH]; intros [|k]; simpl; auto.
Qed.

Lemma zget_repeat0 n i : zget (repeat 0 n) i = 0.
Proof. change (repeat 0 n) with ([] ++ repeat 0 n). rewrite zget_app_zeros. apply zget_nil. Qed.

Lemma zseq_length lo n : length (zseq lo n) = n.
Proof. unfold zseq. now rewrite length_map, length_seq. Qed.

Lemma zseq_S lo n : zseq lo (S n) = zseq lo n ++ [lo + Z.of_nat n].
Proof. unfold zseq. rewrite seq_S, map_app. reflexivity. Qed.

Lemma zseq_cons lo n : zseq lo (S n) = lo :: zseq (lo + 1) n.
Proof.
  unfold zseq. simpl. f_equal; [lia|].
  rewrite <- seq_shift, map_map. apply map_ext. intros; lia.
Qed.

Lemma in_zseq lo n x : In x (zseq lo n) <-> lo <= x < lo + Z.of_nat n.
Proof.
  unfold zseq. rewrite in_map_iff. split.
  - intros (i & <- & Hi). apply in_seq in Hi. lia.
  - intros H. exists (Z.to_nat (x - lo)). split; [lia|]. apply in_seq. lia.
Qed.

Lemma in_range lo hi x : In x (range lo hi) <-> lo <= x < hi.
Proof. unfold range. rewrite in_zseq. lia. Qed.

Lemma range_nil lo hi : hi <= lo -> range lo hi = [].
Proof. unfold range. intros H. replace (Z.to_nat (hi - lo)) with O by lia. reflexivity. Qed.

Lemma range_snoc lo hi : lo <= hi -> range lo (hi + 1) = range lo hi ++ [hi].
Proof.
  unfold range. intros H. replace (Z.to_nat (hi + 1 - lo)) with (S (Z.to_nat (hi - lo))) by lia.
  rewrite zseq_S. do 2 f_equal. lia.
Qed.

Lemma range_cons lo hi : lo < hi -> range lo hi = lo :: range (lo + 1) hi.
Proof.
  unfold range. intros H. replace (Z.to_nat (hi - lo)) with (S (Z.to_nat (hi - (lo + 1)))) by lia.
  apply zseq_cons.
Qed.

Lemma fold_range_ind {A} (P : Z -> A -> Prop) (f : A -> Z -> A) (a0 : A) (n : Z) :
  0 <= n -> P 0 a0 ->
  (forall t a, 0 <= t < n -> P t a -> P (t + 1) (f a t)) ->
  P n (fold_left f (range 0 n) a0).
Proof.
  intros Hn H0 Hstep.
  assert (G : forall k : nat, Z.of_nat k <= n ->
                P (Z.of_nat k) (fold_left f (range 0 (Z.of_nat k)) a0)).
  { induction k as [|k IH]; intros Hk.
    - simpl. exact H0.
    - rewrite Nat2Z.inj_succ. unfold Z.succ.
      rewrite range_snoc by lia. rewrite fold_left_app. cbn [fold_left].
      apply Hstep; [lia|]. apply IH. lia. }
  specialize (G (Z.to_nat n)). rewrite Z2Nat.id in G by assumption. apply G. lia.
Qed.

Lemma zget_snoc (l : list Z) (x : Z) : zget (l ++ [x]) (zlen l) = x.
Proof.
  unfold zget, zlen. destruct (Z.ltb_spec (Z.of_nat (length l)) 0); [lia|].
  rewrite Nat2Z.id, app_nth2, Nat.sub_diag by lia. reflexivity.
Qed.

Lemma zget_range (n i : Z) : 0 <= i < n -> zget (range 0 n) i = i.
Proof.
  intros H. unfold zget, range, zseq. destruct (Z.ltb_spec i 0); [lia|].
  rewrite Z.sub_0_r.
  rewrite (nth_indep _ 0 (0 + Z.of_nat 0)) by (rewrite length_map, length_seq; lia).
  rewrite (map_nth (fun k => 0 + Z.of_nat k)), seq_nth by lia. lia.
Qed.

Lemma NoDup_zseq lo n : NoDup (zseq lo n).
Proof.
  unfold zseq. generalize 0%nat as s. induction n as [|n IH]; intros s; simpl; constructor.
  - rewrite in_map_iff. intros (i & Hi & Hin). apply in_seq in Hin. lia.
  - apply IH.
Qed.

Lemma i32_unfold x : i32 x = (x + 2147483648) mod 4294967296 - 2147483648.
Proof. reflexivity. Qed.

Lemma i32_id x : in_i32 x -> i32 x = x.
Proof.
  unfold in_i32. rewrite i32_unfold. intros H. rewrite Z.mod_small; lia.
Qed.

Lemma i32_range x : in_i32 (i32 x).
Proof.
  unfold in_i32. rewrite i32_unfold.
  assert (0 <= (x + 2147483648) mod 4294967296 < 4294967296) by (apply Z.mod_pos_bound; lia).
  lia.
Qed.

Lemma i32_idem x : i32 (i32 x) = i32 x.
Proof. apply i32_id, i32_range. Qed.

Lemma i32_add_l a b : i32 (i32 a + b) = i32 (a + b).
Proof.
  rewrite !i32_unfold. f_equal.
  replace ((a + 2147483648) mod 4294967296 - 2147483648 + b + 2147483648)
    with ((a + 2147483648) mod 4294967296 + b) by lia.
  replace (a + b + 2147483648) with ((a + 2147483648) + b) by lia.
  rewrite Zplus_mod_idemp_l. reflexivity.
Qed.

Lemma i32_add_r a b : i32 (a + i32 b) = i32 (a + b).
Proof. rewrite Z.add_comm, i32_add_l. f_equal. lia. Qed.

Lemma add32_assoc a b c : add32 (add32 a b) c = add32 a (add32 b c).
Proof. unfold add32. rewrite i32_add_l, i32_add_r. f_equal. lia. Qed.

Lemma add32_exact a b : in_i32 (a + b) -> add32 a b = a + b.
Proof. apply i32_id. Qed.

Lemma u8_small x : 0 <= x < 256 -> u8 x = x.
Proof. unfold u8, wrap_u. intros. apply Z.mod_small. simpl. lia. Qed.

End MemFacts.

(** ** The decoders *)
Module NpycrfProofs.

Import Mem MemFacts Npycrf.

(** ** Empty input *)

Lemma make_offsets_nil off cap : fst (npycrf_utf8_make_offsets [] off cap) = 0.
Proof.
  unfold npycrf_utf8_make_offsets. simpl.
  destruct (cap <=? 0); reflexivity.
Qed.

(** C1 (as the code has it): on the empty input [npycrf_decode] never returns
    success; the count 0 of [npycrf_utf8_make_offsets] is taken for its error
    value and the call ends with a negative code before the branch that
    writes the boundaries [0, 0]. *)
Theorem npycrf_decode_empty_input_rejected (m : npycrf_model_t) (w : npycrf_work_t)
        (out_b_cap : Z) :
  d_rc (npycrf_decode m [] w out_b_cap) < 0 /\
  d_b_count (npycrf_decode m [] w out_b_cap) = 0.
Proof.
  unfold npycrf_decode.
  destruct (max_word_len m =? 0); [simpl; lia|].
  destruct (max_n_cp w =? 0); [simpl; lia|].
  pose proof (make_offsets_nil (cp_off w) (max_n_cp w + 1)) as H.
  destruct (npycrf_utf8_make_offsets [] (cp_off w) (max_n_cp w + 1)) as [n off].
  simpl in H. subst n. simpl. lia.
Qed.

(** ** The prefix sums of [emit0] *)

Definition emit0_range_sum (w : npycrf_work_t) (a b : Z) : Z :=
  fold_left Z.add (map (zget (emit0 w)) (range a b)) 0.

(** The segment score recomputed naively, over the integers. *)
Definition naive_seg_score (m : npycrf_model_t) (w : npycrf_work_t) (s t : Z) : Z :=
  zget (emit1 w) s + trans10 (crf m) + emit0_range_sum w (s + 1) t
  + (t - s - 2) * trans00 (crf m) + trans01 (crf m).

Lemma fold_add_acc l a : fold_left Z.add l a = a + fold_left Z.add l 0.
Proof.
  revert a. induction l as [|x l IH]; intros a; simpl; [lia|].
  rewrite (IH (a + x)), (IH x). lia.
Qed.

Lemma emit0_range_sum_snoc w a b :
  a <= b -> emit0_range_sum w a (b + 1) = emit0_range_sum w a b + zget (emit0 w) b.
Proof.
  intros H. unfold emit0_range_sum. rewrite range_snoc by assumption.
  rewrite map_app, fold_left_app. reflexivity.
Qed.

Lemma emit0_range_sum_empty w a : emit0_range_sum w a a = 0.
Proof. unfold emit0_range_sum. rewrite range_nil by lia. reflexivity. Qed.

Lemma emit0_range_sum_split w a b c :
  a <= b -> b <= c ->
  emit0_range_sum w a c = emit0_range_sum w a b + emit0_range_sum w b c.
Proof.
  intros Hab Hbc.
  replace c with (b + Z.of_nat (Z.to_nat (c - b))) by lia.
  induction (Z.to_nat (c - b)) as [|n IH].
  - rewrite Z.add_0_r, emit0_range_sum_empty. lia.
  - replace (b + Z.of_nat (S n)) with (b + Z.of_nat n + 1) by lia.
    rewrite !emit0_range_sum_snoc by lia. lia.
Qed.

Lemma emit0_range_sum_bound w a b :
  (forall i, a <= i < b -> in_i16 (zget (emit0 w) i)) ->
  a <= b ->
  - 32768 * (b - a) <= emit0_range_sum w a b <= 32767 * (b - a).
Proof.
  intros Hb Hab.
  replace b with (a + Z.of_nat (Z.to_nat (b - a))) in * by lia.
  induction (Z.to_nat (b - a)) as [|n IH].
  - rewrite Z.add_0_r, emit0_range_sum_empty. lia.
  - replace (a + Z.of_nat (S n)) with (a + Z.of_nat n + 1) in * by lia.
    rewrite emit0_range_sum_snoc by lia.
    assert (in_i16 (zget (emit0 w) (a + Z.of_nat n))) as Hi by (apply Hb; lia).
    unfold in_i16 in Hi.
    assert (- 32768 * (a + Z.of_nat n - a) <= emit0_range_sum w a (a + Z.of_nat n)
            <= 32767 * (a + Z.of_nat n - a)) by (apply IH; [intros; apply Hb; lia|lia]).
    lia.
Qed.

Lemma clamp16_range x : in_i16 (clamp16 x).
Proof.
  unfold clamp16, in_i16.
  destruct (Z.ltb_spec 32767 x); [simpl; lia|].
  destruct (Z.ltb_spec x (-32768)); lia.
Qed.

Lemma crf_emit_pos_range c l p u n : in_i16 (crf_emit_pos c l p u n).
Proof. unfold crf_emit_pos. apply clamp16_range. Qed.

(** The emission loop only writes [emit0] and [emit1], and every cell of
    [emit0] it has visited holds an [int16_t]. *)
Lemma emissions_loop_spec c utf8 off n_cp is_ :
  forall w rc w',
    emissions_loop c utf8 off n_cp is_ w = (rc, w') ->
    pref_emit0 w' = pref_emit0 w /\
    zlen (emit0 w') = zlen (emit0 w) /\
    (rc = 0 ->
     forall i, 0 <= i < zlen (emit0 w) ->
               In i is_ \/ in_i16 (zget (emit0 w) i) -> in_i16 (zget (emit0 w') i)).
Proof.
  induction is_ as [|i0 rest IH]; intros w rc w' H; simpl in H.
  - inversion H; subst. split; [reflexivity|split; [reflexivity|]].
    intros _ i Hi [[]|Hin]; assumption.
  - destruct (class_at utf8 off i0) as [cur|];
      [|inversion H; subst; split; [reflexivity|split; [reflexivity|discriminate]]].
    destruct (if 0 <? i0 then class_at utf8 off (i0 - 1) else Some CC_BOS) as [prev|];
      [|inversion H; subst; split; [reflexivity|split; [reflexivity|discriminate]]].
    destruct (if i0 + 1 <? n_cp then class_at utf8 off (i0 + 1) else Some CC_EOS) as [next|];
      [|inversion H; subst; split; [reflexivity|split; [reflexivity|discriminate]]].
    apply IH in H. simpl in H. destruct H as (Hp & Hl & Hr).
    rewrite zlen_zset in Hl. split; [assumption|split; [assumption|]].
    intros Hrc i Hi Hor. apply Hr; auto; [rewrite zlen_zset; assumption|].
    destruct (Z.eq_dec i i0) as [->|Hne].
    + right. rewrite zget_zset_same by assumption. apply crf_emit_pos_range.
    + rewrite zget_zset_other by congruence.
      destruct Hor as [[Heq|Hin]|Hin]; [congruence|left; assumption|right; assumption].
Qed.

(** After [n] turns of the prefix loop, [pref_emit0[i]] is the exact sum of
    [emit0[0..i-1]] for every [i <= n]. *)
Lemma prefix_loop_spec (w : npycrf_work_t) (n : nat) :
  Z.of_nat n <= 65535 ->
  Z.of_nat n < zlen (pref_emit0 w) ->
  zget (pref_emit0 w) 0 = 0 ->
  (forall i, 0 <= i < Z.of_nat n -> in_i16 (zget (emit0 w) i)) ->
  let w' := fold_left prefix_step (range 0 (Z.of_nat n)) w in
  emit0 w' = emit0 w /\ emit1 w' = emit1 w /\
  zlen (pref_emit0 w') = zlen (pref_emit0 w) /\
  forall i, 0 <= i <= Z.of_nat n -> zget (pref_emit0 w') i = emit0_range_sum w 0 i.
Proof.
  induction n as [|n IH]; intros Hn Hlen H0 Hb.
  - simpl. repeat split; auto. intros i Hi. replace i with 0 by lia.
    rewrite emit0_range_sum_empty. assumption.
  - replace (Z.of_nat (S n)) with (Z.of_nat n + 1) in * by lia.
    rewrite range_snoc by lia. rewrite fold_left_app. simpl.
    assert (IH' := IH ltac:(lia) ltac:(lia) H0 ltac:(intros; apply Hb; lia)).
    clear IH. cbv zeta in IH'. destruct IH' as (He0 & He1 & Hl & Hs).
    set (w1 := fold_left prefix_step (range 0 (Z.of_nat n)) w) in *.
    unfold prefix_step. simpl. rewrite zlen_zset. repeat split; auto.
    intros i Hi. destruct (Z.eq_dec i (Z.of_nat n + 1)) as [->|Hne].
    + rewrite zget_zset_same by lia. rewrite Hs by lia. rewrite He0.
      rewrite emit0_range_sum_snoc by lia. apply add32_exact.
      pose proof (emit0_range_sum_bound w 0 (Z.of_nat n)) as Hbd.
      assert (in_i16 (zget (emit0 w) (Z.of_nat n))) as Hi16 by (apply Hb; lia).
      unfold in_i16 in Hi16. unfold in_i32.
      assert (- 32768 * (Z.of_nat n - 0) <= emit0_range_sum w 0 (Z.of_nat n)
              <= 32767 * (Z.of_nat n - 0)) by (apply Hbd; [intros; apply Hb; lia|lia]).
      lia.
    + rewrite zget_zset_other by lia. apply Hs. lia.
Qed.

(** What [precompute_emissions] leaves in the work tables. *)
Lemma precompute_emissions_spec m utf8 off n_cp w w' :
  0 <= n_cp <= 65535 ->
  n_cp <= zlen (emit0 w) ->
  n_cp < zlen (pref_emit0 w) ->
  precompute_emissions m utf8 off n_cp w = (0, w') ->
  (forall i, 0 <= i < n_cp -> in_i16 (zget (emit0 w') i)) /\
  (forall i, 0 <= i <= n_cp -> zget (pref_emit0 w') i = emit0_range_sum w' 0 i).
Proof.
  intros Hn Hle Hlp H. unfold precompute_emissions in H.
  destruct (emissions_loop (crf m) utf8 off n_cp (range 0 n_cp) w) as [rc w1] eqn:E.
  apply emissions_loop_spec in E. destruct E as (Hp & Hl & Hr).
  destruct rc; try (inversion H; fail).
  inversion H as [Hw]; clear H.
  specialize (Hr eq_refl).
  assert (Hb1 : forall i, 0 <= i < n_cp -> in_i16 (zget (emit0 w1) i)).
  { intros i Hi. apply Hr; [lia|]. left. apply in_range. lia. }
  set (w2 := set_pref_emit0 w1 (zset (pref_emit0 w1) 0 0)) in *.
  pose proof (prefix_loop_spec w2 (Z.to_nat n_cp)) as Hps.
  replace (Z.of_nat (Z.to_nat n_cp)) with n_cp in Hps by lia.
  simpl in Hps. destruct Hps as (He0 & He1 & Hl2 & Hs).
  - lia.
  - unfold w2. simpl. rewrite zlen_zset. rewrite Hp. lia.
  - unfold w2. simpl. apply zget_zset_same. rewrite Hp. lia.
  - exact Hb1.
  - split.
    + intros i Hi. rewrite He0. apply Hb1. assumption.
    + intros i Hi. rewrite Hs by assumption. unfold emit0_range_sum. rewrite He0. reflexivity.
Qed.

Lemma add32_l a b : add32 (i32 a) b = i32 (a + b).
Proof. apply i32_add_l. Qed.

Lemma u16_small x : 0 <= x <= 65535 -> u16 x = x.
Proof. unfold u16, wrap_u. intros. apply Z.mod_small. simpl. lia. Qed.

(** The prefix sums against the naive sum, and the segment score. *)
Lemma seg_score_prefix_sum (m : npycrf_model_t) (utf8 off : list Z)
        (n_cp : Z) (w0 w : npycrf_work_t) (s t : Z) :
  0 <= n_cp <= 65535 ->
  n_cp <= zlen (emit0 w0) ->
  n_cp < zlen (pref_emit0 w0) ->
  precompute_emissions m utf8 off n_cp w0 = (0, w) ->
  0 <= s -> s + 2 <= t -> t <= n_cp ->
  zget (pref_emit0 w) t - zget (pref_emit0 w) (s + 1) = emit0_range_sum w (s + 1) t /\
  crf_seg_score m w s t = i32 (naive_seg_score m w s t).
Proof.
  intros Hn Hle Hlp Hpre Hs Hst Ht.
  destruct (precompute_emissions_spec _ _ _ _ _ _ Hn Hle Hlp Hpre) as (Hb & Hsum).
  assert (Hdiff : zget (pref_emit0 w) t - zget (pref_emit0 w) (s + 1)
                  = emit0_range_sum w (s + 1) t).
  { rewrite !Hsum by lia. rewrite (emit0_range_sum_split w 0 (s + 1) t) by lia. lia. }
  split; [exact Hdiff|].
  unfold crf_seg_score, naive_seg_score.
  rewrite u16_small by lia.
  destruct (Z.eqb_spec (t - s) 0); [lia|].
  destruct (Z.eqb_spec (t - s) 1); [lia|].
  rewrite Hdiff.
  change (add32 0 (zget (emit1 w) s)) with (i32 (0 + zget (emit1 w) s)).
  repeat (rewrite add32_l; try rewrite i32_add_r).
  f_equal. lia.
Qed.

(** C7: after the emission precomputation of a sentence of [n_cp] code
    points, for every span [s, t) of length [k = t - s >= 2] the difference
    [pref_emit0[t] - pref_emit0[s+1]] is exactly the sum of
    [emit0[s+1..t-1]], and [crf_seg_score] is the 32-bit value of
    [emit1[s] + trans10 + sum + (k-2)*trans00 + trans01]. *)
Theorem crf_seg_score_is_naive (m : npycrf_model_t) (utf8 off : list Z)
        (n_cp : Z) (w0 w : npycrf_work_t) (s t : Z) :
  0 <= n_cp <= 65535 ->
  n_cp <= zlen (emit0 w0) ->
  n_cp < zlen (pref_emit0 w0) ->
  precompute_emissions m utf8 off n_cp w0 = (0, w) ->
  0 <= s -> s + 2 <= t -> t <= n_cp ->
  zget (pref_emit0 w) t - zget (pref_emit0 w) (s + 1) = emit0_range_sum w (s + 1) t /\
  crf_seg_score m w s t = i32 (naive_seg_score m w s t).
Proof. apply seg_score_prefix_sum. Qed.

(** The example of the decoder theorems: the words [a] (id 0) and [ab]
    (id 1), a unigram model, no CRF feature. *)
Definition ex_trie : DA.da_trie_t :=
  snd (npycrf_da_set_term_value 4096
         (snd (npycrf_da_set_term_value 4096 (snd (DA.da_trie_init_dynamic 4096 16)) [97] 0))
         [97; 98] 1).

Definition ex_crf : npycrf_crf_t :=
  {| trans00 := 3; trans01 := -5; trans10 := 7; trans11 := 0; bos_to1 := 0;
     feat_key := None; feat_w := None; feat_count := 0 |}.

Definition ex_lm : npycrf_lm_t :=
  {| trie := ro_view ex_trie; logp_uni := Some [-177; -177]; vocab_size := 2;
     bigram_key := None; logp_bi := None; bigram_size := 0;
     unk_base := -1280; unk_per_cp := -256 |}.

Definition ex_cc : npycrf_cc_t :=
  {| mode := NPYCRF_CC_MODE_COMPAT; fallback := NPYCRF_CC_MODE_UTF8LEN;
     ranges := None; range_count := 0 |}.

Definition ex_model : npycrf_model_t :=
  {| crf := ex_crf; lm := ex_lm; lambda0 := 256; max_word_len := 2; flags := 0; cc := ex_cc |}.

Definition ex_work : npycrf_work_t := npycrf_work_init 16 2.

Definition ex_emitted : npycrf_work_t :=
  snd (precompute_emissions ex_model [97; 98; 99] [0; 1; 2; 3] 3 ex_work).

Lemma crf_seg_score_is_naive_witness :
  precompute_emissions ex_model [97; 98; 99] [0; 1; 2; 3] 3 ex_work = (0, ex_emitted) /\
  crf_seg_score ex_model ex_emitted 0 3 = i32 (naive_seg_score ex_model ex_emitted 0 3).
Proof.
  assert (E : precompute_emissions ex_model [97; 98; 99] [0; 1; 2; 3] 3 ex_work
              = (0, ex_emitted)) by (vm_compute; reflexivity).
  split; [exact E|].
  apply (crf_seg_score_is_naive ex_model [97; 98; 99] [0; 1; 2; 3] 3 ex_work ex_emitted 0 3);
    [lia|vm_compute; discriminate|vm_compute; reflexivity|exact E|lia|lia|lia].
Defined.

(** ** The decoders never read [model->cc] *)

(** The model [m] with its [cc] field replaced. *)
Definition with_cc (m : npycrf_model_t) (c : npycrf_cc_t) : npycrf_model_t :=
  {| crf := crf m; lm := lm m; lambda0 := lambda0 m; max_word_len := max_word_len m;
     flags := flags m; cc := c |}.

(** Two models that differ at most in the [cc] field. *)
Definition same_but_cc (m1 m2 : npycrf_model_t) : Prop :=
  crf m1 = crf m2 /\ lm m1 = lm m2 /\ lambda0 m1 = lambda0 m2 /\
  max_word_len m1 = max_word_len m2 /\ flags m1 = flags m2.

Lemma same_but_cc_with_cc m1 m2 : same_but_cc m1 m2 -> m2 = with_cc m1 (cc m2).
Proof.
  destruct m1, m2. unfold same_but_cc, with_cc. simpl.
  intros (-> & -> & -> & -> & ->). reflexivity.
Qed.

Lemma decode_with_cc m c utf8 w cap :
  npycrf_decode (with_cc m c) utf8 w cap = npycrf_decode m utf8 w cap.
Proof. reflexivity. Qed.

Lemma decode_nbest_with_cc m c utf8 w pad sz nbest cap :
  npycrf_decode_nbest (with_cc m c) utf8 w pad sz nbest cap
  = npycrf_decode_nbest m utf8 w pad sz nbest cap.
Proof. reflexivity. Qed.

Lemma fs_backward_with_cc c_exp m c w alpha temp L n_cp fuel :
  forall pos k seed acc,
    fs_backward c_exp fuel (with_cc m c) w alpha temp L n_cp pos k seed acc
    = fs_backward c_exp fuel m w alpha temp L n_cp pos k seed acc.
Proof.
  induction fuel as [|f IH]; intros pos k seed acc; [reflexivity|].
  cbn [fs_backward].
  destruct (pos =? 0); [reflexivity|].
  destruct (u16 (pos - k) =? 0); [reflexivity|].
  change (crf_seg_score (with_cc m c)) with (crf_seg_score m).
  change (fs_lw (with_cc m c)) with (fs_lw m).
  destruct (fold_left _ _ (neg_infinity, 0)) as [maxlw valid].
  destruct (_ || _); [reflexivity|].
  destruct (_ || _); [reflexivity|].
  destruct (xs32_u01 seed) as [u seed'].
  destruct (_ <? _); [reflexivity|].
  apply IH.
Qed.

Lemma decode_sample_with_cc c_exp c_log m c utf8 w pad sz temp seed cap :
  npycrf_decode_sample c_exp c_log (with_cc m c) utf8 w pad sz temp seed cap
  = npycrf_decode_sample c_exp c_log m utf8 w pad sz temp seed cap.
Proof.
  unfold npycrf_decode_sample.
  change (max_word_len (with_cc m c)) with (max_word_len m).
  destruct (sz =? 0); [reflexivity|].
  destruct (max_word_len m =? 0); [reflexivity|].
  destruct (max_n_cp w =? 0); [reflexivity|].
  destruct (npycrf_utf8_make_offsets utf8 (cp_off w) (max_n_cp w + 1)) as [n off].
  destruct (n =? 0); [reflexivity|].
  destruct (_ <? n); [reflexivity|].
  destruct (_ <? max_word_len m); [reflexivity|].
  destruct (cap <? 2); [reflexivity|].
  change (precompute_emissions (with_cc m c)) with (precompute_emissions m).
  destruct (precompute_emissions m utf8 _ n _) as [rc1 w1].
  destruct rc1; [|reflexivity|reflexivity].
  change (precompute_spans (with_cc m c)) with (precompute_spans m).
  destruct (precompute_spans m utf8 _ n w1) as [rc2 w2].
  destruct rc2; [|reflexivity|reflexivity].
  destruct (sz <? _); [reflexivity|].
  change (crf (with_cc m c)) with (crf m).
  change (fs_pos c_exp c_log (with_cc m c)) with (fs_pos c_exp c_log m).
  change (fs_score_step (with_cc m c)) with (fs_score_step m).
  destruct (PrimFloat.eqb _ _); [reflexivity|].
  destruct (xs32_u01 seed) as [u seed'].
  destruct (cap <? n + 1); [reflexivity|].
  rewrite fs_backward_with_cc.
  reflexivity.
Qed.

Lemma compat_mode_is_char_class (c : npycrf_cc_t) (cp : Z) :
  mode c = NPYCRF_CC_MODE_COMPAT -> npycrf_char_class_cp (Some c) cp = char_class cp.
Proof.
  intros H. unfold char_class, npycrf_char_class_cp. rewrite H. reflexivity.
Qed.

(** C9: the emission precomputation classifies with [char_class], the
    built-in ranges that [npycrf_char_class_cp] also uses in COMPAT mode,
    whatever [model->cc] holds; and for two models that differ only in
    [cc], [npycrf_decode], [npycrf_decode_sample] and [npycrf_decode_nbest]
    return the same code, boundaries and scores on every input. *)
Theorem decoders_ignore_cc (m1 m2 : npycrf_model_t) :
  same_but_cc m1 m2 ->
  (forall utf8 off n_cp w,
      precompute_emissions m1 utf8 off n_cp w = precompute_emissions m2 utf8 off n_cp w) /\
  (forall utf8 w out_b_cap,
      npycrf_decode m1 utf8 w out_b_cap = npycrf_decode m2 utf8 w out_b_cap) /\
  (forall c_exp c_log utf8 w pad sample_buf_size temperature seed out_b_cap,
      npycrf_decode_sample c_exp c_log m1 utf8 w pad sample_buf_size temperature seed out_b_cap
      = npycrf_decode_sample c_exp c_log m2 utf8 w pad sample_buf_size temperature seed
                             out_b_cap) /\
  (forall utf8 w pad nbest_buf_size nbest out_b_cap,
      npycrf_decode_nbest m1 utf8 w pad nbest_buf_size nbest out_b_cap
      = npycrf_decode_nbest m2 utf8 w pad nbest_buf_size nbest out_b_cap).
Proof.
  intros H. rewrite (same_but_cc_with_cc m1 m2 H).
  split; [reflexivity|].
  split; [intros; symmetry; apply decode_with_cc|].
  split; [intros; symmetry; apply decode_sample_with_cc|].
  intros; symmetry; apply decode_nbest_with_cc.
Qed.

(** ** The temperature guard *)

Lemma sane_temperature_invalid (t : float) :
  PrimFloat.is_nan t = true \/ PrimFloat.is_infinity t = true \/ PrimFloat.ltb 0%float t = false ->
  sane_temperature t = 1%float.
Proof.
  unfold sane_temperature. intros [H|[H|H]]; rewrite H; simpl.
  - rewrite orb_true_r. reflexivity.
  - rewrite orb_true_r. reflexivity.
  - reflexivity.
Qed.

Lemma sane_temperature_one : sane_temperature 1%float = 1%float.
Proof. reflexivity. Qed.

(** C10: a temperature that is NaN, infinite or not strictly positive never
    makes [npycrf_decode_sample] fail: the call returns exactly what it
    returns for temperature 1.0 with the same model, input, workspace
    and seed. *)
Theorem decode_sample_invalid_temperature
        (c_exp c_log : float -> float) (m : npycrf_model_t) (utf8 : list Z)
        (w : npycrf_work_t) (pad sample_buf_size : Z) (temperature : float)
        (seed out_b_cap : Z) :
  PrimFloat.is_nan temperature = true \/ PrimFloat.is_infinity temperature = true
  \/ PrimFloat.ltb 0%float temperature = false ->
  npycrf_decode_sample c_exp c_log m utf8 w pad sample_buf_size temperature seed out_b_cap
  = npycrf_decode_sample c_exp c_log m utf8 w pad sample_buf_size 1%float seed out_b_cap.
Proof.
  intros H. unfold npycrf_decode_sample.
  rewrite (sane_temperature_invalid temperature H), sane_temperature_one.
  reflexivity.
Qed.

(** The example model with another character-class configuration. *)
Definition ex_model_ascii : npycrf_model_t :=
  with_cc ex_model {| mode := NPYCRF_CC_MODE_ASCII; fallback := NPYCRF_CC_MODE_ASCII;
                      ranges := None; range_count := 0 |}.

Lemma decoders_ignore_cc_witness :
  npycrf_decode ex_model [97; 98; 97] ex_work 17
  = npycrf_decode ex_model_ascii [97; 98; 97] ex_work 17 /\
  npycrf_decode_nbest ex_model [97; 98; 97] ex_work 0 100000 2 17
  = npycrf_decode_nbest ex_model_ascii [97; 98; 97] ex_work 0 100000 2 17.
Proof.
  assert (H : same_but_cc ex_model ex_model_ascii) by (repeat split).
  destruct (decoders_ignore_cc ex_model ex_model_ascii H) as (_ & D & _ & N).
  split; [apply D|apply N].
Defined.

Lemma decode_sample_invalid_temperature_witness :
  npycrf_decode_sample (fun x => x) (fun x => x) ex_model [97; 98; 97] ex_work 0 100000
                       (-2)%float 42 17
  = npycrf_decode_sample (fun x => x) (fun x => x) ex_model [97; 98; 97] ex_work 0 100000
                         1%float 42 17.
Proof.
  apply decode_sample_invalid_temperature. right. right. reflexivity.
Defined.

(** ** Insertion into a top-N cell *)

(** Entry [r] of the three parallel arrays. *)
Definition at3 (b : topn) (r : Z) : Z * Z * Z :=
  let '(bs, bx, by_) := b in (zget bs r, zget bx r, zget by_ r).

Definition topn_wf (nbest : Z) (b : topn) : Prop :=
  let '(bs, bx, by_) := b in zlen bs = nbest /\ zlen bx = nbest /\ zlen by_ = nbest.

Definition score_of (e : Z * Z * Z) : Z := fst (fst e).

Definition sorted_desc (nbest : Z) (b : topn) : Prop :=
  forall r r', 0 <= r -> r <= r' -> r' < nbest -> score_of (at3 b r') <= score_of (at3 b r).

Lemma fold_left_zset_length (f : list Z -> Z -> Z * Z) l a :
  zlen (fold_left (fun a u => zset a (fst (f a u)) (snd (f a u))) l a) = zlen a.
Proof.
  revert a. induction l as [|u l IH]; intros a; simpl; [reflexivity|].
  rewrite IH. apply zlen_zset.
Qed.

Lemma shift_right_length nbest t a : zlen (shift_right nbest t a) = zlen a.
Proof.
  unfold shift_right.
  apply (fold_left_zset_length (fun a u => (u, zget a (u - 1)))).
Qed.

(** The descending copy loop moves cells [t .. hi-2] one place up. *)
Lemma shift_right_spec (n : nat) : forall t a u,
  0 <= t -> t + 1 + Z.of_nat n <= zlen a ->
  zget (shift_right (t + 1 + Z.of_nat n) t a) u
  = if (t <? u) && (u <? t + 1 + Z.of_nat n) then zget a (u - 1) else zget a u.
Proof.
  induction n as [|n IH]; intros t a u Ht Hlen.
  - unfold shift_right. rewrite range_nil by lia. simpl.
    destruct (Z.ltb_spec t u); destruct (Z.ltb_spec u (t + 1 + 0)); simpl; auto; lia.
  - unfold shift_right.
    replace (t + 1 + Z.of_nat (S n)) with (t + 1 + Z.of_nat n + 1) by lia.
    rewrite range_snoc by lia. rewrite rev_app_distr. simpl.
    change (fold_left (fun a0 u0 => zset a0 u0 (zget a0 (u0 - 1)))
                      (rev (range (t + 1) (t + 1 + Z.of_nat n)))
                      (zset a (t + 1 + Z.of_nat n) (zget a (t + 1 + Z.of_nat n - 1))))
      with (shift_right (t + 1 + Z.of_nat n) t
                        (zset a (t + 1 + Z.of_nat n) (zget a (t + 1 + Z.of_nat n - 1)))).
    rewrite IH by (rewrite ?zlen_zset; lia).
    rewrite !zget_zset.
    destruct (Z.ltb_spec t u); destruct (Z.ltb_spec u (t + 1 + Z.of_nat n));
      destruct (Z.ltb_spec u (t + 1 + Z.of_nat n + 1)); simpl; try lia.
    + destruct (Z.eqb_spec (t + 1 + Z.of_nat n) (u - 1)); simpl; [lia|reflexivity].
    + destruct (Z.eqb_spec (t + 1 + Z.of_nat n) u); simpl; [|lia].
      destruct (Z.leb_spec 0 (t + 1 + Z.of_nat n)); [|lia].
      destruct (Z.ltb_spec (t + 1 + Z.of_nat n) (zlen a)); [|lia].
      simpl. f_equal. lia.
    + destruct (Z.eqb_spec (t + 1 + Z.of_nat n) u); simpl; [lia|reflexivity].
    + destruct (Z.eqb_spec (t + 1 + Z.of_nat n) u); simpl; [lia|reflexivity].
Qed.

Lemma shift_right_get nbest t a u :
  0 <= t < nbest -> nbest <= zlen a ->
  zget (shift_right nbest t a) u
  = if (t <? u) && (u <? nbest) then zget a (u - 1) else zget a u.
Proof.
  intros Ht Hlen.
  replace nbest with (t + 1 + Z.of_nat (Z.to_nat (nbest - t - 1))) by lia.
  apply shift_right_spec; lia.
Qed.

(** Entry [u] of the arrays after the new triple went in at place [t]. *)
Definition inserted_at (b : topn) (t : Z) (e : Z * Z * Z) (u : Z) : Z * Z * Z :=
  if u <? t then at3 b u else if u =? t then e else at3 b (u - 1).

(** What the scan-and-shift does: either no score is below [cand] and the
    cell stays, or the triple goes in at the first place [t] whose score is
    below [cand] and the entries from [t] on move one place down. *)
Lemma insert_scan_spec nbest cand x y b (n : nat) : forall lo,
  topn_wf nbest b -> 0 <= lo -> lo + Z.of_nat n = nbest ->
  let b' := insert_scan (range lo nbest) nbest cand x y b in
  topn_wf nbest b' /\
  (((forall r, lo <= r < nbest -> cand <= score_of (at3 b r)) /\ b' = b)
   \/ exists t, lo <= t < nbest /\ score_of (at3 b t) < cand /\
                (forall r, lo <= r < t -> cand <= score_of (at3 b r)) /\
                forall u, 0 <= u < nbest -> at3 b' u = inserted_at b t (cand, x, y) u).
Proof.
  induction n as [|n IH]; intros lo Hwf Hlo Hn; cbv zeta.
  - rewrite range_nil by lia. simpl. split; [assumption|]. left. split; [intros; lia|reflexivity].
  - rewrite range_cons by lia. destruct b as [[bs bx] by_]. cbn [insert_scan].
    destruct (Z.ltb_spec (zget bs lo) cand) as [Hlt|Hge].
    + destruct Hwf as (H1 & H2 & H3). split.
      * cbn. rewrite !zlen_zset, !shift_right_length. auto.
      * right. exists lo. split; [lia|]. split; [exact Hlt|]. split; [intros; lia|].
        intros u Hu. unfold inserted_at, at3.
        rewrite !zget_zset, !shift_right_length, !shift_right_get by lia.
        rewrite H1, H2, H3.
        destruct (Z.eqb_spec lo u) as [->|Hne].
        -- destruct (Z.leb_spec 0 u); [|lia]. destruct (Z.ltb_spec u nbest); [|lia].
           simpl. rewrite Z.ltb_irrefl, Z.eqb_refl. reflexivity.
        -- simpl. destruct (Z.ltb_spec u lo); destruct (Z.ltb_spec lo u); try lia.
           ++ simpl. reflexivity.
           ++ destruct (Z.ltb_spec u nbest); [|lia]. simpl.
              destruct (Z.eqb_spec u lo); [lia|reflexivity].
    + specialize (IH (lo + 1) Hwf ltac:(lia) ltac:(lia)). cbv zeta in IH.
      destruct IH as (Hwf' & [[Hall Heq]|(t & Ht & Hlt & Hbefore & Hat)]).
      * split; [assumption|]. left. split; [|assumption].
        intros r Hr. destruct (Z.eq_dec r lo) as [->|]; [exact Hge|apply Hall; lia].
      * split; [assumption|]. right. exists t. split; [lia|]. split; [assumption|].
        split; [|assumption].
        intros r Hr. destruct (Z.eq_dec r lo) as [->|]; [exact Hge|apply Hbefore; lia].
Qed.

Lemma topn_insert_spec nbest cand x y b :
  topn_wf nbest b -> 0 <= nbest ->
  let b' := topn_insert nbest cand x y b in
  topn_wf nbest b' /\
  (((forall r, 0 <= r < nbest -> cand <= score_of (at3 b r)) /\ b' = b)
   \/ exists t, 0 <= t < nbest /\ score_of (at3 b t) < cand /\
                (forall r, 0 <= r < t -> cand <= score_of (at3 b r)) /\
                forall u, 0 <= u < nbest -> at3 b' u = inserted_at b t (cand, x, y) u).
Proof.
  intros Hwf Hn. unfold topn_insert.
  apply (insert_scan_spec nbest cand x y b (Z.to_nat nbest) 0); [assumption|lia|lia].
Qed.

Lemma topn_insert_wf nbest cand x y b :
  topn_wf nbest b -> 0 <= nbest -> topn_wf nbest (topn_insert nbest cand x y b).
Proof. intros. now apply topn_insert_spec. Qed.

Lemma topn_insert_sorted nbest cand x y b :
  topn_wf nbest b -> 0 <= nbest -> sorted_desc nbest b ->
  sorted_desc nbest (topn_insert nbest cand x y b).
Proof.
  intros Hwf Hn Hs.
  destruct (topn_insert_spec nbest cand x y b Hwf Hn) as (_ & [[_ ->]|(t & Ht & Hlt & Hbef & Hat)]);
    [assumption|].
  intros r r' Hr Hrr' Hr'. rewrite !Hat by lia. unfold inserted_at.
  destruct (Z.ltb_spec r' t); destruct (Z.ltb_spec r t); try lia.
  - apply Hs; lia.
  - destruct (Z.eqb_spec r' t).
    + simpl. apply Hbef. lia.
    + apply Hs; lia.
  - destruct (Z.eqb_spec r' t); destruct (Z.eqb_spec r t); try lia.
    + simpl. subst r.
      pose proof (Hs t (r' - 1) ltac:(lia) ltac:(lia) ltac:(lia)) as Hle.
      change (score_of (cand, x, y)) with cand. lia.
    + apply Hs; lia.
Qed.

(** The best entry after an insertion: the new triple when it beats the old
    best strictly, the old best otherwise. *)
Lemma topn_insert_head nbest cand x y b :
  topn_wf nbest b -> 0 < nbest -> sorted_desc nbest b ->
  at3 (topn_insert nbest cand x y b) 0
  = if score_of (at3 b 0) <? cand then (cand, x, y) else at3 b 0.
Proof.
  intros Hwf Hn Hs.
  destruct (topn_insert_spec nbest cand x y b Hwf ltac:(lia))
    as (_ & [[Hall ->]|(t & Ht & Hlt & Hbef & Hat)]).
  - specialize (Hall 0 ltac:(lia)).
    destruct (Z.ltb_spec (score_of (at3 b 0)) cand); [lia|reflexivity].
  - rewrite Hat by lia. unfold inserted_at.
    destruct (Z.ltb_spec 0 t).
    + specialize (Hbef 0 ltac:(lia)).
      destruct (Z.ltb_spec (score_of (at3 b 0)) cand); [lia|reflexivity].
    + assert (t = 0) by lia. subst t. simpl.
      destruct (Z.ltb_spec (score_of (at3 b 0)) cand); [reflexivity|lia].
Qed.

(** A property of the entries that the new triple has too holds afterwards. *)
Lemma topn_insert_all (Q : Z * Z * Z -> Prop) nbest cand x y b :
  topn_wf nbest b -> 0 <= nbest ->
  (forall r, 0 <= r < nbest -> Q (at3 b r)) -> Q (cand, x, y) ->
  forall r, 0 <= r < nbest -> Q (at3 (topn_insert nbest cand x y b) r).
Proof.
  intros Hwf Hn Hall Hq r Hr.
  destruct (topn_insert_spec nbest cand x y b Hwf Hn) as (_ & [[_ ->]|(t & Ht & Hlt & Hbef & Hat)]).
  - apply Hall; assumption.
  - rewrite Hat by assumption. unfold inserted_at.
    destruct (Z.ltb_spec r t); [apply Hall; lia|].
    destruct (Z.eqb_spec r t); [assumption|apply Hall; lia].
Qed.

(** An insertion never lowers the best score. *)
Lemma topn_insert_head_ge nbest cand x y b :
  topn_wf nbest b -> 0 < nbest -> sorted_desc nbest b ->
  score_of (at3 b 0) <= score_of (at3 (topn_insert nbest cand x y b) 0)
  /\ cand <= score_of (at3 (topn_insert nbest cand x y b) 0).
Proof.
  intros Hwf Hn Hs. rewrite topn_insert_head by assumption.
  destruct (Z.ltb_spec (score_of (at3 b 0)) cand); cbv iota;
    change (score_of (cand, x, y)) with cand; lia.
Qed.

Lemma topn_init_wf nbest : 0 <= nbest -> topn_wf nbest (topn_init nbest).
Proof.
  intros H. unfold topn_wf, topn_init, zlen. rewrite !repeat_length. lia.
Qed.

Lemma zget_repeat v n i : 0 <= i < Z.of_nat n -> zget (repeat v n) i = v.
Proof.
  intros H. unfold zget. destruct (Z.ltb_spec i 0); [lia|].
  apply nth_repeat_lt. lia.
Qed.

Lemma topn_init_at nbest r :
  0 <= r < nbest -> at3 (topn_init nbest) r = (NPYCRF_SCORE_NEG_INF, 0, 0).
Proof.
  intros H. unfold at3, topn_init. rewrite !zget_repeat by lia. reflexivity.
Qed.

Lemma topn_init_sorted nbest : sorted_desc nbest (topn_init nbest).
Proof.
  intros r r' H1 H2 H3. rewrite !topn_init_at by lia. apply Z.le_refl.
Qed.

(** ** The forward passes of the Viterbi and N-best decoders, side by side *)

(** The tables the forward passes only read. *)
Definition ro_eq (w w1 : npycrf_work_t) : Prop :=
  emit0 w = emit0 w1 /\ emit1 w = emit1 w1 /\ pref_emit0 w = pref_emit0 w1 /\
  span_id w = span_id w1 /\ span_luni w = span_luni w1.

Lemma ro_eq_refl w : ro_eq w w.
Proof. repeat split. Qed.

Lemma ro_eq_seg m w w1 s t : ro_eq w w1 -> crf_seg_score m w s t = crf_seg_score m w1 s t.
Proof.
  intros (H0 & H1 & H2 & _). unfold crf_seg_score. rewrite H1, H2. reflexivity.
Qed.

Lemma ro_eq_set_dp w w1 a : ro_eq w w1 -> ro_eq (set_dp_ring w a) w1.
Proof. intros H. exact H. Qed.

Lemma ro_eq_set_bp w w1 a : ro_eq w w1 -> ro_eq (set_bp_prevlen w a) w1.
Proof. intros H. exact H. Qed.

Lemma fold_left_inv {A B} (P : A -> Prop) (f : A -> B -> A) l a :
  P a -> (forall a x, In x l -> P a -> P (f a x)) -> P (fold_left f l a).
Proof.
  revert a. induction l as [|x l IH]; intros a Ha Hf; simpl; [assumption|].
  apply IH; [apply Hf; [left; reflexivity|assumption]|].
  intros a' x' Hin. apply Hf. right. assumption.
Qed.

Lemma nb_store_length nbest sid src dst : zlen (nb_store nbest sid src dst) = zlen dst.
Proof.
  unfold nb_store.
  apply (fold_left_zset_length (fun d r => (sid * nbest + r, zget src r))).
Qed.

Lemma nb_store_get_gen sid src (n : nat) : forall nbest0 dst i,
  0 <= sid * nbest0 ->
  sid * nbest0 + Z.of_nat n <= zlen dst ->
  zget (fold_left (fun d r => zset d (sid * nbest0 + r) (zget src r)) (range 0 (Z.of_nat n)) dst) i
  = if (sid * nbest0 <=? i) && (i <? sid * nbest0 + Z.of_nat n)
    then zget src (i - sid * nbest0) else zget dst i.
Proof.
  induction n as [|n IH]; intros nbest0 dst i H0 Hlen.
  - simpl. destruct (Z.leb_spec (sid * nbest0) i); destruct (Z.ltb_spec i (sid * nbest0 + 0));
      simpl; auto; lia.
  - replace (Z.of_nat (S n)) with (Z.of_nat n + 1) by lia.
    rewrite range_snoc by lia. rewrite fold_left_app. simpl.
    rewrite zget_zset. rewrite fold_left_zset_length with (f := fun d r => (sid * nbest0 + r, zget src r)).
    rewrite IH by lia.
    destruct (Z.eqb_spec (sid * nbest0 + Z.of_nat n) i) as [<-|Hne]; simpl.
    + destruct (Z.leb_spec 0 (sid * nbest0 + Z.of_nat n)); [|lia].
      destruct (Z.ltb_spec (sid * nbest0 + Z.of_nat n) (zlen dst)); [|lia]. simpl.
      destruct (Z.leb_spec (sid * nbest0) (sid * nbest0 + Z.of_nat n)); [|lia].
      destruct (Z.ltb_spec (sid * nbest0 + Z.of_nat n) (sid * nbest0 + (Z.of_nat n + 1))); [|lia].
      simpl. f_equal. lia.
    + destruct (Z.leb_spec (sid * nbest0) i); simpl; [|reflexivity].
      destruct (Z.ltb_spec i (sid * nbest0 + Z.of_nat n));
        destruct (Z.ltb_spec i (sid * nbest0 + (Z.of_nat n + 1))); try reflexivity; lia.
Qed.

Lemma nb_store_get nbest sid src dst i :
  0 <= nbest -> 0 <= sid -> sid * nbest + nbest <= zlen dst ->
  zget (nb_store nbest sid src dst) i
  = if (sid * nbest <=? i) && (i <? sid * nbest + nbest)
    then zget src (i - sid * nbest) else zget dst i.
Proof.
  intros Hn Hs Hlen. unfold nb_store.
  pose proof (nb_store_get_gen sid src (Z.to_nat nbest) nbest dst i) as H.
  replace (Z.of_nat (Z.to_nat nbest)) with nbest in H by lia.
  apply H; nia.
Qed.

Lemma u16_id x : 0 <= x <= 65535 -> u16 x = x.
Proof. apply u16_small. Qed.

Lemma mod_window (L1 a b : Z) :
  0 < L1 -> 0 <= a -> 0 <= b -> a < b -> b - a < L1 -> a mod L1 <> b mod L1.
Proof.
  intros HL Ha Hb Hab Hd Heq.
  pose proof (Z.div_mod a L1 ltac:(lia)) as Da.
  pose proof (Z.div_mod b L1 ltac:(lia)) as Db.
  pose proof (Z.mod_pos_bound a L1 HL). pose proof (Z.mod_pos_bound b L1 HL).
  assert (L1 * (b / L1 - a / L1) = b - a) by lia.
  assert (b / L1 - a / L1 = 0 \/ 1 <= b / L1 - a / L1 \/ b / L1 - a / L1 <= -1) as [E|[E|E]] by lia; nia.
Qed.

Lemma lin_inj (a b a' b' n : Z) :
  0 <= b < n -> 0 <= b' < n -> a * n + b = a' * n + b' -> a = a' /\ b = b'.
Proof.
  intros Hb Hb' E.
  assert (a = a').
  { destruct (Z.lt_trichotomy a a') as [H|[H|H]]; [|assumption|].
    - assert ((a + 1) * n <= a' * n) by (apply Z.mul_le_mono_nonneg_r; lia). lia.
    - assert ((a' + 1) * n <= a * n) by (apply Z.mul_le_mono_nonneg_r; lia). lia. }
  subst a'. split; [reflexivity|lia].
Qed.

Lemma lin_lt (a b c n : Z) : 0 <= a < c -> 0 <= b < n -> 0 <= a * n + b < c * n.
Proof.
  intros Ha Hb.
  assert ((a + 1) * n <= c * n) by (apply Z.mul_le_mono_nonneg_r; lia).
  assert (0 <= a * n) by (apply Z.mul_nonneg_nonneg; lia). lia.
Qed.

Section Forward.

Variable m : npycrf_model_t.
Variable w1 : npycrf_work_t.
Variable n_cp nbest C : Z.

Let L := max_word_len m.
Let L1 := L + 1.

Hypothesis HL : 1 <= L <= 255.
Hypothesis Hn : 1 <= n_cp <= 65534.
Hypothesis Hnb : 1 <= nbest <= 64.
Hypothesis HC : 0 <= C.
Hypothesis Hbound : 32768 + n_cp * C < 1073741823.
Hypothesis Hbos : - 32768 <= bos_to1 (crf m) <= 32767.

(** The score that the word [(pos - k, pos)] adds after a word of id [pid]. *)
Definition edge_score (pid pos k : Z) : Z :=
  add32 (crf_seg_score m w1 (pos - k) pos)
        (q16_mul_q8 (lambda0 m)
                    (lm_bigram_logp (lm m) pid
                                    (zget (span_id w1) (span_index pos k L))
                                    (zget (span_luni w1) (span_index pos k L)))).

Hypothesis Hedge : forall pid pos k,
    1 <= k <= L -> k <= pos -> pos <= n_cp ->
    - (k * C) <= edge_score pid pos k <= k * C.

Definition cidx (pos k : Z) : Z := (pos * L1 + k) * nbest.

Definition Bnd (pos v : Z) : Prop := - (32768 + pos * C) <= v <= 32768 + pos * C.

Definition valid_k (pos k : Z) : Prop := 1 <= k /\ k <= pos /\ k <= L.

(** Where an entry of state [(pos, k)] points back to. *)
Definition ptr_ok (tabs : nbest_tabs) (start pl pr : Z) : Prop :=
  start = 0 \/
  (valid_k start pl /\ 0 <= pr < nbest /\
   zget (nb_dp tabs) (cidx start pl + pr) <> NPYCRF_SCORE_NEG_INF).

Definition entry_ok (tabs : nbest_tabs) (pos k : Z) (e : Z * Z * Z) : Prop :=
  let '(s, pl, pr) := e in
  s = NPYCRF_SCORE_NEG_INF \/ (Bnd pos s /\ ptr_ok tabs (pos - k) pl pr).

Definition tab_at (tabs : nbest_tabs) (i : Z) : Z * Z * Z :=
  (zget (nb_dp tabs) i, zget (nb_len tabs) i, zget (nb_rank tabs) i).

Definition cell_ok (tabs : nbest_tabs) (pos k : Z) : Prop :=
  (forall r r', 0 <= r -> r <= r' -> r' < nbest ->
                zget (nb_dp tabs) (cidx pos k + r') <= zget (nb_dp tabs) (cidx pos k + r)) /\
  zget (nb_dp tabs) (cidx pos k) <> NPYCRF_SCORE_NEG_INF /\
  zget (nb_rank tabs) (cidx pos k) = 0 /\
  forall r, 0 <= r < nbest -> entry_ok tabs pos k (tab_at tabs (cidx pos k + r)).

Definition root_ok (tabs : nbest_tabs) : Prop :=
  zget (nb_dp tabs) 0 = bos_to1 (crf m) /\
  forall r, 1 <= r < nbest -> zget (nb_dp tabs) r = NPYCRF_SCORE_NEG_INF.

Lemma neg_inf_not_bnd pos v : 0 <= pos <= n_cp -> Bnd pos v -> v <> NPYCRF_SCORE_NEG_INF.
Proof. unfold Bnd, NPYCRF_SCORE_NEG_INF. intros. nia. Qed.

Lemma bnd_step start k prev pid :
  0 <= start -> valid_k (start + k) k -> start + k <= n_cp ->
  Bnd start prev ->
  add32 prev (edge_score pid (start + k) k) = prev + edge_score pid (start + k) k /\
  Bnd (start + k) (prev + edge_score pid (start + k) k).
Proof.
  intros Hs (Hk1 & Hk2 & Hk3) Hle Hb.
  pose proof (Hedge pid (start + k) k ltac:(lia) ltac:(lia) ltac:(lia)) as He.
  unfold Bnd in *.
  assert (- (32768 + (start + k) * C) <= prev + edge_score pid (start + k) k
          <= 32768 + (start + k) * C) by nia.
  split; [|assumption].
  apply add32_exact. unfold in_i32. nia.
Qed.

(** *** One rank group of predecessors *)

Definition Qent (tabs : nbest_tabs) (pos k : Z) (e : Z * Z * Z) : Prop := entry_ok tabs pos k e.

(** The ranks [r >= lo] of a sorted, valid predecessor cell never raise the
    best entry once rank 0 went in. *)
Lemma rank_group_tail (tabs : nbest_tabs) (start j pos k pid : Z) (n : nat) :
  forall lo b,
    1 <= lo -> lo + Z.of_nat n = nbest ->
    pos = start + k -> 1 <= start -> valid_k pos k -> pos <= n_cp -> valid_k start j ->
    cell_ok tabs start j ->
    topn_wf nbest b -> sorted_desc nbest b ->
    (forall r, 0 <= r < nbest -> entry_ok tabs pos k (at3 b r)) ->
    add32 (zget (nb_dp tabs) (cidx start j)) (edge_score pid pos k) <= score_of (at3 b 0) ->
    let b' := fold_left (nb_rank_step tabs nbest (start * L1 + j) (edge_score pid pos k) (u8 j))
                        (range lo nbest) b in
    topn_wf nbest b' /\ sorted_desc nbest b' /\
    (forall r, 0 <= r < nbest -> entry_ok tabs pos k (at3 b' r)) /\
    at3 b' 0 = at3 b 0.
Proof.
  induction n as [|n IH]; intros lo b Hlo Hn' Hpos Hst Hvk Hpn Hvj Hcell Hwf Hsort Hall Hhead; cbv zeta.
  - rewrite range_nil by lia. simpl. auto.
  - rewrite range_cons by lia. simpl fold_left.
    assert (Hstep : let b1 := nb_rank_step tabs nbest (start * L1 + j) (edge_score pid pos k) (u8 j) b lo in
                    topn_wf nbest b1 /\ sorted_desc nbest b1 /\
                    (forall r, 0 <= r < nbest -> entry_ok tabs pos k (at3 b1 r)) /\
                    at3 b1 0 = at3 b 0).
    { cbv zeta. unfold nb_rank_step.
      change ((start * L1 + j) * nbest + lo) with (cidx start j + lo).
      destruct (Z.eqb_spec (zget (nb_dp tabs) (cidx start j + lo)) NPYCRF_SCORE_NEG_INF) as [E|E];
        [auto|].
      destruct Hcell as (Hcs & Hc0 & Hcr & Hce).
      pose proof (Hce lo ltac:(lia)) as Hlo_ok. unfold entry_ok, tab_at in Hlo_ok.
      destruct Hlo_ok as [Hbad|[Hb _]]; [contradiction|].
      pose proof (Hce 0 ltac:(lia)) as H0_ok. unfold entry_ok, tab_at in H0_ok.
      rewrite Z.add_0_r in H0_ok.
      destruct H0_ok as [Hbad|[Hb0 _]]; [contradiction|].
      assert (Hvk' : valid_k (start + k) k) by (rewrite <- Hpos; exact Hvk).
      destruct (bnd_step start k _ pid ltac:(lia) Hvk' ltac:(lia) Hb) as (Ea & Hba).
      destruct (bnd_step start k _ pid ltac:(lia) Hvk' ltac:(lia) Hb0) as (Ea0 & Hba0).
      rewrite <- Hpos in *.
      assert (Hle : zget (nb_dp tabs) (cidx start j + lo) <= zget (nb_dp tabs) (cidx start j)).
      { pose proof (Hcs 0 lo ltac:(lia) ltac:(lia) ltac:(lia)) as Hx.
        rewrite Z.add_0_r in Hx. exact Hx. }
      assert (Hcand : add32 (zget (nb_dp tabs) (cidx start j + lo)) (edge_score pid pos k)
                      <= score_of (at3 b 0)) by lia.
      split; [apply topn_insert_wf; [assumption|lia]|].
      split; [apply topn_insert_sorted; [assumption|lia|assumption]|].
      split.
      - apply (topn_insert_all (entry_ok tabs pos k)); [assumption|lia|assumption|].
        unfold entry_ok. right. split; [rewrite Ea; exact Hba|].
        right. replace (pos - k) with start by lia.
        rewrite !u8_small by (unfold valid_k in Hvj; lia).
        split; [assumption|]. split; [lia|assumption].
      - rewrite topn_insert_head by (assumption || lia).
        destruct (Z.ltb_spec (score_of (at3 b 0))
                             (add32 (zget (nb_dp tabs) (cidx start j + lo)) (edge_score pid pos k)));
          [lia|reflexivity]. }
    cbv zeta in Hstep. destruct Hstep as (Hwf1 & Hs1 & Ha1 & Hh1).
    specialize (IH (lo + 1) _ ltac:(lia) ltac:(lia) Hpos Hst Hvk Hpn Hvj Hcell Hwf1 Hs1 Ha1).
    rewrite Hh1 in IH. specialize (IH Hhead). cbv zeta in IH.
    destruct IH as (A & B & D & E). rewrite E. auto.
Qed.

(** The whole loop over the ranks of predecessor [(start, j)]: the best
    entry moves exactly when rank 0 beats it. *)
Lemma rank_group (tabs : nbest_tabs) (start j pos k pid : Z) (b : topn) :
  pos = start + k -> 1 <= start -> valid_k pos k -> pos <= n_cp -> valid_k start j ->
  cell_ok tabs start j ->
  topn_wf nbest b -> sorted_desc nbest b ->
  (forall r, 0 <= r < nbest -> entry_ok tabs pos k (at3 b r)) ->
  let cand0 := zget (nb_dp tabs) (cidx start j) + edge_score pid pos k in
  let b' := fold_left (nb_rank_step tabs nbest (start * L1 + j) (edge_score pid pos k) (u8 j))
                      (range 0 nbest) b in
  Bnd pos cand0 /\
  add32 (zget (nb_dp tabs) (cidx start j)) (edge_score pid pos k) = cand0 /\
  topn_wf nbest b' /\ sorted_desc nbest b' /\
  (forall r, 0 <= r < nbest -> entry_ok tabs pos k (at3 b' r)) /\
  at3 b' 0 = if score_of (at3 b 0) <? cand0 then (cand0, j, 0) else at3 b 0.
Proof.
  intros Hpos Hst Hvk Hpn Hvj Hcell Hwf Hsort Hall. cbv zeta.
  rewrite range_cons by lia. simpl fold_left.
  pose proof Hcell as (Hcs & Hc0 & Hcr & Hce).
  pose proof (Hce 0 ltac:(lia)) as H0_ok. unfold entry_ok, tab_at in H0_ok.
  rewrite Z.add_0_r in H0_ok.
  destruct H0_ok as [Hbad|[Hb0 _]]; [contradiction|].
  assert (Hvk' : valid_k (start + k) k) by (rewrite <- Hpos; exact Hvk).
  destruct (bnd_step start k _ pid ltac:(lia) Hvk' ltac:(lia) Hb0) as (Ea0 & Hba0).
  rewrite <- Hpos in *.
  split; [exact Hba0|]. split; [exact Ea0|].
  set (b1 := nb_rank_step tabs nbest (start * L1 + j) (edge_score pid pos k) (u8 j) b 0).
  assert (Hb1 : b1 = topn_insert nbest (zget (nb_dp tabs) (cidx start j) + edge_score pid pos k)
                                 j 0 b).
  { unfold b1, nb_rank_step.
    change ((start * L1 + j) * nbest + 0) with (cidx start j + 0). rewrite Z.add_0_r.
    destruct (Z.eqb_spec (zget (nb_dp tabs) (cidx start j)) NPYCRF_SCORE_NEG_INF); [contradiction|].
    rewrite Ea0. rewrite !u8_small by (unfold valid_k in Hvj; lia). reflexivity. }
  assert (Hq : entry_ok tabs pos k (zget (nb_dp tabs) (cidx start j) + edge_score pid pos k, j, 0)).
  { unfold entry_ok. right. split; [assumption|]. right.
    replace (pos - k) with start by lia. split; [assumption|]. split; [lia|].
    rewrite Z.add_0_r. assumption. }
  set (cand0 := zget (nb_dp tabs) (cidx start j) + edge_score pid pos k) in *.
  pose proof (topn_insert_wf nbest cand0 j 0 b Hwf ltac:(lia)) as Hwf1.
  pose proof (topn_insert_sorted nbest cand0 j 0 b Hwf ltac:(lia) Hsort) as Hs1.
  pose proof (topn_insert_all (entry_ok tabs pos k) nbest cand0 j 0 b Hwf ltac:(lia) Hall Hq) as Ha1.
  pose proof (topn_insert_head nbest cand0 j 0 b Hwf ltac:(lia) Hsort) as Hh1.
  pose proof (topn_insert_head_ge nbest cand0 j 0 b Hwf ltac:(lia) Hsort) as (_ & Hge).
  rewrite <- Hb1 in *.
  destruct (rank_group_tail tabs start j pos k pid (Z.to_nat (nbest - 1)) 1 b1
                            ltac:(lia) ltac:(lia) Hpos Hst Hvk Hpn Hvj Hcell Hwf1 Hs1 Ha1)
    as (A & B & D & E).
  - rewrite Ea0. exact Hge.
  - rewrite E. auto.
Qed.

(** The state [(best, best_j)] of the Viterbi scan next to the top-N cell. *)
Definition head_rel (st : Z * Z) (b : topn) : Prop := at3 b 0 = (fst st, snd st, 0).

Definition cell_inv (tabs : nbest_tabs) (pos k : Z) (st : Z * Z) (b : topn) : Prop :=
  topn_wf nbest b /\ sorted_desc nbest b /\
  (forall r, 0 <= r < nbest -> entry_ok tabs pos k (at3 b r)) /\
  head_rel st b.

(** One predecessor length [j]: the Viterbi step and the N-best step agree
    on the best entry. *)
Lemma prev_step_agree (w : npycrf_work_t) (tabs : nbest_tabs) (start j pos k : Z)
      (st : Z * Z) (b : topn) :
  ro_eq w w1 ->
  pos = start + k -> 1 <= start -> valid_k pos k -> pos <= n_cp -> valid_k start j ->
  cell_ok tabs start j ->
  zget (dp_ring w) (start mod L1 * L1 + j) = zget (nb_dp tabs) (cidx start j) ->
  cell_inv tabs pos k st b ->
  let seg := crf_seg_score m w1 start pos in
  let cid := zget (span_id w1) (span_index pos k L) in
  let cl := zget (span_luni w1) (span_index pos k L) in
  let st' := vit_prev_step m w L start seg cid cl st j in
  let b' := nb_prev_step m w1 tabs L nbest start seg cid cl b j in
  cell_inv tabs pos k st' b' /\ fst st <= fst st' /\
  zget (nb_dp tabs) (cidx start j)
  + edge_score (zget (span_id w1) (span_index start j L)) pos k <= fst st'.
Proof.
  intros Hro Hpos Hst Hvk Hpn Hvj Hcell Hring (Hwf & Hsort & Hall & Hhead). cbv zeta.
  set (pid := zget (span_id w1) (span_index start j L)).
  assert (Hedge_eq : add32 (crf_seg_score m w1 start pos)
                           (q16_mul_q8 (lambda0 m)
                              (lm_bigram_logp (lm m) pid
                                 (zget (span_id w1) (span_index pos k L))
                                 (zget (span_luni w1) (span_index pos k L))))
                     = edge_score pid pos k).
  { unfold edge_score. replace (pos - k) with start by lia. reflexivity. }
  destruct (rank_group tabs start j pos k pid b Hpos Hst Hvk Hpn Hvj Hcell Hwf Hsort Hall)
    as (Hb & Ea & Hwf' & Hs' & Ha' & Hh').
  assert (Hu8 : u8 j = j) by (apply u8_small; unfold valid_k in Hvj; lia).
  unfold nb_prev_step. fold L1. fold pid. rewrite Hedge_eq.
  unfold vit_prev_step. fold L1. rewrite Hring. rewrite Hu8 in *.
  destruct Hcell as (_ & Hc0 & _).
  destruct (Z.eqb_spec (zget (nb_dp tabs) (cidx start j)) NPYCRF_SCORE_NEG_INF); [contradiction|].
  destruct Hro as (_ & _ & _ & Hsid & _). rewrite Hsid. fold pid.
  rewrite add32_assoc, Hedge_eq, Ea.
  unfold head_rel in Hhead. rewrite Hhead in Hh'. unfold score_of in Hh'. simpl fst in Hh'.
  unfold cell_inv, head_rel.
  destruct (Z.ltb_spec (fst st) (zget (nb_dp tabs) (cidx start j) + edge_score pid pos k)).
  - simpl.
    destruct (Z.ltb_spec (fst st) (zget (nb_dp tabs) (cidx start j) + edge_score pid pos k));
      [|lia].
    repeat split; auto; lia.
  - destruct (Z.ltb_spec (fst st) (zget (nb_dp tabs) (cidx start j) + edge_score pid pos k));
      [lia|].
    repeat split; auto; lia.
Qed.

Lemma prev_fold_agree (w : npycrf_work_t) (tabs : nbest_tabs) (start pos k : Z) (js : list Z) :
  ro_eq w w1 ->
  pos = start + k -> 1 <= start -> valid_k pos k -> pos <= n_cp ->
  (forall j, In j js -> valid_k start j /\ cell_ok tabs start j /\
                        zget (dp_ring w) (start mod L1 * L1 + j) = zget (nb_dp tabs) (cidx start j)) ->
  let seg := crf_seg_score m w1 start pos in
  let cid := zget (span_id w1) (span_index pos k L) in
  let cl := zget (span_luni w1) (span_index pos k L) in
  forall st b,
    cell_inv tabs pos k st b ->
    cell_inv tabs pos k (fold_left (vit_prev_step m w L start seg cid cl) js st)
             (fold_left (nb_prev_step m w1 tabs L nbest start seg cid cl) js b)
    /\ fst st <= fst (fold_left (vit_prev_step m w L start seg cid cl) js st).
Proof.
  intros Hro Hpos Hst Hvk Hpn. cbv zeta.
  induction js as [|j js IH]; intros Hjs st b Hinv; simpl.
  - split; [assumption|lia].
  - destruct (Hjs j (or_introl eq_refl)) as (Hvj & Hcell & Hring).
    destruct (prev_step_agree w tabs start j pos k st b Hro Hpos Hst Hvk Hpn Hvj Hcell Hring Hinv)
      as (Hinv' & Hmono & _).
    destruct (IH (fun j' Hin => Hjs j' (or_intror Hin)) _ _ Hinv') as (Hfin & Hmono').
    split; [assumption|lia].
Qed.

Lemma topn_init_inv tabs pos k :
  cell_inv tabs pos k (NPYCRF_SCORE_NEG_INF, 0) (topn_init nbest).
Proof.
  unfold cell_inv, head_rel. split; [apply topn_init_wf; lia|].
  split; [apply topn_init_sorted|].
  split; [|apply topn_init_at; lia].
  intros r Hr. rewrite topn_init_at by lia. left. reflexivity.
Qed.

(** The first word of a path: its only predecessor is the start state. *)
Lemma root_group (tabs : nbest_tabs) (pos : Z) :
  root_ok tabs -> valid_k pos pos -> pos <= n_cp ->
  let b' := fold_left (nb_rank_step tabs nbest 0 (edge_score NPYCRF_ID_BOS pos pos) 0)
                      (range 0 nbest) (topn_init nbest) in
  let cand := bos_to1 (crf m) + edge_score NPYCRF_ID_BOS pos pos in
  add32 (bos_to1 (crf m)) (edge_score NPYCRF_ID_BOS pos pos) = cand /\
  cand <> NPYCRF_SCORE_NEG_INF /\
  cell_inv tabs pos pos (cand, 0) b'.
Proof.
  intros (Hr0 & Hrr) Hvk Hpn. cbv zeta.
  assert (Hb0 : Bnd 0 (bos_to1 (crf m))) by (unfold Bnd; lia).
  destruct (bnd_step 0 pos (bos_to1 (crf m)) NPYCRF_ID_BOS ltac:(lia) Hvk ltac:(lia) Hb0)
    as (Ea & Hb).
  simpl Z.add in Ea, Hb.
  split; [exact Ea|].
  split; [apply (neg_inf_not_bnd pos); [unfold valid_k in Hvk; lia|exact Hb]|].
  rewrite range_cons by lia. simpl fold_left.
  set (b1 := nb_rank_step tabs nbest 0 (edge_score NPYCRF_ID_BOS pos pos) 0 (topn_init nbest) 0).
  assert (Hb1 : b1 = topn_insert nbest (bos_to1 (crf m) + edge_score NPYCRF_ID_BOS pos pos)
                                 0 0 (topn_init nbest)).
  { unfold b1, nb_rank_step. simpl Z.add. simpl Z.mul. rewrite Hr0.
    destruct (Z.eqb_spec (bos_to1 (crf m)) NPYCRF_SCORE_NEG_INF) as [E|E];
      [unfold NPYCRF_SCORE_NEG_INF in E; lia|].
    rewrite Ea. reflexivity. }
  destruct (topn_init_inv tabs pos pos) as (Hwf & Hsort & Hall & Hhead).
  assert (Hinv1 : cell_inv tabs pos pos (bos_to1 (crf m) + edge_score NPYCRF_ID_BOS pos pos, 0) b1).
  { rewrite Hb1. unfold cell_inv, head_rel.
    split; [apply topn_insert_wf; [assumption|lia]|].
    split; [apply topn_insert_sorted; [assumption|lia|assumption]|].
    split.
    - apply (topn_insert_all (entry_ok tabs pos pos)); [assumption|lia|assumption|].
      unfold entry_ok. right. split; [exact Hb|]. left. lia.
    - rewrite topn_insert_head by (assumption || lia).
      rewrite topn_init_at by lia. unfold score_of. simpl fst.
      destruct (Z.ltb_spec NPYCRF_SCORE_NEG_INF
                           (bos_to1 (crf m) + edge_score NPYCRF_ID_BOS pos pos)); [reflexivity|].
      unfold Bnd, NPYCRF_SCORE_NEG_INF in *. unfold valid_k in Hvk. nia. }
  apply (fold_left_inv (fun b => cell_inv tabs pos pos
                                   (bos_to1 (crf m) + edge_score NPYCRF_ID_BOS pos pos, 0) b)).
  - exact Hinv1.
  - intros b r Hin Hb'. apply in_range in Hin. unfold nb_rank_step.
    simpl Z.mul. simpl Z.add. rewrite Hrr by lia. rewrite Z.eqb_refl. exact Hb'.
Qed.

(** State [(pos, k)]: the Viterbi scan and the N-best cell agree on the best
    entry, which is a reachable score. *)
Lemma cell_agree (w : npycrf_work_t) (tabs : nbest_tabs) (pos k : Z) :
  ro_eq w w1 -> valid_k pos k -> pos <= n_cp -> root_ok tabs ->
  (pos = k -> zget (dp_ring w) 0 = bos_to1 (crf m)) ->
  (forall j, valid_k (pos - k) j ->
             cell_ok tabs (pos - k) j /\
             zget (dp_ring w) ((pos - k) mod L1 * L1 + j) = zget (nb_dp tabs) (cidx (pos - k) j)) ->
  cell_inv tabs pos k (vit_cell_best m L pos w k) (nb_cell_best m w1 L nbest pos tabs k) /\
  fst (vit_cell_best m L pos w k) <> NPYCRF_SCORE_NEG_INF.
Proof.
  intros Hro Hvk Hpn Hroot Hbos0 Hprev.
  pose proof Hvk as (Hk1 & Hk2 & Hk3).
  unfold vit_cell_best, nb_cell_best. fold L L1.
  rewrite u16_id by lia.
  rewrite (ro_eq_seg m w w1 _ _ Hro).
  pose proof Hro as (_ & _ & _ & Hsid & Hsl). rewrite Hsid, Hsl.
  destruct (Z.eqb_spec (pos - k) 0) as [E0|E0].
  - assert (pos = k) by lia. subst k. rewrite E0.
    replace (0 mod L1 * L1 + 0) with 0 by (rewrite Z.mod_0_l by lia; lia).
    rewrite (Hbos0 eq_refl).
    destruct (Z.eqb_spec (bos_to1 (crf m)) NPYCRF_SCORE_NEG_INF) as [E|E];
      [unfold NPYCRF_SCORE_NEG_INF in E; lia|].
    simpl negb. cbv iota.
    destruct (Z.leb_spec 0 L); [|lia].
    rewrite range_nil by lia. simpl fold_left.
    destruct (root_group tabs pos Hroot Hvk Hpn) as (Ea & Hne & Hinv).
    rewrite add32_assoc.
    assert (Hedge_eq : add32 (crf_seg_score m w1 0 pos)
                             (q16_mul_q8 (lambda0 m)
                                (lm_bigram_logp (lm m) NPYCRF_ID_BOS
                                   (zget (span_id w1) (span_index pos pos L))
                                   (zget (span_luni w1) (span_index pos pos L))))
                       = edge_score NPYCRF_ID_BOS pos pos).
    { unfold edge_score. rewrite E0. reflexivity. }
    rewrite Hedge_eq, Ea. split; [exact Hinv|exact Hne].
  - set (start := pos - k) in *.
    set (jmax := if start <=? L then start else L).
    assert (Hjmax : 1 <= jmax /\ (forall j, 1 <= j < jmax + 1 <-> valid_k start j)).
    { unfold jmax, valid_k. destruct (Z.leb_spec start L); split; try lia; intros; lia. }
    destruct Hjmax as (Hj1 & Hjv).
    rewrite (range_cons 1 (jmax + 1)) by lia. simpl fold_left.
    assert (Hv1 : valid_k start 1) by (apply Hjv; lia).
    destruct (Hprev 1 Hv1) as (Hc1 & Hr1).
    destruct (prev_step_agree w tabs start 1 pos k (NPYCRF_SCORE_NEG_INF, 0) (topn_init nbest)
                              Hro ltac:(unfold start; lia) ltac:(lia) Hvk Hpn Hv1 Hc1 Hr1
                              (topn_init_inv tabs pos k)) as (Hinv1 & _ & Hge).
    destruct (prev_fold_agree w tabs start pos k (range (1 + 1) (jmax + 1))
                              Hro ltac:(unfold start; lia) ltac:(lia) Hvk Hpn) with
        (st := vit_prev_step m w L start (crf_seg_score m w1 start pos)
                             (zget (span_id w1) (span_index pos k L))
                             (zget (span_luni w1) (span_index pos k L))
                             (NPYCRF_SCORE_NEG_INF, 0) 1)
        (b := nb_prev_step m w1 tabs L nbest start (crf_seg_score m w1 start pos)
                           (zget (span_id w1) (span_index pos k L))
                           (zget (span_luni w1) (span_index pos k L)) (topn_init nbest) 1)
      as (Hfin & Hmono).
    + intros j Hin. apply in_range in Hin. assert (Hvj : valid_k start j) by (apply Hjv; lia).
      destruct (Hprev j Hvj). auto.
    + exact Hinv1.
    + split; [exact Hfin|].
      destruct Hc1 as (_ & Hc10 & _ & Hce).
      pose proof (Hce 0 ltac:(lia)) as H0. unfold entry_ok, tab_at in H0.
      rewrite Z.add_0_r in H0. destruct H0 as [Hbad|[Hb0 _]]; [contradiction|].
      assert (Hvk' : valid_k (start + k) k) by (replace (start + k) with pos by (unfold start; lia); exact Hvk).
      destruct (bnd_step start k _ (zget (span_id w1) (span_index start 1 L))
                         ltac:(lia) Hvk' ltac:(unfold start; lia) Hb0) as (_ & Hb).
      replace (start + k) with pos in Hb by (unfold start; lia).
      unfold Bnd in Hb.
      assert (pos * C <= n_cp * C) by nia.
      assert (Hlow : NPYCRF_SCORE_NEG_INF
                     < zget (nb_dp tabs) (cidx start 1)
                       + edge_score (zget (span_id w1) (span_index start 1 L)) pos k)
        by (unfold NPYCRF_SCORE_NEG_INF; lia).
      cbv zeta in Hge, Hmono. change (1 + 1) with 2 in *. lia.
Qed.

(** *** The tables *)

Definition sizes_ok (w : npycrf_work_t) (tabs : nbest_tabs) : Prop :=
  L1 * L1 <= zlen (dp_ring w) /\ (n_cp + 1) * L1 <= zlen (bp_prevlen w) /\
  (n_cp + 1) * L1 * nbest <= zlen (nb_dp tabs) /\
  (n_cp + 1) * L1 * nbest <= zlen (nb_len tabs) /\
  (n_cp + 1) * L1 * nbest <= zlen (nb_rank tabs).

(** State [(pos', k')] is filled in when the loops stand at [(pos, kd)]. *)
Definition filled (pos kd pos' k' : Z) : Prop :=
  valid_k pos' k' /\ (pos' < pos \/ (pos' = pos /\ k' <= kd)).

Definition Inv (pos kd : Z) (w : npycrf_work_t) (tabs : nbest_tabs) : Prop :=
  ro_eq w w1 /\ sizes_ok w tabs /\ root_ok tabs /\
  (pos <= L -> zget (dp_ring w) 0 = bos_to1 (crf m)) /\
  forall pos' k', filled pos kd pos' k' ->
    cell_ok tabs pos' k' /\
    zget (bp_prevlen w) (span_index pos' k' L) = zget (nb_len tabs) (cidx pos' k') /\
    (pos - L <= pos' ->
     zget (dp_ring w) (pos' mod L1 * L1 + k') = zget (nb_dp tabs) (cidx pos' k')).

Lemma cidx_lt pos pos' k' r :
  0 <= pos' -> pos' < pos -> 0 <= k' <= L -> r < nbest -> cidx pos' k' + r < pos * L1 * nbest.
Proof.
  intros. unfold cidx. unfold L1 in *.
  assert ((pos' * (L + 1) + k' + 1) * nbest <= pos * (L + 1) * nbest).
  { apply Z.mul_le_mono_nonneg_r; [lia|]. nia. }
  lia.
Qed.

Lemma cidx_ge pos k r : 0 <= pos -> 0 <= k -> 0 <= r -> pos * L1 * nbest <= cidx pos k + r.
Proof. intros. unfold cidx. unfold L1 in *. nia. Qed.

Lemma cidx_cell_lt pos k k' r :
  0 <= pos -> 0 <= k' -> k' < k -> r < nbest -> cidx pos k' + r < cidx pos k.
Proof.
  intros. unfold cidx.
  assert ((pos * L1 + k' + 1) * nbest <= (pos * L1 + k) * nbest).
  { apply Z.mul_le_mono_nonneg_r; lia. }
  lia.
Qed.

Lemma cidx_top pos k : 0 <= pos <= n_cp -> 0 <= k <= L ->
  (pos * L1 + k) * nbest + nbest <= (n_cp + 1) * L1 * nbest.
Proof.
  intros. unfold L1 in *.
  assert ((pos * (L + 1) + k + 1) * nbest <= (n_cp + 1) * (L + 1) * nbest).
  { apply Z.mul_le_mono_nonneg_r; [lia|]. nia. }
  lia.
Qed.

Lemma entry_ok_stable (tabs tabs' : nbest_tabs) (pos pos' k' : Z) (e : Z * Z * Z) :
  (forall i, i < pos * L1 * nbest -> zget (nb_dp tabs') i = zget (nb_dp tabs) i) ->
  valid_k pos' k' -> pos' <= pos ->
  entry_ok tabs pos' k' e -> entry_ok tabs' pos' k' e.
Proof.
  intros Hagree (Hk1 & Hk2 & Hk3) Hle. destruct e as [[s pl] pr]. unfold entry_ok.
  intros [H|[Hb Hp]]; [left; assumption|right]. split; [assumption|].
  destruct Hp as [Hp|(Hv & Hpr & Hne)]; [left; assumption|right].
  split; [assumption|]. split; [assumption|].
  rewrite Hagree; [assumption|].
  destruct Hv as (Hv1 & Hv2 & Hv3).
  apply Z.lt_le_trans with ((pos' - k' + 1) * L1 * nbest).
  - apply cidx_lt; lia.
  - apply Z.mul_le_mono_nonneg_r; [lia|]. apply Z.mul_le_mono_nonneg_r; lia.
Qed.

Lemma cell_ok_stable (tabs tabs' : nbest_tabs) (pos pos' k' : Z) :
  (forall i, i < pos * L1 * nbest -> zget (nb_dp tabs') i = zget (nb_dp tabs) i) ->
  (forall r, 0 <= r < nbest -> tab_at tabs' (cidx pos' k' + r) = tab_at tabs (cidx pos' k' + r)) ->
  valid_k pos' k' -> pos' <= pos ->
  cell_ok tabs pos' k' -> cell_ok tabs' pos' k'.
Proof.
  intros Hagree Hsame Hv Hle (Hs & H0 & Hr0 & He).
  assert (Hdp : forall r, 0 <= r < nbest ->
                          zget (nb_dp tabs') (cidx pos' k' + r) = zget (nb_dp tabs) (cidx pos' k' + r)).
  { intros r Hr. pose proof (Hsame r Hr) as E. unfold tab_at in E. congruence. }
  assert (Hrk : zget (nb_rank tabs') (cidx pos' k') = zget (nb_rank tabs) (cidx pos' k')).
  { pose proof (Hsame 0 ltac:(lia)) as E. unfold tab_at in E. rewrite Z.add_0_r in E. congruence. }
  repeat split.
  - intros r r' A B D. rewrite !Hdp by lia. apply Hs; lia.
  - pose proof (Hdp 0 ltac:(lia)) as E. rewrite Z.add_0_r in E. rewrite E. assumption.
  - rewrite Hrk. assumption.
  - intros r Hr. rewrite Hsame by assumption.
    apply (entry_ok_stable tabs tabs' pos); auto.
Qed.

(** Filling in state [(pos, k)] in both decoders keeps the tables in step. *)
Lemma cell_step (w : npycrf_work_t) (tabs : nbest_tabs) (pos k : Z) :
  valid_k pos k -> pos <= n_cp ->
  Inv pos (k - 1) w tabs ->
  Inv pos k (vit_cell m L pos w k) (nb_cell m w1 L nbest pos tabs k).
Proof.
  intros Hvk Hpn (Hro & Hsz & Hroot & Hb0 & Hcells).
  pose proof Hvk as (Hk1 & Hk2 & Hk3).
  destruct Hsz as (Hz1 & Hz2 & Hz3 & Hz4 & Hz5).
  destruct (cell_agree w tabs pos k Hro Hvk Hpn Hroot) as (Hinv & Hne).
  { intros E. apply Hb0. lia. }
  { intros j Hj. destruct (Hcells (pos - k) j) as (A & _ & B).
    - split; [assumption|]. left. lia.
    - split; [assumption|]. apply B. lia. }
  unfold vit_cell, nb_cell. fold L1.
  set (st := vit_cell_best m L pos w k) in *.
  destruct (nb_cell_best m w1 L nbest pos tabs k) as [[bs bpl] bpr] eqn:Eb.
  destruct Hinv as (Hwf & Hsort & Hall & Hhead).
  destruct Hwf as (Hl1 & Hl2 & Hl3).
  set (sid := pos * L1 + k).
  set (tabs' := {| nb_dp := nb_store nbest sid bs (nb_dp tabs);
                   nb_len := nb_store nbest sid bpl (nb_len tabs);
                   nb_rank := nb_store nbest sid bpr (nb_rank tabs) |}).
  pose proof (cidx_top pos k ltac:(lia) ltac:(lia)) as Htop. fold sid in Htop.
  assert (Hsid0 : 0 <= sid) by (unfold sid; unfold L1 in *; nia).
  assert (Hget : forall i,
             tab_at tabs' i = if (sid * nbest <=? i) && (i <? sid * nbest + nbest)
                              then at3 (bs, bpl, bpr) (i - sid * nbest) else tab_at tabs i).
  { intros i. unfold tab_at, tabs', at3. cbn [nb_dp nb_len nb_rank].
    rewrite !nb_store_get by lia.
    destruct ((sid * nbest <=? i) && (i <? sid * nbest + nbest)); reflexivity. }
  assert (Hnew : forall r, 0 <= r < nbest -> tab_at tabs' (cidx pos k + r) = at3 (bs, bpl, bpr) r).
  { intros r Hr. rewrite Hget. unfold cidx. fold sid.
    destruct (Z.leb_spec (sid * nbest) (sid * nbest + r)); [|lia].
    destruct (Z.ltb_spec (sid * nbest + r) (sid * nbest + nbest)); [|lia].
    cbn [andb]. replace (sid * nbest + r - sid * nbest) with r by lia. reflexivity. }
  assert (Hold : forall i, i < sid * nbest -> tab_at tabs' i = tab_at tabs i).
  { intros i Hi. rewrite Hget. destruct (Z.leb_spec (sid * nbest) i); [lia|reflexivity]. }
  assert (Hbelow : forall i, i < pos * L1 * nbest -> zget (nb_dp tabs') i = zget (nb_dp tabs) i).
  { intros i Hi. pose proof (Hold i) as E. unfold tab_at in E.
    assert (pos * L1 * nbest <= sid * nbest) by (apply Z.mul_le_mono_nonneg_r; unfold sid; lia).
    specialize (E ltac:(lia)). congruence. }
  assert (Holdcell : forall pos' k' r, filled pos (k - 1) pos' k' -> 0 <= r < nbest ->
                                      tab_at tabs' (cidx pos' k' + r) = tab_at tabs (cidx pos' k' + r)).
  { intros pos' k' r ((A1 & A2 & A3) & Hd) Hr. apply Hold. change (sid * nbest) with (cidx pos k).
    destruct Hd as [Hd|[-> Hd]].
    - apply Z.lt_le_trans with (pos * L1 * nbest); [apply cidx_lt; lia|].
      pose proof (cidx_ge pos k 0 ltac:(lia) ltac:(lia) ltac:(lia)). lia.
    - apply cidx_cell_lt; lia. }
  unfold Inv. split; [exact Hro|]. split.
  { unfold sizes_ok, tabs'. cbn [dp_ring bp_prevlen set_bp_prevlen set_dp_ring nb_dp nb_len nb_rank].
    rewrite !zlen_zset, !nb_store_length. auto. }
  split.
  { destruct Hroot as (R0 & Rr). unfold root_ok.
    assert (E : forall r, 0 <= r < nbest -> zget (nb_dp tabs') r = zget (nb_dp tabs) r).
    { intros r Hr. pose proof (Hold r) as E. unfold tab_at in E.
      assert (nbest <= sid * nbest) by (unfold sid; unfold L1 in *; nia).
      specialize (E ltac:(lia)). congruence. }
    split; [rewrite E by lia; assumption|]. intros r Hr. rewrite E by lia. apply Rr. assumption. }
  split.
  { intros HpL. cbn [dp_ring set_bp_prevlen set_dp_ring]. rewrite zget_zset_other; [apply Hb0; assumption|].
    assert (0 <= pos mod L1) by (apply Z.mod_pos_bound; unfold L1; lia).
    assert (0 <= pos mod L1 * L1) by (apply Z.mul_nonneg_nonneg; [assumption|unfold L1; lia]). lia. }
  intros pos' k' (Hv' & Hd).
  pose proof Hv' as (B1 & B2 & B3).
  assert (Hcase : (pos' = pos /\ k' = k) \/ filled pos (k - 1) pos' k').
  { unfold filled. destruct Hd as [Hd|[-> Hd]]; [right; auto|].
    destruct (Z.eq_dec k' k); [left; auto|right; split; [assumption|right; lia]]. }
  destruct Hcase as [[-> ->]|Hf].
  - (* the new cell *)
    split.
    { unfold cell_ok.
      assert (Hdp : forall r, 0 <= r < nbest -> zget (nb_dp tabs') (cidx pos k + r) = zget bs r).
      { intros r Hr. pose proof (Hnew r Hr) as E. unfold tab_at, at3 in E. congruence. }
      unfold head_rel, at3 in Hhead.
      split.
      { intros r r' A B D. rewrite !Hdp by lia.
        pose proof (Hsort r r' A B D) as S. unfold score_of, at3 in S. exact S. }
      split.
      { pose proof (Hdp 0 ltac:(lia)) as E. rewrite Z.add_0_r in E. rewrite E.
        replace (zget bs 0) with (fst st) by congruence. exact Hne. }
      split.
      { pose proof (Hnew 0 ltac:(lia)) as E. rewrite Z.add_0_r in E. unfold tab_at, at3 in E.
        congruence. }
      intros r Hr. rewrite Hnew by assumption.
      apply (entry_ok_stable tabs tabs' pos _ _ _ Hbelow Hvk (Z.le_refl _)). apply Hall. assumption. }
    split.
    { cbn [bp_prevlen set_bp_prevlen]. rewrite zget_zset_same.
      - pose proof (Hnew 0 ltac:(lia)) as E. rewrite Z.add_0_r in E. unfold tab_at, at3 in E.
        unfold head_rel, at3 in Hhead. congruence.
      - cbn [set_dp_ring bp_prevlen]. unfold span_index. fold L1.
        pose proof (lin_lt pos k (n_cp + 1) L1 ltac:(lia) ltac:(unfold L1; lia)). lia. }
    { intros _. cbn [dp_ring set_bp_prevlen set_dp_ring]. rewrite zget_zset_same.
      - pose proof (Hnew 0 ltac:(lia)) as E. rewrite Z.add_0_r in E. unfold tab_at, at3 in E.
        unfold head_rel, at3 in Hhead. congruence.
      - assert (0 <= pos mod L1 < L1) by (apply Z.mod_pos_bound; unfold L1; lia).
        pose proof (lin_lt (pos mod L1) k L1 L1 ltac:(lia) ltac:(unfold L1; lia)). lia. }
  - (* a cell filled in earlier *)
    destruct (Hcells pos' k' Hf) as (Hc & Hbp & Hring).
    assert (Hle : pos' <= pos) by (destruct Hf as (_ & [?|[? ?]]); lia).
    split.
    { apply (cell_ok_stable tabs tabs' pos _ _ Hbelow); auto. }
    split.
    { cbn [bp_prevlen set_bp_prevlen]. rewrite zget_zset_other.
      - cbn [set_dp_ring bp_prevlen]. rewrite Hbp.
        pose proof (Holdcell pos' k' 0 Hf ltac:(lia)) as E. rewrite Z.add_0_r in E.
        unfold tab_at in E. congruence.
      - unfold span_index. fold L1. intros E.
        destruct (lin_inj pos k pos' k' L1 ltac:(unfold L1; lia) ltac:(unfold L1; lia) E) as (-> & ->).
        destruct Hf as (_ & [?|[_ ?]]); lia. }
    { intros Hw. cbn [dp_ring set_bp_prevlen set_dp_ring]. rewrite zget_zset_other.
      - rewrite Hring by assumption.
        pose proof (Holdcell pos' k' 0 Hf ltac:(lia)) as E. rewrite Z.add_0_r in E.
        unfold tab_at in E. congruence.
      - intros E.
        assert (0 <= pos mod L1 < L1) by (apply Z.mod_pos_bound; unfold L1; lia).
        assert (0 <= pos' mod L1 < L1) by (apply Z.mod_pos_bound; unfold L1; lia).
        destruct (lin_inj _ k _ k' L1 ltac:(unfold L1; lia) ltac:(unfold L1; lia) E) as (Em & ->).
        destruct Hf as (_ & [Hlt|[_ ?]]); [|lia].
        apply (mod_window L1 pos' pos); lia. }
Qed.

Lemma ro_eq_trans (a b c : npycrf_work_t) : ro_eq a b -> ro_eq b c -> ro_eq a c.
Proof.
  intros (A1 & A2 & A3 & A4 & A5) (B1 & B2 & B3 & B4 & B5).
  repeat split; congruence.
Qed.

(** A loop that overwrites [dp_ring[base + k]] for the [k] of a list. *)
Lemma clear_fold (base v : Z) (ks : list Z) : forall w,
  let w' := fold_left (fun w k => set_dp_ring w (zset (dp_ring w) (base + k) v)) ks w in
  ro_eq w' w /\ bp_prevlen w' = bp_prevlen w /\ zlen (dp_ring w') = zlen (dp_ring w) /\
  forall i, (forall k, In k ks -> base + k <> i) -> zget (dp_ring w') i = zget (dp_ring w) i.
Proof.
  induction ks as [|k ks IH]; intros w; cbn zeta.
  - simpl. repeat split; reflexivity.
  - simpl fold_left.
    specialize (IH (set_dp_ring w (zset (dp_ring w) (base + k) v))). cbn zeta in IH.
    destruct IH as (I1 & I2 & I3 & I4).
    split; [exact I1|]. split; [exact I2|]. split.
    + rewrite I3. cbn [dp_ring set_dp_ring]. apply zlen_zset.
    + intros i Hi. rewrite I4 by (intros k' Hk'; apply Hi; right; assumption).
      cbn [dp_ring set_dp_ring]. apply zget_zset_other. apply Hi. left. reflexivity.
Qed.

Lemma Inv_weaken pos kd kd' w tabs :
  (forall pos' k', filled pos kd' pos' k' -> filled pos kd pos' k') ->
  Inv pos kd w tabs -> Inv pos kd' w tabs.
Proof.
  intros Hsub (A & B & D & E & F). repeat (split; [assumption|]).
  intros pos' k' Hf. apply F. apply Hsub. assumption.
Qed.

(** Entering position [pos]: the Viterbi decoder clears the ring row that
    position [pos - L - 1] used. *)
Lemma pos_start (w : npycrf_work_t) (tabs : nbest_tabs) (pos : Z) :
  1 <= pos <= n_cp -> Inv (pos - 1) L w tabs ->
  Inv pos 0 (fold_left (fun w k => set_dp_ring w (zset (dp_ring w) (pos mod L1 * L1 + k)
                                                       NPYCRF_SCORE_NEG_INF))
                       (range 0 (L + 1)) w) tabs.
Proof.
  intros Hp (Hro & Hsz & Hroot & Hb0 & Hcells).
  destruct (clear_fold (pos mod L1 * L1) NPYCRF_SCORE_NEG_INF (range 0 (L + 1)) w)
    as (C1 & C2 & C3 & C4).
  set (w' := fold_left _ _ w) in *.
  assert (HL1 : 0 < L1) by (unfold L1; lia).
  assert (Hrow : 0 <= pos mod L1 < L1) by (apply Z.mod_pos_bound; assumption).
  unfold Inv. split; [apply (ro_eq_trans _ w); assumption|]. split.
  { destruct Hsz as (S1 & S2 & S3). unfold sizes_ok. rewrite C2, C3. auto. }
  split; [assumption|]. split.
  { intros HpL. rewrite C4; [apply Hb0; lia|].
    intros k Hk. apply in_range in Hk.
    assert (pos mod L1 = pos) by (apply Z.mod_small; unfold L1; lia).
    assert (1 * L1 <= pos mod L1 * L1) by (apply Z.mul_le_mono_nonneg_r; lia). lia. }
  intros pos' k' ((B1 & B2 & B3) & Hd).
  assert (Hlt : pos' < pos) by (destruct Hd as [?|[? ?]]; lia).
  destruct (Hcells pos' k') as (A1 & A2 & A3).
  { split; [repeat split; assumption|]. lia. }
  split; [assumption|]. split; [rewrite C2; assumption|].
  intros Hw. rewrite C4; [apply A3; lia|].
  intros k Hk E. apply in_range in Hk.
  assert (0 <= pos' mod L1 < L1) by (apply Z.mod_pos_bound; assumption).
  destruct (lin_inj _ k _ k' L1 ltac:(unfold L1; lia) ltac:(unfold L1; lia) E) as (Em & _).
  apply (mod_window L1 pos' pos HL1 ltac:(lia) ltac:(lia) Hlt); [unfold L1 in *; lia|].
  symmetry. exact Em.
Qed.

Lemma cells_loop (pos : Z) (n : nat) : forall w tabs,
  1 <= pos <= n_cp -> Z.of_nat n <= pos -> Z.of_nat n <= L ->
  Inv pos 0 w tabs ->
  Inv pos (Z.of_nat n)
      (fold_left (vit_cell m L pos) (range 1 (Z.of_nat n + 1)) w)
      (fold_left (nb_cell m w1 L nbest pos) (range 1 (Z.of_nat n + 1)) tabs).
Proof.
  induction n as [|n IH]; intros w tabs Hp Hn1 Hn2 H0.
  - simpl. exact H0.
  - replace (Z.of_nat (S n) + 1) with (Z.of_nat n + 1 + 1) by lia.
    rewrite range_snoc by lia. rewrite !fold_left_app. simpl fold_left.
    replace (Z.of_nat (S n)) with (Z.of_nat n + 1) by lia.
    apply cell_step; [repeat split; lia|lia|].
    replace (Z.of_nat n + 1 - 1) with (Z.of_nat n) by lia.
    apply IH; try assumption; lia.
Qed.

Lemma pos_step (w : npycrf_work_t) (tabs : nbest_tabs) (pos : Z) :
  1 <= pos <= n_cp -> Inv (pos - 1) L w tabs ->
  Inv pos L (vit_pos m L w pos) (nb_pos m w1 L nbest tabs pos).
Proof.
  intros Hp H. unfold vit_pos, nb_pos. cbv zeta. fold L1.
  set (kmax := if pos <=? L then pos else L).
  assert (Hk : 0 <= kmax /\ kmax <= pos /\ kmax <= L /\ (pos <= kmax \/ L <= kmax)).
  { unfold kmax. destruct (Z.leb_spec pos L); lia. }
  apply (Inv_weaken pos kmax).
  { intros pos' k' ((B1 & B2 & B3) & Hd). split; [repeat split; assumption|].
    destruct Hd as [Hd|[-> Hd]]; [left; assumption|right]. split; [reflexivity|lia]. }
  pose proof (cells_loop pos (Z.to_nat kmax)) as Hc.
  replace (Z.of_nat (Z.to_nat kmax)) with kmax in Hc by lia.
  apply Hc; try lia. apply pos_start; assumption.
Qed.

Lemma forward_loop (n : nat) : forall w tabs,
  Z.of_nat n <= n_cp -> Inv 0 L w tabs ->
  Inv (Z.of_nat n) L
      (fold_left (vit_pos m L) (range 1 (Z.of_nat n + 1)) w)
      (fold_left (nb_pos m w1 L nbest) (range 1 (Z.of_nat n + 1)) tabs).
Proof.
  induction n as [|n IH]; intros w tabs Hn1 H0.
  - simpl. exact H0.
  - replace (Z.of_nat (S n) + 1) with (Z.of_nat n + 1 + 1) by lia.
    rewrite range_snoc by lia. rewrite !fold_left_app. simpl fold_left.
    replace (Z.of_nat (S n)) with (Z.of_nat n + 1) by lia.
    apply pos_step; [lia|].
    replace (Z.of_nat n + 1 - 1) with (Z.of_nat n) by lia.
    apply IH; [lia|assumption].
Qed.

(** *** The final row *)

Definition fin_ok (tabs : nbest_tabs) (e : Z * Z * Z) : Prop :=
  let '(s, k, r) := e in
  s = NPYCRF_SCORE_NEG_INF \/
  (valid_k n_cp k /\ 0 <= r < nbest /\ zget (nb_dp tabs) (cidx n_cp k + r) = s /\ Bnd n_cp s).

Definition fin_inv (tabs : nbest_tabs) (st : Z * Z) (b : topn) : Prop :=
  topn_wf nbest b /\ sorted_desc nbest b /\
  (forall i, 0 <= i < nbest -> fin_ok tabs (at3 b i)) /\
  head_rel st b.

Lemma fin_ok_low tabs e : fin_ok tabs e -> NPYCRF_SCORE_NEG_INF <= score_of e.
Proof.
  destruct e as [[s k] r]. unfold fin_ok, score_of. simpl.
  intros [->|(_ & _ & _ & Hb)]; [lia|].
  unfold Bnd, NPYCRF_SCORE_NEG_INF in *.
  assert (0 <= n_cp * C) by (apply Z.mul_nonneg_nonneg; lia). lia.
Qed.

Lemma fin_rank_step (tabs : nbest_tabs) (k : Z) (b : topn) (r : Z) :
  valid_k n_cp k -> cell_ok tabs n_cp k -> 0 <= r < nbest ->
  topn_wf nbest b -> sorted_desc nbest b ->
  (forall i, 0 <= i < nbest -> fin_ok tabs (at3 b i)) ->
  let v := zget (nb_dp tabs) (cidx n_cp k + r) in
  let b' := nb_final_rank tabs nbest (n_cp * L1 + k) k b r in
  topn_wf nbest b' /\ sorted_desc nbest b' /\
  (forall i, 0 <= i < nbest -> fin_ok tabs (at3 b' i)) /\
  at3 b' 0 = if score_of (at3 b 0) <? v then (v, k, r) else at3 b 0.
Proof.
  intros Hvk Hcell Hr Hwf Hsort Hall. cbv zeta. unfold nb_final_rank.
  change ((n_cp * L1 + k) * nbest + r) with (cidx n_cp k + r).
  pose proof (fin_ok_low tabs _ (Hall 0 ltac:(lia))) as Hlow.
  destruct (Z.eqb_spec (zget (nb_dp tabs) (cidx n_cp k + r)) NPYCRF_SCORE_NEG_INF) as [E|E].
  - rewrite E. destruct (Z.ltb_spec (score_of (at3 b 0)) NPYCRF_SCORE_NEG_INF); [lia|]. auto.
  - rewrite u8_small by lia.
    split; [apply topn_insert_wf; [assumption|lia]|].
    split; [apply topn_insert_sorted; [assumption|lia|assumption]|].
    split; [|apply topn_insert_head; [assumption|lia|assumption]].
    apply (topn_insert_all (fin_ok tabs)); [assumption|lia|assumption|].
    unfold fin_ok. right. split; [assumption|]. split; [assumption|]. split; [reflexivity|].
    destruct Hcell as (_ & _ & _ & He). specialize (He r Hr).
    unfold entry_ok, tab_at in He. destruct He as [He|[He _]]; [contradiction|assumption].
Qed.

Lemma fin_tail (tabs : nbest_tabs) (k : Z) (rs : list Z) : forall b,
  valid_k n_cp k -> cell_ok tabs n_cp k -> (forall r, In r rs -> 1 <= r < nbest) ->
  topn_wf nbest b -> sorted_desc nbest b ->
  (forall i, 0 <= i < nbest -> fin_ok tabs (at3 b i)) ->
  zget (nb_dp tabs) (cidx n_cp k) <= score_of (at3 b 0) ->
  let b' := fold_left (nb_final_rank tabs nbest (n_cp * L1 + k) k) rs b in
  topn_wf nbest b' /\ sorted_desc nbest b' /\
  (forall i, 0 <= i < nbest -> fin_ok tabs (at3 b' i)) /\
  at3 b' 0 = at3 b 0.
Proof.
  induction rs as [|r rs IH]; intros b Hvk Hcell Hrs Hwf Hsort Hall Hhead; cbv zeta.
  - simpl. auto.
  - simpl fold_left.
    pose proof (Hrs r (or_introl eq_refl)) as Hr.
    destruct (fin_rank_step tabs k b r Hvk Hcell ltac:(lia) Hwf Hsort Hall) as (A & B & D & E).
    assert (Hle : zget (nb_dp tabs) (cidx n_cp k + r) <= zget (nb_dp tabs) (cidx n_cp k)).
    { destruct Hcell as (Hcs & _). pose proof (Hcs 0 r ltac:(lia) ltac:(lia) ltac:(lia)) as Hx.
      rewrite Z.add_0_r in Hx. exact Hx. }
    destruct (Z.ltb_spec (score_of (at3 b 0)) (zget (nb_dp tabs) (cidx n_cp k + r))); [lia|].
    specialize (IH _ Hvk Hcell (fun r' Hin => Hrs r' (or_intror Hin)) A B D).
    rewrite E in IH. specialize (IH Hhead). cbv zeta in IH.
    destruct IH as (A' & B' & D' & E'). rewrite E'. auto.
Qed.

Lemma fin_k_agree (w : npycrf_work_t) (tabs : nbest_tabs) (k : Z) (st : Z * Z) (b : topn) :
  valid_k n_cp k -> cell_ok tabs n_cp k ->
  zget (dp_ring w) (n_cp mod L1 * L1 + k) = zget (nb_dp tabs) (cidx n_cp k) ->
  fin_inv tabs st b ->
  fin_inv tabs (vit_final_step w L (n_cp mod L1) st k) (nb_final_k tabs L nbest n_cp b k).
Proof.
  intros Hvk Hcell Hring (Hwf & Hsort & Hall & Hhead).
  unfold nb_final_k, vit_final_step. fold L1. rewrite Hring.
  rewrite range_cons by lia. simpl fold_left.
  destruct (fin_rank_step tabs k b 0 Hvk Hcell ltac:(lia) Hwf Hsort Hall) as (A & B & D & E).
  rewrite Z.add_0_r in E.
  set (b1 := nb_final_rank tabs nbest (n_cp * L1 + k) k b 0) in *.
  destruct (fin_tail tabs k (range (0 + 1) nbest) b1 Hvk Hcell) as (A' & B' & D' & E'); auto.
  { intros r Hr. apply in_range in Hr. lia. }
  { rewrite E. destruct (Z.ltb_spec (score_of (at3 b 0)) (zget (nb_dp tabs) (cidx n_cp k)));
      unfold score_of; simpl; [lia|assumption]. }
  unfold fin_inv, head_rel. repeat (split; [assumption|]).
  change (0 + 1) with 1 in E'.
  rewrite E', E. unfold head_rel in Hhead. rewrite Hhead. unfold score_of. simpl fst.
  destruct (Z.ltb_spec (fst st) (zget (nb_dp tabs) (cidx n_cp k))); reflexivity.
Qed.

Lemma fin_fold_agree (w : npycrf_work_t) (tabs : nbest_tabs) (ks : list Z) : forall st b,
  (forall k, In k ks -> valid_k n_cp k /\ cell_ok tabs n_cp k /\
                        zget (dp_ring w) (n_cp mod L1 * L1 + k) = zget (nb_dp tabs) (cidx n_cp k)) ->
  fin_inv tabs st b ->
  fin_inv tabs (fold_left (vit_final_step w L (n_cp mod L1)) ks st)
          (fold_left (nb_final_k tabs L nbest n_cp) ks b).
Proof.
  induction ks as [|k ks IH]; intros st b Hks Hinv; simpl; [assumption|].
  destruct (Hks k (or_introl eq_refl)) as (Hvk & Hcell & Hring).
  apply IH; [intros k' Hin; apply Hks; right; assumption|].
  apply fin_k_agree; assumption.
Qed.

Lemma fin_init tabs : fin_inv tabs (NPYCRF_SCORE_NEG_INF, 0) (topn_init nbest).
Proof.
  unfold fin_inv, head_rel. split; [apply topn_init_wf; lia|].
  split; [apply topn_init_sorted|].
  split; [|apply topn_init_at; lia].
  intros r Hr. rewrite topn_init_at by lia. left. reflexivity.
Qed.

(** *** Backtracking *)

Lemma zget_last (l : list Z) (x : Z) : zget (l ++ [x]) (zlen (l ++ [x]) - 1) = x.
Proof.
  unfold zget, zlen. rewrite length_app. simpl length.
  destruct (Z.ltb_spec (Z.of_nat (length l + 1) - 1) 0); [lia|].
  replace (Z.to_nat (Z.of_nat (length l + 1) - 1)) with (length l) by lia.
  rewrite app_nth2 by lia. rewrite Nat.sub_diag. reflexivity.
Qed.

(** From a live entry the pointers lead back to position 0. *)
Lemma nb_bt_ok (tabs : nbest_tabs) (fuel : nat) : forall pos k r acc,
  (forall pos' k', valid_k pos' k' -> pos' <= n_cp -> cell_ok tabs pos' k') ->
  1 <= pos <= n_cp -> valid_k pos k -> 0 <= r < nbest ->
  zget (nb_dp tabs) (cidx pos k + r) <> NPYCRF_SCORE_NEG_INF ->
  pos < Z.of_nat fuel -> zlen acc + pos <= n_cp ->
  exists pre, nb_backtrack fuel tabs L nbest n_cp pos k r acc = (0, (0 :: pre) ++ pos :: acc).
Proof.
  induction fuel as [|f IH]; intros pos k r acc Hcells Hp Hvk Hr Hlive Hfuel Hacc; [lia|].
  cbn [nb_backtrack]. fold L1.
  change ((pos * L1 + k) * nbest + r) with (cidx pos k + r).
  destruct (Z.eqb_spec pos 0); [lia|].
  pose proof Hvk as (K1 & K2 & K3).
  rewrite u16_id by lia.
  destruct (Z.eqb_spec (pos - k) 0) as [E0|E0].
  { exists []. reflexivity. }
  destruct (Hcells pos k Hvk ltac:(lia)) as (_ & _ & _ & He).
  specialize (He r Hr). unfold entry_ok, tab_at in He.
  destruct He as [He|[_ [Hz|(Hv & Hpr & Hl)]]]; [contradiction|contradiction|].
  pose proof Hv as (V1 & V2 & V3).
  destruct (Z.eqb_spec (zget (nb_len tabs) (cidx pos k + r)) 0); [lia|].
  rewrite zlen_cons.
  destruct (Z.ltb_spec (n_cp + 1) (zlen acc + 1)); [lia|].
  destruct (IH (pos - k) _ _ (pos :: acc) Hcells ltac:(lia) Hv Hpr Hl ltac:(lia)) as (pre & Hpre).
  { rewrite zlen_cons. lia. }
  exists (pre ++ [pos - k]). rewrite Hpre. f_equal.
  simpl. rewrite <- app_assoc. reflexivity.
Qed.

(** Along rank 0 the N-best pointers are the Viterbi back-pointers. *)
Lemma bt_agree (w : npycrf_work_t) (tabs : nbest_tabs) (fuel : nat) : forall pos k acc b,
  (forall pos' k', valid_k pos' k' -> pos' <= n_cp ->
       cell_ok tabs pos' k' /\
       zget (bp_prevlen w) (span_index pos' k' L) = zget (nb_len tabs) (cidx pos' k')) ->
  1 <= pos <= n_cp -> valid_k pos k ->
  nb_backtrack fuel tabs L nbest n_cp pos k 0 acc = (0, b) ->
  vit_backtrack fuel w L n_cp pos k acc = (0, b).
Proof.
  induction fuel as [|f IH]; intros pos k acc b Hcells Hp Hvk Hrun.
  - simpl in Hrun. discriminate.
  - cbn [nb_backtrack] in Hrun. cbn [vit_backtrack]. fold L1 in Hrun.
    change ((pos * L1 + k) * nbest + 0) with (cidx pos k + 0) in Hrun.
    rewrite Z.add_0_r in Hrun.
    destruct (Hcells pos k Hvk ltac:(lia)) as ((_ & Hlive & Hrk & He) & Hbp).
    rewrite Hbp, Hrk in *.
    destruct (pos =? 0); [assumption|].
    pose proof Hvk as (K1 & K2 & K3).
    rewrite u16_id in * by lia.
    destruct (Z.eqb_spec (pos - k) 0) as [E0|E0]; [assumption|].
    specialize (He 0 ltac:(lia)). rewrite Z.add_0_r in He. unfold entry_ok, tab_at in He.
    destruct He as [He|[_ [Hz|(Hv & _)]]]; [contradiction|contradiction|].
    destruct (zget (nb_len tabs) (cidx pos k) =? 0); [discriminate|].
    destruct (n_cp + 1 <? zlen (pos :: acc)); [discriminate|].
    apply IH; try assumption. lia.
Qed.

(** *** The output loop *)

Section Emit.

Variable tabs : nbest_tabs.
Variables ts tk tr : list Z.

Hypothesis Hcells : forall pos' k', valid_k pos' k' -> pos' <= n_cp -> cell_ok tabs pos' k'.
Hypothesis Htop_all : forall i, 0 <= i < nbest -> fin_ok tabs (zget ts i, zget tk i, zget tr i).
Hypothesis Htop_sorted : forall i j, 0 <= i -> i <= j -> j < nbest -> zget ts j <= zget ts i.

Lemma emit_dead (is_ : list Z) : forall o,
  (forall i, In i is_ -> zget ts i = NPYCRF_SCORE_NEG_INF) ->
  let o' := nb_emit is_ tabs L nbest n_cp (ts, tk, tr) o in
  n_rc o' = n_rc o /\ n_scores o' = n_scores o /\ n_b_count o' = n_b_count o /\
  exists rest, n_b_cp o' = n_b_cp o ++ rest.
Proof.
  induction is_ as [|i is_ IH]; intros o Hdead; cbv zeta.
  - simpl. repeat split. exists []. symmetry. apply app_nil_r.
  - cbn [nb_emit]. rewrite (Hdead i (or_introl eq_refl)). rewrite Z.eqb_refl. cbn [orb].
    specialize (IH {| n_rc := n_rc o; n_b_cp := n_b_cp o ++ [[]];
                      n_b_count := n_b_count o; n_scores := n_scores o |}
                   (fun j Hj => Hdead j (or_intror Hj))).
    cbv zeta in IH. cbn [n_rc n_b_cp n_b_count n_scores] in IH.
    destruct IH as (A & B & D & rest & E).
    repeat (split; [assumption|]). exists ([] :: rest). rewrite E, <- app_assoc. reflexivity.
Qed.

Lemma emit_live (n : nat) : forall lo o,
  lo + Z.of_nat n = nbest -> 0 <= lo -> n_rc o = lo ->
  zlen (n_scores o) = nbest -> zlen (n_b_count o) = nbest ->
  let o' := nb_emit (range lo nbest) tabs L nbest n_cp (ts, tk, tr) o in
  lo <= n_rc o' <= nbest /\
  (forall j, lo <= j < n_rc o' ->
             zget (n_scores o') j = zget ts j /\ zget ts j <> NPYCRF_SCORE_NEG_INF) /\
  (forall j, 0 <= j < lo -> zget (n_scores o') j = zget (n_scores o) j /\
                            zget (n_b_count o') j = zget (n_b_count o) j) /\
  exists rest, n_b_cp o' = n_b_cp o ++ rest /\
    (lo < nbest -> zget ts lo <> NPYCRF_SCORE_NEG_INF ->
     lo < n_rc o' /\
     exists b rest', rest = b :: rest' /\ zget (n_b_count o') lo = zlen b /\
       nb_backtrack (Z.to_nat (n_cp + 3)) tabs L nbest n_cp n_cp (zget tk lo) (zget tr lo) []
       = (0, b)).
Proof.
  induction n as [|n IH]; intros lo o Hlo Hlo0 Hrc Hls Hlc; cbv zeta.
  - rewrite range_nil by lia. simpl. split; [lia|]. split; [intros; lia|].
    split; [auto|]. exists []. split; [symmetry; apply app_nil_r|]. intros; lia.
  - rewrite range_cons by lia. cbn [nb_emit].
    destruct (Z.eqb_spec (zget ts lo) NPYCRF_SCORE_NEG_INF) as [Ed|Elive].
    + cbn [orb].
      destruct (emit_dead (range (lo + 1) nbest)
                          {| n_rc := n_rc o; n_b_cp := n_b_cp o ++ [[]];
                             n_b_count := n_b_count o; n_scores := n_scores o |})
        as (A & B & D & rest & E).
      { intros j Hj. apply in_range in Hj.
        pose proof (Htop_sorted lo j ltac:(lia) ltac:(lia) ltac:(lia)) as Hle.
        pose proof (fin_ok_low tabs _ (Htop_all j ltac:(lia))) as Hlow.
        unfold score_of in Hlow. simpl in Hlow. lia. }
      cbn [n_rc n_b_cp n_b_count n_scores] in A, B, D, E.
      rewrite A, B, D, E. split; [lia|]. split; [intros; lia|]. split; [auto|].
      exists ([] :: rest). split; [rewrite <- app_assoc; reflexivity|]. intros _ Hc. contradiction.
    + pose proof (Htop_all lo ltac:(lia)) as Hf. unfold fin_ok in Hf.
      destruct Hf as [Hf|(Hv & Hr & Hdp & Hb)]; [contradiction|].
      pose proof Hv as (V1 & V2 & V3).
      destruct (Z.eqb_spec (zget tk lo) 0); [lia|]. cbn [orb].
      destruct (nb_bt_ok tabs (Z.to_nat (n_cp + 3)) n_cp (zget tk lo) (zget tr lo) []
                         Hcells ltac:(lia) Hv Hr) as (pre & Hpre).
      { rewrite Hdp. assumption. }
      { lia. }
      { change (zlen []) with 0. lia. }
      rewrite Hpre.
      assert (Hb0 : zget ((0 :: pre) ++ [n_cp]) 0 = 0) by reflexivity.
      rewrite Hb0, zget_last, !Z.eqb_refl. cbn [negb orb].
      set (b := (0 :: pre) ++ [n_cp]) in *.
      set (o1 := {| n_rc := n_rc o + 1; n_b_cp := n_b_cp o ++ [b];
                    n_b_count := zset (n_b_count o) lo (zlen b);
                    n_scores := zset (n_scores o) lo (zget ts lo) |}).
      destruct (IH (lo + 1) o1) as (A & B & D & rest & E & _);
        try (unfold o1; cbn [n_rc n_b_cp n_b_count n_scores]; rewrite ?zlen_zset; lia).
      split; [lia|]. split.
      { intros j Hj. destruct (Z.eq_dec j lo) as [->|Hne].
        - destruct (D lo ltac:(lia)) as (D1 & _). rewrite D1.
          unfold o1. cbn [n_scores]. rewrite zget_zset_same by lia. auto.
        - apply B. lia. }
      split.
      { intros j Hj. destruct (D j ltac:(lia)) as (D1 & D2). rewrite D1, D2.
        unfold o1. cbn [n_scores n_b_count]. rewrite !zget_zset_other by lia. auto. }
      exists (b :: rest). split.
      { rewrite E. unfold o1. cbn [n_b_cp]. rewrite <- app_assoc. reflexivity. }
      intros _ _. split; [lia|]. exists b, rest. split; [reflexivity|]. split; [|reflexivity].
      destruct (D lo ltac:(lia)) as (_ & D2). rewrite D2.
      unfold o1. cbn [n_b_count]. apply zget_zset_same. lia.
Qed.

End Emit.

(** *** Both decoders from the same start *)

Lemma decoders_side_by_side (w0 : npycrf_work_t) (tabs0 : nbest_tabs) (o0 : nbest_out) :
  Inv 0 L w0 tabs0 ->
  n_rc o0 = 0 -> n_b_cp o0 = [] -> zlen (n_scores o0) = nbest -> zlen (n_b_count o0) = nbest ->
  let wF := fold_left (vit_pos m L) (range 1 (n_cp + 1)) w0 in
  let tabsF := fold_left (nb_pos m w1 L nbest) (range 1 (n_cp + 1)) tabs0 in
  let kmax_end := if n_cp <=? L then n_cp else L in
  let st := fold_left (vit_final_step wF L (n_cp mod L1)) (range 1 (kmax_end + 1))
                      (NPYCRF_SCORE_NEG_INF, 0) in
  let top := fold_left (nb_final_k tabsF L nbest n_cp) (range 1 (kmax_end + 1))
                       (topn_init nbest) in
  let o := nb_emit (range 0 nbest) tabsF L nbest n_cp top o0 in
  fst st <> NPYCRF_SCORE_NEG_INF ->
  exists b,
    vit_backtrack (Z.to_nat (n_cp + 3)) wF L n_cp n_cp (snd st) [] = (0, b) /\
    zget b 0 = 0 /\ zget b (zlen b - 1) = n_cp /\
    1 <= n_rc o <= nbest /\
    (forall i j, 0 <= i -> i <= j -> j < n_rc o -> zget (n_scores o) j <= zget (n_scores o) i) /\
    nth 0 (n_b_cp o) [] = b /\ zget (n_b_count o) 0 = zlen b /\
    zget (n_scores o) 0 = fst st.
Proof.
  intros H0 Ho1 Ho2 Ho3 Ho4. cbv zeta.
  pose proof (forward_loop (Z.to_nat n_cp) w0 tabs0 ltac:(lia) H0) as HF.
  replace (Z.of_nat (Z.to_nat n_cp)) with n_cp in HF by lia.
  set (wF := fold_left (vit_pos m L) (range 1 (n_cp + 1)) w0) in *.
  set (tabsF := fold_left (nb_pos m w1 L nbest) (range 1 (n_cp + 1)) tabs0) in *.
  destruct HF as (_ & _ & _ & _ & Hcells).
  assert (Hall : forall pos' k', valid_k pos' k' -> pos' <= n_cp ->
                   cell_ok tabsF pos' k' /\
                   zget (bp_prevlen wF) (span_index pos' k' L) = zget (nb_len tabsF) (cidx pos' k')).
  { intros pos' k' Hv Hp. destruct (Hcells pos' k') as (A & B & _); [|auto].
    split; [assumption|]. destruct Hv as (? & ? & ?). lia. }
  set (kmax_end := if n_cp <=? L then n_cp else L).
  assert (Hkm : kmax_end <= n_cp /\ kmax_end <= L)
    by (unfold kmax_end; destruct (Z.leb_spec n_cp L); lia).
  pose proof (fin_fold_agree wF tabsF (range 1 (kmax_end + 1))
                             (NPYCRF_SCORE_NEG_INF, 0) (topn_init nbest)) as Hfin.
  assert (Hks : forall k, In k (range 1 (kmax_end + 1)) ->
                  valid_k n_cp k /\ cell_ok tabsF n_cp k /\
                  zget (dp_ring wF) (n_cp mod L1 * L1 + k) = zget (nb_dp tabsF) (cidx n_cp k)).
  { intros k Hk. apply in_range in Hk.
    assert (Hv : valid_k n_cp k) by (repeat split; lia).
    destruct (Hcells n_cp k) as (A & _ & B); [split; [assumption|right; split; lia]|].
    split; [assumption|]. split; [assumption|apply B; lia]. }
  specialize (Hfin Hks (fin_init tabsF)).
  set (st := fold_left (vit_final_step wF L (n_cp mod L1)) (range 1 (kmax_end + 1))
                       (NPYCRF_SCORE_NEG_INF, 0)) in *.
  destruct (fold_left (nb_final_k tabsF L nbest n_cp) (range 1 (kmax_end + 1)) (topn_init nbest))
    as [[ts tk] tr] eqn:Etop.
  intros Hlive.
  destruct Hfin as (Hwf & Hsort & Hfok & Hhead).
  unfold head_rel, at3 in Hhead. injection Hhead as Hs0 Hk0 Hr0.
  assert (Htop_all : forall i, 0 <= i < nbest -> fin_ok tabsF (zget ts i, zget tk i, zget tr i)).
  { intros i Hi. apply (Hfok i Hi). }
  assert (Htop_sorted : forall i j, 0 <= i -> i <= j -> j < nbest -> zget ts j <= zget ts i).
  { intros i j A B D. apply (Hsort i j A B D). }
  assert (Hcok : forall pos' k', valid_k pos' k' -> pos' <= n_cp -> cell_ok tabsF pos' k').
  { intros pos' k' Hv Hp. apply Hall; assumption. }
  destruct (emit_live tabsF ts tk tr Hcok Htop_all Htop_sorted (Z.to_nat nbest) 0 o0
                      ltac:(lia) ltac:(lia) Ho1 Ho3 Ho4)
    as (Hrc & Hsc & _ & rest & Hrows & Hfirst).
  destruct (Hfirst ltac:(lia) ltac:(congruence)) as (Hrc1 & b & rest' & -> & Hcnt & Hbt).
  rewrite Hk0, Hr0 in Hbt.
  pose proof (Htop_all 0 ltac:(lia)) as Hf0. unfold fin_ok in Hf0.
  destruct Hf0 as [Hf0|(Hv0 & _ & Hdp0 & _)]; [congruence|].
  rewrite Hk0 in Hv0.
  destruct (nb_bt_ok tabsF (Z.to_nat (n_cp + 3)) n_cp (snd st) 0 [] Hcok ltac:(lia) Hv0
                     ltac:(lia)) as (pre & Hpre).
  { rewrite <- Hr0, <- Hk0, Hdp0. congruence. }
  { lia. }
  { change (zlen []) with 0. lia. }
  assert (Hb : b = (0 :: pre) ++ [n_cp]) by congruence.
  exists b. split; [apply (bt_agree wF tabsF); try assumption; lia|].
  split; [rewrite Hb; reflexivity|].
  split; [rewrite Hb; apply zget_last|].
  split; [lia|]. split.
  { intros i j A B D.
    destruct (Hsc i ltac:(lia)) as (-> & _). destruct (Hsc j ltac:(lia)) as (-> & _).
    apply Htop_sorted; lia. }
  split; [rewrite Hrows, Ho2; reflexivity|].
  split; [assumption|].
  destruct (Hsc 0 ltac:(lia)) as (-> & _). assumption.
Qed.

End Forward.

(** ** Ranges of the scores *)

(** The [int16_t] fields and tables of a model hold 16-bit values. *)
Definition i16b (x : Z) : bool := (-32768 <=? x) && (x <=? 32767).

Definition i16_table (a : option (list Z)) : bool :=
  match a with Some l => forallb i16b l | None => true end.

Definition model_i16 (m : npycrf_model_t) : bool :=
  i16b (trans00 (crf m)) && i16b (trans01 (crf m)) && i16b (trans10 (crf m))
  && i16b (trans11 (crf m)) && i16b (bos_to1 (crf m))
  && i16_table (logp_uni (lm m)) && i16_table (logp_bi (lm m)).

Lemma i16b_spec x : i16b x = true <-> in_i16 x.
Proof. unfold i16b, in_i16. rewrite andb_true_iff, !Z.leb_le. tauto. Qed.

Lemma i16_table_spec a i : i16_table a = true -> in_i16 (oget a i).
Proof.
  destruct a as [l|]; simpl; [|intros _; unfold in_i16; lia].
  intros H. rewrite forallb_forall in H. unfold zget.
  destruct (Z.ltb_spec i 0); [unfold in_i16; lia|].
  destruct (Nat.lt_ge_cases (Z.to_nat i) (length l)) as [Hlt|Hge].
  - apply i16b_spec, H, nth_In, Hlt.
  - rewrite nth_overflow by assumption. unfold in_i16; lia.
Qed.

Lemma bsearch_key_range fuel keys vals : forall lo_ hi_ key dflt,
  i16_table vals = true -> in_i16 dflt ->
  in_i16 (bsearch_key fuel keys vals lo_ hi_ key dflt).
Proof.
  induction fuel as [|f IH]; intros lo_ hi_ key dflt Hv Hd; simpl; [assumption|].
  destruct (lo_ <? hi_); [|assumption].
  destruct (_ =? key); [apply i16_table_spec; assumption|].
  destruct (_ <? key); apply IH; assumption.
Qed.

Lemma lm_unigram_range l id len_cp :
  i16_table (logp_uni l) = true -> in_i16 (lm_unigram_logp l id len_cp).
Proof.
  intros H. unfold lm_unigram_logp.
  destruct (_ && _); [apply i16_table_spec; assumption|apply clamp16_range].
Qed.

Lemma lm_bigram_range l prev curr dflt :
  i16_table (logp_bi l) = true -> in_i16 dflt -> in_i16 (lm_bigram_logp l prev curr dflt).
Proof.
  intros H Hd. unfold lm_bigram_logp.
  destruct (_ || _); [assumption|].
  destruct (_ || _); [assumption|].
  apply bsearch_key_range; assumption.
Qed.

Lemma q16_mul_q8_bound a b :
  in_i16 b -> 128 * Z.abs a < 2147483647 ->
  - (128 * Z.abs a) <= q16_mul_q8 a b <= 128 * Z.abs a.
Proof.
  intros Hb Ha. unfold q16_mul_q8, NPYCRF_Q. rewrite Z.shiftr_div_pow2 by lia.
  change (2 ^ 8) with 256. unfold in_i16 in Hb.
  assert (Hp : - (128 * Z.abs a * 256) <= a * b <= 128 * Z.abs a * 256) by nia.
  set (p := a * b) in *.
  assert (Hq : - (128 * Z.abs a) <= p / 256 <= 128 * Z.abs a).
  { pose proof (Z.div_mod p 256 ltac:(lia)). pose proof (Z.mod_pos_bound p 256 ltac:(lia)). lia. }
  rewrite i32_id; [assumption|]. unfold in_i32. lia.
Qed.

Lemma zget_zset_i16 l j v i : in_i16 v -> in_i16 (zget l i) -> in_i16 (zget (zset l j v) i).
Proof.
  intros Hv Hl. rewrite zget_zset. destruct (_ && _); assumption.
Qed.

Lemma zget_zset_hit l i v : in_i16 v -> in_i16 (zget (zset l i v) i).
Proof.
  intros Hv. rewrite zget_zset, Z.eqb_refl. cbn [andb].
  destruct ((0 <=? i) && (i <? zlen l)) eqn:E; [assumption|].
  apply andb_false_iff in E. destruct E as [E|E].
  - apply Z.leb_gt in E. rewrite zget_neg by assumption. unfold in_i16; lia.
  - apply Z.ltb_ge in E. rewrite zget_out by assumption. unfold in_i16; lia.
Qed.

(** Every cell of [emit1] that the emission loop visits holds an [int16_t]. *)
Lemma emissions_loop_emit1 c utf8 off n_cp is_ :
  forall w w',
    emissions_loop c utf8 off n_cp is_ w = (0, w') ->
    forall i, In i is_ \/ in_i16 (zget (emit1 w) i) -> in_i16 (zget (emit1 w') i).
Proof.
  induction is_ as [|i0 rest IH]; intros w w' H; simpl in H.
  - inversion H; subst. intros i [[]|Hin]; assumption.
  - destruct (class_at utf8 off i0) as [cur|]; [|discriminate].
    destruct (if 0 <? i0 then class_at utf8 off (i0 - 1) else Some CC_BOS) as [prev|];
      [|discriminate].
    destruct (if i0 + 1 <? n_cp then class_at utf8 off (i0 + 1) else Some CC_EOS) as [next|];
      [|discriminate].
    intros i Hor. apply (IH _ _ H). cbn [emit1 set_emit1 set_emit0].
    destruct (Z.eq_dec i i0) as [->|Hne].
    + right. apply zget_zset_hit, crf_emit_pos_range.
    + destruct Hor as [[Heq|Hin]|Hin]; [congruence|left; assumption|right].
      apply zget_zset_i16; [apply crf_emit_pos_range|assumption].
Qed.

Lemma prefix_fold_emit1 (is_ : list Z) : forall w,
  emit1 (fold_left prefix_step is_ w) = emit1 w.
Proof.
  induction is_ as [|i is_ IH]; intros w; simpl; [reflexivity|]. rewrite IH. reflexivity.
Qed.

Lemma precompute_emissions_emit1 m utf8 off n_cp w w' :
  precompute_emissions m utf8 off n_cp w = (0, w') ->
  forall i, 0 <= i < n_cp -> in_i16 (zget (emit1 w') i).
Proof.
  intros H i Hi. unfold precompute_emissions in H.
  destruct (emissions_loop (crf m) utf8 off n_cp (range 0 n_cp) w) as [rc wa] eqn:E.
  destruct rc; try discriminate. inversion H; subst w'.
  rewrite prefix_fold_emit1. cbn [emit1 set_pref_emit0].
  apply (emissions_loop_emit1 _ _ _ _ _ _ _ E). left. apply in_range. assumption.
Qed.

(** *** What [precompute_spans] leaves alone *)

Definition emit_frame (w w' : npycrf_work_t) : Prop :=
  emit0 w' = emit0 w /\ emit1 w' = emit1 w /\ pref_emit0 w' = pref_emit0 w /\
  dp_ring w' = dp_ring w /\ zlen (bp_prevlen w') = zlen (bp_prevlen w).

Lemma emit_frame_refl w : emit_frame w w.
Proof. repeat split. Qed.

Lemma emit_frame_trans a b c : emit_frame a b -> emit_frame b c -> emit_frame a c.
Proof.
  intros (A1 & A2 & A3 & A4 & A5) (B1 & B2 & B3 & B4 & B5).
  repeat split; congruence.
Qed.

Lemma spans_len_loop_frame da utf8 off start_cp L ls : forall node w,
  emit_frame w (spans_len_loop da utf8 off start_cp L ls node w)
  /\ span_luni (spans_len_loop da utf8 off start_cp L ls node w) = span_luni w.
Proof.
  induction ls as [|l ls IH]; intros node w; simpl.
  - split; [apply emit_frame_refl|reflexivity].
  - destruct (_ =? 0); [split; [apply emit_frame_refl|reflexivity]|].
    match goal with |- context [spans_len_loop _ _ _ _ _ _ ?n ?w0] =>
      destruct (IH n w0) as (F & E); assert (Hw0 : emit_frame w w0 /\ span_luni w0 = span_luni w)
    end.
    { destruct (negb _); [|split; [apply emit_frame_refl|reflexivity]].
      destruct (_ <? 0); [|split; [apply emit_frame_refl|reflexivity]].
      destruct (_ <=? 65535); (split; [unfold emit_frame; cbn; repeat split|reflexivity]). }
    destruct Hw0 as (F0 & E0). split; [apply (emit_frame_trans _ _ _ F0 F)|congruence].
Qed.

Lemma fold_frame {B} (f : npycrf_work_t -> B -> npycrf_work_t) (l : list B) :
  (forall w x, emit_frame w (f w x)) -> forall w, emit_frame w (fold_left f l w).
Proof.
  intros Hf. induction l as [|x l IH]; intros w; simpl; [apply emit_frame_refl|].
  apply (emit_frame_trans _ (f w x)); [apply Hf|apply IH].
Qed.

Lemma spans_init_frame w i : emit_frame w (spans_init_step w i).
Proof.
  unfold spans_init_step, emit_frame. cbn. rewrite zlen_zset. repeat split.
Qed.

Lemma spans_luni_end_frame m L w e : emit_frame w (spans_luni_end m L w e).
Proof.
  unfold spans_luni_end. apply (fold_frame (fun w l => spans_luni_step m L w (e, l))).
  intros w' l. unfold spans_luni_step, emit_frame. cbn. repeat split.
Qed.

Lemma precompute_spans_frame m utf8 off n_cp w w' :
  precompute_spans m utf8 off n_cp w = (0, w') -> emit_frame w w'.
Proof.
  unfold precompute_spans. destruct (_ =? 0); [discriminate|].
  destruct (_ || _); [discriminate|]. intros H. inversion H; clear H.
  eapply emit_frame_trans; [|apply fold_frame; intros; apply spans_luni_end_frame].
  eapply emit_frame_trans;
    [|apply fold_frame; intros; unfold spans_start_step; apply spans_len_loop_frame].
  eapply emit_frame_trans; [apply (fold_frame spans_init_step); apply spans_init_frame|].
  unfold emit_frame. cbn. repeat split.
Qed.

(** *** The unigram table of the spans *)

Lemma init_fold_luni (is_ : list Z) : forall w i,
  In i is_ \/ in_i16 (zget (span_luni w) i) ->
  in_i16 (zget (span_luni (fold_left spans_init_step is_ w)) i).
Proof.
  induction is_ as [|i0 is_ IH]; intros w i Hor; simpl.
  - destruct Hor as [[]|H]; assumption.
  - apply IH. unfold spans_init_step. cbn [span_luni set_span_luni set_span_id set_bp_prevlen].
    destruct (Z.eq_dec i i0) as [->|Hne].
    + right. apply zget_zset_hit. unfold in_i16; lia.
    + destruct Hor as [[Heq|Hin]|Hin]; [congruence|left; assumption|right].
      apply zget_zset_i16; [unfold in_i16; lia|assumption].
Qed.

Lemma start_fold_luni m utf8 off n_cp L (is_ : list Z) : forall w,
  span_luni (fold_left (spans_start_step m utf8 off n_cp L) is_ w) = span_luni w.
Proof.
  induction is_ as [|i is_ IH]; intros w; simpl; [reflexivity|].
  rewrite IH. unfold spans_start_step. apply spans_len_loop_frame.
Qed.

Lemma luni_end_range m L (P : Z -> Prop) (es : list Z) : forall w,
  i16_table (logp_uni (lm m)) = true ->
  (forall i, P i -> in_i16 (zget (span_luni w) i)) ->
  forall i, P i -> in_i16 (zget (span_luni (fold_left (spans_luni_end m L) es w)) i).
Proof.
  intros w Hm. revert w.
  induction es as [|e es IH]; intros w Hw; simpl; [assumption|].
  apply IH. unfold spans_luni_end.
  apply (fold_left_inv (fun w' => forall i, P i -> in_i16 (zget (span_luni w') i)));
    [assumption|].
  intros w' l _ Hw' i Hi. unfold spans_luni_step. cbn [span_luni set_span_luni].
  apply zget_zset_i16; [apply lm_unigram_range; assumption|apply Hw'; assumption].
Qed.

Lemma precompute_spans_luni m utf8 off n_cp w w' :
  i16_table (logp_uni (lm m)) = true ->
  precompute_spans m utf8 off n_cp w = (0, w') ->
  forall i, 0 <= i < (n_cp + 1) * (max_word_len m + 1) -> in_i16 (zget (span_luni w') i).
Proof.
  intros Hm. unfold precompute_spans. destruct (_ =? 0); [discriminate|].
  destruct (_ || _); [discriminate|]. intros H. inversion H; clear H.
  apply (luni_end_range m (max_word_len m)
                        (fun i => 0 <= i < (n_cp + 1) * (max_word_len m + 1))); [assumption|].
  intros i Hi. rewrite start_fold_luni. cbn [span_luni set_span_luni set_span_id].
  apply zget_zset_i16; [unfold in_i16; lia|].
  apply init_fold_luni. left. apply in_range. assumption.
Qed.

(** *** The score of one edge of the lattice *)

Lemma seg_score_bound m utf8 off n_cp w0 w s t :
  model_i16 m = true ->
  0 <= n_cp <= 65535 -> n_cp <= zlen (emit0 w0) -> n_cp < zlen (pref_emit0 w0) ->
  precompute_emissions m utf8 off n_cp w0 = (0, w) ->
  0 <= s -> s < t -> t <= n_cp -> t - s <= 32767 ->
  - (65536 * (t - s)) <= crf_seg_score m w s t <= 65536 * (t - s).
Proof.
  intros Hm Hn Hle Hlp Hpre Hs Hst Ht Hk.
  unfold model_i16 in Hm. rewrite !andb_true_iff in Hm.
  destruct Hm as ((((((M0 & M1) & M2) & M3) & M4) & M5) & M6).
  apply i16b_spec in M0, M1, M2, M3. unfold in_i16 in *.
  pose proof (precompute_emissions_emit1 _ _ _ _ _ _ Hpre s ltac:(lia)) as He1.
  unfold in_i16 in He1.
  destruct (Z.eq_dec (t - s) 1) as [E1|E1].
  - unfold crf_seg_score. rewrite u16_small by lia. rewrite E1. cbn [Z.eqb Pos.eqb].
    rewrite add32_exact by (unfold in_i32; lia). lia.
  - destruct (seg_score_prefix_sum m utf8 off n_cp w0 w s t Hn Hle Hlp Hpre Hs ltac:(lia) Ht)
      as (_ & Heq).
    destruct (precompute_emissions_spec _ _ _ _ _ _ Hn Hle Hlp Hpre) as (Hb & _).
    pose proof (emit0_range_sum_bound w (s + 1) t) as Hsum.
    specialize (Hsum (fun i Hi => Hb i ltac:(lia)) ltac:(lia)).
    assert (Hnaive : - (65536 * (t - s)) <= naive_seg_score m w s t <= 65536 * (t - s)).
    { unfold naive_seg_score. nia. }
    rewrite Heq, i32_id; [assumption|]. unfold in_i32. lia.
Qed.

Lemma edge_score_bound m utf8 off n_cp w0 we w1 pid pos k :
  model_i16 m = true ->
  1 <= max_word_len m <= 255 ->
  0 <= n_cp <= 65535 -> n_cp <= zlen (emit0 w0) -> n_cp < zlen (pref_emit0 w0) ->
  precompute_emissions m utf8 off n_cp w0 = (0, we) ->
  precompute_spans m utf8 off n_cp we = (0, w1) ->
  128 * Z.abs (lambda0 m) < 1073741823 ->
  1 <= k <= max_word_len m -> k <= pos -> pos <= n_cp ->
  let C := 65536 + 128 * Z.abs (lambda0 m) in
  - (k * C) <= edge_score m w1 pid pos k <= k * C.
Proof.
  intros Hm HL Hn Hle Hlp Hpe Hps Hlam Hk Hkp Hpn C.
  pose proof (precompute_spans_frame _ _ _ _ _ _ Hps) as (F0 & F1 & F2 & _).
  assert (Hseg : crf_seg_score m w1 (pos - k) pos = crf_seg_score m we (pos - k) pos).
  { unfold crf_seg_score. rewrite F1, F2. reflexivity. }
  pose proof (seg_score_bound m utf8 off n_cp w0 we (pos - k) pos Hm Hn Hle Hlp Hpe
                              ltac:(lia) ltac:(lia) Hpn ltac:(lia)) as Hb.
  replace (pos - (pos - k)) with k in Hb by lia.
  pose proof Hm as Hm'. unfold model_i16 in Hm'. rewrite !andb_true_iff in Hm'.
  destruct Hm' as ((_ & M5) & M6).
  assert (Hluni : in_i16 (zget (span_luni w1) (span_index pos k (max_word_len m)))).
  { apply (precompute_spans_luni m utf8 off n_cp we w1 M5 Hps).
    unfold span_index.
    apply (lin_lt pos k (n_cp + 1) (max_word_len m + 1)); lia. }
  pose proof (lm_bigram_range (lm m) pid
                (zget (span_id w1) (span_index pos k (max_word_len m))) _ M6 Hluni) as Hlm.
  pose proof (q16_mul_q8_bound (lambda0 m) _ Hlm ltac:(lia)) as Hq.
  unfold edge_score. rewrite Hseg.
  rewrite add32_exact by (unfold in_i32; lia).
  unfold C. nia.
Qed.

(** *** The two decoders on the same call *)

Lemma make_offsets_loop_nonneg (fuel : nat) utf8 cap : forall i n off n' off',
  0 <= n -> make_offsets_loop fuel utf8 cap i n off = Some (n', off') -> 0 <= n'.
Proof.
  induction fuel as [|f IH]; intros i n off n' off' Hn H; simpl in H.
  - destruct (i <? zlen utf8); [discriminate|]. inversion H; subst; assumption.
  - destruct (i <? zlen utf8); [|inversion H; subst; assumption].
    destruct (cap <=? n + 1); [discriminate|].
    destruct (utf8_decode1 utf8 i) as [[i' cp]|]; [|discriminate].
    eapply IH; [|exact H]. lia.
Qed.

Lemma make_offsets_nonneg utf8 off cap : 0 <= fst (npycrf_utf8_make_offsets utf8 off cap).
Proof.
  unfold npycrf_utf8_make_offsets.
  destruct (make_offsets_loop (length utf8) utf8 cap 0 0 off) as [[n off']|] eqn:E;
    [|simpl; lia].
  apply make_offsets_loop_nonneg in E; [|lia].
  destruct (cap <=? n); simpl; lia.
Qed.

Lemma emissions_loop_frame c utf8 off n_cp is_ : forall w rc w',
  emissions_loop c utf8 off n_cp is_ w = (rc, w') ->
  dp_ring w' = dp_ring w /\ bp_prevlen w' = bp_prevlen w /\ cp_off w' = cp_off w.
Proof.
  induction is_ as [|i0 rest IH]; intros w rc w' H; simpl in H.
  - inversion H; subst. auto.
  - destruct (class_at utf8 off i0) as [cur|]; [|inversion H; subst; auto].
    destruct (if 0 <? i0 then class_at utf8 off (i0 - 1) else Some CC_BOS) as [prev|];
      [|inversion H; subst; auto].
    destruct (if i0 + 1 <? n_cp then class_at utf8 off (i0 + 1) else Some CC_EOS) as [next|];
      [|inversion H; subst; auto].
    apply IH in H. exact H.
Qed.

Lemma prefix_fold_frame (is_ : list Z) : forall w,
  dp_ring (fold_left prefix_step is_ w) = dp_ring w /\
  bp_prevlen (fold_left prefix_step is_ w) = bp_prevlen w /\
  cp_off (fold_left prefix_step is_ w) = cp_off w.
Proof.
  induction is_ as [|i is_ IH]; intros w; simpl; [auto|].
  destruct (IH (prefix_step w i)) as (A & B & D). rewrite A, B, D. auto.
Qed.

Lemma precompute_emissions_frame m utf8 off n_cp w rc w' :
  precompute_emissions m utf8 off n_cp w = (rc, w') ->
  dp_ring w' = dp_ring w /\ bp_prevlen w' = bp_prevlen w /\ cp_off w' = cp_off w.
Proof.
  unfold precompute_emissions.
  destruct (emissions_loop (crf m) utf8 off n_cp (range 0 n_cp) w) as [rc0 wa] eqn:E.
  apply emissions_loop_frame in E.
  destruct rc0; intros H; inversion H; subst; try assumption.
  destruct (prefix_fold_frame (range 0 n_cp) (set_pref_emit0 wa (zset (pref_emit0 wa) 0 0)))
    as (A & B & D).
  rewrite A, B, D. exact E.
Qed.

(** The buffers of a work area are as large as [npycrf_work_init] makes them. *)
Definition work_sized (w : npycrf_work_t) : bool :=
  (max_n_cp w <=? zlen (emit0 w)) && (max_n_cp w <? zlen (pref_emit0 w))
  && ((w_max_word_len w + 1) * (w_max_word_len w + 1) <=? zlen (dp_ring w))
  && ((max_n_cp w + 1) * (w_max_word_len w + 1) <=? zlen (bp_prevlen w)).

(** The Viterbi work area when the forward pass starts. *)
Definition vit_start (m : npycrf_model_t) (w1 : npycrf_work_t) : npycrf_work_t :=
  let L1 := max_word_len m + 1 in
  let w := fold_left (fun w i => set_dp_ring w (zset (dp_ring w) i NPYCRF_SCORE_NEG_INF))
                     (range 0 (L1 * L1)) w1 in
  set_dp_ring w (zset (dp_ring w) 0 (bos_to1 (crf m))).

Definition vit_final (m : npycrf_model_t) (n_cp : Z) (wF : npycrf_work_t) : Z * Z :=
  let L := max_word_len m in
  fold_left (vit_final_step wF L (n_cp mod (L + 1)))
            (range 1 ((if n_cp <=? L then n_cp else L) + 1)) (NPYCRF_SCORE_NEG_INF, 0).

(** What a successful [npycrf_decode] went through. *)
Lemma decode_ok_inv m utf8 w cap :
  d_rc (npycrf_decode m utf8 w cap) = 0 ->
  exists n_cp off we w1,
    (max_word_len m =? 0) = false /\ (max_n_cp w =? 0) = false /\
    npycrf_utf8_make_offsets utf8 (cp_off w) (max_n_cp w + 1) = (n_cp, off) /\
    (n_cp =? 0) = false /\ (max_n_cp w <? n_cp) = false /\
    (w_max_word_len w <? max_word_len m) = false /\
    precompute_emissions m utf8 off n_cp (set_cp_off w off) = (0, we) /\
    precompute_spans m utf8 off n_cp we = (0, w1) /\
    let wF := fold_left (vit_pos m (max_word_len m)) (range 1 (n_cp + 1)) (vit_start m w1) in
    let st := vit_final m n_cp wF in
    fst st <> NPYCRF_SCORE_NEG_INF /\ (cap <? n_cp + 1) = false /\
    forall b, vit_backtrack (Z.to_nat (n_cp + 3)) wF (max_word_len m) n_cp n_cp (snd st) []
              = (0, b) ->
              zget b 0 = 0 -> zget b (zlen b - 1) = n_cp ->
              npycrf_decode m utf8 w cap
              = {| d_rc := 0; d_b_cp := b; d_b_count := zlen b; d_score := fst st |}.
Proof.
  intros Hd. unfold npycrf_decode in *.
  destruct (max_word_len m =? 0) eqn:E1; [discriminate Hd|].
  destruct (max_n_cp w =? 0) eqn:E2; [discriminate Hd|].
  destruct (npycrf_utf8_make_offsets utf8 (cp_off w) (max_n_cp w + 1)) as [n_cp off] eqn:Eoff.
  destruct (n_cp =? 0) eqn:E3; [discriminate Hd|].
  cbn [max_n_cp set_cp_off w_max_word_len cp_off] in *.
  destruct (max_n_cp w <? n_cp) eqn:E4; [discriminate Hd|].
  destruct (w_max_word_len w <? max_word_len m) eqn:E5; [discriminate Hd|].
  destruct (cap <? 2) eqn:E6; [discriminate Hd|].
  destruct (precompute_emissions m utf8 off n_cp (set_cp_off w off)) as [rc1 we] eqn:Epe.
  destruct rc1; [|discriminate Hd|discriminate Hd].
  destruct (precompute_spans m utf8 (cp_off we) n_cp we) as [rc2 w1] eqn:Eps.
  destruct rc2; [|discriminate Hd|discriminate Hd].
  assert (Hoff : cp_off we = off).
  { apply precompute_emissions_frame in Epe. destruct Epe as (_ & _ & ->). reflexivity. }
  rewrite Hoff in *.
  exists n_cp, off, we, w1.
  repeat (split; [reflexivity || assumption|]).
  cbv zeta. fold (vit_start m w1) in *.
  set (wF := fold_left (vit_pos m (max_word_len m)) (range 1 (n_cp + 1)) (vit_start m w1)) in *.
  fold (vit_final m n_cp wF) in *.
  destruct (vit_final m n_cp wF) as [bf bk] eqn:Est.
  destruct ((bk =? 0) || (bf =? NPYCRF_SCORE_NEG_INF)) eqn:E7; [discriminate Hd|].
  apply orb_false_iff in E7. destruct E7 as (E7a & E7b).
  destruct (cap <? n_cp + 1) eqn:E8; [discriminate Hd|].
  split; [apply Z.eqb_neq; exact E7b|]. split; [reflexivity|].
  intros b Hbt Hb0 Hbl. cbn [fst snd] in *. rewrite Hbt.
  rewrite Hb0, Hbl, !Z.eqb_refl. reflexivity.
Qed.

(** The N-best tables when the forward pass starts. *)
Definition nb_start (m : npycrf_model_t) (n_cp nbest : Z) : nbest_tabs :=
  let total := Z.to_nat ((n_cp + 1) * (max_word_len m + 1) * nbest) in
  {| nb_dp := zset (repeat NPYCRF_SCORE_NEG_INF total) 0 (bos_to1 (crf m));
     nb_len := repeat 0 total; nb_rank := repeat 0 total |}.

Lemma start_inv m w1 n_cp nbest C :
  1 <= max_word_len m -> 1 <= n_cp -> 1 <= nbest ->
  (max_word_len m + 1) * (max_word_len m + 1) <= zlen (dp_ring w1) ->
  (n_cp + 1) * (max_word_len m + 1) <= zlen (bp_prevlen w1) ->
  Inv m w1 n_cp nbest C 0 (max_word_len m) (vit_start m w1) (nb_start m n_cp nbest).
Proof.
  intros HL Hn Hnb Hdp Hbp.
  set (L1 := max_word_len m + 1) in *.
  assert (Htot : 1 <= (n_cp + 1) * L1 * nbest /\ nbest <= (n_cp + 1) * L1 * nbest).
  { assert (1 * 1 <= (n_cp + 1) * L1) by (apply Z.mul_le_mono_nonneg; unfold L1; lia).
    assert (1 * nbest <= (n_cp + 1) * L1 * nbest) by (apply Z.mul_le_mono_nonneg_r; lia).
    lia. }
  pose proof (clear_fold 0 NPYCRF_SCORE_NEG_INF (range 0 (L1 * L1)) w1) as Hc.
  unfold Inv, vit_start, nb_start. fold L1. cbv zeta in *.
  set (wz := fold_left (fun w i => set_dp_ring w (zset (dp_ring w) i NPYCRF_SCORE_NEG_INF))
                       (range 0 (L1 * L1)) w1) in *.
  change (fold_left _ (range 0 (L1 * L1)) w1) with wz in Hc.
  destruct Hc as (C1 & C2 & C3 & C4).
  split; [exact C1|]. split.
  { unfold sizes_ok. fold L1. cbn [dp_ring bp_prevlen set_dp_ring nb_dp nb_len nb_rank].
    rewrite !zlen_zset, !zlen_repeat.
    rewrite C2, C3. lia. }
  split.
  { unfold root_ok. cbn [nb_dp]. split.
    - apply zget_zset_same. rewrite zlen_repeat. lia.
    - intros r Hr. rewrite zget_zset_other by lia. apply zget_repeat. lia. }
  split.
  { intros _. cbn [dp_ring set_dp_ring]. apply zget_zset_same. rewrite C3.
    assert (1 * 1 <= L1 * L1) by (apply Z.mul_le_mono_nonneg; unfold L1; lia). lia. }
  intros pos' k' ((A1 & A2 & A3) & [Hlt|[-> Hk]]); lia.
Qed.



(** The counterexample of C5 reads the claim without a bound on the scores.
    A unigram model with the one word [a] of log-probability 32767 and
    lambda0 = 32767 (every [int16_t] field holds a 16-bit value, no CRF
    feature): a word [a] adds 4194048 to a path, the unknown words [b] and
    [ba] add 12799 and 25599.  The text is [b] followed by 513 [a]. *)
Definition cx_trie : DA.da_trie_t :=
  snd (npycrf_da_set_term_value 4096 (snd (DA.da_trie_init_dynamic 4096 16)) [97] 0).

Definition cx_crf : npycrf_crf_t :=
  {| trans00 := 0; trans01 := 0; trans10 := 0; trans11 := 0; bos_to1 := 0;
     feat_key := None; feat_w := None; feat_count := 0 |}.

Definition cx_lm : npycrf_lm_t :=
  {| trie := ro_view cx_trie; logp_uni := Some [32767]; vocab_size := 1;
     bigram_key := None; logp_bi := None; bigram_size := 0;
     unk_base := 0; unk_per_cp := 100 |}.

Definition cx_model : npycrf_model_t :=
  {| crf := cx_crf; lm := cx_lm; lambda0 := 32767; max_word_len := 2; flags := 0;
     cc := ex_cc |}.

Definition cx_text : list Z := 98 :: repeat 97 513.

Definition cx_work : npycrf_work_t := npycrf_work_init 514 2.

Lemma pair_eq {A B} (a c : A) (b d : B) : (a, b) = (c, d) -> a = c /\ b = d.
Proof. intros H. split; congruence. Qed.


(** ** The boundaries [npycrf_decode] returns *)

Lemma fold_range_from_ind {A} (P : Z -> A -> Prop) (f : A -> Z -> A) (a0 : A) (lo hi : Z) :
  lo <= hi -> P lo a0 ->
  (forall t a, lo <= t < hi -> P t a -> P (t + 1) (f a t)) ->
  P hi (fold_left f (range lo hi) a0).
Proof.
  intros Hn H0 Hstep.
  assert (G : forall k : nat, lo + Z.of_nat k <= hi ->
                P (lo + Z.of_nat k) (fold_left f (range lo (lo + Z.of_nat k)) a0)).
  { induction k as [|k IH]; intros Hk.
    - rewrite Z.add_0_r, range_nil by lia. exact H0.
    - rewrite Nat2Z.inj_succ. unfold Z.succ. rewrite Z.add_assoc.
      rewrite range_snoc by lia. rewrite fold_left_app. cbn [fold_left].
      apply Hstep; [lia|]. apply IH. lia. }
  specialize (G (Z.to_nat (hi - lo))).
  replace (lo + Z.of_nat (Z.to_nat (hi - lo))) with hi in G by lia. apply G. lia.
Qed.

(** A list of boundaries: every one is larger than the one before, by [L]
    at most. *)
Fixpoint chain (L : Z) (b : list Z) : Prop :=
  match b with
  | x :: ((y :: _) as r) => x < y <= x + L /\ chain L r
  | _ => True
  end.

Lemma chain_zget (L : Z) (b : list Z) : forall i,
  chain L b -> 0 <= i < zlen b - 1 -> zget b i < zget b (i + 1) <= zget b i + L.
Proof.
  induction b as [|x b IH]; intros i Hc Hi.
  - change (zlen []) with 0 in Hi. lia.
  - destruct b as [|y r].
    + change (zlen [x]) with 1 in Hi. lia.
    + destruct Hc as (Hxy & Hc).
      destruct (Z.eq_dec i 0) as [->|Hne].
      * cbn. exact Hxy.
      * rewrite (zlen_cons x) in Hi.
        specialize (IH (i - 1) Hc ltac:(lia)).
        replace (i - 1 + 1) with i in IH by lia.
        assert (S1 : forall j l, 1 <= j -> zget (x :: l) j = zget l (j - 1)).
        { intros j l Hj. unfold zget.
          destruct (Z.ltb_spec j 0); [lia|]. destruct (Z.ltb_spec (j - 1) 0); [lia|].
          replace (Z.to_nat j) with (S (Z.to_nat (j - 1))) by lia. reflexivity. }
        rewrite (S1 i) by lia. rewrite (S1 (i + 1)) by lia.
        replace (i + 1 - 1) with i by lia. exact IH.
Qed.

Lemma chain_grows (L : Z) (b : list Z) : forall i,
  chain L b -> 0 <= i < zlen b -> zget b 0 + i <= zget b i.
Proof.
  intros i Hc (Hi0 & Hi). revert Hi. pattern i. apply natlike_ind; [| |exact Hi0].
  - intros _. lia.
  - intros j Hj IH Hlt. unfold Z.succ in *.
    pose proof (chain_zget L b j Hc ltac:(lia)). lia.
Qed.

Section Backtrack.

Variable m : npycrf_model_t.
Let L := max_word_len m.

(** The back-pointer of state [(pos, k)] is a word length that fits before
    the word. *)
Definition bp_ok (w : npycrf_work_t) (pos k : Z) : Prop :=
  0 <= zget (bp_prevlen w) (span_index pos k L) <= Z.min (pos - k) L.

Definition bp_upto (w : npycrf_work_t) (pos : Z) : Prop :=
  forall pos' k', 1 <= k' -> k' <= pos' -> k' <= L -> pos' <= pos -> bp_ok w pos' k'.

Lemma prev_step_snd (w : npycrf_work_t) prev_pos seg cid cl jmax st j :
  1 <= j <= jmax -> 0 <= snd st <= jmax ->
  0 <= snd (vit_prev_step m w L prev_pos seg cid cl st j) <= jmax.
Proof.
  intros Hj Hst. unfold vit_prev_step. cbv zeta.
  destruct (_ =? NPYCRF_SCORE_NEG_INF); [exact Hst|].
  destruct (fst st <? _); [|exact Hst].
  cbn [snd]. unfold u8, wrap_u.
  pose proof (Z.mod_pos_bound j (2 ^ 8) ltac:(lia)).
  pose proof (Z.mod_le j (2 ^ 8) ltac:(lia) ltac:(lia)). lia.
Qed.

Lemma cell_best_snd (w : npycrf_work_t) (pos k : Z) :
  0 <= L -> 0 <= snd (vit_cell_best m L pos w k) <= Z.min (u16 (pos - k)) L.
Proof.
  intros HL. unfold vit_cell_best. cbv zeta.
  set (pp := u16 (pos - k)).
  assert (Hpp : 0 <= pp).
  { unfold pp, u16, wrap_u. apply Z.mod_pos_bound. lia. }
  set (jmax := if pp <=? L then pp else L).
  assert (Hj : jmax = Z.min pp L).
  { unfold jmax. destruct (Z.leb_spec pp L); lia. }
  rewrite <- Hj.
  apply (fold_left_inv (fun st => 0 <= snd st <= jmax)).
  - assert (0 <= jmax) by lia.
    destruct (pp =? 0); [|cbn [snd]; lia].
    destruct (negb _); cbn [snd]; lia.
  - intros st j Hin Hst. apply in_range in Hin. apply prev_step_snd; [lia|exact Hst].
Qed.

Lemma cell_step_bp (w : npycrf_work_t) (pos k : Z) :
  1 <= L -> 1 <= pos <= 65535 -> 1 <= k -> k <= pos -> k <= L ->
  bp_upto w (pos - 1) ->
  (forall k', 1 <= k' < k -> bp_ok w pos k') ->
  bp_upto (vit_cell m L pos w k) (pos - 1) /\
  (forall k', 1 <= k' < k + 1 -> bp_ok (vit_cell m L pos w k) pos k').
Proof.
  intros HL Hpos Hk1 Hk2 Hk3 Hold Hrow.
  assert (Hbp : bp_prevlen (vit_cell m L pos w k)
                = zset (bp_prevlen w) (span_index pos k L) (snd (vit_cell_best m L pos w k))).
  { reflexivity. }
  assert (Hother : forall pos' k', 1 <= k' -> k' <= L -> (pos', k') <> (pos, k) ->
            zget (bp_prevlen (vit_cell m L pos w k)) (span_index pos' k' L)
            = zget (bp_prevlen w) (span_index pos' k' L)).
  { intros pos' k' A B Hne. rewrite Hbp. apply zget_zset_other.
    unfold span_index. intros E.
    destruct (lin_inj pos k pos' k' (L + 1) ltac:(lia) ltac:(lia) E) as (-> & ->).
    apply Hne. reflexivity. }
  split.
  - intros pos' k' A B C D. unfold bp_ok. rewrite Hother; try assumption.
    + apply Hold; assumption.
    + intros E. inversion E. lia.
  - intros k' Hk'. destruct (Z.eq_dec k' k) as [->|Hne].
    + unfold bp_ok. rewrite Hbp, zget_zset.
      pose proof (cell_best_snd w pos k ltac:(lia)) as Hs.
      rewrite (u16_id (pos - k)) in Hs by lia.
      destruct ((_ =? _) && _ && _) eqn:E; [exact Hs|].
      rewrite Z.eqb_refl in E. cbn [andb] in E.
      assert (I0 : 0 <= span_index pos k L) by (unfold span_index; nia).
      destruct (Z.leb_spec 0 (span_index pos k L)); [|lia]. cbn [andb] in E.
      apply Z.ltb_ge in E. rewrite zget_out by exact E. lia.
    + unfold bp_ok. rewrite Hother; try lia.
      * apply Hrow. lia.
      * intros E. inversion E. contradiction.
Qed.

Lemma pos_step_bp (w : npycrf_work_t) (pos : Z) :
  1 <= L -> 1 <= pos <= 65535 ->
  bp_upto w (pos - 1) -> bp_upto (vit_pos m L w pos) pos.
Proof.
  intros HL Hpos Hold. unfold vit_pos. cbv zeta.
  set (w0 := fold_left _ (range 0 (L + 1)) w).
  assert (H0 : bp_prevlen w0 = bp_prevlen w).
  { unfold w0. apply (fold_left_inv (fun w' => bp_prevlen w' = bp_prevlen w)); [reflexivity|].
    intros a x _ Ha. exact Ha. }
  assert (Hold0 : bp_upto w0 (pos - 1)).
  { intros pos' k' A B C D. unfold bp_ok. rewrite H0. apply Hold; assumption. }
  set (kmax := if pos <=? L then pos else L).
  assert (Hk : kmax = Z.min pos L) by (unfold kmax; destruct (Z.leb_spec pos L); lia).
  pose (Q := fun (t : Z) (w' : npycrf_work_t) =>
               bp_upto w' (pos - 1) /\ forall k', 1 <= k' < t -> bp_ok w' pos k').
  assert (G : Q (kmax + 1) (fold_left (vit_cell m L pos) (range 1 (kmax + 1)) w0)).
  { apply (fold_range_from_ind Q); unfold Q.
    - lia.
    - split; [exact Hold0|]. intros k' Hk'. lia.
    - intros t a Ht (A & B). apply cell_step_bp; try assumption; lia. }
  destruct G as (A & B).
  intros pos' k' C D E F.
  destruct (Z.eq_dec pos' pos) as [->|Hne].
  - apply B. lia.
  - apply A; try assumption. lia.
Qed.

Lemma forward_bp (w0 : npycrf_work_t) (n_cp : Z) :
  1 <= L -> 0 <= n_cp <= 65535 ->
  bp_upto (fold_left (vit_pos m L) (range 1 (n_cp + 1)) w0) n_cp.
Proof.
  intros HL Hn.
  pose (Q := fun (t : Z) (w' : npycrf_work_t) => bp_upto w' (t - 1)).
  assert (G : Q (n_cp + 1) (fold_left (vit_pos m L) (range 1 (n_cp + 1)) w0)).
  { apply (fold_range_from_ind Q); unfold Q.
    - lia.
    - intros pos' k' A B C D. lia.
    - intros t a Ht Ha. replace (t + 1 - 1) with t by lia.
      apply pos_step_bp; try assumption. lia. }
  unfold Q in G. replace (n_cp + 1 - 1) with n_cp in G by lia. exact G.
Qed.

Lemma final_snd (wF : npycrf_work_t) (end_row kmax : Z) :
  0 <= snd (fold_left (vit_final_step wF L end_row) (range 1 (kmax + 1))
                      (NPYCRF_SCORE_NEG_INF, 0)) <= Z.max 0 kmax.
Proof.
  apply (fold_left_inv (fun st => 0 <= snd st <= Z.max 0 kmax)).
  - cbn [snd]. lia.
  - intros st k Hin Hst. apply in_range in Hin. unfold vit_final_step. cbv zeta.
    destruct (fst st <? _); [cbn [snd]; lia|exact Hst].
Qed.

Lemma backtrack_chain (w : npycrf_work_t) (n_cp : Z) (fuel : nat) : forall pos k acc b,
  bp_upto w n_cp -> 1 <= L -> n_cp <= 65535 ->
  1 <= pos <= n_cp -> 1 <= k -> k <= pos -> k <= L ->
  chain L (pos :: acc) ->
  vit_backtrack fuel w L n_cp pos k acc = (0, b) ->
  chain L b.
Proof.
  induction fuel as [|f IH]; intros pos k acc b Hbp HL Hn Hpos Hk1 Hk2 Hk3 Hc Hrun.
  - cbn in Hrun. discriminate.
  - cbn [vit_backtrack] in Hrun.
    destruct (Z.eqb_spec pos 0); [lia|].
    rewrite u16_id in Hrun by lia.
    destruct (Z.eqb_spec (pos - k) 0) as [E0|E0].
    { inversion Hrun; subst b. cbn [chain]. split; [lia|exact Hc]. }
    pose proof (Hbp pos k Hk1 Hk2 Hk3 ltac:(lia)) as Hj. unfold bp_ok in Hj.
    destruct (Z.eqb_spec (zget (bp_prevlen w) (span_index pos k L)) 0); [discriminate|].
    destruct (n_cp + 1 <? zlen (pos :: acc)); [discriminate|].
    apply (IH _ _ _ _ Hbp HL Hn) in Hrun; try assumption; try lia.
    cbn [chain]. split; [lia|exact Hc].
Qed.

End Backtrack.

(** What a successful [npycrf_decode] went through, to the end. *)
Lemma decode_ok_path m utf8 w cap :
  d_rc (npycrf_decode m utf8 w cap) = 0 ->
  exists n_cp off w1 b,
    (max_word_len m =? 0) = false /\
    npycrf_utf8_make_offsets utf8 (cp_off w) (max_n_cp w + 1) = (n_cp, off) /\
    (n_cp =? 0) = false /\ (max_n_cp w <? n_cp) = false /\ (cap <? n_cp + 1) = false /\
    let wF := fold_left (vit_pos m (max_word_len m)) (range 1 (n_cp + 1)) (vit_start m w1) in
    let st := vit_final m n_cp wF in
    snd st <> 0 /\
    vit_backtrack (Z.to_nat (n_cp + 3)) wF (max_word_len m) n_cp n_cp (snd st) [] = (0, b) /\
    zget b 0 = 0 /\ zget b (zlen b - 1) = n_cp /\
    npycrf_decode m utf8 w cap
    = {| d_rc := 0; d_b_cp := b; d_b_count := zlen b; d_score := fst st |}.
Proof.
  intros Hd. unfold npycrf_decode in *.
  destruct (max_word_len m =? 0) eqn:E1; [discriminate Hd|].
  destruct (max_n_cp w =? 0) eqn:E2; [discriminate Hd|].
  destruct (npycrf_utf8_make_offsets utf8 (cp_off w) (max_n_cp w + 1)) as [n_cp off] eqn:Eoff.
  destruct (n_cp =? 0) eqn:E3; [discriminate Hd|].
  cbn [max_n_cp set_cp_off w_max_word_len cp_off] in *.
  destruct (max_n_cp w <? n_cp) eqn:E4; [discriminate Hd|].
  destruct (w_max_word_len w <? max_word_len m) eqn:E5; [discriminate Hd|].
  destruct (cap <? 2) eqn:E6; [discriminate Hd|].
  destruct (precompute_emissions m utf8 off n_cp (set_cp_off w off)) as [rc1 we] eqn:Epe.
  destruct rc1; [|discriminate Hd|discriminate Hd].
  destruct (precompute_spans m utf8 (cp_off we) n_cp we) as [rc2 w1] eqn:Eps.
  destruct rc2; [|discriminate Hd|discriminate Hd].
  exists n_cp, off, w1.
  cbv zeta. fold (vit_start m w1) in *.
  set (wF := fold_left (vit_pos m (max_word_len m)) (range 1 (n_cp + 1)) (vit_start m w1)) in *.
  fold (vit_final m n_cp wF) in *.
  destruct (vit_final m n_cp wF) as [bf bk] eqn:Est.
  destruct ((bk =? 0) || (bf =? NPYCRF_SCORE_NEG_INF)) eqn:E7; [discriminate Hd|].
  apply orb_false_iff in E7. destruct E7 as (E7a & E7b).
  destruct (cap <? n_cp + 1) eqn:E8; [discriminate Hd|].
  cbn [fst snd].
  destruct (vit_backtrack (Z.to_nat (n_cp + 3)) wF (max_word_len m) n_cp n_cp bk [])
    as [rc b] eqn:Ebt.
  destruct rc; [|discriminate Hd|discriminate Hd].
  destruct (negb (zget b 0 =? 0) || negb (zget b (zlen b - 1) =? n_cp)) eqn:E9;
    [discriminate Hd|].
  apply orb_false_iff in E9. destruct E9 as (E9a & E9b).
  apply negb_false_iff, Z.eqb_eq in E9a. apply negb_false_iff, Z.eqb_eq in E9b.
  exists b. repeat (split; [reflexivity || assumption|]).
  split; [apply Z.eqb_neq; exact E7a|]. repeat split; assumption.
Qed.

(** The path that a successful [npycrf_decode] returns. *)
Lemma decode_ok_chain (m : npycrf_model_t) (utf8 : list Z) (w : npycrf_work_t) (cap : Z) :
  max_n_cp w <= 65535 ->
  d_rc (npycrf_decode m utf8 w cap) = 0 ->
  let o := npycrf_decode m utf8 w cap in
  let n_cp := fst (npycrf_utf8_make_offsets utf8 (cp_off w) (max_n_cp w + 1)) in
  d_b_count o = zlen (d_b_cp o) /\ 2 <= d_b_count o <= cap /\
  zget (d_b_cp o) 0 = 0 /\
  zget (d_b_cp o) (d_b_count o - 1) = n_cp /\
  forall i, 0 <= i < d_b_count o - 1 ->
    zget (d_b_cp o) i < zget (d_b_cp o) (i + 1) <= zget (d_b_cp o) i + max_word_len m.
Proof.
  intros Hmax Hd.
  destruct (decode_ok_path m utf8 w cap Hd)
    as (n_cp & off & w1 & b & E1 & Eoff & E3 & E4 & E8 & Hpath).
  cbv zeta in Hpath. destruct Hpath as (Hk & Hbt & Hb0 & Hbl & Hdec).
  cbv zeta. rewrite Hdec, Eoff. cbn [d_b_count d_b_cp fst].
  apply Z.eqb_neq in E1, E3. apply Z.ltb_ge in E4, E8.
  pose proof (make_offsets_nonneg utf8 (cp_off w) (max_n_cp w + 1)) as Hn0.
  rewrite Eoff in Hn0. cbn [fst] in Hn0.
  set (L := max_word_len m) in *.
  set (wF := fold_left (vit_pos m L) (range 1 (n_cp + 1)) (vit_start m w1)) in *.
  assert (Hfin : 0 <= snd (vit_final m n_cp wF)
                 <= Z.max 0 (if n_cp <=? L then n_cp else L)).
  { unfold vit_final. cbv zeta. apply final_snd. }
  assert (HL : 1 <= L).
  { destruct (Z.leb_spec n_cp L); lia. }
  assert (Hk' : 1 <= snd (vit_final m n_cp wF) /\ snd (vit_final m n_cp wF) <= n_cp /\
                snd (vit_final m n_cp wF) <= L).
  { destruct (Z.leb_spec n_cp L); lia. }
  destruct Hk' as (K1 & K2 & K3).
  pose proof (forward_bp m (vit_start m w1) n_cp HL ltac:(lia)) as Hbp. fold L wF in Hbp.
  pose proof (backtrack_chain m wF n_cp _ n_cp _ [] b Hbp HL ltac:(lia) ltac:(lia)
                              K1 K2 K3 I Hbt) as Hc.
  assert (Hlen : 2 <= zlen b <= n_cp + 1).
  { pose proof (zlen_nonneg b) as Hz.
    assert (zlen b <> 0).
    { intros Z0. destruct b; [|rewrite zlen_cons in Z0; pose proof (zlen_nonneg b); lia].
      cbn in Hbl. lia. }
    assert (zlen b <> 1).
    { intros Z1. rewrite Z1 in Hbl. cbn [Z.sub] in Hbl. change (1 - 1) with 0 in Hbl. lia. }
    pose proof (chain_grows L b (zlen b - 1) Hc ltac:(lia)). lia. }
  split; [reflexivity|]. split; [lia|]. split; [exact Hb0|]. split; [exact Hbl|].
  intros i Hi. apply chain_zget; assumption.
Qed.

(** The boundaries of a successful [npycrf_decode] are a segmentation of the
    text: they start at 0, end at the number of code points, every word has
    at least one code point and at most [max_word_len], and their number is
    what [out_b_count] says and fits the buffer that was offered. *)
Theorem decode_returns_segmentation (m : npycrf_model_t) (utf8 : list Z)
        (w : npycrf_work_t) (cap : Z) :
  max_n_cp w <= 65535 ->
  d_rc (npycrf_decode m utf8 w cap) = 0 ->
  let o := npycrf_decode m utf8 w cap in
  let n_cp := fst (npycrf_utf8_make_offsets utf8 (cp_off w) (max_n_cp w + 1)) in
  d_b_count o = zlen (d_b_cp o) /\ 2 <= d_b_count o <= cap /\
  zget (d_b_cp o) 0 = 0 /\
  zget (d_b_cp o) (d_b_count o - 1) = n_cp /\
  forall i, 0 <= i < d_b_count o - 1 ->
    zget (d_b_cp o) i < zget (d_b_cp o) (i + 1) <= zget (d_b_cp o) i + max_word_len m.
Proof.
  intros Hmax Hd.
  destruct (decode_ok_path m utf8 w cap Hd)
    as (n_cp & off & w1 & b & E1 & Eoff & E3 & E4 & E8 & Hpath).
  cbv zeta in Hpath. destruct Hpath as (Hk & Hbt & Hb0 & Hbl & Hdec).
  cbv zeta. rewrite Hdec, Eoff. cbn [d_b_count d_b_cp fst].
  apply Z.eqb_neq in E1, E3. apply Z.ltb_ge in E4, E8.
  pose proof (make_offsets_nonneg utf8 (cp_off w) (max_n_cp w + 1)) as Hn0.
  rewrite Eoff in Hn0. cbn [fst] in Hn0.
  set (L := max_word_len m) in *.
  set (wF := fold_left (vit_pos m L) (range 1 (n_cp + 1)) (vit_start m w1)) in *.
  assert (Hfin : 0 <= snd (vit_final m n_cp wF)
                 <= Z.max 0 (if n_cp <=? L then n_cp else L)).
  { unfold vit_final. cbv zeta. apply final_snd. }
  assert (HL : 1 <= L).
  { destruct (Z.leb_spec n_cp L); lia. }
  assert (Hk' : 1 <= snd (vit_final m n_cp wF) /\ snd (vit_final m n_cp wF) <= n_cp /\
                snd (vit_final m n_cp wF) <= L).
  { destruct (Z.leb_spec n_cp L); lia. }
  destruct Hk' as (K1 & K2 & K3).
  pose proof (forward_bp m (vit_start m w1) n_cp HL ltac:(lia)) as Hbp. fold L wF in Hbp.
  pose proof (backtrack_chain m wF n_cp _ n_cp _ [] b Hbp HL ltac:(lia) ltac:(lia)
                              K1 K2 K3 I Hbt) as Hc.
  assert (Hlen : 2 <= zlen b <= n_cp + 1).
  { pose proof (zlen_nonneg b) as Hz.
    assert (zlen b <> 0).
    { intros Z0. destruct b; [|rewrite zlen_cons in Z0; pose proof (zlen_nonneg b); lia].
      cbn in Hbl. lia. }
    assert (zlen b <> 1).
    { intros Z1. rewrite Z1 in Hbl. cbn [Z.sub] in Hbl. change (1 - 1) with 0 in Hbl. lia. }
    pose proof (chain_grows L b (zlen b - 1) Hc ltac:(lia)). lia. }
  split; [reflexivity|]. split; [lia|]. split; [exact Hb0|]. split; [exact Hbl|].
  intros i Hi. apply chain_zget; assumption.
Qed.

(** The text [aba] with the words [a] and [ab]. *)
Definition ex_decoded : decode_out := npycrf_decode ex_model [97; 98; 97] ex_work 17.

Lemma decode_returns_segmentation_witness :
  d_b_count ex_decoded = zlen (d_b_cp ex_decoded) /\ 2 <= d_b_count ex_decoded <= 17 /\
  zget (d_b_cp ex_decoded) 0 = 0 /\
  zget (d_b_cp ex_decoded) (d_b_count ex_decoded - 1)
  = fst (npycrf_utf8_make_offsets [97; 98; 97] (cp_off ex_work) (max_n_cp ex_work + 1)) /\
  forall i, 0 <= i < d_b_count ex_decoded - 1 ->
    zget (d_b_cp ex_decoded) i < zget (d_b_cp ex_decoded) (i + 1)
    <= zget (d_b_cp ex_decoded) i + max_word_len ex_model.
Proof.
  unfold ex_decoded.
  apply (decode_returns_segmentation ex_model [97; 98; 97] ex_work 17).
  - vm_compute. discriminate.
  - vm_compute. reflexivity.
Defined.

(** ** The sorted tables *)

(** The first [count] keys are in strictly ascending order. *)
Definition ascending (keys : list Z) (count : Z) : Prop :=
  forall i j, 0 <= i -> i < j -> j < count -> zget keys i < zget keys j.

Lemma bsearch_key_spec (keys vals : list Z) (count key dflt : Z) :
  ascending keys count ->
  forall fuel lo_ hi_,
  0 <= lo_ -> lo_ <= hi_ -> hi_ <= count -> hi_ - lo_ < Z.of_nat fuel ->
  (forall i, lo_ <= i < hi_ -> zget keys i = key ->
     bsearch_key fuel (Some keys) (Some vals) lo_ hi_ key dflt = zget vals i) /\
  ((forall i, lo_ <= i < hi_ -> zget keys i <> key) ->
     bsearch_key fuel (Some keys) (Some vals) lo_ hi_ key dflt = dflt).
Proof.
  intros Hasc. induction fuel as [|f IH]; intros lo_ hi_ H0 H1 H2 Hf; [lia|].
  cbn [bsearch_key oget]. cbv zeta.
  destruct (Z.ltb_spec lo_ hi_) as [Hlt|Hge].
  2:{ split; [intros i Hi; lia|reflexivity]. }
  set (mid := lo_ + (hi_ - lo_) / 2).
  assert (Hmid : lo_ <= mid < hi_) by (unfold mid; Z.div_mod_to_equations; lia).
  destruct (Z.eqb_spec (zget keys mid) key) as [Eq|Ne].
  - split.
    + intros i Hi Hk.
      destruct (Z.lt_trichotomy i mid) as [L|[->|L]]; [|reflexivity|].
      * pose proof (Hasc i mid ltac:(lia) L ltac:(lia)). lia.
      * pose proof (Hasc mid i ltac:(lia) L ltac:(lia)). lia.
    + intros Habs. exfalso. apply (Habs mid Hmid Eq).
  - destruct (Z.ltb_spec (zget keys mid) key) as [Lt|Gt].
    + destruct (IH (mid + 1) hi_ ltac:(lia) ltac:(lia) H2 ltac:(lia)) as (A & B).
      split.
      * intros i Hi Hk. apply A; [|exact Hk].
        destruct (Z.lt_ge_cases mid i); [lia|].
        destruct (Z.eq_dec i mid) as [->|Hne]; [contradiction|].
        pose proof (Hasc i mid ltac:(lia) ltac:(lia) ltac:(lia)). lia.
      * intros Habs. apply B. intros i Hi. apply Habs. lia.
    + destruct (IH lo_ mid H0 ltac:(lia) ltac:(lia) ltac:(lia)) as (A & B).
      split.
      * intros i Hi Hk. apply A; [|exact Hk].
        destruct (Z.lt_ge_cases i mid); [lia|].
        destruct (Z.eq_dec i mid) as [->|Hne]; [contradiction|].
        pose proof (Hasc mid i ltac:(lia) ltac:(lia) ltac:(lia)). lia.
      * intros Habs. apply B. intros i Hi. apply Habs. lia.
Qed.

(** With the feature keys in strictly ascending order, [crf_lookup_w]
    returns the weight stored beside a key of the table, and 0 for a key
    that is not in the table. *)
Theorem crf_lookup_finds_weight (c : npycrf_crf_t) (keys ws : list Z) :
  feat_key c = Some keys -> feat_w c = Some ws ->
  ascending keys (feat_count c) ->
  (forall i, 0 <= i < feat_count c -> crf_lookup_w c (zget keys i) = zget ws i) /\
  (forall key, (forall i, 0 <= i < feat_count c -> zget keys i <> key) ->
     crf_lookup_w c key = 0).
Proof.
  intros Hk Hw Hasc. unfold crf_lookup_w. rewrite Hk, Hw. cbn [is_null orb].
  split.
  - intros i Hi. destruct (Z.eqb_spec (feat_count c) 0); [lia|].
    apply (bsearch_key_spec keys ws (feat_count c) (zget keys i) 0 Hasc
             (S (Z.to_nat (feat_count c))) 0 (feat_count c)); try lia; try reflexivity.
  - intros key Habs. destruct (Z.eqb_spec (feat_count c) 0); [reflexivity|].
    destruct (Z.le_gt_cases (feat_count c) 0) as [Hneg|Hpos].
    + cbn [bsearch_key]. destruct (Z.ltb_spec 0 (feat_count c)); [lia|reflexivity].
    + apply (bsearch_key_spec keys ws (feat_count c) key 0 Hasc
               (S (Z.to_nat (feat_count c))) 0 (feat_count c)); try lia; try exact Habs.
Qed.

(** With the bigram keys in strictly ascending order, [lm_bigram_logp]
    returns the value stored for the pair of word ids, and the backoff
    value for a pair that is not in the table. *)
Theorem lm_bigram_finds_pair (l : npycrf_lm_t) (keys vals : list Z)
        (prev curr backoff : Z) :
  bigram_key l = Some keys -> logp_bi l = Some vals ->
  ascending keys (bigram_size l) ->
  prev <> NPYCRF_ID_NONE -> curr <> NPYCRF_ID_NONE ->
  (forall i, 0 <= i < bigram_size l ->
     zget keys i = Z.lor (u32 (Z.shiftl prev 16)) curr ->
     lm_bigram_logp l prev curr backoff = zget vals i) /\
  ((forall i, 0 <= i < bigram_size l ->
      zget keys i <> Z.lor (u32 (Z.shiftl prev 16)) curr) ->
   lm_bigram_logp l prev curr backoff = backoff).
Proof.
  intros Hk Hv Hasc Hp Hc. unfold lm_bigram_logp. rewrite Hk, Hv. cbn [is_null orb].
  destruct (Z.eqb_spec prev NPYCRF_ID_NONE); [contradiction|].
  destruct (Z.eqb_spec curr NPYCRF_ID_NONE); [contradiction|]. cbn [orb]. cbv zeta.
  split.
  - intros i Hi Hkey. destruct (Z.eqb_spec (bigram_size l) 0); [lia|].
    apply (bsearch_key_spec keys vals (bigram_size l) _ backoff Hasc
             (S (Z.to_nat (bigram_size l))) 0 (bigram_size l)); try lia; try exact Hkey.
  - intros Habs. destruct (Z.eqb_spec (bigram_size l) 0); [reflexivity|].
    destruct (Z.le_gt_cases (bigram_size l) 0) as [Hneg|Hpos].
    + cbn [bsearch_key]. destruct (Z.ltb_spec 0 (bigram_size l)); [lia|reflexivity].
    + apply (bsearch_key_spec keys vals (bigram_size l) _ backoff Hasc
               (S (Z.to_nat (bigram_size l))) 0 (bigram_size l)); try lia; try exact Habs.
Qed.

(** The first [count] ranges are well formed, disjoint and in ascending
    order. *)
Definition ranges_sorted (rs : list npycrf_cc_range_t) (count : Z) : Prop :=
  (forall i, 0 <= i < count -> lo (range_at rs i) <= hi (range_at rs i)) /\
  (forall i j, 0 <= i -> i < j -> j < count -> hi (range_at rs i) < lo (range_at rs j)).

Definition in_range_at (rs : list npycrf_cc_range_t) (i cp : Z) : Prop :=
  lo (range_at rs i) <= cp <= hi (range_at rs i).

Lemma ranges_unique rs count cp i j :
  ranges_sorted rs count -> 0 <= i < count -> 0 <= j < count ->
  in_range_at rs i cp -> in_range_at rs j cp -> i = j.
Proof.
  intros (Hwf & Hs) Hi Hj Ii Ij. unfold in_range_at in *.
  destruct (Z.lt_trichotomy i j) as [L|[E|L]]; [|exact E|].
  - pose proof (Hs i j ltac:(lia) L ltac:(lia)). lia.
  - pose proof (Hs j i ltac:(lia) L ltac:(lia)). lia.
Qed.

Lemma ranges_linear_spec rs cp (is_ : list Z) :
  (forall i, In i is_ -> in_range_at rs i cp ->
     forall j, In j is_ -> in_range_at rs j cp -> i = j) ->
  (forall i, In i is_ -> in_range_at rs i cp ->
     ranges_linear rs is_ cp = class_id (range_at rs i)) /\
  ((forall i, In i is_ -> ~ in_range_at rs i cp) -> ranges_linear rs is_ cp = CC_OTHER).
Proof.
  induction is_ as [|i0 rest IH]; intros Huniq.
  - split; [intros i []|reflexivity].
  - cbn [ranges_linear].
    destruct ((lo (range_at rs i0) <=? cp) && (cp <=? hi (range_at rs i0))) eqn:E.
    + apply andb_true_iff in E. rewrite !Z.leb_le in E.
      split.
      * intros i Hin Hi. rewrite (Huniq i Hin Hi i0 (or_introl eq_refl) E). reflexivity.
      * intros Habs. exfalso. apply (Habs i0 (or_introl eq_refl)). exact E.
    + assert (N0 : ~ in_range_at rs i0 cp).
      { intros Hin. unfold in_range_at in Hin. apply andb_false_iff in E.
        rewrite !Z.leb_gt in E. lia. }
      destruct IH as (A & B).
      { intros i Hin Hi j Hj Ij. apply (Huniq i (or_intror Hin) Hi j (or_intror Hj) Ij). }
      split.
      * intros i [<-|Hin] Hi; [contradiction|]. apply A; assumption.
      * intros Habs. apply B. intros i Hin. apply Habs. right. exact Hin.
Qed.

Lemma ranges_bsearch_spec rs count cp :
  ranges_sorted rs count ->
  forall fuel lo_ hi_,
  0 <= lo_ -> lo_ <= hi_ -> hi_ <= count -> hi_ - lo_ < Z.of_nat fuel ->
  (forall i, lo_ <= i < hi_ -> in_range_at rs i cp ->
     ranges_bsearch fuel rs lo_ hi_ cp = class_id (range_at rs i)) /\
  ((forall i, lo_ <= i < hi_ -> ~ in_range_at rs i cp) ->
     ranges_bsearch fuel rs lo_ hi_ cp = CC_OTHER).
Proof.
  intros Hs. pose proof Hs as (Hwf & Hord).
  induction fuel as [|f IH]; intros lo_ hi_ H0 H1 H2 Hf; [lia|].
  cbn [ranges_bsearch]. cbv zeta.
  destruct (Z.ltb_spec lo_ hi_) as [Hlt|Hge].
  2:{ split; [intros i Hi; lia|reflexivity]. }
  set (mid := lo_ + (hi_ - lo_) / 2).
  assert (Hmid : lo_ <= mid < hi_) by (unfold mid; Z.div_mod_to_equations; lia).
  destruct (Z.ltb_spec cp (lo (range_at rs mid))) as [Lt|Ge].
  - destruct (IH lo_ mid H0 ltac:(lia) ltac:(lia) ltac:(lia)) as (A & B).
    split.
    + intros i Hi Hin. apply A; [|exact Hin]. unfold in_range_at in Hin.
      destruct (Z.lt_ge_cases i mid); [lia|].
      destruct (Z.eq_dec i mid) as [->|Hne]; [lia|].
      pose proof (Hord mid i ltac:(lia) ltac:(lia) ltac:(lia)).
      pose proof (Hwf mid ltac:(lia)). lia.
    + intros Habs. apply B. intros i Hi. apply Habs. lia.
  - destruct (Z.ltb_spec (hi (range_at rs mid)) cp) as [Gt|Le].
    + destruct (IH (mid + 1) hi_ ltac:(lia) ltac:(lia) H2 ltac:(lia)) as (A & B).
      split.
      * intros i Hi Hin. apply A; [|exact Hin]. unfold in_range_at in Hin.
        destruct (Z.lt_ge_cases mid i); [lia|].
        destruct (Z.eq_dec i mid) as [->|Hne]; [lia|].
        pose proof (Hord i mid ltac:(lia) ltac:(lia) ltac:(lia)).
        pose proof (Hwf mid ltac:(lia)). lia.
      * intros Habs. apply B. intros i Hi. apply Habs. lia.
    + assert (Im : in_range_at rs mid cp) by (unfold in_range_at; lia).
      split.
      * intros i Hi Hin.
        rewrite (ranges_unique rs count cp i mid Hs ltac:(lia) ltac:(lia) Hin Im).
        reflexivity.
      * intros Habs. exfalso. apply (Habs mid Hmid Im).
Qed.

(** With the ranges disjoint and in ascending order,
    [char_class_from_ranges] gives the class of the range that holds the
    code point and [CC_OTHER] when none does, whether the table is short
    enough for the linear scan or is searched by bisection. *)
Theorem char_class_from_ranges_finds_range (rs : list npycrf_cc_range_t) (count cp : Z) :
  ranges_sorted rs count ->
  (forall i, 0 <= i < count -> lo (range_at rs i) <= cp <= hi (range_at rs i) ->
     char_class_from_ranges (Some rs) count cp = class_id (range_at rs i)) /\
  ((forall i, 0 <= i < count -> ~ lo (range_at rs i) <= cp <= hi (range_at rs i)) ->
   char_class_from_ranges (Some rs) count cp = CC_OTHER).
Proof.
  intros Hs. unfold char_class_from_ranges.
  assert (Hlin : forall i, In i (range 0 count) -> in_range_at rs i cp ->
                 forall j, In j (range 0 count) -> in_range_at rs j cp -> i = j).
  { intros i Hi Ii j Hj Ij. apply in_range in Hi, Hj.
    apply (ranges_unique rs count cp i j Hs); assumption. }
  destruct (ranges_linear_spec rs cp (range 0 count) Hlin) as (LA & LB).
  split.
  - intros i Hi Hin. destruct (Z.eqb_spec count 0); [lia|].
    destruct (Z.leb_spec count 8).
    + apply LA; [apply in_range; lia|exact Hin].
    + apply (ranges_bsearch_spec rs count cp Hs (S (Z.to_nat count)) 0 count); try lia;
        try exact Hin.
  - intros Habs. destruct (Z.eqb_spec count 0); [reflexivity|].
    destruct (Z.leb_spec count 8).
    + apply LB. intros i Hi. apply in_range in Hi. apply Habs. exact Hi.
    + apply (ranges_bsearch_spec rs count cp Hs (S (Z.to_nat count)) 0 count); try lia;
        try exact Habs.
Qed.

(** A feature table with three keys. *)
Definition ex_crf_feats : npycrf_crf_t :=
  {| trans00 := 0; trans01 := 0; trans10 := 0; trans11 := 0; bos_to1 := 0;
     feat_key := Some [3; 70000; 16777216]; feat_w := Some [10; -20; 30];
     feat_count := 3 |}.

Lemma ascending_3 (a b c : Z) : a < b -> b < c -> ascending [a; b; c] 3.
Proof.
  intros Hab Hbc i j Hi Hij Hj.
  assert (C : (i = 0 /\ j = 1) \/ (i = 0 /\ j = 2) \/ (i = 1 /\ j = 2)) by lia.
  destruct C as [(-> & ->)|[(-> & ->)|(-> & ->)]]; unfold zget; simpl; lia.
Qed.

Lemma crf_lookup_finds_weight_witness :
  (forall i, 0 <= i < feat_count ex_crf_feats ->
     crf_lookup_w ex_crf_feats (zget [3; 70000; 16777216] i) = zget [10; -20; 30] i) /\
  (forall key, (forall i, 0 <= i < feat_count ex_crf_feats ->
                  zget [3; 70000; 16777216] i <> key) ->
     crf_lookup_w ex_crf_feats key = 0).
Proof.
  apply (crf_lookup_finds_weight ex_crf_feats [3; 70000; 16777216] [10; -20; 30]).
  - reflexivity.
  - reflexivity.
  - apply ascending_3; lia.
Defined.

(** A language model with three bigrams. *)
Definition ex_lm_bigrams : npycrf_lm_t :=
  {| trie := ro_view ex_trie; logp_uni := Some [-177; -177]; vocab_size := 2;
     bigram_key := Some [0; 1; 65536]; logp_bi := Some [-50; -60; -70]; bigram_size := 3;
     unk_base := -1280; unk_per_cp := -256 |}.

Lemma lm_bigram_finds_pair_witness :
  (forall i, 0 <= i < bigram_size ex_lm_bigrams ->
     zget [0; 1; 65536] i = Z.lor (u32 (Z.shiftl 1 16)) 0 ->
     lm_bigram_logp ex_lm_bigrams 1 0 (-177) = zget [-50; -60; -70] i) /\
  ((forall i, 0 <= i < bigram_size ex_lm_bigrams ->
      zget [0; 1; 65536] i <> Z.lor (u32 (Z.shiftl 1 16)) 0) ->
   lm_bigram_logp ex_lm_bigrams 1 0 (-177) = -177).
Proof.
  apply (lm_bigram_finds_pair ex_lm_bigrams [0; 1; 65536] [-50; -60; -70] 1 0 (-177)).
  - reflexivity.
  - reflexivity.
  - apply ascending_3; lia.
  - discriminate.
  - discriminate.
Defined.

(** Nine ranges, so that the table is searched by bisection. *)
Definition ex_ranges : list npycrf_cc_range_t :=
  map (fun i => {| lo := 100 * i; hi := 100 * i + 50; class_id := 20 + i |}) (range 1 10).

Lemma ex_ranges_sorted : ranges_sorted ex_ranges 9.
Proof.
  assert (A : forall i, 0 <= i < 9 ->
              range_at ex_ranges i
              = {| lo := 100 * (i + 1); hi := 100 * (i + 1) + 50; class_id := 21 + i |}).
  { intros i Hi.
    assert (C : i = 0 \/ i = 1 \/ i = 2 \/ i = 3 \/ i = 4 \/ i = 5 \/ i = 6 \/ i = 7 \/ i = 8)
      by lia.
    repeat (destruct C as [->|C]; [reflexivity|]). subst i. reflexivity. }
  split.
  - intros i Hi. rewrite (A i Hi). cbn [lo hi]. lia.
  - intros i j Hi Hij Hj. rewrite (A i), (A j) by lia. cbn [lo hi]. lia.
Qed.

Lemma char_class_from_ranges_finds_range_witness :
  (forall i, 0 <= i < 9 -> lo (range_at ex_ranges i) <= 320 <= hi (range_at ex_ranges i) ->
     char_class_from_ranges (Some ex_ranges) 9 320 = class_id (range_at ex_ranges i)) /\
  ((forall i, 0 <= i < 9 -> ~ lo (range_at ex_ranges i) <= 320 <= hi (range_at ex_ranges i)) ->
   char_class_from_ranges (Some ex_ranges) 9 320 = CC_OTHER).
Proof.
  apply (char_class_from_ranges_finds_range ex_ranges 9 320). exact ex_ranges_sorted.
Defined.

End NpycrfProofs.

(** ** The lossless whitespace coding *)
Module LosslessProofs.

Import Mem MemFacts Lossless.

(** ** Lists read at an offset *)

Lemma zget_app_r (pre l : list Z) (i : Z) :
  0 <= i -> zget (pre ++ l) (zlen pre + i) = zget l i.
Proof.
  intros Hi. unfold zget, zlen.
  destruct (Z.ltb_spec (Z.of_nat (length pre) + i) 0); [lia|].
  destruct (Z.ltb_spec i 0); [lia|].
  rewrite app_nth2 by lia. f_equal. lia.
Qed.

Lemma zget_app_r0 (pre l : list Z) : zget (pre ++ l) (zlen pre) = zget l 0.
Proof. rewrite <- (zget_app_r pre l 0) by lia. f_equal. lia. Qed.

(** ** One code point: decoding what [utf8_encode_cp] wrote *)

Lemma lor_mul_add (q y k : Z) :
  0 <= k -> 0 <= y < 2 ^ k -> Z.lor (q * 2 ^ k) y = q * 2 ^ k + y.
Proof.
  intros Hk Hy.
  assert (Hland : Z.land (q * 2 ^ k) y = 0).
  { apply Z.bits_inj'. intros n Hn. rewrite Z.land_spec, Z.bits_0.
    destruct (Z.lt_ge_cases n k) as [Hlt|Hge].
    - rewrite Z.mul_pow2_bits_low by lia. reflexivity.
    - destruct (Z.eq_dec y 0) as [->|Hy0]; [rewrite Z.bits_0; apply andb_false_r|].
      rewrite (Z.bits_above_log2 y n); [apply andb_false_r|lia|].
      apply Z.log2_lt_pow2; [lia|].
      apply Z.lt_le_trans with (2 ^ k); [lia|]. apply Z.pow_le_mono_r; lia. }
  pose proof (Z.add_lor_land (q * 2 ^ k) y) as H. rewrite Hland in H. lia.
Qed.

Lemma all_range (f : Z -> bool) (lo hi x : Z) :
  forallb f (range lo hi) = true -> lo <= x < hi -> f x = true.
Proof. intros H Hx. rewrite forallb_forall in H. apply H, in_range, Hx. Qed.

(** A continuation byte [0x80 | x] carries the six bits [x]. *)
Lemma cont_byte (x : Z) :
  0 <= x < 64 ->
  (Z.land (u8 (Z.lor 0x80 x)) 0xC0 =? 0x80) = true /\ Z.land (u8 (Z.lor 0x80 x)) 0x3F = x.
Proof.
  intros Hx.
  pose proof (all_range (fun x => (Z.land (u8 (Z.lor 0x80 x)) 0xC0 =? 0x80)
                                  && (Z.land (u8 (Z.lor 0x80 x)) 0x3F =? x))
                        0 64 x eq_refl Hx) as H.
  cbv beta in H. apply andb_true_iff in H. destruct H as (A & B).
  split; [exact A|apply Z.eqb_eq; exact B].
Qed.

Lemma lead2 (x : Z) :
  0 <= x < 32 ->
  let b := u8 (Z.lor 0xC0 x) in
  (b <? 0x80) = false /\ (Z.land b 0xE0 =? 0xC0) = true /\ Z.land b 0x1F = x.
Proof.
  intros Hx.
  pose proof (all_range (fun x => let b := u8 (Z.lor 0xC0 x) in
                                  negb (b <? 0x80) && (Z.land b 0xE0 =? 0xC0)
                                  && (Z.land b 0x1F =? x))
                        0 32 x eq_refl Hx) as H.
  cbv beta zeta in H. rewrite !andb_true_iff in H. destruct H as ((A & B) & D).
  cbv zeta. split; [apply negb_true_iff; exact A|]. split; [exact B|apply Z.eqb_eq; exact D].
Qed.

Lemma lead3 (x : Z) :
  0 <= x < 16 ->
  let b := u8 (Z.lor 0xE0 x) in
  (b <? 0x80) = false /\ (Z.land b 0xE0 =? 0xC0) = false /\
  (Z.land b 0xF0 =? 0xE0) = true /\ Z.land b 0x0F = x.
Proof.
  intros Hx.
  pose proof (all_range (fun x => let b := u8 (Z.lor 0xE0 x) in
                                  negb (b <? 0x80) && negb (Z.land b 0xE0 =? 0xC0)
                                  && (Z.land b 0xF0 =? 0xE0) && (Z.land b 0x0F =? x))
                        0 16 x eq_refl Hx) as H.
  cbv beta zeta in H. rewrite !andb_true_iff in H. destruct H as (((A & B) & D) & E).
  cbv zeta. split; [apply negb_true_iff; exact A|]. split; [apply negb_true_iff; exact B|].
  split; [exact D|apply Z.eqb_eq; exact E].
Qed.

Lemma lead4 (x : Z) :
  0 <= x < 8 ->
  let b := u8 (Z.lor 0xF0 x) in
  (b <? 0x80) = false /\ (Z.land b 0xE0 =? 0xC0) = false /\
  (Z.land b 0xF0 =? 0xE0) = false /\ (Z.land b 0xF8 =? 0xF0) = true /\ Z.land b 0x07 = x.
Proof.
  intros Hx.
  pose proof (all_range (fun x => let b := u8 (Z.lor 0xF0 x) in
                                  negb (b <? 0x80) && negb (Z.land b 0xE0 =? 0xC0)
                                  && negb (Z.land b 0xF0 =? 0xE0)
                                  && (Z.land b 0xF8 =? 0xF0) && (Z.land b 0x07 =? x))
                        0 8 x eq_refl Hx) as H.
  cbv beta zeta in H. rewrite !andb_true_iff in H. destruct H as ((((A & B) & D) & E) & F).
  cbv zeta. split; [apply negb_true_iff; exact A|]. split; [apply negb_true_iff; exact B|].
  split; [apply negb_true_iff; exact D|]. split; [exact E|apply Z.eqb_eq; exact F].
Qed.

(** The six-bit groups of a code point. *)
Lemma land_63 (x : Z) : Z.land x 0x3F = x mod 64.
Proof. change 0x3F with (Z.ones 6). rewrite Z.land_ones by lia. reflexivity. Qed.

Lemma land_31 (x : Z) : Z.land x 0x1F = x mod 32.
Proof. change 0x1F with (Z.ones 5). rewrite Z.land_ones by lia. reflexivity. Qed.

Lemma land_15 (x : Z) : Z.land x 0x0F = x mod 16.
Proof. change 0x0F with (Z.ones 4). rewrite Z.land_ones by lia. reflexivity. Qed.

Lemma land_7 (x : Z) : Z.land x 0x07 = x mod 8.
Proof. change 0x07 with (Z.ones 3). rewrite Z.land_ones by lia. reflexivity. Qed.

Lemma shiftr_6 (x : Z) : Z.shiftr x 6 = x / 64.
Proof. rewrite Z.shiftr_div_pow2 by lia. reflexivity. Qed.

Lemma shiftr_12 (x : Z) : Z.shiftr x 12 = x / 4096.
Proof. rewrite Z.shiftr_div_pow2 by lia. reflexivity. Qed.

Lemma shiftr_18 (x : Z) : Z.shiftr x 18 = x / 262144.
Proof. rewrite Z.shiftr_div_pow2 by lia. reflexivity. Qed.

Lemma zget_at (pre rest : list Z) (bs : list Z) (i : Z) :
  0 <= i < zlen bs -> zget (pre ++ bs ++ rest) (zlen pre + i) = zget bs i.
Proof.
  intros Hi. rewrite zget_app_r by lia. apply zget_app_l. lia.
Qed.

Lemma zget_at0 (pre rest : list Z) (bs : list Z) :
  0 < zlen bs -> zget (pre ++ bs ++ rest) (zlen pre) = zget bs 0.
Proof.
  intros Hi. rewrite zget_app_r0. apply zget_app_l. lia.
Qed.

Lemma dec1 (pre rest : list Z) (b0 : Z) :
  (b0 <? 0x80) = true ->
  utf8_decode_cp (pre ++ [b0] ++ rest) (zlen pre) = Some (b0, 1).
Proof.
  intros H0. unfold utf8_decode_cp. rewrite !zlen_app.
  pose proof (zlen_nonneg rest). change (zlen [b0]) with 1.
  destruct (Z.leb_spec (zlen pre + (1 + zlen rest)) (zlen pre)); [lia|].
  rewrite !(zget_at0 pre rest [b0]) by (change (zlen [b0]) with 1; lia).
  change (zget [b0] 0) with b0. rewrite H0. reflexivity.
Qed.

Lemma dec2 (pre rest : list Z) (b0 b1 : Z) :
  (b0 <? 0x80) = false -> (Z.land b0 0xE0 =? 0xC0) = true ->
  (Z.land b1 0xC0 =? 0x80) = true ->
  utf8_decode_cp (pre ++ [b0; b1] ++ rest) (zlen pre)
  = Some (Z.lor (Z.shiftl (Z.land b0 0x1F) 6) (Z.land b1 0x3F), 2).
Proof.
  intros H0 H1 H2. unfold utf8_decode_cp. rewrite !zlen_app.
  pose proof (zlen_nonneg rest). change (zlen [b0; b1]) with 2.
  destruct (Z.leb_spec (zlen pre + (2 + zlen rest)) (zlen pre)); [lia|].
  rewrite !(zget_at0 pre rest [b0; b1]) by (change (zlen [b0; b1]) with 2; lia).
  rewrite !(zget_at pre rest [b0; b1]) by (change (zlen [b0; b1]) with 2; lia).
  change (zget [b0; b1] 0) with b0. change (zget [b0; b1] 1) with b1.
  rewrite H0, H1, H2.
  destruct (Z.ltb_spec (zlen pre + (2 + zlen rest)) (zlen pre + 2)); [lia|]. reflexivity.
Qed.

Lemma dec3 (pre rest : list Z) (b0 b1 b2 : Z) :
  (b0 <? 0x80) = false -> (Z.land b0 0xE0 =? 0xC0) = false ->
  (Z.land b0 0xF0 =? 0xE0) = true ->
  (Z.land b1 0xC0 =? 0x80) = true -> (Z.land b2 0xC0 =? 0x80) = true ->
  utf8_decode_cp (pre ++ [b0; b1; b2] ++ rest) (zlen pre)
  = Some (Z.lor (Z.lor (Z.shiftl (Z.land b0 0x0F) 12) (Z.shiftl (Z.land b1 0x3F) 6))
                (Z.land b2 0x3F), 3).
Proof.
  intros H0 H1 H2 H3 H4. unfold utf8_decode_cp. rewrite !zlen_app.
  pose proof (zlen_nonneg rest). change (zlen [b0; b1; b2]) with 3.
  destruct (Z.leb_spec (zlen pre + (3 + zlen rest)) (zlen pre)); [lia|].
  rewrite !(zget_at0 pre rest [b0; b1; b2]) by (change (zlen [b0; b1; b2]) with 3; lia).
  rewrite !(zget_at pre rest [b0; b1; b2]) by (change (zlen [b0; b1; b2]) with 3; lia).
  change (zget [b0; b1; b2] 0) with b0. change (zget [b0; b1; b2] 1) with b1.
  change (zget [b0; b1; b2] 2) with b2.
  rewrite H0, H1, H2, H3, H4.
  destruct (Z.ltb_spec (zlen pre + (3 + zlen rest)) (zlen pre + 3)); [lia|]. reflexivity.
Qed.

Lemma dec4 (pre rest : list Z) (b0 b1 b2 b3 : Z) :
  (b0 <? 0x80) = false -> (Z.land b0 0xE0 =? 0xC0) = false ->
  (Z.land b0 0xF0 =? 0xE0) = false -> (Z.land b0 0xF8 =? 0xF0) = true ->
  (Z.land b1 0xC0 =? 0x80) = true -> (Z.land b2 0xC0 =? 0x80) = true ->
  (Z.land b3 0xC0 =? 0x80) = true ->
  utf8_decode_cp (pre ++ [b0; b1; b2; b3] ++ rest) (zlen pre)
  = Some (Z.lor (Z.lor (Z.lor (Z.shiftl (Z.land b0 0x07) 18)
                              (Z.shiftl (Z.land b1 0x3F) 12))
                       (Z.shiftl (Z.land b2 0x3F) 6))
                (Z.land b3 0x3F), 4).
Proof.
  intros H0 H1 H2 H3 H4 H5 H6. unfold utf8_decode_cp. rewrite !zlen_app.
  pose proof (zlen_nonneg rest). change (zlen [b0; b1; b2; b3]) with 4.
  destruct (Z.leb_spec (zlen pre + (4 + zlen rest)) (zlen pre)); [lia|].
  rewrite !(zget_at0 pre rest [b0; b1; b2; b3]) by (change (zlen [b0; b1; b2; b3]) with 4; lia).
  rewrite !(zget_at pre rest [b0; b1; b2; b3]) by (change (zlen [b0; b1; b2; b3]) with 4; lia).
  change (zget [b0; b1; b2; b3] 0) with b0. change (zget [b0; b1; b2; b3] 1) with b1.
  change (zget [b0; b1; b2; b3] 2) with b2. change (zget [b0; b1; b2; b3] 3) with b3.
  rewrite H0, H1, H2, H3, H4, H5, H6.
  destruct (Z.ltb_spec (zlen pre + (4 + zlen rest)) (zlen pre + 4)); [lia|]. reflexivity.
Qed.

Ltac zdm := Z.div_mod_to_equations; lia.

(** Decoding at the start of an encoded code point gives it back. *)
Lemma decode_at (cp : Z) (pre rest : list Z) :
  0 <= cp <= 0x10FFFF ->
  utf8_decode_cp (pre ++ utf8_encode_cp cp ++ rest) (zlen pre)
  = Some (cp, zlen (utf8_encode_cp cp)).
Proof.
  intros Hcp. unfold utf8_encode_cp.
  destruct (Z.leb_spec cp 0x7F) as [H1|H1].
  { rewrite u8_small by lia. rewrite dec1; [reflexivity|]. apply Z.ltb_lt. lia. }
  destruct (Z.leb_spec cp 0x7FF) as [H2|H2].
  { rewrite shiftr_6, land_31, land_63.
    destruct (lead2 ((cp / 64) mod 32)) as (A & B & D); [zdm|].
    destruct (cont_byte (cp mod 64)) as (E & F); [zdm|].
    rewrite dec2 by assumption. rewrite D, F. f_equal. f_equal.
    rewrite Z.shiftl_mul_pow2 by lia. rewrite lor_mul_add by (change (2 ^ 6) with 64; zdm).
    change (2 ^ 6) with 64. zdm. }
  destruct (Z.leb_spec cp 0xFFFF) as [H3|H3].
  { rewrite shiftr_6, shiftr_12, land_15, !land_63.
    destruct (lead3 ((cp / 4096) mod 16)) as (A & B & D & D'); [zdm|].
    destruct (cont_byte ((cp / 64) mod 64)) as (E & F); [zdm|].
    destruct (cont_byte (cp mod 64)) as (G & H); [zdm|].
    rewrite dec3 by assumption. rewrite D', F, H. f_equal. f_equal.
    rewrite !Z.shiftl_mul_pow2 by lia.
    set (a := (cp / 4096) mod 16). set (c := (cp / 64) mod 64). set (d := cp mod 64).
    assert (Ha : 0 <= a < 16) by (unfold a; zdm). assert (Hc : 0 <= c < 64) by (unfold c; zdm).
    assert (Hd : 0 <= d < 64) by (unfold d; zdm).
    change (2 ^ 6) with 64.
    rewrite (lor_mul_add a (c * 64) 12) by (change (2 ^ 12) with 4096; lia).
    replace (a * 2 ^ 12 + c * 64) with ((a * 64 + c) * 2 ^ 6)
      by (change (2 ^ 12) with 4096; change (2 ^ 6) with 64; lia).
    rewrite lor_mul_add by (change (2 ^ 6) with 64; lia).
    change (2 ^ 6) with 64. unfold a, c, d. zdm. }
  rewrite shiftr_6, shiftr_12, shiftr_18, land_7, !land_63.
  destruct (lead4 ((cp / 262144) mod 8)) as (A & B & D & D' & D''); [zdm|].
  destruct (cont_byte ((cp / 4096) mod 64)) as (E & F); [zdm|].
  destruct (cont_byte ((cp / 64) mod 64)) as (G & H); [zdm|].
  destruct (cont_byte (cp mod 64)) as (I & J); [zdm|].
  rewrite dec4 by assumption. rewrite D'', F, H, J. f_equal. f_equal.
  rewrite !Z.shiftl_mul_pow2 by lia.
  set (a := (cp / 262144) mod 8). set (b := (cp / 4096) mod 64).
  set (c := (cp / 64) mod 64). set (d := cp mod 64).
  assert (Ha : 0 <= a < 8) by (unfold a; zdm). assert (Hb : 0 <= b < 64) by (unfold b; zdm).
  assert (Hc : 0 <= c < 64) by (unfold c; zdm). assert (Hd : 0 <= d < 64) by (unfold d; zdm).
  change (2 ^ 12) with 4096. change (2 ^ 6) with 64.
  rewrite (lor_mul_add a (b * 4096) 18) by (change (2 ^ 18) with 262144; lia).
  replace (a * 2 ^ 18 + b * 4096) with ((a * 64 + b) * 2 ^ 12)
    by (change (2 ^ 18) with 262144; change (2 ^ 12) with 4096; lia).
  rewrite (lor_mul_add (a * 64 + b) (c * 64) 12) by (change (2 ^ 12) with 4096; lia).
  replace ((a * 64 + b) * 2 ^ 12 + c * 64) with (((a * 64 + b) * 64 + c) * 2 ^ 6)
    by (change (2 ^ 12) with 4096; change (2 ^ 6) with 64; lia).
  rewrite lor_mul_add by (change (2 ^ 6) with 64; lia).
  change (2 ^ 6) with 64. unfold a, b, c, d. zdm.
Qed.

(** ** The output buffer *)

Definition zfirstn (n : Z) (l : list Z) : list Z := firstn (Z.to_nat n) l.

Lemma firstn_upd_nat_snoc (l : list Z) (n : nat) (v : Z) :
  (n < length l)%nat -> firstn (S n) (upd_nat l n v) = firstn n l ++ [v].
Proof.
  revert n. induction l as [|h t IH]; intros n Hn; simpl in Hn; [lia|].
  destruct n as [|n]; [reflexivity|].
  change (firstn (S (S n)) (upd_nat (h :: t) (S n) v))
    with (h :: firstn (S n) (upd_nat t n v)).
  rewrite IH by lia. reflexivity.
Qed.

Lemma firstn_upd_nat_keep (l : list Z) (n k : nat) (v : Z) :
  (k <= n)%nat -> firstn k (upd_nat l n v) = firstn k l.
Proof.
  revert n k. induction l as [|h t IH]; intros n k Hk; [reflexivity|].
  destruct k as [|k]; [reflexivity|]. destruct n as [|n]; [lia|].
  simpl. rewrite IH by lia. reflexivity.
Qed.

Lemma zfirstn_zset_snoc (d : list Z) (off b : Z) :
  0 <= off < zlen d -> zfirstn (off + 1) (zset d off b) = zfirstn off d ++ [b].
Proof.
  intros H. unfold zfirstn, zset, zlen in *.
  destruct (Z.ltb_spec off 0); [lia|].
  replace (Z.to_nat (off + 1)) with (S (Z.to_nat off)) by lia.
  apply firstn_upd_nat_snoc. lia.
Qed.

Lemma zfirstn_zset_keep (d : list Z) (off n b : Z) :
  n <= off -> zfirstn n (zset d off b) = zfirstn n d.
Proof.
  intros H. unfold zfirstn, zset.
  destruct (Z.ltb_spec off 0); [reflexivity|].
  apply firstn_upd_nat_keep. lia.
Qed.

Lemma memcpy_spec (bytes : list Z) : forall d off,
  0 <= off -> off + zlen bytes <= zlen d ->
  zlen (memcpy d off bytes) = zlen d /\
  zfirstn (off + zlen bytes) (memcpy d off bytes) = zfirstn off d ++ bytes.
Proof.
  induction bytes as [|b rest IH]; intros d off Hoff Hfit.
  - simpl. change (zlen []) with 0. rewrite Z.add_0_r, app_nil_r. auto.
  - cbn [memcpy]. unfold zlen in Hfit. simpl length in Hfit.
    destruct (IH (zset d off b) (off + 1)) as (A & B); [lia|rewrite zlen_zset; unfold zlen; lia|].
    rewrite zlen_zset in A. split; [exact A|].
    replace (off + zlen (b :: rest)) with (off + 1 + zlen rest)
      by (unfold zlen; simpl length; lia).
    rewrite B, zfirstn_zset_snoc by (unfold zlen; lia).
    rewrite <- app_assoc. reflexivity.
Qed.

Lemma slice_at (pre bs rest : list Z) :
  slice (pre ++ bs ++ rest) (zlen pre) (zlen bs) = bs.
Proof.
  unfold slice, zlen. rewrite !Nat2Z.id.
  rewrite skipn_app, Nat.sub_diag, skipn_all. simpl.
  rewrite firstn_app, Nat.sub_diag, firstn_all. simpl. apply app_nil_r.
Qed.

(** ** Valid UTF-8 *)

(** A Unicode scalar value: a code point that is not a surrogate. *)
Definition is_scalar (cp : Z) : bool :=
  (0 <=? cp) && (cp <=? 0x10FFFF) && negb ((0xD800 <=? cp) && (cp <=? 0xDFFF)).

(** A byte string is valid UTF-8 when it is the concatenation of the
    encodings of scalar values. *)
Definition valid_utf8 (x : list Z) : Prop :=
  exists cps, forallb is_scalar cps = true /\ x = flat_map utf8_encode_cp cps.

Lemma is_scalar_range cp : is_scalar cp = true -> 0 <= cp <= 0x10FFFF.
Proof.
  unfold is_scalar. rewrite !andb_true_iff, Z.leb_le, Z.leb_le. tauto.
Qed.

Lemma encode_nonempty cp : 1 <= zlen (utf8_encode_cp cp) <= 4.
Proof.
  unfold utf8_encode_cp.
  destruct (cp <=? 0x7F); [cbv; split; discriminate|].
  destruct (cp <=? 0x7FF); [cbv; split; discriminate|].
  destruct (cp <=? 0xFFFF); cbv; split; discriminate.
Qed.

(** What the encoder emits for one code point, newlines included. *)
Definition piece (cp : Z) : list Z :=
  if cp =? 32 then utf8_encode_cp MMJP_LOSSLESS_SPACE
  else if cp =? 9 then utf8_encode_cp MMJP_LOSSLESS_TAB
  else if cp =? 10 then utf8_encode_cp MMJP_LOSSLESS_LF
  else if cp =? 13 then utf8_encode_cp MMJP_LOSSLESS_CR
  else if is_meta_char cp then utf8_encode_cp MMJP_LOSSLESS_ESCAPE ++ utf8_encode_cp cp
  else utf8_encode_cp cp.

Lemma put_fits (d : list Z) (cap out_len : Z) (bytes : list Z) (total : Z) :
  0 <= out_len -> out_len + zlen bytes <= total -> total <= cap -> cap <= zlen d ->
  exists d1, put (Some d) cap out_len bytes = Some d1 /\ zlen d1 = zlen d /\
             zfirstn (out_len + zlen bytes) d1 = zfirstn out_len d ++ bytes.
Proof.
  intros H0 H1 H2 H3. unfold put.
  destruct (Z.leb_spec (out_len + zlen bytes) cap); [|lia].
  exists (memcpy d out_len bytes). split; [reflexivity|].
  apply memcpy_spec; lia.
Qed.

Lemma put_some (d : list Z) (cap out_len : Z) (bytes : list Z) :
  exists d1, put (Some d) cap out_len bytes = Some d1.
Proof.
  unfold put. destruct (_ <=? _); eexists; reflexivity.
Qed.

(** ** The encoder on valid UTF-8 *)

Lemma encode_loop_spec (cps : list Z) : forall fuel pre out_len d cap,
  forallb is_scalar cps = true -> (length cps <= fuel)%nat ->
  exists d',
    encode_loop fuel (pre ++ flat_map utf8_encode_cp cps) cap true (zlen pre) out_len (Some d)
    = (out_len + zlen (flat_map piece cps), Some d') /\
    (0 <= out_len -> out_len + zlen (flat_map piece cps) <= cap -> cap <= zlen d ->
     zlen d' = zlen d /\
     zfirstn (out_len + zlen (flat_map piece cps)) d' = zfirstn out_len d ++ flat_map piece cps).
Proof.
  induction cps as [|cp cps IH]; intros fuel pre out_len d cap Hsc Hfuel.
  - exists d. cbn [flat_map]. rewrite app_nil_r. change (zlen []) with 0. rewrite Z.add_0_r.
    split.
    + destruct fuel; cbn [encode_loop]; rewrite Z.ltb_irrefl; reflexivity.
    + intros. rewrite app_nil_r. auto.
  - cbn [forallb] in Hsc. apply andb_true_iff in Hsc. destruct Hsc as (Hcp & Hsc).
    apply is_scalar_range in Hcp.
    destruct fuel as [|f]; [simpl in Hfuel; lia|]. simpl in Hfuel.
    cbn [flat_map]. set (rest := flat_map utf8_encode_cp cps).
    set (E' := flat_map piece cps).
    pose proof (encode_nonempty cp) as Hne. pose proof (zlen_nonneg rest) as Hr.
    pose proof (zlen_nonneg E') as HE'.
    cbn [encode_loop]. rewrite !zlen_app.
    destruct (Z.ltb_spec (zlen pre) (zlen pre + (zlen (utf8_encode_cp cp) + zlen rest))); [|lia].
    rewrite decode_at by assumption.
    assert (Hemit : forall bytes,
      exists d',
        encode_loop f (pre ++ utf8_encode_cp cp ++ rest) cap true
                    (zlen pre + zlen (utf8_encode_cp cp)) (out_len + zlen bytes)
                    (put (Some d) cap out_len bytes)
        = (out_len + (zlen bytes + zlen E'), Some d') /\
        (0 <= out_len -> out_len + (zlen bytes + zlen E') <= cap -> cap <= zlen d ->
         zlen d' = zlen d /\
         zfirstn (out_len + (zlen bytes + zlen E')) d' = zfirstn out_len d ++ bytes ++ E')).
    { intros bytes. pose proof (zlen_nonneg bytes) as Hb.
      destruct (put_some d cap out_len bytes) as (d1 & Hd1). rewrite Hd1.
      destruct (IH f (pre ++ utf8_encode_cp cp) (out_len + zlen bytes) d1 cap Hsc ltac:(lia))
        as (d' & Hrun & Hprop).
      rewrite <- app_assoc, zlen_app in Hrun. fold rest E' in Hrun, Hprop.
      exists d'. rewrite Z.add_assoc. split; [exact Hrun|].
      intros H0 Hfit Hcap.
      destruct (put_fits d cap out_len bytes (out_len + zlen bytes + zlen E') H0
                         ltac:(lia) ltac:(lia) Hcap) as (d1' & Hd1' & Hl1 & Hf1).
      rewrite Hd1 in Hd1'. injection Hd1' as <-.
      destruct (Hprop ltac:(lia) ltac:(lia) ltac:(lia)) as (Hl & Hf).
      split; [lia|]. rewrite Hf, Hf1, <- app_assoc. reflexivity. }
    unfold piece. cbn [andb].
    destruct (cp =? 32); [apply Hemit|].
    destruct (cp =? 9); [apply Hemit|].
    destruct (cp =? 10); [apply Hemit|].
    destruct (cp =? 13); [apply Hemit|].
    destruct (is_meta_char cp); [apply Hemit|].
    rewrite slice_at. apply Hemit.
Qed.

(** ** The decoder on what the encoder wrote *)

Lemma decode_loop_spec (cps : list Z) : forall fuel pre out_len d cap,
  forallb is_scalar cps = true -> (length cps <= fuel)%nat ->
  exists d',
    decode_loop fuel (pre ++ flat_map piece cps) cap (zlen pre) out_len (Some d)
    = (out_len + zlen (flat_map utf8_encode_cp cps), Some d') /\
    (0 <= out_len -> out_len + zlen (flat_map utf8_encode_cp cps) <= cap -> cap <= zlen d ->
     zlen d' = zlen d /\
     zfirstn (out_len + zlen (flat_map utf8_encode_cp cps)) d'
     = zfirstn out_len d ++ flat_map utf8_encode_cp cps).
Proof.
  induction cps as [|cp cps IH]; intros fuel pre out_len d cap Hsc Hfuel.
  - exists d. cbn [flat_map]. rewrite app_nil_r. change (zlen []) with 0. rewrite Z.add_0_r.
    split.
    + destruct fuel; cbn [decode_loop]; rewrite Z.ltb_irrefl; reflexivity.
    + intros. rewrite app_nil_r. auto.
  - cbn [forallb] in Hsc. apply andb_true_iff in Hsc. destruct Hsc as (Hcp & Hsc).
    apply is_scalar_range in Hcp.
    destruct fuel as [|f]; [simpl in Hfuel; lia|]. simpl in Hfuel.
    cbn [flat_map]. set (rest := flat_map piece cps).
    set (X' := flat_map utf8_encode_cp cps).
    pose proof (zlen_nonneg rest) as Hr. pose proof (zlen_nonneg X') as HX'.
    rewrite (zlen_app (utf8_encode_cp cp) X').
    assert (Hemit : forall p,
      p = zlen pre + zlen (piece cp) ->
      exists d',
        decode_loop f (pre ++ piece cp ++ rest) cap p (out_len + zlen (utf8_encode_cp cp))
                    (put (Some d) cap out_len (utf8_encode_cp cp))
        = (out_len + (zlen (utf8_encode_cp cp) + zlen X'), Some d') /\
        (0 <= out_len -> out_len + (zlen (utf8_encode_cp cp) + zlen X') <= cap ->
         cap <= zlen d ->
         zlen d' = zlen d /\
         zfirstn (out_len + (zlen (utf8_encode_cp cp) + zlen X')) d'
         = zfirstn out_len d ++ utf8_encode_cp cp ++ X')).
    { intros p ->. set (bytes := utf8_encode_cp cp). pose proof (zlen_nonneg bytes) as Hb.
      destruct (put_some d cap out_len bytes) as (d1 & Hd1). rewrite Hd1.
      destruct (IH f (pre ++ piece cp) (out_len + zlen bytes) d1 cap Hsc ltac:(lia))
        as (d' & Hrun & Hprop).
      rewrite <- app_assoc, zlen_app in Hrun. fold rest X' in Hrun, Hprop.
      exists d'. rewrite Z.add_assoc. split; [exact Hrun|].
      intros H0 Hfit Hcap.
      destruct (put_fits d cap out_len bytes (out_len + zlen bytes + zlen X') H0
                         ltac:(lia) ltac:(lia) Hcap) as (d1' & Hd1' & Hl1 & Hf1).
      rewrite Hd1 in Hd1'. injection Hd1' as <-.
      destruct (Hprop ltac:(lia) ltac:(lia) ltac:(lia)) as (Hl & Hf).
      split; [lia|]. rewrite Hf, Hf1, <- app_assoc. reflexivity. }
    assert (Hmeta1 : forall c rest0,
      In c [MMJP_LOSSLESS_SPACE; MMJP_LOSSLESS_TAB; MMJP_LOSSLESS_LF; MMJP_LOSSLESS_CR;
            MMJP_LOSSLESS_ESCAPE] ->
      utf8_decode_cp (pre ++ utf8_encode_cp c ++ rest0) (zlen pre) = Some (c, 3) /\
      zlen (utf8_encode_cp c) = 3).
    { intros c rest0 Hc.
      assert (Hz : zlen (utf8_encode_cp c) = 3)
        by (simpl in Hc; destruct Hc as [<-|[<-|[<-|[<-|[<-|[]]]]]]; reflexivity).
      split; [|exact Hz]. rewrite <- Hz. apply decode_at.
      simpl in Hc; destruct Hc as [<-|[<-|[<-|[<-|[<-|[]]]]]]; cbv; split; discriminate. }
    unfold piece in Hemit |- *.
    destruct (Z.eqb_spec cp 32) as [->|N32].
    { destruct (Hmeta1 MMJP_LOSSLESS_SPACE rest ltac:(simpl; auto 10)) as (Hd & Hz).
      cbn [decode_loop]. rewrite !zlen_app, Hz, Hd.
      destruct (Z.ltb_spec (zlen pre) (zlen pre + (3 + zlen rest))); [|lia].
      rewrite Z.eqb_refl. change [32] with (utf8_encode_cp 32).
      apply Hemit. lia. }
    destruct (Z.eqb_spec cp 9) as [->|N9].
    { destruct (Hmeta1 MMJP_LOSSLESS_TAB rest ltac:(simpl; auto 10)) as (Hd & Hz).
      cbn [decode_loop]. rewrite !zlen_app, Hz, Hd.
      destruct (Z.ltb_spec (zlen pre) (zlen pre + (3 + zlen rest))); [|lia].
      change (MMJP_LOSSLESS_TAB =? MMJP_LOSSLESS_SPACE) with false. cbv iota.
      rewrite Z.eqb_refl. change [9] with (utf8_encode_cp 9).
      apply Hemit. lia. }
    destruct (Z.eqb_spec cp 10) as [->|N10].
    { destruct (Hmeta1 MMJP_LOSSLESS_LF rest ltac:(simpl; auto 10)) as (Hd & Hz).
      cbn [decode_loop]. rewrite !zlen_app, Hz, Hd.
      destruct (Z.ltb_spec (zlen pre) (zlen pre + (3 + zlen rest))); [|lia].
      change (MMJP_LOSSLESS_LF =? MMJP_LOSSLESS_SPACE) with false.
      change (MMJP_LOSSLESS_LF =? MMJP_LOSSLESS_TAB) with false. cbv iota.
      rewrite Z.eqb_refl. change [10] with (utf8_encode_cp 10).
      apply Hemit. lia. }
    destruct (Z.eqb_spec cp 13) as [->|N13].
    { destruct (Hmeta1 MMJP_LOSSLESS_CR rest ltac:(simpl; auto 10)) as (Hd & Hz).
      cbn [decode_loop]. rewrite !zlen_app, Hz, Hd.
      destruct (Z.ltb_spec (zlen pre) (zlen pre + (3 + zlen rest))); [|lia].
      change (MMJP_LOSSLESS_CR =? MMJP_LOSSLESS_SPACE) with false.
      change (MMJP_LOSSLESS_CR =? MMJP_LOSSLESS_TAB) with false.
      change (MMJP_LOSSLESS_CR =? MMJP_LOSSLESS_LF) with false. cbv iota.
      rewrite Z.eqb_refl. change [13] with (utf8_encode_cp 13).
      apply Hemit. lia. }
    pose proof (encode_nonempty cp) as Hne.
    destruct (is_meta_char cp) eqn:Hmc.
    { destruct (Hmeta1 MMJP_LOSSLESS_ESCAPE (utf8_encode_cp cp ++ rest) ltac:(simpl; auto 10))
        as (Hd & Hz).
      cbn [decode_loop]. rewrite <- !app_assoc in Hemit |- *. rewrite !zlen_app, Hz, Hd.
      destruct (Z.ltb_spec (zlen pre) (zlen pre + (3 + (zlen (utf8_encode_cp cp) + zlen rest))));
        [|lia].
      change (MMJP_LOSSLESS_ESCAPE =? MMJP_LOSSLESS_SPACE) with false.
      change (MMJP_LOSSLESS_ESCAPE =? MMJP_LOSSLESS_TAB) with false.
      change (MMJP_LOSSLESS_ESCAPE =? MMJP_LOSSLESS_LF) with false.
      change (MMJP_LOSSLESS_ESCAPE =? MMJP_LOSSLESS_CR) with false. cbv iota.
      rewrite Z.eqb_refl.
      destruct (Z.ltb_spec (zlen pre + 3)
                           (zlen pre + (3 + (zlen (utf8_encode_cp cp) + zlen rest)))); [|lia].
      pose proof (decode_at cp (pre ++ utf8_encode_cp MMJP_LOSSLESS_ESCAPE) rest Hcp) as Hd2.
      rewrite <- app_assoc, zlen_app, Hz in Hd2. rewrite Hd2.
      apply Hemit. rewrite zlen_app, Hz. lia. }
    { cbn [decode_loop]. rewrite !zlen_app, decode_at by assumption.
      destruct (Z.ltb_spec (zlen pre) (zlen pre + (zlen (utf8_encode_cp cp) + zlen rest)));
        [|lia].
      unfold is_meta_char in Hmc.
      destruct (Z.eqb_spec cp MMJP_LOSSLESS_SPACE) as [->|_]; [discriminate Hmc|].
      destruct (Z.eqb_spec cp MMJP_LOSSLESS_TAB) as [->|_]; [discriminate Hmc|].
      destruct (Z.eqb_spec cp MMJP_LOSSLESS_LF) as [->|_]; [discriminate Hmc|].
      destruct (Z.eqb_spec cp MMJP_LOSSLESS_CR) as [->|_]; [discriminate Hmc|].
      destruct (Z.eqb_spec cp MMJP_LOSSLESS_ESCAPE) as [->|_]; [discriminate Hmc|].
      rewrite slice_at. apply Hemit. reflexivity. }
Qed.

(** ** The round trip *)

(** The bytes a call left in [dst]: the first [return value] of them. *)
Definition out_bytes (r : Z * option (list Z)) : list Z :=
  match snd r with Some d => zfirstn (fst r) d | None => [] end.

Lemma piece_nonempty cp : 1 <= zlen (piece cp).
Proof.
  unfold piece.
  repeat match goal with |- context [if ?c then _ else _] => destruct c end;
    try (cbv; discriminate).
  - rewrite zlen_app. pose proof (encode_nonempty cp). pose proof (encode_nonempty MMJP_LOSSLESS_ESCAPE).
    lia.
  - apply encode_nonempty.
Qed.

Lemma flat_map_length_ge (f : Z -> list Z) (cps : list Z) :
  (forall cp, 1 <= zlen (f cp)) -> (length cps <= length (flat_map f cps))%nat.
Proof.
  intros Hf. induction cps as [|cp cps IH]; simpl; [lia|].
  rewrite length_app. specialize (Hf cp). unfold zlen in Hf. lia.
Qed.

Lemma put1_keep (d : list Z) (cap n : Z) :
  exists d', put1 (Some d) cap n 0 = Some d' /\ zfirstn n d' = zfirstn n d.
Proof.
  unfold put1. destruct (n <? cap).
  - eexists. split; [reflexivity|]. apply zfirstn_zset_keep. lia.
  - eexists. split; reflexivity.
Qed.

Lemma encode_valid (cps : list Z) (d : list Z) (cap : Z) :
  forallb is_scalar cps = true ->
  fst (mmjp_lossless_encode (flat_map utf8_encode_cp cps) (Some d) cap true)
  = zlen (flat_map piece cps) /\
  (zlen (flat_map piece cps) <= cap -> cap <= zlen d ->
   out_bytes (mmjp_lossless_encode (flat_map utf8_encode_cp cps) (Some d) cap true)
   = flat_map piece cps).
Proof.
  intros Hsc. unfold mmjp_lossless_encode.
  destruct (encode_loop_spec cps (length (flat_map utf8_encode_cp cps)) [] 0 d cap Hsc)
    as (d' & Hrun & Hprop).
  { apply flat_map_length_ge. intros cp. apply encode_nonempty. }
  cbn [app] in Hrun. change (zlen []) with 0 in Hrun. rewrite Hrun. cbn [fst].
  split; [lia|]. intros Hfit Hcap.
  destruct (Hprop ltac:(lia) ltac:(lia) Hcap) as (_ & Hf).
  destruct (put1_keep d' cap (0 + zlen (flat_map piece cps))) as (d'' & Hp & Hk).
  unfold out_bytes. cbn [fst snd]. rewrite Hp, Hk, Hf. reflexivity.
Qed.

Lemma decode_encoded (cps : list Z) (d : list Z) (cap : Z) :
  forallb is_scalar cps = true ->
  fst (mmjp_lossless_decode (flat_map piece cps) (Some d) cap)
  = zlen (flat_map utf8_encode_cp cps) /\
  (zlen (flat_map utf8_encode_cp cps) <= cap -> cap <= zlen d ->
   out_bytes (mmjp_lossless_decode (flat_map piece cps) (Some d) cap)
   = flat_map utf8_encode_cp cps).
Proof.
  intros Hsc. unfold mmjp_lossless_decode.
  destruct (decode_loop_spec cps (length (flat_map piece cps)) [] 0 d cap Hsc)
    as (d' & Hrun & Hprop).
  { apply flat_map_length_ge. intros cp. apply piece_nonempty. }
  cbn [app] in Hrun. change (zlen []) with 0 in Hrun. rewrite Hrun. cbn [fst].
  split; [lia|]. intros Hfit Hcap.
  destruct (Hprop ltac:(lia) ltac:(lia) Hcap) as (_ & Hf).
  destruct (put1_keep d' cap (0 + zlen (flat_map utf8_encode_cp cps))) as (d'' & Hp & Hk).
  unfold out_bytes. cbn [fst snd]. rewrite Hp, Hk, Hf. reflexivity.
Qed.

(** C8: for a valid UTF-8 byte string [x] and destination buffers that hold
    the results, decoding what [mmjp_lossless_encode] wrote for [x] with
    [include_newlines] set gives [x] back, byte for byte. *)
Theorem lossless_round_trip (x d1 d2 : list Z) (cap1 cap2 : Z) :
  valid_utf8 x ->
  cap1 <= zlen d1 -> cap2 <= zlen d2 ->
  fst (mmjp_lossless_encode x (Some d1) cap1 true) <= cap1 ->
  fst (mmjp_lossless_decode (out_bytes (mmjp_lossless_encode x (Some d1) cap1 true))
                            (Some d2) cap2) <= cap2 ->
  fst (mmjp_lossless_decode (out_bytes (mmjp_lossless_encode x (Some d1) cap1 true))
                            (Some d2) cap2) = zlen x /\
  out_bytes (mmjp_lossless_decode (out_bytes (mmjp_lossless_encode x (Some d1) cap1 true))
                                  (Some d2) cap2) = x.
Proof.
  intros (cps & Hsc & ->) Hc1 Hc2 Hfit1.
  destruct (encode_valid cps d1 cap1 Hsc) as (Hn1 & Hy).
  rewrite Hn1 in Hfit1. rewrite (Hy Hfit1 Hc1).
  destruct (decode_encoded cps d2 cap2 Hsc) as (Hn2 & Hx).
  rewrite Hn2. intros Hfit2. split; [reflexivity|]. apply Hx; assumption.
Qed.

(** The example: [a], a space, the escape character U+2581 itself, a line
    feed, a hiragana, a tab and an emoji. *)
Definition ex_text : list Z :=
  [97; 32; 0xE2; 0x96; 0x81; 10; 0xE3; 0x81; 0x82; 9; 0xF0; 0x9F; 0x98; 0x80].

Lemma lossless_round_trip_witness :
  out_bytes (mmjp_lossless_decode
               (out_bytes (mmjp_lossless_encode ex_text (Some (repeat 0 64)) 64 true))
               (Some (repeat 0 64)) 64) = ex_text.
Proof.
  apply (lossless_round_trip ex_text (repeat 0 64) (repeat 0 64) 64 64).
  - exists [97; 32; 0x2581; 10; 0x3042; 9; 0x1F600]. split; reflexivity.
  - vm_compute. discriminate.
  - vm_compute. discriminate.
  - vm_compute. discriminate.
  - vm_compute. discriminate.
Defined.

(** ** The buffer discipline of the coder *)

Ltac split_ifs :=
  repeat match goal with |- context [if ?c then _ else _] => destruct c end.

Lemma encode_loop_len (fuel : nat) (src : list Z) (b : bool) :
  forall pos out_len cap dst cap' dst',
  fst (encode_loop fuel src cap b pos out_len dst)
  = fst (encode_loop fuel src cap' b pos out_len dst').
Proof.
  induction fuel as [|f IH]; intros; cbn [encode_loop].
  - destruct (pos <? zlen src); reflexivity.
  - destruct (pos <? zlen src); [|reflexivity].
    destruct (utf8_decode_cp src pos) as [[cp adv]|]; [|apply IH].
    cbv zeta. split_ifs; apply IH.
Qed.

Lemma decode_loop_len (fuel : nat) (src : list Z) :
  forall pos out_len cap dst cap' dst',
  fst (decode_loop fuel src cap pos out_len dst)
  = fst (decode_loop fuel src cap' pos out_len dst').
Proof.
  induction fuel as [|f IH]; intros; cbn [decode_loop].
  - destruct (pos <? zlen src); reflexivity.
  - destruct (pos <? zlen src); [|reflexivity].
    destruct (utf8_decode_cp src pos) as [[cp adv]|]; [|apply IH].
    cbv zeta. split_ifs; try apply IH.
    destruct (utf8_decode_cp src (pos + adv)) as [[cp2 adv2]|]; apply IH.
Qed.

Lemma encode_fst (src : list Z) (dst : option (list Z)) (cap : Z) (b : bool) :
  fst (mmjp_lossless_encode src dst cap b)
  = fst (encode_loop (length src) src cap b 0 0 dst).
Proof.
  unfold mmjp_lossless_encode. destruct (encode_loop _ _ _ _ _ _ _). reflexivity.
Qed.

Lemma decode_fst (src : list Z) (dst : option (list Z)) (cap : Z) :
  fst (mmjp_lossless_decode src dst cap)
  = fst (decode_loop (length src) src cap 0 0 dst).
Proof.
  unfold mmjp_lossless_decode. destruct (decode_loop _ _ _ _ _ _). reflexivity.
Qed.

Lemma encode_snd (src : list Z) (dst : option (list Z)) (cap : Z) (b : bool) :
  snd (mmjp_lossless_encode src dst cap b)
  = put1 (snd (encode_loop (length src) src cap b 0 0 dst)) cap
         (fst (encode_loop (length src) src cap b 0 0 dst)) 0.
Proof.
  unfold mmjp_lossless_encode. destruct (encode_loop _ _ _ _ _ _ _). reflexivity.
Qed.

Lemma decode_snd (src : list Z) (dst : option (list Z)) (cap : Z) :
  snd (mmjp_lossless_decode src dst cap)
  = put1 (snd (decode_loop (length src) src cap 0 0 dst)) cap
         (fst (decode_loop (length src) src cap 0 0 dst)) 0.
Proof.
  unfold mmjp_lossless_decode. destruct (decode_loop _ _ _ _ _ _). reflexivity.
Qed.

(** The value returned by the coder is the length of the whole result,
    whatever buffer it was given: a call with a NULL buffer, or with one that
    is too small, returns what a call with room for everything returns. *)
Theorem lossless_length_ignores_buffer (src : list Z) (dst : option (list Z))
        (cap : Z) (include_newlines : bool) :
  fst (mmjp_lossless_encode src dst cap include_newlines)
  = fst (mmjp_lossless_encode src None 0 include_newlines) /\
  fst (mmjp_lossless_decode src dst cap) = fst (mmjp_lossless_decode src None 0).
Proof.
  rewrite !encode_fst, !decode_fst. split.
  - apply encode_loop_len.
  - apply decode_loop_len.
Qed.

(** *** Writes stay below the capacity *)

Lemma memcpy_length (bytes : list Z) : forall d off, zlen (memcpy d off bytes) = zlen d.
Proof.
  induction bytes as [|x bytes IH]; intros d off; cbn [memcpy]; [reflexivity|].
  rewrite IH. apply zlen_zset.
Qed.

Lemma memcpy_out (bytes : list Z) : forall d off i,
  i < off \/ off + zlen bytes <= i -> zget (memcpy d off bytes) i = zget d i.
Proof.
  induction bytes as [|x bytes IH]; intros d off i Hi; cbn [memcpy]; [reflexivity|].
  rewrite zlen_cons in Hi. pose proof (zlen_nonneg bytes).
  rewrite IH by lia. apply zget_zset_other. lia.
Qed.

(** What one guarded write keeps. *)
Definition kept (cap i : Z) (d d' : list Z) : Prop :=
  zlen d' = zlen d /\ (cap <= i -> zget d' i = zget d i).

Lemma kept_refl cap i d : kept cap i d d.
Proof. split; [reflexivity|intros _; reflexivity]. Qed.

Lemma kept_trans cap i d1 d2 d3 : kept cap i d1 d2 -> kept cap i d2 d3 -> kept cap i d1 d3.
Proof.
  intros (A & B) (C & D). split; [congruence|].
  intros H. rewrite D, B by exact H. reflexivity.
Qed.

Lemma put_kept (d : list Z) (cap out_len : Z) (bytes : list Z) (i : Z) :
  exists d', put (Some d) cap out_len bytes = Some d' /\ kept cap i d d'.
Proof.
  unfold put. destruct (Z.leb_spec (out_len + zlen bytes) cap).
  - eexists. split; [reflexivity|]. split; [apply memcpy_length|].
    intros Hi. apply memcpy_out. lia.
  - exists d. split; [reflexivity|apply kept_refl].
Qed.

Lemma put1_kept (d : list Z) (cap out_len v : Z) (i : Z) :
  exists d', put1 (Some d) cap out_len v = Some d' /\ kept cap i d d'.
Proof.
  unfold put1. destruct (Z.ltb_spec out_len cap).
  - eexists. split; [reflexivity|]. split; [apply zlen_zset|].
    intros Hi. apply zget_zset_other. lia.
  - exists d. split; [reflexivity|apply kept_refl].
Qed.

Ltac step_kept IH d cap i :=
  match goal with
  | |- context [put (Some d) cap ?o ?bs] =>
    let d1 := fresh "d1" in let E := fresh "E" in let K := fresh "K" in
    destruct (put_kept d cap o bs i) as (d1 & E & K); rewrite E;
    match goal with
    | |- exists d', snd (?loop _ _ _ _ ?p ?o' _) = _ /\ _ =>
      let d2 := fresh "d2" in let E2 := fresh "E2" in let K2 := fresh "K2" in
      destruct (IH p o' d1) as (d2 & E2 & K2); exists d2; split;
      [exact E2|exact (kept_trans _ _ _ _ _ K K2)]
    | |- exists d', snd (?loop _ _ _ ?p ?o' _) = _ /\ _ =>
      let d2 := fresh "d2" in let E2 := fresh "E2" in let K2 := fresh "K2" in
      destruct (IH p o' d1) as (d2 & E2 & K2); exists d2; split;
      [exact E2|exact (kept_trans _ _ _ _ _ K K2)]
    end
  | |- context [put1 (Some d) cap ?o ?v] =>
    let d1 := fresh "d1" in let E := fresh "E" in let K := fresh "K" in
    destruct (put1_kept d cap o v i) as (d1 & E & K); rewrite E;
    match goal with
    | |- exists d', snd (?loop _ _ _ _ ?p ?o' _) = _ /\ _ =>
      let d2 := fresh "d2" in let E2 := fresh "E2" in let K2 := fresh "K2" in
      destruct (IH p o' d1) as (d2 & E2 & K2); exists d2; split;
      [exact E2|exact (kept_trans _ _ _ _ _ K K2)]
    | |- exists d', snd (?loop _ _ _ ?p ?o' _) = _ /\ _ =>
      let d2 := fresh "d2" in let E2 := fresh "E2" in let K2 := fresh "K2" in
      destruct (IH p o' d1) as (d2 & E2 & K2); exists d2; split;
      [exact E2|exact (kept_trans _ _ _ _ _ K K2)]
    end
  end.

Lemma encode_loop_kept (fuel : nat) (src : list Z) (cap : Z) (b : bool) (i : Z) :
  forall pos out_len d,
  exists d', snd (encode_loop fuel src cap b pos out_len (Some d)) = Some d' /\
             kept cap i d d'.
Proof.
  induction fuel as [|f IH]; intros pos out_len d; cbn [encode_loop].
  - destruct (pos <? zlen src); exists d; (split; [reflexivity|apply kept_refl]).
  - destruct (pos <? zlen src); [|exists d; split; [reflexivity|apply kept_refl]].
    destruct (utf8_decode_cp src pos) as [[cp adv]|].
    + cbv zeta. split_ifs; step_kept IH d cap i.
    + step_kept IH d cap i.
Qed.

Lemma decode_loop_kept (fuel : nat) (src : list Z) (cap : Z) (i : Z) :
  forall pos out_len d,
  exists d', snd (decode_loop fuel src cap pos out_len (Some d)) = Some d' /\
             kept cap i d d'.
Proof.
  induction fuel as [|f IH]; intros pos out_len d; cbn [decode_loop].
  - destruct (pos <? zlen src); exists d; (split; [reflexivity|apply kept_refl]).
  - destruct (pos <? zlen src); [|exists d; split; [reflexivity|apply kept_refl]].
    destruct (utf8_decode_cp src pos) as [[cp adv]|].
    + cbv zeta. split_ifs; try step_kept IH d cap i.
      destruct (utf8_decode_cp src (pos + adv)) as [[cp2 adv2]|]; step_kept IH d cap i.
    + step_kept IH d cap i.
Qed.

Lemma encode_loop_mono (fuel : nat) (src : list Z) (cap : Z) (b : bool) :
  forall pos out_len dst, out_len <= fst (encode_loop fuel src cap b pos out_len dst).
Proof.
  induction fuel as [|f IH]; intros pos out_len dst; cbn [encode_loop].
  - destruct (pos <? zlen src); cbn [fst]; lia.
  - destruct (pos <? zlen src); [|cbn [fst]; lia].
    destruct (utf8_decode_cp src pos) as [[cp adv]|].
    + cbv zeta.
      split_ifs;
        match goal with
        | |- _ <= fst (encode_loop _ _ _ _ ?p (_ + zlen ?e) ?x) =>
          pose proof (IH p (out_len + zlen e) x); pose proof (zlen_nonneg e); lia
        end.
    + match goal with
      | |- _ <= fst (encode_loop _ _ _ _ ?p ?o ?x) => pose proof (IH p o x); lia
      end.
Qed.

Lemma decode_loop_mono (fuel : nat) (src : list Z) (cap : Z) :
  forall pos out_len dst, out_len <= fst (decode_loop fuel src cap pos out_len dst).
Proof.
  induction fuel as [|f IH]; intros pos out_len dst; cbn [decode_loop].
  - destruct (pos <? zlen src); cbn [fst]; lia.
  - destruct (pos <? zlen src); [|cbn [fst]; lia].
    destruct (utf8_decode_cp src pos) as [[cp adv]|].
    + cbv zeta.
      split_ifs; try destruct (utf8_decode_cp src (pos + adv)) as [[cp2 adv2]|];
        match goal with
        | |- _ <= fst (decode_loop _ _ _ ?p (_ + zlen ?e) ?x) =>
          pose proof (IH p (out_len + zlen e) x); pose proof (zlen_nonneg e); lia
        end.
    + match goal with
      | |- _ <= fst (decode_loop _ _ _ ?p ?o ?x) => pose proof (IH p o x); lia
      end.
Qed.

Lemma put1_final (d0 d : list Z) (cap n i : Z) :
  0 <= n -> kept cap i d0 d ->
  exists d', put1 (Some d) cap n 0 = Some d' /\
             zlen d' = zlen d0 /\
             (cap <= i -> zget d' i = zget d0 i) /\
             (n < cap -> cap <= zlen d0 -> zget d' n = 0).
Proof.
  intros Hn (K1 & K2). unfold put1. destruct (Z.ltb_spec n cap).
  - eexists. split; [reflexivity|]. rewrite zlen_zset. split; [exact K1|]. split.
    + intros Hi. rewrite zget_zset_other by lia. apply K2, Hi.
    + intros _ Hc. apply zget_zset_same. lia.
  - exists d. split; [reflexivity|]. split; [exact K1|]. split; [exact K2|]. lia.
Qed.

Lemma decode_keeps_length (src d : list Z) (cap : Z) :
  exists d', snd (mmjp_lossless_decode src (Some d) cap) = Some d' /\ zlen d' = zlen d.
Proof.
  rewrite decode_snd.
  destruct (decode_loop_kept (length src) src cap 0 0 0 d) as (d1 & E & K).
  rewrite E.
  pose proof (decode_loop_mono (length src) src cap 0 0 (Some d)) as M.
  destruct (put1_final d d1 cap _ 0 M K) as (d' & P & L & O & N).
  exists d'. split; [exact P|exact L].
Qed.

(** Neither [mmjp_lossless_encode] nor [mmjp_lossless_decode] writes at an
    index of [dst_cap] or more: every byte of [dst] from there on is after
    the call what it was before, whatever the source is and however long the
    result would be. *)
Theorem lossless_writes_below_capacity (src d : list Z) (cap : Z)
        (include_newlines : bool) (i : Z) :
  cap <= i ->
  (exists d', snd (mmjp_lossless_encode src (Some d) cap include_newlines) = Some d' /\
              zlen d' = zlen d /\ zget d' i = zget d i) /\
  (exists d', snd (mmjp_lossless_decode src (Some d) cap) = Some d' /\
              zlen d' = zlen d /\ zget d' i = zget d i).
Proof.
  intros Hi. split.
  - rewrite encode_snd.
    destruct (encode_loop_kept (length src) src cap include_newlines i 0 0 d) as (d1 & E & K).
    rewrite E.
    pose proof (encode_loop_mono (length src) src cap include_newlines 0 0 (Some d)) as M.
    destruct (put1_final d d1 cap _ i M K) as (d' & P & L & O & N).
    exists d'. split; [exact P|]. split; [exact L|apply O, Hi].
  - rewrite decode_snd.
    destruct (decode_loop_kept (length src) src cap i 0 0 d) as (d1 & E & K).
    rewrite E.
    pose proof (decode_loop_mono (length src) src cap 0 0 (Some d)) as M.
    destruct (put1_final d d1 cap _ i M K) as (d' & P & L & O & N).
    exists d'. split; [exact P|]. split; [exact L|apply O, Hi].
Qed.

(** [mmjp_lossless_encode] ends what it wrote by a NUL byte whenever the
    length it returns is below the capacity of the buffer. *)
Theorem encode_output_nul_terminated (src d : list Z) (cap : Z) (include_newlines : bool) :
  cap <= zlen d ->
  fst (mmjp_lossless_encode src (Some d) cap include_newlines) < cap ->
  exists d', snd (mmjp_lossless_encode src (Some d) cap include_newlines) = Some d' /\
             zget d' (fst (mmjp_lossless_encode src (Some d) cap include_newlines)) = 0.
Proof.
  rewrite encode_snd, encode_fst. intros Hc Hn.
  destruct (encode_loop_kept (length src) src cap include_newlines 0 0 0 d) as (d1 & E & K).
  rewrite E.
  pose proof (encode_loop_mono (length src) src cap include_newlines 0 0 (Some d)) as M.
  destruct (put1_final d d1 cap _ 0 M K) as (d' & P & L & O & N).
  exists d'. split; [exact P|apply N; assumption].
Qed.

(** [mmjp_lossless_decode] does the same. *)
Theorem decode_output_nul_terminated (src d : list Z) (cap : Z) :
  cap <= zlen d ->
  fst (mmjp_lossless_decode src (Some d) cap) < cap ->
  exists d', snd (mmjp_lossless_decode src (Some d) cap) = Some d' /\
             zget d' (fst (mmjp_lossless_decode src (Some d) cap)) = 0.
Proof.
  rewrite decode_snd, decode_fst. intros Hc Hn.
  destruct (decode_loop_kept (length src) src cap 0 0 0 d) as (d1 & E & K).
  rewrite E.
  pose proof (decode_loop_mono (length src) src cap 0 0 (Some d)) as M.
  destruct (put1_final d d1 cap _ 0 M K) as (d' & P & L & O & N).
  exists d'. split; [exact P|apply N; assumption].
Qed.

(** A buffer of eight bytes [7] used with a capacity of four: the text
    [ab c] needs six bytes, and the last four bytes of the buffer stay. *)
Definition ex_small_buffer : list Z := repeat 7 8.

Lemma lossless_writes_below_capacity_witness :
  (exists d', snd (mmjp_lossless_encode [97; 98; 32; 99] (Some ex_small_buffer) 4 true)
              = Some d' /\
              zlen d' = zlen ex_small_buffer /\ zget d' 5 = zget ex_small_buffer 5) /\
  (exists d', snd (mmjp_lossless_decode [97; 98; 32; 99] (Some ex_small_buffer) 4)
              = Some d' /\
              zlen d' = zlen ex_small_buffer /\ zget d' 5 = zget ex_small_buffer 5).
Proof.
  apply (lossless_writes_below_capacity [97; 98; 32; 99] ex_small_buffer 4 true 5). lia.
Defined.

Lemma encode_output_nul_terminated_witness :
  exists d', snd (mmjp_lossless_encode [97; 32] (Some ex_small_buffer) 8 true) = Some d' /\
             zget d' (fst (mmjp_lossless_encode [97; 32] (Some ex_small_buffer) 8 true)) = 0.
Proof.
  apply (encode_output_nul_terminated [97; 32] ex_small_buffer 8 true).
  - vm_compute. discriminate.
  - vm_compute. reflexivity.
Defined.

Lemma decode_output_nul_terminated_witness :
  exists d', snd (mmjp_lossless_decode [97; 0xE2; 0x96; 0x81] (Some ex_small_buffer) 8)
             = Some d' /\
             zget d' (fst (mmjp_lossless_decode [97; 0xE2; 0x96; 0x81]
                                                (Some ex_small_buffer) 8)) = 0.
Proof.
  apply (decode_output_nul_terminated [97; 0xE2; 0x96; 0x81] ex_small_buffer 8).
  - vm_compute. discriminate.
  - vm_compute. reflexivity.
Defined.

(** *** No white space in encoded text *)

(** The bytes that may not occur: space and tab, and with
    [include_newlines] also line feed and carriage return. *)
Definition no_space (include_newlines : bool) (y : Z) : Prop :=
  y <> 32 /\ y <> 9 /\ (include_newlines = true -> y <> 10 /\ y <> 13).

Lemma no_space_high b y : 0x80 <= y -> no_space b y.
Proof. intros H. unfold no_space. repeat split; lia. Qed.

Lemma no_space_cont b y : (Z.land y 0xC0 =? 0x80) = true -> no_space b y.
Proof.
  intros H. apply Z.eqb_eq in H.
  unfold no_space; repeat split; intros; intros ->; discriminate H.
Qed.

Lemma slice_forall (P : Z -> Prop) (src : list Z) (pos n : Z) :
  0 <= pos -> (forall k, 0 <= k < n -> P (zget src (pos + k))) -> Forall P (slice src pos n).
Proof.
  intros Hp H. unfold slice. apply Forall_nth. intros i d Hi.
  rewrite length_firstn, length_skipn in Hi.
  rewrite nth_firstn. destruct (Nat.ltb_spec i (Z.to_nat n)); [|lia].
  rewrite nth_skipn.
  specialize (H (Z.of_nat i) ltac:(lia)). unfold zget in H.
  destruct (Z.ltb_spec (pos + Z.of_nat i) 0); [lia|].
  replace (Z.to_nat (pos + Z.of_nat i)) with (Z.to_nat pos + i)%nat in H by lia.
  rewrite (nth_indep _ d 0); [exact H|]. lia.
Qed.

Lemma decode_adv (src : list Z) (pos cp adv : Z) :
  utf8_decode_cp src pos = Some (cp, adv) -> 1 <= adv <= 4.
Proof.
  unfold utf8_decode_cp. intros H.
  repeat match type of H with
         | (if ?c then _ else _) = _ => destruct c
         end; inversion H; lia.
Qed.

Lemma decode_none_high (src : list Z) (pos : Z) :
  pos < zlen src -> utf8_decode_cp src pos = None -> 0x80 <= zget src pos.
Proof.
  unfold utf8_decode_cp. intros Hp H.
  destruct (Z.leb_spec (zlen src) pos); [lia|].
  destruct (Z.ltb_spec (zget src pos) 0x80); [discriminate|lia].
Qed.

(** The bytes of a decoded code point that is no white space hold none. *)
Lemma decoded_slice_no_space (b : bool) (src : list Z) (pos cp adv : Z) :
  0 <= pos -> utf8_decode_cp src pos = Some (cp, adv) ->
  no_space b cp -> Forall (no_space b) (slice src pos adv).
Proof.
  intros Hp H Hcp. unfold utf8_decode_cp in H.
  destruct (zlen src <=? pos); [discriminate|].
  destruct (Z.ltb_spec (zget src pos) 0x80) as [L|L].
  { inversion H; subst. apply slice_forall; [lia|]. intros k Hk.
    replace (pos + k) with pos by lia. exact Hcp. }
  destruct (Z.land (zget src pos) 0xE0 =? 0xC0).
  { destruct (zlen src <? pos + 2); [discriminate|].
    destruct (Z.land (zget src (pos + 1)) 0xC0 =? 0x80) eqn:C1; cbn [negb] in H; [|discriminate].
    inversion H; subst. apply slice_forall; [lia|]. intros k Hk.
    assert (K : k = 0 \/ k = 1) by lia. destruct K as [-> | ->].
    - rewrite Z.add_0_r. apply no_space_high, L.
    - apply no_space_cont, C1. }
  destruct (Z.land (zget src pos) 0xF0 =? 0xE0).
  { destruct (zlen src <? pos + 3); [discriminate|].
    destruct (Z.land (zget src (pos + 1)) 0xC0 =? 0x80) eqn:C1; cbn [negb orb] in H; [|discriminate].
    destruct (Z.land (zget src (pos + 2)) 0xC0 =? 0x80) eqn:C2; cbn [negb orb] in H; [|discriminate].
    inversion H; subst. apply slice_forall; [lia|]. intros k Hk.
    assert (K : k = 0 \/ k = 1 \/ k = 2) by lia. destruct K as [-> | [-> | ->]].
    - rewrite Z.add_0_r. apply no_space_high, L.
    - apply no_space_cont, C1.
    - apply no_space_cont, C2. }
  destruct (Z.land (zget src pos) 0xF8 =? 0xF0); [|discriminate].
  destruct (zlen src <? pos + 4); [discriminate|].
  destruct (Z.land (zget src (pos + 1)) 0xC0 =? 0x80) eqn:C1; cbn [negb orb] in H; [|discriminate].
  destruct (Z.land (zget src (pos + 2)) 0xC0 =? 0x80) eqn:C2; cbn [negb orb] in H; [|discriminate].
  destruct (Z.land (zget src (pos + 3)) 0xC0 =? 0x80) eqn:C3; cbn [negb orb] in H; [|discriminate].
  inversion H; subst. apply slice_forall; [lia|]. intros k Hk.
  assert (K : k = 0 \/ k = 1 \/ k = 2 \/ k = 3) by lia. destruct K as [-> | [-> | [-> | ->]]].
  - rewrite Z.add_0_r. apply no_space_high, L.
  - apply no_space_cont, C1.
  - apply no_space_cont, C2.
  - apply no_space_cont, C3.
Qed.

(** The encodings of the five meta characters have no ASCII byte. *)
Lemma meta_bytes_no_space (b : bool) (cp : Z) :
  MMJP_LOSSLESS_ESCAPE <= cp <= MMJP_LOSSLESS_CR -> Forall (no_space b) (utf8_encode_cp cp).
Proof.
  intros H.
  pose proof (all_range (fun cp => forallb (fun y => 0x80 <=? y) (utf8_encode_cp cp))
                        MMJP_LOSSLESS_ESCAPE (MMJP_LOSSLESS_CR + 1) cp eq_refl) as A.
  cbv beta in A. specialize (A ltac:(lia)). rewrite forallb_forall in A.
  apply Forall_forall. intros y Hy. apply no_space_high. apply Z.leb_le, A, Hy.
Qed.

Lemma put1_put (dst : option (list Z)) (cap out_len v : Z) :
  put1 dst cap out_len v = put dst cap out_len [v].
Proof.
  unfold put1, put. destruct dst as [d|]; [|reflexivity].
  change (zlen [v]) with 1.
  destruct (Z.ltb_spec out_len cap), (Z.leb_spec (out_len + 1) cap); try lia; reflexivity.
Qed.

Lemma put_no_space (b : bool) (d : list Z) (cap out_len : Z) (enc : list Z) :
  0 <= out_len -> out_len + zlen enc <= cap -> cap <= zlen d ->
  Forall (no_space b) (zfirstn out_len d) -> Forall (no_space b) enc ->
  exists d1, put (Some d) cap out_len enc = Some d1 /\ zlen d1 = zlen d /\
             Forall (no_space b) (zfirstn (out_len + zlen enc) d1).
Proof.
  intros H0 H1 H2 F1 F2.
  destruct (put_fits d cap out_len enc cap H0 H1 ltac:(lia) H2) as (d1 & E & L & F).
  exists d1. split; [exact E|]. split; [exact L|].
  rewrite F. apply Forall_app. split; assumption.
Qed.

Lemma encode_loop_no_space (fuel : nat) (src : list Z) (cap : Z) (b : bool) :
  forall pos out_len d,
  0 <= pos -> 0 <= out_len -> cap <= zlen d ->
  Forall (no_space b) (zfirstn out_len d) ->
  fst (encode_loop fuel src cap b pos out_len (Some d)) <= cap ->
  exists d', snd (encode_loop fuel src cap b pos out_len (Some d)) = Some d' /\
             zlen d' = zlen d /\
             Forall (no_space b)
                    (zfirstn (fst (encode_loop fuel src cap b pos out_len (Some d))) d').
Proof.
  induction fuel as [|f IH]; intros pos out_len d Hp Ho Hc Hd; cbn [encode_loop].
  - destruct (pos <? zlen src); cbn [fst snd]; intros _; exists d; auto.
  - destruct (Z.ltb_spec pos (zlen src)) as [Hlt|Hge];
      [|cbn [fst snd]; intros _; exists d; auto].
    assert (STEP : forall p e, 0 <= p -> Forall (no_space b) e ->
      fst (encode_loop f src cap b p (out_len + zlen e) (put (Some d) cap out_len e)) <= cap ->
      exists d', snd (encode_loop f src cap b p (out_len + zlen e) (put (Some d) cap out_len e))
                 = Some d' /\ zlen d' = zlen d /\
                 Forall (no_space b)
                   (zfirstn (fst (encode_loop f src cap b p (out_len + zlen e)
                                              (put (Some d) cap out_len e))) d')).
    { intros p e Hp' He Hfit.
      pose proof (encode_loop_mono f src cap b p (out_len + zlen e)
                                   (put (Some d) cap out_len e)) as M.
      destruct (put_no_space b d cap out_len e Ho ltac:(lia) Hc Hd He) as (d1 & E & L & F).
      rewrite E in *. pose proof (zlen_nonneg e).
      destruct (IH p (out_len + zlen e) d1 Hp' ltac:(lia) ltac:(lia) F Hfit)
        as (d' & E' & L' & F').
      exists d'. split; [exact E'|]. split; [congruence|exact F']. }
    destruct (utf8_decode_cp src pos) as [[cp adv]|] eqn:D.
    + pose proof (decode_adv _ _ _ _ D) as Hadv. cbv zeta.
      destruct (Z.eqb_spec cp 32) as [E32|N32].
      { apply STEP; [lia|]. apply meta_bytes_no_space. cbv. split; discriminate. }
      destruct (Z.eqb_spec cp 9) as [E9|N9].
      { apply STEP; [lia|]. apply meta_bytes_no_space. cbv. split; discriminate. }
      destruct (b && (cp =? 10)) eqn:N10.
      { apply STEP; [lia|]. apply meta_bytes_no_space. cbv. split; discriminate. }
      destruct (b && (cp =? 13)) eqn:N13.
      { apply STEP; [lia|]. apply meta_bytes_no_space. cbv. split; discriminate. }
      destruct (is_meta_char cp) eqn:Hm.
      { apply STEP; [lia|]. apply Forall_app. split.
        - apply meta_bytes_no_space. cbv. split; discriminate.
        - apply meta_bytes_no_space. unfold is_meta_char in Hm.
          apply andb_true_iff in Hm. rewrite !Z.leb_le in Hm. exact Hm. }
      apply STEP; [lia|]. apply (decoded_slice_no_space b src pos cp adv Hp D).
      unfold no_space. split; [exact N32|]. split; [exact N9|].
      intros ->. cbn [andb] in N10, N13.
      apply Z.eqb_neq in N10. apply Z.eqb_neq in N13. split; assumption.
    + rewrite put1_put. change (out_len + 1) with (out_len + zlen [zget src pos]).
      apply STEP; [lia|]. constructor; [|constructor].
      apply no_space_high, decode_none_high; assumption.
Qed.

(** Whatever bytes the source holds, the text [mmjp_lossless_encode] writes
    into a buffer that takes it has no space and no tab, and with
    [include_newlines] no line feed and no carriage return either: it can be
    cut at white space without losing anything. *)
Theorem encoded_text_has_no_whitespace (src d : list Z) (cap : Z) (include_newlines : bool) :
  cap <= zlen d ->
  fst (mmjp_lossless_encode src (Some d) cap include_newlines) <= cap ->
  Forall (fun y => y <> 32 /\ y <> 9 /\ (include_newlines = true -> y <> 10 /\ y <> 13))
         (out_bytes (mmjp_lossless_encode src (Some d) cap include_newlines)).
Proof.
  intros Hc Hfit. rewrite encode_fst in Hfit.
  unfold out_bytes. rewrite encode_snd, encode_fst.
  destruct (encode_loop_no_space (length src) src cap include_newlines 0 0 d
              ltac:(lia) ltac:(lia) Hc ltac:(constructor) Hfit) as (d' & E & L & F).
  rewrite E.
  destruct (put1_keep d' cap (fst (encode_loop (length src) src cap include_newlines
                                               0 0 (Some d)))) as (d2 & P & K).
  rewrite P, K. exact F.
Qed.

Lemma encoded_text_has_no_whitespace_witness :
  Forall (fun y => y <> 32 /\ y <> 9 /\ (true = true -> y <> 10 /\ y <> 13))
         (out_bytes (mmjp_lossless_encode ex_text (Some (repeat 0 64)) 64 true)).
Proof.
  apply (encoded_text_has_no_whitespace ex_text (repeat 0 64) 64 true).
  - vm_compute. discriminate.
  - vm_compute. discriminate.
Defined.

(** ** Detokenizing *)

(** The encoding of [x] as two calls give it: one asks for the length, the
    other fills a buffer of that length. *)
Definition lossless_encoded (x : list Z) : list Z :=
  let n := fst (mmjp_lossless_encode x None 0 true) in
  out_bytes (mmjp_lossless_encode x (Some (repeat 0 (Z.to_nat n))) n true).

Lemma lossless_encoded_pieces (cps : list Z) :
  forallb is_scalar cps = true ->
  lossless_encoded (flat_map utf8_encode_cp cps) = flat_map piece cps.
Proof.
  intros Hsc. unfold lossless_encoded. cbv zeta.
  set (x := flat_map utf8_encode_cp cps).
  assert (N : fst (mmjp_lossless_encode x None 0 true) = zlen (flat_map piece cps)).
  { rewrite encode_fst.
    rewrite (encode_loop_len _ _ _ _ _ 0 None 0 (Some [])).
    rewrite <- encode_fst. apply (encode_valid cps [] 0 Hsc). }
  rewrite N.
  apply (encode_valid cps _ _ Hsc); [lia|].
  rewrite zlen_repeat. pose proof (zlen_nonneg (flat_map piece cps)). lia.
Qed.

Lemma decode_encoded_buffer (cps : list Z) (d : list Z) (cap : Z) :
  forallb is_scalar cps = true ->
  zlen (flat_map utf8_encode_cp cps) <= cap -> cap <= zlen d ->
  exists d', mmjp_lossless_decode (flat_map piece cps) (Some d) cap
             = (zlen (flat_map utf8_encode_cp cps), Some d') /\
             zlen d' = zlen d /\
             zfirstn (zlen (flat_map utf8_encode_cp cps)) d' = flat_map utf8_encode_cp cps.
Proof.
  intros Hsc Hfit Hcap. unfold mmjp_lossless_decode.
  destruct (decode_loop_spec cps (length (flat_map piece cps)) [] 0 d cap Hsc)
    as (d' & Hrun & Hprop).
  { apply flat_map_length_ge. intros cp. apply piece_nonempty. }
  cbn [app] in Hrun. change (zlen []) with 0 in Hrun. rewrite Hrun.
  destruct (Hprop ltac:(lia) ltac:(lia) Hcap) as (L & Hf).
  rewrite Z.add_0_l in *.
  destruct (put1_kept d' cap (zlen (flat_map utf8_encode_cp cps)) 0 0) as (d2 & P & K1 & _).
  destruct (put1_keep d' cap (zlen (flat_map utf8_encode_cp cps))) as (d3 & P3 & K3).
  rewrite P in P3. inversion P3; subst d3.
  rewrite P. exists d2. split; [reflexivity|]. split; [congruence|].
  rewrite K3. exact Hf.
Qed.

Lemma zfirstn_app_exact (a s : list Z) (n L : Z) :
  zlen a = n -> 0 <= L -> zfirstn (n + L) (a ++ s) = a ++ zfirstn L s.
Proof.
  intros Ha HL. unfold zfirstn, zlen in *.
  rewrite firstn_app. rewrite firstn_all2 by lia.
  f_equal. f_equal. lia.
Qed.

Lemma detokenize_step_spec (cps : list Z) (d : list Z) (cap out_len : Z) :
  forallb is_scalar cps = true ->
  0 <= out_len -> out_len + zlen (flat_map utf8_encode_cp cps) <= cap ->
  cap <= zlen d -> cap < 2 ^ 64 ->
  exists d', detokenize_step cap (out_len, Some d) (Some (flat_map piece cps))
             = (out_len + zlen (flat_map utf8_encode_cp cps), Some d') /\
             zlen d' = zlen d /\
             zfirstn (out_len + zlen (flat_map utf8_encode_cp cps)) d'
             = zfirstn out_len d ++ flat_map utf8_encode_cp cps.
Proof.
  intros Hsc Ho Hfit Hcap H64. unfold detokenize_step.
  destruct (Z.eqb_spec (zlen (flat_map piece cps)) 0) as [Z0|NZ].
  { assert (cps = []) as ->.
    { destruct cps as [|cp cps]; [reflexivity|]. exfalso.
      cbn [flat_map] in Z0. rewrite zlen_app in Z0.
      pose proof (piece_nonempty cp). pose proof (zlen_nonneg (flat_map piece cps)). lia. }
    exists d. cbn [flat_map]. change (zlen []) with 0. rewrite Z.add_0_r, app_nil_r.
    auto. }
  cbv zeta.
  pose proof (zlen_nonneg (flat_map utf8_encode_cp cps)) as HL.
  assert (W : wrap_u 64 (cap - out_len) = cap - out_len).
  { unfold wrap_u. apply Z.mod_small. lia. }
  rewrite W.
  destruct (decode_encoded_buffer cps (skipn (Z.to_nat out_len) d) (cap - out_len) Hsc)
    as (s & E & L & F); [lia| |].
  { unfold zlen in *. rewrite length_skipn. lia. }
  rewrite E. eexists. split; [reflexivity|].
  assert (A : zlen (firstn (Z.to_nat out_len) d) = out_len).
  { unfold zlen in *. rewrite length_firstn. lia. }
  split.
  - rewrite zlen_app, L, A. unfold zlen in *. rewrite length_skipn. lia.
  - rewrite (zfirstn_app_exact _ _ out_len _ A HL), F. reflexivity.
Qed.

Lemma detokenize_fold (cpss : list (list Z)) : forall (d : list Z) (cap out_len : Z),
  Forall (fun cps => forallb is_scalar cps = true) cpss ->
  0 <= out_len ->
  out_len + zlen (concat (map (flat_map utf8_encode_cp) cpss)) <= cap ->
  cap <= zlen d -> cap < 2 ^ 64 ->
  exists d', fold_left (detokenize_step cap)
                       (map (fun cps => Some (flat_map piece cps)) cpss) (out_len, Some d)
             = (out_len + zlen (concat (map (flat_map utf8_encode_cp) cpss)), Some d') /\
             zlen d' = zlen d /\
             zfirstn (out_len + zlen (concat (map (flat_map utf8_encode_cp) cpss))) d'
             = zfirstn out_len d ++ concat (map (flat_map utf8_encode_cp) cpss).
Proof.
  induction cpss as [|cps cpss IH]; intros d cap out_len Hsc Ho Hfit Hcap H64.
  - exists d. cbn. rewrite Z.add_0_r, app_nil_r. auto.
  - apply Forall_cons_iff in Hsc. destruct Hsc as (Hcps & Hrest).
    cbn [map concat fold_left] in *. rewrite zlen_app in *.
    pose proof (zlen_nonneg (flat_map utf8_encode_cp cps)).
    pose proof (zlen_nonneg (concat (map (flat_map utf8_encode_cp) cpss))).
    destruct (detokenize_step_spec cps d cap out_len Hcps Ho ltac:(lia) Hcap H64)
      as (d1 & E1 & L1 & F1).
    rewrite E1.
    destruct (IH d1 cap (out_len + zlen (flat_map utf8_encode_cp cps)) Hrest
                 ltac:(lia) ltac:(lia) ltac:(lia) H64) as (d2 & E2 & L2 & F2).
    rewrite E2. exists d2. split; [f_equal; lia|]. split; [congruence|].
    rewrite Z.add_assoc, F2, F1, app_assoc. reflexivity.
Qed.

(** Texts that are valid UTF-8, encoded one by one and handed over as
    tokens, come back joined: [mmjp_lossless_detokenize] returns the length
    of their concatenation and writes it, when the buffer takes it. *)
Theorem detokenize_restores_texts (texts : list (list Z)) (d : list Z) (cap : Z) :
  Forall valid_utf8 texts ->
  zlen (concat texts) <= cap -> cap <= zlen d -> cap < 2 ^ 64 ->
  fst (mmjp_lossless_detokenize (map (fun x => Some (lossless_encoded x)) texts)
                                (Some d) cap) = zlen (concat texts) /\
  out_bytes (mmjp_lossless_detokenize (map (fun x => Some (lossless_encoded x)) texts)
                                      (Some d) cap) = concat texts.
Proof.
  intros Hv Hfit Hcap H64.
  assert (R : exists cpss, Forall (fun cps => forallb is_scalar cps = true) cpss /\
                           texts = map (flat_map utf8_encode_cp) cpss).
  { clear Hfit. induction Hv as [|x texts (cps & Hsc & ->) _ (cpss & Hall & ->)].
    - exists []. split; [constructor|reflexivity].
    - exists (cps :: cpss). split; [constructor; assumption|reflexivity]. }
  destruct R as (cpss & Hall & ->).
  assert (T : map (fun x => Some (lossless_encoded x)) (map (flat_map utf8_encode_cp) cpss)
              = map (fun cps => Some (flat_map piece cps)) cpss).
  { rewrite map_map. apply map_ext_in. intros cps Hin. f_equal.
    apply lossless_encoded_pieces. rewrite Forall_forall in Hall. apply Hall, Hin. }
  rewrite T. unfold mmjp_lossless_detokenize.
  destruct (detokenize_fold cpss d cap 0 Hall ltac:(lia) ltac:(lia) Hcap H64)
    as (d1 & E & L & F).
  rewrite E. rewrite Z.add_0_l in *.
  destruct (put1_keep d1 cap (zlen (concat (map (flat_map utf8_encode_cp) cpss))))
    as (d2 & P & K).
  unfold out_bytes. cbn [fst snd]. rewrite P, K, F. split; reflexivity.
Qed.

Lemma detokenize_restores_texts_witness :
  fst (mmjp_lossless_detokenize
         (map (fun x => Some (lossless_encoded x)) [[97; 32]; []; ex_text])
         (Some (repeat 7 32)) 32) = zlen (concat [[97; 32]; []; ex_text]) /\
  out_bytes (mmjp_lossless_detokenize
               (map (fun x => Some (lossless_encoded x)) [[97; 32]; []; ex_text])
               (Some (repeat 7 32)) 32) = concat [[97; 32]; []; ex_text].
Proof.
  apply (detokenize_restores_texts [[97; 32]; []; ex_text] (repeat 7 32) 32).
  - repeat constructor.
    + exists [97; 32]. split; reflexivity.
    + exists []. split; reflexivity.
    + exists [97; 32; 0x2581; 10; 0x3042; 9; 0x1F600]. split; reflexivity.
  - vm_compute. discriminate.
  - vm_compute. discriminate.
  - reflexivity.
Defined.

(** *** Tokens that do not fit *)

Lemma put_cap (dst : option (list Z)) (cap1 cap2 out_len : Z) (e : list Z) :
  out_len + zlen e <= cap1 -> out_len + zlen e <= cap2 ->
  put dst cap1 out_len e = put dst cap2 out_len e.
Proof.
  intros H1 H2. unfold put. destruct dst as [d|]; [|reflexivity].
  destruct (Z.leb_spec (out_len + zlen e) cap1), (Z.leb_spec (out_len + zlen e) cap2);
    try lia; reflexivity.
Qed.

(** Two capacities that both take the whole result give the same buffer. *)
Lemma decode_loop_cap (fuel : nat) (src : list Z) (cap1 cap2 : Z) :
  forall pos out_len dst,
  fst (decode_loop fuel src cap1 pos out_len dst) <= cap1 ->
  fst (decode_loop fuel src cap1 pos out_len dst) <= cap2 ->
  decode_loop fuel src cap1 pos out_len dst = decode_loop fuel src cap2 pos out_len dst.
Proof.
  induction fuel as [|f IH]; intros pos out_len dst; cbn [decode_loop].
  - destruct (pos <? zlen src); reflexivity.
  - destruct (pos <? zlen src); [|reflexivity].
    assert (STEP : forall p e,
      fst (decode_loop f src cap1 p (out_len + zlen e) (put dst cap1 out_len e)) <= cap1 ->
      fst (decode_loop f src cap1 p (out_len + zlen e) (put dst cap1 out_len e)) <= cap2 ->
      decode_loop f src cap1 p (out_len + zlen e) (put dst cap1 out_len e)
      = decode_loop f src cap2 p (out_len + zlen e) (put dst cap2 out_len e)).
    { intros p e H1 H2.
      pose proof (decode_loop_mono f src cap1 p (out_len + zlen e) (put dst cap1 out_len e)).
      rewrite <- (put_cap dst cap1 cap2 out_len e) by lia.
      apply IH; assumption. }
    destruct (utf8_decode_cp src pos) as [[cp adv]|].
    + cbv zeta. split_ifs; try apply STEP.
      destruct (utf8_decode_cp src (pos + adv)) as [[cp2 adv2]|]; apply STEP.
    + rewrite !put1_put. change (out_len + 1) with (out_len + zlen [zget src pos]).
      apply STEP.
Qed.

Lemma decode_cap (src : list Z) (dst : option (list Z)) (cap1 cap2 : Z) :
  fst (mmjp_lossless_decode src dst cap1) < cap1 ->
  fst (mmjp_lossless_decode src dst cap1) < cap2 ->
  mmjp_lossless_decode src dst cap1 = mmjp_lossless_decode src dst cap2.
Proof.
  rewrite decode_fst. intros H1 H2. unfold mmjp_lossless_decode.
  rewrite <- (decode_loop_cap _ _ cap1 cap2) by lia.
  destruct (decode_loop (length src) src cap1 0 0 dst) as [n dst'].
  cbn [fst] in *. f_equal. unfold put1. destruct dst' as [d'|]; [|reflexivity].
  destruct (Z.ltb_spec n cap1), (Z.ltb_spec n cap2); try lia; reflexivity.
Qed.

(** Printable ASCII other than the space is its own encoding. *)
Definition printable (y : Z) : Prop := 33 <= y <= 126.

Lemma printable_pieces (t : list Z) :
  Forall printable t ->
  forallb is_scalar t = true /\ flat_map piece t = t /\ flat_map utf8_encode_cp t = t.
Proof.
  induction 1 as [|y t Hy _ (A & B & C)]; [repeat split|].
  unfold printable in Hy. cbn [forallb flat_map]. rewrite A, B, C.
  assert (S : is_scalar y = true).
  { unfold is_scalar. rewrite !andb_true_iff, negb_true_iff, andb_false_iff, !Z.leb_le.
    split; [lia|]. left. apply Z.leb_gt. lia. }
  assert (E : utf8_encode_cp y = [y]).
  { unfold utf8_encode_cp. destruct (Z.leb_spec y 0x7F); [|lia]. rewrite u8_small by lia.
    reflexivity. }
  assert (P : piece y = [y]).
  { unfold piece, is_meta_char.
    destruct (Z.eqb_spec y 32); [lia|]. destruct (Z.eqb_spec y 9); [lia|].
    destruct (Z.eqb_spec y 10); [lia|]. destruct (Z.eqb_spec y 13); [lia|].
    destruct (Z.leb_spec MMJP_LOSSLESS_ESCAPE y) as [M|M]; [unfold MMJP_LOSSLESS_ESCAPE in M; lia|].
    exact E. }
  rewrite S, E, P. repeat split.
Qed.

(** [mmjp_lossless_detokenize] hands the decoder [dst_cap - out_len] as the
    room that is left.  Once a token has made [out_len] larger than
    [dst_cap], this unsigned difference is huge, and the next token is
    written in full behind the first one, at indices beyond [dst_cap]. *)
Theorem detokenize_writes_past_capacity (t1 t2 d : list Z) (cap : Z) :
  Forall printable t1 -> Forall printable t2 ->
  0 <= cap < zlen t1 ->
  zlen t1 + zlen t2 < zlen d -> zlen d < 2 ^ 63 ->
  exists d', snd (mmjp_lossless_detokenize [Some t1; Some t2] (Some d) cap) = Some d' /\
             slice d' (zlen t1) (zlen t2) = t2.
Proof.
  intros P1 P2 Hcap Hd H63.
  destruct (printable_pieces t1 P1) as (S1 & Q1 & U1).
  destruct (printable_pieces t2 P2) as (S2 & Q2 & U2).
  unfold mmjp_lossless_detokenize. cbn [fold_left]. unfold detokenize_step at 2.
  destruct (Z.eqb_spec (zlen t1) 0) as [Z1|_]; [lia|]. cbv zeta.
  change (Z.to_nat 0) with 0%nat. cbn [skipn firstn app]. rewrite Z.sub_0_r.
  (* the first token *)
  assert (N1 : fst (mmjp_lossless_decode t1 (Some d) (wrap_u 64 cap)) = zlen t1).
  { rewrite decode_fst, (decode_loop_len _ _ _ _ _ _ 0 (Some [])), <- decode_fst.
    rewrite <- Q1 at 1. rewrite (proj1 (decode_encoded t1 [] 0 S1)), U1. reflexivity. }
  destruct (decode_keeps_length t1 d (wrap_u 64 cap)) as (d1 & E1 & L1).
  destruct (mmjp_lossless_decode t1 (Some d) (wrap_u 64 cap)) as [n1 r1] eqn:R1.
  cbn [fst snd] in N1, E1. subst n1 r1. rewrite Z.add_0_l.
  (* the second token *)
  unfold detokenize_step.
  destruct (Z.eqb_spec (zlen t2) 0) as [Z2|NZ2].
  { assert (t2 = []) as -> by (destruct t2; [reflexivity|rewrite zlen_cons in Z2;
                                 pose proof (zlen_nonneg t2); lia]).
    cbn [fst snd]. unfold put1. destruct (zlen t1 <? cap); eexists; split; try reflexivity;
      unfold slice; reflexivity. }
  cbv zeta.
  pose proof (zlen_nonneg t2) as H2.
  set (n := Z.to_nat (zlen t1)). set (sub := skipn n d1).
  assert (Ls : zlen sub = zlen d - zlen t1).
  { unfold sub, n, zlen in *. rewrite length_skipn. lia. }
  assert (W : wrap_u 64 (cap - zlen t1) = 2 ^ 64 + cap - zlen t1).
  { unfold wrap_u. symmetry. apply Z.mod_unique with (q := -1); lia. }
  rewrite W.
  destruct (decode_encoded_buffer t2 sub (zlen sub) S2) as (s & E2 & L2 & F2);
    [rewrite U2; lia|lia|].
  rewrite Q2, U2 in E2.
  rewrite <- (decode_cap t2 (Some sub) (zlen sub) (2 ^ 64 + cap - zlen t1));
    [|rewrite E2; cbn [fst]; lia|rewrite E2; cbn [fst]; lia].
  rewrite E2. cbn [fst snd].
  unfold put1. destruct (Z.ltb_spec (zlen t1 + zlen t2) cap); [lia|].
  eexists. split; [reflexivity|].
  unfold slice. rewrite skipn_app.
  assert (A : length (firstn n d1) = n).
  { unfold n, zlen in *. rewrite length_firstn. lia. }
  rewrite A, Nat.sub_diag, skipn_all2 by lia. cbn [skipn app].
  rewrite U2 in F2. exact F2.
Qed.

(** A capacity of four in a buffer of eight bytes: [abcde] does not fit,
    and [f] is then written at index five. *)
Lemma detokenize_writes_past_capacity_witness :
  exists d', snd (mmjp_lossless_detokenize [Some [97; 98; 99; 100; 101]; Some [102]]
                                           (Some ex_small_buffer) 4) = Some d' /\
             slice d' (zlen [97; 98; 99; 100; 101]) (zlen [102]) = [102].
Proof.
  apply (detokenize_writes_past_capacity [97; 98; 99; 100; 101] [102] ex_small_buffer 4).
  - repeat constructor; unfold printable; lia.
  - repeat constructor; unfold printable; lia.
  - vm_compute. split; [discriminate|reflexivity].
  - vm_compute. reflexivity.
  - vm_compute. reflexivity.
Defined.

End LosslessProofs.

(** ** UTF-8 in the decoder and in the coder *)
Module Utf8Proofs.

Import Mem MemFacts Npycrf Lossless LosslessProofs.

(** ** The decoder's UTF-8 reader and the coder's UTF-8 writer *)

Definition is_byte (b : Z) : Prop := 0 <= b <= 255.

(** The bit tests of the reader, as sums. *)
Lemma byte_shapes (b : Z) :
  is_byte b ->
  ((Z.land b 0x80 =? 0) = true -> b < 0x80) /\
  ((Z.land b 0xE0 =? 0xC0) = true -> b = 0xC0 + Z.land b 0x1F /\ 0 <= Z.land b 0x1F < 32) /\
  ((Z.land b 0xF0 =? 0xE0) = true -> b = 0xE0 + Z.land b 0x0F /\ 0 <= Z.land b 0x0F < 16) /\
  ((Z.land b 0xF8 =? 0xF0) = true -> b = 0xF0 + Z.land b 0x07 /\ 0 <= Z.land b 0x07 < 8) /\
  ((Z.land b 0xC0 =? 0x80) = true -> b = 0x80 + Z.land b 0x3F /\ 0 <= Z.land b 0x3F < 64).
Proof.
  intros Hb.
  pose proof (all_range
    (fun b => implb (Z.land b 0x80 =? 0) (b <? 0x80)
              && implb (Z.land b 0xE0 =? 0xC0)
                       ((b =? 0xC0 + Z.land b 0x1F) && (0 <=? Z.land b 0x1F)
                        && (Z.land b 0x1F <? 32))
              && implb (Z.land b 0xF0 =? 0xE0)
                       ((b =? 0xE0 + Z.land b 0x0F) && (0 <=? Z.land b 0x0F)
                        && (Z.land b 0x0F <? 16))
              && implb (Z.land b 0xF8 =? 0xF0)
                       ((b =? 0xF0 + Z.land b 0x07) && (0 <=? Z.land b 0x07)
                        && (Z.land b 0x07 <? 8))
              && implb (Z.land b 0xC0 =? 0x80)
                       ((b =? 0x80 + Z.land b 0x3F) && (0 <=? Z.land b 0x3F)
                        && (Z.land b 0x3F <? 64)))
    0 256 b eq_refl ltac:(unfold is_byte in Hb; lia)) as H.
  cbv beta in H. rewrite !andb_true_iff in H.
  destruct H as ((((A & B) & C) & D) & E).
  split; [intros T; rewrite T in A; cbn [implb] in A; apply Z.ltb_lt; exact A|].
  split; [intros T; rewrite T in B; cbn [implb] in B;
          rewrite !andb_true_iff, Z.eqb_eq, Z.leb_le, Z.ltb_lt in B; lia|].
  split; [intros T; rewrite T in C; cbn [implb] in C;
          rewrite !andb_true_iff, Z.eqb_eq, Z.leb_le, Z.ltb_lt in C; lia|].
  split; [intros T; rewrite T in D; cbn [implb] in D;
          rewrite !andb_true_iff, Z.eqb_eq, Z.leb_le, Z.ltb_lt in D; lia|].
  intros T; rewrite T in E; cbn [implb] in E;
    rewrite !andb_true_iff, Z.eqb_eq, Z.leb_le, Z.ltb_lt in E; lia.
Qed.

(** The bytes of the writer, as sums. *)
Lemma lead_sums :
  (forall x, 0 <= x < 32 -> u8 (Z.lor 0xC0 x) = 0xC0 + x) /\
  (forall x, 0 <= x < 16 -> u8 (Z.lor 0xE0 x) = 0xE0 + x) /\
  (forall x, 0 <= x < 8 -> u8 (Z.lor 0xF0 x) = 0xF0 + x) /\
  (forall x, 0 <= x < 64 -> u8 (Z.lor 0x80 x) = 0x80 + x).
Proof.
  repeat split; intros x Hx.
  - apply Z.eqb_eq.
    exact (all_range (fun x => u8 (Z.lor 0xC0 x) =? 0xC0 + x) 0 32 x eq_refl Hx).
  - apply Z.eqb_eq.
    exact (all_range (fun x => u8 (Z.lor 0xE0 x) =? 0xE0 + x) 0 16 x eq_refl Hx).
  - apply Z.eqb_eq.
    exact (all_range (fun x => u8 (Z.lor 0xF0 x) =? 0xF0 + x) 0 8 x eq_refl Hx).
  - apply Z.eqb_eq.
    exact (all_range (fun x => u8 (Z.lor 0x80 x) =? 0x80 + x) 0 64 x eq_refl Hx).
Qed.

Lemma slice_zget (s : list Z) (i n : Z) :
  0 <= i -> 0 <= n -> i + n <= zlen s ->
  slice s i n = map (fun k => zget s (i + k)) (range 0 n).
Proof.
  intros Hi Hn Hlen. unfold slice, zlen in *.
  apply (nth_ext _ _ 0 0).
  - rewrite length_firstn, length_skipn, length_map. unfold range. rewrite zseq_length. lia.
  - intros k Hk. rewrite length_firstn, length_skipn in Hk.
    rewrite nth_firstn. destruct (Nat.ltb_spec k (Z.to_nat n)); [|lia].
    rewrite nth_skipn.
    set (f := fun k => zget s (i + k)).
    rewrite (nth_indep (map f (range 0 n)) 0 (f 0))
      by (rewrite length_map; unfold range; rewrite zseq_length; lia).
    rewrite (map_nth f (range 0 n) 0 k). unfold f.
    assert (E : nth k (range 0 n) 0 = Z.of_nat k).
    { pose proof (zget_range n (Z.of_nat k) ltac:(lia)) as G. unfold zget in G.
      destruct (Z.ltb_spec (Z.of_nat k) 0); [lia|]. rewrite Nat2Z.id in G. exact G. }
    rewrite E. unfold zget. destruct (Z.ltb_spec (i + Z.of_nat k) 0); [lia|].
    f_equal. lia.
Qed.

Lemma shl_sum2 (x y : Z) :
  0 <= x -> 0 <= y < 64 -> Z.lor (Z.shiftl x 6) y = x * 64 + y.
Proof.
  intros Hx Hy. rewrite Z.shiftl_mul_pow2 by lia.
  rewrite lor_mul_add by (change (2 ^ 6) with 64; lia). reflexivity.
Qed.

Lemma shl_sum3 (x y z : Z) :
  0 <= x -> 0 <= y < 64 -> 0 <= z < 64 ->
  Z.lor (Z.lor (Z.shiftl x 12) (Z.shiftl y 6)) z = (x * 64 + y) * 64 + z.
Proof.
  intros Hx Hy Hz. rewrite !Z.shiftl_mul_pow2 by lia.
  change (2 ^ 6) with 64.
  rewrite (lor_mul_add x (y * 64) 12) by (change (2 ^ 12) with 4096; lia).
  replace (x * 2 ^ 12 + y * 64) with ((x * 64 + y) * 2 ^ 6)
    by (change (2 ^ 12) with 4096; change (2 ^ 6) with 64; lia).
  rewrite lor_mul_add by (change (2 ^ 6) with 64; lia). reflexivity.
Qed.

Lemma shl_sum4 (x y z t : Z) :
  0 <= x -> 0 <= y < 64 -> 0 <= z < 64 -> 0 <= t < 64 ->
  Z.lor (Z.lor (Z.lor (Z.shiftl x 18) (Z.shiftl y 12)) (Z.shiftl z 6)) t
  = ((x * 64 + y) * 64 + z) * 64 + t.
Proof.
  intros Hx Hy Hz Ht. rewrite !Z.shiftl_mul_pow2 by lia.
  change (2 ^ 12) with 4096. change (2 ^ 6) with 64.
  rewrite (lor_mul_add x (y * 4096) 18) by (change (2 ^ 18) with 262144; lia).
  replace (x * 2 ^ 18 + y * 4096) with ((x * 64 + y) * 2 ^ 12)
    by (change (2 ^ 18) with 262144; change (2 ^ 12) with 4096; lia).
  rewrite (lor_mul_add (x * 64 + y) (z * 64) 12) by (change (2 ^ 12) with 4096; lia).
  replace ((x * 64 + y) * 2 ^ 12 + z * 64) with (((x * 64 + y) * 64 + z) * 2 ^ 6)
    by (change (2 ^ 12) with 4096; change (2 ^ 6) with 64; lia).
  rewrite lor_mul_add by (change (2 ^ 6) with 64; lia). reflexivity.
Qed.

Lemma is_scalar_intro cp :
  0 <= cp <= 0x10FFFF -> (cp < 0xD800 \/ 0xDFFF < cp) -> is_scalar cp = true.
Proof.
  intros H1 H2. unfold is_scalar.
  rewrite !andb_true_iff, negb_true_iff, andb_false_iff, !Z.leb_le.
  split; [lia|]. destruct H2; [left|right]; apply Z.leb_gt; lia.
Qed.

(** When [utf8_decode1] accepts, it has read the bytes that
    [utf8_encode_cp] writes for the code point it returns, which is a
    Unicode scalar value: no other byte sequence passes, neither an overlong
    form nor a surrogate nor a value beyond U+10FFFF. *)
Theorem utf8_decode1_reads_canonical (s : list Z) (i i' cp : Z) :
  Forall is_byte s -> 0 <= i ->
  utf8_decode1 s i = Some (i', cp) ->
  is_scalar cp = true /\ i < i' <= zlen s /\
  slice s i (i' - i) = utf8_encode_cp cp.
Proof.
  intros Hs Hi H.
  assert (Hb : forall k, is_byte (zget s k)).
  { intros k. unfold zget. destruct (k <? 0); [unfold is_byte; lia|].
    destruct (Nat.lt_ge_cases (Z.to_nat k) (length s)) as [L|L].
    - rewrite Forall_forall in Hs. apply Hs, nth_In, L.
    - rewrite nth_overflow by exact L. unfold is_byte. lia. }
  destruct lead_sums as (S2 & S3 & S4 & SC).
  unfold utf8_decode1 in H. cbv zeta in H.
  destruct (Z.leb_spec (zlen s) i) as [|Hlen]; [discriminate|].
  pose proof (byte_shapes (zget s i) (Hb i)) as (A1 & A2 & A3 & A4 & _).
  pose proof (byte_shapes (zget s (i + 1)) (Hb (i + 1))) as (_ & _ & _ & _ & C1).
  pose proof (byte_shapes (zget s (i + 2)) (Hb (i + 2))) as (_ & _ & _ & _ & C2).
  pose proof (byte_shapes (zget s (i + 3)) (Hb (i + 3))) as (_ & _ & _ & _ & C3).
  set (b0 := zget s i) in *. set (b1 := zget s (i + 1)) in *.
  set (b2 := zget s (i + 2)) in *. set (b3 := zget s (i + 3)) in *.
  destruct (Z.land b0 0x80 =? 0) eqn:T1.
  { inversion H; subst i' cp. specialize (A1 eq_refl). pose proof (Hb i) as B. fold b0 in B.
    unfold is_byte in B.
    split; [apply is_scalar_intro; lia|]. split; [lia|].
    replace (i + 1 - i) with 1 by lia. rewrite slice_zget by lia.
    cbn [range zseq map Z.to_nat Pos.to_nat Pos.iter_op Init.Nat.add Z.sub Z.add Z.opp
         Z.pos_sub].
    change (range 0 1) with [0]. cbn [map]. rewrite Z.add_0_r. fold b0.
    unfold utf8_encode_cp. destruct (Z.leb_spec b0 0x7F); [|lia].
    rewrite u8_small by lia. reflexivity. }
  destruct (Z.land b0 0xE0 =? 0xC0) eqn:T2.
  { destruct (Z.leb_spec (zlen s) (i + 1)); [discriminate|].
    destruct (Z.land b1 0xC0 =? 0x80) eqn:U1; cbn [negb] in H; [|discriminate].
    destruct (A2 eq_refl) as (E0 & R0). destruct (C1 eq_refl) as (E1 & R1).
    set (x := Z.land b0 0x1F) in *. set (y := Z.land b1 0x3F) in *.
    rewrite (shl_sum2 x y) in H by lia.
    destruct (Z.ltb_spec (x * 64 + y) 0x80); [discriminate|].
    inversion H; subst i' cp.
    split; [apply is_scalar_intro; lia|]. split; [lia|].
    replace (i + 2 - i) with 2 by lia. rewrite slice_zget by lia.
    change (range 0 2) with [0; 1]. cbn [map]. rewrite Z.add_0_r. fold b0 b1.
    unfold utf8_encode_cp.
    destruct (Z.leb_spec (x * 64 + y) 0x7F); [lia|].
    destruct (Z.leb_spec (x * 64 + y) 0x7FF); [|lia].
    rewrite shiftr_6, land_31, land_63.
    replace ((x * 64 + y) / 64 mod 32) with x by zdm.
    replace ((x * 64 + y) mod 64) with y by zdm.
    rewrite S2, SC by lia. congruence. }
  destruct (Z.land b0 0xF0 =? 0xE0) eqn:T3.
  { destruct (Z.leb_spec (zlen s) (i + 2)); [discriminate|].
    destruct (Z.land b1 0xC0 =? 0x80) eqn:U1; cbn [negb orb] in H; [|discriminate].
    destruct (Z.land b2 0xC0 =? 0x80) eqn:U2; cbn [negb orb] in H; [|discriminate].
    destruct (A3 eq_refl) as (E0 & R0). destruct (C1 eq_refl) as (E1 & R1).
    destruct (C2 eq_refl) as (E2 & R2).
    set (x := Z.land b0 0x0F) in *. set (y := Z.land b1 0x3F) in *.
    set (z := Z.land b2 0x3F) in *.
    rewrite (shl_sum3 x y z) in H by lia.
    set (cp0 := (x * 64 + y) * 64 + z) in *.
    destruct (Z.ltb_spec cp0 0x800); [discriminate|].
    destruct ((0xD800 <=? cp0) && (cp0 <=? 0xDFFF)) eqn:Sur; [discriminate|].
    inversion H; subst i' cp.
    apply andb_false_iff in Sur. rewrite !Z.leb_gt in Sur.
    assert (Hcp : cp0 <= 0xFFFF) by (unfold cp0; lia).
    split; [apply is_scalar_intro; lia|]. split; [lia|].
    replace (i + 3 - i) with 3 by lia. rewrite slice_zget by lia.
    change (range 0 3) with [0; 1; 2]. cbn [map]. rewrite Z.add_0_r. fold b0 b1 b2.
    unfold utf8_encode_cp.
    destruct (Z.leb_spec cp0 0x7F); [lia|].
    destruct (Z.leb_spec cp0 0x7FF); [lia|].
    destruct (Z.leb_spec cp0 0xFFFF); [|lia].
    rewrite shiftr_6, shiftr_12, land_15, !land_63.
    replace (cp0 / 4096 mod 16) with x by (unfold cp0; zdm).
    replace (cp0 / 64 mod 64) with y by (unfold cp0; zdm).
    replace (cp0 mod 64) with z by (unfold cp0; zdm).
    rewrite S3, !SC by lia. congruence. }
  destruct (Z.land b0 0xF8 =? 0xF0) eqn:T4; [|discriminate].
  destruct (Z.leb_spec (zlen s) (i + 3)); [discriminate|].
  destruct (Z.land b1 0xC0 =? 0x80) eqn:U1; cbn [negb orb] in H; [|discriminate].
  destruct (Z.land b2 0xC0 =? 0x80) eqn:U2; cbn [negb orb] in H; [|discriminate].
  destruct (Z.land b3 0xC0 =? 0x80) eqn:U3; cbn [negb orb] in H; [|discriminate].
  destruct (A4 eq_refl) as (E0 & R0). destruct (C1 eq_refl) as (E1 & R1).
  destruct (C2 eq_refl) as (E2 & R2). destruct (C3 eq_refl) as (E3 & R3).
  set (x := Z.land b0 0x07) in *. set (y := Z.land b1 0x3F) in *.
  set (z := Z.land b2 0x3F) in *. set (t := Z.land b3 0x3F) in *.
  rewrite (shl_sum4 x y z t) in H by lia.
  set (cp0 := ((x * 64 + y) * 64 + z) * 64 + t) in *.
  destruct (Z.ltb_spec cp0 0x10000); [discriminate|].
  destruct (Z.ltb_spec 0x10FFFF cp0); [discriminate|].
  inversion H; subst i' cp.
  split; [apply is_scalar_intro; lia|]. split; [lia|].
  replace (i + 4 - i) with 4 by lia. rewrite slice_zget by lia.
  change (range 0 4) with [0; 1; 2; 3]. cbn [map]. rewrite Z.add_0_r. fold b0 b1 b2 b3.
  unfold utf8_encode_cp.
  destruct (Z.leb_spec cp0 0x7F); [lia|].
  destruct (Z.leb_spec cp0 0x7FF); [lia|].
  destruct (Z.leb_spec cp0 0xFFFF); [lia|].
  rewrite shiftr_6, shiftr_12, shiftr_18, land_7, !land_63.
  replace (cp0 / 262144 mod 8) with x by (unfold cp0; zdm).
  replace (cp0 / 4096 mod 64) with y by (unfold cp0; zdm).
  replace (cp0 / 64 mod 64) with z by (unfold cp0; zdm).
  replace (cp0 mod 64) with t by (unfold cp0; zdm).
  rewrite S4, !SC by lia. congruence.
Qed.

(** The tests of the reader on the bytes of the writer. *)
Lemma read_ascii (x : Z) : 0 <= x < 128 -> (Z.land x 0x80 =? 0) = true.
Proof. exact (all_range (fun x => Z.land x 0x80 =? 0) 0 128 x eq_refl). Qed.

Lemma read_lead2 (x : Z) :
  0 <= x < 32 ->
  let b := u8 (Z.lor 0xC0 x) in
  (Z.land b 0x80 =? 0) = false /\ (Z.land b 0xE0 =? 0xC0) = true /\ Z.land b 0x1F = x.
Proof.
  intros Hx.
  pose proof (all_range (fun x => let b := u8 (Z.lor 0xC0 x) in
                                  negb (Z.land b 0x80 =? 0) && (Z.land b 0xE0 =? 0xC0)
                                  && (Z.land b 0x1F =? x))
                        0 32 x eq_refl Hx) as H.
  cbv beta zeta in H. rewrite !andb_true_iff in H. destruct H as ((A & B) & D).
  cbv zeta. split; [apply negb_true_iff; exact A|]. split; [exact B|apply Z.eqb_eq; exact D].
Qed.

Lemma read_lead3 (x : Z) :
  0 <= x < 16 ->
  let b := u8 (Z.lor 0xE0 x) in
  (Z.land b 0x80 =? 0) = false /\ (Z.land b 0xE0 =? 0xC0) = false /\
  (Z.land b 0xF0 =? 0xE0) = true /\ Z.land b 0x0F = x.
Proof.
  intros Hx.
  pose proof (all_range (fun x => let b := u8 (Z.lor 0xE0 x) in
                                  negb (Z.land b 0x80 =? 0) && negb (Z.land b 0xE0 =? 0xC0)
                                  && (Z.land b 0xF0 =? 0xE0) && (Z.land b 0x0F =? x))
                        0 16 x eq_refl Hx) as H.
  cbv beta zeta in H. rewrite !andb_true_iff in H. destruct H as (((A & B) & D) & E).
  cbv zeta. split; [apply negb_true_iff; exact A|]. split; [apply negb_true_iff; exact B|].
  split; [exact D|apply Z.eqb_eq; exact E].
Qed.

Lemma read_lead4 (x : Z) :
  0 <= x < 8 ->
  let b := u8 (Z.lor 0xF0 x) in
  (Z.land b 0x80 =? 0) = false /\ (Z.land b 0xE0 =? 0xC0) = false /\
  (Z.land b 0xF0 =? 0xE0) = false /\ (Z.land b 0xF8 =? 0xF0) = true /\ Z.land b 0x07 = x.
Proof.
  intros Hx.
  pose proof (all_range (fun x => let b := u8 (Z.lor 0xF0 x) in
                                  negb (Z.land b 0x80 =? 0) && negb (Z.land b 0xE0 =? 0xC0)
                                  && negb (Z.land b 0xF0 =? 0xE0)
                                  && (Z.land b 0xF8 =? 0xF0) && (Z.land b 0x07 =? x))
                        0 8 x eq_refl Hx) as H.
  cbv beta zeta in H. rewrite !andb_true_iff in H. destruct H as ((((A & B) & D) & E) & F).
  cbv zeta. split; [apply negb_true_iff; exact A|]. split; [apply negb_true_iff; exact B|].
  split; [apply negb_true_iff; exact D|]. split; [exact E|apply Z.eqb_eq; exact F].
Qed.

Lemma is_scalar_cases cp :
  is_scalar cp = true -> 0 <= cp <= 0x10FFFF /\ (cp < 0xD800 \/ 0xDFFF < cp).
Proof.
  unfold is_scalar. rewrite !andb_true_iff, negb_true_iff, andb_false_iff, !Z.leb_le, !Z.leb_gt.
  lia.
Qed.

(** [utf8_decode1] reads back every Unicode scalar value from the bytes
    [utf8_encode_cp] writes for it, wherever they stand in a text, and moves
    on by their number. *)
Theorem utf8_decode1_reads_encoding (cp : Z) (pre rest : list Z) :
  is_scalar cp = true ->
  utf8_decode1 (pre ++ utf8_encode_cp cp ++ rest) (zlen pre)
  = Some (zlen pre + zlen (utf8_encode_cp cp), cp).
Proof.
  intros Hsc. destruct (is_scalar_cases cp Hsc) as (Hcp & Hsur).
  pose proof (zlen_nonneg rest) as Hr.
  unfold utf8_encode_cp.
  destruct (Z.leb_spec cp 0x7F) as [H1|H1].
  { rewrite u8_small by lia. unfold utf8_decode1. cbv zeta. rewrite !zlen_app.
    change (zlen [cp]) with 1.
    destruct (Z.leb_spec (zlen pre + (1 + zlen rest)) (zlen pre)); [lia|].
    rewrite !(zget_at0 pre rest [cp]) by (change (zlen [cp]) with 1; lia).
    change (zget [cp] 0) with cp. rewrite read_ascii by lia. reflexivity. }
  destruct (Z.leb_spec cp 0x7FF) as [H2|H2].
  { rewrite shiftr_6, land_31, land_63.
    destruct (read_lead2 ((cp / 64) mod 32)) as (A & B & D); [zdm|].
    destruct (cont_byte (cp mod 64)) as (E & F); [zdm|].
    set (b0 := u8 (Z.lor 0xC0 ((cp / 64) mod 32))) in *.
    set (b1 := u8 (Z.lor 0x80 (cp mod 64))) in *.
    unfold utf8_decode1. cbv zeta. rewrite !zlen_app. change (zlen [b0; b1]) with 2.
    destruct (Z.leb_spec (zlen pre + (2 + zlen rest)) (zlen pre)); [lia|].
    rewrite !(zget_at0 pre rest [b0; b1]) by (change (zlen [b0; b1]) with 2; lia).
    rewrite !(zget_at pre rest [b0; b1]) by (change (zlen [b0; b1]) with 2; lia).
    change (zget [b0; b1] 0) with b0. change (zget [b0; b1] 1) with b1.
    rewrite A, B, E. cbn [negb].
    destruct (Z.leb_spec (zlen pre + (2 + zlen rest)) (zlen pre + 1)); [lia|].
    rewrite D, F, shl_sum2 by zdm.
    replace ((cp / 64) mod 32 * 64 + cp mod 64) with cp by zdm.
    destruct (Z.ltb_spec cp 0x80); [lia|]. reflexivity. }
  destruct (Z.leb_spec cp 0xFFFF) as [H3|H3].
  { rewrite shiftr_6, shiftr_12, land_15, !land_63.
    destruct (read_lead3 ((cp / 4096) mod 16)) as (A & B & D & D'); [zdm|].
    destruct (cont_byte ((cp / 64) mod 64)) as (E & F); [zdm|].
    destruct (cont_byte (cp mod 64)) as (G & H); [zdm|].
    set (b0 := u8 (Z.lor 0xE0 ((cp / 4096) mod 16))) in *.
    set (b1 := u8 (Z.lor 0x80 ((cp / 64) mod 64))) in *.
    set (b2 := u8 (Z.lor 0x80 (cp mod 64))) in *.
    unfold utf8_decode1. cbv zeta. rewrite !zlen_app. change (zlen [b0; b1; b2]) with 3.
    destruct (Z.leb_spec (zlen pre + (3 + zlen rest)) (zlen pre)); [lia|].
    rewrite !(zget_at0 pre rest [b0; b1; b2]) by (change (zlen [b0; b1; b2]) with 3; lia).
    rewrite !(zget_at pre rest [b0; b1; b2]) by (change (zlen [b0; b1; b2]) with 3; lia).
    change (zget [b0; b1; b2] 0) with b0. change (zget [b0; b1; b2] 1) with b1.
    change (zget [b0; b1; b2] 2) with b2.
    rewrite A, B, D, E, G. cbn [negb orb].
    destruct (Z.leb_spec (zlen pre + (3 + zlen rest)) (zlen pre + 2)); [lia|].
    rewrite D', F, H, shl_sum3 by zdm.
    replace (((cp / 4096) mod 16 * 64 + (cp / 64) mod 64) * 64 + cp mod 64) with cp by zdm.
    destruct (Z.ltb_spec cp 0x800); [lia|].
    assert (S : (0xD800 <=? cp) && (cp <=? 0xDFFF) = false).
    { apply andb_false_iff. rewrite !Z.leb_gt. lia. }
    rewrite S. reflexivity. }
  rewrite shiftr_6, shiftr_12, shiftr_18, land_7, !land_63.
  destruct (read_lead4 ((cp / 262144) mod 8)) as (A & B & D & D' & D''); [zdm|].
  destruct (cont_byte ((cp / 4096) mod 64)) as (E & F); [zdm|].
  destruct (cont_byte ((cp / 64) mod 64)) as (G & H); [zdm|].
  destruct (cont_byte (cp mod 64)) as (I & J); [zdm|].
  set (b0 := u8 (Z.lor 0xF0 ((cp / 262144) mod 8))) in *.
  set (b1 := u8 (Z.lor 0x80 ((cp / 4096) mod 64))) in *.
  set (b2 := u8 (Z.lor 0x80 ((cp / 64) mod 64))) in *.
  set (b3 := u8 (Z.lor 0x80 (cp mod 64))) in *.
  unfold utf8_decode1. cbv zeta. rewrite !zlen_app. change (zlen [b0; b1; b2; b3]) with 4.
  destruct (Z.leb_spec (zlen pre + (4 + zlen rest)) (zlen pre)); [lia|].
  rewrite !(zget_at0 pre rest [b0; b1; b2; b3]) by (change (zlen [b0; b1; b2; b3]) with 4; lia).
  rewrite !(zget_at pre rest [b0; b1; b2; b3]) by (change (zlen [b0; b1; b2; b3]) with 4; lia).
  change (zget [b0; b1; b2; b3] 0) with b0. change (zget [b0; b1; b2; b3] 1) with b1.
  change (zget [b0; b1; b2; b3] 2) with b2. change (zget [b0; b1; b2; b3] 3) with b3.
  rewrite A, B, D, D', E, G, I. cbn [negb orb].
  destruct (Z.leb_spec (zlen pre + (4 + zlen rest)) (zlen pre + 3)); [lia|].
  rewrite D'', F, H, J, shl_sum4 by zdm.
  replace ((((cp / 262144) mod 8 * 64 + (cp / 4096) mod 64) * 64 + (cp / 64) mod 64) * 64
           + cp mod 64) with cp by zdm.
  destruct (Z.ltb_spec cp 0x10000); [lia|].
  destruct (Z.ltb_spec 0x10FFFF cp); [lia|]. reflexivity.
Qed.

Lemma utf8_decode1_reads_canonical_witness :
  is_scalar 0x3042 = true /\ 1 < 4 <= zlen [97; 0xE3; 0x81; 0x82; 98] /\
  slice [97; 0xE3; 0x81; 0x82; 98] 1 (4 - 1) = utf8_encode_cp 0x3042.
Proof.
  apply (utf8_decode1_reads_canonical [97; 0xE3; 0x81; 0x82; 98] 1 4 0x3042).
  - repeat constructor; unfold is_byte; lia.
  - lia.
  - reflexivity.
Defined.

Lemma utf8_decode1_reads_encoding_witness :
  utf8_decode1 ([97] ++ utf8_encode_cp 0x1F600 ++ [98]) (zlen [97])
  = Some (zlen [97] + zlen (utf8_encode_cp 0x1F600), 0x1F600).
Proof.
  apply (utf8_decode1_reads_encoding 0x1F600 [97] [98]). reflexivity.
Defined.

(** ** The table of code point offsets *)

Lemma encode_nonempty_len cp : 1 <= zlen (utf8_encode_cp cp) <= 4.
Proof. apply encode_nonempty. Qed.

Lemma loop_valid (cap : Z) (cps : list Z) : forall fuel pre n0 out,
  forallb is_scalar cps = true -> (length cps <= fuel)%nat ->
  0 <= n0 -> n0 + zlen cps < cap -> cap <= zlen out ->
  zlen (pre ++ flat_map utf8_encode_cp cps) <= 65535 ->
  exists out',
    make_offsets_loop fuel (pre ++ flat_map utf8_encode_cp cps) cap (zlen pre) n0 out
    = Some (n0 + zlen cps, out') /\
    zlen out' = zlen out /\
    (forall k, 0 <= k < zlen cps ->
       zget out' (n0 + k)
       = zlen pre + zlen (flat_map utf8_encode_cp (firstn (Z.to_nat k) cps))) /\
    (forall j, j < n0 -> zget out' j = zget out j).
Proof.
  induction cps as [|cp cps IH]; intros fuel pre n0 out Hsc Hfuel Hn0 Hcap Hout Hlen.
  - exists out. cbn [flat_map]. rewrite app_nil_r. change (zlen []) with 0.
    rewrite Z.add_0_r. split.
    + destruct fuel; cbn [make_offsets_loop]; rewrite Z.ltb_irrefl; reflexivity.
    + split; [reflexivity|]. split; [intros k Hk; lia|reflexivity].
  - cbn [forallb] in Hsc. apply andb_true_iff in Hsc. destruct Hsc as (Hcp & Hsc).
    destruct fuel as [|f]; [cbn in Hfuel; lia|]. cbn [length] in Hfuel.
    cbn [flat_map] in *. rewrite zlen_cons in *.
    pose proof (encode_nonempty_len cp) as He.
    pose proof (zlen_nonneg pre) as Hp. pose proof (zlen_nonneg cps) as Hc.
    pose proof (zlen_nonneg (flat_map utf8_encode_cp cps)) as Hr.
    rewrite !zlen_app in Hlen.
    cbn [make_offsets_loop]. rewrite !zlen_app.
    destruct (Z.ltb_spec (zlen pre)
                (zlen pre + (zlen (utf8_encode_cp cp) + zlen (flat_map utf8_encode_cp cps))));
      [|lia].
    destruct (Z.leb_spec cap (n0 + 1)); [lia|].
    rewrite (utf8_decode1_reads_encoding cp pre _ Hcp).
    assert (U : u16 (zlen pre) = zlen pre).
    { unfold u16, wrap_u. apply Z.mod_small. lia. }
    rewrite U.
    destruct (IH f (pre ++ utf8_encode_cp cp) (n0 + 1) (zset out n0 (zlen pre)) Hsc
                 ltac:(lia) ltac:(lia) ltac:(lia) ltac:(rewrite zlen_zset; lia))
      as (out' & E & L & V & K).
    { rewrite <- app_assoc, !zlen_app. lia. }
    rewrite <- app_assoc, zlen_app in E. rewrite E.
    exists out'. split; [f_equal; f_equal; lia|].
    split; [rewrite L; apply zlen_zset|]. split.
    + intros k Hk. destruct (Z.eq_dec k 0) as [->|Hne].
      * cbn [Z.to_nat firstn flat_map]. change (zlen []) with 0.
        rewrite !Z.add_0_r, K by lia. apply zget_zset_same. lia.
      * specialize (V (k - 1) ltac:(lia)).
        replace (n0 + 1 + (k - 1)) with (n0 + k) in V by lia. rewrite V.
        replace (Z.to_nat k) with (S (Z.to_nat (k - 1))) by lia.
        cbn [firstn flat_map]. rewrite !zlen_app. lia.
    + intros j Hj. rewrite K by lia. apply zget_zset_other. lia.
Qed.

(** For a valid UTF-8 text of at most 65535 bytes and at least one code
    point, and a table with room for them, [npycrf_utf8_make_offsets] returns
    the number of code points; entry [k] of the table is the byte offset of
    code point [k], and the entry after the last is the length. *)
Theorem make_offsets_of_valid_text (cps : list Z) (off : list Z) (cap : Z) :
  forallb is_scalar cps = true -> cps <> [] ->
  zlen cps < cap -> cap <= zlen off ->
  zlen (flat_map utf8_encode_cp cps) <= 65535 ->
  fst (npycrf_utf8_make_offsets (flat_map utf8_encode_cp cps) off cap) = zlen cps /\
  forall k, 0 <= k <= zlen cps ->
    zget (snd (npycrf_utf8_make_offsets (flat_map utf8_encode_cp cps) off cap)) k
    = zlen (flat_map utf8_encode_cp (firstn (Z.to_nat k) cps)).
Proof.
  intros Hsc Hne Hcap Hoff Hlen. unfold npycrf_utf8_make_offsets.
  pose proof (zlen_nonneg cps) as Hc.
  destruct (loop_valid cap cps (length (flat_map utf8_encode_cp cps)) [] 0 off Hsc)
    as (out' & E & L & V & _); try lia.
  { apply flat_map_length_ge. intros cp. apply encode_nonempty. }
  { cbn [app]. exact Hlen. }
  cbn [app] in E. change (zlen []) with 0 in E. rewrite E. rewrite Z.add_0_l.
  destruct (Z.leb_spec cap (zlen cps)); [lia|]. cbn [fst snd].
  split; [reflexivity|]. intros k Hk.
  assert (U : u16 (zlen (flat_map utf8_encode_cp cps)) = zlen (flat_map utf8_encode_cp cps)).
  { unfold u16, wrap_u. apply Z.mod_small.
    pose proof (zlen_nonneg (flat_map utf8_encode_cp cps)). lia. }
  rewrite U. destruct (Z.eq_dec k (zlen cps)) as [->|Hne'].
  - rewrite zget_zset_same by lia.
    replace (Z.to_nat (zlen cps)) with (length cps) by (unfold zlen; lia).
    rewrite firstn_all. reflexivity.
  - rewrite zget_zset_other by lia. specialize (V k ltac:(lia)).
    rewrite Z.add_0_l in V. rewrite V. change (zlen []) with 0. lia.
Qed.

Lemma skipn_slice (x : list Z) (i i' : Z) :
  0 <= i <= i' -> skipn (Z.to_nat i) x = slice x i (i' - i) ++ skipn (Z.to_nat i') x.
Proof.
  intros H. unfold slice.
  rewrite <- (firstn_skipn (Z.to_nat (i' - i)) (skipn (Z.to_nat i) x)) at 1.
  f_equal. rewrite skipn_skipn. f_equal. lia.
Qed.

Lemma loop_sound (x : list Z) (cap : Z) (fuel : nat) : forall i n0 out n out',
  Forall is_byte x -> 0 <= i <= zlen x ->
  make_offsets_loop fuel x cap i n0 out = Some (n, out') ->
  exists cps, forallb is_scalar cps = true /\
              skipn (Z.to_nat i) x = flat_map utf8_encode_cp cps /\ n = n0 + zlen cps.
Proof.
  induction fuel as [|f IH]; intros i n0 out n out' Hx Hi H; cbn [make_offsets_loop] in H.
  - destruct (Z.ltb_spec i (zlen x)); [discriminate|]. inversion H; subst.
    exists []. split; [reflexivity|]. split; [|change (zlen []) with 0; lia].
    apply skipn_all2. unfold zlen in *. lia.
  - destruct (Z.ltb_spec i (zlen x)).
    + destruct (cap <=? n0 + 1); [discriminate|].
      destruct (utf8_decode1 x i) as [[i' cp]|] eqn:D; [|discriminate].
      destruct (utf8_decode1_reads_canonical x i i' cp Hx ltac:(lia) D) as (Hsc & Hi' & Hsl).
      destruct (IH i' (n0 + 1) _ n out' Hx ltac:(lia) H) as (cps & Hcps & Hskip & Hn).
      exists (cp :: cps). cbn [forallb flat_map]. rewrite Hsc, Hcps.
      split; [reflexivity|]. split.
      * rewrite (skipn_slice x i i') by lia. rewrite Hsl, Hskip. reflexivity.
      * rewrite zlen_cons. lia.
    + inversion H; subst. exists []. split; [reflexivity|].
      split; [|change (zlen []) with 0; lia].
      apply skipn_all2. unfold zlen in *. lia.
Qed.

(** [npycrf_utf8_make_offsets] counts code points in valid UTF-8 only: a
    count other than 0 means that the text is the concatenation of the
    encodings of that many Unicode scalar values. *)
Theorem make_offsets_accepts_only_utf8 (x off : list Z) (cap : Z) :
  Forall is_byte x ->
  fst (npycrf_utf8_make_offsets x off cap) <> 0 ->
  exists cps, forallb is_scalar cps = true /\ x = flat_map utf8_encode_cp cps /\
              fst (npycrf_utf8_make_offsets x off cap) = zlen cps.
Proof.
  intros Hx Hn. unfold npycrf_utf8_make_offsets in *.
  destruct (make_offsets_loop (length x) x cap 0 0 off) as [[n out']|] eqn:E;
    [|cbn in Hn; contradiction].
  destruct (cap <=? n); [cbn in Hn; contradiction|]. cbn [fst] in *.
  pose proof (zlen_nonneg x).
  destruct (loop_sound x cap _ 0 0 off n out' Hx ltac:(lia) E) as (cps & Hsc & Hskip & Hcnt).
  exists cps. split; [exact Hsc|]. split; [exact Hskip|lia].
Qed.

Lemma make_offsets_of_valid_text_witness :
  fst (npycrf_utf8_make_offsets (flat_map utf8_encode_cp [97; 0x3042; 0x1F600])
                                (repeat 0 8) 8) = zlen [97; 0x3042; 0x1F600] /\
  forall k, 0 <= k <= zlen [97; 0x3042; 0x1F600] ->
    zget (snd (npycrf_utf8_make_offsets (flat_map utf8_encode_cp [97; 0x3042; 0x1F600])
                                        (repeat 0 8) 8)) k
    = zlen (flat_map utf8_encode_cp (firstn (Z.to_nat k) [97; 0x3042; 0x1F600])).
Proof.
  apply (make_offsets_of_valid_text [97; 0x3042; 0x1F600] (repeat 0 8) 8).
  - reflexivity.
  - discriminate.
  - vm_compute. reflexivity.
  - vm_compute. discriminate.
  - vm_compute. discriminate.
Defined.

Lemma make_offsets_accepts_only_utf8_witness :
  exists cps, forallb is_scalar cps = true /\
              [97; 0xE3; 0x81; 0x82] = flat_map utf8_encode_cp cps /\
              fst (npycrf_utf8_make_offsets [97; 0xE3; 0x81; 0x82] (repeat 0 8) 8) = zlen cps.
Proof.
  apply (make_offsets_accepts_only_utf8 [97; 0xE3; 0x81; 0x82] (repeat 0 8) 8).
  - repeat constructor; unfold is_byte; lia.
  - vm_compute. discriminate.
Defined.

Import NpycrfProofs Lossless.

(** ** The words of a segmentation, in bytes *)

(** The offset table of a valid text. *)
Lemma offsets_of_valid (cps : list Z) (off : list Z) (cap : Z) :
  forallb is_scalar cps = true -> cps <> [] ->
  zlen cps < cap -> cap <= zlen off ->
  zlen (flat_map utf8_encode_cp cps) <= 65535 ->
  fst (npycrf_utf8_make_offsets (flat_map utf8_encode_cp cps) off cap) = zlen cps /\
  forall k, 0 <= k <= zlen cps ->
    zget (snd (npycrf_utf8_make_offsets (flat_map utf8_encode_cp cps) off cap)) k
    = zlen (flat_map utf8_encode_cp (firstn (Z.to_nat k) cps)).
Proof.
  intros Hsc Hne Hcap Hoff Hlen. unfold npycrf_utf8_make_offsets.
  pose proof (zlen_nonneg cps) as Hc.
  destruct (loop_valid cap cps (length (flat_map utf8_encode_cp cps)) [] 0 off Hsc)
    as (out' & E & L & V & _); try lia.
  { apply flat_map_length_ge. intros cp. apply encode_nonempty. }
  { cbn [app]. exact Hlen. }
  cbn [app] in E. change (zlen []) with 0 in E. rewrite E. rewrite Z.add_0_l.
  destruct (Z.leb_spec cap (zlen cps)); [lia|]. cbn [fst snd].
  split; [reflexivity|]. intros k Hk.
  assert (U : u16 (zlen (flat_map utf8_encode_cp cps)) = zlen (flat_map utf8_encode_cp cps)).
  { unfold u16, wrap_u. apply Z.mod_small.
    pose proof (zlen_nonneg (flat_map utf8_encode_cp cps)). lia. }
  rewrite U. destruct (Z.eq_dec k (zlen cps)) as [->|Hne'].
  - rewrite zget_zset_same by lia.
    replace (Z.to_nat (zlen cps)) with (length cps) by (unfold zlen; lia).
    rewrite firstn_all. reflexivity.
  - rewrite zget_zset_other by lia. specialize (V k ltac:(lia)).
    rewrite Z.add_0_l in V. rewrite V. change (zlen []) with 0. lia.
Qed.

Lemma zget_map (f : Z -> Z) (l : list Z) i :
  0 <= i < zlen l -> zget (map f l) i = f (zget l i).
Proof.
  intros H. unfold zget. destruct (Z.ltb_spec i 0); [lia|].
  rewrite (nth_indep _ 0 (f 0)) by (rewrite length_map; unfold zlen in H; lia).
  apply map_nth.
Qed.

Lemma firstn_plus (a k : nat) : forall l : list Z,
  firstn (a + k) l = firstn a l ++ firstn k (skipn a l).
Proof.
  induction a as [|a IH]; intros l; [reflexivity|].
  destruct l as [|x l]; cbn [Nat.add firstn skipn app].
  - rewrite firstn_nil. reflexivity.
  - rewrite IH. reflexivity.
Qed.

(** The code points up to [b'] are those up to [b] and the ones between. *)
Lemma firstn_slice (cps : list Z) (b b' : Z) :
  0 <= b <= b' ->
  firstn (Z.to_nat b') cps = firstn (Z.to_nat b) cps ++ slice cps b (b' - b).
Proof.
  intros H. unfold slice.
  replace (Z.to_nat b') with (Z.to_nat b + Z.to_nat (b' - b))%nat by lia.
  apply firstn_plus.
Qed.

Lemma split_at_word (cps : list Z) (b b' : Z) :
  0 <= b <= b' ->
  cps = firstn (Z.to_nat b) cps ++ slice cps b (b' - b) ++ skipn (Z.to_nat b') cps.
Proof.
  intros H. rewrite app_assoc, <- firstn_slice by exact H.
  symmetry. apply firstn_skipn.
Qed.

Lemma slice_length (cps : list Z) (b n : Z) :
  0 <= b -> 0 <= n -> b + n <= zlen cps -> zlen (slice cps b n) = n.
Proof.
  intros Hb Hn H. unfold slice, zlen in *. rewrite length_firstn, length_skipn. lia.
Qed.

(** Boundaries that grow stay below the last one. *)
Lemma growing_below (b : list Z) (n : Z) :
  (forall i, 0 <= i < n -> zget b i < zget b (i + 1)) ->
  forall i, 0 <= i <= n -> zget b 0 <= zget b i <= zget b n.
Proof.
  intros Hstep.
  assert (Up : forall k, 0 <= k -> forall i, 0 <= i -> i + k <= n -> zget b i <= zget b (i + k)).
  { intros k Hk. pattern k. apply natlike_ind; [| |exact Hk].
    - intros i _ _. rewrite Z.add_0_r. lia.
    - intros k' Hk' IH i Hi Hik. specialize (IH i Hi ltac:(lia)).
      pose proof (Hstep (i + k') ltac:(lia)) as S.
      replace (i + Z.succ k') with (i + k' + 1) by lia. lia. }
  intros i Hi. split.
  - apply (Up i ltac:(lia) 0); lia.
  - replace n with (i + (n - i)) at 1 by lia. apply Up; lia.
Qed.

(** The words that [npycrf_decode] returns never cut a character.  For a
    valid UTF-8 text that fits the work area, [npycrf_boundaries_cp_to_bytes]
    with the offset table of the text (the one the decoder leaves in
    [work->cp_off]) turns the boundaries of a successful [npycrf_decode]
    into byte offsets that start at 0, end at the length of the text and
    grow strictly, and the bytes between two neighbours are the UTF-8
    encoding of the code points between the two boundaries. *)
Theorem decoded_words_are_utf8 (m : npycrf_model_t) (cps : list Z)
        (w : npycrf_work_t) (cap : Z) :
  forallb is_scalar cps = true ->
  zlen (flat_map utf8_encode_cp cps) <= 65535 ->
  zlen cps <= max_n_cp w -> max_n_cp w <= 65535 -> max_n_cp w + 1 <= zlen (cp_off w) ->
  d_rc (npycrf_decode m (flat_map utf8_encode_cp cps) w cap) = 0 ->
  let utf8 := flat_map utf8_encode_cp cps in
  let o := npycrf_decode m utf8 w cap in
  let bb := npycrf_boundaries_cp_to_bytes
              (snd (npycrf_utf8_make_offsets utf8 (cp_off w) (max_n_cp w + 1))) (d_b_cp o) in
  zget bb 0 = 0 /\ zget bb (d_b_count o - 1) = zlen utf8 /\
  forall i, 0 <= i < d_b_count o - 1 ->
    zget bb i < zget bb (i + 1) /\
    slice utf8 (zget bb i) (zget bb (i + 1) - zget bb i)
    = flat_map utf8_encode_cp
        (slice cps (zget (d_b_cp o) i) (zget (d_b_cp o) (i + 1) - zget (d_b_cp o) i)).
Proof.
  intros Hsc Hlen Hfit Hmax Hroom Hd. cbv zeta.
  destruct (decode_ok_chain m _ w cap Hmax Hd) as (Hcnt & Hc2 & Hb0 & Hbl & Hstep).
  cbv zeta in Hcnt, Hc2, Hb0, Hbl, Hstep.
  set (utf8 := flat_map utf8_encode_cp cps) in *.
  set (o := npycrf_decode m utf8 w cap) in *.
  set (b := d_b_cp o) in *. set (cnt := d_b_count o) in *.
  assert (Hup : forall i, 0 <= i < cnt - 1 -> zget b i < zget b (i + 1)).
  { intros i Hi. apply Hstep. exact Hi. }
  pose proof (growing_below b (cnt - 1) Hup) as Hin. rewrite Hb0, Hbl in Hin.
  assert (Hne : cps <> []).
  { intros ->. subst utf8. cbn [flat_map] in *.
    rewrite make_offsets_nil in Hbl, Hin.
    pose proof (Hup 0 ltac:(lia)). pose proof (Hin 1 ltac:(lia)). change (0 + 1) with 1 in *. lia. }
  destruct (offsets_of_valid cps (cp_off w) (max_n_cp w + 1) Hsc Hne ltac:(lia) Hroom Hlen)
    as (En & Eoff).
  fold utf8 in En, Eoff. rewrite En in Hbl, Hin.
  set (offs := snd (npycrf_utf8_make_offsets utf8 (cp_off w) (max_n_cp w + 1))) in *.
  assert (Hbb : forall i, 0 <= i <= cnt - 1 ->
            zget (npycrf_boundaries_cp_to_bytes offs b) i
            = zlen (flat_map utf8_encode_cp (firstn (Z.to_nat (zget b i)) cps))).
  { intros i Hi. unfold npycrf_boundaries_cp_to_bytes.
    rewrite zget_map by (fold cnt in Hcnt; lia). apply Eoff. apply Hin. exact Hi. }
  split; [|split].
  - rewrite Hbb by lia. rewrite Hb0. reflexivity.
  - rewrite Hbb by lia. rewrite Hbl.
    replace (Z.to_nat (zlen cps)) with (length cps) by (unfold zlen; lia).
    rewrite firstn_all. reflexivity.
  - intros i Hi. rewrite !Hbb by lia.
    pose proof (Hup i Hi) as Hlt.
    pose proof (Hin i ltac:(lia)) as Hi1. pose proof (Hin (i + 1) ltac:(lia)) as Hi2.
    set (p := zget b i) in *. set (q := zget b (i + 1)) in *.
    rewrite (firstn_slice cps p q) by lia.
    rewrite flat_map_app, zlen_app.
    assert (Hw : 1 <= zlen (flat_map utf8_encode_cp (slice cps p (q - p)))).
    { pose proof (flat_map_length_ge utf8_encode_cp (slice cps p (q - p))
                    (fun cp => proj1 (encode_nonempty cp))) as G.
      pose proof (slice_length cps p (q - p) ltac:(lia) ltac:(lia) ltac:(lia)) as S.
      unfold zlen in *. lia. }
    split; [lia|].
    replace (zlen (flat_map utf8_encode_cp (firstn (Z.to_nat p) cps)) +
             zlen (flat_map utf8_encode_cp (slice cps p (q - p))) -
             zlen (flat_map utf8_encode_cp (firstn (Z.to_nat p) cps)))
      with (zlen (flat_map utf8_encode_cp (slice cps p (q - p)))) by lia.
    unfold utf8. rewrite (split_at_word cps p q) at 1 by lia.
    rewrite !flat_map_app. apply slice_at.
Qed.

(** The text of two hiragana, three bytes each. *)
Definition ex_kana : list Z := [0x3042; 0x3044].

Lemma decoded_words_are_utf8_witness :
  zget (npycrf_boundaries_cp_to_bytes
          (snd (npycrf_utf8_make_offsets (flat_map utf8_encode_cp ex_kana) (cp_off ex_work)
                                         (max_n_cp ex_work + 1)))
          (d_b_cp (npycrf_decode ex_model (flat_map utf8_encode_cp ex_kana) ex_work 17)))
       (d_b_count (npycrf_decode ex_model (flat_map utf8_encode_cp ex_kana) ex_work 17) - 1)
  = zlen (flat_map utf8_encode_cp ex_kana).
Proof.
  apply (decoded_words_are_utf8 ex_model ex_kana ex_work 17).
  - reflexivity.
  - vm_compute. discriminate.
  - vm_compute. discriminate.
  - vm_compute. discriminate.
  - vm_compute. discriminate.
  - vm_compute. reflexivity.
Defined.

End Utf8Proofs.

(** ** The model file *)
Module ModelIOProofs.

Import Mem MemFacts Npycrf ModelIO.

(** Little-endian bytes of a field, for building files. *)
Definition le32 (v : Z) : list Z :=
  [v mod 256; (v / 256) mod 256; (v / 65536) mod 256; (v / 16777216) mod 256].
Definition le16 (v : Z) : list Z := [v mod 256; (v / 256) mod 256].

(** A smallest version-1 file: a trie of capacity 2, one vocabulary entry,
    [max_word_len = 2], no bigrams, no features. *)
Definition v1_file : list Z :=
  MMJP_MODEL_MAGIC_V1 ++ le32 1 ++ le32 4 ++ le32 2 ++ le32 1 ++ le32 2
  ++ le16 (-1280) ++ le16 (-256) ++ le16 256
  ++ le16 0 ++ le16 0 ++ le16 0 ++ le16 0 ++ le16 0
  ++ le32 0 ++ le32 0
  ++ le32 0 ++ le32 0 ++ le32 0 ++ le32 0
  ++ le16 (-177).

Ltac step_reader H :=
  match type of H with
  | context [orelse _ ?e] =>
    let E := fresh "E" in
    destruct e as [[? ?]|] eqn:E; cbn [orelse] in H; [|discriminate H]
  end.

(** C2: whatever follows the version-1 magic, a file that
    [mmjp_model_load_bin] accepts is loaded with [flags = 0], no class
    ranges, and the class mode [NPYCRF_CC_MODE_UTF8LEN] with fallback
    [NPYCRF_CC_MODE_ASCII]: the mode is not [NPYCRF_CC_MODE_COMPAT]. *)
Theorem load_v1_class_mode (mem_limit : Z) (rest : list Z) (r : mmjp_loaded_model_t) :
  mmjp_model_load_bin mem_limit (Some (MMJP_MODEL_MAGIC_V1 ++ rest)) = inr r ->
  flags (m r) = 0 /\
  mode (cc (m r)) = NPYCRF_CC_MODE_UTF8LEN /\
  fallback (cc (m r)) = NPYCRF_CC_MODE_ASCII /\
  ranges (cc (m r)) = None /\ range_count (cc (m r)) = 0 /\
  mode (cc (m r)) <> NPYCRF_CC_MODE_COMPAT.
Proof.
  intros H. unfold mmjp_model_load_bin in H.
  change (rd_bytes 8 (MMJP_MODEL_MAGIC_V1 ++ rest)) with (Some (MMJP_MODEL_MAGIC_V1, rest)) in H.
  cbn [orelse] in H.
  change (list_eqb MMJP_MODEL_MAGIC_V1 MMJP_MODEL_MAGIC) with false in H.
  change (list_eqb MMJP_MODEL_MAGIC_V1 MMJP_MODEL_MAGIC_V1) with true in H.
  cbv iota in H.
  step_reader H.
  destruct (negb _); [discriminate H|].
  destruct (negb _); [discriminate H|].
  destruct (_ || _); [discriminate H|].
  do 3 step_reader H.
  destruct (mem_limit <? _); [discriminate H|].
  do 3 step_reader H.
  do 4 step_reader H.
  change (0 <? 0) with false in H. cbn [orelse] in H.
  injection H as <-. cbn.
  repeat split. discriminate.
Qed.

Lemma load_v1_class_mode_witness :
  exists r, mmjp_model_load_bin 4096 (Some v1_file) = inr r /\
            mode (cc (m r)) = NPYCRF_CC_MODE_UTF8LEN.
Proof.
  eexists. split; [vm_compute; reflexivity|].
  pose proof (load_v1_class_mode 4096 (skipn 8 v1_file) _ eq_refl) as H.
  apply H.
Defined.

Import LosslessProofs.

(** * Saving a model and loading it again *)

Definition in_u8 (x : Z) : Prop := 0 <= x <= 255.
Definition in_u32 (x : Z) : Prop := 0 <= x <= 4294967295.

(** An array of [n] entries, or NULL when there are none. *)
Definition table {A} (P : A -> Prop) (a : option (list A)) (n : Z) : Prop :=
  match a with
  | Some l => 0 < n /\ Z.of_nat (length l) = n /\ Forall P l
  | None => n = 0
  end.

Definition range_ok (r : npycrf_cc_range_t) : Prop :=
  in_u32 (lo r) /\ in_u32 (hi r) /\ in_u8 (class_id r).

(** The fields hold values of their C types, the arrays have as many entries
    as their counts say and are NULL when the count is 0, and the model
    passes the checks of the loader: a trie of at least two cells, a
    vocabulary, and a positive [max_word_len]. *)
Record saveable (md : npycrf_model_t) : Prop := {
  sv_cap : 2 <= ro_capacity (trie (lm md)) <= 4294967295;
  sv_base : zlen (ro_base (trie (lm md))) = ro_capacity (trie (lm md)) /\
            Forall in_i32 (ro_base (trie (lm md)));
  sv_check : zlen (ro_check (trie (lm md))) = ro_capacity (trie (lm md)) /\
             Forall in_i32 (ro_check (trie (lm md)));
  sv_vocab : in_u32 (vocab_size (lm md)) /\ logp_uni (lm md) <> None /\
             table in_i16 (logp_uni (lm md)) (vocab_size (lm md));
  sv_bigram : in_u32 (bigram_size (lm md)) /\
              table in_u32 (bigram_key (lm md)) (bigram_size (lm md)) /\
              table in_i16 (logp_bi (lm md)) (bigram_size (lm md));
  sv_feat : in_u32 (feat_count (crf md)) /\
            table in_u32 (feat_key (crf md)) (feat_count (crf md)) /\
            table in_i16 (feat_w (crf md)) (feat_count (crf md));
  sv_lm : in_i16 (unk_base (lm md)) /\ in_i16 (unk_per_cp (lm md)) /\ in_i16 (lambda0 md);
  sv_trans : in_i16 (trans00 (crf md)) /\ in_i16 (trans01 (crf md)) /\
             in_i16 (trans10 (crf md)) /\ in_i16 (trans11 (crf md)) /\
             in_i16 (bos_to1 (crf md));
  sv_len : 1 <= max_word_len md <= 65535;
  sv_flags : in_u32 (flags md);
  sv_cc : in_u8 (mode (cc md)) /\ in_u8 (fallback (cc md)) /\
          in_u32 (range_count (cc md)) /\
          table range_ok (ranges (cc md)) (range_count (cc md))
}.

(** What the loader asks of [malloc]. *)
Definition model_bytes (md : npycrf_model_t) : Z :=
  ro_capacity (trie (lm md)) * 4 + ro_capacity (trie (lm md)) * 4
  + vocab_size (lm md) * 2 + bigram_size (lm md) * 4 + bigram_size (lm md) * 2
  + feat_count (crf md) * 4 + feat_count (crf md) * 2 + range_count (cc md) * 12.

(** ** One field *)

Lemma land_255 x : Z.land x 0xFF = x mod 256.
Proof. change 0xFF with (Z.ones 8). rewrite Z.land_ones by lia. reflexivity. Qed.

Lemma lor_low a q k : 0 <= k -> 0 <= a < 2 ^ k -> Z.lor a (Z.shiftl q k) = a + q * 2 ^ k.
Proof.
  intros Hk Ha. rewrite Z.shiftl_mul_pow2 by lia. rewrite Z.lor_comm.
  rewrite lor_mul_add by assumption. lia.
Qed.

Lemma rd_u32_wr v rest : in_u32 v -> rd_u32 (wr_u32 v ++ rest) = Some (v, rest).
Proof.
  intros Hv. unfold in_u32 in Hv. unfold rd_u32, wr_u32. cbn [app rd_bytes length Nat.leb firstn skipn].
  do 2 f_equal. rewrite !land_255, !Z.shiftr_div_pow2 by lia.
  change (2 ^ 8) with 256. change (2 ^ 16) with 65536. change (2 ^ 24) with 16777216.
  rewrite (lor_low (v mod 256) _ 8) by (try lia; apply Z.mod_pos_bound; lia).
  rewrite (lor_low _ _ 16)
    by (try lia; change (2 ^ 8) with 256; change (2 ^ 16) with 65536;
        Z.div_mod_to_equations; lia).
  rewrite (lor_low _ _ 24)
    by (try lia; change (2 ^ 8) with 256; change (2 ^ 16) with 65536;
        change (2 ^ 24) with 16777216; Z.div_mod_to_equations; lia).
  change (2 ^ 8) with 256. change (2 ^ 16) with 65536. change (2 ^ 24) with 16777216.
  Z.div_mod_to_equations. lia.
Qed.

Lemma rd_i16_wr v rest : in_i16 v -> rd_i16 (wr_i16 v ++ rest) = Some (v, rest).
Proof.
  intros Hv. unfold in_i16 in Hv. unfold rd_i16, wr_i16. cbv zeta.
  cbn [app rd_bytes length Nat.leb firstn skipn].
  do 2 f_equal. rewrite !land_255, !Z.shiftr_div_pow2 by lia.
  change (2 ^ 8) with 256.
  rewrite (lor_low _ _ 8) by (try lia; apply Z.mod_pos_bound; lia).
  unfold i16, wrap_s, u16, wrap_u. change (2 ^ 8) with 256.
  change (2 ^ 16) with 65536. change (2 ^ (16 - 1)) with 32768.
  Z.div_mod_to_equations. lia.
Qed.

Lemma rd_cc_range_wr r rest :
  range_ok r -> rd_cc_range (wr_cc_range r ++ rest) = Some (r, rest).
Proof.
  intros (Hlo & Hhi & Hc). unfold rd_cc_range, wr_cc_range.
  rewrite <- !app_assoc. rewrite rd_u32_wr by assumption. rewrite rd_u32_wr by assumption.
  cbn [app rd_bytes length Nat.leb firstn skipn].
  destruct r as [l h c]. cbn [lo hi class_id] in *. do 2 f_equal.
  f_equal. unfold zget. cbn. apply u8_small. unfold in_u8 in Hc. lia.
Qed.

(** ** A row of fields *)

Lemma rd_many_flat {A B} (r : reader A) (w : B -> list Z) (g : B -> A) (l : list B) rest :
  (forall x rest', In x l -> r (w x ++ rest') = Some (g x, rest')) ->
  rd_many r (length l) (flat_map w l ++ rest) = Some (map g l, rest).
Proof.
  induction l as [|x l IH]; intros H; cbn [length rd_many flat_map map app]; [reflexivity|].
  rewrite <- app_assoc. rewrite H by (left; reflexivity).
  rewrite IH by (intros y rest' Hy; apply H; right; exact Hy). reflexivity.
Qed.

Lemma rd_u32_row (l : list Z) rest :
  Forall in_u32 l -> rd_many rd_u32 (length l) (flat_map wr_u32 l ++ rest) = Some (l, rest).
Proof.
  intros H. rewrite (rd_many_flat rd_u32 wr_u32 (fun x => x)).
  - rewrite map_id. reflexivity.
  - intros x rest' Hx. apply rd_u32_wr. rewrite Forall_forall in H. apply H, Hx.
Qed.

Lemma rd_i16_row (l : list Z) rest :
  Forall in_i16 l -> rd_many rd_i16 (length l) (flat_map wr_i16 l ++ rest) = Some (l, rest).
Proof.
  intros H. rewrite (rd_many_flat rd_i16 wr_i16 (fun x => x)).
  - rewrite map_id. reflexivity.
  - intros x rest' Hx. apply rd_i16_wr. rewrite Forall_forall in H. apply H, Hx.
Qed.

Lemma range_length n : length (range 0 n) = Z.to_nat n.
Proof. unfold range. rewrite zseq_length. f_equal. lia. Qed.

Lemma map_nth_range {A} (l : list A) (d : A) :
  map (fun i => nth (Z.to_nat i) l d) (range 0 (Z.of_nat (length l))) = l.
Proof.
  induction l as [|x l IH] using rev_ind.
  - reflexivity.
  - rewrite length_app. cbn [length].
    replace (Z.of_nat (length l + 1)) with (Z.of_nat (length l) + 1) by lia.
    rewrite range_snoc by lia. rewrite map_app. cbn [map].
    rewrite Nat2Z.id, nth_middle. f_equal.
    rewrite <- IH at 2. apply map_ext_in. intros i Hi. apply in_range in Hi.
    apply app_nth1. lia.
Qed.

Lemma map_zget_range (l : list Z) : map (zget l) (range 0 (zlen l)) = l.
Proof.
  transitivity (map (fun i => nth (Z.to_nat i) l 0) (range 0 (Z.of_nat (length l))));
    [|apply map_nth_range].
  apply map_ext_in. intros i Hi. apply in_range in Hi.
  unfold zget. destruct (Z.ltb_spec i 0); [lia|reflexivity].
Qed.

Lemma zget_in (l : list Z) i : 0 <= i < zlen l -> In (zget l i) l.
Proof.
  intros H. unfold zget. destruct (Z.ltb_spec i 0); [lia|]. apply nth_In. unfold zlen in H. lia.
Qed.

Lemma i32_u32 x : in_i32 x -> i32 (u32 (i32 x)) = x.
Proof.
  intros H. rewrite (i32_id x) by assumption. unfold in_i32 in H.
  rewrite i32_unfold. unfold u32, wrap_u. change (2 ^ 32) with 4294967296.
  Z.div_mod_to_equations. lia.
Qed.

Lemma rd_cells (a : list Z) n rest :
  zlen a = n -> Forall in_i32 a ->
  rd_u32_array n (wr_cells a n ++ rest) = Some (map u32 a, rest).
Proof.
  intros Hn Ha. unfold rd_u32_array, wr_cells. rewrite <- (range_length n).
  rewrite (rd_many_flat rd_u32 _ (fun i => u32 (zget a i))).
  - do 2 f_equal. rewrite <- Hn.
    transitivity (map u32 (map (zget a) (range 0 (zlen a))));
      [rewrite map_map; reflexivity|rewrite map_zget_range; reflexivity].
  - intros i rest' Hi. apply in_range in Hi.
    rewrite (i32_id (zget a i)) by (rewrite Forall_forall in Ha; apply Ha, zget_in; lia).
    apply rd_u32_wr. unfold in_u32, u32, wrap_u.
    change (2 ^ 32) with 4294967296. Z.div_mod_to_equations. lia.
Qed.

Lemma map_i32_u32 (a : list Z) : Forall in_i32 a -> map i32 (map u32 a) = a.
Proof.
  intros Ha. rewrite map_map. transitivity (map (fun x : Z => x) a); [|apply map_id].
  apply map_ext_in. intros x Hx. rewrite Forall_forall in Ha. specialize (Ha x Hx).
  rewrite <- (i32_id x) at 1 by assumption. apply i32_u32. assumption.
Qed.

(** ** The optional arrays *)

Definition opt_u32 (a : option (list Z)) (n : Z) : list Z :=
  if 0 <? n then wr_u32_array a n else [].
Definition opt_i16 (a : option (list Z)) (n : Z) : list Z :=
  if 0 <? n then wr_i16_array a n else [].
Definition opt_ranges (rs : option (list npycrf_cc_range_t)) (n : Z) : list Z :=
  match rs with
  | Some l => if 0 <? n then flat_map (fun i => wr_cc_range (range_at l i)) (range 0 n) else []
  | None => []
  end.

Lemma rd_opt_u32 a n rest :
  table in_u32 a n ->
  (if 0 <? n
   then match rd_u32_array n (opt_u32 a n ++ rest) with
        | Some (x, f) => Some (Some x, f)
        | None => None
        end
   else Some (None, opt_u32 a n ++ rest)) = Some (a, rest).
Proof.
  unfold table, opt_u32. destruct a as [l|].
  - intros (Hn & Hl & Ha). destruct (Z.ltb_spec 0 n); [|lia].
    unfold rd_u32_array, wr_u32_array. rewrite <- (range_length n).
    rewrite (rd_many_flat rd_u32 _ (fun i => zget l i)).
    + do 3 f_equal. rewrite <- Hl. apply map_zget_range.
    + intros i rest' Hi. apply in_range in Hi. cbn [oget]. apply rd_u32_wr.
      rewrite Forall_forall in Ha. apply Ha, zget_in. unfold zlen. lia.
  - intros ->. reflexivity.
Qed.

Lemma rd_opt_i16 a n rest :
  table in_i16 a n ->
  (if 0 <? n
   then match rd_i16_array n (opt_i16 a n ++ rest) with
        | Some (x, f) => Some (Some x, f)
        | None => None
        end
   else Some (None, opt_i16 a n ++ rest)) = Some (a, rest).
Proof.
  unfold table, opt_i16. destruct a as [l|].
  - intros (Hn & Hl & Ha). destruct (Z.ltb_spec 0 n); [|lia].
    unfold rd_i16_array, wr_i16_array. rewrite <- (range_length n).
    rewrite (rd_many_flat rd_i16 _ (fun i => zget l i)).
    + do 3 f_equal. rewrite <- Hl. apply map_zget_range.
    + intros i rest' Hi. apply in_range in Hi. cbn [oget]. apply rd_i16_wr.
      rewrite Forall_forall in Ha. apply Ha, zget_in. unfold zlen. lia.
  - intros ->. reflexivity.
Qed.

Lemma rd_uni a n rest :
  a <> None -> table in_i16 a n ->
  rd_i16_array n (wr_i16_array a n ++ rest) = Some (match a with Some l => l | None => [] end, rest).
Proof.
  unfold table. destruct a as [l|]; [|congruence].
  intros _ (Hn & Hl & Ha).
  unfold rd_i16_array, wr_i16_array. rewrite <- (range_length n).
  rewrite (rd_many_flat rd_i16 _ (fun i => zget l i)).
  - do 2 f_equal. rewrite <- Hl. apply map_zget_range.
  - intros i rest' Hi. apply in_range in Hi. cbn [oget]. apply rd_i16_wr.
    rewrite Forall_forall in Ha. apply Ha, zget_in. unfold zlen. lia.
Qed.

Lemma rd_opt_ranges rs n rest :
  table range_ok rs n ->
  (if 0 <? n
   then match rd_many rd_cc_range (Z.to_nat n) (opt_ranges rs n ++ rest) with
        | Some (x, f) => Some (Some x, f)
        | None => None
        end
   else Some (None, opt_ranges rs n ++ rest)) = Some (rs, rest).
Proof.
  unfold table, opt_ranges. destruct rs as [l|].
  - intros (Hn & Hl & Ha). destruct (Z.ltb_spec 0 n); [|lia].
    rewrite <- (range_length n).
    rewrite (rd_many_flat rd_cc_range _ (fun i => range_at l i)).
    + do 3 f_equal. rewrite <- Hl. unfold range_at. apply map_nth_range.
    + intros i rest' Hi. apply in_range in Hi. apply rd_cc_range_wr.
      rewrite Forall_forall in Ha. apply Ha. unfold range_at. apply nth_In. lia.
  - intros ->. reflexivity.
Qed.

(** ** The header *)

Lemma rd_magic rest : rd_bytes 8 (MMJP_MODEL_MAGIC ++ rest) = Some (MMJP_MODEL_MAGIC, rest).
Proof. reflexivity. Qed.

Lemma rd_u32_5 a b c d e rest :
  in_u32 a -> in_u32 b -> in_u32 c -> in_u32 d -> in_u32 e ->
  rd_many rd_u32 5 (wr_u32 a ++ wr_u32 b ++ wr_u32 c ++ wr_u32 d ++ wr_u32 e ++ rest)
  = Some ([a; b; c; d; e], rest).
Proof.
  intros. apply (rd_u32_row [a; b; c; d; e] rest). repeat (apply Forall_cons; [assumption|]); apply Forall_nil.
Qed.

Lemma rd_u32_2 a b rest :
  in_u32 a -> in_u32 b ->
  rd_many rd_u32 2 (wr_u32 a ++ wr_u32 b ++ rest) = Some ([a; b], rest).
Proof. intros. apply (rd_u32_row [a; b] rest). repeat (apply Forall_cons; [assumption|]); apply Forall_nil. Qed.

Lemma rd_i16_3 a b c rest :
  in_i16 a -> in_i16 b -> in_i16 c ->
  rd_many rd_i16 3 (wr_i16 a ++ wr_i16 b ++ wr_i16 c ++ rest) = Some ([a; b; c], rest).
Proof. intros. apply (rd_i16_row [a; b; c] rest). repeat (apply Forall_cons; [assumption|]); apply Forall_nil. Qed.

Lemma rd_i16_5 a b c d e rest :
  in_i16 a -> in_i16 b -> in_i16 c -> in_i16 d -> in_i16 e ->
  rd_many rd_i16 5 (wr_i16 a ++ wr_i16 b ++ wr_i16 c ++ wr_i16 d ++ wr_i16 e ++ rest)
  = Some ([a; b; c; d; e], rest).
Proof.
  intros. apply (rd_i16_row [a; b; c; d; e] rest). repeat (apply Forall_cons; [assumption|]); apply Forall_nil.
Qed.

Lemma rd_v2 fl mo fb rc rest :
  in_u32 fl -> in_u32 rc ->
  match rd_u32 (wr_u32 fl ++ [mo; fb; 0; 0] ++ wr_u32 rc ++ rest) with
  | Some (flags_, f) =>
    match rd_bytes 4 f with
    | Some (buf4, f) =>
      match rd_u32 f with
      | Some (n, f) => Some (flags_, zget buf4 0, zget buf4 1, n, f)
      | None => None
      end
    | None => None
    end
  | None => None
  end = Some (fl, mo, fb, rc, rest).
Proof.
  intros Hfl Hrc. rewrite rd_u32_wr by assumption.
  cbn [app rd_bytes length Nat.leb firstn skipn].
  rewrite rd_u32_wr by assumption. reflexivity.
Qed.

(** The bytes of the file, field after field. *)
Definition file_of (md : npycrf_model_t) : list Z :=
  MMJP_MODEL_MAGIC
  ++ wr_u32 MMJP_MODEL_VERSION ++ wr_u32 MMJP_DA_INDEX_BYTES
  ++ wr_u32 (u32 (ro_capacity (trie (lm md)))) ++ wr_u32 (u32 (vocab_size (lm md)))
  ++ wr_u32 (u32 (max_word_len md))
  ++ wr_i16 (unk_base (lm md)) ++ wr_i16 (unk_per_cp (lm md)) ++ wr_i16 (lambda0 md)
  ++ wr_i16 (trans00 (crf md)) ++ wr_i16 (trans01 (crf md)) ++ wr_i16 (trans10 (crf md))
  ++ wr_i16 (trans11 (crf md)) ++ wr_i16 (bos_to1 (crf md))
  ++ wr_u32 (feat_count (crf md)) ++ wr_u32 (bigram_size (lm md))
  ++ wr_u32 (flags md) ++ [u8 (mode (cc md)); u8 (fallback (cc md)); 0; 0]
  ++ wr_u32 (range_count (cc md))
  ++ wr_cells (ro_base (trie (lm md))) (ro_capacity (trie (lm md)))
  ++ wr_cells (ro_check (trie (lm md))) (ro_capacity (trie (lm md)))
  ++ wr_i16_array (logp_uni (lm md)) (vocab_size (lm md))
  ++ opt_u32 (bigram_key (lm md)) (bigram_size (lm md))
  ++ opt_i16 (logp_bi (lm md)) (bigram_size (lm md))
  ++ opt_u32 (feat_key (crf md)) (feat_count (crf md))
  ++ opt_i16 (feat_w (crf md)) (feat_count (crf md))
  ++ opt_ranges (ranges (cc md)) (range_count (cc md)) ++ [].

Lemma table_null {A} (P : A -> Prop) a n : table P a n -> (0 <? n) = negb (is_null a).
Proof.
  unfold table. destruct a as [l|]; cbn [is_null negb].
  - intros (Hn & _). apply Z.ltb_lt. exact Hn.
  - intros ->. reflexivity.
Qed.

Lemma save_file md :
  saveable md -> mmjp_model_save_bin true md = (0, Some (file_of md)).
Proof.
  intros [Hcap _ _ (Hv & Hu & Tu) (_ & Tbk & Tbl) (_ & Tfk & Tfw) _ _ _ _ (_ & _ & _ & Trs)].
  unfold mmjp_model_save_bin.
  destruct (Z.eqb_spec (ro_capacity (trie (lm md))) 0); [lia|].
  assert (Hvn : 0 < vocab_size (lm md)).
  { unfold table in Tu. destruct (logp_uni (lm md)); [apply Tu|congruence]. }
  destruct (Z.eqb_spec (vocab_size (lm md)) 0); [lia|].
  destruct (logp_uni (lm md)) as [lu|] eqn:Eu; [|congruence]. cbn [is_null orb negb].
  cbv zeta.
  pose proof (table_null _ _ _ Tbk) as Nbk. pose proof (table_null _ _ _ Tbl) as Nbl.
  pose proof (table_null _ _ _ Tfk) as Nfk. pose proof (table_null _ _ _ Tfw) as Nfw.
  pose proof (table_null _ _ _ Trs) as Nrs.
  unfold file_of, opt_u32, opt_i16, opt_ranges. rewrite Eu.
  destruct (is_null (bigram_key (lm md))) eqn:E1; destruct (is_null (logp_bi (lm md))) eqn:E2;
    cbn [negb] in Nbk, Nbl; try congruence; rewrite Nbk; cbn [andb orb];
  destruct (is_null (feat_key (crf md))) eqn:E3; destruct (is_null (feat_w (crf md))) eqn:E4;
    cbn [negb] in Nfk, Nfw; try congruence; rewrite Nfk; cbn [andb orb];
  destruct (ranges (cc md)) as [rs|]; cbn [is_null negb] in Nrs; try rewrite Nrs;
  do 2 f_equal; rewrite <- ?app_assoc, ?app_nil_r; reflexivity.
Qed.

Lemma u32_in x : in_u32 x -> u32 x = x.
Proof.
  unfold in_u32, u32, wrap_u. intros H. apply Z.mod_small.
  change (2 ^ 32) with 4294967296. lia.
Qed.

Lemma zg0 a l : zget (a :: l) 0 = a.
Proof. reflexivity. Qed.
Lemma zg1 a b l : zget (a :: b :: l) 1 = b.
Proof. reflexivity. Qed.
Lemma zg2 a b c l : zget (a :: b :: c :: l) 2 = c.
Proof. reflexivity. Qed.
Lemma zg3 a b c d l : zget (a :: b :: c :: d :: l) 3 = d.
Proof. reflexivity. Qed.
Lemma zg4 a b c d e l : zget (a :: b :: c :: d :: e :: l) 4 = e.
Proof. reflexivity. Qed.

Ltac fields := rewrite ?zg0, ?zg1, ?zg2, ?zg3, ?zg4.

Lemma load_file mem_limit md :
  saveable md -> model_bytes md <= mem_limit ->
  mmjp_model_load_bin mem_limit (Some (file_of md)) =
  inr {| m := md; cc_ranges_count := range_count (cc md); owned_bytes := model_bytes md |}.
Proof.
  intros [Hcap (Hb1 & Hb2) (Hc1 & Hc2) (Hv & Hu & Tu) (Hbs & Tbk & Tbl) (Hfc & Tfk & Tfw)
               (L1 & L2 & L3) (T1 & T2 & T3 & T4 & T5) Hlen Hfl (Hmo & Hfb & Hrc & Trs)] Hmem.
  unfold model_bytes in *.
  destruct md as [[t00 t01 t10 t11 bos fk fw fc] [[b c cap] lu vs bk lb bs ub upc] l0 mwl fl
                  [mo fb rs rc]].
  cbn [crf lm lambda0 max_word_len flags cc trans00 trans01 trans10 trans11 bos_to1
       feat_key feat_w feat_count trie logp_uni vocab_size bigram_key logp_bi bigram_size
       unk_base unk_per_cp ro_base ro_check ro_capacity mode fallback ranges range_count] in *.
  assert (Hvn : 0 < vs).
  { unfold table in Tu. destruct lu; [apply Tu|congruence]. }
  unfold mmjp_model_load_bin, file_of.
  cbn [crf lm lambda0 max_word_len flags cc trans00 trans01 trans10 trans11 bos_to1
       feat_key feat_w feat_count trie logp_uni vocab_size bigram_key logp_bi bigram_size
       unk_base unk_per_cp ro_base ro_check ro_capacity mode fallback ranges range_count].
  rewrite rd_magic. cbn [orelse].
  change (list_eqb MMJP_MODEL_MAGIC MMJP_MODEL_MAGIC) with true. cbv iota.
  rewrite (u32_in cap) by (unfold in_u32; lia).
  rewrite (u32_in vs) by assumption.
  rewrite (u32_in mwl) by (unfold in_u32; lia).
  rewrite (u8_small mo) by (unfold in_u8 in Hmo; lia).
  rewrite (u8_small fb) by (unfold in_u8 in Hfb; lia).
  rewrite rd_u32_5
    by (try assumption; unfold in_u32, MMJP_MODEL_VERSION, MMJP_DA_INDEX_BYTES; lia).
  cbn [orelse]. cbv zeta. fields.
  rewrite !Z.eqb_refl. cbn [negb].
  destruct (Z.ltb_spec cap 2); [lia|].
  destruct (Z.eqb_spec vs 0); [lia|].
  destruct (Z.eqb_spec mwl 0); [lia|]. cbn [orb].
  rewrite rd_i16_3 by assumption. cbn [orelse].
  rewrite rd_i16_5 by assumption. cbn [orelse].
  rewrite rd_u32_2 by assumption. cbn [orelse].
  rewrite rd_v2 by assumption. cbn [orelse]. fields.
  destruct (Z.ltb_spec mem_limit
              (cap * 4 + cap * 4 + vs * 2 + bs * 4 + bs * 2 + fc * 4 + fc * 2 + rc * 12));
    [lia|].
  rewrite rd_cells by assumption. cbn [orelse].
  rewrite rd_cells by assumption. cbn [orelse].
  rewrite rd_uni by assumption. cbn [orelse].
  rewrite rd_opt_u32 by assumption. cbn [orelse].
  rewrite rd_opt_i16 by assumption. cbn [orelse].
  rewrite rd_opt_u32 by assumption. cbn [orelse].
  rewrite rd_opt_i16 by assumption. cbn [orelse].
  cbn [negb]. rewrite rd_opt_ranges by assumption. cbn [orelse]. fields.
  rewrite !map_i32_u32 by assumption.
  replace (u16 mwl) with mwl
    by (unfold u16, wrap_u; symmetry; apply Z.mod_small; change (2 ^ 16) with 65536; lia).
  destruct lu as [lu|]; [reflexivity|congruence].
Qed.

(** A model that [mmjp_model_save_bin] saved is the model that
    [mmjp_model_load_bin] loads from the file: every field and every array
    comes back as it was.  The model holds values of its C types, arrays as
    long as their counts (NULL when the count is 0), a trie of at least two
    cells and a positive [max_word_len]; the host is little-endian and
    [malloc] can give the bytes of the arrays. *)
Theorem saved_model_loads_back (mem_limit : Z) (md : npycrf_model_t) :
  saveable md -> model_bytes md <= mem_limit ->
  exists f,
    mmjp_model_save_bin true md = (0, Some f) /\
    mmjp_model_load_bin mem_limit (Some f) =
    inr {| m := md; cc_ranges_count := range_count (cc md);
           owned_bytes := model_bytes md |}.
Proof.
  intros Hs Hmem. exists (file_of md). split.
  - apply save_file. exact Hs.
  - apply load_file; assumption.
Qed.

Definition ex_saved : npycrf_model_t :=
  {| crf := {| trans00 := 0; trans01 := -3; trans10 := 5; trans11 := 0; bos_to1 := 12;
               feat_key := None; feat_w := None; feat_count := 0 |};
     lm := {| trie := {| ro_base := [0; 1]; ro_check := [0; 1]; ro_capacity := 2 |};
              logp_uni := Some [-177];
              vocab_size := 1;
              bigram_key := Some [65537]; logp_bi := Some [-5];
              bigram_size := 1;
              unk_base := -1280; unk_per_cp := -256 |};
     lambda0 := 256;
     max_word_len := 2;
     flags := 1024;
     cc := {| mode := NPYCRF_CC_MODE_RANGES; fallback := NPYCRF_CC_MODE_UTF8LEN;
              ranges := Some [{| lo := 0x3040; hi := 0x309F; class_id := 3 |}];
              range_count := 1 |} |}.

Lemma ex_saved_saveable : saveable ex_saved.
Proof.
  constructor; unfold ex_saved, table, range_ok, in_u32, in_u8, in_i16, in_i32, zlen;
    cbn [crf lm lambda0 max_word_len flags cc trans00 trans01 trans10 trans11 bos_to1
         feat_key feat_w feat_count trie logp_uni vocab_size bigram_key logp_bi bigram_size
         unk_base unk_per_cp ro_base ro_check ro_capacity mode fallback ranges range_count
         length lo hi class_id];
    unfold NPYCRF_CC_MODE_RANGES, NPYCRF_CC_MODE_UTF8LEN;
    repeat match goal with
           | |- _ /\ _ => split
           | |- Forall _ (_ :: _) => apply Forall_cons
           | |- Forall _ [] => apply Forall_nil
           | |- Some _ <> None => discriminate
           | |- _ => cbn [lo hi class_id]; lia
           end.
Qed.

Lemma saved_model_loads_back_witness :
  exists f,
    mmjp_model_save_bin true ex_saved = (0, Some f) /\
    mmjp_model_load_bin 4096 (Some f) =
    inr {| m := ex_saved; cc_ranges_count := range_count (cc ex_saved);
           owned_bytes := model_bytes ex_saved |}.
Proof.
  apply (saved_model_loads_back 4096 ex_saved).
  - exact ex_saved_saveable.
  - vm_compute. discriminate.
Defined.

(** ** What the saver does not check *)

Lemma in_u32_u32 x : in_u32 (u32 x).
Proof.
  unfold in_u32, u32, wrap_u. change (2 ^ 32) with 4294967296.
  pose proof (Z.mod_pos_bound x 4294967296 ltac:(lia)). lia.
Qed.

Lemma saved_bytes (rc rc' : Z) (a b : list Z) : (rc, Some a) = (rc', Some b) -> a = b.
Proof. intros H. congruence. Qed.

Lemma save_header md f :
  mmjp_model_save_bin true md = (0, Some f) ->
  exists rest,
    f = MMJP_MODEL_MAGIC ++ wr_u32 MMJP_MODEL_VERSION ++ wr_u32 MMJP_DA_INDEX_BYTES
        ++ wr_u32 (u32 (ro_capacity (trie (lm md)))) ++ wr_u32 (u32 (vocab_size (lm md)))
        ++ wr_u32 (u32 (max_word_len md)) ++ rest.
Proof.
  unfold mmjp_model_save_bin. intros H.
  destruct (ro_capacity (trie (lm md)) =? 0); [discriminate H|].
  destruct (is_null (logp_uni (lm md)) || (vocab_size (lm md) =? 0)); [discriminate H|].
  cbn [negb] in H. cbv zeta in H.
  destruct ((0 <? bigram_size (lm md)) && _); [discriminate H|].
  destruct ((0 <? feat_count (crf md)) && _); [discriminate H|].
  apply saved_bytes in H. subst f.
  destruct (0 <? bigram_size (lm md)); destruct (0 <? feat_count (crf md));
    destruct (ranges (cc md)); try destruct (0 <? range_count (cc md));
    eexists; rewrite <- !app_assoc; reflexivity.
Qed.

(** [mmjp_model_save_bin] checks neither [max_word_len] nor that the trie
    has two cells: it saves a model with [max_word_len = 0], or with a trie
    of one cell, and returns 0, and [mmjp_model_load_bin] rejects the file
    it wrote with -16. *)
Theorem saved_model_can_be_rejected (mem_limit : Z) (md : npycrf_model_t) (f : list Z) :
  mmjp_model_save_bin true md = (0, Some f) ->
  max_word_len md = 0 \/ ro_capacity (trie (lm md)) = 1 ->
  mmjp_model_load_bin mem_limit (Some f) = inl (-16).
Proof.
  intros Hsave Hbad. destruct (save_header md f Hsave) as (rest & ->).
  unfold mmjp_model_load_bin.
  rewrite rd_magic. cbn [orelse].
  change (list_eqb MMJP_MODEL_MAGIC MMJP_MODEL_MAGIC) with true. cbv iota.
  rewrite rd_u32_5
    by (try apply in_u32_u32; unfold in_u32, MMJP_MODEL_VERSION, MMJP_DA_INDEX_BYTES; lia).
  cbn [orelse]. cbv zeta. fields.
  rewrite !Z.eqb_refl. cbn [negb].
  destruct Hbad as [->| ->].
  - change (u32 0 =? 0) with true. rewrite orb_true_r. reflexivity.
  - change (u32 1 <? 2) with true. reflexivity.
Qed.

Definition ex_unloadable : npycrf_model_t :=
  {| crf := crf ex_saved; lm := lm ex_saved; lambda0 := 256; max_word_len := 0;
     flags := 1024; cc := cc ex_saved |}.

Lemma saved_model_can_be_rejected_witness :
  fst (mmjp_model_save_bin true ex_unloadable) = 0 /\
  mmjp_model_load_bin 4096 (snd (mmjp_model_save_bin true ex_unloadable)) = inl (-16).
Proof.
  split; [reflexivity|].
  apply (saved_model_can_be_rejected 4096 ex_unloadable).
  - vm_compute. reflexivity.
  - left. reflexivity.
Defined.

(** ** What follows the model in the file *)

(** A reader that succeeds succeeds on a longer file, with the same value. *)
Definition steady {A} (r : reader A) : Prop :=
  forall f x f' ext, r f = Some (x, f') -> r (f ++ ext) = Some (x, f' ++ ext).

Lemma steady_bytes n : steady (rd_bytes n).
Proof.
  intros f x f' ext. unfold rd_bytes.
  destruct (Nat.leb_spec n (length f)) as [Hn|Hn]; [|discriminate].
  intros [= <- <-]. rewrite length_app.
  destruct (Nat.leb_spec n (length f + length ext)); [|lia].
  rewrite firstn_app, skipn_app.
  replace (n - length f)%nat with O by lia. cbn [firstn skipn].
  rewrite app_nil_r. reflexivity.
Qed.

Lemma steady_u32 : steady rd_u32.
Proof.
  intros f x f' ext. unfold rd_u32.
  destruct (rd_bytes 4 f) as [[bs g]|] eqn:E; [|discriminate].
  rewrite (steady_bytes 4 f bs g ext E).
  destruct bs as [|b0 [|b1 [|b2 [|b3 [|? ?]]]]]; try discriminate.
  intros [= <- <-]. reflexivity.
Qed.

Lemma steady_i16 : steady rd_i16.
Proof.
  intros f x f' ext. unfold rd_i16.
  destruct (rd_bytes 2 f) as [[bs g]|] eqn:E; [|discriminate].
  rewrite (steady_bytes 2 f bs g ext E).
  destruct bs as [|b0 [|b1 [|? ?]]]; try discriminate.
  intros [= <- <-]. reflexivity.
Qed.

Lemma steady_many {A} (r : reader A) n : steady r -> steady (rd_many r n).
Proof.
  intros Hr. induction n as [|n IH]; intros f x f' ext; cbn [rd_many].
  - intros [= <- <-]. reflexivity.
  - destruct (r f) as [[y g]|] eqn:E; [|discriminate].
    rewrite (Hr f y g ext E).
    destruct (rd_many r n g) as [[ys h]|] eqn:E2; [|discriminate].
    rewrite (IH g ys h ext E2). intros [= <- <-]. reflexivity.
Qed.

Lemma steady_cc_range : steady rd_cc_range.
Proof.
  intros f x f' ext. unfold rd_cc_range.
  destruct (rd_u32 f) as [[a g]|] eqn:E1; [|discriminate].
  rewrite (steady_u32 f a g ext E1).
  destruct (rd_u32 g) as [[b h]|] eqn:E2; [|discriminate].
  rewrite (steady_u32 g b h ext E2).
  destruct (rd_bytes 4 h) as [[c k]|] eqn:E3; [|discriminate].
  rewrite (steady_bytes 4 h c k ext E3).
  intros [= <- <-]. reflexivity.
Qed.

(** An optional array. *)
Definition rd_opt {A} (b : bool) (r : reader A) : reader (option A) :=
  fun f => if b then match r f with
                     | Some (a, f) => Some (Some a, f)
                     | None => None
                     end
           else Some (None, f).

Lemma steady_opt {A} b (r : reader A) : steady r -> steady (rd_opt b r).
Proof.
  intros Hr f x f' ext. unfold rd_opt. destruct b.
  - destruct (r f) as [[a g]|] eqn:E; [|discriminate].
    rewrite (Hr f a g ext E). intros [= <- <-]. reflexivity.
  - intros [= <- <-]. reflexivity.
Qed.

(** The four fields that version 2 added to the header. *)
Definition rd_v2_fields : reader (Z * Z * Z * Z) :=
  fun f =>
    match rd_u32 f with
    | Some (flags_, f) =>
      match rd_bytes 4 f with
      | Some (buf4, f) =>
        match rd_u32 f with
        | Some (n, f) => Some (flags_, zget buf4 0, zget buf4 1, n, f)
        | None => None
        end
      | None => None
      end
    | None => None
    end.

Lemma steady_v2_fields f fl mo fb n f' ext :
  rd_v2_fields f = Some (fl, mo, fb, n, f') ->
  rd_v2_fields (f ++ ext) = Some (fl, mo, fb, n, f' ++ ext).
Proof.
  unfold rd_v2_fields.
  destruct (rd_u32 f) as [[a g]|] eqn:E1; [|discriminate].
  rewrite (steady_u32 f a g ext E1).
  destruct (rd_bytes 4 g) as [[c h]|] eqn:E2; [|discriminate].
  rewrite (steady_bytes 4 g c h ext E2).
  destruct (rd_u32 h) as [[b k]|] eqn:E3; [|discriminate].
  rewrite (steady_u32 h b k ext E3).
  intros [= <- <- <- <- <-]. reflexivity.
Qed.

Lemma steady_u32_array n : steady (rd_u32_array n).
Proof. apply steady_many, steady_u32. Qed.

Lemma steady_i16_array n : steady (rd_i16_array n).
Proof. apply steady_many, steady_i16. Qed.

Lemma steady_ranges k : steady (rd_many rd_cc_range k).
Proof. apply steady_many, steady_cc_range. Qed.

Ltac rstep L ext :=
  match goal with
  | |- context [orelse _ ?e] =>
    let x := fresh "x" in
    let g := fresh "g" in
    let E := fresh "E" in
    destruct e as [[x g]|] eqn:E; cbn [orelse];
    [rewrite (L _ _ _ ext E); cbn [orelse]|intros H; discriminate H]
  end.

Ltac nstep L ext :=
  match goal with
  | |- context [orelse _ ?e] =>
    let x := fresh "x" in
    let g := fresh "g" in
    let E := fresh "E" in
    destruct e as [[x g]|] eqn:E; cbn [orelse];
    [rewrite (L _ _ _ _ ext E); cbn [orelse]|intros H; discriminate H]
  end.

Ltac ostep L ext :=
  match goal with
  | |- context [orelse _ ?e] =>
    match e with
    | (if ?b then match ?r ?f0 with _ => _ end else _) =>
      let x := fresh "x" in
      let g := fresh "g" in
      let E := fresh "E" in
      let E' := fresh "E" in
      destruct e as [[x g]|] eqn:E; cbn [orelse];
      [pose proof (steady_opt b r (L _) f0 x g ext E) as E'; unfold rd_opt in E';
       rewrite E'; cbn [orelse]
      |intros H; discriminate H]
    end
  end.

Ltac arrays ext :=
  match goal with |- context [if ?c <? ?d then inl (-20) else _] => destruct (c <? d) end;
  [intros H; discriminate H|];
  nstep steady_u32_array ext;
  nstep steady_u32_array ext;
  nstep steady_i16_array ext;
  ostep steady_u32_array ext;
  ostep steady_i16_array ext;
  ostep steady_u32_array ext;
  ostep steady_i16_array ext.

(** [mmjp_model_load_bin] reads what the header announces and no more: a
    file that loads still loads, into the same model, with any bytes added
    at its end. *)
Theorem load_ignores_trailing_bytes (mem_limit : Z) (f ext : list Z)
        (r : mmjp_loaded_model_t) :
  mmjp_model_load_bin mem_limit (Some f) = inr r ->
  mmjp_model_load_bin mem_limit (Some (f ++ ext)) = inr r.
Proof.
  unfold mmjp_model_load_bin.
  rstep (steady_bytes 8) ext.
  destruct (list_eqb x MMJP_MODEL_MAGIC); [|destruct (list_eqb x MMJP_MODEL_MAGIC_V1)].
  - (* version 2 *)
    rstep (steady_many rd_u32 5 steady_u32) ext.
    destruct (negb _); [intros H; discriminate H|].
    destruct (negb _); [intros H; discriminate H|].
    destruct (_ || _); [intros H; discriminate H|].
    rstep (steady_many rd_i16 3 steady_i16) ext.
    rstep (steady_many rd_i16 5 steady_i16) ext.
    rstep (steady_many rd_u32 2 steady_u32) ext.
    match goal with
    | |- context [orelse _ ?e] =>
      destruct e as [[[[[fl mo] fb] n] g4]|] eqn:E4; cbn [orelse];
        [|intros H; discriminate H]
    end.
    pose proof (steady_v2_fields _ _ _ _ _ _ ext E4) as E4'.
    unfold rd_v2_fields in E4'. rewrite E4'. cbn [orelse].
    arrays ext. cbn [negb].
    ostep steady_ranges ext.
    intros H. exact H.
  - (* version 1 *)
    rstep (steady_many rd_u32 5 steady_u32) ext.
    destruct (negb _); [intros H; discriminate H|].
    destruct (negb _); [intros H; discriminate H|].
    destruct (_ || _); [intros H; discriminate H|].
    rstep (steady_many rd_i16 3 steady_i16) ext.
    rstep (steady_many rd_i16 5 steady_i16) ext.
    rstep (steady_many rd_u32 2 steady_u32) ext.
    arrays ext.
    change (0 <? 0) with false. cbn [orelse].
    intros H. exact H.
  - intros H. discriminate H.
Qed.

Lemma load_ignores_trailing_bytes_witness :
  exists r, mmjp_model_load_bin 4096 (Some (v1_file ++ [1; 2; 3])) = inr r /\
            mmjp_model_load_bin 4096 (Some v1_file) = inr r.
Proof.
  assert (H : exists r, mmjp_model_load_bin 4096 (Some v1_file) = inr r).
  { eexists. vm_compute. reflexivity. }
  destruct H as (r & H). exists r. split; [|exact H].
  apply (load_ignores_trailing_bytes 4096 v1_file [1; 2; 3] r). exact H.
Defined.

End ModelIOProofs.

(** ** The double-array trie *)
Module TrieProofs.

Import Mem MemFacts DA.

(** ** The trie a double array stands for

    A node of the trie is the path of codes that leads to it from the root;
    [P] holds the paths that are nodes and [phi] gives the cell of each. *)

Definition path : Type := list Z.

Record Rep (d : da_trie_t) (P : path -> Prop) (phi : path -> Z) : Prop := {
  rep_len : zlen (check d) = zlen (base d);
  rep_cap : 2 <= capacity d;
  rep_root : phi [] = DA_ROOT /\ zget (check d) DA_ROOT = DA_ROOT /\ P [];
  rep_closed : forall w c, P (w ++ [c]) -> P w /\ 0 <= c <= 255;
  rep_range : forall w, P w -> 1 <= phi w < capacity d;
  rep_edge : forall w c, P (w ++ [c]) ->
                         0 < zget (base d) (phi w) /\
                         phi (w ++ [c]) = zget (base d) (phi w) + c /\
                         zget (check d) (phi (w ++ [c])) = phi w /\
                         phi (w ++ [c]) <> phi w;
  rep_inj : forall w w', P w -> P w' -> phi w = phi w' -> w = w';
  rep_used : forall s, 0 <= s < capacity d -> zget (check d) s <> 0 ->
                       exists w, P w /\ phi w = s
}.

Lemma snoc_cases (w : path) : w = [] \/ exists u c, w = u ++ [c].
Proof.
  destruct (rev w) as [|c r] eqn:E.
  - left. apply (f_equal (@rev Z)) in E. rewrite rev_involutive in E. exact E.
  - right. exists (rev r), c. apply (f_equal (@rev Z)) in E.
    rewrite rev_involutive in E. simpl in E. exact E.
Qed.

Lemma snoc_inj (u u' : path) (c c' : Z) : u ++ [c] = u' ++ [c'] -> u = u' /\ c = c'.
Proof. intros H. apply app_inj_tail in H. exact H. Qed.

Section Facts.

Variables (d : da_trie_t) (P : path -> Prop) (phi : path -> Z).
Hypothesis HR : Rep d P phi.

Lemma rep_init : da_is_initialized d = true.
Proof. unfold da_is_initialized, DA_ROOT. apply Z.ltb_lt. pose proof (rep_cap _ _ _ HR). lia. Qed.

Lemma rep_nonroot w : P w -> w <> [] -> phi w <> DA_ROOT.
Proof.
  intros Hw Hne E. destruct (rep_root _ _ _ HR) as (R1 & _ & R3).
  apply Hne. apply (rep_inj _ _ _ HR); [assumption|assumption|congruence].
Qed.

(** The check of every cell is a cell, or 0 for a free one. *)
Lemma rep_check_nonneg s : 0 <= zget (check d) s.
Proof.
  destruct (Z.eq_dec (zget (check d) s) 0) as [E|E]; [lia|].
  assert (Hs : 0 <= s < capacity d).
  { unfold capacity. rewrite <- (rep_len _ _ _ HR).
    destruct (Z.lt_ge_cases s 0); [rewrite zget_neg in E by assumption; lia|].
    destruct (Z.lt_ge_cases s (zlen (check d))); [lia|].
    rewrite zget_out in E by assumption. lia. }
  destruct (rep_used _ _ _ HR s Hs E) as (w & Hw & <-).
  destruct (snoc_cases w) as [->|(u & c & ->)].
  - destruct (rep_root _ _ _ HR) as (R1 & R2 & _). rewrite R1, R2. unfold DA_ROOT. lia.
  - destruct (rep_edge _ _ _ HR u c Hw) as (_ & _ & E3 & _). rewrite E3.
    destruct (rep_closed _ _ _ HR u c Hw) as (Hu & _).
    pose proof (rep_range _ _ _ HR u Hu). lia.
Qed.

(** A used cell whose check is a node's cell is a child of that node. *)
Lemma rep_child_of u s :
  P u -> 0 <= s < capacity d -> zget (check d) s = phi u -> s <> phi u ->
  exists c, P (u ++ [c]) /\ phi (u ++ [c]) = s /\ s = zget (base d) (phi u) + c.
Proof.
  intros Hu Hs Hc Hne.
  pose proof (rep_range _ _ _ HR u Hu) as Hr.
  destruct (rep_used _ _ _ HR s Hs ltac:(lia)) as (w & Hw & Hphi).
  destruct (snoc_cases w) as [->|(u' & c & ->)].
  - destruct (rep_root _ _ _ HR) as (R1 & R2 & R3).
    exfalso. apply Hne. rewrite <- Hphi, R1 in *. congruence.
  - destruct (rep_edge _ _ _ HR u' c Hw) as (E1 & E2 & E3 & E4).
    destruct (rep_closed _ _ _ HR u' c Hw) as (Hu' & _).
    assert (u' = u) by (apply (rep_inj _ _ _ HR); [assumption|assumption|congruence]).
    subst u'. exists c. split; [assumption|]. split; [assumption|]. rewrite <- Hphi. exact E2.
Qed.

(** [da_next] is the transition function of the trie. *)
Lemma rep_next_in u c : P (u ++ [c]) -> da_next d (phi u) c = phi (u ++ [c]).
Proof.
  intros Hw. destruct (rep_closed _ _ _ HR u c Hw) as (Hu & Hc).
  destruct (rep_edge _ _ _ HR u c Hw) as (E1 & E2 & E3 & E4).
  pose proof (rep_range _ _ _ HR u Hu) as Hr.
  pose proof (rep_range _ _ _ HR _ Hw) as Hr'.
  unfold da_next. rewrite rep_init. cbn [negb].
  destruct (Z.leb_spec (phi u) 0); [lia|]. destruct (Z.leb_spec (capacity d) (phi u)); [lia|].
  cbn [orb]. destruct (Z.leb_spec (zget (base d) (phi u)) 0); [lia|].
  rewrite <- E2.
  destruct (Z.leb_spec (capacity d) (phi (u ++ [c]))); [lia|].
  destruct (Z.eqb_spec (phi (u ++ [c])) (phi u)); [contradiction|].
  rewrite E3, Z.eqb_refl. reflexivity.
Qed.

Lemma rep_next_out u c : P u -> 0 <= c -> ~ P (u ++ [c]) -> da_next d (phi u) c = 0.
Proof.
  intros Hu Hc Hw.
  pose proof (rep_range _ _ _ HR u Hu) as Hr.
  unfold da_next. rewrite rep_init. cbn [negb].
  destruct (Z.leb_spec (phi u) 0); [lia|]. destruct (Z.leb_spec (capacity d) (phi u)); [lia|].
  cbn [orb]. destruct (Z.leb_spec (zget (base d) (phi u)) 0); [reflexivity|].
  destruct (Z.leb_spec (capacity d) (zget (base d) (phi u) + c)); [reflexivity|].
  destruct (Z.eqb_spec (zget (base d) (phi u) + c) (phi u)); [reflexivity|].
  destruct (Z.eqb_spec (zget (check d) (zget (base d) (phi u) + c)) (phi u)) as [E|E];
    [|reflexivity].
  exfalso.
  destruct (rep_child_of u (zget (base d) (phi u) + c) Hu ltac:(lia) E n) as (c' & Hc' & _ & Heq).
  assert (c' = c) by lia. subst c'. contradiction.
Qed.

Lemma rep_next_nonzero u c : P (u ++ [c]) -> da_next d (phi u) c <> 0.
Proof.
  intros Hw. rewrite rep_next_in by assumption.
  pose proof (rep_range _ _ _ HR _ Hw). lia.
Qed.

(** Walking the codes of [w] from the node [u]. *)
Lemma rep_walk_in (w : path) : forall u, P (u ++ w) -> da_walk d w (phi u) = phi (u ++ w).
Proof.
  induction w as [|c w IH]; intros u Hw.
  - rewrite app_nil_r. reflexivity.
  - cbn [da_walk].
    assert (Huc : P (u ++ [c])).
    { clear IH. revert Hw. replace (u ++ c :: w) with ((u ++ [c]) ++ w)
        by (rewrite <- app_assoc; reflexivity).
      generalize (u ++ [c]) as v. intros v.
      induction w as [|c' w IHw] using rev_ind; intros H.
      - rewrite app_nil_r in H. exact H.
      - rewrite app_assoc in H. apply (rep_closed _ _ _ HR) in H. apply IHw, H. }
    rewrite rep_next_in by assumption.
    pose proof (rep_range _ _ _ HR _ Huc).
    destruct (Z.eqb_spec (phi (u ++ [c])) 0); [lia|].
    rewrite IH; rewrite <- app_assoc; [reflexivity|exact Hw].
Qed.

Lemma rep_walk_out (w : path) : forall u,
  P u -> Forall (fun c => 0 <= c) w -> ~ P (u ++ w) -> da_walk d w (phi u) = 0.
Proof.
  induction w as [|c w IH]; intros u Hu Hcs Hw.
  - rewrite app_nil_r in Hw. contradiction.
  - cbn [da_walk]. inversion Hcs as [|? ? Hc Hcs']; subst.
    assert (Hdec : P (u ++ [c]) \/ ~ P (u ++ [c])).
    { destruct (Z.eq_dec (da_next d (phi u) c) 0) as [E|E].
      - right. intros H. apply rep_next_nonzero in H. contradiction.
      - left. destruct (Z.leb_spec 0 c); [|lia].
        unfold da_next in E. rewrite rep_init in E. cbn [negb] in E.
        pose proof (rep_range _ _ _ HR u Hu) as Hr.
        destruct (Z.leb_spec (phi u) 0); [lia|].
        destruct (Z.leb_spec (capacity d) (phi u)); [lia|]. cbn [orb] in E.
        destruct (Z.leb_spec (zget (base d) (phi u)) 0); [contradiction|].
        destruct (Z.leb_spec (capacity d) (zget (base d) (phi u) + c)); [contradiction|].
        destruct (Z.eqb_spec (zget (base d) (phi u) + c) (phi u)); [contradiction|].
        destruct (Z.eqb_spec (zget (check d) (zget (base d) (phi u) + c)) (phi u)) as [E'|E'];
          [|contradiction].
        destruct (rep_child_of u (zget (base d) (phi u) + c) Hu ltac:(lia) E' n)
          as (c' & Hc' & _ & Heq).
        assert (c' = c) by lia. subst c'. assumption. }
    destruct Hdec as [Hin|Hout].
    + rewrite rep_next_in by assumption.
      pose proof (rep_range _ _ _ HR _ Hin).
      destruct (Z.eqb_spec (phi (u ++ [c])) 0); [lia|].
      apply IH; [assumption|assumption|]. rewrite <- app_assoc. exact Hw.
    + rewrite rep_next_out by assumption. reflexivity.
Qed.

End Facts.

(** ** Growing the arrays *)

(** [d'] is [d] with zeroed cells added at the end (or [d] itself). *)
Definition ext (d d' : da_trie_t) : Prop :=
  zlen (check d') = zlen (base d') /\ capacity d <= capacity d' /\
  (forall s, zget (base d') s = zget (base d) s) /\
  (forall s, zget (check d') s = zget (check d) s) /\
  dynamic d' = dynamic d.

Lemma ext_refl d : zlen (check d) = zlen (base d) -> ext d d.
Proof. intros H. repeat split; auto. lia. Qed.

Lemma ext_trans a b c : ext a b -> ext b c -> ext a c.
Proof.
  intros (A1 & A2 & A3 & A4 & A5) (B1 & B2 & B3 & B4 & B5).
  split; [assumption|]. split; [lia|].
  split; [intros s; rewrite B3; apply A3|].
  split; [intros s; rewrite B4; apply A4|congruence].
Qed.

Lemma Rep_ext d d' P phi : Rep d P phi -> ext d d' -> Rep d' P phi.
Proof.
  intros HR (E1 & E2 & E3 & E4 & E5).
  constructor.
  - exact E1.
  - pose proof (rep_cap _ _ _ HR). lia.
  - destruct (rep_root _ _ _ HR) as (R1 & R2 & R3). rewrite E4. auto.
  - apply (rep_closed _ _ _ HR).
  - intros w Hw. pose proof (rep_range _ _ _ HR w Hw). lia.
  - intros w c Hw. rewrite !E3, !E4. apply (rep_edge _ _ _ HR w c Hw).
  - apply (rep_inj _ _ _ HR).
  - intros s Hs Hc. rewrite E4 in Hc.
    apply (rep_used _ _ _ HR); [|assumption].
    destruct (Z.lt_ge_cases s (capacity d)); [lia|].
    exfalso. apply Hc. apply zget_out. rewrite (rep_len _ _ _ HR). exact H.
Qed.

Section Alloc.

Variable mem_limit : Z.

Lemma grow_cap_ge (fuel : nat) : forall nc need r,
  grow_cap fuel nc need = Some r -> need <= r /\ nc <= r.
Proof.
  induction fuel as [|f IH]; intros nc need r H; cbn [grow_cap] in H.
  - destruct (Z.ltb_spec nc need); [discriminate|]. inversion H; subst. lia.
  - destruct (Z.ltb_spec nc need); [|inversion H; subst; lia].
    destruct (Z.ltb_spec ((nc * 2) mod (SIZE_MAX + 1)) nc); [discriminate|].
    apply IH in H. lia.
Qed.

Lemma reserve_spec d need rc d' :
  zlen (check d) = zlen (base d) ->
  da_reserve mem_limit d need = (rc, d') ->
  ext d d' /\ (rc = 0 -> need <= capacity d').
Proof.
  intros Hl H. unfold da_reserve in H.
  destruct (Z.leb_spec need (capacity d)).
  { inversion H; subst. split; [apply ext_refl; assumption|lia]. }
  destruct (dynamic d) eqn:Edyn; cbn [negb] in H;
    [|inversion H; subst; split; [apply ext_refl; assumption|discriminate]].
  destruct (grow_cap 64 (if capacity d =? 0 then 256 else capacity d) need) as [nc|] eqn:G;
    [|inversion H; subst; split; [apply ext_refl; assumption|discriminate]].
  destruct (mem_limit <? nc);
    [inversion H; subst; split; [apply ext_refl; assumption|discriminate]|].
  apply grow_cap_ge in G. destruct G as (G1 & G2).
  assert (Hnc : capacity d <= nc) by (destruct (capacity d =? 0) eqn:E; lia).
  inversion H; subst. unfold ext, capacity. cbn [base check dynamic].
  rewrite !zlen_app, !zlen_repeat. unfold capacity in *.
  split; [|intros _; lia].
  split; [lia|]. split; [lia|].
  split; [intros s; apply zget_app_zeros|].
  split; [intros s; apply zget_app_zeros|symmetry; exact Edyn].
Qed.

Lemma fold_max_ge (codes : list Z) : forall a,
  a <= fold_left Z.max codes a /\ forall c, In c codes -> c <= fold_left Z.max codes a.
Proof.
  induction codes as [|c0 codes IH]; intros a; simpl.
  - split; [lia|intros c []].
  - destruct (IH (Z.max a c0)) as (A & B). split; [lia|].
    intros c [<-|Hin]; [lia|apply B; assumption].
Qed.

Lemma find_base_from_spec (fuel : nat) : forall d p codes maxc b rc nb d',
  zlen (check d) = zlen (base d) -> 1 <= b ->
  find_base_from mem_limit fuel d p codes maxc b = (rc, nb, d') ->
  ext d d' /\
  (rc = 0 -> b <= nb /\ nb + maxc + 1 <= capacity d' /\ base_fits d' p nb codes = true).
Proof.
  induction fuel as [|f IH]; intros d p codes maxc b rc nb d' Hl Hb H; simpl in H.
  - inversion H; subst. split; [apply ext_refl; assumption|discriminate].
  - destruct (da_reserve mem_limit d (b + maxc + 1)) as [rc1 d1] eqn:R.
    destruct (reserve_spec _ _ _ _ Hl R) as (E1 & N1).
    destruct rc1; try (inversion H; subst; split; [assumption|discriminate]).
    specialize (N1 eq_refl).
    destruct (base_fits d1 p b codes) eqn:F.
    + inversion H; subst. split; [assumption|]. intros _. split; [lia|]. split; assumption.
    + pose proof E1 as (L1 & _).
      apply IH in H; [|exact L1|lia]. destruct H as (E2 & K).
      split; [apply (ext_trans _ _ _ E1 E2)|]. intros Hrc. specialize (K Hrc).
      destruct K as (K1 & K2 & K3). split; [lia|]. split; assumption.
Qed.

Lemma find_base_spec d p codes rc nb d' :
  zlen (check d) = zlen (base d) ->
  da_find_base mem_limit d p codes = (rc, nb, d') ->
  ext d d' /\
  (rc = 0 -> 1 <= nb /\ (forall c, In c codes -> nb + c + 1 <= capacity d') /\
             base_fits d' p nb codes = true).
Proof.
  intros Hl H. unfold da_find_base in H.
  destruct codes as [|c0 codes]; [inversion H; subst; split; [apply ext_refl; assumption|discriminate]|].
  apply find_base_from_spec in H; [|assumption|lia].
  destruct H as (E & K). split; [assumption|]. intros Hrc. destruct (K Hrc) as (K1 & K2 & K3).
  split; [assumption|]. split; [|assumption].
  intros c Hc. pose proof (fold_max_ge (c0 :: codes) 0) as (_ & M). specialize (M c Hc). lia.
Qed.

(** ** The empty trie *)

Lemma zget_zset_repeat0 (n : nat) (i v s : Z) :
  zget (zset (repeat 0 n) i v) s = if (i =? s) && (0 <=? i) && (i <? Z.of_nat n) then v else 0.
Proof.
  rewrite zget_zset. unfold zlen. rewrite repeat_length, zget_repeat0. reflexivity.
Qed.

Lemma clear_rep d rc d' :
  zlen (check d) = zlen (base d) ->
  da_trie_clear d = (rc, d') -> rc = 0 ->
  Rep d' (fun w => w = []) (fun _ => DA_ROOT) /\ dynamic d' = dynamic d.
Proof.
  intros Hl H Hrc. unfold da_trie_clear in H.
  destruct (Z.ltb_spec (capacity d) 2); [inversion H; subst; discriminate|].
  inversion H; subst d'. clear H. split; [|reflexivity].
  assert (Hn : Z.of_nat (length (base d)) = capacity d) by reflexivity.
  assert (Hn' : Z.of_nat (length (check d)) = capacity d) by (unfold capacity; rewrite <- Hl; reflexivity).
  constructor; unfold capacity; cbn [base check].
  - rewrite !zlen_zset. unfold zlen. rewrite !repeat_length. unfold zlen in Hl. exact Hl.
  - rewrite zlen_zset. unfold zlen. rewrite repeat_length. fold (zlen (base d)). exact H0.
  - split; [reflexivity|]. split; [|reflexivity].
    rewrite zget_zset_repeat0, Hn'. unfold DA_ROOT.
    destruct (Z.ltb_spec 1 (capacity d)); [reflexivity|lia].
  - intros w c Hw. destruct w; discriminate.
  - intros w _. rewrite zlen_zset. unfold zlen. rewrite repeat_length, Hn. unfold DA_ROOT. lia.
  - intros w c Hw. destruct w; discriminate.
  - intros w w' -> ->. reflexivity.
  - intros s Hs Hc. rewrite zget_zset_repeat0 in Hc. exists []. split; [reflexivity|].
    destruct (Z.eqb_spec DA_ROOT s); [assumption|]. simpl in Hc. contradiction.
Qed.

Lemma init_dynamic_rep n rc d :
  da_trie_init_dynamic mem_limit n = (rc, d) -> rc = 0 ->
  Rep d (fun w => w = []) (fun _ => DA_ROOT).
Proof.
  unfold da_trie_init_dynamic. destruct (mem_limit <? _); [intros H; inversion H; subst; discriminate|].
  intros H Hrc. apply clear_rep in H; [apply H|reflexivity|assumption].
Qed.

End Alloc.

(** ** The loops of [da_relocate_children], cell by cell *)

Lemma zget_zset_zero l o s : zget (zset l o 0) s = if o =? s then 0 else zget l s.
Proof.
  rewrite zget_zset. destruct (Z.eqb_spec o s) as [->|]; [|reflexivity]. cbn [andb].
  destruct ((0 <=? s) && (s <? zlen l)) eqn:E; [reflexivity|].
  apply andb_false_iff in E. destruct E as [E|E].
  - apply Z.leb_gt in E. apply zget_neg. assumption.
  - apply Z.ltb_ge in E. apply zget_out. assumption.
Qed.

Definition old_of (e : Z * Z * Z) : Z := fst (fst e).
Definition new_of (e : Z * Z * Z) : Z := snd (fst e).
Definition cb_of (e : Z * Z * Z) : Z := snd e.

Definition in_olds (snap : list (Z * Z * Z)) (s : Z) : bool :=
  existsb (fun e => old_of e =? s) snap.
Definition in_news (snap : list (Z * Z * Z)) (s : Z) : bool :=
  existsb (fun e => new_of e =? s) snap.

Section Relocate.

Variable mem_limit : Z.

Lemma relocate_snapshot_spec (codes : list Z) : forall d ob nb snap0,
  (forall c, In c codes -> nb + c + 1 <= capacity d) ->
  relocate_snapshot mem_limit d ob nb codes snap0
  = (0, d, snap0 ++ map (fun c => (ob + c, nb + c, zget (base d) (ob + c))) codes).
Proof.
  induction codes as [|c codes IH]; intros d ob nb snap0 Hcap; cbn [relocate_snapshot map].
  - rewrite app_nil_r. reflexivity.
  - unfold da_reserve.
    destruct (Z.leb_spec (nb + c + 1) (capacity d)) as [_|Hbad];
      [|specialize (Hcap c (or_introl eq_refl)); lia].
    rewrite IH by (intros c' Hc'; apply Hcap; right; assumption).
    rewrite <- app_assoc. reflexivity.
Qed.

Lemma clear_old_spec (snap : list (Z * Z * Z)) : forall d,
  let d' := fold_left clear_old snap d in
  zlen (base d') = zlen (base d) /\ zlen (check d') = zlen (check d) /\
  dynamic d' = dynamic d /\
  forall s, zget (base d') s = (if in_olds snap s then 0 else zget (base d) s) /\
            zget (check d') s = (if in_olds snap s then 0 else zget (check d) s).
Proof.
  induction snap as [|[[o n] cb] snap IH]; intros d; cbv zeta.
  - simpl. auto.
  - cbn [fold_left]. specialize (IH (clear_old d (o, n, cb))). cbv zeta in IH.
    destruct IH as (A & B & D & E).
    set (d1 := clear_old d (o, n, cb)) in *.
    assert (H1 : base d1 = zset (base d) o 0 /\ check d1 = zset (check d) o 0 /\
                 dynamic d1 = dynamic d) by (unfold d1, clear_old; cbn; auto).
    destruct H1 as (H1a & H1b & H1c). rewrite H1a, H1b, H1c in *.
    rewrite zlen_zset in A, B.
    split; [exact A|]. split; [exact B|]. split; [exact D|].
    intros s. destruct (E s) as (E1 & E2). rewrite E1, E2.
    unfold in_olds. cbn [existsb old_of fst]. fold (in_olds snap s).
    rewrite !zget_zset_zero.
    destruct (Z.eqb_spec o s); cbn [orb]; destruct (in_olds snap s); auto.
Qed.

Lemma write_new_spec (p : Z) (snap : list (Z * Z * Z)) : forall d,
  zlen (check d) = zlen (base d) ->
  NoDup (map new_of snap) ->
  (forall e, In e snap -> 0 <= new_of e < zlen (base d)) ->
  let d' := fold_left (write_new p) snap d in
  zlen (base d') = zlen (base d) /\ zlen (check d') = zlen (check d) /\
  dynamic d' = dynamic d /\
  (forall s, zget (check d') s = (if in_news snap s then p else zget (check d) s)) /\
  (forall e, In e snap -> zget (base d') (new_of e) = cb_of e) /\
  (forall s, in_news snap s = false -> zget (base d') s = zget (base d) s).
Proof.
  induction snap as [|[[o n] cb] snap IH]; intros d Hl Hnd Hr; cbv zeta.
  - simpl. repeat split; auto. intros e [].
  - cbn [fold_left]. cbn [map] in Hnd. inversion Hnd as [|? ? Hnot Hnd']; subst.
    pose proof (Hr (o, n, cb) (or_introl eq_refl)) as Hn. cbn [new_of fst snd] in Hn, Hnot.
    specialize (IH (write_new p d (o, n, cb))). cbv zeta in IH.
    set (d1 := write_new p d (o, n, cb)) in *.
    assert (H1 : base d1 = zset (base d) n cb /\ check d1 = zset (check d) n p /\
                 dynamic d1 = dynamic d) by (unfold d1, write_new; cbn; auto).
    destruct H1 as (H1a & H1b & H1c). rewrite H1a, H1b, H1c in IH.
    rewrite !zlen_zset in IH.
    destruct (IH Hl Hnd' (fun e He => Hr e (or_intror He))) as (A & B & D & E & F & G).
    split; [exact A|]. split; [exact B|]. split; [exact D|].
    assert (Hnin : in_news snap n = false).
    { unfold in_news. apply not_true_is_false. intros Hex. apply existsb_exists in Hex.
      destruct Hex as (e & He & Heq). apply Z.eqb_eq in Heq. apply Hnot.
      rewrite <- Heq. apply in_map. assumption. }
    split; [|split].
    + intros s. rewrite E. unfold in_news at 2. cbn [existsb new_of fst snd].
      fold (in_news snap s). rewrite zget_zset.
      destruct (Z.eqb_spec n s) as [->|]; cbn [orb andb].
      * rewrite Hnin. destruct (Z.leb_spec 0 s); [|lia].
        destruct (Z.ltb_spec s (zlen (check d))); [reflexivity|lia].
      * reflexivity.
    + intros e [<-|He]; [|apply F; assumption].
      cbn [new_of cb_of fst snd]. rewrite G by assumption. apply zget_zset_same. lia.
    + intros s Hs. unfold in_news in Hs. cbn [existsb new_of fst snd] in Hs.
      apply orb_false_iff in Hs. destruct Hs as (Hs1 & Hs2). fold (in_news snap s) in Hs2.
      rewrite G by assumption. apply zget_zset_other. apply Z.eqb_neq. assumption.
Qed.

(** One turn of the inner loops of both passes: cell [g] goes from [from]
    to [to]. *)
Definition remap_cell (from to : Z) (d : da_trie_t) (g : Z) : da_trie_t :=
  if (g <? capacity d) && (zget (check d) g =? from) then set_check d g to else d.

Lemma remap_fold_spec (from to b : Z) (cs : list Z) : forall d,
  zlen (check d) = zlen (base d) -> NoDup cs -> (forall c, In c cs -> 0 <= b + c) ->
  let d' := fold_left (fun d c => remap_cell from to d (b + c)) cs d in
  base d' = base d /\ zlen (check d') = zlen (check d) /\ dynamic d' = dynamic d /\
  forall s, zget (check d') s
            = if existsb (fun c => b + c =? s) cs && (s <? capacity d)
                 && (zget (check d) s =? from)
              then to else zget (check d) s.
Proof.
  induction cs as [|c cs IH]; intros d Hl Hnd Hpos; cbv zeta.
  - simpl. auto.
  - cbn [fold_left]. inversion Hnd as [|? ? Hnot Hnd']; subst.
    set (d1 := remap_cell from to d (b + c)).
    assert (H1 : base d1 = base d /\ zlen (check d1) = zlen (check d) /\ dynamic d1 = dynamic d /\
                 forall s, zget (check d1) s
                           = if (b + c =? s) && (s <? capacity d) && (zget (check d) s =? from)
                             then to else zget (check d) s).
    { unfold d1, remap_cell.
      destruct ((b + c <? capacity d) && (zget (check d) (b + c) =? from)) eqn:E.
      - cbn [set_check base check dynamic]. rewrite zlen_zset. repeat split.
        intros s. rewrite zget_zset. apply andb_true_iff in E. destruct E as (E1 & E2).
        destruct (Z.eqb_spec (b + c) s) as [<-|]; [|reflexivity].
        rewrite E1, E2. cbn [andb].
        apply Z.ltb_lt in E1. unfold capacity in E1.
        destruct (Z.leb_spec 0 (b + c)); [|specialize (Hpos c (or_introl eq_refl)); lia].
        destruct (Z.ltb_spec (b + c) (zlen (check d))); [reflexivity|lia].
      - repeat split. intros s.
        destruct (Z.eqb_spec (b + c) s) as [<-|]; [|reflexivity].
        cbn [andb]. rewrite E. reflexivity. }
    destruct H1 as (B1 & L1 & D1 & C1).
    destruct (IH d1 ltac:(unfold capacity in *; congruence) Hnd'
                 (fun c' Hc' => Hpos c' (or_intror Hc'))) as (A & B & D & E).
    cbv zeta in A, B, D, E.
    split; [congruence|]. split; [congruence|]. split; [congruence|].
    intros s. rewrite E. unfold capacity. rewrite B1. fold (capacity d).
    rewrite !C1. cbn [existsb].
    destruct (Z.eqb_spec (b + c) s) as [Hs|Hs]; cbn [orb andb].
    + assert (Hex : existsb (fun c0 => b + c0 =? s) cs = false).
      { apply not_true_is_false. intros Hex. apply existsb_exists in Hex.
        destruct Hex as (c' & Hc' & Heq). apply Z.eqb_eq in Heq.
        assert (c' = c) by lia. subst c'. contradiction. }
      rewrite Hex. cbn [andb]. reflexivity.
    + reflexivity.
Qed.

Lemma NoDup_all_codes : NoDup all_codes.
Proof. unfold all_codes, range. apply NoDup_zseq. Qed.

Lemma in_all_codes c : In c all_codes <-> 0 <= c < 256.
Proof. unfold all_codes, DA_ALPHABET_SIZE. apply in_range. Qed.

Lemma exists_code (b s : Z) :
  existsb (fun c => b + c =? s) all_codes = (b <=? s) && (s <? b + 256).
Proof.
  destruct ((b <=? s) && (s <? b + 256)) eqn:E.
  - apply andb_true_iff in E. destruct E as (E1 & E2). apply Z.leb_le in E1. apply Z.ltb_lt in E2.
    apply existsb_exists. exists (s - b). split; [apply in_all_codes; lia|apply Z.eqb_eq; lia].
  - apply not_true_is_false. intros Hex. apply existsb_exists in Hex.
    destruct Hex as (c & Hc & Heq). apply in_all_codes in Hc. apply Z.eqb_eq in Heq.
    apply andb_false_iff in E. destruct E as [E|E]; [apply Z.leb_gt in E|apply Z.ltb_ge in E]; lia.
Qed.

(** An entry of the snapshot claims cell [s] in a pass that looks for the
    check value [from e]. *)
Definition claims (cap : Z) (from : Z * Z * Z -> Z) (chk : Z -> Z) (s : Z) (e : Z * Z * Z)
  : bool :=
  (0 <? cb_of e) && (cb_of e <=? s) && (s <? cb_of e + 256) && (s <? cap)
  && (chk s =? from e).

Lemma pass_entry_spec (from to : Z * Z * Z -> Z) (e : Z * Z * Z) (d : da_trie_t) :
  zlen (check d) = zlen (base d) ->
  let d' := if cb_of e <=? 0 then d
            else fold_left (fun d c => remap_cell (from e) (to e) d (cb_of e + c)) all_codes d in
  base d' = base d /\ zlen (check d') = zlen (check d) /\ dynamic d' = dynamic d /\
  forall s, zget (check d') s
            = if claims (capacity d) from (zget (check d)) s e then to e else zget (check d) s.
Proof.
  intros Hl. cbv zeta. unfold claims.
  destruct (Z.leb_spec (cb_of e) 0) as [Hb|Hb].
  - destruct (Z.ltb_spec 0 (cb_of e)); [lia|]. cbn [andb]. auto.
  - destruct (remap_fold_spec (from e) (to e) (cb_of e) all_codes d Hl NoDup_all_codes)
      as (A & B & D & E).
    { intros c Hc. apply in_all_codes in Hc. lia. }
    cbv zeta in A, B, D, E. split; [exact A|]. split; [exact B|]. split; [exact D|].
    intros s. rewrite E, exists_code.
    destruct (Z.ltb_spec 0 (cb_of e)); [|lia]. cbn [andb]. reflexivity.
Qed.

Lemma find_ext_in {A} (f g : A -> bool) (l : list A) :
  (forall x, In x l -> f x = g x) -> find f l = find g l.
Proof.
  induction l as [|x l IH]; intros H; simpl; [reflexivity|].
  rewrite (H x (or_introl eq_refl)). destruct (g x); [reflexivity|].
  apply IH. intros y Hy. apply H. right. assumption.
Qed.

Lemma find_none_all {A} (f : A -> bool) (l : list A) :
  (forall x, In x l -> f x = false) -> find f l = None.
Proof.
  induction l as [|x l IH]; intros H; simpl; [reflexivity|].
  rewrite (H x (or_introl eq_refl)). apply IH. intros y Hy. apply H. right. assumption.
Qed.

(** A whole pass over the snapshot: every cell goes to the [to] of the
    first entry that claims it. *)
Lemma pass_spec (from to : Z * Z * Z -> Z) (step : da_trie_t -> Z * Z * Z -> da_trie_t)
      (snap : list (Z * Z * Z)) :
  (forall d e, step d e
               = if cb_of e <=? 0 then d
                 else fold_left (fun d c => remap_cell (from e) (to e) d (cb_of e + c))
                                all_codes d) ->
  (forall e e', In e snap -> In e' snap -> to e <> from e') ->
  forall d,
  zlen (check d) = zlen (base d) ->
  let d' := fold_left step snap d in
  base d' = base d /\ zlen (check d') = zlen (check d) /\ dynamic d' = dynamic d /\
  forall s, zget (check d') s
            = match find (claims (capacity d) from (zget (check d)) s) snap with
              | Some e => to e
              | None => zget (check d) s
              end.
Proof.
  intros Hstep. induction snap as [|e1 snap IH]; intros Hsep d Hl; cbv zeta.
  - simpl. auto.
  - cbn [fold_left]. rewrite Hstep.
    destruct (pass_entry_spec from to e1 d Hl) as (B1 & L1 & D1 & C1). cbv zeta in B1, L1, D1, C1.
    set (d1 := if cb_of e1 <=? 0 then d
               else fold_left (fun d c => remap_cell (from e1) (to e1) d (cb_of e1 + c))
                              all_codes d) in *.
    destruct (IH (fun e e' He He' => Hsep e e' (or_intror He) (or_intror He')) d1
                 ltac:(congruence)) as (A & B & D & E).
    cbv zeta in A, B, D, E.
    split; [congruence|]. split; [congruence|]. split; [congruence|].
    intros s. rewrite E. unfold capacity. rewrite B1. fold (capacity d).
    cbn [find]. destruct (claims (capacity d) from (zget (check d)) s e1) eqn:Ec.
    + rewrite find_none_all.
      * rewrite C1, Ec. reflexivity.
      * intros e He. unfold claims. rewrite C1, Ec.
        destruct (Z.eqb_spec (to e1) (from e)) as [Heq|]; [|apply andb_false_r].
        exfalso. apply (Hsep e1 e (or_introl eq_refl) (or_intror He)). exact Heq.
    + rewrite (find_ext_in (claims (capacity d) from (zget (check d1)) s)
                           (claims (capacity d) from (zget (check d)) s)).
      * rewrite C1, Ec. reflexivity.
      * intros e He. unfold claims. rewrite C1, Ec. reflexivity.
Qed.

Lemma mark_is_pass d e :
  mark_grandchildren d e
  = if cb_of e <=? 0 then d
    else fold_left (fun d c => remap_cell (old_of e) (- new_of e) d (cb_of e + c)) all_codes d.
Proof. destruct e as [[o n] b]. reflexivity. Qed.

Lemma unmark_is_pass d e :
  unmark_grandchildren d e
  = if cb_of e <=? 0 then d
    else fold_left (fun d c => remap_cell (- new_of e) (new_of e) d (cb_of e + c)) all_codes d.
Proof. destruct e as [[o n] b]. reflexivity. Qed.

End Relocate.

(** ** Relocating the children of a node *)

(** [Some c] when [w] is the child of [u] by the code [c]. *)
Definition is_child (u w : path) : option Z :=
  match rev w with
  | c :: r => if list_eq_dec Z.eq_dec (rev r) u then Some c else None
  | [] => None
  end.

Lemma is_child_snoc u c : is_child u (u ++ [c]) = Some c.
Proof.
  unfold is_child. rewrite rev_app_distr. simpl. rewrite rev_involutive.
  destruct (list_eq_dec Z.eq_dec u u); [reflexivity|contradiction].
Qed.

Lemma is_child_some u w c : is_child u w = Some c -> w = u ++ [c].
Proof.
  unfold is_child. destruct (rev w) as [|c' r] eqn:E; [discriminate|].
  destruct (list_eq_dec Z.eq_dec (rev r) u) as [<-|]; [|discriminate].
  intros H. inversion H; subst. apply (f_equal (@rev Z)) in E.
  rewrite rev_involutive in E. exact E.
Qed.

Lemma is_child_none u w c : is_child u w = None -> w <> u ++ [c].
Proof. intros H ->. rewrite is_child_snoc in H. discriminate. Qed.

Lemma is_child_self (u : path) : is_child u u = None.
Proof.
  destruct (is_child u u) as [c|] eqn:E; [|reflexivity].
  apply is_child_some in E. apply (f_equal (@length Z)) in E.
  rewrite length_app in E. simpl in E. lia.
Qed.

Lemma find_unique {A} (f : A -> bool) (l : list A) (x : A) :
  In x l -> f x = true -> (forall y, In y l -> f y = true -> y = x) -> find f l = Some x.
Proof.
  induction l as [|a l IH]; intros Hin Hx Hu; [destruct Hin|].
  simpl. destruct (f a) eqn:Ea.
  - f_equal. apply Hu; [left; reflexivity|assumption].
  - destruct Hin as [->|Hin]; [congruence|].
    apply IH; [assumption|assumption|]. intros y Hy. apply Hu. right. assumption.
Qed.

Lemma NoDup_map_add (a : Z) (l : list Z) : NoDup l -> NoDup (map (fun c => a + c) l).
Proof.
  induction 1 as [|c l Hnot Hnd IH]; [constructor|].
  simpl. constructor; [|assumption].
  intros Hin. apply in_map_iff in Hin. destruct Hin as (c' & Heq & Hc').
  assert (c' = c) by lia. subst. contradiction.
Qed.

Section RelocRep.

Variable mem_limit : Z.
Variables (d : da_trie_t) (P : path -> Prop) (phi : path -> Z).
Hypothesis HR : Rep d P phi.
Variable u : path.
Hypothesis Hu : P u.

Let p := phi u.
Let ob := zget (base d) p.
Let K := da_collect_children_codes d p.

Hypothesis Hob : 0 < ob.

Variable nb : Z.
Hypothesis Hnb : 1 <= nb.
Hypothesis Hcap : forall c, In c K -> nb + c + 1 <= capacity d.
Hypothesis Hfit : forall c, In c K ->
    nb + c <> p /\ (zget (check d) (nb + c) = 0 \/ zget (check d) (nb + c) = p).

Lemma K_spec c : In c K <-> P (u ++ [c]).
Proof.
  unfold K, da_collect_children_codes. fold ob.
  destruct (Z.leb_spec ob 0); [lia|].
  rewrite filter_In, in_all_codes, !andb_true_iff, negb_true_iff, Z.eqb_neq, Z.ltb_lt, Z.eqb_eq.
  cbv zeta. split.
  - intros (Hc & (Hne & Hlt) & Hchk).
    destruct (rep_child_of d P phi HR u (ob + c) Hu ltac:(lia) Hchk Hne) as (c' & Hc' & _ & Heq).
    fold p ob in Heq. assert (c' = c) by lia. subst c'. assumption.
  - intros Hw. destruct (rep_closed _ _ _ HR u c Hw) as (_ & Hc).
    destruct (rep_edge _ _ _ HR u c Hw) as (E1 & E2 & E3 & E4).
    pose proof (rep_range _ _ _ HR _ Hw) as Hr. fold p ob in E2, E3, E4.
    rewrite <- E2. repeat split; try lia; assumption.
Qed.

Lemma K_NoDup : NoDup K.
Proof.
  unfold K, da_collect_children_codes. destruct (_ <=? 0); [constructor|].
  apply NoDup_filter. apply NoDup_all_codes.
Qed.

Lemma K_old c : In c K -> ob + c = phi (u ++ [c]).
Proof.
  intros Hc. apply K_spec in Hc. destruct (rep_edge _ _ _ HR u c Hc) as (_ & E2 & _).
  symmetry. exact E2.
Qed.

Lemma K_range c : In c K -> 0 <= c <= 255.
Proof. intros Hc. apply K_spec in Hc. apply (rep_closed _ _ _ HR u c Hc). Qed.

Definition snap : list (Z * Z * Z) :=
  map (fun c => (ob + c, nb + c, zget (base d) (ob + c))) K.

Lemma in_snap e : In e snap <-> exists c, In c K /\ e = (ob + c, nb + c, zget (base d) (ob + c)).
Proof.
  unfold snap. rewrite in_map_iff. split; intros (c & A & B); exists c; auto.
Qed.

Lemma in_olds_spec s : in_olds snap s = true <-> exists c, In c K /\ s = ob + c.
Proof.
  unfold in_olds. rewrite existsb_exists. split.
  - intros (e & He & Heq). apply in_snap in He. destruct He as (c & Hc & ->).
    apply Z.eqb_eq in Heq. exists c. auto.
  - intros (c & Hc & ->). eexists. split; [apply in_snap; exists c; auto|].
    apply Z.eqb_eq. reflexivity.
Qed.

Lemma in_news_spec s : in_news snap s = true <-> exists c, In c K /\ s = nb + c.
Proof.
  unfold in_news. rewrite existsb_exists. split.
  - intros (e & He & Heq). apply in_snap in He. destruct He as (c & Hc & ->).
    apply Z.eqb_eq in Heq. exists c. auto.
  - intros (c & Hc & ->). eexists. split; [apply in_snap; exists c; auto|].
    apply Z.eqb_eq. reflexivity.
Qed.

Lemma news_NoDup : NoDup (map new_of snap).
Proof.
  unfold snap. rewrite map_map. cbn [new_of fst snd].
  apply NoDup_map_add, K_NoDup.
Qed.

Definition d1 : da_trie_t := fold_left clear_old snap d.
Definition d2 : da_trie_t := fold_left (write_new p) snap d1.
Definition d3 : da_trie_t := fold_left mark_grandchildren snap d2.
Definition d4 : da_trie_t := fold_left unmark_grandchildren snap d3.
Definition dR : da_trie_t := set_base d4 p nb.

Lemma relocate_eq : da_relocate_children mem_limit d p nb = (0, dR).
Proof.
  unfold da_relocate_children. fold K ob.
  rewrite relocate_snapshot_spec by exact Hcap. reflexivity.
Qed.

Lemma Hlen : zlen (check d) = zlen (base d).
Proof. apply (rep_len _ _ _ HR). Qed.

Lemma p_range : 1 <= p < capacity d.
Proof. apply (rep_range _ _ _ HR u Hu). Qed.

Lemma snap_new_range e : In e snap -> 1 <= new_of e < capacity d.
Proof.
  intros He. apply in_snap in He. destruct He as (c & Hc & ->). cbn [new_of fst snd].
  pose proof (Hcap c Hc). pose proof (K_range c Hc). lia.
Qed.

Lemma snap_old_pos e : In e snap -> 1 <= old_of e.
Proof.
  intros He. apply in_snap in He. destruct He as (c & Hc & ->). cbn [old_of fst].
  pose proof (K_range c Hc). lia.
Qed.

Lemma stage2 :
  zlen (base d2) = zlen (base d) /\ zlen (check d2) = zlen (check d) /\
  dynamic d2 = dynamic d /\
  (forall s, zget (check d2) s
             = if in_news snap s then p else if in_olds snap s then 0 else zget (check d) s) /\
  (forall c, In c K -> zget (base d2) (nb + c) = zget (base d) (ob + c)) /\
  (forall s, in_news snap s = false ->
             zget (base d2) s = if in_olds snap s then 0 else zget (base d) s).
Proof.
  destruct (clear_old_spec snap d) as (A1 & B1 & D1 & E1). cbv zeta in A1, B1, D1, E1.
  fold d1 in A1, B1, D1, E1.
  destruct (write_new_spec p snap d1) as (A2 & B2 & D2 & E2 & F2 & G2).
  { rewrite A1, B1. apply Hlen. }
  { apply news_NoDup. }
  { intros e He. rewrite A1. pose proof (snap_new_range e He). unfold capacity in *. lia. }
  cbv zeta in A2, B2, D2, E2, F2, G2. fold d2 in A2, B2, D2, E2, F2, G2.
  split; [congruence|]. split; [congruence|]. split; [congruence|].
  split; [|split].
  - intros s. rewrite E2. destruct (in_news snap s); [reflexivity|]. apply E1.
  - intros c Hc.
    apply (F2 (ob + c, nb + c, zget (base d) (ob + c))). apply in_snap. exists c. auto.
  - intros s Hs. rewrite G2 by assumption. apply E1.
Qed.

Lemma check2_nonneg s : 0 <= zget (check d2) s.
Proof.
  destruct stage2 as (_ & _ & _ & E & _). rewrite E.
  destruct (in_news snap s); [pose proof p_range; lia|].
  destruct (in_olds snap s); [lia|]. apply (rep_check_nonneg d P phi HR).
Qed.

Lemma stage3 :
  base d3 = base d2 /\ zlen (check d3) = zlen (check d2) /\ dynamic d3 = dynamic d2 /\
  forall s, zget (check d3) s
            = match find (claims (capacity d) old_of (zget (check d2)) s) snap with
              | Some e => - new_of e
              | None => zget (check d2) s
              end.
Proof.
  destruct stage2 as (A & B & _).
  destruct (pass_spec old_of (fun e => - new_of e) mark_grandchildren snap mark_is_pass)
    with (d := d2) as (A3 & B3 & D3 & E3).
  { intros e e' He He'. pose proof (snap_new_range e He). pose proof (snap_old_pos e' He'). lia. }
  { rewrite A, B. apply Hlen. }
  cbv zeta in A3, B3, D3, E3. fold d3 in A3, B3, D3, E3.
  repeat (split; [assumption|]).
  intros s. rewrite E3. unfold capacity. rewrite A. reflexivity.
Qed.

Lemma stage4 :
  base d4 = base d2 /\ zlen (check d4) = zlen (check d2) /\ dynamic d4 = dynamic d2 /\
  forall s, zget (check d4) s
            = match find (claims (capacity d) (fun e => - new_of e) (zget (check d3)) s) snap with
              | Some e => new_of e
              | None => zget (check d3) s
              end.
Proof.
  destruct stage2 as (A & B & _). destruct stage3 as (A3 & B3 & D3 & _).
  destruct (pass_spec (fun e => - new_of e) new_of unmark_grandchildren snap unmark_is_pass)
    with (d := d3) as (A4 & B4 & D4 & E4).
  { intros e e' He He'. pose proof (snap_new_range e He). pose proof (snap_new_range e' He'). lia. }
  { rewrite A3, B3, A, B. apply Hlen. }
  cbv zeta in A4, B4, D4, E4. fold d4 in A4, B4, D4, E4.
  split; [congruence|]. split; [congruence|]. split; [congruence|].
  intros s. rewrite E4. unfold capacity. rewrite A3, A. reflexivity.
Qed.

(** A cell whose check is no old child cell keeps its check through both
    passes. *)
Lemma passes_keep s :
  (forall c, In c K -> zget (check d2) s <> ob + c) ->
  zget (check d4) s = zget (check d2) s.
Proof.
  intros Hno. destruct stage3 as (_ & _ & _ & E3). destruct stage4 as (_ & _ & _ & E4).
  assert (H3 : zget (check d3) s = zget (check d2) s).
  { rewrite E3, find_none_all; [reflexivity|].
    intros e He. apply in_snap in He. destruct He as (c & Hc & ->).
    unfold claims. cbn [old_of fst].
    destruct (Z.eqb_spec (zget (check d2) s) (ob + c)) as [Heq|]; [|apply andb_false_r].
    exfalso. apply (Hno c Hc Heq). }
  rewrite E4, find_none_all; [assumption|].
  intros e He. pose proof (snap_new_range e He). unfold claims. rewrite H3.
  pose proof (check2_nonneg s).
  destruct (Z.eqb_spec (zget (check d2) s) (- new_of e)); [lia|apply andb_false_r].
Qed.

(** A grandchild is handed over to the new cell of its parent. *)
Lemma passes_move s k :
  In k K -> zget (check d2) s = ob + k ->
  0 < zget (base d) (ob + k) -> zget (base d) (ob + k) <= s < zget (base d) (ob + k) + 256 ->
  s < capacity d ->
  zget (check d4) s = nb + k.
Proof.
  intros Hk Hchk Hb Hs Hc. destruct stage3 as (_ & _ & _ & E3). destruct stage4 as (_ & _ & _ & E4).
  set (e := (ob + k, nb + k, zget (base d) (ob + k))).
  assert (He : In e snap) by (apply in_snap; exists k; auto).
  assert (H3 : zget (check d3) s = - (nb + k)).
  { rewrite E3, (find_unique _ _ e); [reflexivity|assumption| |].
    - unfold claims, e. cbn [cb_of old_of fst snd]. rewrite Hchk, Z.eqb_refl.
      destruct (Z.ltb_spec 0 (zget (base d) (ob + k))); [|lia].
      destruct (Z.leb_spec (zget (base d) (ob + k)) s); [|lia].
      destruct (Z.ltb_spec s (zget (base d) (ob + k) + 256)); [|lia].
      destruct (Z.ltb_spec s (capacity d)); [reflexivity|lia].
    - intros e' He' Hcl. apply in_snap in He'. destruct He' as (c & Hc' & ->).
      unfold claims in Hcl. cbn [old_of fst] in Hcl. rewrite !andb_true_iff in Hcl.
      destruct Hcl as (_ & Heq). apply Z.eqb_eq in Heq.
      assert (c = k) by lia. subst c. reflexivity. }
  rewrite E4, (find_unique _ _ e); [reflexivity|assumption| |].
  - unfold claims, e. cbn [cb_of new_of fst snd]. rewrite H3, Z.eqb_refl.
    destruct (Z.ltb_spec 0 (zget (base d) (ob + k))); [|lia].
    destruct (Z.leb_spec (zget (base d) (ob + k)) s); [|lia].
    destruct (Z.ltb_spec s (zget (base d) (ob + k) + 256)); [|lia].
    destruct (Z.ltb_spec s (capacity d)); [reflexivity|lia].
  - intros e' He' Hcl. apply in_snap in He'. destruct He' as (c & Hc' & ->).
    unfold claims in Hcl. cbn [new_of fst snd] in Hcl. rewrite !andb_true_iff in Hcl.
    destruct Hcl as (_ & Heq). apply Z.eqb_eq in Heq. rewrite H3 in Heq.
    assert (c = k) by lia. subst c. reflexivity.
Qed.

(** The cells of the nodes after the move. *)
Definition phi' (w : path) : Z :=
  match is_child u w with
  | Some c => nb + c
  | None => phi w
  end.

Lemma not_child_cell w :
  P w -> is_child u w = None -> in_news snap (phi w) = false /\ in_olds snap (phi w) = false.
Proof.
  intros Hw Hnc. split; apply not_true_is_false; intros H.
  - apply in_news_spec in H. destruct H as (c & Hc & Heq).
    destruct (Hfit c Hc) as (Hne & Hchk). rewrite <- Heq in Hne, Hchk.
    destruct (snoc_cases w) as [->|(v & c' & ->)].
    + destruct (rep_root _ _ _ HR) as (R1 & R2 & _). rewrite R1 in *. rewrite R2 in Hchk.
      unfold DA_ROOT in *. destruct Hchk as [?|Hp]; [lia|]. apply Hne. exact Hp.
    + destruct (rep_edge _ _ _ HR v c' Hw) as (_ & _ & E3 & _).
      destruct (rep_closed _ _ _ HR v c' Hw) as (Hv & _).
      pose proof (rep_range _ _ _ HR v Hv). rewrite E3 in Hchk.
      destruct Hchk as [?|Hp]; [lia|].
      assert (v = u) by (apply (rep_inj _ _ _ HR); assumption). subst v.
      rewrite is_child_snoc in Hnc. discriminate.
  - apply in_olds_spec in H. destruct H as (c & Hc & Heq).
    rewrite (K_old c Hc) in Heq. apply K_spec in Hc.
    apply (rep_inj _ _ _ HR) in Heq; [|assumption|assumption]. subst w.
    rewrite is_child_snoc in Hnc. discriminate.
Qed.

Lemma p_cell : in_news snap p = false /\ in_olds snap p = false.
Proof.
  split; apply not_true_is_false; intros H.
  - apply in_news_spec in H. destruct H as (c & Hc & Heq).
    destruct (Hfit c Hc) as (Hne & _). congruence.
  - apply in_olds_spec in H. destruct H as (c & Hc & Heq).
    rewrite (K_old c Hc) in Heq. apply K_spec in Hc.
    destruct (rep_edge _ _ _ HR u c Hc) as (_ & _ & _ & E4). apply E4. symmetry. exact Heq.
Qed.


Lemma capR : capacity dR = capacity d.
Proof.
  unfold dR, capacity. cbn [set_base base]. rewrite zlen_zset.
  destruct stage4 as (A4 & _). destruct stage2 as (A2 & _). congruence.
Qed.

Lemma baseR s :
  zget (base dR) s = if s =? p then nb else zget (base d2) s.
Proof.
  unfold dR. cbn [set_base base]. destruct stage4 as (A4 & _). rewrite A4.
  destruct stage2 as (A2 & _). pose proof p_range as Hp. unfold capacity in Hp.
  destruct (Z.eqb_spec s p) as [->|Hne].
  - apply zget_zset_same. lia.
  - apply zget_zset_other. congruence.
Qed.

Lemma checkR s : zget (check dR) s = zget (check d4) s.
Proof. reflexivity. Qed.

Lemma old_not_check2 s c :
  in_news snap s = true \/ in_olds snap s = true \/ zget (check d) s = 0 ->
  In c K -> zget (check d2) s <> ob + c.
Proof.
  intros Hs Hc. destruct stage2 as (_ & _ & _ & E & _). rewrite E.
  pose proof (K_range c Hc). pose proof (K_old c Hc) as Ho. apply K_spec in Hc.
  destruct (rep_edge _ _ _ HR u c Hc) as (_ & _ & _ & E4). fold p in E4.
  destruct (in_news snap s); [congruence|].
  destruct (in_olds snap s); [lia|].
  destruct Hs as [?|[?|Hz]]; try discriminate. rewrite Hz. lia.
Qed.

Lemma relocate_rep :
  Rep dR P phi' /\ capacity dR = capacity d /\ dynamic dR = dynamic d /\
  zget (base dR) p = nb /\
  (forall s, in_news snap s = false ->
             zget (check d) s = 0 \/ in_olds snap s = true -> zget (check dR) s = 0) /\
  (forall w, P w -> w <> u -> zget (base dR) (phi' w) = zget (base d) (phi w)).
Proof.
  destruct stage2 as (A2 & B2 & D2 & E2 & F2 & G2).
  destruct stage4 as (A4 & B4 & D4 & _).
  pose proof p_range as Hp. pose proof p_cell as (Hpn & Hpo).
  assert (Hchild : forall k, P (u ++ [k]) -> In k K) by (intros k; apply K_spec).
  assert (Hkeep : forall w, P w -> is_child u w = None ->
                            zget (check d2) (phi w) = zget (check d) (phi w)).
  { intros w Hw Hnc. destruct (not_child_cell w Hw Hnc) as (N1 & N2).
    rewrite E2, N1, N2. reflexivity. }
  assert (Hvals : forall w, P w -> w <> u -> zget (base dR) (phi' w) = zget (base d) (phi w)).
  { intros w Hw Hne. unfold phi'. destruct (is_child u w) as [k|] eqn:Ek.
    - apply is_child_some in Ek. subst w. pose proof (Hchild k Hw) as Hk.
      rewrite baseR. destruct (Hfit k Hk) as (Hnp & _).
      destruct (Z.eqb_spec (nb + k) p); [contradiction|].
      rewrite (F2 k Hk), (K_old k Hk). reflexivity.
    - destruct (not_child_cell w Hw Ek) as (N1 & N2). rewrite baseR.
      destruct (Z.eqb_spec (phi w) p) as [Heq|_].
      + exfalso. apply Hne. apply (rep_inj _ _ _ HR); assumption.
      + rewrite (G2 _ N1), N2. reflexivity. }
  split; [|split; [apply capR|split; [|split; [|split]]]].
  - constructor.
    + unfold dR. cbn [set_base base check]. rewrite zlen_zset. rewrite B4, B2, A4, A2. apply Hlen.
    + rewrite capR. apply (rep_cap _ _ _ HR).
    + destruct (rep_root _ _ _ HR) as (R1 & R2 & R3).
      split; [unfold phi'; cbn; exact R1|]. split; [|exact R3].
      rewrite checkR. rewrite <- R1.
      assert (Hr : is_child u [] = None) by reflexivity.
      rewrite passes_keep.
      * rewrite (Hkeep [] R3 Hr). rewrite R1. exact R2.
      * intros c Hc. rewrite (Hkeep [] R3 Hr), R1, R2, (K_old c Hc), <- R1.
        intros Heq. apply K_spec in Hc.
        apply (rep_inj _ _ _ HR) in Heq; [|assumption|assumption].
        apply (f_equal (@length Z)) in Heq. rewrite length_app in Heq. simpl in Heq. lia.
    + apply (rep_closed _ _ _ HR).
    + intros w Hw. rewrite capR. unfold phi'. destruct (is_child u w) as [k|] eqn:Ek.
      * apply is_child_some in Ek. subst w. pose proof (Hchild k Hw) as Hk.
        pose proof (Hcap k Hk). pose proof (K_range k Hk). lia.
      * apply (rep_range _ _ _ HR w Hw).
    + intros w c Hw.
      destruct (rep_closed _ _ _ HR w c Hw) as (Hw0 & Hc).
      destruct (rep_edge _ _ _ HR w c Hw) as (E1 & E2' & E3 & E4).
      destruct (list_eq_dec Z.eq_dec w u) as [Hwu|Hwu]; [subst w|].
      * (* the children of [u] *)
        pose proof (Hchild c Hw) as Hk. destruct (Hfit c Hk) as (Hnp & _).
        unfold phi'. rewrite is_child_self, is_child_snoc. fold p.
        rewrite baseR, Z.eqb_refl.
        split; [lia|]. split; [reflexivity|]. split; [|assumption].
        rewrite checkR, passes_keep.
        -- rewrite E2. assert (Hin : in_news snap (nb + c) = true)
             by (apply in_news_spec; exists c; auto).
           rewrite Hin. reflexivity.
        -- intros c' Hc'. apply old_not_check2; [|assumption].
           left. apply in_news_spec. exists c. auto.
      * assert (Hnc : is_child u (w ++ [c]) = None).
        { destruct (is_child u (w ++ [c])) as [c'|] eqn:Ec; [|reflexivity].
          apply is_child_some in Ec. apply snoc_inj in Ec. destruct Ec. contradiction. }
        destruct (not_child_cell _ Hw Hnc) as (N1 & N2).
        rewrite (Hvals w Hw0 Hwu).
        assert (Hphi : phi' (w ++ [c]) = phi (w ++ [c])) by (unfold phi'; rewrite Hnc; reflexivity).
        rewrite Hphi. split; [assumption|]. split; [assumption|].
        rewrite checkR.
        unfold phi' at 1 2. destruct (is_child u w) as [k|] eqn:Ek.
        -- (* the grandchildren *)
           apply is_child_some in Ek. subst w. pose proof (Hchild k Hw0) as Hk.
           split.
           ++ apply passes_move; try assumption.
              ** rewrite (Hkeep _ Hw Hnc), E3. symmetry. apply K_old. assumption.
              ** rewrite (K_old k Hk). assumption.
              ** rewrite (K_old k Hk). lia.
              ** apply (rep_range _ _ _ HR _ Hw).
           ++ intros Heq. assert (Hin : in_news snap (phi ((u ++ [k]) ++ [c])) = true)
                by (apply in_news_spec; exists k; auto).
              congruence.
        -- split; [|assumption].
           rewrite passes_keep; [rewrite (Hkeep _ Hw Hnc); assumption|].
           intros c' Hc'. rewrite (Hkeep _ Hw Hnc), E3, (K_old c' Hc').
           intros Heq. apply K_spec in Hc'.
           apply (rep_inj _ _ _ HR) in Heq; [|assumption|assumption].
           subst w. rewrite is_child_snoc in Ek. discriminate.
    + intros w w' Hw Hw'. unfold phi'.
      destruct (is_child u w) as [k|] eqn:Ek; destruct (is_child u w') as [k'|] eqn:Ek'.
      * apply is_child_some in Ek, Ek'. subst. intros Heq. f_equal. f_equal. lia.
      * apply is_child_some in Ek. subst w. intros Heq.
        destruct (not_child_cell w' Hw' Ek') as (N1 & _).
        assert (Hin : in_news snap (phi w') = true)
          by (apply in_news_spec; exists k; split; [apply Hchild; assumption|congruence]).
        congruence.
      * apply is_child_some in Ek'. subst w'. intros Heq.
        destruct (not_child_cell w Hw Ek) as (N1 & _).
        assert (Hin : in_news snap (phi w) = true)
          by (apply in_news_spec; exists k'; split; [apply Hchild; assumption|congruence]).
        congruence.
      * apply (rep_inj _ _ _ HR); assumption.
    + intros s Hs Hc. rewrite capR in Hs. rewrite checkR in Hc.
      destruct (in_news snap s) eqn:Hn.
      * apply in_news_spec in Hn. destruct Hn as (k & Hk & ->).
        exists (u ++ [k]). split; [apply K_spec; assumption|].
        unfold phi'. rewrite is_child_snoc. reflexivity.
      * destruct (in_olds snap s) eqn:Ho.
        -- exfalso. apply Hc. rewrite passes_keep; [rewrite E2, Hn, Ho; reflexivity|].
           intros c' Hc'. apply old_not_check2; auto.
        -- destruct (Z.eq_dec (zget (check d) s) 0) as [Hz|Hnz].
           ++ exfalso. apply Hc. rewrite passes_keep; [rewrite E2, Hn, Ho; assumption|].
              intros c' Hc'. apply old_not_check2; auto.
           ++ destruct (rep_used _ _ _ HR s Hs Hnz) as (w & Hw & Hphi).
              exists w. split; [assumption|]. unfold phi'.
              destruct (is_child u w) as [k|] eqn:Ek; [|assumption].
              exfalso. apply is_child_some in Ek. subst w.
              assert (Hin : in_olds snap s = true).
              { apply in_olds_spec. exists k. split; [apply Hchild; assumption|].
                rewrite K_old by (apply Hchild; assumption). congruence. }
              congruence.
  - unfold dR. cbn [set_base dynamic]. congruence.
  - rewrite baseR, Z.eqb_refl. reflexivity.
  - intros s Hn Hs. rewrite checkR, passes_keep.
    + rewrite E2, Hn. destruct (in_olds snap s); [reflexivity|].
      destruct Hs as [?|?]; [assumption|discriminate].
    + intros c Hc. apply old_not_check2; [|assumption]. tauto.
  - exact Hvals.
Qed.

End RelocRep.

(** ** Adding one transition *)

Lemma Rep_P_ext d (P P' : path -> Prop) phi :
  (forall w, P w <-> P' w) -> Rep d P phi -> Rep d P' phi.
Proof.
  intros H HR. constructor.
  - apply (rep_len _ _ _ HR).
  - apply (rep_cap _ _ _ HR).
  - destruct (rep_root _ _ _ HR) as (R1 & R2 & R3). repeat split; auto. apply H. assumption.
  - intros w c Hw. apply H in Hw. destruct (rep_closed _ _ _ HR w c Hw). split; [apply H|]; assumption.
  - intros w Hw. apply (rep_range _ _ _ HR). apply H. assumption.
  - intros w c Hw. apply (rep_edge _ _ _ HR). apply H. assumption.
  - intros w w' Hw Hw'. apply (rep_inj _ _ _ HR); apply H; assumption.
  - intros s Hs Hc. destruct (rep_used _ _ _ HR s Hs Hc) as (w & Hw & E).
    exists w. split; [apply H|]; assumption.
Qed.

(** A node's cell is in use. *)
Lemma rep_node_used d P phi w : Rep d P phi -> P w -> zget (check d) (phi w) <> 0.
Proof.
  intros HR Hw. destruct (snoc_cases w) as [->|(v & c & ->)].
  - destruct (rep_root _ _ _ HR) as (R1 & R2 & _). rewrite R1, R2. discriminate.
  - destruct (rep_edge _ _ _ HR v c Hw) as (_ & _ & E3 & _). rewrite E3.
    destruct (rep_closed _ _ _ HR v c Hw) as (Hv & _).
    pose proof (rep_range _ _ _ HR v Hv). lia.
Qed.

(** Giving a base to a node without children. *)
Lemma set_base_leaf_rep d P phi u v :
  Rep d P phi -> P u -> (forall c, ~ P (u ++ [c])) ->
  Rep (set_base d (phi u) v) P phi.
Proof.
  intros HR Hu Hleaf. constructor; unfold capacity; cbn [set_base base check].
  - rewrite zlen_zset. apply (rep_len _ _ _ HR).
  - rewrite zlen_zset. apply (rep_cap _ _ _ HR).
  - apply (rep_root _ _ _ HR).
  - apply (rep_closed _ _ _ HR).
  - intros w Hw. rewrite zlen_zset. apply (rep_range _ _ _ HR w Hw).
  - intros w c Hw. destruct (rep_closed _ _ _ HR w c Hw) as (Hw0 & _).
    assert (Hne : phi u <> phi w).
    { intros E. apply (rep_inj _ _ _ HR) in E; [|assumption|assumption]. subst w.
      apply (Hleaf c Hw). }
    rewrite zget_zset_other by assumption. apply (rep_edge _ _ _ HR w c Hw).
  - apply (rep_inj _ _ _ HR).
  - intros s. rewrite zlen_zset. apply (rep_used _ _ _ HR).
Qed.

(** Taking a free cell for a new child. *)
Definition phi_add (phi : path -> Z) (x : path) (idx : Z) (w : path) : Z :=
  if list_eq_dec Z.eq_dec w x then idx else phi w.

Lemma add_leaf_rep d P phi u c idx :
  Rep d P phi -> P u -> ~ P (u ++ [c]) -> 0 <= c <= 255 ->
  0 < zget (base d) (phi u) -> idx = zget (base d) (phi u) + c ->
  idx < capacity d -> zget (check d) idx = 0 ->
  Rep (set_base (set_check d idx (phi u)) idx 0)
      (fun w => P w \/ w = u ++ [c]) (phi_add phi (u ++ [c]) idx) /\
  forall w, P w -> zget (base (set_base (set_check d idx (phi u)) idx 0))
                        (phi_add phi (u ++ [c]) idx w) = zget (base d) (phi w).
Proof.
  intros HR Hu Hnew Hc Hb Hidx Hcap Hfree.
  assert (Hfresh : forall w, P w -> phi w <> idx).
  { intros w Hw E. apply (rep_node_used d P phi w HR Hw). rewrite E. exact Hfree. }
  assert (Hold : forall w, P w -> phi_add phi (u ++ [c]) idx w = phi w).
  { intros w Hw. unfold phi_add. destruct (list_eq_dec Z.eq_dec w (u ++ [c])); [|reflexivity].
    subst w. contradiction. }
  assert (Hnewphi : phi_add phi (u ++ [c]) idx (u ++ [c]) = idx).
  { unfold phi_add. destruct (list_eq_dec Z.eq_dec (u ++ [c]) (u ++ [c])); [reflexivity|contradiction]. }
  pose proof (rep_len _ _ _ HR) as Hl.
  assert (Hidx0 : 0 <= idx) by lia.
  split.
  - constructor; unfold capacity; cbn [set_base set_check base check].
    + rewrite !zlen_zset. exact Hl.
    + rewrite zlen_zset. apply (rep_cap _ _ _ HR).
    + destruct (rep_root _ _ _ HR) as (R1 & R2 & R3).
      split; [rewrite (Hold [] R3); exact R1|]. split; [|left; exact R3].
      rewrite zget_zset_other; [exact R2|]. rewrite <- R1. intros E. apply (Hfresh [] R3). auto.
    + intros w c0 [Hw|Hw].
      * destruct (rep_closed _ _ _ HR w c0 Hw). auto.
      * apply snoc_inj in Hw. destruct Hw as (-> & ->). auto.
    + intros w [Hw | ->].
      * rewrite (Hold w Hw), zlen_zset. apply (rep_range _ _ _ HR w Hw).
      * rewrite Hnewphi, zlen_zset. unfold capacity in Hcap. lia.
    + intros w c0 [Hw|Hw].
      * destruct (rep_closed _ _ _ HR w c0 Hw) as (Hw0 & _).
        rewrite (Hold w Hw0), (Hold _ Hw).
        rewrite !zget_zset_other by (apply not_eq_sym; apply Hfresh; assumption).
        apply (rep_edge _ _ _ HR w c0 Hw).
      * apply snoc_inj in Hw. destruct Hw as (-> & ->).
        rewrite (Hold u Hu), Hnewphi.
        rewrite zget_zset_other by (apply not_eq_sym; apply Hfresh; assumption).
        split; [assumption|]. split; [assumption|]. split.
        -- apply zget_zset_same. unfold capacity in Hcap. lia.
        -- apply not_eq_sym. apply Hfresh. assumption.
    + intros w w' [Hw | ->] [Hw' | ->].
      * rewrite (Hold w Hw), (Hold w' Hw'). apply (rep_inj _ _ _ HR); assumption.
      * rewrite (Hold w Hw), Hnewphi. intros E. exfalso. apply (Hfresh w Hw E).
      * rewrite (Hold w' Hw'), Hnewphi. intros E. exfalso. apply (Hfresh w' Hw'). auto.
      * reflexivity.
    + intros s Hs Hchk. rewrite zlen_zset in Hs.
      destruct (Z.eq_dec s idx) as [->|Hne].
      * exists (u ++ [c]). split; [right; reflexivity|exact Hnewphi].
      * rewrite zget_zset_other in Hchk by congruence.
        destruct (rep_used _ _ _ HR s Hs Hchk) as (w & Hw & E).
        exists w. split; [left; assumption|]. rewrite (Hold w Hw). exact E.
  - intros w Hw. rewrite (Hold w Hw). cbn [set_base set_check base].
    apply zget_zset_other. apply not_eq_sym. apply Hfresh. assumption.
Qed.

Lemma collect_ext d d' p :
  zlen (check d) = zlen (base d) -> ext d d' -> 1 <= p ->
  da_collect_children_codes d' p = da_collect_children_codes d p.
Proof.
  intros Hl (E1 & E2 & E3 & E4 & E5) Hp. unfold da_collect_children_codes.
  rewrite E3. destruct (_ <=? 0); [reflexivity|].
  apply filter_ext_in. intros c Hc. cbv zeta. rewrite E4.
  destruct (Z.ltb_spec (zget (base d) p + c) (capacity d)) as [Hin|Hout].
  - destruct (Z.ltb_spec (zget (base d) p + c) (capacity d')); [reflexivity|lia].
  - rewrite (zget_out (check d)) by (rewrite Hl; exact Hout).
    destruct (Z.eqb_spec 0 p); [lia|]. rewrite !andb_false_r. reflexivity.
Qed.

Lemma rep_self_check d P phi w :
  Rep d P phi -> P w -> zget (check d) (phi w) = phi w -> w = [].
Proof.
  intros HR Hw E. destruct (snoc_cases w) as [->|(v & c & ->)]; [reflexivity|].
  destruct (rep_edge _ _ _ HR v c Hw) as (_ & _ & E3 & E4). congruence.
Qed.

Section Ensure.

Variable mem_limit : Z.

Definition ensure_tail (da : da_trie_t) (parent code b : Z) : Z * Z * da_trie_t :=
  let idx := b + code in
  match da_reserve mem_limit da (idx + 1) with
  | (0, da) =>
    let chk := zget (check da) idx in
    if chk =? parent then (DA_OK, idx, da)
    else if chk =? 0 then (DA_OK, idx, set_base (set_check da idx parent) idx 0)
    else
      let codes := da_collect_children_codes da parent in
      let codes := if negb (da_codes_contains codes code) then codes ++ [code] else codes in
      match da_find_base mem_limit da parent codes with
      | (0, new_base, da) =>
        match da_relocate_children mem_limit da parent new_base with
        | (0, da) =>
          let idx := new_base + code in
          match da_reserve mem_limit da (idx + 1) with
          | (0, da) =>
            if negb (zget (check da) idx =? 0) then (DA_ERR_FULL, 0, da)
            else (DA_OK, idx, set_base (set_check da idx parent) idx 0)
          | (rc, da) => (rc, 0, da)
          end
        | (rc, da) => (rc, 0, da)
        end
      | (rc, _, da) => (rc, 0, da)
      end
  | (rc, da) => (rc, 0, da)
  end.

Lemma ensure_unfold da parent code :
  da_ensure_transition mem_limit da parent code =
  if negb (da_is_initialized da) then (DA_ERR_BADARG, 0, da)
  else if (parent <=? 0) || (capacity da <=? parent) then (DA_ERR_BADARG, 0, da)
  else
    let b := zget (base da) parent in
    if b <=? 0 then
      match da_find_base mem_limit da parent [code] with
      | (0, new_base, da1) => ensure_tail (set_base da1 parent new_base) parent code new_base
      | (rc, _, da1) => (rc, 0, da1)
      end
    else ensure_tail da parent code b.
Proof.
  unfold da_ensure_transition, ensure_tail.
  destruct (negb (da_is_initialized da)); [reflexivity|].
  destruct ((parent <=? 0) || (capacity da <=? parent)); [reflexivity|].
  cbv zeta. destruct (zget (base da) parent <=? 0); [|reflexivity].
  destruct (da_find_base mem_limit da parent [code]) as ((rc, nb), da1).
  destruct rc; reflexivity.
Qed.

Lemma tail_rep d P phi u c rc next d' :
  Rep d P phi -> P u -> 0 <= c <= 255 -> (u <> [] \/ c <> 0) ->
  0 < zget (base d) (phi u) ->
  ensure_tail d (phi u) c (zget (base d) (phi u)) = (rc, next, d') -> rc = 0 ->
  exists phi2,
    Rep d' (fun w => P w \/ w = u ++ [c]) phi2 /\ phi2 (u ++ [c]) = next /\
    (forall w, P w -> w <> u -> zget (base d') (phi2 w) = zget (base d) (phi w)) /\
    (P (u ++ [c]) -> forall w, P w -> zget (base d') (phi2 w) = zget (base d) (phi w)).
Proof.
  intros HR Hu Hc Hroot Hb H Hrc. unfold ensure_tail in H. cbv zeta in H.
  set (p := phi u) in *. set (b := zget (base d) p) in *.
  pose proof (rep_range _ _ _ HR u Hu) as Hp. fold p in Hp.
  destruct (da_reserve mem_limit d (b + c + 1)) as (rc2, d2) eqn:R.
  apply reserve_spec in R; [|apply (rep_len _ _ _ HR)]. destruct R as (X2 & Hres).
  destruct rc2 as [|?|?]; [|inversion H; subst; discriminate|inversion H; subst; discriminate].
  specialize (Hres eq_refl).
  pose proof (Rep_ext _ _ _ _ HR X2) as HR2.
  destruct X2 as (E1 & E2 & E3 & E4 & E5).
  assert (Hb2 : zget (base d2) p = b) by apply E3.
  destruct (Z.eqb_spec (zget (check d2) (b + c)) p) as [Echk|Echk].
  { (* the transition exists *)
    inversion H; subst rc next d'. clear H.
    assert (Hne : b + c <> p).
    { intros E. rewrite E in Echk.
      pose proof (rep_self_check _ _ _ _ HR2 Hu Echk) as Hnil.
      destruct (rep_root _ _ _ HR) as (R1 & _). unfold DA_ROOT in R1.
      assert (p = 1) by (unfold p; rewrite Hnil; exact R1).
      destruct Hroot as [Hr|Hr]; [contradiction|]. lia. }
    destruct (rep_child_of d2 P phi HR2 u (b + c) Hu ltac:(lia) Echk Hne) as (c' & Hc' & Hphi & Heq).
    fold p in Heq. rewrite Hb2 in Heq. assert (c' = c) by lia. subst c'.
    exists phi. split.
    - apply (Rep_P_ext d2 P); [|assumption].
      intros w. split; [auto|]. intros [Hw | ->]; assumption.
    - split; [exact Hphi|]. split; intros; apply E3. }
  assert (Hnew : ~ P (u ++ [c])).
  { intros Hw. destruct (rep_edge _ _ _ HR2 u c Hw) as (_ & F2 & F3 & _).
    fold p in F2, F3. rewrite Hb2 in F2. rewrite F2 in F3. contradiction. }
  destruct (Z.eqb_spec (zget (check d2) (b + c)) 0) as [Efree|Eocc].
  { (* a free cell *)
    inversion H; subst rc next d'. clear H.
    assert (A1 : 0 < zget (base d2) p) by lia.
    assert (A2 : b + c = zget (base d2) p + c) by lia.
    assert (A3 : b + c < capacity d2) by lia.
    destruct (add_leaf_rep d2 P phi u c (b + c) HR2 Hu Hnew Hc A1 A2 A3 Efree) as (HR3 & Hv).
    exists (phi_add phi (u ++ [c]) (b + c)). split; [exact HR3|]. split.
    - unfold phi_add. destruct (list_eq_dec Z.eq_dec (u ++ [c]) (u ++ [c])); [reflexivity|contradiction].
    - split.
      + intros w Hw _. fold p in Hv. rewrite (Hv w Hw). apply E3.
      + intros Hw. contradiction. }
  (* a conflict: the children of the parent move *)
  set (K := da_collect_children_codes d2 p) in *.
  assert (HK : forall x, In x K <-> P (u ++ [x])).
  { intros x. apply (K_spec d2 P phi HR2 u Hu). fold p. rewrite Hb2. exact Hb. }
  assert (Hcont : da_codes_contains K c = false).
  { destruct (da_codes_contains K c) eqn:E; [|reflexivity].
    unfold da_codes_contains in E. apply existsb_exists in E. destruct E as (x & Hx & Ex).
    apply Z.eqb_eq in Ex. subst x. apply HK in Hx. contradiction. }
  rewrite Hcont in H. cbn [negb] in H.
  destruct (da_find_base mem_limit d2 p (K ++ [c])) as ((rc3, nb), d4) eqn:F.
  apply find_base_spec in F; [|apply (rep_len _ _ _ HR2)]. destruct F as (X4 & Hfb).
  destruct rc3 as [|?|?]; [|inversion H; subst; discriminate|inversion H; subst; discriminate].
  destruct (Hfb eq_refl) as (Hnb & Hcap & Hfit). clear Hfb.
  pose proof (Rep_ext _ _ _ _ HR2 X4) as HR4.
  assert (HK4 : da_collect_children_codes d4 p = K).
  { apply collect_ext; [apply (rep_len _ _ _ HR2)|assumption|lia]. }
  destruct X4 as (G1 & G2 & G3 & G4 & G5).
  assert (Hb4 : zget (base d4) p = b) by (rewrite G3; exact Hb2).
  assert (Hfit' : forall x, In x (K ++ [c]) ->
            nb + x <> p /\ (zget (check d4) (nb + x) = 0 \/ zget (check d4) (nb + x) = p)).
  { intros x Hx. unfold base_fits in Hfit. rewrite forallb_forall in Hfit.
    specialize (Hfit x Hx). cbv zeta in Hfit. apply andb_true_iff in Hfit. destruct Hfit as (A & B).
    split; [apply negb_true_iff, Z.eqb_neq in A; exact A|].
    apply orb_true_iff in B. destruct B as [B|B]; apply Z.eqb_eq in B; auto. }
  assert (Hcap4 : forall x, In x (da_collect_children_codes d4 (phi u)) -> nb + x + 1 <= capacity d4).
  { fold p. rewrite HK4. intros x Hx. apply Hcap. apply in_or_app. auto. }
  assert (Hfit4 : forall x, In x (da_collect_children_codes d4 (phi u)) ->
            nb + x <> phi u /\ (zget (check d4) (nb + x) = 0 \/ zget (check d4) (nb + x) = phi u)).
  { fold p. rewrite HK4. intros x Hx. apply Hfit'. apply in_or_app. auto. }
  assert (Hb4' : 0 < zget (base d4) (phi u)) by (fold p; rewrite Hb4; exact Hb).
  pose proof (relocate_eq mem_limit d4 phi u nb Hcap4) as Erel. fold p in Erel.
  rewrite Erel in H.
  destruct (relocate_rep d4 P phi HR4 u Hu Hb4' nb Hnb Hcap4 Hfit4)
    as (HRR & capR & dynR & baseR & freeR & valsR).
  set (dr := dR d4 phi u nb) in *. set (phiR := phi' phi u nb) in *.
  assert (HphiRu : phiR u = p).
  { unfold phiR, phi'. rewrite is_child_self. reflexivity. }
  clearbody dr.
  destruct (da_reserve mem_limit dr (nb + c + 1)) as (rc5, d5) eqn:R5.
  apply reserve_spec in R5; [|apply (rep_len _ _ _ HRR)]. destruct R5 as (X5 & _).
  destruct rc5 as [|?|?]; [|inversion H; subst; discriminate|inversion H; subst; discriminate].
  pose proof (Rep_ext _ _ _ _ HRR X5) as HR5.
  destruct X5 as (J1 & J2 & J3 & J4 & J5).
  assert (Hc_in : In c (K ++ [c])) by (apply in_or_app; right; left; reflexivity).
  assert (Hfree : zget (check d5) (nb + c) = 0).
  { rewrite J4. apply freeR.
    - destruct (in_news (snap d4 phi u nb) (nb + c)) eqn:E; [|reflexivity].
      apply in_news_spec in E. destruct E as (x & Hx & Ex). fold p in Hx. rewrite HK4 in Hx.
      assert (x = c) by lia. subst x. apply HK in Hx. contradiction.
    - destruct (Hfit' c Hc_in) as (A & [B|B]); [left; exact B|]. right.
      pose proof (Hcap c Hc_in) as Hcc.
      destruct (rep_child_of d4 P phi HR4 u (nb + c) Hu ltac:(lia) B A) as (x & Hx & _ & Ex).
      apply in_olds_spec. exists x. split; [|exact Ex].
      fold p. rewrite HK4. apply HK. exact Hx. }
  rewrite Hfree in H. cbn [Z.eqb negb] in H.
  inversion H; subst rc next d'. clear H.
  assert (Hbr : zget (base d5) (phiR u) = nb).
  { rewrite HphiRu, J3. exact baseR. }
  pose proof (Hcap c Hc_in) as Hcc.
  assert (A1 : 0 < zget (base d5) (phiR u)) by lia.
  assert (A2 : nb + c = zget (base d5) (phiR u) + c) by lia.
  assert (A3 : nb + c < capacity d5) by lia.
  destruct (add_leaf_rep d5 P phiR u c (nb + c) HR5 Hu Hnew Hc A1 A2 A3 Hfree) as (HR6 & Hv).
  rewrite HphiRu in HR6, Hv.
  exists (phi_add phiR (u ++ [c]) (nb + c)). split; [exact HR6|]. split.
  - unfold phi_add. destruct (list_eq_dec Z.eq_dec (u ++ [c]) (u ++ [c])); [reflexivity|contradiction].
  - split.
    + intros w Hw Hne. rewrite (Hv w Hw), J3, (valsR w Hw Hne), G3. apply E3.
    + intros Hw. contradiction.
Qed.

Lemma ensure_rep d P phi u c rc next d' :
  Rep d P phi -> P u -> 0 <= c <= 255 -> (u <> [] \/ c <> 0) ->
  da_ensure_transition mem_limit d (phi u) c = (rc, next, d') -> rc = 0 ->
  exists phi2,
    Rep d' (fun w => P w \/ w = u ++ [c]) phi2 /\ phi2 (u ++ [c]) = next /\
    (forall w, P w -> w <> u -> zget (base d') (phi2 w) = zget (base d) (phi w)) /\
    (P (u ++ [c]) -> forall w, P w -> zget (base d') (phi2 w) = zget (base d) (phi w)).
Proof.
  intros HR Hu Hc Hroot H Hrc. rewrite ensure_unfold in H.
  rewrite (rep_init d P phi HR) in H. cbn [negb] in H.
  pose proof (rep_range _ _ _ HR u Hu) as Hp.
  destruct (Z.leb_spec (phi u) 0); [lia|]. destruct (Z.leb_spec (capacity d) (phi u)); [lia|].
  cbn [orb] in H. cbv zeta in H.
  destruct (Z.leb_spec (zget (base d) (phi u)) 0) as [Hb|Hb].
  2:{ apply (tail_rep d P phi u c rc next d'); assumption. }
  assert (Hleaf : forall x, ~ P (u ++ [x])).
  { intros x Hx. destruct (rep_edge _ _ _ HR u x Hx) as (F1 & _). lia. }
  destruct (da_find_base mem_limit d (phi u) [c]) as ((rc1, nb), d1) eqn:F.
  apply find_base_spec in F; [|apply (rep_len _ _ _ HR)]. destruct F as (X1 & Hfb).
  destruct rc1 as [|?|?]; [|inversion H; subst; discriminate|inversion H; subst; discriminate].
  destruct (Hfb eq_refl) as (Hnb & _). clear Hfb.
  pose proof (Rep_ext _ _ _ _ HR X1) as HR1.
  pose proof (set_base_leaf_rep d1 P phi u nb HR1 Hu Hleaf) as HR1'.
  destruct X1 as (E1 & E2 & E3 & E4 & E5).
  assert (Hbase : zget (base (set_base d1 (phi u) nb)) (phi u) = nb).
  { cbn [set_base base]. apply zget_zset_same. unfold capacity in *. lia. }
  rewrite <- Hbase in H at 2.
  destruct (tail_rep _ P phi u c rc next d' HR1' Hu Hc Hroot ltac:(lia) H Hrc)
    as (phi2 & T1 & T2 & T3 & T4).
  exists phi2. split; [exact T1|]. split; [exact T2|]. split.
  - intros w Hw Hne. rewrite (T3 w Hw Hne). cbn [set_base base].
    rewrite zget_zset_other; [apply E3|].
    intros E. apply Hne. symmetry. apply (rep_inj _ _ _ HR); assumption.
  - intros Hw. exfalso. apply (Hleaf c Hw).
Qed.

End Ensure.

Import TrieSpec.

(** ** Adding a key *)

(** The nodes of the trie of the keys [ks]: the prefixes of the keys with
    their end marker. *)
Definition KP (ks : list (list Z)) (w : path) : Prop :=
  w = [] \/ exists k, In k ks /\ exists r, k ++ [0] = w ++ r.

(** The nodes after the walk of [bytes] from the node [u]. *)
Definition ext_path (P : path -> Prop) (u bytes w : path) : Prop :=
  P w \/ exists k, (k <= length bytes)%nat /\ w = u ++ firstn k bytes.

Lemma ext_path_nil (P : path -> Prop) u w : P u -> (P w <-> ext_path P u [] w).
Proof.
  intros Hu. split; [left; assumption|].
  intros [H|(k & _ & ->)]; [assumption|]. rewrite firstn_nil, app_nil_r. exact Hu.
Qed.

Lemma ext_path_cons (P : path -> Prop) u c rest w :
  P u ->
  (ext_path (fun w => P w \/ w = u ++ [c]) (u ++ [c]) rest w <-> ext_path P u (c :: rest) w).
Proof.
  intros Hu. split.
  - intros [[H| ->]|(k & Hk & ->)].
    + left. assumption.
    + right. exists 1%nat. split; [simpl; lia|reflexivity].
    + right. exists (S k). split; [simpl; lia|]. rewrite <- app_assoc. reflexivity.
  - intros [H|(k & Hk & ->)].
    + left. left. assumption.
    + destruct k as [|k].
      * left. left. simpl. rewrite app_nil_r. exact Hu.
      * right. exists k. split; [simpl in Hk; lia|]. rewrite <- app_assoc. reflexivity.
Qed.

Lemma prefix_snoc (w key : path) :
  (exists r, key ++ [0] = w ++ r) <->
  (exists k, (k <= length key)%nat /\ w = firstn k key) \/ w = key ++ [0].
Proof.
  split.
  - intros (r & E). destruct (snoc_cases r) as [->|(r' & x & ->)].
    + right. rewrite app_nil_r in E. auto.
    + left. rewrite app_assoc in E. apply snoc_inj in E. destruct E as (E & _).
      exists (length w). subst key. split; [rewrite length_app; lia|].
      rewrite firstn_app, firstn_all, Nat.sub_diag, firstn_O, app_nil_r. reflexivity.
  - intros [(k & Hk & ->)| ->].
    + exists (skipn k key ++ [0]). rewrite app_assoc, firstn_skipn. reflexivity.
    + exists []. rewrite app_nil_r. reflexivity.
Qed.

Lemma KP_cons ks key w :
  (ext_path (KP ks) [] key w \/ w = key ++ [0]) <-> KP (key :: ks) w.
Proof.
  split.
  - intros [[[->|(k & Hk & Hr)]|(n & Hn & ->)]| ->].
    + left. reflexivity.
    + right. exists k. split; [right; assumption|assumption].
    + right. exists key. split; [left; reflexivity|].
      apply prefix_snoc. left. exists n. auto.
    + right. exists key. split; [left; reflexivity|]. exists []. rewrite app_nil_r. reflexivity.
  - intros [->|(k & [<-|Hk] & Hr)].
    + left. left. left. reflexivity.
    + apply prefix_snoc in Hr. destruct Hr as [(n & Hn & ->)| ->]; [|right; reflexivity].
      left. right. exists n. auto.
    + left. left. right. exists k. auto.
Qed.

Lemma KP_nil w : w = [] <-> KP [] w.
Proof.
  split; [left; assumption|]. intros [H|(k & [] & _)]. assumption.
Qed.

Lemma KP_in ks ks' w : (forall k, In k ks <-> In k ks') -> KP ks w -> KP ks' w.
Proof.
  intros H [->|(k & Hk & Hr)]; [left; reflexivity|].
  right. exists k. split; [apply H|]; assumption.
Qed.

(** A key's end node has no child, and the node before it is the key. *)
Lemma no_zero_snoc (u v : path) : Forall (fun c => c <> 0) u -> v ++ [0] <> u.
Proof.
  intros H E. subst u. apply Forall_app in H. destruct H as (_ & H).
  inversion H; subst. congruence.
Qed.

Lemma valid_no_zero k : Forall (fun c => 1 <= c <= 255) k -> Forall (fun c => c <> 0) k.
Proof. apply Forall_impl. intros; lia. Qed.

Lemma KP_key ks k : In k ks -> KP ks (k ++ [0]).
Proof. intros H. right. exists k. split; [assumption|]. exists []. rewrite app_nil_r. reflexivity. Qed.

Lemma KP_term ks v :
  Forall valid_key ks -> KP ks (v ++ [0]) -> In v ks.
Proof.
  intros Hv [E|(k & Hk & r & Hr)]; [destruct v; discriminate|].
  rewrite Forall_forall in Hv. destruct (Hv k Hk) as (_ & Hz).
  destruct (snoc_cases r) as [->|(r' & x & ->)].
  - rewrite app_nil_r in Hr. apply snoc_inj in Hr. destruct Hr as (-> & _). assumption.
  - exfalso. rewrite !app_assoc in Hr. apply snoc_inj in Hr. destruct Hr as (Hr & _).
    apply valid_no_zero in Hz. rewrite Hr in Hz.
    apply Forall_app in Hz. destruct Hz as (Hz & _).
    apply Forall_app in Hz. destruct Hz as (_ & Hz). inversion Hz; subst. congruence.
Qed.

Lemma KP_term_leaf ks v x : Forall valid_key ks -> ~ KP ks ((v ++ [0]) ++ [x]).
Proof.
  intros Hv [E|(k & Hk & r & Hr)]; [destruct v; discriminate|].
  rewrite Forall_forall in Hv. destruct (Hv k Hk) as (_ & Hz). apply valid_no_zero in Hz.
  destruct (snoc_cases r) as [->|(r' & y & ->)].
  - rewrite app_nil_r in Hr. apply snoc_inj in Hr. destruct Hr as (Hr & _).
    rewrite Hr in Hz. apply Forall_app in Hz. destruct Hz as (_ & Hz). inversion Hz; subst. congruence.
  - rewrite !app_assoc in Hr. apply snoc_inj in Hr. destruct Hr as (Hr & _).
    rewrite Hr in Hz. apply Forall_app in Hz. destruct Hz as (Hz & _).
    apply Forall_app in Hz. destruct Hz as (Hz & _).
    apply Forall_app in Hz. destruct Hz as (_ & Hz). inversion Hz; subst. congruence.
Qed.

Section AddKey.

Variable mem_limit : Z.

Lemma add_loop_rep (bytes : list Z) : forall d P phi u rc cur d',
  Rep d P phi -> P u -> Forall (fun c => 1 <= c <= 255) bytes ->
  Forall (fun c => c <> 0) u ->
  add_loop mem_limit d bytes (phi u) = (rc, cur, d') -> rc = 0 ->
  exists phi2,
    Rep d' (ext_path P u bytes) phi2 /\ cur = phi2 (u ++ bytes) /\
    (forall v, P (v ++ [0]) ->
       zget (base d') (phi2 (v ++ [0])) = zget (base d) (phi (v ++ [0]))).
Proof.
  induction bytes as [|c rest IH]; intros d P phi u rc cur d' HR Hu Hb Hz H Hrc.
  - cbn [add_loop] in H. inversion H; subst. exists phi. split.
    + apply (Rep_P_ext d' P); [|assumption]. intros w. apply ext_path_nil. assumption.
    + rewrite app_nil_r. auto.
  - cbn [add_loop] in H. apply Forall_cons_iff in Hb. destruct Hb as (Hc & Hrest).
    destruct (da_ensure_transition mem_limit d (phi u) c) as ((rc1, next), d1) eqn:E.
    destruct rc1 as [|?|?]; [|inversion H; subst; discriminate|inversion H; subst; discriminate].
    destruct (ensure_rep mem_limit d P phi u c 0 next d1 HR Hu ltac:(lia) ltac:(right; lia) E eq_refl)
      as (phi1 & R1 & N1 & V1 & _).
    rewrite <- N1 in H.
    assert (Hz1 : Forall (fun c => c <> 0) (u ++ [c])).
    { apply Forall_app. split; [assumption|]. constructor; [lia|constructor]. }
    destruct (IH d1 _ phi1 (u ++ [c]) rc cur d' R1 ltac:(right; reflexivity) Hrest Hz1 H Hrc)
      as (phi2 & R2 & N2 & V2).
    exists phi2. split.
    + eapply Rep_P_ext; [|exact R2]. intros w. apply ext_path_cons. assumption.
    + split; [rewrite N2, <- app_assoc; reflexivity|].
      intros v Hv. rewrite V2 by (left; assumption).
      apply V1; [assumption|]. apply no_zero_snoc. assumption.
Qed.

Lemma add_bytes_rep d ks phi key rc d' :
  Rep d (KP ks) phi -> valid_key key ->
  da_trie_add_bytes mem_limit d key = (rc, d') -> rc = 0 ->
  exists phi2,
    Rep d' (KP (key :: ks)) phi2 /\
    (forall v, KP ks (v ++ [0]) ->
       zget (base d') (phi2 (v ++ [0])) = zget (base d) (phi (v ++ [0]))).
Proof.
  intros HR (Hne & Hb) H Hrc. unfold da_trie_add_bytes in H.
  destruct key as [|c0 key0] eqn:Ekey; [contradiction|]. rewrite <- Ekey in *.
  rewrite (rep_init d _ phi HR) in H. cbn [negb] in H.
  destruct (rep_root _ _ _ HR) as (R1 & _ & R3). rewrite <- R1 in H.
  destruct (add_loop mem_limit d key (phi [])) as ((rc1, cur), d1) eqn:E.
  destruct rc1 as [|?|?]; [|inversion H; subst; discriminate|inversion H; subst; discriminate].
  destruct (add_loop_rep key d _ phi [] 0 cur d1 HR R3 Hb (Forall_nil _) E eq_refl)
    as (phi1 & HR1 & N1 & V1).
  cbn [app] in N1. rewrite N1 in H.
  destruct (da_ensure_transition mem_limit d1 (phi1 key) 0) as ((rc2, term), d2) eqn:E2.
  assert (Hk : ext_path (KP ks) [] key key).
  { right. exists (length key). split; [lia|]. rewrite firstn_all. reflexivity. }
  destruct rc2 as [|?|?]; [|inversion H; subst; discriminate|inversion H; subst; discriminate].
  inversion H; subst d2. clear H.
  destruct (ensure_rep mem_limit d1 _ phi1 key 0 0 term d' HR1 Hk ltac:(lia) ltac:(left; exact Hne) E2 eq_refl)
    as (phi2 & HR2 & _ & V2 & V2').
  exists phi2. split.
  - eapply Rep_P_ext; [|exact HR2]. intros w. apply KP_cons.
  - intros v Hv. rewrite V2.
    + apply V1. assumption.
    + left. assumption.
    + apply no_zero_snoc. apply valid_no_zero. assumption.
Qed.

End AddKey.

(** ** Insertion succeeds while the allocator can double the arrays

    [Low d M]: the cells from [M] on are free, and no base is beyond [M].
    A transition that [da_ensure_transition] adds costs at most 256 cells:
    [da_find_base] stops at [M] at the latest, and the slots it hands out
    are below [M + 256]. *)

Definition Low (d : da_trie_t) (M : Z) : Prop :=
  (forall s, M <= s -> zget (check d) s = 0) /\ (forall s, zget (base d) s <= M).

(** The transitions that inserting the keys asks for: one for every byte and
    one for every end marker. *)
Definition key_cells (ks : list (list Z)) : Z :=
  fold_right (fun k a => zlen k + 1 + a) 0 ks.

Lemma key_cells_nonneg ks : 0 <= key_cells ks.
Proof.
  induction ks as [|k ks IH]; cbn [key_cells fold_right]; [lia|].
  fold (key_cells ks). pose proof (zlen_nonneg k). lia.
Qed.

Lemma Low_ext d d' M : Low d M -> ext d d' -> Low d' M.
Proof.
  intros (L1 & L2) (_ & _ & E3 & E4 & _). split; intros s.
  - intros Hs. rewrite E4. apply L1, Hs.
  - rewrite E3. apply L2.
Qed.

Lemma Low_mono d M M' : Low d M -> M <= M' -> Low d M'.
Proof.
  intros (L1 & L2) Hle. split; intros s.
  - intros Hs. apply L1. lia.
  - specialize (L2 s). lia.
Qed.

Lemma Low_new_cell d M idx p :
  Low d M -> 0 <= M -> idx < M ->
  Low (set_base (set_check d idx p) idx 0) M.
Proof.
  intros (L1 & L2) HM Hidx. split; intros s; cbn [set_base set_check base check].
  - intros Hs. rewrite zget_zset_other by lia. apply L1, Hs.
  - rewrite zget_zset. destruct (_ && _); [lia|apply L2].
Qed.

Lemma fold_max_le (codes : list Z) : forall a,
  a <= 255 -> Forall (fun c => 0 <= c <= 255) codes -> fold_left Z.max codes a <= 255.
Proof.
  induction codes as [|c codes IH]; intros a Ha Hc; cbn [fold_left]; [exact Ha|].
  apply Forall_cons_iff in Hc. destruct Hc as (Hc & Hrest).
  apply IH; [lia|assumption].
Qed.

Lemma fits_free d p b codes :
  (forall s, b <= s -> zget (check d) s = 0) -> p < b ->
  Forall (fun c => 0 <= c <= 255) codes ->
  base_fits d p b codes = true.
Proof.
  intros Hfree Hp Hc. unfold base_fits. apply forallb_forall. intros c Hin.
  rewrite Forall_forall in Hc. specialize (Hc c Hin). cbv zeta.
  rewrite (Hfree (b + c)) by lia.
  destruct (Z.eqb_spec (b + c) p); [lia|]. reflexivity.
Qed.

Section Total.

Variable mem_limit : Z.
Hypothesis Hmem : mem_limit < 2 ^ 31.

Lemma grow_cap_total (fuel : nat) : forall nc need,
  1 <= nc -> need <= nc * 2 ^ Z.of_nat fuel -> need < 2 ^ 62 ->
  exists r, grow_cap fuel nc need = Some r /\ (nc < need -> r < 2 * need).
Proof.
  induction fuel as [|f IH]; intros nc need Hnc Hfuel Hneed.
  - cbn [grow_cap]. change (2 ^ Z.of_nat 0) with 1 in Hfuel.
    destruct (Z.ltb_spec nc need); [lia|]. exists nc. split; [reflexivity|lia].
  - cbn [grow_cap]. destruct (Z.ltb_spec nc need) as [Hlt|Hge].
    + assert (Hmod : (nc * 2) mod (SIZE_MAX + 1) = nc * 2).
      { apply Z.mod_small. unfold SIZE_MAX. lia. }
      rewrite Hmod. destruct (Z.ltb_spec (nc * 2) nc); [lia|].
      destruct (IH (nc * 2) need) as (r & Hr & Hb); [lia| |assumption|].
      * rewrite Nat2Z.inj_succ, Z.pow_succ_r in Hfuel by lia. lia.
      * exists r. split; [exact Hr|]. intros _.
        destruct (Z.lt_ge_cases (nc * 2) need) as [H1|H1]; [apply Hb, H1|].
        assert (r = nc * 2).
        { destruct f; cbn [grow_cap] in Hr;
            destruct (Z.ltb_spec (nc * 2) need); try lia; congruence. }
        lia.
    + exists nc. split; [reflexivity|lia].
Qed.

Lemma reserve_total d need :
  dynamic d = true -> 1 <= capacity d -> 2 * need <= mem_limit ->
  exists d', da_reserve mem_limit d need = (0, d').
Proof.
  intros Hdyn Hcap Hneed. unfold da_reserve.
  destruct (Z.leb_spec need (capacity d)); [eexists; reflexivity|].
  rewrite Hdyn. cbn [negb].
  destruct (Z.eqb_spec (capacity d) 0); [lia|].
  destruct (grow_cap_total 64 (capacity d) need) as (r & Hr & Hb); [lia| |lia|].
  { change (2 ^ Z.of_nat 64) with 18446744073709551616. lia. }
  rewrite Hr. specialize (Hb ltac:(lia)).
  destruct (Z.ltb_spec mem_limit r); [lia|]. eexists. reflexivity.
Qed.

(** The scan of [da_find_base] is over at [M]. *)
Lemma find_base_from_total (p M maxc : Z) (codes : list Z) (fuel : nat) : forall d b,
  zlen (check d) = zlen (base d) -> dynamic d = true -> 1 <= capacity d ->
  (forall s, M <= s -> zget (check d) s = 0) -> p < M ->
  1 <= b <= M -> (Z.to_nat (M - b) < fuel)%nat ->
  0 <= maxc <= 255 -> Forall (fun c => 0 <= c <= 255) codes ->
  2 * (M + 256) <= mem_limit ->
  exists nb d', find_base_from mem_limit fuel d p codes maxc b = (0, nb, d') /\ nb <= M.
Proof.
  induction fuel as [|f IH]; intros d b Hlen Hdyn Hcap Hfree Hp Hb Hfuel Hmax Hcodes Hm; [lia|].
  cbn [find_base_from]. cbv zeta.
  destruct (reserve_total d (b + maxc + 1) Hdyn Hcap ltac:(lia)) as (d1 & R).
  rewrite R. pose proof (reserve_spec mem_limit d _ 0 d1 Hlen R) as (X & _).
  destruct (base_fits d1 p b codes) eqn:F.
  - exists b, d1. split; [reflexivity|lia].
  - destruct X as (E1 & E2 & E3 & E4 & E5).
    assert (Hfree1 : forall s, M <= s -> zget (check d1) s = 0).
    { intros s Hs. rewrite E4. apply Hfree, Hs. }
    assert (b < M).
    { destruct (Z.eq_dec b M) as [->|]; [|lia].
      rewrite (fits_free d1 p M codes Hfree1 Hp Hcodes) in F. discriminate. }
    apply IH; try assumption; try lia. congruence.
Qed.

Lemma find_base_total d p M codes :
  zlen (check d) = zlen (base d) -> dynamic d = true -> 1 <= capacity d ->
  (forall s, M <= s -> zget (check d) s = 0) -> 1 <= p < M ->
  codes <> [] -> Forall (fun c => 0 <= c <= 255) codes ->
  2 * (M + 256) <= mem_limit ->
  exists nb d', da_find_base mem_limit d p codes = (0, nb, d') /\ nb <= M.
Proof.
  intros Hlen Hdyn Hcap Hfree Hp Hne Hcodes Hm. unfold da_find_base.
  destruct codes as [|c0 cs] eqn:E; [contradiction|]. rewrite <- E in *. cbv zeta.
  apply find_base_from_total; try assumption; try lia.
  split; [apply (proj1 (fold_max_ge codes 0))|apply fold_max_le; [lia|assumption]].
Qed.

(** The second half of [da_ensure_transition], conflict and relocation
    included. *)
Lemma tail_total d P phi u c M b :
  Rep d P phi -> P u -> 0 <= c <= 255 -> (u <> [] \/ c <> 0) ->
  b = zget (base d) (phi u) -> 0 < b ->
  dynamic d = true -> Low d M -> 2 * (M + 256) <= mem_limit ->
  exists next d', ensure_tail mem_limit d (phi u) c b = (0, next, d') /\
                  dynamic d' = true /\ Low d' (M + 256).
Proof.
  intros HR Hu Hc Hroot Hbeq Hb Hdyn HL Hm. unfold ensure_tail. cbv zeta.
  set (p := phi u) in *.
  pose proof (rep_range _ _ _ HR u Hu) as Hp. fold p in Hp.
  pose proof (rep_node_used d P phi u HR Hu) as Hpu. fold p in Hpu.
  assert (HpM : p < M).
  { destruct (Z.lt_ge_cases p M) as [?|Hge]; [assumption|].
    destruct HL as (L1 & _). rewrite (L1 p Hge) in Hpu. contradiction. }
  assert (HbM : b <= M) by (rewrite Hbeq; apply HL).
  pose proof (rep_cap _ _ _ HR) as Hcap2.
  destruct (reserve_total d (b + c + 1) Hdyn ltac:(lia) ltac:(lia)) as (d2 & R).
  rewrite R. pose proof (reserve_spec mem_limit d _ 0 d2 (rep_len _ _ _ HR) R) as (X2 & Hres).
  specialize (Hres eq_refl).
  pose proof (Rep_ext _ _ _ _ HR X2) as HR2.
  pose proof (Low_ext _ _ _ HL X2) as HL2.
  destruct X2 as (E1 & E2 & E3 & E4 & E5).
  assert (Hdyn2 : dynamic d2 = true) by congruence.
  assert (Hb2 : zget (base d2) p = b) by (rewrite E3; symmetry; exact Hbeq).
  destruct (Z.eqb_spec (zget (check d2) (b + c)) p) as [Echk|Echk].
  { exists (b + c), d2. split; [reflexivity|]. split; [exact Hdyn2|].
    apply (Low_mono _ M); [assumption|lia]. }
  destruct (Z.eqb_spec (zget (check d2) (b + c)) 0) as [Efree|Eocc].
  { eexists _, _. split; [reflexivity|]. split; [exact Hdyn2|].
    apply Low_new_cell; [apply (Low_mono _ M); [assumption|lia]|lia|lia]. }
  assert (Hnew : ~ P (u ++ [c])).
  { intros Hw. destruct (rep_edge _ _ _ HR2 u c Hw) as (_ & F2 & F3 & _).
    fold p in F2, F3. rewrite Hb2 in F2. rewrite F2 in F3. contradiction. }
  set (K := da_collect_children_codes d2 p) in *.
  assert (HK : forall x, In x K <-> P (u ++ [x])).
  { intros x. apply (K_spec d2 P phi HR2 u Hu). fold p. rewrite Hb2. exact Hb. }
  assert (Hcont : da_codes_contains K c = false).
  { destruct (da_codes_contains K c) eqn:E; [|reflexivity].
    unfold da_codes_contains in E. apply existsb_exists in E. destruct E as (x & Hx & Ex).
    apply Z.eqb_eq in Ex. subst x. apply HK in Hx. contradiction. }
  rewrite Hcont. cbn [negb].
  assert (HKr : Forall (fun x => 0 <= x <= 255) (K ++ [c])).
  { apply Forall_app. split; [|constructor; [assumption|constructor]].
    apply Forall_forall. intros x Hx. apply HK in Hx.
    apply (rep_closed _ _ _ HR u x Hx). }
  destruct (find_base_total d2 p M (K ++ [c]) (rep_len _ _ _ HR2) Hdyn2
              ltac:(unfold capacity in *; lia) (proj1 HL2) ltac:(lia)
              ltac:(intros E; apply app_eq_nil in E; destruct E; discriminate) HKr Hm)
    as (nb & d4 & F & HnbM).
  rewrite F.
  pose proof (find_base_spec mem_limit d2 p (K ++ [c]) 0 nb d4 (rep_len _ _ _ HR2) F)
    as (X4 & Hfb).
  destruct (Hfb eq_refl) as (Hnb & Hcap & Hfit). clear Hfb.
  pose proof (Rep_ext _ _ _ _ HR2 X4) as HR4.
  pose proof (Low_ext _ _ _ HL2 X4) as HL4.
  assert (HK4 : da_collect_children_codes d4 p = K).
  { apply collect_ext; [apply (rep_len _ _ _ HR2)|assumption|lia]. }
  destruct X4 as (G1 & G2 & G3 & G4 & G5).
  assert (Hb4 : zget (base d4) p = b) by (rewrite G3; exact Hb2).
  assert (Hfit' : forall x, In x (K ++ [c]) ->
            nb + x <> p /\ (zget (check d4) (nb + x) = 0 \/ zget (check d4) (nb + x) = p)).
  { intros x Hx. unfold base_fits in Hfit. rewrite forallb_forall in Hfit.
    specialize (Hfit x Hx). cbv zeta in Hfit. apply andb_true_iff in Hfit. destruct Hfit as (A & B).
    split; [apply negb_true_iff, Z.eqb_neq in A; exact A|].
    apply orb_true_iff in B. destruct B as [B|B]; apply Z.eqb_eq in B; auto. }
  assert (Hcap4 : forall x, In x (da_collect_children_codes d4 (phi u)) -> nb + x + 1 <= capacity d4).
  { fold p. rewrite HK4. intros x Hx. apply Hcap. apply in_or_app. auto. }
  assert (Hfit4 : forall x, In x (da_collect_children_codes d4 (phi u)) ->
            nb + x <> phi u /\ (zget (check d4) (nb + x) = 0 \/ zget (check d4) (nb + x) = phi u)).
  { fold p. rewrite HK4. intros x Hx. apply Hfit'. apply in_or_app. auto. }
  assert (Hb4' : 0 < zget (base d4) (phi u)) by (fold p; rewrite Hb4; exact Hb).
  pose proof (relocate_eq mem_limit d4 phi u nb Hcap4) as Erel. fold p in Erel.
  rewrite Erel.
  destruct (relocate_rep d4 P phi HR4 u Hu Hb4' nb Hnb Hcap4 Hfit4)
    as (HRR & capR & dynR & baseRp & freeR & valsR).
  pose proof (stage2 d4 P phi HR4 u Hu Hb4' nb Hnb Hcap4) as (_ & _ & _ & _ & S5 & S6).
  pose proof (baseR d4 P phi HR4 u Hu Hb4' nb Hnb Hcap4) as HbaseR.
  assert (Hnews : forall s, in_news (snap d4 phi u nb) s = true -> s < M + 256).
  { intros s Hs. apply in_news_spec in Hs. destruct Hs as (x & Hx & ->).
    fold p in Hx. rewrite HK4 in Hx. apply HK in Hx.
    pose proof (rep_closed _ _ _ HR u x Hx). lia. }
  assert (HLR : Low (dR d4 phi u nb) (M + 256)).
  { split; intros s.
    - intros Hs. apply freeR.
      + destruct (in_news (snap d4 phi u nb) s) eqn:E; [|reflexivity].
        apply Hnews in E. lia.
      + left. apply HL4. lia.
    - rewrite HbaseR. fold p. destruct (s =? p); [lia|].
      destruct (in_news (snap d4 phi u nb) s) eqn:E.
      + apply in_news_spec in E. destruct E as (x & Hx & ->).
        rewrite (S5 x Hx). pose proof (proj2 HL4 (zget (base d4) (phi u) + x)). lia.
      + rewrite (S6 s E). destruct (in_olds _ s); [lia|].
        pose proof (proj2 HL4 s). lia. }
  set (dr := dR d4 phi u nb) in *. clearbody dr.
  assert (Hcc : nb + c + 1 <= capacity d4).
  { apply Hcap. apply in_or_app. right. left. reflexivity. }
  destruct (reserve_total dr (nb + c + 1) ltac:(congruence) ltac:(lia) ltac:(lia)) as (d5 & R5).
  rewrite R5.
  pose proof (reserve_spec mem_limit dr _ 0 d5 (rep_len _ _ _ HRR) R5) as (X5 & _).
  pose proof (Low_ext _ _ _ HLR X5) as HL5.
  destruct X5 as (J1 & J2 & J3 & J4 & J5).
  assert (Hc_in : In c (K ++ [c])) by (apply in_or_app; right; left; reflexivity).
  assert (Hfree : zget (check d5) (nb + c) = 0).
  { rewrite J4. apply freeR.
    - destruct (in_news (snap d4 phi u nb) (nb + c)) eqn:E; [|reflexivity].
      apply in_news_spec in E. destruct E as (x & Hx & Ex). fold p in Hx. rewrite HK4 in Hx.
      assert (x = c) by lia. subst x. apply HK in Hx. contradiction.
    - destruct (Hfit' c Hc_in) as (A & [B|B]); [left; exact B|]. right.
      destruct (rep_child_of d4 P phi HR4 u (nb + c) Hu ltac:(lia) B A) as (x & Hx & _ & Ex).
      apply in_olds_spec. exists x. split; [|exact Ex].
      fold p. rewrite HK4. apply HK. exact Hx. }
  rewrite Hfree. cbn [Z.eqb negb].
  eexists _, _. split; [reflexivity|]. split; [cbn [set_base set_check dynamic]; congruence|].
  apply Low_new_cell; [assumption|lia|lia].
Qed.

Lemma ensure_total d P phi u c M :
  Rep d P phi -> P u -> 0 <= c <= 255 -> (u <> [] \/ c <> 0) ->
  dynamic d = true -> Low d M -> 2 * (M + 256) <= mem_limit ->
  exists next d', da_ensure_transition mem_limit d (phi u) c = (0, next, d') /\
                  dynamic d' = true /\ Low d' (M + 256).
Proof.
  intros HR Hu Hc Hroot Hdyn HL Hm. rewrite ensure_unfold.
  rewrite (rep_init d P phi HR). cbn [negb].
  pose proof (rep_range _ _ _ HR u Hu) as Hp.
  destruct (Z.leb_spec (phi u) 0); [lia|]. destruct (Z.leb_spec (capacity d) (phi u)); [lia|].
  cbn [orb]. cbv zeta.
  destruct (Z.leb_spec (zget (base d) (phi u)) 0) as [Hb|Hb].
  2:{ apply (tail_total d P phi u c M); auto. }
  assert (Hleaf : forall x, ~ P (u ++ [x])).
  { intros x Hx. destruct (rep_edge _ _ _ HR u x Hx) as (F1 & _). lia. }
  pose proof (rep_node_used d P phi u HR Hu) as Hpu.
  assert (HpM : phi u < M).
  { destruct (Z.lt_ge_cases (phi u) M) as [?|Hge]; [assumption|].
    destruct HL as (L1 & _). rewrite (L1 _ Hge) in Hpu. contradiction. }
  destruct (find_base_total d (phi u) M [c] (rep_len _ _ _ HR) Hdyn ltac:(lia) (proj1 HL)
              ltac:(lia) ltac:(discriminate)
              ltac:(constructor; [assumption|constructor]) Hm)
    as (nb & d1 & F & HnbM).
  rewrite F.
  pose proof (find_base_spec mem_limit d (phi u) [c] 0 nb d1 (rep_len _ _ _ HR) F) as (X1 & Hfb).
  destruct (Hfb eq_refl) as (Hnb & _). clear Hfb.
  pose proof (Rep_ext _ _ _ _ HR X1) as HR1.
  pose proof (Low_ext _ _ _ HL X1) as HL1.
  pose proof (set_base_leaf_rep d1 P phi u nb HR1 Hu Hleaf) as HR1'.
  destruct X1 as (E1 & E2 & E3 & E4 & E5).
  apply (tail_total (set_base d1 (phi u) nb) P phi u c M nb); auto.
  - cbn [set_base base]. symmetry. apply zget_zset_same. unfold capacity in *. lia.
  - lia.
  - cbn [set_base dynamic]. congruence.
  - destruct HL1 as (L1 & L2). split; intros s; cbn [set_base base check].
    + apply L1.
    + rewrite zget_zset. destruct (_ && _); [lia|apply L2].
Qed.

Lemma add_loop_total (bytes : list Z) : forall d P phi u M,
  Rep d P phi -> P u -> Forall (fun c => 1 <= c <= 255) bytes ->
  Forall (fun c => c <> 0) u ->
  dynamic d = true -> Low d M -> 2 * (M + 256 * zlen bytes) <= mem_limit ->
  exists cur d', add_loop mem_limit d bytes (phi u) = (0, cur, d') /\
                 dynamic d' = true /\ Low d' (M + 256 * zlen bytes).
Proof.
  induction bytes as [|c rest IH]; intros d P phi u M HR Hu Hb Hz Hdyn HL Hm.
  - cbn [add_loop]. exists (phi u), d. split; [reflexivity|]. split; [assumption|].
    apply (Low_mono _ M); [assumption|]. change (zlen []) with 0. lia.
  - cbn [add_loop]. apply Forall_cons_iff in Hb. destruct Hb as (Hc & Hrest).
    rewrite zlen_cons in *. pose proof (zlen_nonneg rest) as Hn.
    destruct (ensure_total d P phi u c M HR Hu ltac:(lia) ltac:(right; lia) Hdyn HL ltac:(lia))
      as (next & d1 & E & Hdyn1 & HL1).
    rewrite E.
    destruct (ensure_rep mem_limit d P phi u c 0 next d1 HR Hu ltac:(lia) ltac:(right; lia) E eq_refl)
      as (phi1 & R1 & N1 & _).
    rewrite <- N1.
    assert (Hz1 : Forall (fun c => c <> 0) (u ++ [c])).
    { apply Forall_app. split; [assumption|]. constructor; [lia|constructor]. }
    destruct (IH d1 _ phi1 (u ++ [c]) (M + 256) R1 ltac:(right; reflexivity) Hrest Hz1
                 Hdyn1 HL1 ltac:(lia))
      as (cur & d' & E' & Hdyn' & HL').
    exists cur, d'. split; [exact E'|]. split; [exact Hdyn'|].
    apply (Low_mono _ _ _ HL'). lia.
Qed.

Lemma add_bytes_total d ks phi key M :
  Rep d (KP ks) phi -> valid_key key -> dynamic d = true -> Low d M ->
  2 * (M + 256 * (zlen key + 1)) <= mem_limit ->
  exists d', da_trie_add_bytes mem_limit d key = (0, d') /\ dynamic d' = true /\
             Low d' (M + 256 * (zlen key + 1)).
Proof.
  intros HR (Hne & Hb) Hdyn HL Hm. unfold da_trie_add_bytes.
  destruct key as [|c0 key0] eqn:Ekey; [contradiction|]. rewrite <- Ekey in *.
  rewrite (rep_init d _ phi HR). cbn [negb].
  destruct (rep_root _ _ _ HR) as (R1 & _ & R3). rewrite <- R1.
  pose proof (zlen_nonneg key) as Hn.
  destruct (add_loop_total key d _ phi [] M HR R3 Hb (Forall_nil _) Hdyn HL ltac:(lia))
    as (cur & d1 & E & Hdyn1 & HL1).
  rewrite E.
  destruct (add_loop_rep mem_limit key d _ phi [] 0 cur d1 HR R3 Hb (Forall_nil _) E eq_refl)
    as (phi1 & HR1 & N1 & _).
  cbn [app] in N1. rewrite N1.
  assert (Hk : ext_path (KP ks) [] key key).
  { right. exists (length key). split; [lia|]. rewrite firstn_all. reflexivity. }
  destruct (ensure_total d1 _ phi1 key 0 (M + 256 * zlen key) HR1 Hk ltac:(lia)
              ltac:(left; exact Hne) Hdyn1 HL1 ltac:(lia))
    as (term & d2 & E2 & Hdyn2 & HL2).
  rewrite E2. exists d2. split; [reflexivity|]. split; [exact Hdyn2|].
  apply (Low_mono _ _ _ HL2). lia.
Qed.

Lemma add_all_total (ks : list (list Z)) : forall d ks0 phi M,
  Rep d (KP ks0) phi -> Forall valid_key ks -> dynamic d = true -> Low d M ->
  2 * (M + 256 * key_cells ks) <= mem_limit ->
  exists d', add_all mem_limit d ks = (0, d').
Proof.
  induction ks as [|k ks IH]; intros d ks0 phi M HR Hv Hdyn HL Hm; cbn [add_all].
  - exists d. reflexivity.
  - apply Forall_cons_iff in Hv. destruct Hv as (Hk & Hv).
    cbn [key_cells fold_right] in Hm. fold (key_cells ks) in Hm.
    pose proof (key_cells_nonneg ks) as Hn. pose proof (zlen_nonneg k) as Hn'.
    destruct (add_bytes_total d ks0 phi k M HR Hk Hdyn HL ltac:(lia)) as (d1 & E & Hdyn1 & HL1).
    rewrite E.
    destruct (add_bytes_rep mem_limit d ks0 phi k 0 d1 HR Hk E eq_refl) as (phi1 & HR1 & _).
    apply (IH d1 (k :: ks0) phi1 _ HR1 Hv Hdyn1 HL1). lia.
Qed.

End Total.

(** A freshly initialised trie uses the root cell only. *)
Lemma clear_low d rc d' :
  da_trie_clear d = (rc, d') -> rc = 0 -> Low d' 2 /\ dynamic d' = dynamic d.
Proof.
  unfold da_trie_clear. destruct (capacity d <? 2); [intros H; inversion H; subst; discriminate|].
  cbv zeta. intros H _. inversion H; subst d'. clear H. cbn [base check dynamic].
  split; [|reflexivity].
  unfold DA_ROOT. split; intros s; cbn [base check].
  - intros Hs. rewrite zget_zset_other by lia. apply zget_repeat0.
  - rewrite zget_zset. destruct (_ && _); [lia|]. rewrite zget_repeat0. lia.
Qed.

Lemma init_dynamic_low mem_limit n d :
  da_trie_init_dynamic mem_limit n = (0, d) -> Low d 2 /\ dynamic d = true.
Proof.
  unfold da_trie_init_dynamic. cbv zeta.
  destruct (mem_limit <? _); [intros H; inversion H|].
  intros H. apply clear_low in H; [|reflexivity]. exact H.
Qed.

(** ** The child-map trie *)

Lemma assoc_find_set_same c s ch : assoc_find c (assoc_set c s ch) = Some s.
Proof.
  induction ch as [|(c', s') ch IH]; cbn [assoc_set assoc_find].
  - rewrite Z.eqb_refl. reflexivity.
  - destruct (Z.eqb_spec c' c) as [E|E]; cbn [assoc_find].
    + rewrite Z.eqb_refl. reflexivity.
    + destruct (Z.eqb_spec c' c); [contradiction|]. exact IH.
Qed.

Lemma assoc_find_set_other c c' s ch :
  c' <> c -> assoc_find c' (assoc_set c s ch) = assoc_find c' ch.
Proof.
  intros Hne. induction ch as [|(c2, s2) ch IH]; cbn [assoc_set assoc_find].
  - destruct (Z.eqb_spec c c'); [congruence|reflexivity].
  - destruct (Z.eqb_spec c2 c) as [E|E]; cbn [assoc_find].
    + subst c2. destruct (Z.eqb_spec c c'); [congruence|reflexivity].
    + destruct (Z.eqb_spec c2 c'); [reflexivity|exact IH].
Qed.

Lemma ct_walk_empty w : ct_walk (CNode []) w <> None -> w = [].
Proof. destruct w; [reflexivity|]. cbn. congruence. Qed.

Lemma ct_insert_walk (p : list Z) : forall t w,
  ct_walk (ct_insert t p) w <> None <-> (ct_walk t w <> None \/ exists r, p = w ++ r).
Proof.
  induction p as [|c rest IH]; intros t w.
  - cbn [ct_insert]. split; [auto|]. intros [H|(r & E)]; [assumption|].
    symmetry in E. apply app_eq_nil in E. destruct E as (-> & _). discriminate.
  - destruct w as [|c' w'].
    + cbn [ct_walk]. split; [left|]; discriminate.
    + cbn [ct_insert ct_walk]. unfold ct_child at 1. cbn [ct_children].
      destruct (Z.eq_dec c' c) as [->|Hne].
      * rewrite assoc_find_set_same, IH.
        destruct (ct_child t c) as [s|] eqn:E.
        -- split; (intros [H|(r & Hr)]; [left; exact H|right]).
           ++ exists r. cbn. congruence.
           ++ exists r. cbn in Hr. congruence.
        -- split.
           ++ intros [H|(r & Hr)]; right.
              ** apply ct_walk_empty in H. subst w'. exists rest. reflexivity.
              ** exists r. cbn. congruence.
           ++ intros [H|(r & Hr)]; [congruence|]. right. exists r. cbn in Hr. congruence.
      * rewrite assoc_find_set_other by assumption. fold (ct_child t c').
        split; [left; assumption|]. intros [H|(r & Hr)]; [assumption|].
        cbn in Hr. congruence.
Qed.

Lemma ct_fold_walk (ks : list (list Z)) : forall t w,
  ct_walk (fold_left (fun t k => ct_insert t (k ++ [0])) ks t) w <> None <->
  (ct_walk t w <> None \/ exists k, In k ks /\ exists r, k ++ [0] = w ++ r).
Proof.
  induction ks as [|k ks IH]; intros t w; cbn [fold_left].
  - split; [auto|]. intros [H|(k & [] & _)]. assumption.
  - rewrite IH, ct_insert_walk. split.
    + intros [[H|H]|(k' & Hk' & Hr)]; [auto| |].
      * right. exists k. split; [left; reflexivity|assumption].
      * right. exists k'. split; [right; assumption|assumption].
    + intros [H|(k' & [<-|Hk'] & Hr)]; [auto|auto|].
      right. exists k'. auto.
Qed.

Lemma ct_of_keys_walk ks w : ct_walk (ct_of_keys ks) w <> None <-> KP ks w.
Proof.
  unfold ct_of_keys, KP. rewrite ct_fold_walk. split.
  - intros [H|H]; [left; apply ct_walk_empty; assumption|right; assumption].
  - intros [->|H]; [left; discriminate|right; assumption].
Qed.

Lemma ct_walk_snoc (w : list Z) : forall t c,
  ct_walk t (w ++ [c]) =
  match ct_walk t w with Some node => ct_child node c | None => None end.
Proof.
  induction w as [|c' w IH]; intros t c; cbn [app ct_walk].
  - destruct (ct_child t c); reflexivity.
  - destruct (ct_child t c'); [apply IH|reflexivity].
Qed.

(** ** Sequences of insertions *)

Lemma init_static_rep n rc d :
  da_trie_init_static n = (rc, d) -> rc = 0 ->
  Rep d (fun w => w = []) (fun _ => DA_ROOT).
Proof.
  unfold da_trie_init_static. destruct (n <? 16); [intros H; inversion H; subst; discriminate|].
  intros H Hrc. apply clear_rep in H; [apply H|reflexivity|assumption].
Qed.

Lemma add_all_rep mem_limit (ks : list (list Z)) : forall d ks0 phi rc d',
  Rep d (KP ks0) phi -> Forall valid_key ks ->
  add_all mem_limit d ks = (rc, d') -> rc = 0 ->
  exists phi2, Rep d' (KP (rev ks ++ ks0)) phi2.
Proof.
  induction ks as [|k ks IH]; intros d ks0 phi rc d' HR Hv H Hrc; cbn [add_all] in H.
  - inversion H; subst. exists phi. exact HR.
  - apply Forall_cons_iff in Hv. destruct Hv as (Hk & Hv).
    destruct (da_trie_add_bytes mem_limit d k) as (rc1, d1) eqn:E.
    destruct rc1 as [|?|?]; [|inversion H; subst; discriminate|inversion H; subst; discriminate].
    destruct (add_bytes_rep mem_limit d ks0 phi k 0 d1 HR Hk E eq_refl) as (phi1 & HR1 & _).
    destruct (IH d1 (k :: ks0) phi1 rc d' HR1 Hv H Hrc) as (phi2 & HR2).
    exists phi2. cbn [rev]. rewrite <- app_assoc. exact HR2.
Qed.

Lemma rep_walk_root d P phi w : Rep d P phi -> P w -> da_walk d w DA_ROOT = phi w.
Proof.
  intros HR Hw. destruct (rep_root _ _ _ HR) as (R1 & _). rewrite <- R1.
  apply (rep_walk_in d P phi HR w []). exact Hw.
Qed.

Lemma rep_walk_root_out d P phi w :
  Rep d P phi -> Forall (fun c => 0 <= c <= 255) w -> ~ P w -> da_walk d w DA_ROOT = 0.
Proof.
  intros HR Hb Hw. destruct (rep_root _ _ _ HR) as (R1 & _ & R3). rewrite <- R1.
  apply (rep_walk_out d P phi HR w []); [assumption| |assumption].
  revert Hb. apply Forall_impl. intros; lia.
Qed.

(** The double array [d] and the child-map trie [t] have the same nodes and
    the same transition function: a byte string is a path of the one exactly
    when it is a path of the other, from the cell of a common path [da_next]
    fails on a byte exactly when the node has no child for it and otherwise
    leads to the cell of the longer path, and two paths with the same cell
    are equal. *)
Definition same_transitions (d : da_trie_t) (t : ctrie) : Prop :=
  (forall w, Forall (fun c => 0 <= c <= 255) w ->
     match ct_walk t w with
     | Some node =>
       da_walk d w DA_ROOT <> 0 /\
       forall c, 0 <= c <= 255 ->
         da_next d (da_walk d w DA_ROOT) c = da_walk d (w ++ [c]) DA_ROOT /\
         (da_next d (da_walk d w DA_ROOT) c = 0 <-> ct_child node c = None)
     | None => da_walk d w DA_ROOT = 0
     end) /\
  (forall w w', ct_walk t w <> None -> ct_walk t w' <> None ->
     da_walk d w DA_ROOT = da_walk d w' DA_ROOT -> w = w').

Lemma rep_same_transitions d ks phi :
  Rep d (KP ks) phi -> same_transitions d (ct_of_keys ks).
Proof.
  intros HR. split.
  - intros w Hw. destruct (ct_walk (ct_of_keys ks) w) as [node|] eqn:E.
    + assert (Pw : KP ks w) by (apply ct_of_keys_walk; congruence).
      rewrite (rep_walk_root d _ phi w HR Pw).
      pose proof (rep_range _ _ _ HR w Pw) as Hr. split; [lia|].
      intros c Hc. pose proof (ct_walk_snoc w (ct_of_keys ks) c) as Hs. rewrite E in Hs.
      destruct (ct_child node c) as [s|] eqn:Ec.
      * assert (Pc : KP ks (w ++ [c])) by (apply ct_of_keys_walk; congruence).
        rewrite (rep_walk_root d _ phi _ HR Pc), (rep_next_in d _ phi HR w c Pc).
        split; [reflexivity|]. pose proof (rep_range _ _ _ HR _ Pc).
        split; [lia|discriminate].
      * assert (Pc : ~ KP ks (w ++ [c])).
        { intros Pc. apply ct_of_keys_walk in Pc. congruence. }
        rewrite (rep_next_out d _ phi HR w c Pw ltac:(lia) Pc).
        rewrite (rep_walk_root_out d _ phi (w ++ [c]) HR); [tauto| |assumption].
        apply Forall_app. split; [assumption|]. constructor; [assumption|constructor].
    + apply (rep_walk_root_out d _ phi w HR Hw). intros Pw.
      apply ct_of_keys_walk in Pw. congruence.
  - intros w w' Hw Hw' E. apply ct_of_keys_walk in Hw, Hw'.
    rewrite (rep_walk_root d _ phi w HR Hw), (rep_walk_root d _ phi w' HR Hw') in E.
    apply (rep_inj _ _ _ HR); assumption.
Qed.

(** The trie after the insertions stands for the keys. *)
Lemma add_all_fresh_rep mem_limit n ks d0 d :
  da_trie_init_dynamic mem_limit n = (0, d0) \/ da_trie_init_static n = (0, d0) ->
  Forall valid_key ks ->
  add_all mem_limit d0 ks = (0, d) ->
  exists phi, Rep d (KP ks) phi.
Proof.
  intros Hinit Hv Hadd.
  assert (HR0 : Rep d0 (KP []) (fun _ => DA_ROOT)).
  { apply (Rep_P_ext d0 (fun w => w = [])); [intros w; apply KP_nil|].
    destruct Hinit as [H|H]; [eapply init_dynamic_rep|eapply init_static_rep]; eauto. }
  destruct (add_all_rep mem_limit ks d0 [] _ 0 d HR0 Hv Hadd eq_refl) as (phi & HR').
  exists phi. eapply Rep_P_ext; [|exact HR']. intros w.
  split; apply KP_in; intros k; rewrite app_nil_r, <- in_rev; reflexivity.
Qed.

(** Moving the children of a node to a base that fits keeps the trie. *)
Lemma relocate_same_transitions mem_limit d ks phi u nb :
  Rep d (KP ks) phi -> KP ks u ->
  0 < zget (base d) (phi u) -> 1 <= nb ->
  (forall c, In c (da_collect_children_codes d (phi u)) -> nb + c + 1 <= capacity d) ->
  base_fits d (phi u) nb (da_collect_children_codes d (phi u)) = true ->
  exists d', da_relocate_children mem_limit d (phi u) nb = (0, d') /\
             zget (base d') (phi u) = nb /\
             same_transitions d' (ct_of_keys ks).
Proof.
  intros HR Hu Hob Hnb Hcap Hfit.
  assert (Hfit' : forall c, In c (da_collect_children_codes d (phi u)) ->
            nb + c <> phi u /\
            (zget (check d) (nb + c) = 0 \/ zget (check d) (nb + c) = phi u)).
  { intros c Hc. unfold base_fits in Hfit. rewrite forallb_forall in Hfit.
    specialize (Hfit c Hc). cbv zeta in Hfit. apply andb_true_iff in Hfit.
    destruct Hfit as (A & B).
    split; [apply negb_true_iff, Z.eqb_neq in A; exact A|].
    apply orb_true_iff in B. destruct B as [B|B]; apply Z.eqb_eq in B; auto. }
  exists (dR d phi u nb). split; [apply relocate_eq; assumption|].
  destruct (relocate_rep d _ phi HR u Hu Hob nb Hnb Hcap Hfit') as (HRR & _ & _ & Hbase & _).
  split; [exact Hbase|]. apply (rep_same_transitions _ _ _ HRR).
Qed.

(** C3: take a freshly initialised trie (whose arrays stay in the int32
    index range) and non-empty keys without the byte 0.  When the trie is
    dynamic and the allocator grants 4 + 512 cells per requested transition,
    every insertion succeeds, the ones that relocate children included.
    After a sequence of successful insertions the double array and the
    child-map trie of the same keys have the same nodes and the same
    transition function ([same_transitions]); and moving the children of
    any node to any base that [da_find_base] would accept
    ([da_relocate_children], with its two-pass rewrite of the grandchildren's
    checks) succeeds and leaves a double array with the same nodes, end
    nodes included, and the same transition function. *)
Theorem da_transitions_match_child_map (mem_limit n : Z) (ks : list (list Z))
        (d0 : da_trie_t) :
  mem_limit < 2 ^ 31 ->
  da_trie_init_dynamic mem_limit n = (0, d0) \/ da_trie_init_static n = (0, d0) ->
  Forall valid_key ks ->
  (dynamic d0 = true -> 4 + 512 * key_cells ks <= mem_limit ->
   exists d, add_all mem_limit d0 ks = (0, d)) /\
  (forall d, add_all mem_limit d0 ks = (0, d) ->
     same_transitions d (ct_of_keys ks) /\
     forall u nb,
       ct_walk (ct_of_keys ks) u <> None ->
       0 < zget (base d) (da_walk d u DA_ROOT) -> 1 <= nb ->
       (forall c, In c (da_collect_children_codes d (da_walk d u DA_ROOT)) ->
                  nb + c + 1 <= capacity d) ->
       base_fits d (da_walk d u DA_ROOT) nb
                 (da_collect_children_codes d (da_walk d u DA_ROOT)) = true ->
       exists d', da_relocate_children mem_limit d (da_walk d u DA_ROOT) nb = (0, d') /\
                  zget (base d') (da_walk d u DA_ROOT) = nb /\
                  same_transitions d' (ct_of_keys ks)).
Proof.
  intros Hmem Hinit Hv. split.
  - intros Hdyn Hm.
    assert (HR0 : Rep d0 (KP []) (fun _ => DA_ROOT)).
    { apply (Rep_P_ext d0 (fun w => w = [])); [intros w; apply KP_nil|].
      destruct Hinit as [H|H]; [eapply init_dynamic_rep|eapply init_static_rep]; eauto. }
    assert (HL0 : Low d0 2).
    { destruct Hinit as [H|H]; [apply (init_dynamic_low _ _ _ H)|].
      unfold da_trie_init_static in H. destruct (n <? 16); [inversion H|].
      apply clear_low in H; [apply H|reflexivity]. }
    apply (add_all_total mem_limit Hmem ks d0 [] _ 2 HR0 Hv Hdyn HL0). lia.
  - intros d Hadd.
    destruct (add_all_fresh_rep mem_limit n ks d0 d Hinit Hv Hadd) as (phi & HR).
    split; [apply (rep_same_transitions _ _ _ HR)|].
    intros u nb Hu. apply ct_of_keys_walk in Hu.
    rewrite (rep_walk_root d _ phi u HR Hu).
    apply relocate_same_transitions; assumption.
Qed.

(** The example: the keys [a], [ab] and [b], in this order. *)
Definition ex_keys : list (list Z) := [[97]; [97; 98]; [98]].

Definition ex_trie0 : da_trie_t := snd (da_trie_init_dynamic 4096 16).

Definition ex_trie3 : da_trie_t := snd (add_all 4096 ex_trie0 ex_keys).

(** An example with a conflict: after [a], [b] and [ad] the root has base 1
    and its children [a] and [b] sit in the cells 98 and 99, the node [ad]
    in the cell 102.  The key [e] asks for the cell 1 + 101 = 102, so the
    children of the root move to base 2: [a] goes to 99, the cell [b]
    leaves for 100, and the checks of their children are rewritten. *)
Definition mv_keys : list (list Z) := [[97]; [98]; [97; 100]; [101]].

Definition mv_trie0 : da_trie_t := snd (da_trie_init_dynamic 8192 16).

Definition mv_trie3 : da_trie_t := snd (add_all 8192 mv_trie0 [[97]; [98]; [97; 100]]).

Definition mv_trie4 : da_trie_t := snd (add_all 8192 mv_trie0 mv_keys).

Lemma da_transitions_match_child_map_witness :
  (exists d, add_all 8192 mv_trie0 mv_keys = (0, d)) /\
  da_trie_add_bytes 8192 mv_trie3 [101] = (0, mv_trie4) /\
  (zget (base mv_trie3) DA_ROOT = 1 /\ da_walk mv_trie3 [97] DA_ROOT = 98 /\
   da_walk mv_trie3 [98] DA_ROOT = 99 /\ da_walk mv_trie3 [97; 100] DA_ROOT = 102) /\
  (zget (base mv_trie4) DA_ROOT = 2 /\ da_walk mv_trie4 [97] DA_ROOT = 99 /\
   da_walk mv_trie4 [98] DA_ROOT = 100 /\ da_walk mv_trie4 [101] DA_ROOT = 103) /\
  da_next mv_trie4 (da_walk mv_trie4 [97] DA_ROOT) 100
  = da_walk mv_trie4 ([97] ++ [100]) DA_ROOT /\
  da_next mv_trie4 (da_walk mv_trie4 [97] DA_ROOT) 100 <> 0 /\
  da_next mv_trie4 (da_walk mv_trie4 [98] DA_ROOT) 0 <> 0 /\
  da_walk mv_trie4 [98; 100] DA_ROOT = 0.
Proof.
  assert (E : add_all 8192 mv_trie0 mv_keys = (0, mv_trie4)) by (vm_compute; reflexivity).
  destruct (da_transitions_match_child_map 8192 16 mv_keys mv_trie0) as (T & S).
  - lia.
  - left. vm_compute. reflexivity.
  - repeat constructor; try discriminate; lia.
  - split; [apply T; [reflexivity|vm_compute; discriminate]|].
    split; [vm_compute; reflexivity|].
    split; [vm_compute; repeat split; reflexivity|].
    split; [vm_compute; repeat split; reflexivity|].
    destruct (S mv_trie4 E) as ((A & _) & _).
    assert (F1 : Forall (fun c => 0 <= c <= 255) [97]) by (repeat constructor; lia).
    assert (F2 : Forall (fun c => 0 <= c <= 255) [98]) by (repeat constructor; lia).
    assert (F3 : Forall (fun c => 0 <= c <= 255) [98; 100]) by (repeat constructor; lia).
    pose proof (A [97] F1) as A1. pose proof (A [98] F2) as A2. pose proof (A [98; 100] F3) as A3.
    assert (W1 : exists node, ct_walk (ct_of_keys mv_keys) [97] = Some node /\
                              ct_child node 100 <> None)
      by (vm_compute; eexists; split; [reflexivity|discriminate]).
    assert (W2 : exists node, ct_walk (ct_of_keys mv_keys) [98] = Some node /\
                              ct_child node 0 <> None)
      by (vm_compute; eexists; split; [reflexivity|discriminate]).
    assert (W3 : ct_walk (ct_of_keys mv_keys) [98; 100] = None) by (vm_compute; reflexivity).
    destruct W1 as (n1 & W1 & C1). destruct W2 as (n2 & W2 & C2).
    rewrite W1 in A1. rewrite W2 in A2. rewrite W3 in A3.
    destruct A1 as (_ & A1). destruct A2 as (_ & A2).
    destruct (A1 100 ltac:(lia)) as (A1a & A1b). destruct (A2 0 ltac:(lia)) as (_ & A2b).
    split; [exact A1a|].
    split; [intros Hz; apply C1, A1b, Hz|].
    split; [intros Hz; apply C2, A2b, Hz|exact A3].
Defined.

Import Npycrf.

(** ** Word ids at the end nodes *)

Lemma rep_prefix d P phi (w : path) : forall u, Rep d P phi -> P (u ++ w) -> P u.
Proof.
  induction w as [|c w IH] using rev_ind; intros u HR H.
  - rewrite app_nil_r in H. exact H.
  - rewrite app_assoc in H. apply (rep_closed _ _ _ HR) in H. apply IH; [assumption|apply H].
Qed.

Lemma rep_snoc_cons d P phi u c w : Rep d P phi -> P (u ++ c :: w) -> P (u ++ [c]).
Proof.
  intros HR H. apply (rep_prefix d P phi w (u ++ [c]) HR).
  rewrite <- app_assoc. exact H.
Qed.

Section Values.

Variables (d : da_trie_t) (P : path -> Prop) (phi : path -> Z).
Hypothesis HR : Rep d P phi.

Lemma ro_next_in u c :
  P (u ++ [c]) -> da_next_ro_local (ro_view d) (phi u) c = phi (u ++ [c]).
Proof.
  intros Hw. destruct (rep_closed _ _ _ HR u c Hw) as (Hu & Hc).
  destruct (rep_edge _ _ _ HR u c Hw) as (E1 & E2 & E3 & E4).
  pose proof (rep_range _ _ _ HR u Hu) as Hr.
  pose proof (rep_range _ _ _ HR _ Hw) as Hr'.
  unfold da_next_ro_local, ro_view. cbn [ro_base ro_check ro_capacity].
  destruct (Z.leb_spec (phi u) 0); [lia|]. destruct (Z.leb_spec (capacity d) (phi u)); [lia|].
  cbn [orb]. destruct (Z.leb_spec (zget (base d) (phi u)) 0); [lia|].
  rewrite <- E2.
  destruct (Z.leb_spec (capacity d) (phi (u ++ [c]))); [lia|].
  rewrite E3, Z.eqb_refl. reflexivity.
Qed.

Lemma ro_walk_in (w : path) : forall u,
  P (u ++ w) -> ro_walk (ro_view d) w (phi u) = phi (u ++ w).
Proof.
  induction w as [|c w IH]; intros u Hw.
  - rewrite app_nil_r. reflexivity.
  - cbn [ro_walk].
    pose proof (rep_snoc_cons d P phi u c w HR Hw) as Huc.
    rewrite ro_next_in by assumption.
    pose proof (rep_range _ _ _ HR _ Huc) as Hr.
    destruct (Z.eqb_spec (phi (u ++ [c])) 0); [lia|].
    rewrite IH; rewrite <- app_assoc; [reflexivity|exact Hw].
Qed.

Lemma set_walk_in (w : path) : forall u,
  P (u ++ w) -> set_walk d w (phi u) = Some (phi (u ++ w)).
Proof.
  induction w as [|c w IH]; intros u Hw.
  - rewrite app_nil_r. reflexivity.
  - cbn [set_walk].
    pose proof (rep_snoc_cons d P phi u c w HR Hw) as Huc.
    destruct (rep_edge _ _ _ HR u c Huc) as (E1 & E2 & E3 & E4).
    pose proof (rep_range _ _ _ HR _ Huc) as Hr.
    destruct (Z.leb_spec (zget (base d) (phi u)) 0); [lia|].
    rewrite <- E2.
    destruct (Z.leb_spec (capacity d) (phi (u ++ [c]))); [lia|].
    rewrite E3, Z.eqb_refl. cbn [negb].
    rewrite IH; rewrite <- app_assoc; [reflexivity|exact Hw].
Qed.

Lemma get_term_value_spec k id :
  P (k ++ [0]) -> 0 <= id <= 0xFFFE ->
  zget (base d) (phi (k ++ [0])) = - id - 1 ->
  npycrf_da_ro_get_term_value (ro_view d) k = Some id.
Proof.
  intros Hk Hid Hv. destruct (rep_root _ _ _ HR) as (R1 & _).
  destruct (rep_closed _ _ _ HR k 0 Hk) as (Hk0 & _).
  unfold npycrf_da_ro_get_term_value. cbv zeta.
  pose proof (ro_walk_in k [] Hk0) as W. cbn [app] in W. rewrite R1 in W.
  change DA_ROOT with 1 in W. rewrite W.
  pose proof (rep_range _ _ _ HR _ Hk0). pose proof (rep_range _ _ _ HR _ Hk).
  destruct (Z.eqb_spec (phi k) 0); [lia|].
  rewrite ro_next_in by assumption.
  destruct (Z.eqb_spec (phi (k ++ [0])) 0); [lia|].
  replace (zget (ro_base (ro_view d)) (phi (k ++ [0]))) with (- id - 1) by (symmetry; exact Hv).
  destruct (Z.leb_spec 0 (- id - 1)); [lia|].
  replace (- (- id - 1) - 1) with id by lia.
  assert (Hu : u32 id = id).
  { unfold u32, wrap_u. apply Z.mod_small. lia. }
  rewrite Hu. destruct (Z.ltb_spec 65535 id); [lia|]. reflexivity.
Qed.

End Values.

Definition Vals (ks : list (list Z)) (d : da_trie_t) (phi : path -> Z)
           (vm : list Z -> option Z) : Prop :=
  forall k id, vm k = Some id ->
    In k ks /\ 0 <= id <= 0xFFFE /\ zget (base d) (phi (k ++ [0])) = - id - 1.

Section Ops.

Variable mem_limit : Z.

Lemma set_term_rep d ks phi k id rc d' :
  Rep d (KP ks) phi -> Forall valid_key ks -> valid_key k -> 0 <= id <= 0xFFFE ->
  npycrf_da_set_term_value mem_limit d k id = (rc, d') -> rc = 0 ->
  exists phi2,
    Rep d' (KP (k :: ks)) phi2 /\
    zget (base d') (phi2 (k ++ [0])) = - id - 1 /\
    (forall v, KP ks (v ++ [0]) -> v <> k ->
       zget (base d') (phi2 (v ++ [0])) = zget (base d) (phi (v ++ [0]))).
Proof.
  intros HR Hks Hk Hid H Hrc. unfold npycrf_da_set_term_value in H.
  destruct (da_trie_add_bytes mem_limit d k) as (rc1, d1) eqn:E.
  destruct rc1 as [|?|?]; [|inversion H; subst; discriminate|inversion H; subst; discriminate].
  destruct (add_bytes_rep mem_limit d ks phi k 0 d1 HR Hk E eq_refl) as (phi1 & HR1 & V1).
  assert (Pk0 : KP (k :: ks) (k ++ [0])) by (apply KP_key; left; reflexivity).
  destruct (rep_closed _ _ _ HR1 k 0 Pk0) as (Pk & _).
  destruct (rep_root _ _ _ HR1) as (R1 & _).
  pose proof (set_walk_in d1 _ phi1 HR1 k [] Pk) as Hsw. cbn [app] in Hsw.
  rewrite R1 in Hsw. change DA_ROOT with 1 in Hsw. rewrite Hsw in H. cbv zeta in H.
  destruct (rep_edge _ _ _ HR1 k 0 Pk0) as (E1 & E2 & E3 & E4).
  pose proof (rep_range _ _ _ HR1 _ Pk0) as Hr.
  destruct (Z.leb_spec (zget (base d1) (phi1 k)) 0); [lia|].
  rewrite <- E2 in H.
  destruct (Z.leb_spec (capacity d1) (phi1 (k ++ [0]))); [lia|].
  rewrite E3, Z.eqb_refl in H. cbn [negb] in H. inversion H; subst d'. clear H.
  assert (Hall : Forall valid_key (k :: ks)) by (constructor; assumption).
  exists phi1. split.
  - apply set_base_leaf_rep; [assumption|assumption|].
    intros x. apply KP_term_leaf. assumption.
  - cbn [set_base base]. split.
    + rewrite zget_zset_same by (unfold capacity in *; lia).
      apply i32_id. unfold in_i32. lia.
    + intros v Hv Hne. rewrite zget_zset_other; [apply V1; assumption|].
      intros Eq. apply Hne. symmetry.
      apply (rep_inj _ _ _ HR1) in Eq.
      * apply snoc_inj in Eq. apply Eq.
      * assumption.
      * destruct Hv as [Hv|(k' & Hk' & Hr')]; [left; assumption|].
        right. exists k'. split; [right; assumption|assumption].
Qed.

Lemma key_eqb_spec a b : key_eqb a b = true <-> a = b.
Proof. unfold key_eqb. destruct (list_eq_dec Z.eq_dec a b); split; congruence. Qed.

Lemma run_ops_inv (ops : list trie_op) : forall d ks phi vm rc d',
  Rep d (KP ks) phi -> Forall valid_key ks -> Vals ks d phi vm ->
  Forall op_ok ops ->
  run_ops mem_limit d ops = (rc, d') -> rc = 0 ->
  exists phi2,
    Rep d' (KP (rev (map op_key ops) ++ ks)) phi2 /\
    Forall valid_key (rev (map op_key ops) ++ ks) /\
    Vals (rev (map op_key ops) ++ ks) d' phi2 (fun k => last_value ops k (vm k)).
Proof.
  induction ops as [|o ops IH]; intros d ks phi vm rc d' HR Hks HV Hok H Hrc;
    cbn [run_ops] in H.
  - inversion H; subst. exists phi. cbn. auto.
  - apply Forall_cons_iff in Hok. destruct Hok as ((Hk & Hid) & Hok).
    destruct (run_op mem_limit d o) as (rc1, d1) eqn:E.
    destruct rc1 as [|?|?]; [|inversion H; subst; discriminate|inversion H; subst; discriminate].
    assert (Hall : Forall valid_key (op_key o :: ks)) by (constructor; assumption).
    cbn [map rev]. rewrite <- app_assoc. cbn [app].
    destruct o as [k|k id]; cbn [run_op op_key op_id] in *.
    + destruct (add_bytes_rep mem_limit d ks phi k 0 d1 HR Hk E eq_refl) as (phi1 & HR1 & V1).
      apply (IH d1 (k :: ks) phi1 vm rc d' HR1 Hall); try assumption.
      intros k' id' Hv. destruct (HV k' id' Hv) as (A & B & C).
      split; [right; assumption|]. split; [assumption|].
      rewrite V1; [assumption|]. apply KP_key. assumption.
    + destruct (set_term_rep d ks phi k id 0 d1 HR Hks Hk Hid E eq_refl)
        as (phi1 & HR1 & V0 & V1).
      cbn [last_value].
      apply (IH d1 (k :: ks) phi1 (fun k' => if key_eqb k k' then Some id else vm k')
                rc d' HR1 Hall); try assumption.
      intros k' id' Hv. destruct (key_eqb k k') eqn:Ek.
      * apply key_eqb_spec in Ek. subst k'. inversion Hv; subst id'.
        split; [left; reflexivity|]. split; assumption.
      * destruct (HV k' id' Hv) as (A & B & C).
        split; [right; assumption|]. split; [assumption|].
        rewrite V1; [assumption|apply KP_key; assumption|].
        intros Eq. subst k'. assert (key_eqb k k = true) by (apply key_eqb_spec; reflexivity).
        congruence.
Qed.

End Ops.

Lemma contains_spec d ks phi q :
  Rep d (KP ks) phi -> Forall valid_key ks -> Forall (fun c => 0 <= c <= 255) q ->
  da_trie_contains_bytes d q = if in_dec (list_eq_dec Z.eq_dec) q ks then 1 else 0.
Proof.
  intros HR Hks Hq. unfold da_trie_contains_bytes.
  rewrite (rep_init d _ phi HR). cbn [negb]. cbv zeta.
  destruct (ct_walk (ct_of_keys ks) q) as [node|] eqn:E.
  - assert (Pq : KP ks q) by (apply ct_of_keys_walk; congruence).
    rewrite (rep_walk_root d _ phi q HR Pq).
    pose proof (rep_range _ _ _ HR q Pq).
    destruct (Z.eqb_spec (phi q) 0); [lia|].
    destruct (in_dec (list_eq_dec Z.eq_dec) q ks) as [Hin|Hin].
    + pose proof (KP_key ks q Hin) as Pq0.
      rewrite (rep_next_in d _ phi HR q 0 Pq0).
      pose proof (rep_range _ _ _ HR _ Pq0).
      destruct (Z.eqb_spec (phi (q ++ [0])) 0); [lia|]. reflexivity.
    + rewrite (rep_next_out d _ phi HR q 0 Pq ltac:(lia)); [reflexivity|].
      intros Pq0. apply Hin. apply KP_term; assumption.
  - rewrite (rep_walk_root_out d _ phi q HR Hq).
    + cbn. destruct (in_dec (list_eq_dec Z.eq_dec) q ks) as [Hin|Hin]; [|reflexivity].
      exfalso. pose proof (KP_key ks q Hin) as Pq0.
      apply (rep_closed _ _ _ HR) in Pq0. destruct Pq0 as (Pq & _).
      apply ct_of_keys_walk in Pq. congruence.
    + intros Pq. apply ct_of_keys_walk in Pq. congruence.
Qed.

(** ** The updates succeed while memory lasts *)

Section OpsTotal.

Variable mem_limit : Z.
Hypothesis Hmem : mem_limit < 2 ^ 31.

Lemma set_term_total d ks phi k id M :
  Rep d (KP ks) phi -> valid_key k -> 0 <= id <= 0xFFFE ->
  dynamic d = true -> Low d M ->
  2 * (M + 256 * (zlen k + 1)) <= mem_limit ->
  exists d', npycrf_da_set_term_value mem_limit d k id = (0, d') /\ dynamic d' = true /\
             Low d' (M + 256 * (zlen k + 1)).
Proof.
  intros HR Hk Hid Hdyn HL Hm.
  destruct (add_bytes_total mem_limit Hmem d ks phi k M HR Hk Hdyn HL Hm)
    as (d1 & E & Hdyn1 & HL1).
  unfold npycrf_da_set_term_value. rewrite E.
  destruct (add_bytes_rep mem_limit d ks phi k 0 d1 HR Hk E eq_refl) as (phi1 & HR1 & _).
  assert (Pk0 : KP (k :: ks) (k ++ [0])) by (apply KP_key; left; reflexivity).
  destruct (rep_closed _ _ _ HR1 k 0 Pk0) as (Pk & _).
  destruct (rep_root _ _ _ HR1) as (R1 & _).
  pose proof (set_walk_in d1 _ phi1 HR1 k [] Pk) as Hsw. cbn [app] in Hsw.
  rewrite R1 in Hsw. change DA_ROOT with 1 in Hsw. rewrite Hsw. cbv zeta.
  destruct (rep_edge _ _ _ HR1 k 0 Pk0) as (E1 & E2 & E3 & E4).
  pose proof (rep_range _ _ _ HR1 _ Pk0) as Hr.
  destruct (Z.leb_spec (zget (base d1) (phi1 k)) 0); [lia|].
  rewrite <- E2.
  destruct (Z.leb_spec (capacity d1) (phi1 (k ++ [0]))); [lia|].
  rewrite E3, Z.eqb_refl. cbn [negb].
  eexists. split; [reflexivity|]. split; [exact Hdyn1|].
  destruct HL1 as (L1 & L2). split; intros s; cbn [set_base base check].
  - apply L1.
  - rewrite zget_zset. destruct (_ && _); [|apply L2].
    rewrite i32_id by (unfold in_i32; lia).
    pose proof (L2 (phi1 k)). lia.
Qed.

Lemma run_ops_total (ops : list trie_op) : forall d ks phi M,
  Rep d (KP ks) phi -> Forall valid_key ks -> Forall op_ok ops ->
  dynamic d = true -> Low d M ->
  2 * (M + 256 * key_cells (map op_key ops)) <= mem_limit ->
  exists d', run_ops mem_limit d ops = (0, d').
Proof.
  induction ops as [|o ops IH]; intros d ks phi M HR Hks Hok Hdyn HL Hm; cbn [run_ops].
  - exists d. reflexivity.
  - apply Forall_cons_iff in Hok. destruct Hok as ((Hk & Hid) & Hok).
    cbn [map key_cells fold_right] in Hm. fold (key_cells (map op_key ops)) in Hm.
    pose proof (key_cells_nonneg (map op_key ops)) as Hn.
    pose proof (zlen_nonneg (op_key o)) as Hn'.
    assert (Hall : Forall valid_key (op_key o :: ks)) by (constructor; assumption).
    destruct o as [k|k id]; cbn [run_op op_key op_id] in *.
    + destruct (add_bytes_total mem_limit Hmem d ks phi k M HR Hk Hdyn HL ltac:(lia))
        as (d1 & E & Hdyn1 & HL1).
      rewrite E.
      destruct (add_bytes_rep mem_limit d ks phi k 0 d1 HR Hk E eq_refl) as (phi1 & HR1 & _).
      apply (IH d1 (k :: ks) phi1 _ HR1 Hall Hok Hdyn1 HL1). lia.
    + destruct (set_term_total d ks phi k id M HR Hk Hid Hdyn HL ltac:(lia))
        as (d1 & E & Hdyn1 & HL1).
      rewrite E.
      destruct (set_term_rep mem_limit d ks phi k id 0 d1 HR Hks Hk Hid E eq_refl)
        as (phi1 & HR1 & _).
      apply (IH d1 (k :: ks) phi1 _ HR1 Hall Hok Hdyn1 HL1). lia.
Qed.

End OpsTotal.

(** C6: take a freshly initialised trie (whose arrays stay in the int32
    index range), non-empty keys of bytes other than 0 and word ids in
    [0, 0xFFFE].  When the trie is dynamic and the allocator grants
    4 + 512 cells per requested transition, every [da_trie_add_bytes] and
    [npycrf_da_set_term_value] call succeeds, the ones that relocate
    children included.  After a sequence of successful calls
    [da_trie_contains_bytes] answers 1 on exactly the keys that were given,
    0 on every other byte string, and [npycrf_da_ro_get_term_value] returns
    for a key the id that [npycrf_da_set_term_value] stored there last. *)
Theorem trie_contains_and_term_values (mem_limit n : Z) (ops : list trie_op)
        (d0 : da_trie_t) :
  mem_limit < 2 ^ 31 ->
  da_trie_init_dynamic mem_limit n = (0, d0) \/ da_trie_init_static n = (0, d0) ->
  Forall op_ok ops ->
  (dynamic d0 = true -> 4 + 512 * key_cells (map op_key ops) <= mem_limit ->
   exists d, run_ops mem_limit d0 ops = (0, d)) /\
  (forall d, run_ops mem_limit d0 ops = (0, d) ->
     (forall q, Forall (fun c => 0 <= c <= 255) q ->
        da_trie_contains_bytes d q =
        if in_dec (list_eq_dec Z.eq_dec) q (map op_key ops) then 1 else 0) /\
     (forall k id, last_value ops k None = Some id ->
        npycrf_da_ro_get_term_value (ro_view d) k = Some id)).
Proof.
  intros Hmem Hinit Hok.
  assert (HR0 : Rep d0 (KP []) (fun _ => DA_ROOT)).
  { apply (Rep_P_ext d0 (fun w => w = [])); [intros w; apply KP_nil|].
    destruct Hinit as [H|H]; [eapply init_dynamic_rep|eapply init_static_rep]; eauto. }
  split.
  { intros Hdyn Hm.
    assert (HL0 : Low d0 2).
    { destruct Hinit as [H|H]; [apply (init_dynamic_low _ _ _ H)|].
      unfold da_trie_init_static in H. destruct (n <? 16); [inversion H|].
      apply clear_low in H; [apply H|reflexivity]. }
    apply (run_ops_total mem_limit Hmem ops d0 [] _ 2 HR0 (Forall_nil _) Hok Hdyn HL0). lia. }
  intros d Hrun.
  assert (HV0 : Vals [] d0 (fun _ => DA_ROOT) (fun _ => None)) by (intros k id H; discriminate).
  destruct (run_ops_inv mem_limit ops d0 [] _ _ 0 d HR0 (Forall_nil _) HV0 Hok Hrun eq_refl)
    as (phi & HR & Hks & HV).
  rewrite app_nil_r in HR, Hks, HV. split.
  - intros q Hq. rewrite (contains_spec d _ phi q HR Hks Hq).
    destruct (in_dec (list_eq_dec Z.eq_dec) q (rev (map op_key ops))) as [H|H];
      destruct (in_dec (list_eq_dec Z.eq_dec) q (map op_key ops)) as [H'|H'];
      try reflexivity; exfalso.
    + apply H'. apply in_rev. exact H.
    + apply H. apply in_rev in H'. exact H'.
  - intros k id Hl. destruct (HV k id Hl) as (A & B & C).
    apply (get_term_value_spec d _ phi HR k id); [apply KP_key; assumption|assumption|assumption].
Qed.

(** The example: ids for [a] and [ab], the key [b] without an id, and a new
    id for [a]. *)
Definition ex_ops : list trie_op :=
  [OpSet [97] 0; OpSet [97; 98] 1; OpAdd [98]; OpSet [97] 5].

Definition ex_trie4 : da_trie_t := snd (run_ops 4096 ex_trie0 ex_ops).

(** An example with a conflict: ids for [a], [b] and [ad]; the key [e] then
    asks for the cell of the node [ad], and the children of the root move
    (the end nodes that hold the ids 0, 1 and 2 get new parents' cells in
    their checks); at the end a new id for [a]. *)
Definition mv_ops : list trie_op :=
  [OpSet [97] 0; OpSet [98] 1; OpSet [97; 100] 2; OpAdd [101]; OpSet [97] 5].

Definition mv_ids3 : da_trie_t := snd (run_ops 8192 mv_trie0 (firstn 3 mv_ops)).

Definition mv_ids5 : da_trie_t := snd (run_ops 8192 mv_trie0 mv_ops).

Lemma trie_contains_and_term_values_witness :
  (exists d, run_ops 8192 mv_trie0 mv_ops = (0, d)) /\
  run_ops 8192 mv_ids3 (skipn 3 mv_ops) = (0, mv_ids5) /\
  (zget (base mv_ids3) DA_ROOT = 1 /\ da_walk mv_ids3 [97] DA_ROOT = 98 /\
   da_walk mv_ids3 [98] DA_ROOT = 99 /\ da_walk mv_ids3 [97; 100] DA_ROOT = 102) /\
  (zget (base mv_ids5) DA_ROOT = 2 /\ da_walk mv_ids5 [97] DA_ROOT = 99 /\
   da_walk mv_ids5 [98] DA_ROOT = 100 /\ da_walk mv_ids5 [101] DA_ROOT = 103) /\
  da_trie_contains_bytes mv_ids5 [97; 100] = 1 /\
  da_trie_contains_bytes mv_ids5 [101] = 1 /\
  da_trie_contains_bytes mv_ids5 [100] = 0 /\
  npycrf_da_ro_get_term_value (ro_view mv_ids5) [97] = Some 5 /\
  npycrf_da_ro_get_term_value (ro_view mv_ids5) [98] = Some 1 /\
  npycrf_da_ro_get_term_value (ro_view mv_ids5) [97; 100] = Some 2.
Proof.
  assert (E : run_ops 8192 mv_trie0 mv_ops = (0, mv_ids5)) by (vm_compute; reflexivity).
  destruct (trie_contains_and_term_values 8192 16 mv_ops mv_trie0) as (T & S).
  - lia.
  - left. vm_compute. reflexivity.
  - repeat constructor; try discriminate; cbn; lia.
  - split; [apply T; [reflexivity|vm_compute; discriminate]|].
    split; [vm_compute; reflexivity|].
    split; [vm_compute; repeat split; reflexivity|].
    split; [vm_compute; repeat split; reflexivity|].
    destruct (S mv_ids5 E) as (A & B).
    split; [|split; [|split]].
    + rewrite A by (repeat constructor; lia).
      destruct (in_dec _ _ _) as [H|H]; [reflexivity|].
      exfalso. apply H. cbn. auto.
    + rewrite A by (repeat constructor; lia).
      destruct (in_dec _ _ _) as [H|H]; [reflexivity|].
      exfalso. apply H. cbn. auto.
    + rewrite A by (repeat constructor; lia).
      destruct (in_dec _ _ _) as [H|H]; [|reflexivity].
      exfalso. cbn in H. repeat (destruct H as [H|H]; [discriminate|]). exact H.
    + split; [|split]; apply B; reflexivity.
Defined.

(** ** What insertion, search and clearing guarantee *)

(** A trie built by successful insertions represents its keys. *)
Lemma built_rep (mem_limit n : Z) (ks : list (list Z)) (d0 d : da_trie_t) :
  da_trie_init_dynamic mem_limit n = (0, d0) \/ da_trie_init_static n = (0, d0) ->
  Forall valid_key ks ->
  add_all mem_limit d0 ks = (0, d) ->
  exists phi, Rep d (KP ks) phi.
Proof.
  intros Hinit Hv Hadd.
  assert (HR0 : Rep d0 (KP []) (fun _ => DA_ROOT)).
  { apply (Rep_P_ext d0 (fun w => w = [])); [intros w; apply KP_nil|].
    destruct Hinit as [H|H]; [eapply init_dynamic_rep|eapply init_static_rep]; eauto. }
  destruct (add_all_rep mem_limit ks d0 [] _ 0 d HR0 Hv Hadd eq_refl) as (phi & HR').
  exists phi. eapply Rep_P_ext; [|exact HR']. intros w.
  split; apply KP_in; intros k; rewrite app_nil_r, <- in_rev; reflexivity.
Qed.

Section Present.

Variable mem_limit : Z.
Variables (d : da_trie_t) (P : path -> Prop) (phi : path -> Z).
Hypothesis HR : Rep d P phi.

(** A transition that exists is returned as it is. *)
Lemma ensure_present (u : path) (c : Z) :
  P (u ++ [c]) -> da_ensure_transition mem_limit d (phi u) c = (0, phi (u ++ [c]), d).
Proof.
  intros Hw. destruct (rep_closed _ _ _ HR u c Hw) as (Hu & Hc).
  destruct (rep_edge _ _ _ HR u c Hw) as (E1 & E2 & E3 & E4).
  pose proof (rep_range _ _ _ HR u Hu) as Hr.
  pose proof (rep_range _ _ _ HR _ Hw) as Hr'.
  rewrite ensure_unfold, (rep_init d P phi HR). cbn [negb].
  destruct (Z.leb_spec (phi u) 0); [lia|]. destruct (Z.leb_spec (capacity d) (phi u)); [lia|].
  cbn [orb]. cbv zeta. destruct (Z.leb_spec (zget (base d) (phi u)) 0); [lia|].
  unfold ensure_tail. cbv zeta. rewrite <- E2. unfold da_reserve.
  destruct (Z.leb_spec (phi (u ++ [c]) + 1) (capacity d)); [|lia].
  rewrite E3, Z.eqb_refl. reflexivity.
Qed.

Lemma add_loop_present (bytes : list Z) : forall u,
  P (u ++ bytes) -> add_loop mem_limit d bytes (phi u) = (0, phi (u ++ bytes), d).
Proof.
  induction bytes as [|c rest IH]; intros u Hw; cbn [add_loop].
  - rewrite app_nil_r. reflexivity.
  - pose proof (rep_snoc_cons d P phi u c rest HR Hw) as Huc.
    rewrite (ensure_present u c Huc).
    rewrite IH; rewrite <- app_assoc; [reflexivity|exact Hw].
Qed.

End Present.

(** Adding a key that is in the trie succeeds and leaves both arrays as
    they are, whatever memory is left. *)
Theorem add_present_key_changes_nothing (mem_limit mem_limit' n : Z) (ks : list (list Z))
        (d0 d : da_trie_t) (k : list Z) :
  da_trie_init_dynamic mem_limit n = (0, d0) \/ da_trie_init_static n = (0, d0) ->
  Forall valid_key ks ->
  add_all mem_limit d0 ks = (0, d) ->
  In k ks ->
  da_trie_add_bytes mem_limit' d k = (0, d).
Proof.
  intros Hinit Hv Hadd Hin.
  destruct (built_rep mem_limit n ks d0 d Hinit Hv Hadd) as (phi & HR).
  pose proof (KP_key ks k Hin) as Pk0.
  destruct (rep_closed _ _ _ HR k 0 Pk0) as (Pk & _).
  rewrite Forall_forall in Hv. destruct (Hv k Hin) as (Hne & _).
  unfold da_trie_add_bytes. destruct k as [|c0 k0] eqn:Ek; [contradiction|].
  rewrite <- Ek in *. rewrite (rep_init d _ phi HR). cbn [negb].
  destruct (rep_root _ _ _ HR) as (R1 & _). rewrite <- R1.
  rewrite (add_loop_present mem_limit' d _ phi HR k []) by exact Pk.
  cbn [app]. rewrite (ensure_present mem_limit' d _ phi HR k 0 Pk0). reflexivity.
Qed.

Lemma add_present_key_changes_nothing_witness :
  da_trie_add_bytes 0 ex_trie3 [97; 98] = (0, ex_trie3).
Proof.
  apply (add_present_key_changes_nothing 4096 0 16 ex_keys ex_trie0 ex_trie3 [97; 98]).
  - left. vm_compute. reflexivity.
  - repeat constructor; try discriminate; lia.
  - vm_compute. reflexivity.
  - cbn. auto.
Defined.

(** [da_trie_search_prefix_bytes] finds a node for the empty string and for
    the strings that start a key followed by the end marker 0, and for no
    other byte string. *)
Theorem search_prefix_finds_key_prefixes (mem_limit n : Z) (ks : list (list Z))
        (d0 d : da_trie_t) (w : list Z) :
  da_trie_init_dynamic mem_limit n = (0, d0) \/ da_trie_init_static n = (0, d0) ->
  Forall valid_key ks ->
  add_all mem_limit d0 ks = (0, d) ->
  Forall (fun c => 0 <= c <= 255) w ->
  (da_trie_search_prefix_bytes d w <> 0 <->
   w = [] \/ exists k r, In k ks /\ k ++ [0] = w ++ r).
Proof.
  intros Hinit Hv Hadd Hw.
  destruct (built_rep mem_limit n ks d0 d Hinit Hv Hadd) as (phi & HR).
  unfold da_trie_search_prefix_bytes. rewrite (rep_init d _ phi HR). cbn [negb].
  assert (E : KP ks w <-> w = [] \/ exists k r, In k ks /\ k ++ [0] = w ++ r).
  { unfold KP. split; (intros [H|H]; [left; exact H|right]).
    - destruct H as (k & Hk & r & Hr). exists k, r. auto.
    - destruct H as (k & r & Hk & Hr). exists k. split; [exact Hk|]. exists r. exact Hr. }
  rewrite <- E. clear E.
  destruct (ct_walk (ct_of_keys ks) w) as [node|] eqn:W.
  - assert (Pw : KP ks w) by (apply ct_of_keys_walk; congruence).
    rewrite (rep_walk_root d _ phi w HR Pw).
    pose proof (rep_range _ _ _ HR w Pw). split; [intros _; exact Pw|lia].
  - assert (Pw : ~ KP ks w).
    { intros Pw. apply ct_of_keys_walk in Pw. congruence. }
    rewrite (rep_walk_root_out d _ phi w HR Hw Pw). split; [congruence|contradiction].
Qed.

Lemma search_prefix_finds_key_prefixes_witness :
  da_trie_search_prefix_bytes ex_trie3 [97] <> 0 <->
  [97] = [] \/ exists k r, In k ex_keys /\ k ++ [0] = [97] ++ r.
Proof.
  apply (search_prefix_finds_key_prefixes 4096 16 ex_keys ex_trie0 ex_trie3 [97]).
  - left. vm_compute. reflexivity.
  - repeat constructor; try discriminate; lia.
  - vm_compute. reflexivity.
  - repeat constructor; lia.
Defined.

(** [da_trie_clear] on a trie with at least two cells succeeds, keeps the
    arrays' size and the ownership flag, and leaves a trie without keys. *)
Theorem clear_forgets_all_keys (d : da_trie_t) (q : list Z) :
  zlen (check d) = zlen (base d) -> 2 <= capacity d ->
  Forall (fun c => 0 <= c <= 255) q ->
  fst (da_trie_clear d) = DA_OK /\
  capacity (snd (da_trie_clear d)) = capacity d /\
  dynamic (snd (da_trie_clear d)) = dynamic d /\
  da_trie_contains_bytes (snd (da_trie_clear d)) q = 0.
Proof.
  intros Hl Hc Hq.
  destruct (da_trie_clear d) as (rc, d') eqn:E.
  assert (Hrc : rc = 0).
  { unfold da_trie_clear in E. destruct (Z.ltb_spec (capacity d) 2); [lia|].
    inversion E. reflexivity. }
  destruct (clear_rep d rc d' Hl E Hrc) as (HR & Hdyn).
  cbn [fst snd]. split; [exact Hrc|]. split.
  { unfold da_trie_clear in E. destruct (Z.ltb_spec (capacity d) 2); [lia|].
    inversion E. unfold capacity. cbn [base]. rewrite zlen_zset. unfold zlen.
    rewrite repeat_length. reflexivity. }
  split; [exact Hdyn|].
  assert (HR' : Rep d' (KP []) (fun _ => DA_ROOT)).
  { apply (Rep_P_ext d' (fun w => w = [])); [intros w; apply KP_nil|exact HR]. }
  rewrite (contains_spec d' [] _ q HR' (Forall_nil _) Hq).
  destruct (in_dec _ q []) as [[]|_]. reflexivity.
Qed.

Lemma clear_forgets_all_keys_witness :
  fst (da_trie_clear ex_trie3) = DA_OK /\
  capacity (snd (da_trie_clear ex_trie3)) = capacity ex_trie3 /\
  dynamic (snd (da_trie_clear ex_trie3)) = dynamic ex_trie3 /\
  da_trie_contains_bytes (snd (da_trie_clear ex_trie3)) [97; 98] = 0.
Proof.
  apply (clear_forgets_all_keys ex_trie3 [97; 98]).
  - vm_compute. reflexivity.
  - vm_compute. discriminate.
  - repeat constructor; lia.
Defined.

(** ** A trie on caller memory *)

(** [d'] has the arrays' sizes and the ownership flag of [d]. *)
Definition same_shape (d d' : da_trie_t) : Prop :=
  zlen (base d') = zlen (base d) /\ zlen (check d') = zlen (check d) /\
  dynamic d' = dynamic d.

Lemma same_shape_refl d : same_shape d d.
Proof. repeat split. Qed.

Lemma same_shape_trans a b c : same_shape a b -> same_shape b c -> same_shape a c.
Proof. intros (A1 & A2 & A3) (B1 & B2 & B3). repeat split; congruence. Qed.

Lemma same_shape_set_base d i v : same_shape d (set_base d i v).
Proof. unfold same_shape, set_base. cbn. rewrite zlen_zset. auto. Qed.

Lemma same_shape_set_check d i v : same_shape d (set_check d i v).
Proof. unfold same_shape, set_check. cbn. rewrite zlen_zset. auto. Qed.

Lemma same_shape_fold {A} (f : da_trie_t -> A -> da_trie_t) (l : list A) :
  (forall d e, same_shape d (f d e)) -> forall d, same_shape d (fold_left f l d).
Proof.
  intros Hf. induction l as [|e l IH]; intros d; cbn [fold_left]; [apply same_shape_refl|].
  apply (same_shape_trans _ (f d e)); [apply Hf|apply IH].
Qed.

Lemma same_shape_clear_old d e : same_shape d (clear_old d e).
Proof.
  destruct e as ((o, nn), cb). unfold clear_old.
  eapply same_shape_trans; [apply same_shape_set_base|apply same_shape_set_check].
Qed.

Lemma same_shape_write_new p d e : same_shape d (write_new p d e).
Proof.
  destruct e as ((o, nn), cb). unfold write_new.
  eapply same_shape_trans; [apply same_shape_set_check|apply same_shape_set_base].
Qed.

Lemma same_shape_mark d e : same_shape d (mark_grandchildren d e).
Proof.
  destruct e as ((o, nn), b). unfold mark_grandchildren.
  destruct (b <=? 0); [apply same_shape_refl|].
  apply same_shape_fold. intros d1 c. cbv zeta.
  destruct (_ && _); [apply same_shape_set_check|apply same_shape_refl].
Qed.

Lemma same_shape_unmark d e : same_shape d (unmark_grandchildren d e).
Proof.
  destruct e as ((o, nn), b). unfold unmark_grandchildren.
  destruct (b <=? 0); [apply same_shape_refl|].
  apply same_shape_fold. intros d1 c. cbv zeta.
  destruct (_ && _); [apply same_shape_set_check|apply same_shape_refl].
Qed.

(** The codes a call on a trie without an allocator returns. *)
Definition static_code (rc : Z) : Prop :=
  rc = DA_OK \/ rc = DA_ERR_BADARG \/ rc = DA_ERR_FULL.

Section Static.

Variable mem_limit : Z.

Lemma reserve_static d need rc d' :
  dynamic d = false -> da_reserve mem_limit d need = (rc, d') ->
  d' = d /\ (rc = DA_OK \/ rc = DA_ERR_FULL).
Proof.
  intros Hs H. unfold da_reserve in H. rewrite Hs in H. cbn [negb] in H.
  destruct (need <=? capacity d); inversion H; auto.
Qed.

Lemma find_base_from_static (fuel : nat) : forall d p codes maxc b rc nb d',
  dynamic d = false -> find_base_from mem_limit fuel d p codes maxc b = (rc, nb, d') ->
  d' = d /\ (rc = DA_OK \/ rc = DA_ERR_FULL).
Proof.
  induction fuel as [|f IH]; intros d p codes maxc b rc nb d' Hs H; cbn [find_base_from] in H.
  - inversion H; auto.
  - destruct (da_reserve mem_limit d (b + maxc + 1)) as (rc1, d1) eqn:R.
    destruct (reserve_static _ _ _ _ Hs R) as (-> & Hrc).
    destruct rc1 as [|?|?];
      try (inversion H; subst; split; [reflexivity|exact Hrc]).
    destruct (base_fits d p b codes); [inversion H; auto|].
    apply (IH _ _ _ _ _ _ _ _ Hs H).
Qed.

Lemma find_base_static d p codes rc nb d' :
  dynamic d = false -> da_find_base mem_limit d p codes = (rc, nb, d') ->
  d' = d /\ static_code rc.
Proof.
  intros Hs H. unfold da_find_base in H.
  destruct codes as [|c0 codes]; [inversion H; unfold static_code; auto|].
  destruct (find_base_from_static _ _ _ _ _ _ _ _ _ Hs H) as (E & [Hrc|Hrc]);
    unfold static_code; auto.
Qed.

Lemma relocate_snapshot_static (codes : list Z) : forall d ob nb snap0 rc d' snap,
  dynamic d = false -> relocate_snapshot mem_limit d ob nb codes snap0 = (rc, d', snap) ->
  d' = d /\ (rc = DA_OK \/ rc = DA_ERR_FULL).
Proof.
  induction codes as [|c codes IH]; intros d ob nb snap0 rc d' snap Hs H;
    cbn [relocate_snapshot] in H.
  - inversion H; auto.
  - cbv zeta in H.
    destruct (da_reserve mem_limit d (nb + c + 1)) as (rc1, d1) eqn:R.
    destruct (reserve_static _ _ _ _ Hs R) as (-> & Hrc).
    destruct rc1 as [|?|?];
      try (inversion H; subst; split; [reflexivity|exact Hrc]).
    apply (IH _ _ _ _ _ _ _ Hs H).
Qed.

Lemma relocate_static d p nb rc d' :
  dynamic d = false -> da_relocate_children mem_limit d p nb = (rc, d') ->
  same_shape d d' /\ static_code rc.
Proof.
  intros Hs H. unfold da_relocate_children in H. cbv zeta in H.
  destruct (relocate_snapshot mem_limit d (zget (base d) p) nb
                              (da_collect_children_codes d p) []) as ((rc1, d1), snap) eqn:S.
  destruct (relocate_snapshot_static _ _ _ _ _ _ _ _ Hs S) as (-> & Hrc).
  assert (C : static_code rc1) by (unfold static_code; tauto).
  destruct rc1 as [|?|?]; try (inversion H; subst; split; [apply same_shape_refl|exact C]).
  inversion H; subst. split; [|unfold static_code; auto].
  eapply same_shape_trans; [|apply same_shape_set_base].
  eapply same_shape_trans; [|apply same_shape_fold, same_shape_unmark].
  eapply same_shape_trans; [|apply same_shape_fold, same_shape_mark].
  eapply same_shape_trans; [|apply same_shape_fold, same_shape_write_new].
  apply same_shape_fold, same_shape_clear_old.
Qed.

Lemma same_shape_static d d' : same_shape d d' -> dynamic d = false -> dynamic d' = false.
Proof. intros (_ & _ & E) H. congruence. Qed.

Lemma tail_static d p c b rc next d' :
  dynamic d = false -> ensure_tail mem_limit d p c b = (rc, next, d') ->
  same_shape d d' /\ static_code rc.
Proof.
  intros Hs H. unfold ensure_tail in H. cbv zeta in H.
  destruct (da_reserve mem_limit d (b + c + 1)) as (rc1, d1) eqn:R.
  destruct (reserve_static _ _ _ _ Hs R) as (-> & Hrc).
  assert (C1 : static_code rc1) by (unfold static_code; tauto).
  destruct rc1 as [|?|?]; try (inversion H; subst; split; [apply same_shape_refl|exact C1]).
  destruct (zget (check d) (b + c) =? p).
  { inversion H; subst. split; [apply same_shape_refl|unfold static_code; auto]. }
  destruct (zget (check d) (b + c) =? 0).
  { inversion H; subst. split; [|unfold static_code; auto].
    eapply same_shape_trans; [apply same_shape_set_check|apply same_shape_set_base]. }
  match type of H with
  | match da_find_base _ _ _ ?codes with _ => _ end = _ =>
    destruct (da_find_base mem_limit d p codes) as ((rc3, nb), d3) eqn:F
  end.
  destruct (find_base_static _ _ _ _ _ _ Hs F) as (-> & C3).
  destruct rc3 as [|?|?]; try (inversion H; subst; split; [apply same_shape_refl|exact C3]).
  destruct (da_relocate_children mem_limit d p nb) as (rc4, d4) eqn:L.
  destruct (relocate_static _ _ _ _ _ Hs L) as (S4 & C4).
  destruct rc4 as [|?|?]; try (inversion H; subst; split; [exact S4|exact C4]).
  pose proof (same_shape_static _ _ S4 Hs) as Hs4.
  destruct (da_reserve mem_limit d4 (nb + c + 1)) as (rc5, d5) eqn:R5.
  destruct (reserve_static _ _ _ _ Hs4 R5) as (-> & Hrc5).
  assert (C5 : static_code rc5) by (unfold static_code; tauto).
  destruct rc5 as [|?|?]; try (inversion H; subst; split; [exact S4|exact C5]).
  destruct (negb (zget (check d4) (nb + c) =? 0)).
  { inversion H; subst. split; [exact S4|unfold static_code; auto]. }
  inversion H; subst. split; [|unfold static_code; auto].
  eapply same_shape_trans; [exact S4|].
  eapply same_shape_trans; [apply same_shape_set_check|apply same_shape_set_base].
Qed.

Lemma ensure_static d p c rc next d' :
  dynamic d = false -> da_ensure_transition mem_limit d p c = (rc, next, d') ->
  same_shape d d' /\ static_code rc.
Proof.
  intros Hs H. rewrite ensure_unfold in H.
  destruct (negb (da_is_initialized d));
    [inversion H; subst; split; [apply same_shape_refl|unfold static_code; auto]|].
  destruct ((p <=? 0) || (capacity d <=? p));
    [inversion H; subst; split; [apply same_shape_refl|unfold static_code; auto]|].
  cbv zeta in H. destruct (zget (base d) p <=? 0).
  - destruct (da_find_base mem_limit d p [c]) as ((rc1, nb), d1) eqn:F.
    destruct (find_base_static _ _ _ _ _ _ Hs F) as (-> & C1).
    destruct rc1 as [|?|?]; try (inversion H; subst; split; [apply same_shape_refl|exact C1]).
    apply tail_static in H; [|exact Hs].
    destruct H as (S & C). split; [|exact C].
    eapply same_shape_trans; [apply same_shape_set_base|exact S].
  - apply (tail_static _ _ _ _ _ _ _ Hs H).
Qed.

Lemma add_loop_static (bytes : list Z) : forall d cur rc next d',
  dynamic d = false -> add_loop mem_limit d bytes cur = (rc, next, d') ->
  same_shape d d' /\ static_code rc.
Proof.
  induction bytes as [|c rest IH]; intros d cur rc next d' Hs H; cbn [add_loop] in H.
  - inversion H; subst. split; [apply same_shape_refl|unfold static_code; auto].
  - destruct (da_ensure_transition mem_limit d cur c) as ((rc1, n1), d1) eqn:E.
    destruct (ensure_static _ _ _ _ _ _ Hs E) as (S1 & C1).
    destruct rc1 as [|?|?]; try (inversion H; subst; split; [exact S1|exact C1]).
    destruct (IH _ _ _ _ _ (same_shape_static _ _ S1 Hs) H) as (S2 & C2).
    split; [exact (same_shape_trans _ _ _ S1 S2)|exact C2].
Qed.

Lemma add_bytes_static d key rc d' :
  dynamic d = false -> da_trie_add_bytes mem_limit d key = (rc, d') ->
  same_shape d d' /\ static_code rc.
Proof.
  intros Hs H. unfold da_trie_add_bytes in H.
  destruct key as [|c0 key0];
    [inversion H; subst; split; [apply same_shape_refl|unfold static_code; auto]|].
  destruct (negb (da_is_initialized d));
    [inversion H; subst; split; [apply same_shape_refl|unfold static_code; auto]|].
  destruct (add_loop mem_limit d (c0 :: key0) DA_ROOT) as ((rc1, cur), d1) eqn:E.
  destruct (add_loop_static _ _ _ _ _ _ Hs E) as (S1 & C1).
  destruct rc1 as [|?|?]; try (inversion H; subst; split; [exact S1|exact C1]).
  destruct (da_ensure_transition mem_limit d1 cur 0) as ((rc2, n2), d2) eqn:E2.
  destruct (ensure_static _ _ _ _ _ _ (same_shape_static _ _ S1 Hs) E2) as (S2 & C2).
  destruct rc2 as [|?|?]; inversion H; subst;
    (split; [exact (same_shape_trans _ _ _ S1 S2)|]); try exact C2.
Qed.

End Static.

(** A trie on caller memory never changes the size of its arrays: whatever
    the key and however the call ends, [da_trie_add_bytes] returns a trie of
    the same capacity that is still static, and its code is [DA_OK],
    [DA_ERR_BADARG] or [DA_ERR_FULL], never [DA_ERR_NOMEM]. *)
Theorem static_trie_never_grows (mem_limit : Z) (d : da_trie_t) (key : list Z) :
  dynamic d = false ->
  capacity (snd (da_trie_add_bytes mem_limit d key)) = capacity d /\
  zlen (check (snd (da_trie_add_bytes mem_limit d key))) = zlen (check d) /\
  dynamic (snd (da_trie_add_bytes mem_limit d key)) = false /\
  (fst (da_trie_add_bytes mem_limit d key) = DA_OK \/
   fst (da_trie_add_bytes mem_limit d key) = DA_ERR_BADARG \/
   fst (da_trie_add_bytes mem_limit d key) = DA_ERR_FULL).
Proof.
  intros Hs. destruct (da_trie_add_bytes mem_limit d key) as (rc, d') eqn:E.
  destruct (add_bytes_static mem_limit d key rc d' Hs E) as ((S1 & S2 & S3) & C).
  cbn [fst snd]. split; [exact S1|]. split; [exact S2|]. split; [congruence|exact C].
Qed.

(** A static trie of sixteen cells. *)
Definition ex_static : da_trie_t := snd (da_trie_init_static 16).

Lemma static_trie_never_grows_witness :
  capacity (snd (da_trie_add_bytes 4096 ex_static [200])) = capacity ex_static /\
  zlen (check (snd (da_trie_add_bytes 4096 ex_static [200]))) = zlen (check ex_static) /\
  dynamic (snd (da_trie_add_bytes 4096 ex_static [200])) = false /\
  (fst (da_trie_add_bytes 4096 ex_static [200]) = DA_OK \/
   fst (da_trie_add_bytes 4096 ex_static [200]) = DA_ERR_BADARG \/
   fst (da_trie_add_bytes 4096 ex_static [200]) = DA_ERR_FULL).
Proof.
  apply (static_trie_never_grows 4096 ex_static [200]). reflexivity.
Defined.

(** ** An insertion that fails *)

Section Failure.

Variable mem_limit : Z.

(** Where [ensure_tail] gives up, the nodes are the ones there were. *)
Lemma tail_rep_err d P phi u c rc next d' :
  Rep d P phi -> P u -> 0 <= c <= 255 -> (u <> [] \/ c <> 0) ->
  0 < zget (base d) (phi u) ->
  ensure_tail mem_limit d (phi u) c (zget (base d) (phi u)) = (rc, next, d') -> rc <> 0 ->
  exists phi2, Rep d' P phi2.
Proof.
  intros HR Hu Hc Hroot Hb H Hrc. unfold ensure_tail in H. cbv zeta in H.
  set (p := phi u) in *. set (b := zget (base d) p) in *.
  pose proof (rep_range _ _ _ HR u Hu) as Hp. fold p in Hp.
  destruct (da_reserve mem_limit d (b + c + 1)) as (rc2, d2) eqn:R.
  apply reserve_spec in R; [|apply (rep_len _ _ _ HR)]. destruct R as (X2 & Hres).
  pose proof (Rep_ext _ _ _ _ HR X2) as HR2.
  destruct rc2 as [|?|?]; [|inversion H; subst; exists phi; exact HR2 ..].
  specialize (Hres eq_refl).
  destruct X2 as (E1 & E2 & E3 & E4 & E5).
  assert (Hb2 : zget (base d2) p = b) by apply E3.
  destruct (Z.eqb_spec (zget (check d2) (b + c)) p) as [Echk|Echk].
  { inversion H; subst. exfalso. apply Hrc. reflexivity. }
  assert (Hnew : ~ P (u ++ [c])).
  { intros Hw. destruct (rep_edge _ _ _ HR2 u c Hw) as (_ & F2 & F3 & _).
    fold p in F2, F3. rewrite Hb2 in F2. rewrite F2 in F3. contradiction. }
  destruct (Z.eqb_spec (zget (check d2) (b + c)) 0) as [Efree|Eocc].
  { inversion H; subst. exfalso. apply Hrc. reflexivity. }
  set (K := da_collect_children_codes d2 p) in *.
  assert (HK : forall x, In x K <-> P (u ++ [x])).
  { intros x. apply (K_spec d2 P phi HR2 u Hu). fold p. rewrite Hb2. exact Hb. }
  assert (Hcont : da_codes_contains K c = false).
  { destruct (da_codes_contains K c) eqn:E; [|reflexivity].
    unfold da_codes_contains in E. apply existsb_exists in E. destruct E as (x & Hx & Ex).
    apply Z.eqb_eq in Ex. subst x. apply HK in Hx. contradiction. }
  rewrite Hcont in H. cbn [negb] in H.
  destruct (da_find_base mem_limit d2 p (K ++ [c])) as ((rc3, nb), d4) eqn:F.
  apply find_base_spec in F; [|apply (rep_len _ _ _ HR2)]. destruct F as (X4 & Hfb).
  pose proof (Rep_ext _ _ _ _ HR2 X4) as HR4.
  destruct rc3 as [|?|?]; [|inversion H; subst; exists phi; exact HR4 ..].
  destruct (Hfb eq_refl) as (Hnb & Hcap & Hfit). clear Hfb.
  assert (HK4 : da_collect_children_codes d4 p = K).
  { apply collect_ext; [apply (rep_len _ _ _ HR2)|assumption|lia]. }
  destruct X4 as (G1 & G2 & G3 & G4 & G5).
  assert (Hb4 : zget (base d4) p = b) by (rewrite G3; exact Hb2).
  assert (Hfit' : forall x, In x (K ++ [c]) ->
            nb + x <> p /\ (zget (check d4) (nb + x) = 0 \/ zget (check d4) (nb + x) = p)).
  { intros x Hx. unfold base_fits in Hfit. rewrite forallb_forall in Hfit.
    specialize (Hfit x Hx). cbv zeta in Hfit. apply andb_true_iff in Hfit. destruct Hfit as (A & B).
    split; [apply negb_true_iff, Z.eqb_neq in A; exact A|].
    apply orb_true_iff in B. destruct B as [B|B]; apply Z.eqb_eq in B; auto. }
  assert (Hcap4 : forall x, In x (da_collect_children_codes d4 (phi u)) -> nb + x + 1 <= capacity d4).
  { fold p. rewrite HK4. intros x Hx. apply Hcap. apply in_or_app. auto. }
  assert (Hfit4 : forall x, In x (da_collect_children_codes d4 (phi u)) ->
            nb + x <> phi u /\ (zget (check d4) (nb + x) = 0 \/ zget (check d4) (nb + x) = phi u)).
  { fold p. rewrite HK4. intros x Hx. apply Hfit'. apply in_or_app. auto. }
  assert (Hb4' : 0 < zget (base d4) (phi u)) by (fold p; rewrite Hb4; exact Hb).
  pose proof (relocate_eq mem_limit d4 phi u nb Hcap4) as Erel. fold p in Erel.
  rewrite Erel in H.
  destruct (relocate_rep d4 P phi HR4 u Hu Hb4' nb Hnb Hcap4 Hfit4)
    as (HRR & capR & dynR & baseR & freeR & valsR).
  set (dr := dR d4 phi u nb) in *. set (phiR := phi' phi u nb) in *.
  clearbody dr.
  destruct (da_reserve mem_limit dr (nb + c + 1)) as (rc5, d5) eqn:R5.
  apply reserve_spec in R5; [|apply (rep_len _ _ _ HRR)]. destruct R5 as (X5 & _).
  pose proof (Rep_ext _ _ _ _ HRR X5) as HR5.
  destruct rc5 as [|?|?]; [|inversion H; subst; exists phiR; exact HR5 ..].
  destruct (negb (zget (check d5) (nb + c) =? 0)).
  - inversion H; subst. exists phiR. exact HR5.
  - inversion H; subst. exfalso. apply Hrc. reflexivity.
Qed.

Lemma ensure_rep_err d P phi u c rc next d' :
  Rep d P phi -> P u -> 0 <= c <= 255 -> (u <> [] \/ c <> 0) ->
  da_ensure_transition mem_limit d (phi u) c = (rc, next, d') -> rc <> 0 ->
  exists phi2, Rep d' P phi2.
Proof.
  intros HR Hu Hc Hroot H Hrc. rewrite ensure_unfold in H.
  rewrite (rep_init d P phi HR) in H. cbn [negb] in H.
  pose proof (rep_range _ _ _ HR u Hu) as Hp.
  destruct (Z.leb_spec (phi u) 0); [lia|]. destruct (Z.leb_spec (capacity d) (phi u)); [lia|].
  cbn [orb] in H. cbv zeta in H.
  destruct (Z.leb_spec (zget (base d) (phi u)) 0) as [Hb|Hb].
  2:{ apply (tail_rep_err d P phi u c rc next d'); assumption. }
  assert (Hleaf : forall x, ~ P (u ++ [x])).
  { intros x Hx. destruct (rep_edge _ _ _ HR u x Hx) as (F1 & _). lia. }
  destruct (da_find_base mem_limit d (phi u) [c]) as ((rc1, nb), d1) eqn:F.
  apply find_base_spec in F; [|apply (rep_len _ _ _ HR)]. destruct F as (X1 & Hfb).
  pose proof (Rep_ext _ _ _ _ HR X1) as HR1.
  destruct rc1 as [|?|?]; [|inversion H; subst; exists phi; exact HR1 ..].
  destruct (Hfb eq_refl) as (Hnb & _). clear Hfb.
  pose proof (set_base_leaf_rep d1 P phi u nb HR1 Hu Hleaf) as HR1'.
  destruct X1 as (E1 & E2 & E3 & E4 & E5).
  assert (Hbase : zget (base (set_base d1 (phi u) nb)) (phi u) = nb).
  { cbn [set_base base]. apply zget_zset_same. unfold capacity in *. lia. }
  rewrite <- Hbase in H at 2.
  apply (tail_rep_err _ P phi u c rc next d' HR1' Hu Hc Hroot ltac:(lia) H Hrc).
Qed.

Lemma add_loop_err (bytes : list Z) : forall d P phi u rc cur d',
  Rep d P phi -> P u -> Forall (fun c => 1 <= c <= 255) bytes ->
  add_loop mem_limit d bytes (phi u) = (rc, cur, d') -> rc <> 0 ->
  exists j phi2, (j <= length bytes)%nat /\ Rep d' (ext_path P u (firstn j bytes)) phi2.
Proof.
  induction bytes as [|c rest IH]; intros d P phi u rc cur d' HR Hu Hb H Hrc.
  - cbn [add_loop] in H. inversion H; subst. exfalso. apply Hrc. reflexivity.
  - cbn [add_loop] in H. apply Forall_cons_iff in Hb. destruct Hb as (Hc & Hrest).
    destruct (da_ensure_transition mem_limit d (phi u) c) as ((rc1, next), d1) eqn:E.
    destruct (Z.eq_dec rc1 0) as [-> | Hrc1].
    + destruct (ensure_rep mem_limit d P phi u c 0 next d1 HR Hu ltac:(lia) ltac:(right; lia)
                           E eq_refl) as (phi1 & R1 & N1 & _).
      rewrite <- N1 in H.
      destruct (IH d1 _ phi1 (u ++ [c]) rc cur d' R1 ltac:(right; reflexivity) Hrest H Hrc)
        as (j & phi2 & Hj & R2).
      exists (S j), phi2. split; [cbn [length]; lia|].
      cbn [firstn]. eapply Rep_P_ext; [|exact R2]. intros w. apply ext_path_cons. assumption.
    + assert (H' : (rc1, next, d1) = (rc, cur, d')) by (destruct rc1; [contradiction| |]; exact H).
      inversion H'; subst.
      destruct (ensure_rep_err d P phi u c rc cur d' HR Hu ltac:(lia) ltac:(right; lia) E Hrc)
        as (phi2 & R2).
      exists 0%nat, phi2. split; [lia|]. cbn [firstn].
      eapply Rep_P_ext; [|exact R2]. intros w. apply ext_path_nil. assumption.
Qed.

(** After a failed insertion the nodes are those of the keys and some
    first bytes of the new key. *)
Lemma add_bytes_err d ks phi key rc d' :
  Rep d (KP ks) phi -> valid_key key ->
  da_trie_add_bytes mem_limit d key = (rc, d') -> rc <> 0 ->
  exists pre phi2, Forall (fun c => c <> 0) pre /\ Rep d' (ext_path (KP ks) [] pre) phi2.
Proof.
  intros HR (Hne & Hb) H Hrc. unfold da_trie_add_bytes in H.
  destruct key as [|c0 key0] eqn:Ekey; [contradiction|]. rewrite <- Ekey in *.
  rewrite (rep_init d _ phi HR) in H. cbn [negb] in H.
  destruct (rep_root _ _ _ HR) as (R1 & _ & R3). rewrite <- R1 in H.
  pose proof (valid_no_zero key Hb) as Hz.
  destruct (add_loop mem_limit d key (phi [])) as ((rc1, cur), d1) eqn:E.
  destruct (Z.eq_dec rc1 0) as [-> | Hrc1].
  - destruct (add_loop_rep mem_limit key d _ phi [] 0 cur d1 HR R3 Hb (Forall_nil _) E eq_refl)
      as (phi1 & HR1 & N1 & _).
    cbn [app] in N1. rewrite N1 in H.
    destruct (da_ensure_transition mem_limit d1 (phi1 key) 0) as ((rc2, term), d2) eqn:E2.
    assert (Hk : ext_path (KP ks) [] key key).
    { right. exists (length key). split; [lia|]. rewrite firstn_all. reflexivity. }
    assert (H' : rc2 = rc /\ d2 = d').
    { destruct rc2; inversion H; subst; auto. }
    destruct H' as (-> & ->).
    destruct (ensure_rep_err d1 _ phi1 key 0 rc term d' HR1 Hk ltac:(lia) ltac:(left; exact Hne)
                             E2 Hrc) as (phi2 & HR2).
    exists key, phi2. split; assumption.
  - assert (H' : rc1 = rc /\ d1 = d').
    { destruct rc1; [contradiction| |]; inversion H; subst; auto. }
    destruct H' as (-> & ->).
    destruct (add_loop_err key d _ phi [] rc cur d' HR R3 Hb E Hrc) as (j & phi2 & Hj & HR2).
    exists (firstn j key), phi2. split; [|exact HR2].
    rewrite <- (firstn_skipn j key) in Hz. apply Forall_app in Hz. apply Hz.
Qed.

End Failure.

(** Membership in a trie that holds the keys [ks] and some first bytes of
    one more key. *)
Lemma contains_ext d ks pre phi q :
  Rep d (ext_path (KP ks) [] pre) phi -> Forall valid_key ks ->
  Forall (fun c => c <> 0) pre -> Forall (fun c => 0 <= c <= 255) q ->
  da_trie_contains_bytes d q = if in_dec (list_eq_dec Z.eq_dec) q ks then 1 else 0.
Proof.
  intros HR Hks Hpre Hq. unfold da_trie_contains_bytes.
  rewrite (rep_init d _ phi HR). cbn [negb]. cbv zeta.
  set (P' := ext_path (KP ks) [] pre) in *.
  assert (Hterm : P' (q ++ [0]) <-> In q ks).
  { split.
    - intros [H|(k & Hk & E)]; [apply KP_term; assumption|]. exfalso.
      cbn [app] in E. rewrite <- (firstn_skipn k pre) in Hpre.
      apply Forall_app in Hpre. destruct Hpre as (Hpre & _). rewrite <- E in Hpre.
      apply Forall_app in Hpre. destruct Hpre as (_ & Hpre). inversion Hpre; subst. congruence.
    - intros Hin. left. apply KP_key. exact Hin. }
  assert (Dec : P' q \/ ~ P' q).
  { destruct (ct_walk (ct_of_keys ks) q) as [node|] eqn:W.
    { left. left. apply ct_of_keys_walk. congruence. }
    assert (NK : ~ KP ks q) by (intros Pq; apply ct_of_keys_walk in Pq; congruence).
    destruct (list_eq_dec Z.eq_dec q (firstn (length q) pre)) as [E|NE].
    - destruct (le_dec (length q) (length pre)) as [L|L].
      + left. right. exists (length q). split; [exact L|exact E].
      + exfalso. rewrite firstn_all2 in E by lia. subst q. lia.
    - right. intros [H|(k & Hk & E)]; [contradiction|]. apply NE. cbn [app] in E.
      rewrite E at 2. rewrite length_firstn, Nat.min_l by exact Hk. exact E. }
  destruct Dec as [Pq|NPq].
  - rewrite (rep_walk_root d _ phi q HR Pq).
    pose proof (rep_range _ _ _ HR q Pq).
    destruct (Z.eqb_spec (phi q) 0); [lia|].
    destruct (in_dec (list_eq_dec Z.eq_dec) q ks) as [Hin|Hin].
    + apply Hterm in Hin.
      rewrite (rep_next_in d _ phi HR q 0 Hin).
      pose proof (rep_range _ _ _ HR _ Hin).
      destruct (Z.eqb_spec (phi (q ++ [0])) 0); [lia|]. reflexivity.
    + rewrite (rep_next_out d _ phi HR q 0 Pq ltac:(lia)); [reflexivity|].
      intros Pq0. apply Hin, Hterm, Pq0.
  - rewrite (rep_walk_root_out d _ phi q HR Hq NPq).
    cbn. destruct (in_dec (list_eq_dec Z.eq_dec) q ks) as [Hin|Hin]; [|reflexivity].
    exfalso. apply Hterm in Hin. apply (rep_closed _ _ _ HR) in Hin. apply NPq, Hin.
Qed.

(** An insertion that fails, for want of memory or of cells in a static
    trie, may have changed the arrays, but no key is lost and none is
    gained: [da_trie_contains_bytes] answers on every byte string as it did
    before the call. *)
Theorem failed_add_keeps_keys (mem_limit mem_limit' n : Z) (ks : list (list Z))
        (d0 d : da_trie_t) (key q : list Z) :
  da_trie_init_dynamic mem_limit n = (0, d0) \/ da_trie_init_static n = (0, d0) ->
  Forall valid_key ks ->
  add_all mem_limit d0 ks = (0, d) ->
  valid_key key ->
  Forall (fun c => 0 <= c <= 255) q ->
  fst (da_trie_add_bytes mem_limit' d key) <> DA_OK ->
  da_trie_contains_bytes (snd (da_trie_add_bytes mem_limit' d key)) q
  = da_trie_contains_bytes d q.
Proof.
  intros Hinit Hv Hadd Hkey Hq Hfail.
  destruct (built_rep mem_limit n ks d0 d Hinit Hv Hadd) as (phi & HR).
  destruct (da_trie_add_bytes mem_limit' d key) as (rc, d') eqn:E. cbn [fst snd] in *.
  destruct (add_bytes_err mem_limit' d ks phi key rc d' HR Hkey E Hfail)
    as (pre & phi2 & Hpre & HR2).
  rewrite (contains_ext d' ks pre phi2 q HR2 Hv Hpre Hq).
  rewrite (contains_spec d ks phi q HR Hv Hq). reflexivity.
Qed.

(** The static trie of sixteen cells with the key [3]: the key [5; 200]
    gets its first node and then finds no cell. *)
Definition ex_static1 : da_trie_t := snd (add_all 0 ex_static [[3]]).

Lemma failed_add_keeps_keys_witness :
  fst (da_trie_add_bytes 0 ex_static1 [5; 200]) = DA_ERR_FULL /\
  snd (da_trie_add_bytes 0 ex_static1 [5; 200]) <> ex_static1 /\
  da_trie_contains_bytes (snd (da_trie_add_bytes 0 ex_static1 [5; 200])) [3]
  = da_trie_contains_bytes ex_static1 [3].
Proof.
  split; [vm_compute; reflexivity|]. split; [vm_compute; discriminate|].
  apply (failed_add_keeps_keys 0 0 16 [[3]] ex_static ex_static1 [5; 200] [3]).
  - right. vm_compute. reflexivity.
  - repeat constructor; try discriminate; lia.
  - vm_compute. reflexivity.
  - split; [discriminate|repeat constructor; lia].
  - repeat constructor; lia.
  - vm_compute. discriminate.
Defined.

(** ** Strings without a word id *)

Section Local.

Variables (d : da_trie_t) (P : path -> Prop) (phi : path -> Z).
Hypothesis HR : Rep d P phi.

(** The lookup of the decoder has no test for the loop at the root; it
    differs from [da_next] at the root with the code 0 only. *)
Lemma local_next u c :
  P u -> 0 <= c -> (u <> [] \/ c <> 0) ->
  da_next_ro_local (ro_view d) (phi u) c = da_next d (phi u) c.
Proof.
  intros Hu Hc Hroot. unfold da_next_ro_local, da_next, ro_view.
  cbn [ro_base ro_check ro_capacity].
  rewrite (rep_init d P phi HR). cbn [negb].
  destruct ((phi u <=? 0) || (capacity d <=? phi u)); [reflexivity|].
  cbv zeta. destruct (Z.leb_spec (zget (base d) (phi u)) 0); [reflexivity|].
  destruct (capacity d <=? _); [reflexivity|].
  destruct (Z.eqb_spec (zget (base d) (phi u) + c) (phi u)) as [E|E]; [|reflexivity].
  destruct (Z.eqb_spec (zget (check d) (zget (base d) (phi u) + c)) (phi u)) as [E'|E'];
    [|reflexivity].
  exfalso. rewrite E in E'. pose proof (rep_self_check d P phi u HR Hu E') as Hnil.
  subst u. destruct (rep_root _ _ _ HR) as (R1 & _). unfold DA_ROOT in R1. rewrite R1 in *.
  destruct Hroot as [Hr|Hr]; [apply Hr; reflexivity|]. lia.
Qed.

Lemma next_nonzero_in u c :
  P u -> 0 <= c -> da_next d (phi u) c <> 0 -> P (u ++ [c]).
Proof.
  intros Hu Hc E. unfold da_next in E. rewrite (rep_init d P phi HR) in E. cbn [negb] in E.
  pose proof (rep_range _ _ _ HR u Hu) as Hr.
  destruct (Z.leb_spec (phi u) 0); [lia|].
  destruct (Z.leb_spec (capacity d) (phi u)); [lia|]. cbn [orb] in E.
  destruct (Z.leb_spec (zget (base d) (phi u)) 0); [contradiction|].
  destruct (Z.leb_spec (capacity d) (zget (base d) (phi u) + c)); [contradiction|].
  destruct (Z.eqb_spec (zget (base d) (phi u) + c) (phi u)); [contradiction|].
  destruct (Z.eqb_spec (zget (check d) (zget (base d) (phi u) + c)) (phi u)) as [E'|E'];
    [|contradiction].
  destruct (rep_child_of d P phi HR u (zget (base d) (phi u) + c) Hu ltac:(lia) E' n)
    as (c' & Hc' & _ & Heq).
  assert (c' = c) by lia. subst c'. assumption.
Qed.

Lemma ro_walk_eq (w : path) : forall u,
  P u -> Forall (fun c => 1 <= c) w ->
  ro_walk (ro_view d) w (phi u) = da_walk d w (phi u).
Proof.
  induction w as [|c w IH]; intros u Hu Hw; cbn [ro_walk da_walk]; [reflexivity|].
  apply Forall_cons_iff in Hw. destruct Hw as (Hc & Hw).
  rewrite (local_next u c Hu ltac:(lia) ltac:(right; lia)).
  destruct (Z.eqb_spec (da_next d (phi u) c) 0) as [E|E]; [reflexivity|].
  pose proof (next_nonzero_in u c Hu ltac:(lia) E) as Huc.
  rewrite (rep_next_in d P phi HR u c Huc). apply IH; assumption.
Qed.

End Local.

Section NewLeaf.

Variable mem_limit : Z.

Lemma reserve_ok_cap d need d' :
  da_reserve mem_limit d need = (0, d') -> need <= capacity d'.
Proof.
  intros H. unfold da_reserve in H.
  destruct (Z.leb_spec need (capacity d)); [inversion H; subst; assumption|].
  destruct (negb (dynamic d)); [inversion H|].
  destruct (grow_cap 64 (if capacity d =? 0 then 256 else capacity d) need) as [nc|] eqn:G;
    [|inversion H].
  destruct (mem_limit <? nc); [inversion H|].
  apply grow_cap_ge in G. destruct G as (G1 & G2).
  assert (Hnc : capacity d <= nc) by (destruct (capacity d =? 0) eqn:E; lia).
  inversion H; subst. unfold capacity in *. cbn [base].
  rewrite zlen_app, zlen_repeat. lia.
Qed.

Lemma new_leaf_base d idx p :
  0 <= idx < capacity d -> zget (base (set_base (set_check d idx p) idx 0)) idx = 0.
Proof.
  intros H. cbn [set_base set_check base]. apply zget_zset_same. exact H.
Qed.

(** A transition that was not there ends at a cell whose base is 0. *)
Lemma tail_new_leaf d P phi u c next d' :
  Rep d P phi -> P u -> 0 <= c <= 255 -> (u <> [] \/ c <> 0) ->
  0 < zget (base d) (phi u) -> ~ P (u ++ [c]) ->
  ensure_tail mem_limit d (phi u) c (zget (base d) (phi u)) = (0, next, d') ->
  zget (base d') next = 0.
Proof.
  intros HR Hu Hc Hroot Hb Hnew H. unfold ensure_tail in H. cbv zeta in H.
  set (p := phi u) in *. set (b := zget (base d) p) in *.
  pose proof (rep_range _ _ _ HR u Hu) as Hp. fold p in Hp.
  destruct (da_reserve mem_limit d (b + c + 1)) as (rc2, d2) eqn:R.
  pose proof R as R'.
  apply reserve_spec in R; [|apply (rep_len _ _ _ HR)]. destruct R as (X2 & _).
  destruct rc2 as [|?|?]; [|inversion H ..].
  apply reserve_ok_cap in R'.
  pose proof (Rep_ext _ _ _ _ HR X2) as HR2.
  destruct X2 as (E1 & E2 & E3 & E4 & E5).
  assert (Hb2 : zget (base d2) p = b) by apply E3.
  destruct (Z.eqb_spec (zget (check d2) (b + c)) p) as [Echk|Echk].
  { exfalso.
    assert (Hne : b + c <> p).
    { intros E. rewrite E in Echk.
      pose proof (rep_self_check _ _ _ _ HR2 Hu Echk) as Hnil.
      destruct (rep_root _ _ _ HR) as (R1 & _). unfold DA_ROOT in R1.
      assert (p = 1) by (unfold p; rewrite Hnil; exact R1).
      destruct Hroot as [Hr|Hr]; [contradiction|]. lia. }
    destruct (rep_child_of d2 P phi HR2 u (b + c) Hu ltac:(lia) Echk Hne)
      as (c' & Hc' & Hphi & Heq).
    fold p in Heq. rewrite Hb2 in Heq. assert (c' = c) by lia. subst c'. contradiction. }
  destruct (Z.eqb_spec (zget (check d2) (b + c)) 0) as [Efree|Eocc].
  { inversion H; subst. apply new_leaf_base. lia. }
  match type of H with
  | match da_find_base _ _ _ ?codes with _ => _ end = _ =>
    destruct (da_find_base mem_limit d2 p codes) as ((rc3, nb), d4) eqn:F
  end.
  apply find_base_spec in F; [|apply (rep_len _ _ _ HR2)]. destruct F as (_ & Hfb).
  destruct rc3 as [|?|?]; [|inversion H ..].
  destruct (Hfb eq_refl) as (Hnb & _).
  destruct (da_relocate_children mem_limit d4 p nb) as (rc4, d5) eqn:L.
  destruct rc4 as [|?|?]; [|inversion H ..].
  destruct (da_reserve mem_limit d5 (nb + c + 1)) as (rc5, d6) eqn:R5.
  destruct rc5 as [|?|?]; [|inversion H ..].
  apply reserve_ok_cap in R5.
  destruct (negb (zget (check d6) (nb + c) =? 0)); [inversion H|].
  inversion H; subst. apply new_leaf_base. lia.
Qed.

Lemma ensure_new_leaf d P phi u c next d' :
  Rep d P phi -> P u -> 0 <= c <= 255 -> (u <> [] \/ c <> 0) -> ~ P (u ++ [c]) ->
  da_ensure_transition mem_limit d (phi u) c = (0, next, d') ->
  zget (base d') next = 0.
Proof.
  intros HR Hu Hc Hroot Hnew H. rewrite ensure_unfold in H.
  rewrite (rep_init d P phi HR) in H. cbn [negb] in H.
  pose proof (rep_range _ _ _ HR u Hu) as Hp.
  destruct (Z.leb_spec (phi u) 0); [lia|]. destruct (Z.leb_spec (capacity d) (phi u)); [lia|].
  cbn [orb] in H. cbv zeta in H.
  destruct (Z.leb_spec (zget (base d) (phi u)) 0) as [Hb|Hb].
  2:{ apply (tail_new_leaf d P phi u c next d'); assumption. }
  assert (Hleaf : forall x, ~ P (u ++ [x])).
  { intros x Hx. destruct (rep_edge _ _ _ HR u x Hx) as (F1 & _). lia. }
  destruct (da_find_base mem_limit d (phi u) [c]) as ((rc1, nb), d1) eqn:F.
  apply find_base_spec in F; [|apply (rep_len _ _ _ HR)]. destruct F as (X1 & Hfb).
  destruct rc1 as [|?|?]; [|inversion H ..].
  destruct (Hfb eq_refl) as (Hnb & _). clear Hfb.
  pose proof (Rep_ext _ _ _ _ HR X1) as HR1.
  pose proof (set_base_leaf_rep d1 P phi u nb HR1 Hu Hleaf) as HR1'.
  destruct X1 as (E1 & E2 & E3 & E4 & E5).
  assert (Hbase : zget (base (set_base d1 (phi u) nb)) (phi u) = nb).
  { cbn [set_base base]. apply zget_zset_same. unfold capacity in *. lia. }
  rewrite <- Hbase in H at 2.
  apply (tail_new_leaf _ P phi u c next d' HR1' Hu Hc Hroot ltac:(lia) Hnew H).
Qed.

(** [add_bytes_rep], with the base of the end node of a new key. *)
Lemma add_bytes_rep0 d ks phi key rc d' :
  Rep d (KP ks) phi -> Forall valid_key ks -> valid_key key ->
  da_trie_add_bytes mem_limit d key = (rc, d') -> rc = 0 ->
  exists phi2,
    Rep d' (KP (key :: ks)) phi2 /\
    (forall v, KP ks (v ++ [0]) ->
       zget (base d') (phi2 (v ++ [0])) = zget (base d) (phi (v ++ [0]))) /\
    (~ In key ks -> zget (base d') (phi2 (key ++ [0])) = 0).
Proof.
  intros HR Hks (Hne & Hb) H Hrc. unfold da_trie_add_bytes in H.
  destruct key as [|c0 key0] eqn:Ekey; [contradiction|]. rewrite <- Ekey in *.
  rewrite (rep_init d _ phi HR) in H. cbn [negb] in H.
  destruct (rep_root _ _ _ HR) as (R1 & _ & R3). rewrite <- R1 in H.
  destruct (add_loop mem_limit d key (phi [])) as ((rc1, cur), d1) eqn:E.
  destruct rc1 as [|?|?]; [|inversion H; subst; discriminate|inversion H; subst; discriminate].
  destruct (add_loop_rep mem_limit key d _ phi [] 0 cur d1 HR R3 Hb (Forall_nil _) E eq_refl)
    as (phi1 & HR1 & N1 & V1).
  cbn [app] in N1. rewrite N1 in H.
  destruct (da_ensure_transition mem_limit d1 (phi1 key) 0) as ((rc2, term), d2) eqn:E2.
  assert (Hk : ext_path (KP ks) [] key key).
  { right. exists (length key). split; [lia|]. rewrite firstn_all. reflexivity. }
  destruct rc2 as [|?|?]; [|inversion H; subst; discriminate|inversion H; subst; discriminate].
  inversion H; subst d2. clear H.
  destruct (ensure_rep mem_limit d1 _ phi1 key 0 0 term d' HR1 Hk ltac:(lia)
                       ltac:(left; exact Hne) E2 eq_refl) as (phi2 & HR2 & N2 & V2 & V2').
  exists phi2. split; [|split].
  - eapply Rep_P_ext; [|exact HR2]. intros w. apply KP_cons.
  - intros v Hv. rewrite V2.
    + apply V1. assumption.
    + left. assumption.
    + apply no_zero_snoc. apply valid_no_zero. assumption.
  - intros Hnot. rewrite N2.
    apply (ensure_new_leaf d1 _ phi1 key 0 term d' HR1 Hk ltac:(lia) ltac:(left; exact Hne));
      [|exact E2].
    intros [Hin|(k & Hkk & Ek)].
    + apply Hnot. apply KP_term; assumption.
    + cbn [app] in Ek. apply (f_equal (@length Z)) in Ek.
      rewrite length_app, length_firstn in Ek. cbn [length] in Ek. lia.
Qed.

(** The keys without an id have the base 0 at their end node. *)
Definition NoVals (ks : list (list Z)) (d : da_trie_t) (phi : path -> Z)
           (vm : list Z -> option Z) : Prop :=
  forall k, In k ks -> vm k = None -> zget (base d) (phi (k ++ [0])) = 0.

Lemma run_ops_novals (ops : list trie_op) : forall d ks phi vm rc d',
  Rep d (KP ks) phi -> Forall valid_key ks -> NoVals ks d phi vm ->
  Forall op_ok ops ->
  run_ops mem_limit d ops = (rc, d') -> rc = 0 ->
  exists phi2,
    Rep d' (KP (rev (map op_key ops) ++ ks)) phi2 /\
    Forall valid_key (rev (map op_key ops) ++ ks) /\
    NoVals (rev (map op_key ops) ++ ks) d' phi2 (fun k => last_value ops k (vm k)).
Proof.
  induction ops as [|o ops IH]; intros d ks phi vm rc d' HR Hks HV Hok H Hrc;
    cbn [run_ops] in H.
  - inversion H; subst. exists phi. cbn. auto.
  - apply Forall_cons_iff in Hok. destruct Hok as ((Hk & Hid) & Hok).
    destruct (run_op mem_limit d o) as (rc1, d1) eqn:E.
    destruct rc1 as [|?|?]; [|inversion H; subst; discriminate|inversion H; subst; discriminate].
    assert (Hall : Forall valid_key (op_key o :: ks)) by (constructor; assumption).
    cbn [map rev]. rewrite <- app_assoc. cbn [app].
    destruct o as [k|k id]; cbn [run_op op_key op_id] in *.
    + destruct (add_bytes_rep0 d ks phi k 0 d1 HR Hks Hk E eq_refl) as (phi1 & HR1 & V1 & V0).
      apply (IH d1 (k :: ks) phi1 vm rc d' HR1 Hall); try assumption.
      intros k' Hin Hv.
      destruct (in_dec (list_eq_dec Z.eq_dec) k' ks) as [Hold|Hnew].
      * rewrite V1; [apply HV; assumption|apply KP_key; assumption].
      * destruct Hin as [<-|Hin]; [apply V0; exact Hnew|contradiction].
    + destruct (set_term_rep mem_limit d ks phi k id 0 d1 HR Hks Hk Hid E eq_refl)
        as (phi1 & HR1 & V0 & V1).
      cbn [last_value].
      apply (IH d1 (k :: ks) phi1 (fun k' => if key_eqb k k' then Some id else vm k')
                rc d' HR1 Hall); try assumption.
      intros k' Hin Hv. destruct (key_eqb k k') eqn:Ek; [discriminate|].
      assert (Hne : k' <> k).
      { intros ->. assert (key_eqb k k = true) by (apply key_eqb_spec; reflexivity).
        congruence. }
      destruct Hin as [<-|Hin]; [contradiction|].
      rewrite V1; [apply HV; assumption|apply KP_key; assumption|exact Hne].
Qed.

End NewLeaf.

(** After a sequence of successful [da_trie_add_bytes] and
    [npycrf_da_set_term_value] calls on a fresh trie,
    [npycrf_da_ro_get_term_value] finds no id for a byte string without the
    byte 0 at which none was stored: not for a string that is no key, and
    not for a key that was only added. *)
Theorem no_term_value_without_id (mem_limit n : Z) (ops : list trie_op)
        (d0 d : da_trie_t) (q : list Z) :
  da_trie_init_dynamic mem_limit n = (0, d0) \/ da_trie_init_static n = (0, d0) ->
  Forall op_ok ops ->
  run_ops mem_limit d0 ops = (0, d) ->
  Forall (fun c => 1 <= c <= 255) q ->
  last_value ops q None = None ->
  npycrf_da_ro_get_term_value (ro_view d) q = None.
Proof.
  intros Hinit Hok Hrun Hq Hlast.
  assert (HR0 : Rep d0 (KP []) (fun _ => DA_ROOT)).
  { apply (Rep_P_ext d0 (fun w => w = [])); [intros w; apply KP_nil|].
    destruct Hinit as [H|H]; [eapply init_dynamic_rep|eapply init_static_rep]; eauto. }
  assert (HV0 : NoVals [] d0 (fun _ => DA_ROOT) (fun _ => None)) by (intros k []).
  destruct (run_ops_novals mem_limit ops d0 [] _ _ 0 d HR0 (Forall_nil _) HV0 Hok Hrun eq_refl)
    as (phi & HR & Hks & HV).
  rewrite app_nil_r in HR, Hks, HV.
  set (ks := rev (map op_key ops)) in *.
  destruct (rep_root _ _ _ HR) as (R1 & _ & R3). unfold DA_ROOT in R1.
  assert (Hq0 : Forall (fun c => 0 <= c <= 255) q).
  { revert Hq. apply Forall_impl. intros; lia. }
  assert (Hq1 : Forall (fun c => 1 <= c) q).
  { revert Hq. apply Forall_impl. intros; lia. }
  unfold npycrf_da_ro_get_term_value. cbv zeta.
  assert (Wk : ro_walk (ro_view d) q 1 = da_walk d q DA_ROOT).
  { pose proof (ro_walk_eq d _ phi HR q [] R3 Hq1) as W0. rewrite R1 in W0. exact W0. }
  rewrite Wk. clear Wk.
  destruct (ct_walk (ct_of_keys ks) q) as [node|] eqn:W.
  2:{ rewrite (rep_walk_root_out d _ phi q HR Hq0); [reflexivity|].
      intros Pq. apply ct_of_keys_walk in Pq. congruence. }
  assert (Pq : KP ks q) by (apply ct_of_keys_walk; congruence).
  rewrite (rep_walk_root d _ phi q HR Pq).
  pose proof (rep_range _ _ _ HR q Pq) as Hr.
  destruct (Z.eqb_spec (phi q) 0); [lia|].
  destruct (in_dec (list_eq_dec Z.eq_dec) q ks) as [Hin|Hin].
  - pose proof (KP_key ks q Hin) as Pq0.
    rewrite (ro_next_in d _ phi HR q 0 Pq0).
    pose proof (rep_range _ _ _ HR _ Pq0).
    destruct (Z.eqb_spec (phi (q ++ [0])) 0); [lia|].
    cbn [ro_view ro_base]. rewrite (HV q Hin Hlast). reflexivity.
  - assert (NP : ~ KP ks (q ++ [0])) by (intros Pq0; apply Hin, KP_term; assumption).
    destruct q as [|c0 q0].
    + (* the root: its only loop is no end node *)
      cbn [app] in *. rewrite R1.
      unfold da_next_ro_local, ro_view. cbn [ro_base ro_check ro_capacity].
      destruct ((1 <=? 0) || (capacity d <=? 1)); [reflexivity|]. cbv zeta.
      destruct (Z.leb_spec (zget (base d) 1) 0); [reflexivity|].
      rewrite Z.add_0_r.
      destruct (Z.leb_spec (capacity d) (zget (base d) 1)); [reflexivity|].
      destruct (Z.eqb_spec (zget (check d) (zget (base d) 1)) 1) as [E|E]; [|reflexivity].
      destruct (Z.eqb_spec (zget (base d) 1) 0); [reflexivity|].
      destruct (Z.eq_dec (zget (base d) 1) 1) as [B1|B1].
      * rewrite B1 at 1. rewrite B1. reflexivity.
      * exfalso. rewrite <- R1 in E at 2.
        destruct (rep_child_of d _ phi HR [] (zget (base d) 1) R3 ltac:(lia) E
                               ltac:(rewrite R1; exact B1)) as (c' & Hc' & _ & Heq).
        rewrite R1 in Heq. assert (c' = 0) by lia. subst c'. apply NP. exact Hc'.
    + rewrite (local_next d _ phi HR (c0 :: q0) 0 Pq ltac:(lia) ltac:(left; discriminate)).
      rewrite (rep_next_out d _ phi HR (c0 :: q0) 0 Pq ltac:(lia) NP). reflexivity.
Qed.

Lemma no_term_value_without_id_witness :
  npycrf_da_ro_get_term_value (ro_view ex_trie4) [98] = None /\
  npycrf_da_ro_get_term_value (ro_view ex_trie4) [98; 97] = None.
Proof.
  split.
  - apply (no_term_value_without_id 4096 16 ex_ops ex_trie0 ex_trie4 [98]).
    + left. vm_compute. reflexivity.
    + repeat constructor; try discriminate; cbn; lia.
    + vm_compute. reflexivity.
    + repeat constructor; lia.
    + reflexivity.
  - apply (no_term_value_without_id 4096 16 ex_ops ex_trie0 ex_trie4 [98; 97]).
    + left. vm_compute. reflexivity.
    + repeat constructor; try discriminate; cbn; lia.
    + vm_compute. reflexivity.
    + repeat constructor; lia.
    + reflexivity.
Defined.

End TrieProofs.

(** ** The pruning of the unigram model *)
Module UnilmProofs.

Import Mem MemFacts.

(** * The order of [double] values that are not NaN *)

Lemma SFcompare_refl (x : spec_float) : x <> S754_nan -> SFcompare x x = Some Eq.
Proof.
  destruct x as [s|s| |s m e]; intros H; cbn [SFcompare]; try congruence.
  - destruct s; reflexivity.
  - rewrite Z.compare_refl, Pos.compare_cont_refl. destruct s; reflexivity.
Qed.

Lemma is_nan_SF (x : float) : PrimFloat.is_nan x = false <-> Prim2SF x <> S754_nan.
Proof.
  unfold PrimFloat.is_nan. rewrite FloatAxioms.eqb_spec. unfold SFeqb. split.
  - intros H E. rewrite E in H. cbn in H. discriminate.
  - intros H. rewrite SFcompare_refl by assumption. reflexivity.
Qed.

Ltac cmp_cases :=
  repeat match goal with
         | |- context [Pos.compare_cont Eq ?a ?b] =>
           change (Pos.compare_cont Eq a b) with (Pos.compare a b);
           destruct (Pos.compare_spec a b)
         | |- context [Z.compare ?a ?b] => destruct (Z.compare_spec a b)
         end.

Lemma SF_total (x y : spec_float) :
  x <> S754_nan -> y <> S754_nan -> SFltb x y = false -> SFleb y x = true.
Proof.
  unfold SFltb, SFleb.
  destruct x as [sx|sx| |sx mx ex], y as [sy|sy| |sy my ey]; intros Hx Hy;
    try congruence; cbn [SFcompare];
    try (destruct sx); try (destruct sy); try reflexivity; try discriminate;
    cmp_cases; cbn; intros; try reflexivity; try discriminate; try lia.
Qed.

Lemma SF_lt_le (x y : spec_float) : SFltb x y = true -> SFleb x y = true.
Proof.
  unfold SFltb, SFleb. destruct (SFcompare x y) as [[| |]|]; congruence.
Qed.

Lemma SF_le_not_nan (x y : spec_float) :
  SFleb x y = true -> x <> S754_nan /\ y <> S754_nan.
Proof.
  unfold SFleb. destruct x, y; cbn; intros H; split; congruence.
Qed.

Lemma SF_trans (x y z : spec_float) :
  SFleb x y = true -> SFleb y z = true -> SFleb x z = true.
Proof.
  unfold SFleb.
  destruct x as [sx|sx| |sx mx ex], y as [sy|sy| |sy my ey], z as [sz|sz| |sz mz ez];
    cbn [SFcompare]; try discriminate;
    try (destruct sx); try (destruct sy); try (destruct sz);
    try reflexivity; try discriminate;
    cmp_cases; cbn; intros; try reflexivity; try discriminate; try lia.
Qed.

Lemma leb_trans (x y z : float) :
  PrimFloat.leb x y = true -> PrimFloat.leb y z = true -> PrimFloat.leb x z = true.
Proof. rewrite !FloatAxioms.leb_spec. apply SF_trans. Qed.

Lemma leb_of_not_ltb (x y : float) :
  PrimFloat.is_nan x = false -> PrimFloat.is_nan y = false ->
  PrimFloat.ltb x y = false -> PrimFloat.leb y x = true.
Proof.
  rewrite !is_nan_SF, FloatAxioms.ltb_spec, FloatAxioms.leb_spec. apply SF_total.
Qed.

Lemma leb_of_ltb (x y : float) : PrimFloat.ltb x y = true -> PrimFloat.leb x y = true.
Proof. rewrite FloatAxioms.ltb_spec, FloatAxioms.leb_spec. apply SF_lt_le. Qed.

Lemma ltb_of_not_leb (x y : float) :
  PrimFloat.is_nan x = false -> PrimFloat.is_nan y = false ->
  PrimFloat.leb x y = false -> PrimFloat.leb y x = true.
Proof.
  intros Hx Hy H. apply leb_of_not_ltb; [assumption|assumption|].
  destruct (PrimFloat.ltb x y) eqn:E; [|reflexivity].
  apply leb_of_ltb in E. congruence.
Qed.

Lemma leb_refl (x : float) : PrimFloat.is_nan x = false -> PrimFloat.leb x x = true.
Proof.
  rewrite is_nan_SF, FloatAxioms.leb_spec. intros H. unfold SFleb.
  rewrite SFcompare_refl by assumption. reflexivity.
Qed.

Import Unilm.

(** * The min-heap of the top-K selection *)

Definition flen (l : list float) : Z := Z.of_nat (length l).

Lemma fupd_nat_length l n v : length (fupd_nat l n v) = length l.
Proof. revert n. induction l as [|h t IH]; intros [|n]; simpl; auto. Qed.

Lemma flen_fset l i v : flen (fset l i v) = flen l.
Proof. unfold flen, fset. destruct (i <? 0); [reflexivity|]. now rewrite fupd_nat_length. Qed.

Lemma nth_fupd_nat_same l n v : (n < length l)%nat -> nth n (fupd_nat l n v) 0%float = v.
Proof. revert n. induction l as [|h t IH]; intros [|n] H; simpl in *; try lia; auto. apply IH. lia. Qed.

Lemma nth_fupd_nat_other l n k v : n <> k -> nth k (fupd_nat l n v) 0%float = nth k l 0%float.
Proof.
  revert n k. induction l as [|h t IH]; intros [|n] [|k] H; simpl; auto; try congruence.
Qed.

Lemma fget_fset l i j v :
  fget (fset l i v) j = if (i =? j) && (0 <=? i) && (i <? flen l) then v else fget l j.
Proof.
  unfold fget, fset, flen.
  destruct (Z.eqb_spec i j) as [->|Hne]; cbn [andb].
  - destruct (Z.ltb_spec j 0) as [Hj|Hj].
    + destruct (Z.leb_spec 0 j); [lia|]. reflexivity.
    + destruct (Z.leb_spec 0 j); [|lia]. cbn [andb].
      destruct (Z.ltb_spec j (Z.of_nat (length l))) as [Hl|Hl].
      * apply nth_fupd_nat_same. lia.
      * rewrite !nth_overflow; [reflexivity|lia|rewrite fupd_nat_length; lia].
  - destruct (Z.ltb_spec j 0); [reflexivity|].
    destruct (Z.ltb_spec i 0); [reflexivity|].
    apply nth_fupd_nat_other. lia.
Qed.

(** The exchange of two cells, as the C code writes it. *)
Definition tr (a b j : Z) : Z := if j =? b then a else if j =? a then b else j.

Lemma zswap_get l a b j :
  0 <= a < zlen l -> 0 <= b < zlen l ->
  zget (zset (zset l a (zget l b)) b (zget l a)) j = zget l (tr a b j).
Proof.
  intros Ha Hb. rewrite !zget_zset, zlen_zset. unfold tr.
  destruct (Z.eqb_spec b j) as [->|Hbj].
  - rewrite Z.eqb_refl.
    destruct (Z.leb_spec 0 j); [|lia]. destruct (Z.ltb_spec j (zlen l)); [|lia]. reflexivity.
  - destruct (Z.eqb_spec j b); [congruence|]. cbn [andb].
    destruct (Z.eqb_spec a j) as [->|Haj].
    + rewrite Z.eqb_refl.
      destruct (Z.leb_spec 0 j); [|lia]. destruct (Z.ltb_spec j (zlen l)); [|lia]. reflexivity.
    + destruct (Z.eqb_spec j a); [congruence|]. reflexivity.
Qed.

Lemma fswap_get l a b j :
  0 <= a < flen l -> 0 <= b < flen l ->
  fget (fset (fset l a (fget l b)) b (fget l a)) j = fget l (tr a b j).
Proof.
  intros Ha Hb. rewrite !fget_fset, flen_fset. unfold tr.
  destruct (Z.eqb_spec b j) as [->|Hbj].
  - rewrite Z.eqb_refl.
    destruct (Z.leb_spec 0 j); [|lia]. destruct (Z.ltb_spec j (flen l)); [|lia]. reflexivity.
  - destruct (Z.eqb_spec j b); [congruence|]. cbn [andb].
    destruct (Z.eqb_spec a j) as [->|Haj].
    + rewrite Z.eqb_refl.
      destruct (Z.leb_spec 0 j); [|lia]. destruct (Z.ltb_spec j (flen l)); [|lia]. reflexivity.
    + destruct (Z.eqb_spec j a); [congruence|]. reflexivity.
Qed.

Lemma tr_range a b j n : 0 <= a < n -> 0 <= b < n -> 0 <= j < n -> 0 <= tr a b j < n.
Proof. unfold tr. intros. destruct (j =? b); [lia|]. destruct (j =? a); lia. Qed.

Lemma tr_invol a b j : tr a b (tr a b j) = j.
Proof.
  unfold tr. destruct (Z.eqb_spec j b) as [->|Hb].
  - destruct (Z.eqb_spec a b); [congruence|]. rewrite Z.eqb_refl. reflexivity.
  - destruct (Z.eqb_spec j a) as [->|Ha].
    + rewrite Z.eqb_refl. reflexivity.
    + destruct (Z.eqb_spec j b); [congruence|]. destruct (Z.eqb_spec j a); congruence.
Qed.

Definition par (j : Z) : Z := (j - 1) / 2.

Lemma par_lt j : 1 <= j -> 0 <= par j < j.
Proof. unfold par. intros. Z.div_mod_to_equations. lia. Qed.

Lemma par_child i c : par c = i -> 1 <= c -> c = 2 * i + 1 \/ c = 2 * i + 2.
Proof. unfold par. intros. Z.div_mod_to_equations. lia. Qed.

Lemma par_l i : 0 <= i -> par (2 * i + 1) = i.
Proof. unfold par. intros. Z.div_mod_to_equations. lia. Qed.

Lemma par_r i : 0 <= i -> par (2 * i + 1 + 1) = i.
Proof. unfold par. intros. Z.div_mod_to_equations. lia. Qed.

Definition nonan (sc : list float) (n : Z) : Prop :=
  forall j, 0 <= j < n -> PrimFloat.is_nan (fget sc j) = false.

Definition is_heap (sc : list float) (n : Z) : Prop :=
  forall j, 1 <= j < n -> PrimFloat.leb (fget sc (par j)) (fget sc j) = true.

(** The heap order but between [i] and its parent. *)
Definition heap_up (sc : list float) (n i : Z) : Prop :=
  (forall j, 1 <= j < n -> j <> i -> PrimFloat.leb (fget sc (par j)) (fget sc j) = true) /\
  (1 <= i -> forall c, 1 <= c < n -> par c = i ->
     PrimFloat.leb (fget sc (par i)) (fget sc c) = true).

(** The heap order but between [i] and its children. *)
Definition heap_down (sc : list float) (n i : Z) : Prop :=
  (forall j, 1 <= j < n -> par j <> i -> PrimFloat.leb (fget sc (par j)) (fget sc j) = true) /\
  (1 <= i -> forall c, 1 <= c < n -> par c = i ->
     PrimFloat.leb (fget sc (par i)) (fget sc c) = true).

Lemma root_min sc n :
  is_heap sc n -> nonan sc n -> forall j, 0 <= j < n ->
  PrimFloat.leb (fget sc 0) (fget sc j) = true.
Proof.
  intros Hh Hn j Hj. destruct Hj as (Hj0 & Hjn). revert Hjn.
  pattern j. apply Zlt_0_ind; [|assumption].
  clear j Hj0. intros j IH Hj0 Hjn.
  destruct (Z.eq_dec j 0) as [->|Hne].
  - apply leb_refl. apply Hn. lia.
  - pose proof (par_lt j ltac:(lia)) as Hp.
    apply (leb_trans _ (fget sc (par j))).
    + apply IH; lia.
    + apply Hh. lia.
Qed.

Section Entries.

(** The score of a piece. *)
Variable f : Z -> float.

Definition good (idx : list Z) (sc : list float) (n : Z) : Prop :=
  (forall j, 0 <= j < n -> fget sc j = f (zget idx j)) /\
  (forall j j', 0 <= j < n -> 0 <= j' < n -> zget idx j = zget idx j' -> j = j').

Definition img (idx : list Z) (n x : Z) : Prop :=
  exists j, 0 <= j < n /\ zget idx j = x.

Record heap_res (n : Z) (idx : list Z) (sc : list float)
       (idx' : list Z) (sc' : list float) : Prop := {
  hr_zlen : zlen idx' = zlen idx;
  hr_flen : flen sc' = flen sc;
  hr_nonan : nonan sc' n;
  hr_good : good idx' sc' n;
  hr_heap : is_heap sc' n;
  hr_img : forall x, img idx' n x <-> img idx n x
}.

Lemma swap_keeps n idx sc a b :
  0 <= a < n -> 0 <= b < n -> n <= zlen idx -> n <= flen sc ->
  nonan sc n -> good idx sc n ->
  let idx' := zset (zset idx a (zget idx b)) b (zget idx a) in
  let sc' := fset (fset sc a (fget sc b)) b (fget sc a) in
  zlen idx' = zlen idx /\ flen sc' = flen sc /\ nonan sc' n /\ good idx' sc' n /\
  (forall x, img idx' n x <-> img idx n x) /\
  (forall j, fget sc' j = fget sc (tr a b j)).
Proof.
  intros Ha Hb Hzl Hfl Hn (G1 & G2) idx' sc'.
  assert (Ei : forall j, zget idx' j = zget idx (tr a b j)).
  { intros j. apply zswap_get; lia. }
  assert (Es : forall j, fget sc' j = fget sc (tr a b j)).
  { intros j. apply fswap_get; lia. }
  split; [unfold idx'; rewrite !zlen_zset; reflexivity|].
  split; [unfold sc'; rewrite !flen_fset; reflexivity|].
  split; [intros j Hj; rewrite Es; apply Hn, tr_range; assumption|].
  split; [split|split; [|exact Es]].
  - intros j Hj. rewrite Es, Ei. apply G1. apply tr_range; assumption.
  - intros j j' Hj Hj' E. rewrite !Ei in E.
    apply G2 in E; [|apply tr_range; assumption|apply tr_range; assumption].
    rewrite <- (tr_invol a b j), <- (tr_invol a b j'). congruence.
  - intros x. split; intros (j & Hj & E).
    + exists (tr a b j). split; [apply tr_range; assumption|]. rewrite <- Ei. exact E.
    + exists (tr a b j). split; [apply tr_range; assumption|].
      rewrite Ei, tr_invol. exact E.
Qed.

Lemma sift_up_spec n (fuel : nat) : forall idx sc i idx' sc',
  0 <= i < n -> (Z.to_nat i <= fuel)%nat -> n <= zlen idx -> n <= flen sc ->
  nonan sc n -> good idx sc n -> heap_up sc n i ->
  sift_up_loop fuel idx sc i = (idx', sc') ->
  heap_res n idx sc idx' sc'.
Proof.
  assert (Hdone : forall idx sc i, nonan sc n -> good idx sc n -> heap_up sc n i ->
            (1 <= i -> PrimFloat.leb (fget sc (par i)) (fget sc i) = true) ->
            heap_res n idx sc idx sc).
  { intros idx sc i Hn Hg (U1 & U2) Hi. constructor; auto; [|tauto].
    intros j Hj. destruct (Z.eq_dec j i) as [->|Hne]; [apply Hi; lia|apply U1; assumption]. }
  induction fuel as [|fuel IH]; intros idx sc i idx' sc' Hi Hf Hzl Hfl Hn Hg Hu H;
    cbn [sift_up_loop] in H.
  - inversion H; subst. apply (Hdone idx' sc' i); auto. lia.
  - destruct (Z.leb_spec i 0) as [Hi0|Hi0].
    { inversion H; subst. apply (Hdone idx' sc' i); auto. lia. }
    fold (par i) in H. pose proof (par_lt i ltac:(lia)) as Hp.
    destruct (PrimFloat.leb (fget sc (par i)) (fget sc i)) eqn:Ele.
    { inversion H; subst. apply (Hdone idx' sc' i); auto. }
    assert (Hlt : PrimFloat.leb (fget sc i) (fget sc (par i)) = true).
    { apply ltb_of_not_leb; [apply Hn; lia|apply Hn; lia|exact Ele]. }
    destruct (swap_keeps n idx sc (par i) i ltac:(lia) ltac:(lia) Hzl Hfl Hn Hg)
      as (S1 & S2 & S3 & S4 & S5 & S6).
    cbv zeta in *.
    set (idx1 := zset (zset idx (par i) (zget idx i)) i (zget idx (par i))) in *.
    set (sc1 := fset (fset sc (par i) (fget sc i)) i (fget sc (par i))) in *.
    destruct Hu as (U1 & U2).
    assert (Hu1 : heap_up sc1 n (par i)).
    { split.
      - intros j Hj Hjp. rewrite !S6.
        destruct (Z.eq_dec j i) as [->|Hji].
        + unfold tr at 2. rewrite Z.eqb_refl.
          unfold tr. destruct (Z.eqb_spec (par i) i); [lia|]. rewrite Z.eqb_refl. exact Hlt.
        + pose proof (par_lt j ltac:(lia)) as Hpj.
          assert (Ej : tr (par i) i j = j).
          { unfold tr. destruct (Z.eqb_spec j i); [congruence|].
            destruct (Z.eqb_spec j (par i)); [congruence|]. reflexivity. }
          rewrite Ej. unfold tr.
          destruct (Z.eqb_spec (par j) i) as [Epi|Epi].
          * apply U2; [lia|lia|exact Epi].
          * destruct (Z.eqb_spec (par j) (par i)) as [Epp|Epp].
            -- apply (leb_trans _ (fget sc (par i))); [exact Hlt|].
               rewrite <- Epp. apply U1; assumption.
            -- apply U1; assumption.
      - intros Hp1 c Hc Hpc. rewrite !S6.
        pose proof (par_lt (par i) Hp1) as Hpp.
        assert (Epp : tr (par i) i (par (par i)) = par (par i)).
        { unfold tr. destruct (Z.eqb_spec (par (par i)) i); [lia|].
          destruct (Z.eqb_spec (par (par i)) (par i)); [lia|]. reflexivity. }
        rewrite Epp.
        assert (Hgp : PrimFloat.leb (fget sc (par (par i))) (fget sc (par i)) = true).
        { apply U1; lia. }
        unfold tr. destruct (Z.eqb_spec c i) as [->|Hci]; [exact Hgp|].
        pose proof (par_lt c ltac:(lia)).
        destruct (Z.eqb_spec c (par i)); [lia|].
        apply (leb_trans _ (fget sc (par i))); [exact Hgp|].
        rewrite <- Hpc. apply U1; assumption. }
    assert (R : heap_res n idx1 sc1 idx' sc').
    { apply (IH idx1 sc1 (par i)); auto; try lia. }
    destruct R as [R1 R2 R3 R4 R5 R6]. constructor; auto; try congruence.
    intros x. rewrite R6. apply S5.
Qed.

Lemma sift_down_spec n (fuel : nat) : forall idx sc i idx' sc',
  0 <= i -> (Z.to_nat (n - i) <= fuel)%nat -> n <= zlen idx -> n <= flen sc ->
  nonan sc n -> good idx sc n -> heap_down sc n i ->
  sift_down_loop fuel idx sc n i = (idx', sc') ->
  heap_res n idx sc idx' sc'.
Proof.
  assert (Hdone : forall idx sc i, nonan sc n -> good idx sc n -> heap_down sc n i ->
            (forall c, 1 <= c < n -> par c = i ->
                       PrimFloat.leb (fget sc i) (fget sc c) = true) ->
            heap_res n idx sc idx sc).
  { intros idx sc i Hn Hg (D1 & D2) Hc. constructor; auto; [|tauto].
    intros j Hj. destruct (Z.eq_dec (par j) i) as [E|E].
    - rewrite E. apply Hc; assumption.
    - apply D1; assumption. }
  induction fuel as [|fuel IH]; intros idx sc i idx' sc' Hi Hf Hzl Hfl Hn Hg Hd H;
    cbn [sift_down_loop] in H.
  - inversion H; subst. apply (Hdone idx' sc' i); auto.
    intros c Hc Hpc. pose proof (par_lt c ltac:(lia)). lia.
  - cbv zeta in H.
    set (l := 2 * i + 1) in *.
    set (s1 := if (l <? n) && PrimFloat.ltb (fget sc l) (fget sc i) then l else i) in *.
    set (s := if (l + 1 <? n) && PrimFloat.ltb (fget sc (l + 1)) (fget sc s1) then l + 1 else s1) in *.
    assert (Hpl : par l = i) by (apply par_l; assumption).
    assert (Hpr : par (l + 1) = i) by (apply par_r; assumption).
    (* what the choice of [s] gives *)
    assert (Hs : (s = i /\ (l < n -> PrimFloat.ltb (fget sc l) (fget sc i) = false) /\
                  (l + 1 < n -> PrimFloat.ltb (fget sc (l + 1)) (fget sc i) = false)) \/
                 (s = l /\ l < n /\ PrimFloat.ltb (fget sc l) (fget sc i) = true /\
                  (l + 1 < n -> PrimFloat.ltb (fget sc (l + 1)) (fget sc l) = false)) \/
                 (s = l + 1 /\ l + 1 < n /\
                  PrimFloat.ltb (fget sc (l + 1)) (fget sc s1) = true /\
                  ((s1 = l /\ PrimFloat.ltb (fget sc l) (fget sc i) = true) \/
                   (s1 = i /\ PrimFloat.ltb (fget sc l) (fget sc i) = false)))).
    { unfold s, s1.
      destruct (Z.ltb_spec l n) as [Hl|Hl]; cbn [andb].
      - destruct (PrimFloat.ltb (fget sc l) (fget sc i)) eqn:E1.
        + destruct (Z.ltb_spec (l + 1) n) as [Hr|Hr]; cbn [andb].
          * destruct (PrimFloat.ltb (fget sc (l + 1)) (fget sc l)) eqn:E2.
            -- right. right. repeat split; auto.
            -- right. left. repeat split; auto.
          * right. left. repeat split; auto. lia.
        + destruct (Z.ltb_spec (l + 1) n) as [Hr|Hr]; cbn [andb].
          * destruct (PrimFloat.ltb (fget sc (l + 1)) (fget sc i)) eqn:E2.
            -- right. right. repeat split; auto.
            -- left. repeat split; auto.
          * left. repeat split; auto. lia.
      - destruct (Z.ltb_spec (l + 1) n) as [Hr|Hr]; [lia|]. cbn [andb].
        left. repeat split; intros; lia. }
    destruct Hs as [(Es & Hl0 & Hr0)|Hs].
    { rewrite Es, Z.eqb_refl in H. inversion H; subst idx' sc'.
      apply (Hdone idx sc i); auto.
      intros c Hc Hpc. destruct (par_child i c Hpc ltac:(lia)) as [->| ->].
      - fold l. fold l in Hc. apply leb_of_not_ltb; [apply Hn; lia|apply Hn; lia|apply Hl0; lia].
      - replace (2 * i + 2) with (l + 1) in * by (unfold l; lia).
        apply leb_of_not_ltb; [apply Hn; lia|apply Hn; lia|apply Hr0; lia]. }
    assert (Hsn : i < s < n /\ par s = i /\
                  PrimFloat.leb (fget sc s) (fget sc i) = true /\
                  (forall c, 1 <= c < n -> par c = i -> c <> s ->
                             PrimFloat.leb (fget sc s) (fget sc c) = true)).
    { destruct Hs as [(Es & Hl & E1 & E2)|(Es & Hr & E1 & E2)].
      - rewrite Es. split; [unfold l; lia|]. split; [exact Hpl|].
        split; [apply leb_of_ltb; exact E1|].
        intros c Hc Hpc Hcs. destruct (par_child i c Hpc ltac:(lia)) as [->| ->];
          [unfold l in Hcs; lia|].
        replace (2 * i + 2) with (l + 1) in * by (unfold l; lia).
        apply leb_of_not_ltb; [apply Hn; lia|apply Hn; lia|apply E2; lia].
      - rewrite Es. split; [unfold l; lia|]. split; [exact Hpr|].
        assert (Hri : PrimFloat.leb (fget sc (l + 1)) (fget sc i) = true /\
                      PrimFloat.leb (fget sc (l + 1)) (fget sc l) = true).
        { destruct E2 as [(E2 & E3)|(E2 & E3)]; rewrite E2 in E1.
          - split; [|apply leb_of_ltb; exact E1].
            apply (leb_trans _ (fget sc l)); apply leb_of_ltb; assumption.
          - split; [apply leb_of_ltb; exact E1|].
            apply (leb_trans _ (fget sc i)); [apply leb_of_ltb; exact E1|].
            apply leb_of_not_ltb; [apply Hn; unfold l; lia|apply Hn; unfold l; lia|exact E3]. }
        split; [apply Hri|].
        intros c Hc Hpc Hcs. destruct (par_child i c Hpc ltac:(lia)) as [->| ->].
        + apply Hri.
        + unfold l in Hcs. lia. }
    destruct Hsn as (Hsr & Hps & Hsi & Hsc).
    destruct (Z.eqb_spec s i) as [Esi|Esi]; [lia|].
    clearbody s. clear Hs s1.
    destruct (swap_keeps n idx sc s i ltac:(lia) ltac:(lia) Hzl Hfl Hn Hg)
      as (S1 & S2 & S3 & S4 & S5 & S6).
    cbv zeta in *.
    set (idx1 := zset (zset idx s (zget idx i)) i (zget idx s)) in *.
    set (sc1 := fset (fset sc s (fget sc i)) i (fget sc s)) in *.
    destruct Hd as (D1 & D2).
    assert (Hd1 : heap_down sc1 n s).
    { split.
      - intros j Hj Hjp. rewrite !S6.
        pose proof (par_lt j ltac:(lia)) as Hpj.
        destruct (Z.eq_dec j s) as [->|Hjs].
        + rewrite Hps. unfold tr. rewrite !Z.eqb_refl.
          destruct (Z.eqb_spec s i); [lia|]. exact Hsi.
        + destruct (Z.eq_dec j i) as [->|Hji].
          * unfold tr at 2. rewrite Z.eqb_refl.
            unfold tr. destruct (Z.eqb_spec (par i) i); [lia|].
            destruct (Z.eqb_spec (par i) s); [lia|].
            apply D2; [lia|lia|exact Hps].
          * assert (Ej : tr s i j = j).
            { unfold tr. destruct (Z.eqb_spec j i); [congruence|].
              destruct (Z.eqb_spec j s); [congruence|]. reflexivity. }
            rewrite Ej. unfold tr.
            destruct (Z.eqb_spec (par j) i) as [Epi|Epi].
            -- apply Hsc; assumption.
            -- destruct (Z.eqb_spec (par j) s); [contradiction|].
               apply D1; assumption.
      - intros Hs1 c Hc Hpc. rewrite !S6. rewrite Hps.
        pose proof (par_lt c ltac:(lia)).
        unfold tr. rewrite Z.eqb_refl.
        destruct (Z.eqb_spec c i); [lia|]. destruct (Z.eqb_spec c s); [lia|].
        rewrite <- Hpc. apply D1; [assumption|lia]. }
    assert (R : heap_res n idx1 sc1 idx' sc').
    { apply (IH idx1 sc1 s); auto; try lia. }
    destruct R as [R1 R2 R3 R4 R5 R6]. constructor; auto; try congruence.
    intros x. rewrite R6. apply S5.
Qed.

End Entries.

(** * The selection of [unilm_prune_mdl] *)

Definition plen (l : list unilm_piece_t) : Z := Z.of_nat (length l).

Lemma pupd_nat_length l n v : length (pupd_nat l n v) = length l.
Proof. revert n. induction l as [|h t IH]; intros [|n]; simpl; auto. Qed.

Lemma plen_pset l i v : plen (pset l i v) = plen l.
Proof. unfold plen, pset. destruct (i <? 0); [reflexivity|]. now rewrite pupd_nat_length. Qed.

Lemma nth_pupd_nat_same l n v : (n < length l)%nat -> nth n (pupd_nat l n v) piece0 = v.
Proof. revert n. induction l as [|h t IH]; intros [|n] H; simpl in *; try lia; auto. apply IH. lia. Qed.

Lemma nth_pupd_nat_other l n k v : n <> k -> nth k (pupd_nat l n v) piece0 = nth k l piece0.
Proof.
  revert n k. induction l as [|h t IH]; intros [|n] [|k] H; simpl; auto; try congruence.
Qed.

Lemma pget_pset_same l i v : 0 <= i < plen l -> pget (pset l i v) i = v.
Proof.
  unfold pget, pset, plen. intros H. destruct (Z.ltb_spec i 0); [lia|].
  apply nth_pupd_nat_same. lia.
Qed.

Lemma pget_pset_other l i j v : i <> j -> pget (pset l i v) j = pget l j.
Proof.
  unfold pget, pset. intros H. destruct (Z.ltb_spec j 0); [reflexivity|].
  destruct (Z.ltb_spec i 0); [reflexivity|]. apply nth_pupd_nat_other. lia.
Qed.

Lemma fget_fset_same l i v : 0 <= i < flen l -> fget (fset l i v) i = v.
Proof.
  intros H. rewrite fget_fset, Z.eqb_refl.
  destruct (Z.leb_spec 0 i); [|lia]. destruct (Z.ltb_spec i (flen l)); [|lia]. reflexivity.
Qed.

Lemma fget_fset_other l i j v : i <> j -> fget (fset l i v) j = fget l j.
Proof.
  intros H. rewrite fget_fset. destruct (Z.eqb_spec i j); [contradiction|]. reflexivity.
Qed.

Lemma filter_range_snoc (g : Z -> bool) (t : Z) :
  0 <= t ->
  filter g (range 0 (t + 1)) = filter g (range 0 t) ++ (if g t then [t] else []).
Proof.
  intros H. rewrite range_snoc by assumption. rewrite filter_app. cbn [filter].
  destruct (g t); reflexivity.
Qed.

Lemma in_filter_range (g : Z -> bool) (n i : Z) :
  In i (filter g (range 0 n)) <-> 0 <= i < n /\ g i = true.
Proof. rewrite filter_In, in_range. tauto. Qed.

Lemma NoDup_range lo hi : NoDup (range lo hi).
Proof. apply NoDup_zseq. Qed.

Lemma img_dec idx n x : img idx n x \/ ~ img idx n x.
Proof.
  destruct (existsb (fun j => zget idx j =? x) (range 0 n)) eqn:E.
  - left. apply existsb_exists in E. destruct E as (j & Hj & Ej).
    apply in_range in Hj. apply Z.eqb_eq in Ej. exists j. auto.
  - right. intros (j & Hj & Ej).
    assert (H : existsb (fun j => zget idx j =? x) (range 0 n) = true).
    { apply existsb_exists. exists j. split; [apply in_range; assumption|].
      apply Z.eqb_eq. assumption. }
    congruence.
Qed.

Section Marks.

Variables (m : unilm_model_t) (keep0 : list Z).
Let V := vocab_size m.
Hypothesis HV : 0 <= V <= zlen keep0.

Definition marks : list Z * Z :=
  fold_left (fun '(kp, mandatory) i =>
               if unilm_piece_is_mandatory m i
               then (zset kp i 1, mandatory + 1)
               else (kp, mandatory))
            (range 0 V)
            (fold_left (fun kp i => zset kp i 0) (range 0 V) keep0, 0).

Lemma memset_spec :
  let kp := fold_left (fun kp i => zset kp i 0) (range 0 V) keep0 in
  zlen kp = zlen keep0 /\ forall i, 0 <= i < V -> zget kp i = 0.
Proof.
  cbv zeta.
  apply (fold_range_ind (fun t kp => zlen kp = zlen keep0 /\
                                     forall i, 0 <= i < t -> zget kp i = 0)).
  - lia.
  - split; [reflexivity|]. intros; lia.
  - intros t kp Ht (L & Z0). split; [rewrite zlen_zset; exact L|].
    intros i Hi. destruct (Z.eq_dec i t) as [->|Hne].
    + apply zget_zset_same. lia.
    + rewrite zget_zset_other by congruence. apply Z0. lia.
Qed.

Lemma marks_spec :
  zlen (fst marks) = zlen keep0 /\
  (forall i, 0 <= i < V ->
     zget (fst marks) i = if unilm_piece_is_mandatory m i then 1 else 0) /\
  snd marks = zlen (filter (unilm_piece_is_mandatory m) (range 0 V)).
Proof.
  unfold marks. destruct memset_spec as (L0 & Z0).
  set (kpA := fold_left (fun kp i => zset kp i 0) (range 0 V) keep0) in *.
  pose (Q := fun t (st : list Z * Z) =>
              zlen (fst st) = zlen keep0 /\
              (forall i, 0 <= i < V ->
                 zget (fst st) i =
                 if (i <? t) && unilm_piece_is_mandatory m i then 1 else 0) /\
              snd st = zlen (filter (unilm_piece_is_mandatory m) (range 0 t))).
  assert (R : Q V
           (fold_left (fun '(kp, mandatory) i =>
              if unilm_piece_is_mandatory m i
              then (zset kp i 1, mandatory + 1)
              else (kp, mandatory)) (range 0 V) (kpA, 0))).
  { apply (fold_range_ind Q); unfold Q.
    - lia.
    - cbn [fst snd]. split; [exact L0|]. split; [|reflexivity].
      intros i Hi. destruct (Z.ltb_spec i 0); [lia|]. cbn [andb]. apply Z0. exact Hi.
    - intros t (kp, mand) Ht (R1 & R2 & R3). cbn [fst snd] in *.
      rewrite filter_range_snoc by lia. rewrite zlen_app.
      destruct (unilm_piece_is_mandatory m t) eqn:E; cbn [fst snd].
      + split; [rewrite zlen_zset; exact R1|]. split; [|rewrite R3; reflexivity].
        intros i Hi. destruct (Z.eq_dec i t) as [->|Hne].
        * rewrite zget_zset_same by lia. destruct (Z.ltb_spec t (t + 1)); [|lia].
          rewrite E. reflexivity.
        * rewrite zget_zset_other by congruence. rewrite (R2 i Hi).
          destruct (Z.ltb_spec i t); destruct (Z.ltb_spec i (t + 1)); try lia; reflexivity.
      + split; [exact R1|]. split; [|rewrite R3; cbn; lia].
        intros i Hi. rewrite (R2 i Hi).
        destruct (Z.eq_dec i t) as [->|Hne].
        * rewrite E, !andb_false_r. reflexivity.
        * destruct (Z.ltb_spec i t); destruct (Z.ltb_spec i (t + 1)); try lia; reflexivity. }
  unfold Q in R. destruct R as (R1 & R2 & R3). split; [exact R1|]. split; [|exact R3].
  intros i Hi. rewrite (R2 i Hi). destruct (Z.ltb_spec i V); [|lia]. reflexivity.
Qed.

End Marks.

Section Score.

Variables (m : unilm_model_t) (cfg : unilm_train_config_t) (counts : list float).
Variables (kp0 hidx : list Z) (hscore : list float).
Let V := vocab_size m.
Let score := prune_score m cfg counts.
Let cand := prune_candidate m.
Let mand := unilm_piece_is_mandatory m.

Hypothesis Hkp0 : forall i, 0 <= i < V -> zget kp0 i = if mand i then 1 else 0.
Hypothesis HVk : 0 <= V <= zlen kp0.

Definition step_scored (want_size_limit : bool) (K : Z) (st : prune_state) (i : Z)
  : prune_state :=
  if negb want_size_limit then
    if PrimFloat.ltb 0%float (score i)
    then {| ps_keep := zset (ps_keep st) i 1; ps_idx := ps_idx st;
            ps_score := ps_score st; ps_n := ps_n st |}
    else st
  else if K =? 0 then st
  else if ps_n st <? K then
    let (idx, sc) := heap_sift_up (zset (ps_idx st) (ps_n st) i)
                                  (fset (ps_score st) (ps_n st) (score i)) (ps_n st) in
    {| ps_keep := ps_keep st; ps_idx := idx; ps_score := sc; ps_n := ps_n st + 1 |}
  else if PrimFloat.ltb (fget (ps_score st) 0) (score i) then
    let (idx, sc) := heap_sift_down (zset (ps_idx st) 0 i)
                                    (fset (ps_score st) 0 (score i)) (ps_n st) 0 in
    {| ps_keep := ps_keep st; ps_idx := idx; ps_score := sc; ps_n := ps_n st |}
  else st.

Lemma step_noncand want K st i :
  zget (ps_keep st) i = (if mand i then 1 else 0) -> cand i = false ->
  prune_step m cfg counts want K st i = st.
Proof.
  intros Hk Hc. unfold prune_step. rewrite Hk.
  unfold cand, prune_candidate in Hc. fold (mand i) in Hc.
  destruct (mand i); [reflexivity|]. cbn [Z.eqb negb andb] in *.
  destruct (PrimFloat.is_finite (unilm_piece_char_cost m i)); [|reflexivity].
  cbn [andb] in Hc. rewrite Hc. reflexivity.
Qed.

Lemma step_cand want K st i :
  zget (ps_keep st) i = (if mand i then 1 else 0) -> cand i = true ->
  prune_step m cfg counts want K st i = step_scored want K st i.
Proof.
  intros Hk Hc. unfold prune_step. rewrite Hk.
  unfold cand, prune_candidate in Hc. fold (mand i) in Hc.
  apply andb_true_iff in Hc. destruct Hc as (Hc & F2).
  apply andb_true_iff in Hc. destruct Hc as (Hm & F1).
  apply negb_true_iff in Hm. rewrite Hm. cbn [Z.eqb negb].
  rewrite F1, F2. cbn [negb orb]. reflexivity.
Qed.

(** Without a size limit: the pieces with a positive score. *)
Definition NInv (t : Z) (st : prune_state) : Prop :=
  ps_idx st = hidx /\ ps_score st = hscore /\ ps_n st = 0 /\
  zlen (ps_keep st) = zlen kp0 /\
  forall i, 0 <= i < V ->
    zget (ps_keep st) i =
    if mand i || ((i <? t) && cand i && PrimFloat.ltb 0%float (score i)) then 1 else 0.

Lemma score_loop_nolimit K :
  NInv V (fold_left (prune_step m cfg counts false K) (range 0 V)
                    {| ps_keep := kp0; ps_idx := hidx; ps_score := hscore; ps_n := 0 |}).
Proof.
  apply (fold_range_ind NInv); [lia| |].
  - unfold NInv. cbn. repeat split; try reflexivity.
    intros i Hi. rewrite (Hkp0 i Hi). destruct (Z.ltb_spec i 0); [lia|].
    cbn [andb]. rewrite orb_false_r. reflexivity.
  - intros t st Ht (I1 & I2 & I3 & I4 & I5).
    assert (Hk : zget (ps_keep st) t = if mand t then 1 else 0).
    { rewrite (I5 t Ht). rewrite Z.ltb_irrefl. cbn [andb]. rewrite orb_false_r. reflexivity. }
    assert (Hkeep : forall st', ps_idx st' = hidx -> ps_score st' = hscore -> ps_n st' = 0 ->
              zlen (ps_keep st') = zlen kp0 ->
              (forall i, 0 <= i < V -> i <> t -> zget (ps_keep st') i = zget (ps_keep st) i) ->
              zget (ps_keep st') t =
              (if mand t || (cand t && PrimFloat.ltb 0%float (score t)) then 1 else 0) ->
              NInv (t + 1) st').
    { intros st' J1 J2 J3 J4 J5 J6. repeat split; auto.
      intros i Hi. destruct (Z.eq_dec i t) as [->|Hne].
      - rewrite J6. destruct (Z.ltb_spec t (t + 1)); [|lia]. reflexivity.
      - rewrite (J5 i Hi Hne), (I5 i Hi).
        destruct (Z.ltb_spec i t); destruct (Z.ltb_spec i (t + 1)); try lia; reflexivity. }
    destruct (cand t) eqn:Ec.
    + rewrite step_cand by assumption. unfold step_scored. cbn [negb].
      assert (Hm : mand t = false).
      { unfold cand, prune_candidate in Ec. fold (mand t) in Ec.
        destruct (mand t); [discriminate|reflexivity]. }
      destruct (PrimFloat.ltb 0%float (score t)) eqn:El.
      * apply Hkeep; cbn [ps_keep ps_idx ps_score ps_n]; auto.
        -- rewrite zlen_zset. exact I4.
        -- intros i Hi Hne. apply zget_zset_other. congruence.
        -- rewrite zget_zset_same by lia. rewrite Hm. reflexivity.
      * apply Hkeep; auto. rewrite Hk, Hm. reflexivity.
    + rewrite step_noncand by assumption. apply Hkeep; auto.
      rewrite Hk. cbn [andb]. rewrite orb_false_r. reflexivity.
Qed.

(** With a size limit: the heap holds the best candidates seen. *)
Variable K : Z.
Hypothesis HK : 0 <= K <= zlen hidx.
Hypothesis Hfl : flen hscore = zlen hidx.
Hypothesis Hnonan : forall i, 0 <= i < V -> cand i = true -> PrimFloat.is_nan (score i) = false.

Record TInv (t : Z) (st : prune_state) : Prop := {
  ti_keep : ps_keep st = kp0;
  ti_n : ps_n st = Z.min K (zlen (filter cand (range 0 t)));
  ti_zlen : zlen (ps_idx st) = zlen hidx;
  ti_flen : flen (ps_score st) = zlen hidx;
  ti_nonan : nonan (ps_score st) (ps_n st);
  ti_good : good score (ps_idx st) (ps_score st) (ps_n st);
  ti_heap : is_heap (ps_score st) (ps_n st);
  ti_img : forall x, img (ps_idx st) (ps_n st) x -> 0 <= x < t /\ cand x = true;
  ti_all : ps_n st < K -> forall y, 0 <= y < t -> cand y = true ->
           img (ps_idx st) (ps_n st) y;
  ti_drop : forall y, 0 <= y < t -> cand y = true -> ~ img (ps_idx st) (ps_n st) y ->
            forall x, img (ps_idx st) (ps_n st) x ->
                      PrimFloat.leb (score y) (score x) = true
}.

Lemma TInv_init :
  TInv 0 {| ps_keep := kp0; ps_idx := hidx; ps_score := hscore; ps_n := 0 |}.
Proof.
  constructor; cbn [ps_keep ps_idx ps_score ps_n]; auto.
  - cbn. lia.
  - intros j Hj. lia.
  - split; intros; lia.
  - intros j Hj. lia.
  - intros x (j & Hj & _). lia.
  - intros _ y Hy. lia.
  - intros y Hy. lia.
Qed.

Lemma TInv_skip t st :
  0 <= t -> cand t = false -> TInv t st -> TInv (t + 1) st.
Proof.
  intros Ht Hc [I1 I2 I3 I4 I5 I6 I7 I8 I9 I10]. constructor; auto.
  - rewrite filter_range_snoc by assumption. rewrite Hc, app_nil_r. exact I2.
  - intros x Hx. destruct (I8 x Hx). split; [lia|assumption].
  - intros Hn y Hy Hcy. apply I9; auto.
    assert (y <> t) by congruence. lia.
  - intros y Hy Hcy. apply I10; auto.
    assert (y <> t) by congruence. lia.
Qed.

Lemma TInv_step t st :
  0 <= t < V -> TInv t st ->
  TInv (t + 1) (prune_step m cfg counts true K st t).
Proof.
  intros Ht I. pose proof I as [I1 I2 I3 I4 I5 I6 I7 I8 I9 I10].
  assert (Hk : zget (ps_keep st) t = if mand t then 1 else 0).
  { rewrite I1. apply Hkp0. exact Ht. }
  destruct (cand t) eqn:Ec.
  2:{ rewrite step_noncand by assumption. apply TInv_skip; [lia|assumption|assumption]. }
  rewrite step_cand by assumption. unfold step_scored. cbn [negb].
  pose proof (Hnonan t Ht Ec) as Hst.
  assert (Hcount : zlen (filter cand (range 0 (t + 1))) = zlen (filter cand (range 0 t)) + 1).
  { rewrite filter_range_snoc by lia. rewrite Ec, zlen_app. reflexivity. }
  pose proof (zlen_nonneg (filter cand (range 0 t))) as Hc0.
  assert (Hfresh : ~ img (ps_idx st) (ps_n st) t).
  { intros Hx. apply I8 in Hx. lia. }
  destruct (Z.eqb_spec K 0) as [HK0|HK0].
  { (* nothing to select *)
    constructor; auto.
    - rewrite I2, HK0. lia.
    - intros x (j & Hj & _). lia.
    - intros Hn. lia.
    - intros y Hy Hcy Hny x (j & Hj & _). lia. }
  set (n := ps_n st) in *.
  assert (Hn0 : 0 <= n <= K) by lia.
  destruct (Z.ltb_spec n K) as [Hlt|Hge].
  - (* the heap grows *)
    set (idx1 := zset (ps_idx st) n t).
    set (sc1 := fset (ps_score st) n (score t)).
    destruct (heap_sift_up idx1 sc1 n) as (idx', sc') eqn:Es.
    assert (G1 : good score idx1 sc1 (n + 1)).
    { destruct I6 as (G & Ginj). split.
      - intros j Hj. unfold idx1, sc1. destruct (Z.eq_dec j n) as [->|Hne].
        + rewrite zget_zset_same, fget_fset_same by lia. reflexivity.
        + rewrite zget_zset_other, fget_fset_other by congruence. apply G. lia.
      - intros j j' Hj Hj' E. unfold idx1 in E.
        destruct (Z.eq_dec j n) as [->|Hne]; destruct (Z.eq_dec j' n) as [->|Hne'];
          try reflexivity.
        + rewrite zget_zset_same, zget_zset_other in E by (try congruence; lia).
          exfalso. apply Hfresh. exists j'. split; [lia|congruence].
        + rewrite zget_zset_same, zget_zset_other in E by (try congruence; lia).
          exfalso. apply Hfresh. exists j. split; [lia|congruence].
        + rewrite !zget_zset_other in E by congruence. apply Ginj; auto; lia. }
    assert (N1 : nonan sc1 (n + 1)).
    { intros j Hj. unfold sc1. destruct (Z.eq_dec j n) as [->|Hne].
      - rewrite fget_fset_same by lia. exact Hst.
      - rewrite fget_fset_other by congruence. apply I5. lia. }
    assert (U1 : heap_up sc1 (n + 1) n).
    { split.
      - intros j Hj Hne. pose proof (par_lt j ltac:(lia)).
        unfold sc1. rewrite !fget_fset_other by lia. apply I7. lia.
      - intros Hn1 c Hc Hpc. pose proof (par_lt c ltac:(lia)). lia. }
    assert (Im1 : forall x, img idx1 (n + 1) x <-> img (ps_idx st) n x \/ x = t).
    { intros x. unfold idx1. split.
      - intros (j & Hj & E). destruct (Z.eq_dec j n) as [->|Hne].
        + rewrite zget_zset_same in E by lia. auto.
        + rewrite zget_zset_other in E by congruence. left. exists j. split; [lia|exact E].
      - intros [(j & Hj & E)| ->].
        + exists j. split; [lia|]. rewrite zget_zset_other by lia. exact E.
        + exists n. split; [lia|]. apply zget_zset_same. lia. }
    pose proof (sift_up_spec score (n + 1) (Z.to_nat n) idx1 sc1 n idx' sc'
                  ltac:(lia) ltac:(lia)
                  ltac:(unfold idx1; rewrite zlen_zset; lia)
                  ltac:(unfold sc1; rewrite flen_fset; lia) N1 G1 U1 Es)
      as [R1 R2 R3 R4 R5 R6].
    constructor; cbn [ps_keep ps_idx ps_score ps_n]; auto.
    + rewrite Hcount. lia.
    + rewrite R1. unfold idx1. rewrite zlen_zset. exact I3.
    + rewrite R2. unfold sc1. rewrite flen_fset. exact I4.
    + intros x Hx. apply R6, Im1 in Hx. destruct Hx as [Hx| ->].
      * destruct (I8 x Hx). split; [lia|assumption].
      * split; [lia|assumption].
    + intros _ y Hy Hcy. apply R6, Im1.
      destruct (Z.eq_dec y t) as [->|Hne]; [right; reflexivity|left].
      apply I9; auto. lia.
    + intros y Hy Hcy Hny x Hx. exfalso. apply Hny. apply R6, Im1.
      destruct (Z.eq_dec y t) as [->|Hne]; [right; reflexivity|left].
      apply I9; auto. lia.
  - (* the heap is full *)
    assert (HnK : n = K) by lia.
    assert (Hroot : forall x, img (ps_idx st) n x ->
              PrimFloat.leb (fget (ps_score st) 0) (score x) = true).
    { intros x (j & Hj & E). destruct I6 as (G & _). rewrite <- E, <- (G j Hj).
      apply (root_min (ps_score st) n); assumption. }
    assert (Hr0 : PrimFloat.is_nan (fget (ps_score st) 0) = false) by (apply I5; lia).
    destruct (PrimFloat.ltb (fget (ps_score st) 0) (score t)) eqn:Elt.
    + (* the new piece replaces the root *)
      set (idx1 := zset (ps_idx st) 0 t).
      set (sc1 := fset (ps_score st) 0 (score t)).
      destruct (heap_sift_down idx1 sc1 n 0) as (idx', sc') eqn:Es.
      set (r := zget (ps_idx st) 0).
      assert (Hr : fget (ps_score st) 0 = score r).
      { destruct I6 as (G & _). apply G. lia. }
      assert (G1 : good score idx1 sc1 n).
      { destruct I6 as (G & Ginj). split.
        - intros j Hj. unfold idx1, sc1. destruct (Z.eq_dec j 0) as [->|Hne].
          + rewrite zget_zset_same, fget_fset_same by lia. reflexivity.
          + rewrite zget_zset_other, fget_fset_other by congruence. apply G. lia.
        - intros j j' Hj Hj' E. unfold idx1 in E.
          destruct (Z.eq_dec j 0) as [->|Hne]; destruct (Z.eq_dec j' 0) as [->|Hne'];
            try reflexivity.
          + rewrite zget_zset_same, zget_zset_other in E by (try congruence; lia).
            exfalso. apply Hfresh. exists j'. split; [lia|congruence].
          + rewrite zget_zset_same, zget_zset_other in E by (try congruence; lia).
            exfalso. apply Hfresh. exists j. split; [lia|congruence].
          + rewrite !zget_zset_other in E by congruence. apply Ginj; auto; lia. }
      assert (N1 : nonan sc1 n).
      { intros j Hj. unfold sc1. destruct (Z.eq_dec j 0) as [->|Hne].
        - rewrite fget_fset_same by lia. exact Hst.
        - rewrite fget_fset_other by congruence. apply I5. lia. }
      assert (D1 : heap_down sc1 n 0).
      { split.
        - intros j Hj Hne. pose proof (par_lt j ltac:(lia)).
          unfold sc1. rewrite !fget_fset_other by lia. apply I7. lia.
        - intros Hn1. lia. }
      assert (Im1 : forall x, img idx1 n x <-> (img (ps_idx st) n x /\ x <> r) \/ x = t).
      { intros x. unfold idx1. split.
        - intros (j & Hj & E). destruct (Z.eq_dec j 0) as [->|Hne].
          + rewrite zget_zset_same in E by lia. auto.
          + rewrite zget_zset_other in E by congruence. left. split.
            * exists j. split; [lia|exact E].
            * intros Ex. destruct I6 as (_ & Ginj).
              apply Hne. apply Ginj; [lia|lia|]. rewrite E, Ex. reflexivity.
        - intros [((j & Hj & E) & Hxr)| ->].
          + exists j. split; [lia|]. rewrite zget_zset_other; [exact E|].
            intros E0. subst j. apply Hxr. symmetry. exact E.
          + exists 0. split; [lia|]. apply zget_zset_same. lia. }
      pose proof (sift_down_spec score n (Z.to_nat n) idx1 sc1 0 idx' sc'
                    ltac:(lia) ltac:(lia)
                    ltac:(unfold idx1; rewrite zlen_zset; lia)
                    ltac:(unfold sc1; rewrite flen_fset; lia) N1 G1 D1 Es)
        as [R1 R2 R3 R4 R5 R6].
      assert (Hrt : PrimFloat.leb (score r) (score t) = true).
      { rewrite <- Hr. apply leb_of_ltb. exact Elt. }
      constructor; cbn [ps_keep ps_idx ps_score ps_n]; auto.
      * rewrite Hcount. lia.
      * rewrite R1. unfold idx1. rewrite zlen_zset. exact I3.
      * rewrite R2. unfold sc1. rewrite flen_fset. exact I4.
      * intros x Hx. apply R6, Im1 in Hx. destruct Hx as [(Hx & _)| ->].
        -- destruct (I8 x Hx). split; [lia|assumption].
        -- split; [lia|assumption].
      * intros Hn. lia.
      * intros y Hy Hcy Hny x Hx. apply R6, Im1 in Hx.
        assert (Hyt : y <> t).
        { intros ->. apply Hny. apply R6, Im1. right. reflexivity. }
        assert (Hyr : PrimFloat.leb (score y) (score r) = true \/
                      (img (ps_idx st) n y /\ y <> r)).
        { destruct (img_dec (ps_idx st) n y) as [Hin|Hout].
          - destruct (Z.eq_dec y r) as [->|Hne].
            + left. apply leb_refl. rewrite <- Hr. exact Hr0.
            + right. auto.
          - left. apply (I10 y ltac:(lia) Hcy Hout r). exists 0. split; [lia|reflexivity]. }
        destruct Hyr as [Hyr|Hyin]; [|exfalso; apply Hny; apply R6, Im1; left; exact Hyin].
        destruct Hx as [(Hx & _)| ->].
        -- apply (leb_trans _ (score r)); [exact Hyr|]. rewrite <- Hr. apply Hroot. exact Hx.
        -- apply (leb_trans _ (score r)); assumption.
    + (* the new piece is dropped *)
      assert (Htr : PrimFloat.leb (score t) (fget (ps_score st) 0) = true).
      { apply leb_of_not_ltb; assumption. }
      constructor; auto.
      * rewrite Hcount. fold n. lia.
      * intros x Hx. destruct (I8 x Hx). split; [lia|assumption].
      * fold n. intros Hn. lia.
      * intros y Hy Hcy Hny x Hx. destruct (Z.eq_dec y t) as [->|Hne].
        -- apply (leb_trans _ (fget (ps_score st) 0)); [exact Htr|]. apply Hroot. exact Hx.
        -- apply (I10 y ltac:(lia) Hcy Hny x Hx).
Qed.

Lemma score_loop_limit :
  TInv V (fold_left (prune_step m cfg counts true K) (range 0 V)
                    {| ps_keep := kp0; ps_idx := hidx; ps_score := hscore; ps_n := 0 |}).
Proof.
  apply (fold_range_ind TInv); [lia|apply TInv_init|].
  intros t st Ht I. apply TInv_step; assumption.
Qed.

End Score.

(** The heap's pieces are marked in [keep]. *)
Lemma heap_marks (kp idx : list Z) (n : Z) :
  0 <= n ->
  let kpF := fold_left (fun kp j => zset kp (zget idx j) 1) (range 0 n) kp in
  zlen kpF = zlen kp /\
  forall i, 0 <= i < zlen kp -> (zget kpF i <> 0 <-> zget kp i <> 0 \/ img idx n i).
Proof.
  intros Hn. cbv zeta.
  pose (Q := fun t (k : list Z) =>
               zlen k = zlen kp /\
               forall i, 0 <= i < zlen kp -> (zget k i <> 0 <-> zget kp i <> 0 \/ img idx t i)).
  apply (fold_range_ind Q); unfold Q; [assumption| |].
  - split; [reflexivity|]. intros i Hi. split; [auto|].
    intros [H|(j & Hj & _)]; [assumption|lia].
  - intros t k Ht (L & I). split; [rewrite zlen_zset; exact L|].
    intros i Hi. destruct (Z.eq_dec (zget idx t) i) as [E|E].
    + rewrite E, zget_zset_same by lia. split; [|discriminate].
      intros _. right. exists t. split; [lia|exact E].
    + rewrite zget_zset_other by assumption. rewrite (I i Hi). split.
      * intros [H|(j & Hj & Ej)]; [auto|]. right. exists j. split; [lia|exact Ej].
      * intros [H|(j & Hj & Ej)]; [auto|]. right. exists j. split; [|exact Ej].
        assert (j <> t) by congruence. lia.
Qed.

Lemma NoDup_map_in {A B} (f : A -> B) (l : list A) :
  (forall a b, In a l -> In b l -> f a = f b -> a = b) -> NoDup l -> NoDup (map f l).
Proof.
  induction l as [|a l IH]; intros Hinj Hnd; cbn [map]; [constructor|].
  inversion Hnd as [|? ? Hna Hnd']; subst. constructor.
  - intros Hin. apply in_map_iff in Hin. destruct Hin as (b & Eb & Hb).
    apply Hna. rewrite (Hinj a b); [assumption|left; reflexivity|right; assumption|congruence].
  - apply IH; [|assumption]. intros x y Hx Hy. apply Hinj; right; assumption.
Qed.

Lemma zlen_range n : 0 <= n -> zlen (range 0 n) = n.
Proof. intros H. unfold zlen, range. rewrite zseq_length. lia. Qed.

Lemma count_img (idx l : list Z) (n : Z) :
  0 <= n ->
  (forall j j', 0 <= j < n -> 0 <= j' < n -> zget idx j = zget idx j' -> j = j') ->
  NoDup l -> (forall x, In x l <-> img idx n x) -> zlen l = n.
Proof.
  intros Hn Hinj Hnd Hin.
  assert (P : Permutation l (map (zget idx) (range 0 n))).
  { apply NoDup_Permutation; [assumption| |].
    - apply NoDup_map_in; [|apply NoDup_range].
      intros a b Ha Hb. apply in_range in Ha, Hb. apply Hinj; assumption.
    - intros x. rewrite Hin, in_map_iff. split.
      + intros (j & Hj & E). exists j. split; [exact E|apply in_range; exact Hj].
      + intros (j & E & Hj). apply in_range in Hj. exists j. auto. }
  apply Permutation_length in P. rewrite length_map in P.
  unfold zlen. rewrite P. fold (zlen (range 0 n)). apply zlen_range. assumption.
Qed.

Lemma zlen_filter_le (g : Z -> bool) (l : list Z) : zlen (filter g l) <= zlen l.
Proof.
  unfold zlen. induction l as [|a l IH]; cbn [filter]; [lia|].
  destruct (g a); cbn [length]; lia.
Qed.

Section Compact.

Variables (kp : list Z) (ps0 : list unilm_piece_t) (lp0 : list float) (V : Z).
Hypothesis HV : 0 <= V <= plen ps0.
Let g := fun i => negb (zget kp i =? 0).

Lemma compact_spec :
  forall ps lp newV,
    fold_left (compact_step kp) (range 0 V) (ps0, lp0, 0) = (ps, lp, newV) ->
    newV = zlen (filter g (range 0 V)) /\
    forall r, 0 <= r < newV -> pget ps r = pget ps0 (zget (filter g (range 0 V)) r).
Proof.
  pose (Q := fun t (st : list unilm_piece_t * list float * Z) =>
               let '(ps, lp, nv) := st in
               nv = zlen (filter g (range 0 t)) /\ nv <= t /\ plen ps = plen ps0 /\
               (forall r, 0 <= r < nv ->
                          pget ps r = pget ps0 (zget (filter g (range 0 t)) r)) /\
               (forall j, t <= j -> pget ps j = pget ps0 j)).
  assert (R : Q V (fold_left (compact_step kp) (range 0 V) (ps0, lp0, 0))).
  { apply (fold_range_ind Q); unfold Q; [lia| |].
    - cbn. repeat split; auto; intros; lia.
    - intros t ((ps, lp), nv) Ht (Q1 & Q2 & Q3 & Q4 & Q5).
      unfold compact_step. fold (g t). rewrite filter_range_snoc by lia.
      pose proof (zlen_nonneg (filter g (range 0 t))) as Hnn.
      destruct (g t) eqn:Eg.
      + rewrite zlen_app. change (zlen [t]) with 1.
        assert (Hcommon : forall ps', plen ps' = plen ps0 ->
                  (forall r, 0 <= r < nv -> pget ps' r = pget ps r) ->
                  pget ps' nv = pget ps0 t ->
                  (forall j, t + 1 <= j -> pget ps' j = pget ps j) ->
                  nv + 1 = zlen (filter g (range 0 t)) + 1 /\ nv + 1 <= t + 1 /\
                  plen ps' = plen ps0 /\
                  (forall r, 0 <= r < nv + 1 ->
                     pget ps' r = pget ps0 (zget (filter g (range 0 t) ++ [t]) r)) /\
                  (forall j, t + 1 <= j -> pget ps' j = pget ps0 j)).
        { intros ps' L A B C. repeat split; try lia.
          - intros r Hr. destruct (Z.eq_dec r nv) as [->|Hne].
            + rewrite Q1 at 2. rewrite zget_snoc. exact B.
            + rewrite zget_app_l by lia. rewrite A by lia. apply Q4. lia.
          - intros j Hj. rewrite C by assumption. apply Q5. lia. }
        destruct (Z.eqb_spec nv t) as [E|E]; cbn [negb].
        * apply Hcommon; auto. rewrite E. apply Q5. lia.
        * apply Hcommon.
          -- rewrite plen_pset. exact Q3.
          -- intros r Hr. apply pget_pset_other. lia.
          -- rewrite pget_pset_same by lia. apply Q5. lia.
          -- intros j Hj. apply pget_pset_other. lia.
      + rewrite app_nil_r. repeat split; auto; try lia.
        intros j Hj. apply Q5. lia. }
  intros ps lp newV E. rewrite E in R. unfold Q in R.
  destruct R as (Q1 & _ & _ & Q4 & _). auto.
Qed.

End Compact.

Section Final.

Variable mem_limit : Z.
Variables c_exp c_log : float -> float.

Lemma normalize_keeps m p :
  pieces (snd (unilm_model_normalize c_exp c_log m p)) = pieces m /\
  vocab_size (snd (unilm_model_normalize c_exp c_log m p)) = vocab_size m.
Proof.
  unfold unilm_model_normalize. destruct (vocab_size m =? 0); [auto|].
  cbv zeta. destruct (negb (PrimFloat.ltb 0 _)); [auto|].
  destruct (negb (PrimFloat.ltb 0 _)); cbn; auto.
Qed.

Lemma rebuild_rc m (ids : list Z) : forall tr, fst (rebuild_loop mem_limit m ids tr) <= 0.
Proof.
  assert (E1 : UNILM_OK <= 0) by (unfold UNILM_OK; lia).
  assert (E2 : UNILM_ERR_INTERNAL <= 0) by (unfold UNILM_ERR_INTERNAL; lia).
  assert (E3 : UNILM_ERR_FULL <= 0) by (unfold UNILM_ERR_FULL; lia).
  induction ids as [|id ids IH]; intros tr; cbn [rebuild_loop]; [exact E1|].
  destruct (unilm_model_piece_bytes m id) as [(off, blen)|]; [|exact E2].
  destruct (blen =? 0); [exact E2|]. cbv zeta.
  destruct (DA.da_trie_add_bytes mem_limit tr _) as (rc1, tr1).
  destruct rc1 as [|?|?]; [|exact E3|exact E3].
  destruct (unilm_da_set_term_id tr1 _ id) as (rc2, tr2).
  destruct rc2 as [|?|?]; [apply IH|exact E2|exact E2].
Qed.

Lemma step_keep_limit m cfg counts K st i :
  ps_keep (prune_step m cfg counts true K st i) = ps_keep st.
Proof.
  unfold prune_step. destruct (negb (zget (ps_keep st) i =? 0)); [reflexivity|].
  cbv zeta. destruct (negb (PrimFloat.is_finite _) || _); [reflexivity|].
  cbn [negb]. destruct (K =? 0); [reflexivity|].
  destruct (ps_n st <? K).
  - destruct (heap_sift_up _ _ _). reflexivity.
  - destruct (PrimFloat.ltb _ _); [|reflexivity].
    destruct (heap_sift_down _ _ _ _). reflexivity.
Qed.

Lemma fold_left_keep_limit m cfg counts K (l : list Z) : forall st,
  ps_keep (fold_left (prune_step m cfg counts true K) l st) = ps_keep st.
Proof.
  induction l as [|i l IH]; intros st; cbn [fold_left]; [reflexivity|].
  rewrite IH. apply step_keep_limit.
Qed.

(** C4, as the code has it: a successful [unilm_prune_mdl] keeps the pieces
    [kept], in their order, among them every mandatory piece.  With no size
    limit and no positive MDL weight it keeps every piece.  With no size limit
    and a positive weight it keeps, of the other pieces, exactly the
    candidates (finite costs) whose score, computed with the count clamped
    at 0, is positive.  With a size limit it keeps min(K, number of
    candidates) other pieces, K = max(0, target - number of mandatory
    pieces), all of them candidates, and none of the candidates it drops
    scores higher than one it keeps, provided no candidate's score is NaN. *)
Theorem prune_keeps_best_candidates (m : unilm_model_t) (cfg : unilm_train_config_t)
        (wk : unilm_workspace_t) (counts : list float)
        (rc : Z) (m' : unilm_model_t) (wk' : unilm_workspace_t) :
  0 <= vocab_size m < 2 ^ 31 ->
  vocab_size m <= Z.of_nat (length (pieces m)) ->
  Z.of_nat (length (heap_score wk)) = heap_cap wk ->
  unilm_prune_mdl mem_limit c_exp c_log m cfg wk counts = (rc, m', wk') ->
  0 <= rc ->
  let V := vocab_size m in
  let mand := unilm_piece_is_mandatory m in
  let cand := prune_candidate m in
  let score := prune_score m cfg counts in
  exists g : Z -> bool,
    let kept := filter g (range 0 V) in
    rc = zlen kept /\ vocab_size m' = rc /\
    (forall r, 0 <= r < rc -> pget (pieces m') r = pget (pieces m) (zget kept r)) /\
    (forall i, 0 <= i < V -> mand i = true -> In i kept) /\
    (target_vocab_size cfg <= 0 ->
     PrimFloat.ltb 0%float (mdl_lambda0 cfg) = false ->
     PrimFloat.ltb 0%float (mdl_lambda_len cfg) = false ->
     kept = range 0 V) /\
    (target_vocab_size cfg <= 0 ->
     PrimFloat.ltb 0%float (mdl_lambda0 cfg)
     || PrimFloat.ltb 0%float (mdl_lambda_len cfg) = true ->
     forall i, 0 <= i < V -> mand i = false ->
       (In i kept <-> cand i = true /\ PrimFloat.ltb 0%float (score i) = true)) /\
    (0 < target_vocab_size cfg ->
     (forall i, 0 <= i < V -> cand i = true -> PrimFloat.is_nan (score i) = false) ->
     let K := Z.max 0 (target_vocab_size cfg - zlen (filter mand (range 0 V))) in
     K <= heap_cap wk /\
     zlen (filter (fun i => negb (mand i)) kept) = Z.min K (zlen (filter cand (range 0 V))) /\
     forall i, In i kept -> mand i = false ->
       cand i = true /\
       forall j, 0 <= j < V -> cand j = true -> ~ In j kept ->
                 PrimFloat.leb (score j) (score i) = true).
Proof.
  intros HV Hpl Hfl H Hrc V mand cand score.
  unfold unilm_prune_mdl in H.
  destruct (Z.eqb_spec (vocab_size m) 0) as [E0|E0];
    [inversion H; subst; unfold UNILM_ERR_BADARG in Hrc; lia|].
  destruct (Z.ltb_spec (keep_cap wk) (vocab_size m)) as [Hkc|Hkc];
    [inversion H; subst; unfold UNILM_ERR_RANGE in Hrc; lia|].
  assert (Hu : u32 (vocab_size m) = vocab_size m).
  { unfold u32, wrap_u. apply Z.mod_small. lia. }
  rewrite Hu in H. fold V in H, E0, Hkc, Hpl, HV.
  assert (HVk : 0 <= vocab_size m <= zlen (keep wk)) by (unfold keep_cap in Hkc; fold V; lia).
  pose proof (marks_spec m (keep wk) HVk) as (M1 & M2 & M3).
  unfold marks in M1, M2, M3. fold V in M1, M2, M3.
  destruct (fold_left _ (range 0 V) (fold_left _ (range 0 V) (keep wk), 0))
    as (kp0, mandn) eqn:Em.
  cbn [fst snd] in M1, M2, M3. fold mand in M2, M3.
  assert (Hi32 : forall x, 0 <= x <= V -> i32 x = x).
  { intros x Hx. apply i32_id. unfold in_i32. lia. }
  destruct (0 <? target_vocab_size cfg) eqn:Ewant.
  - (* a size limit *)
    apply Z.ltb_lt in Ewant. cbn [negb andb] in H.
    set (K := if target_vocab_size cfg <=? mandn then 0 else target_vocab_size cfg - mandn) in *.
    assert (HKmax : K = Z.max 0 (target_vocab_size cfg - zlen (filter mand (range 0 V)))).
    { unfold K. rewrite <- M3. destruct (Z.leb_spec (target_vocab_size cfg) mandn); lia. }
    destruct (Z.ltb_spec (heap_cap wk) K) as [Hhc|Hhc];
      [inversion H; subst; unfold UNILM_ERR_RANGE in Hrc; lia|].
    set (st := fold_left (prune_step m cfg counts true K) (range 0 V) _) in *.
    set (kpF := fold_left (fun kp j => zset kp (zget (ps_idx st) j) 1)
                          (range 0 (ps_n st)) (ps_keep st)) in *.
    destruct (fold_left (compact_step kpF) (range 0 V) (pieces m, logp m, 0))
      as ((ps, lp), newV) eqn:Ec.
    pose proof (compact_spec kpF (pieces m) (logp m) V ltac:(unfold plen; lia) ps lp newV Ec)
      as (C1 & C2).
    pose proof (zlen_filter_le (fun i => negb (zget kpF i =? 0)) (range 0 V)) as Hle.
    rewrite zlen_range in Hle by lia.
    pose proof (zlen_nonneg (filter (fun i => negb (zget kpF i =? 0)) (range 0 V))) as Hge.
    destruct (DA.da_trie_clear (trie m)) as (rcc, tr0).
    destruct rcc as [|?|?];
      [|inversion H; subst; unfold UNILM_ERR_INTERNAL in Hrc; lia
       |inversion H; subst; unfold UNILM_ERR_INTERNAL in Hrc; lia].
    match type of H with
    | context [rebuild_loop ?a ?b ?c ?d] =>
      pose proof (rebuild_rc b c d) as Hrb;
      destruct (rebuild_loop a b c d) as (rcr, tr1)
    end.
    cbn [fst] in Hrb.
    destruct rcr as [|?|?]; [|lia|inversion H; subst; lia].
    match type of H with
    | context [unilm_model_normalize ?a ?b ?c ?d] =>
      pose proof (normalize_keeps c d) as (N1 & N2)
    end.
    cbn [pieces vocab_size] in N1, N2.
    inversion H; subst rc m' wk'. clear H.
    exists (fun i => negb (zget kpF i =? 0)). cbv zeta.
    rewrite N1, N2, <- C1, (Hi32 newV) by lia.
    split; [reflexivity|]. split; [reflexivity|]. split; [exact C2|].
    (* the heap *)
    assert (HK0 : 0 <= K <= zlen (heap_idx wk)) by (unfold heap_cap in Hhc; lia).
    assert (Hkp0 : forall i, 0 <= i < vocab_size m ->
              zget kp0 i = if unilm_piece_is_mandatory m i then 1 else 0) by exact M2.
    assert (HVk0 : 0 <= vocab_size m <= zlen kp0) by (rewrite M1; exact HVk).
    assert (Hmarked : forall (T : TInv m cfg counts kp0 (heap_idx wk) K V st) i,
              0 <= i < V ->
              (negb (zget kpF i =? 0) = true <-> mand i = true \/ img (ps_idx st) (ps_n st) i)).
    { intros T i Hi. destruct T as [T1 T2 T3 T4 T5 T6 T7 T8 T9 T10].
      assert (Hn0 : 0 <= ps_n st).
      { rewrite T2. pose proof (zlen_nonneg (filter (prune_candidate m) (range 0 V))). lia. }
      destruct (heap_marks (ps_keep st) (ps_idx st) (ps_n st) Hn0) as (_ & Hm).
      fold kpF in Hm. rewrite T1 in Hm.
      rewrite negb_true_iff, Z.eqb_neq, (Hm i) by (fold V in HVk0; lia).
      rewrite (M2 i Hi). destruct (mand i).
      - split; intros _; left; [reflexivity|discriminate].
      - split; (intros [H|H]; [exfalso|right; exact H]); [apply H; reflexivity|discriminate]. }
    split.
    { intros i Hi Hm. apply in_filter_range. split; [assumption|].
      apply negb_true_iff, Z.eqb_neq.
      assert (Hn0 : 0 <= ps_n st \/ ps_n st < 0) by lia.
      destruct Hn0 as [Hn0|Hn0].
      - destruct (heap_marks (ps_keep st) (ps_idx st) (ps_n st) Hn0) as (_ & Hmk).
        fold kpF in Hmk.
        assert (Hks : ps_keep st = kp0).
        { unfold st. rewrite fold_left_keep_limit. reflexivity. }
        rewrite Hks in Hmk. apply Hmk; [fold V in HVk0; lia|].
        left. rewrite (M2 i Hi), Hm. discriminate.
      - unfold kpF. rewrite range_nil by lia. cbn [fold_left].
        assert (Hks : ps_keep st = kp0).
        { unfold st. rewrite fold_left_keep_limit. reflexivity. }
        rewrite Hks, (M2 i Hi), Hm. discriminate. }
    split; [intros; lia|]. split; [intros; lia|].
    intros _ Hnonan. fold K. rewrite <- HKmax.
    pose proof (score_loop_limit m cfg counts kp0 (heap_idx wk) (heap_score wk)
                  Hkp0 HVk0 K HK0 Hfl Hnonan) as T.
    fold V in T. fold st in T.
    pose proof (Hmarked T) as Hmk. destruct T as [T1 T2 T3 T4 T5 T6 T7 T8 T9 T10].
    split; [exact Hhc|]. split.
    + transitivity (ps_n st); [|exact T2]. apply (count_img (ps_idx st)).
      * rewrite T2. pose proof (zlen_nonneg (filter (prune_candidate m) (range 0 V))). lia.
      * apply T6.
      * apply NoDup_filter, NoDup_filter, NoDup_range.
      * intros x. rewrite filter_In, in_filter_range. split.
        -- intros ((Hx & Hg) & Hm). apply negb_true_iff in Hm.
           apply (Hmk x Hx) in Hg. destruct Hg as [Hg|Hg]; [congruence|exact Hg].
        -- intros Hx. destruct (T8 x Hx) as (Hr & Hc).
           assert (Hm : mand x = false).
           { unfold prune_candidate in Hc. fold (mand x) in Hc.
             destruct (mand x); [discriminate|reflexivity]. }
           split; [|rewrite Hm; reflexivity]. split; [assumption|].
           apply (Hmk x Hr). right. exact Hx.
    + intros i Hi Hm. apply in_filter_range in Hi. destruct Hi as (Hi & Hg).
      apply (Hmk i Hi) in Hg. destruct Hg as [Hg|Hg]; [congruence|].
      split; [apply (T8 i Hg)|].
      intros j Hj Hcj Hnj. apply (T10 j Hj Hcj); [|exact Hg].
      intros Hin. apply Hnj. apply in_filter_range. split; [assumption|].
      apply (Hmk j Hj). right. exact Hin.
  - (* no size limit *)
    apply Z.ltb_ge in Ewant. cbn [negb andb] in H.
    destruct (PrimFloat.ltb 0 (mdl_lambda0 cfg) || PrimFloat.ltb 0 (mdl_lambda_len cfg)) eqn:El;
      cbn [negb] in H.
    + set (st := fold_left (prune_step m cfg counts false 0) (range 0 V) _) in *.
      destruct (fold_left (compact_step (ps_keep st)) (range 0 V) (pieces m, logp m, 0))
        as ((ps, lp), newV) eqn:Ec.
      pose proof (compact_spec (ps_keep st) (pieces m) (logp m) V ltac:(unfold plen; lia)
                               ps lp newV Ec) as (C1 & C2).
      pose proof (zlen_filter_le (fun i => negb (zget (ps_keep st) i =? 0)) (range 0 V)) as Hle.
      rewrite zlen_range in Hle by lia.
      pose proof (zlen_nonneg (filter (fun i => negb (zget (ps_keep st) i =? 0)) (range 0 V)))
        as Hge.
      destruct (DA.da_trie_clear (trie m)) as (rcc, tr0).
      destruct rcc as [|?|?];
        [|inversion H; subst; unfold UNILM_ERR_INTERNAL in Hrc; lia
         |inversion H; subst; unfold UNILM_ERR_INTERNAL in Hrc; lia].
      match type of H with
      | context [rebuild_loop ?a ?b ?c ?d] =>
        pose proof (rebuild_rc b c d) as Hrb;
        destruct (rebuild_loop a b c d) as (rcr, tr1)
      end.
      cbn [fst] in Hrb.
      destruct rcr as [|?|?]; [|lia|inversion H; subst; lia].
      match type of H with
      | context [unilm_model_normalize ?a ?b ?c ?d] =>
        pose proof (normalize_keeps c d) as (N1 & N2)
      end.
      cbn [pieces vocab_size] in N1, N2.
      inversion H; subst rc m' wk'. clear H.
      exists (fun i => negb (zget (ps_keep st) i =? 0)). cbv zeta.
      rewrite N1, N2, <- C1, (Hi32 newV) by lia.
      split; [reflexivity|]. split; [reflexivity|]. split; [exact C2|].
      assert (HVk0 : 0 <= vocab_size m <= zlen kp0) by (rewrite M1; exact HVk).
      pose proof (score_loop_nolimit m cfg counts kp0 (heap_idx wk) (heap_score wk)
                    M2 HVk0 0) as (_ & _ & _ & _ & N5).
      fold V in N5. fold st in N5. fold mand in N5.
      split.
      { intros i Hi Hm. apply in_filter_range. split; [assumption|].
        rewrite (N5 i Hi), Hm. reflexivity. }
      split; [intros _ A B; rewrite A, B in El; discriminate|].
      split; [|intros; lia].
      intros _ _ i Hi Hm. rewrite in_filter_range, (N5 i Hi), Hm.
      destruct (Z.ltb_spec i V); [|lia]. cbn [orb andb].
      fold (cand i). fold (score i).
      destruct (cand i); destruct (PrimFloat.ltb 0 (score i)); cbn; intuition congruence.
    + (* nothing is pruned *)
      inversion H; subst rc m' wk'. clear H.
      exists (fun _ => true).
      assert (Hall : filter (fun _ : Z => true) (range 0 V) = range 0 V).
      { apply forallb_filter_id. apply forallb_forall. reflexivity. }
      cbv zeta. rewrite Hall, zlen_range, (Hi32 V) by lia.
      split; [reflexivity|]. split; [reflexivity|].
      split; [intros r Hr; rewrite zget_range by lia; reflexivity|].
      split; [intros i Hi _; apply in_range; assumption|].
      split; [reflexivity|].
      split; [intros _ A; discriminate|intros; lia].
Qed.

End Final.

(** The example: the pieces [a], [b], [ab] and [ba] with
    logp = -1, -1, -3, -1.5 and the counts 5, 5, 4, 4. *)
Definition ex_pieces : list unilm_piece_t :=
  [ {| str_off := 0; len := 1; len_cp := 1; flags := 0 |};
    {| str_off := 1; len := 1; len_cp := 1; flags := 0 |};
    {| str_off := 2; len := 2; len_cp := 2; flags := 0 |};
    {| str_off := 4; len := 2; len_cp := 2; flags := 0 |} ].

Definition ex_strbuf : list Z := [97; 98; 97; 98; 98; 97].

Definition ex_logp : list float := [(-1)%float; (-1)%float; (-3)%float; (-1.5)%float].

Definition ex_unilm_empty : unilm_model_t :=
  {| strbuf := ex_strbuf; pieces := ex_pieces; logp := ex_logp; vocab_size := 4;
     trie := snd (DA.da_trie_init_dynamic 4096 16) |}.

Definition ex_unilm : unilm_model_t :=
  {| strbuf := ex_strbuf; pieces := ex_pieces; logp := ex_logp; vocab_size := 4;
     trie := snd (rebuild_loop 4096 ex_unilm_empty [0; 1; 2; 3] (trie ex_unilm_empty)) |}.

Definition ex_prune_work : unilm_workspace_t :=
  {| keep := repeat 0 4; heap_idx := repeat 0 4; heap_score := repeat 0%float 4 |}.

Definition ex_counts : list float := [5%float; 5%float; 4%float; 4%float].

(** No size limit and no positive MDL weight. *)
Definition ex_cfg_off : unilm_train_config_t :=
  {| mdl_lambda0 := 0%float; mdl_lambda_len := 0%float; target_vocab_size := 0;
     min_prob := 0%float |}.

(** A size limit of three pieces. *)
Definition ex_cfg_top : unilm_train_config_t :=
  {| mdl_lambda0 := 0.5%float; mdl_lambda_len := 0.25%float; target_vocab_size := 3;
     min_prob := 0%float |}.

(** C4, the counterexample: without a size limit and with both MDL weights 0
    the call prunes nothing; the piece [ab] (id 2) is not mandatory, its
    score is -4, and it stays in the vocabulary. *)
Lemma prune_keeps_nonpositive_score :
  fst (fst (unilm_prune_mdl 4096 (fun x => x) (fun x => x)
                            ex_unilm ex_cfg_off ex_prune_work ex_counts)) = 4 /\
  pieces (snd (fst (unilm_prune_mdl 4096 (fun x => x) (fun x => x)
                                    ex_unilm ex_cfg_off ex_prune_work ex_counts)))
  = ex_pieces /\
  target_vocab_size ex_cfg_off = 0 /\
  unilm_piece_is_mandatory ex_unilm 2 = false /\
  prune_score ex_unilm ex_cfg_off ex_counts 2 = (-4)%float /\
  PrimFloat.ltb 0%float (prune_score ex_unilm ex_cfg_off ex_counts 2) = false.
Proof. vm_compute. repeat split; reflexivity. Qed.

Lemma prune_keeps_best_candidates_witness :
  fst (fst (unilm_prune_mdl 4096 (fun x => x) (fun x => x)
                            ex_unilm ex_cfg_top ex_prune_work ex_counts)) = 3 /\
  exists g : Z -> bool,
    zlen (filter g (range 0 4)) = 3 /\
    zlen (filter (fun i => negb (unilm_piece_is_mandatory ex_unilm i)) (filter g (range 0 4)))
    = 1.
Proof.
  remember (unilm_prune_mdl 4096 (fun x => x) (fun x => x)
                            ex_unilm ex_cfg_top ex_prune_work ex_counts) as r eqn:E.
  assert (Hrc : fst (fst r) = 3) by (rewrite E; vm_compute; reflexivity).
  split; [exact Hrc|].
  destruct r as ((rc, m'), wk'). cbn [fst] in Hrc. symmetry in E.
  destruct (prune_keeps_best_candidates 4096 (fun x => x) (fun x => x)
              ex_unilm ex_cfg_top ex_prune_work ex_counts rc m' wk')
    as (g & A & _ & _ & _ & _ & _ & T).
  - cbn. lia.
  - cbn. lia.
  - reflexivity.
  - exact E.
  - lia.
  - exists g. cbv zeta in A, T. change (vocab_size ex_unilm) with 4 in A, T.
    split; [lia|].
    destruct T as (_ & T & _).
    + cbn. lia.
    + intros i Hi Hc.
      assert (Hcases : i = 0 \/ i = 1 \/ i = 2 \/ i = 3) by lia.
      destruct Hcases as [->|[->|[->| ->]]]; vm_compute; reflexivity.
    + rewrite T. vm_compute. reflexivity.
Defined.

Import DA Npycrf TrieSpec TrieProofs Unilm.

(** * The vocabulary: [unilm_model_add_piece] and [unilm_model_find_id] *)

Lemma raw_walk_ro d (w : list Z) : forall cur,
  raw_walk d w cur = ro_walk (ro_view d) w cur.
Proof.
  induction w as [|c w IH]; intros cur; cbn [raw_walk ro_walk]; [reflexivity|].
  change (unilm_da_next_raw d cur c) with (da_next_ro_local (ro_view d) cur c).
  destruct (_ =? 0); [reflexivity|apply IH].
Qed.

Lemma memcpy_at_len dst off src : zlen (memcpy_at dst off src) = zlen dst.
Proof.
  unfold memcpy_at. generalize (range 0 (zlen src)). intros l. revert dst.
  induction l as [|i l IH]; intros dst; cbn [fold_left]; [reflexivity|].
  rewrite IH. apply zlen_zset.
Qed.

Lemma memcpy_at_get dst off src j :
  0 <= off -> off + zlen src <= zlen dst ->
  zget (memcpy_at dst off src) j =
  if (off <=? j) && (j <? off + zlen src) then zget src (j - off) else zget dst j.
Proof.
  intros Hoff Hfit. unfold memcpy_at.
  pose (Q := fun (t : Z) (d : list Z) =>
               zlen d = zlen dst /\
               zget d j = if (off <=? j) && (j <? off + t) then zget src (j - off)
                          else zget dst j).
  assert (G : Q (zlen src) (fold_left (fun d i => zset d (off + i) (zget src i))
                                      (range 0 (zlen src)) dst)).
  { apply (fold_range_ind Q); unfold Q.
    - unfold zlen. lia.
    - split; [reflexivity|].
      destruct (Z.leb_spec off j); destruct (Z.ltb_spec j (off + 0)); cbn; try reflexivity; lia.
    - intros t d Ht (L & E). split; [rewrite zlen_zset; exact L|].
      rewrite zget_zset, L, E.
      destruct (Z.eqb_spec (off + t) j) as [Ej|Ej];
        destruct (Z.leb_spec 0 (off + t)); destruct (Z.ltb_spec (off + t) (zlen dst));
        destruct (Z.leb_spec off j); destruct (Z.ltb_spec j (off + t));
        destruct (Z.ltb_spec j (off + (t + 1))); cbn; try reflexivity; try lia.
      f_equal. lia. }
  apply G.
Qed.

Lemma bytes_at_ext a b off n :
  (forall j, off <= j < off + n -> zget a j = zget b j) ->
  bytes_at a off n = bytes_at b off n.
Proof.
  intros H. unfold bytes_at. apply map_ext_in. intros j Hj. apply in_range in Hj. apply H. lia.
Qed.

Lemma map_zget_shift (k : list Z) : forall off,
  map (fun j => zget k (j - off)) (range off (off + zlen k)) = k.
Proof.
  induction k as [|c k IH]; intros off.
  - rewrite range_nil by (unfold zlen; simpl; lia). reflexivity.
  - rewrite range_cons by (unfold zlen; simpl; lia). cbn [map]. f_equal.
    + replace (off - off) with 0 by lia. reflexivity.
    + replace (off + zlen (c :: k)) with ((off + 1) + zlen k)
        by (unfold zlen; cbn [length]; lia).
      rewrite <- (IH (off + 1)) at 2. apply map_ext_in. intros j Hj. apply in_range in Hj.
      unfold zget. destruct (Z.ltb_spec (j - off) 0); [lia|].
      destruct (Z.ltb_spec (j - (off + 1)) 0); [lia|].
      replace (Z.to_nat (j - off)) with (S (Z.to_nat (j - (off + 1)))) by lia. reflexivity.
Qed.

Lemma bytes_at_memcpy dst off k :
  0 <= off -> off + zlen k <= zlen dst ->
  bytes_at (memcpy_at dst off k) off (zlen k) = k.
Proof.
  intros Hoff Hfit. unfold bytes_at.
  transitivity (map (fun j => zget k (j - off)) (range off (off + zlen k)));
    [|apply map_zget_shift].
  apply map_ext_in. intros j Hj. apply in_range in Hj.
  rewrite memcpy_at_get by assumption.
  destruct (Z.leb_spec off j); destruct (Z.ltb_spec j (off + zlen k)); cbn; try reflexivity; lia.
Qed.

Section Lookup.

Variables (m : unilm_model_t) (ks : list (list Z)) (phi : path -> Z).
Hypothesis HR : Rep (trie m) (KP ks) phi.

Lemma find_id_in k id :
  unilm_model_is_init m = true -> In k ks -> k <> [] -> 0 <= id <= 2147483647 ->
  zget (base (trie m)) (phi (k ++ [0])) = - id - 1 ->
  unilm_model_find_id m k = id.
Proof.
  intros Hinit Hin Hne Hid Hv.
  pose proof (KP_key ks k Hin) as Pk0.
  destruct (rep_closed _ _ _ HR k 0 Pk0) as (Pk & _).
  destruct (rep_root _ _ _ HR) as (R1 & _).
  unfold unilm_model_find_id. destruct k as [|c0 k0] eqn:Ek; [congruence|]. rewrite <- Ek in *.
  rewrite Hinit. cbn [negb]. cbv zeta.
  rewrite raw_walk_ro.
  pose proof (ro_walk_in (trie m) _ phi HR k [] Pk) as W. cbn [app] in W.
  rewrite R1 in W. change UNILM_DA_ROOT with DA_ROOT. rewrite W.
  pose proof (rep_range _ _ _ HR _ Pk). pose proof (rep_range _ _ _ HR _ Pk0).
  destruct (Z.eqb_spec (phi k) 0); [lia|].
  unfold unilm_da_term_id. cbv zeta.
  change (unilm_da_next_raw (trie m) (phi k) 0)
    with (da_next_ro_local (ro_view (trie m)) (phi k) 0).
  rewrite (ro_next_in (trie m) _ phi HR k 0 Pk0).
  destruct (Z.eqb_spec (phi (k ++ [0])) 0); [lia|].
  rewrite Hv. destruct (Z.leb_spec 0 (- id - 1)); [lia|].
  replace (- (- id - 1) - 1) with id by lia. apply i32_id. unfold in_i32. lia.
Qed.

Lemma find_id_out q :
  Forall valid_key ks -> Forall (fun c => 1 <= c <= 255) q -> ~ In q ks ->
  unilm_model_find_id m q = -1.
Proof.
  intros Hks Hq Hin.
  unfold unilm_model_find_id. destruct q as [|c0 q0] eqn:Eq; [reflexivity|]. rewrite <- Eq in *.
  destruct (unilm_model_is_init m); [|reflexivity]. cbn [negb]. cbv zeta.
  destruct (rep_root _ _ _ HR) as (R1 & _ & R3).
  assert (Hq0 : Forall (fun c => 0 <= c <= 255) q).
  { revert Hq. apply Forall_impl. intros; lia. }
  assert (Hq1 : Forall (fun c => 1 <= c) q).
  { revert Hq. apply Forall_impl. intros; lia. }
  rewrite raw_walk_ro.
  assert (Wk : ro_walk (ro_view (trie m)) q UNILM_DA_ROOT = da_walk (trie m) q DA_ROOT).
  { pose proof (ro_walk_eq (trie m) _ phi HR q [] R3 Hq1) as W0. rewrite R1 in W0. exact W0. }
  rewrite Wk. clear Wk.
  destruct (ct_walk (ct_of_keys ks) q) as [node|] eqn:W.
  2:{ rewrite (rep_walk_root_out (trie m) _ phi q HR Hq0); [reflexivity|].
      intros Pq. apply ct_of_keys_walk in Pq. congruence. }
  assert (Pq : KP ks q) by (apply ct_of_keys_walk; congruence).
  rewrite (rep_walk_root (trie m) _ phi q HR Pq).
  pose proof (rep_range _ _ _ HR q Pq) as Hr.
  destruct (Z.eqb_spec (phi q) 0); [lia|].
  assert (NP : ~ KP ks (q ++ [0])) by (intros Pq0; apply Hin, KP_term; assumption).
  unfold unilm_da_term_id. cbv zeta.
  change (unilm_da_next_raw (trie m) (phi q) 0)
    with (da_next_ro_local (ro_view (trie m)) (phi q) 0).
  rewrite (local_next (trie m) _ phi HR q 0 Pq ltac:(lia) ltac:(left; congruence)).
  rewrite (rep_next_out (trie m) _ phi HR q 0 Pq ltac:(lia) NP). reflexivity.
Qed.

End Lookup.

Lemma unilm_set_term_rep d ks phi k id :
  Rep d (KP ks) phi -> Forall valid_key ks -> In k ks -> k <> [] ->
  0 <= id <= 2147483646 ->
  exists d',
    unilm_da_set_term_id d k id = (UNILM_OK, d') /\
    Rep d' (KP ks) phi /\
    zget (base d') (phi (k ++ [0])) = - id - 1 /\
    (forall v, In v ks -> v <> k ->
       zget (base d') (phi (v ++ [0])) = zget (base d) (phi (v ++ [0]))).
Proof.
  intros HR Hks Hin Hne Hid.
  pose proof (KP_key ks k Hin) as Pk0.
  destruct (rep_closed _ _ _ HR k 0 Pk0) as (Pk & _).
  destruct (rep_root _ _ _ HR) as (R1 & _).
  unfold unilm_da_set_term_id. destruct k as [|c0 k0] eqn:Ek; [congruence|]. rewrite <- Ek in *.
  cbv zeta. rewrite raw_walk_ro.
  pose proof (ro_walk_in d _ phi HR k [] Pk) as W. cbn [app] in W.
  rewrite R1 in W. change UNILM_DA_ROOT with DA_ROOT. rewrite W.
  pose proof (rep_range _ _ _ HR _ Pk). pose proof (rep_range _ _ _ HR _ Pk0) as Hr0.
  destruct (Z.eqb_spec (phi k) 0); [lia|].
  change (unilm_da_next_raw d (phi k) 0) with (da_next_ro_local (ro_view d) (phi k) 0).
  rewrite (ro_next_in d _ phi HR k 0 Pk0).
  destruct (Z.eqb_spec (phi (k ++ [0])) 0); [lia|].
  eexists. split; [reflexivity|]. split; [|split].
  - apply set_base_leaf_rep; [assumption|assumption|].
    intros x. apply KP_term_leaf. assumption.
  - cbn [set_base base]. rewrite zget_zset_same by (unfold capacity in *; lia).
    rewrite (i32_id id) by (unfold in_i32; lia).
    rewrite i32_id by (unfold in_i32; lia). lia.
  - intros v Hv Hvk. cbn [set_base base]. rewrite zget_zset_other; [reflexivity|].
    intros Eq. apply Hvk. symmetry.
    apply (rep_inj _ _ _ HR) in Eq; [|assumption|apply KP_key; assumption].
    apply snoc_inj in Eq. apply Eq.
Qed.

(** The keys of the vocabulary in the order of their ids. *)
Definition kth (vs : list (list Z)) (i : Z) : list Z := nth (Z.to_nat i) vs [].
Definition klen (vs : list (list Z)) : Z := Z.of_nat (length vs).

Definition piece_key (k : list Z) : Prop := valid_key k /\ zlen k <= 65535.

(** What [unilm_model_add_piece] keeps: the piece [i] holds the key [i], and
    the end node of the key [i] holds the id [i]. *)
Record VInv (m : unilm_model_t) (sl : Z) (vs : list (list Z)) : Prop := {
  vi_init : vs <> [] -> unilm_model_is_init m = true;
  vi_size : vocab_size m = klen vs;
  vi_cap : vocab_size m <= plen (pieces m) /\ plen (pieces m) <= 2147483647;
  vi_sl : 0 <= sl <= zlen (strbuf m) /\ zlen (strbuf m) <= 4294967295;
  vi_keys : Forall piece_key vs;
  vi_nodup : NoDup vs;
  vi_trie : exists phi, Rep (trie m) (KP vs) phi /\
              forall i, 0 <= i < klen vs ->
                zget (base (trie m)) (phi (kth vs i ++ [0])) = - i - 1;
  vi_piece : forall i, 0 <= i < klen vs ->
               len (pget (pieces m) i) = zlen (kth vs i) /\
               0 <= str_off (pget (pieces m) i) /\
               str_off (pget (pieces m) i) + zlen (kth vs i) <= sl /\
               bytes_at (strbuf m) (str_off (pget (pieces m) i)) (zlen (kth vs i)) = kth vs i
}.

Lemma piece_keys_valid vs : Forall piece_key vs -> Forall valid_key vs.
Proof. apply Forall_impl. intros k H. apply H. Qed.

Lemma kth_in vs i : 0 <= i < klen vs -> In (kth vs i) vs.
Proof. unfold kth, klen. intros H. apply nth_In. lia. Qed.

Lemma in_kth vs k : In k vs -> exists i, 0 <= i < klen vs /\ kth vs i = k.
Proof.
  intros H. destruct (In_nth vs k [] H) as (n & Hn & E).
  exists (Z.of_nat n). unfold kth, klen. rewrite Nat2Z.id. split; [lia|exact E].
Qed.

Lemma kth_app_l vs rest i : 0 <= i < klen vs -> kth (vs ++ rest) i = kth vs i.
Proof. unfold kth, klen. intros H. apply app_nth1. lia. Qed.

Lemma kth_app_new vs k : kth (vs ++ [k]) (klen vs) = k.
Proof. unfold kth, klen. rewrite Nat2Z.id. apply nth_middle. Qed.

Lemma klen_app vs rest : klen (vs ++ rest) = klen vs + klen rest.
Proof. unfold klen. rewrite length_app. lia. Qed.

Lemma kth_inj vs i j :
  NoDup vs -> 0 <= i < klen vs -> 0 <= j < klen vs -> kth vs i = kth vs j -> i = j.
Proof.
  unfold kth, klen. intros Hnd Hi Hj E.
  assert (Z.to_nat i = Z.to_nat j); [|lia].
  apply (proj1 (NoDup_nth vs []) Hnd); [lia|lia|exact E].
Qed.

Section AddPiece.

Variable mem_limit : Z.

Lemma add_piece_step m sl vs k fl id m' sl' :
  VInv m sl vs -> piece_key k ->
  unilm_model_add_piece mem_limit m sl k fl = (id, m', sl') -> 0 <= id ->
  exists rest,
    VInv m' sl' (vs ++ rest) /\ 0 <= id < klen (vs ++ rest) /\
    kth (vs ++ rest) id = k /\ (forall x, In x rest -> x = k).
Proof.
  intros HI (Hk & Hlen) H Hid.
  destruct HI as [Iinit Isize (Icap1 & Icap2) (Isl1 & Isl2) Ikeys Inodup
                        (phi & HR & Ival) Ipiece].
  pose proof (piece_keys_valid vs Ikeys) as Hvs.
  destruct Hk as (Hne & Hb).
  unfold unilm_model_add_piece in H. destruct k as [|c0 k0] eqn:Ek; [congruence|].
  rewrite <- Ek in *.
  destruct (unilm_model_is_init m) eqn:Hinit; cbn [negb] in H;
    [|inversion H; subst; lia]. cbv zeta in H.
  destruct (in_dec (list_eq_dec Z.eq_dec) k vs) as [Hin|Hin].
  - (* the key has an id *)
    destruct (in_kth vs k Hin) as (n & Hn & En).
    assert (Ef : unilm_model_find_id m k = n).
    { apply (find_id_in m vs phi HR); [assumption|assumption|assumption|lia|].
      rewrite <- En. apply Ival. assumption. }
    rewrite Ef in H. destruct (Z.leb_spec 0 n); [|lia].
    inversion H; subst id m' sl'. clear H.
    exists []. rewrite app_nil_r. split; [|split; [lia|split; [exact En|intros x []]]].
    constructor; cbn [strbuf pieces logp vocab_size trie].
    + intros _. unfold unilm_model_is_init in *. cbn [pieces strbuf].
      fold (plen (pieces m)) in Hinit.
      fold (plen (pset (pieces m) n
                       (with_flags (pget (pieces m) n)
                                   (Z.lor (flags (pget (pieces m) n)) fl)))).
      rewrite plen_pset. exact Hinit.
    + exact Isize.
    + rewrite plen_pset. split; assumption.
    + split; [split|]; lia.
    + exact Ikeys.
    + exact Inodup.
    + exists phi. split; assumption.
    + intros i Hi. destruct (Z.eq_dec i n) as [->|Hne'].
      * rewrite pget_pset_same by lia. cbn [with_flags len str_off]. apply Ipiece. assumption.
      * rewrite pget_pset_other by congruence. apply Ipiece. assumption.
  - (* a new key *)
    rewrite (find_id_out m vs phi HR k Hvs Hb Hin) in H.
    destruct (Z.leb_spec 0 (-1)); [lia|].
    fold (plen (pieces m)) in H.
    destruct (Z.leb_spec (plen (pieces m)) (vocab_size m)); [inversion H; subst; lia|].
    destruct (Z.ltb_spec (zlen (strbuf m)) (sl + zlen k)); [inversion H; subst; lia|].
    assert (Eid : u32 (vocab_size m) = vocab_size m).
    { unfold u32, wrap_u. apply Z.mod_small. unfold klen in Isize. lia. }
    assert (Eoff : u32 sl = sl).
    { unfold u32, wrap_u. apply Z.mod_small. lia. }
    assert (Elen : u16 (zlen k) = zlen k).
    { unfold u16, wrap_u. apply Z.mod_small. unfold zlen in *. lia. }
    rewrite Eid, Eoff, Elen in H.
    destruct (da_trie_add_bytes mem_limit (trie m) k) as (rc1, tr1) eqn:E1.
    destruct rc1 as [|?|?]; [|inversion H; subst; lia|inversion H; subst; lia].
    destruct (add_bytes_rep mem_limit (trie m) vs phi k 0 tr1 HR (conj Hne Hb) E1 eq_refl)
      as (phi1 & HR1 & V1).
    assert (Hall : Forall valid_key (k :: vs)) by (constructor; [split|]; assumption).
    destruct (unilm_set_term_rep tr1 (k :: vs) phi1 k (vocab_size m) HR1 Hall
                                 ltac:(left; reflexivity) Hne ltac:(unfold klen in Isize; lia))
      as (tr2 & E2 & HR2 & Vnew & Vold).
    rewrite E2 in H. unfold UNILM_OK in H.
    assert (Ei : i32 (vocab_size m) = vocab_size m).
    { apply i32_id. unfold in_i32. unfold klen in Isize. lia. }
    rewrite Ei in H. inversion H; subst id m' sl'. clear H.
    exists [k]. split; [|split; [|split]].
    + constructor; cbn [strbuf pieces logp vocab_size trie].
      * intros _. unfold unilm_model_is_init in *. cbn [pieces strbuf].
        rewrite memcpy_at_len.
        match goal with
        | |- context [Z.of_nat (length (pset ?l ?i ?v))] =>
          change (Z.of_nat (length (pset l i v))) with (plen (pset l i v))
        end.
        rewrite plen_pset. exact Hinit.
      * rewrite klen_app, Isize. reflexivity.
      * rewrite plen_pset. split; lia.
      * rewrite memcpy_at_len. unfold zlen in *. split; [split|]; lia.
      * apply Forall_app. split; [exact Ikeys|]. constructor; [|constructor].
        split; [split|]; assumption.
      * apply NoDup_app; [exact Inodup|constructor; [intros []|constructor]|].
        intros a Ha [<-|[]]. contradiction.
      * exists phi1. split.
        { apply (Rep_P_ext tr2 (KP (k :: vs))); [|exact HR2].
          intros w. split; apply KP_in; intros x; rewrite in_app_iff; cbn [In]; tauto. }
        intros i Hi. rewrite klen_app in Hi.
        change (klen [k]) with 1 in Hi.
        destruct (Z.eq_dec i (klen vs)) as [->|Hne'].
        { rewrite kth_app_new, Vnew, Isize. reflexivity. }
        rewrite kth_app_l by lia.
        assert (Hiv : In (kth vs i) vs) by (apply kth_in; lia).
        rewrite Vold; [|right; exact Hiv|intros Eq; apply Hin; rewrite <- Eq; exact Hiv].
        rewrite V1 by (apply KP_key; exact Hiv).
        apply Ival. lia.
      * intros i Hi. rewrite klen_app in Hi. change (klen [k]) with 1 in Hi.
        destruct (Z.eq_dec i (klen vs)) as [->|Hne'].
        { rewrite kth_app_new, <- Isize, pget_pset_same by lia. cbn [len str_off].
          split; [reflexivity|]. split; [lia|]. split; [lia|].
          apply bytes_at_memcpy; lia. }
        rewrite kth_app_l by lia. rewrite pget_pset_other by lia.
        destruct (Ipiece i ltac:(lia)) as (P1 & P2 & P3 & P4).
        split; [exact P1|]. split; [exact P2|]. split; [unfold zlen in *; lia|].
        rewrite <- P4 at 2. apply bytes_at_ext. intros j Hj.
        rewrite memcpy_at_get by lia.
        destruct (Z.leb_spec sl j); [lia|]. reflexivity.
    + rewrite klen_app. change (klen [k]) with 1. unfold klen in *. lia.
    + rewrite Isize. apply kth_app_new.
    + intros x [<-|[]]. reflexivity.
Qed.

Lemma VInv_init m sl vs : VInv m sl vs -> vs <> [] -> unilm_model_is_init m = true.
Proof. intros H. apply (vi_init _ _ _ H). Qed.

Lemma add_pieces_inv (reqs : list (list Z * Z)) : forall m sl vs ids m' sl',
  VInv m sl vs -> Forall (fun r => piece_key (fst r)) reqs ->
  add_pieces mem_limit m sl reqs = (ids, m', sl') ->
  Forall (fun id => 0 <= id) ids ->
  exists rest,
    VInv m' sl' (vs ++ rest) /\
    (forall x, In x rest -> In x (map fst reqs)) /\
    length ids = length reqs /\
    forall j, (j < length reqs)%nat ->
      0 <= nth j ids 0 < klen (vs ++ rest) /\
      kth (vs ++ rest) (nth j ids 0) = fst (nth j reqs ([], 0)).
Proof.
  induction reqs as [|(k, fl) reqs IH]; intros m sl vs ids m' sl' HI Hreq H Hids.
  - cbn [add_pieces] in H. inversion H; subst. exists []. rewrite app_nil_r.
    split; [exact HI|]. split; [intros x []|]. split; [reflexivity|].
    intros j Hj. cbn [length] in Hj. lia.
  - cbn [add_pieces] in H.
    destruct (unilm_model_add_piece mem_limit m sl k fl) as ((id, m1), sl1) eqn:E1.
    destruct (add_pieces mem_limit m1 sl1 reqs) as ((ids1, m2), sl2) eqn:E2.
    inversion H; subst ids m' sl'. clear H.
    apply Forall_cons_iff in Hreq. destruct Hreq as (Hk & Hreq). cbn [fst] in Hk.
    apply Forall_cons_iff in Hids. destruct Hids as (Hid & Hids).
    destruct (add_piece_step m sl vs k fl id m1 sl1 HI Hk E1 Hid)
      as (r1 & HI1 & Hid1 & Ek1 & Hr1).
    destruct (IH m1 sl1 (vs ++ r1) ids1 m2 sl2 HI1 Hreq E2 Hids)
      as (r2 & HI2 & Hr2 & Hl2 & Hj2).
    exists (r1 ++ r2). rewrite app_assoc.
    split; [exact HI2|]. split; [|split].
    + intros x Hx. apply in_app_iff in Hx. cbn [map fst In].
      destruct Hx as [Hx|Hx]; [left; symmetry; apply Hr1; exact Hx|right; apply Hr2; exact Hx].
    + cbn [length]. congruence.
    + intros [|j] Hj; cbn [nth fst].
      * rewrite klen_app. split; [unfold klen in *; lia|].
        rewrite kth_app_l by lia. exact Ek1.
      * apply Hj2. cbn [length] in Hj. lia.
Qed.

End AddPiece.

Lemma clear_inv m m0 sl0 :
  zlen (check (trie m)) = zlen (base (trie m)) ->
  plen (pieces m) <= 2147483647 -> zlen (strbuf m) <= 4294967295 ->
  unilm_model_clear m = (UNILM_OK, m0, sl0) ->
  VInv m0 sl0 [].
Proof.
  intros Hl Hp Hs H. unfold unilm_model_clear in H.
  destruct (da_trie_clear (trie m)) as (rc, tr) eqn:E.
  destruct rc as [|?|?]; [|inversion H|inversion H].
  inversion H; subst m0 sl0. clear H.
  destruct (clear_rep (trie m) 0 tr Hl E eq_refl) as (HR & _).
  constructor; cbn [strbuf pieces logp vocab_size trie].
  - intros C. congruence.
  - reflexivity.
  - unfold plen in *. lia.
  - unfold zlen in *. lia.
  - constructor.
  - constructor.
  - exists (fun _ => DA_ROOT). split.
    + apply (Rep_P_ext tr (fun w => w = [])); [intros w; apply KP_nil|exact HR].
    + intros i Hi. change (klen []) with 0 in Hi. lia.
  - intros i Hi. change (klen []) with 0 in Hi. lia.
Qed.

(** The pieces added to a cleared model are found again.  After
    [unilm_model_clear] and a sequence of [unilm_model_add_piece] calls that
    all return an id (for non-empty keys of at most 65535 bytes other than
    0, in a model of at most 2^31 - 1 pieces and 2^32 - 1 string bytes),
    [unilm_model_find_id] returns for every key the id that its call
    returned, [unilm_model_piece_bytes] gives for that id the bytes of the
    key, and [unilm_model_find_id] returns -1 for every other string of
    bytes other than 0. *)
Theorem added_pieces_are_found (mem_limit : Z) (m m0 m' : unilm_model_t) (sl0 sl' : Z)
        (reqs : list (list Z * Z)) (ids : list Z) :
  zlen (check (trie m)) = zlen (base (trie m)) ->
  plen (pieces m) <= 2147483647 -> zlen (strbuf m) <= 4294967295 ->
  unilm_model_clear m = (UNILM_OK, m0, sl0) ->
  Forall (fun r => valid_key (fst r) /\ zlen (fst r) <= 65535) reqs ->
  add_pieces mem_limit m0 sl0 reqs = (ids, m', sl') ->
  Forall (fun id => 0 <= id) ids ->
  (forall j, (j < length reqs)%nat ->
     unilm_model_find_id m' (fst (nth j reqs ([], 0))) = nth j ids 0 /\
     exists off,
       unilm_model_piece_bytes m' (nth j ids 0) = Some (off, zlen (fst (nth j reqs ([], 0)))) /\
       bytes_at (strbuf m') off (zlen (fst (nth j reqs ([], 0)))) = fst (nth j reqs ([], 0))) /\
  (forall q, Forall (fun c => 1 <= c <= 255) q -> ~ In q (map fst reqs) ->
     unilm_model_find_id m' q = -1).
Proof.
  intros Hl Hp Hs Hclear Hreq Hadd Hids.
  pose proof (clear_inv m m0 sl0 Hl Hp Hs Hclear) as HI0.
  destruct (add_pieces_inv mem_limit reqs m0 sl0 [] ids m' sl' HI0 Hreq Hadd Hids)
    as (vs & HI & Hsub & Hlen & Hj).
  cbn [app] in *.
  destruct HI as [Iinit Isize (Icap1 & Icap2) (Isl1 & Isl2) Ikeys Inodup
                        (phi & HR & Ival) Ipiece].
  pose proof (piece_keys_valid vs Ikeys) as Hvs.
  split.
  - intros j Hjl. destruct (Hj j Hjl) as (Hr & Ek).
    set (id := nth j ids 0) in *. set (k := fst (nth j reqs ([], 0))) in *.
    assert (Hin : In k vs) by (rewrite <- Ek; apply kth_in; exact Hr).
    assert (Hkv : valid_key k) by (rewrite Forall_forall in Hvs; apply Hvs; exact Hin).
    assert (Hinit : unilm_model_is_init m' = true).
    { apply Iinit. intros ->. cbn in Hin. exact Hin. }
    split.
    + apply (find_id_in m' vs phi HR); [exact Hinit|exact Hin|apply Hkv| |].
      * unfold klen, plen in *. lia.
      * rewrite <- Ek. apply Ival. exact Hr.
    + destruct (Ipiece id Hr) as (P1 & P2 & P3 & P4). rewrite Ek in P1, P3, P4.
      exists (str_off (pget (pieces m') id)). split; [|exact P4].
      unfold unilm_model_piece_bytes. rewrite Isize.
      destruct (Z.leb_spec (klen vs) id); [lia|]. rewrite P1. reflexivity.
  - intros q Hq Hnot. apply (find_id_out m' vs phi HR q Hvs Hq).
    intros Hin. apply Hnot, Hsub, Hin.
Qed.

Definition ex_vocab0 : unilm_model_t :=
  {| strbuf := repeat 0 8; pieces := repeat piece0 4; logp := repeat 0%float 4;
     vocab_size := 0; trie := snd (da_trie_init_dynamic 4096 16) |}.

Definition ex_reqs : list (list Z * Z) := [([97], 0); ([98; 99], 1); ([97], 1)].

Definition ex_vocab : unilm_model_t := snd (fst (add_pieces 4096 ex_vocab0 0 ex_reqs)).

Lemma added_pieces_are_found_witness :
  unilm_model_find_id ex_vocab [98; 99] = 1 /\
  unilm_model_find_id ex_vocab [97] = 0 /\
  unilm_model_find_id ex_vocab [99] = -1.
Proof.
  destruct (added_pieces_are_found 4096 ex_vocab0 ex_vocab0 ex_vocab 0 3 ex_reqs [0; 1; 0])
    as (H1 & H2).
  - reflexivity.
  - vm_compute. discriminate.
  - vm_compute. discriminate.
  - vm_compute. reflexivity.
  - repeat constructor; try discriminate; try lia; vm_compute; discriminate.
  - vm_compute. reflexivity.
  - repeat constructor; lia.
  - split; [exact (proj1 (H1 1%nat ltac:(cbn; lia)))|].
    split; [exact (proj1 (H1 2%nat ltac:(cbn; lia)))|].
    apply H2.
    + repeat constructor; lia.
    + cbn. intros [E|[E|[E|[]]]]; discriminate.
Defined.

(** * The heap of the selection *)

(** [pi] rearranges the positions below [n]. *)
Definition perm_of (n : Z) (pi : list Z) : Prop :=
  (forall j, 0 <= j < n -> 0 <= zget pi j < n) /\
  (forall j j', 0 <= j < n -> 0 <= j' < n -> zget pi j = zget pi j' -> j = j').

Section Sifting.

Variable n : Z.
Variable idx : list Z.

(** The two sifting loops look at the scores only: what they do to one
    index array they do to every other. *)
Lemma sift_up_sim (fuel : nat) : forall pi ida sc i,
  0 <= i < n -> n <= zlen pi -> n <= zlen ida ->
  (forall j, 0 <= j < n -> zget ida j = zget idx (zget pi j)) ->
  snd (sift_up_loop fuel ida sc i) = snd (sift_up_loop fuel pi sc i) /\
  forall j, 0 <= j < n ->
    zget (fst (sift_up_loop fuel ida sc i)) j = zget idx (zget (fst (sift_up_loop fuel pi sc i)) j).
Proof.
  induction fuel as [|fuel IH]; intros pi ida sc i Hi Hp Ha Hrel; cbn [sift_up_loop].
  - split; [reflexivity|exact Hrel].
  - destruct (Z.leb_spec i 0); [split; [reflexivity|exact Hrel]|].
    destruct (PrimFloat.leb _ _); [split; [reflexivity|exact Hrel]|].
    assert (Hpar : 0 <= (i - 1) / 2 < i) by (apply (par_lt i); lia).
    apply IH; [lia|rewrite !zlen_zset; lia|rewrite !zlen_zset; lia|].
    intros j Hj. rewrite !zswap_get by lia. apply Hrel. apply tr_range; lia.
Qed.

Lemma sift_down_sim (fuel : nat) : forall pi ida sc i,
  0 <= i < n -> n <= zlen pi -> n <= zlen ida ->
  (forall j, 0 <= j < n -> zget ida j = zget idx (zget pi j)) ->
  snd (sift_down_loop fuel ida sc n i) = snd (sift_down_loop fuel pi sc n i) /\
  forall j, 0 <= j < n ->
    zget (fst (sift_down_loop fuel ida sc n i)) j =
    zget idx (zget (fst (sift_down_loop fuel pi sc n i)) j).
Proof.
  induction fuel as [|fuel IH]; intros pi ida sc i Hi Hp Ha Hrel; cbn [sift_down_loop].
  - split; [reflexivity|exact Hrel].
  - cbv zeta.
    set (s1 := if (2 * i + 1 <? n) && PrimFloat.ltb (fget sc (2 * i + 1)) (fget sc i)
               then 2 * i + 1 else i).
    set (s2 := if (2 * i + 1 + 1 <? n) && PrimFloat.ltb (fget sc (2 * i + 1 + 1)) (fget sc s1)
               then 2 * i + 1 + 1 else s1).
    assert (H1 : 0 <= s1 < n).
    { unfold s1. destruct (Z.ltb_spec (2 * i + 1) n); cbn [andb]; [|lia].
      destruct (PrimFloat.ltb _ _); lia. }
    clearbody s1.
    assert (H2 : 0 <= s2 < n).
    { unfold s2. destruct (Z.ltb_spec (2 * i + 1 + 1) n); cbn [andb]; [|lia].
      destruct (PrimFloat.ltb _ _); lia. }
    clearbody s2.
    destruct (Z.eqb_spec s2 i); [split; [reflexivity|exact Hrel]|].
    apply IH; [lia|rewrite !zlen_zset; lia|rewrite !zlen_zset; lia|].
    intros j Hj. rewrite !zswap_get by lia. apply Hrel. apply tr_range; lia.
Qed.

End Sifting.

Lemma perm_of_heap_res sc n pi' sc' :
  0 <= n ->
  heap_res (fget sc) n (range 0 n) sc pi' sc' ->
  perm_of n pi' /\ is_heap sc' n /\
  forall j, 0 <= j < n -> fget sc' j = fget sc (zget pi' j).
Proof.
  intros Hn [R1 R2 R3 (G1 & G2) R5 R6]. split; [split|split].
  - intros j Hj. assert (Hi : img pi' n (zget pi' j)) by (exists j; split; [exact Hj|reflexivity]).
    apply R6 in Hi. destruct Hi as (j0 & Hj0 & E). rewrite zget_range in E by lia. lia.
  - exact G2.
  - exact R5.
  - exact G1.
Qed.

Lemma good_identity sc n : good (fget sc) (range 0 n) sc n.
Proof.
  split.
  - intros j Hj. rewrite zget_range by lia. reflexivity.
  - intros j j' Hj Hj' E. rewrite !zget_range in E by lia. exact E.
Qed.

(** Pushing on the heap, as [unilm_prune_mdl] does while the heap is not
    full: with a heap in the first [n] entries of the two arrays, writing a
    new entry at [n] and calling [heap_sift_up] on it leaves a heap of
    [n + 1] entries that holds the same (index, score) pairs in another
    order.  No score is a NaN. *)
Theorem heap_push_keeps_heap (idx : list Z) (sc : list float) (n x : Z) (v : float) :
  0 <= n < zlen idx -> n < flen sc ->
  nonan sc n -> PrimFloat.is_nan v = false -> is_heap sc n ->
  exists pi,
    perm_of (n + 1) pi /\
    is_heap (snd (heap_sift_up (zset idx n x) (fset sc n v) n)) (n + 1) /\
    forall j, 0 <= j < n + 1 ->
      zget (fst (heap_sift_up (zset idx n x) (fset sc n v) n)) j
      = zget (zset idx n x) (zget pi j) /\
      fget (snd (heap_sift_up (zset idx n x) (fset sc n v) n)) j
      = fget (fset sc n v) (zget pi j).
Proof.
  intros Hn Hf Hnan Hv Hheap.
  set (idx1 := zset idx n x). set (sc1 := fset sc n v).
  assert (N1 : nonan sc1 (n + 1)).
  { intros j Hj. unfold sc1. destruct (Z.eq_dec j n) as [->|Hne].
    - rewrite fget_fset_same by lia. exact Hv.
    - rewrite fget_fset_other by congruence. apply Hnan. lia. }
  assert (U1 : heap_up sc1 (n + 1) n).
  { split.
    - intros j Hj Hne. pose proof (par_lt j ltac:(lia)).
      unfold sc1. rewrite !fget_fset_other by lia. apply Hheap. lia.
    - intros Hn1 c Hc Hpc. pose proof (par_lt c ltac:(lia)). lia. }
  unfold heap_sift_up.
  destruct (sift_up_loop (Z.to_nat n) (range 0 (n + 1)) sc1 n) as (pi', sc') eqn:Es.
  pose proof (sift_up_spec (fget sc1) (n + 1) (Z.to_nat n) (range 0 (n + 1)) sc1 n pi' sc'
                ltac:(lia) ltac:(lia) ltac:(rewrite zlen_range; lia)
                ltac:(unfold sc1; rewrite flen_fset; lia) N1 (good_identity sc1 (n + 1)) U1 Es)
    as HR.
  destruct (perm_of_heap_res sc1 (n + 1) pi' sc' ltac:(lia) HR) as (Hperm & Hh & Hsc).
  destruct (sift_up_sim (n + 1) idx1 (Z.to_nat n) (range 0 (n + 1)) idx1 sc1 n
              ltac:(lia) ltac:(rewrite zlen_range; lia)
              ltac:(unfold idx1; rewrite zlen_zset; lia)
              ltac:(intros j Hj; rewrite zget_range by lia; reflexivity)) as (S1 & S2).
  rewrite Es in S1, S2. cbn [fst snd] in S1, S2.
  exists pi'. split; [exact Hperm|]. rewrite S1. split; [exact Hh|].
  intros j Hj. split; [apply S2; exact Hj|apply Hsc; exact Hj].
Qed.

Definition ex_heap_idx : list Z := [5; 7; 9; 0].
Definition ex_heap_sc : list float := [1%float; 3%float; 2%float; 0%float].

Lemma ex_heap_nonan : nonan ex_heap_sc 3.
Proof.
  intros j Hj. assert (E : j = 0 \/ j = 1 \/ j = 2) by lia.
  destruct E as [->|[->| ->]]; reflexivity.
Qed.

Lemma ex_heap_is_heap : is_heap ex_heap_sc 3.
Proof.
  intros j Hj. assert (E : j = 1 \/ j = 2) by lia.
  destruct E as [->| ->]; reflexivity.
Qed.

Lemma heap_push_keeps_heap_witness :
  exists pi,
    perm_of (3 + 1) pi /\
    is_heap (snd (heap_sift_up (zset ex_heap_idx 3 4) (fset ex_heap_sc 3 0.5%float) 3)) (3 + 1) /\
    forall j, 0 <= j < 3 + 1 ->
      zget (fst (heap_sift_up (zset ex_heap_idx 3 4) (fset ex_heap_sc 3 0.5%float) 3)) j
      = zget (zset ex_heap_idx 3 4) (zget pi j) /\
      fget (snd (heap_sift_up (zset ex_heap_idx 3 4) (fset ex_heap_sc 3 0.5%float) 3)) j
      = fget (fset ex_heap_sc 3 0.5%float) (zget pi j).
Proof.
  apply (heap_push_keeps_heap ex_heap_idx ex_heap_sc 3 4 0.5%float).
  - vm_compute. split; [discriminate|reflexivity].
  - vm_compute. reflexivity.
  - exact ex_heap_nonan.
  - reflexivity.
  - exact ex_heap_is_heap.
Defined.

(** Replacing the smallest entry, as [unilm_prune_mdl] does once the heap is
    full: with a heap in the first [n] entries, writing a new entry at the
    root and calling [heap_sift_down] on it leaves a heap that holds the
    same (index, score) pairs in another order.  No score is a NaN. *)
Theorem heap_replace_root_keeps_heap (idx : list Z) (sc : list float) (n x : Z) (v : float) :
  0 < n -> n <= zlen idx -> n <= flen sc ->
  nonan sc n -> PrimFloat.is_nan v = false -> is_heap sc n ->
  exists pi,
    perm_of n pi /\
    is_heap (snd (heap_sift_down (zset idx 0 x) (fset sc 0 v) n 0)) n /\
    forall j, 0 <= j < n ->
      zget (fst (heap_sift_down (zset idx 0 x) (fset sc 0 v) n 0)) j
      = zget (zset idx 0 x) (zget pi j) /\
      fget (snd (heap_sift_down (zset idx 0 x) (fset sc 0 v) n 0)) j
      = fget (fset sc 0 v) (zget pi j).
Proof.
  intros Hn Hz Hf Hnan Hv Hheap.
  set (idx1 := zset idx 0 x). set (sc1 := fset sc 0 v).
  assert (N1 : nonan sc1 n).
  { intros j Hj. unfold sc1. destruct (Z.eq_dec j 0) as [->|Hne].
    - rewrite fget_fset_same by lia. exact Hv.
    - rewrite fget_fset_other by congruence. apply Hnan. lia. }
  assert (D1 : heap_down sc1 n 0).
  { split.
    - intros j Hj Hne. pose proof (par_lt j ltac:(lia)).
      unfold sc1. rewrite !fget_fset_other by lia. apply Hheap. lia.
    - intros Hn1. lia. }
  unfold heap_sift_down.
  destruct (sift_down_loop (Z.to_nat n) (range 0 n) sc1 n 0) as (pi', sc') eqn:Es.
  pose proof (sift_down_spec (fget sc1) n (Z.to_nat n) (range 0 n) sc1 0 pi' sc'
                ltac:(lia) ltac:(lia) ltac:(rewrite zlen_range; lia)
                ltac:(unfold sc1; rewrite flen_fset; lia) N1 (good_identity sc1 n) D1 Es)
    as HR.
  destruct (perm_of_heap_res sc1 n pi' sc' ltac:(lia) HR) as (Hperm & Hh & Hsc).
  destruct (sift_down_sim n idx1 (Z.to_nat n) (range 0 n) idx1 sc1 0
              ltac:(lia) ltac:(rewrite zlen_range; lia)
              ltac:(unfold idx1; rewrite zlen_zset; lia)
              ltac:(intros j Hj; rewrite zget_range by lia; reflexivity)) as (S1 & S2).
  rewrite Es in S1, S2. cbn [fst snd] in S1, S2.
  exists pi'. split; [exact Hperm|]. rewrite S1. split; [exact Hh|].
  intros j Hj. split; [apply S2; exact Hj|apply Hsc; exact Hj].
Qed.

Lemma heap_replace_root_keeps_heap_witness :
  exists pi,
    perm_of 3 pi /\
    is_heap (snd (heap_sift_down (zset ex_heap_idx 0 4) (fset ex_heap_sc 0 2.5%float) 3 0)) 3 /\
    forall j, 0 <= j < 3 ->
      zget (fst (heap_sift_down (zset ex_heap_idx 0 4) (fset ex_heap_sc 0 2.5%float) 3 0)) j
      = zget (zset ex_heap_idx 0 4) (zget pi j) /\
      fget (snd (heap_sift_down (zset ex_heap_idx 0 4) (fset ex_heap_sc 0 2.5%float) 3 0)) j
      = fget (fset ex_heap_sc 0 2.5%float) (zget pi j).
Proof.
  apply (heap_replace_root_keeps_heap ex_heap_idx ex_heap_sc 3 4 2.5%float).
  - lia.
  - vm_compute. discriminate.
  - vm_compute. discriminate.
  - exact ex_heap_nonan.
  - reflexivity.
  - exact ex_heap_is_heap.
Defined.

(** * The vocabulary after pruning *)

Lemma compact_plen kp (l : list Z) : forall st,
  plen (fst (fst (fold_left (compact_step kp) l st))) = plen (fst (fst st)).
Proof.
  induction l as [|i l IH]; intros ((ps, lp), nv); cbn [fold_left]; [reflexivity|].
  rewrite IH. unfold compact_step.
  destruct (negb (zget kp i =? 0)); [|reflexivity].
  destruct (negb (nv =? i)); cbn [fst]; [apply plen_pset|reflexivity].
Qed.

Section Pruned.

Variable mem_limit : Z.
Variables c_exp c_log : float -> float.

Lemma normalize_frame m p :
  strbuf (snd (unilm_model_normalize c_exp c_log m p)) = strbuf m /\
  trie (snd (unilm_model_normalize c_exp c_log m p)) = trie m /\
  pieces (snd (unilm_model_normalize c_exp c_log m p)) = pieces m /\
  vocab_size (snd (unilm_model_normalize c_exp c_log m p)) = vocab_size m.
Proof.
  unfold unilm_model_normalize. destruct (vocab_size m =? 0); [auto|].
  cbv zeta. destruct (negb (PrimFloat.ltb 0 _)); [auto|].
  destruct (negb (PrimFloat.ltb 0 _)); cbn; auto.
Qed.

(** The end of a successful [unilm_prune_mdl]: nothing was pruned, or the
    pieces were compacted and the trie was built again. *)
Definition rebuilt (m : unilm_model_t) (cfg : unilm_train_config_t) (m' : unilm_model_t)
  : Prop :=
  exists kp ps lp newV tr0 tr,
    fold_left (compact_step kp) (range 0 (vocab_size m)) (pieces m, logp m, 0) = (ps, lp, newV) /\
    DA.da_trie_clear (trie m) = (0, tr0) /\
    rebuild_loop mem_limit
                 {| strbuf := strbuf m; pieces := ps; logp := lp;
                    vocab_size := vocab_size m; trie := trie m |}
                 (range 0 (u32 newV)) tr0 = (0, tr) /\
    m' = snd (unilm_model_normalize c_exp c_log
                {| strbuf := strbuf m; pieces := ps; logp := lp;
                   vocab_size := newV; trie := tr |} (min_prob cfg)).

Ltac prune_tail H Hrc :=
  match type of H with
  | context [fold_left (compact_step ?kp) ?l ?st] =>
    let Ec := fresh "Ec" in
    destruct (fold_left (compact_step kp) l st) as ((?ps, ?lp), ?newV) eqn:Ec;
    let Et := fresh "Et" in
    destruct (DA.da_trie_clear _) as (?rcc, ?tr0) eqn:Et;
    match type of Et with
    | _ = (?rcc, _) =>
      destruct rcc as [|?|?];
      [|inversion H; subst; unfold UNILM_ERR_INTERNAL in Hrc; lia
       |inversion H; subst; unfold UNILM_ERR_INTERNAL in Hrc; lia]
    end;
    match type of H with
    | context [rebuild_loop ?a ?b ?c ?d] =>
      let Hrb := fresh "Hrb" in
      let Er := fresh "Er" in
      pose proof (rebuild_rc a b c d) as Hrb;
      destruct (rebuild_loop a b c d) as (?rcr, ?tr1) eqn:Er;
      cbn [fst] in Hrb;
      match type of Er with
      | _ = (?rcr, _) =>
        destruct rcr as [|?|?]; [|lia|inversion H; subst; lia]
      end;
      inversion H; subst; right;
      eexists _, _, _, _, _, _;
      split; [exact Ec|]; split; [reflexivity|]; split; [exact Er|reflexivity]
    end
  end.

Lemma prune_ok_shape m cfg wk counts rc m' wk' :
  0 <= vocab_size m < 2 ^ 31 ->
  unilm_prune_mdl mem_limit c_exp c_log m cfg wk counts = (rc, m', wk') -> 0 <= rc ->
  m' = m \/ rebuilt m cfg m'.
Proof.
  intros HV H Hrc. unfold rebuilt. unfold unilm_prune_mdl in H.
  destruct (Z.eqb_spec (vocab_size m) 0) as [E0|E0];
    [inversion H; subst; unfold UNILM_ERR_BADARG in Hrc; lia|].
  destruct (Z.ltb_spec (keep_cap wk) (vocab_size m)) as [Hkc|Hkc];
    [inversion H; subst; unfold UNILM_ERR_RANGE in Hrc; lia|].
  assert (Hu : u32 (vocab_size m) = vocab_size m).
  { unfold u32, wrap_u. apply Z.mod_small. lia. }
  rewrite Hu in H.
  destruct (fold_left _ (range 0 (vocab_size m))
                      (fold_left _ (range 0 (vocab_size m)) (keep wk), 0))
    as (kp0, mandn).
  destruct (0 <? target_vocab_size cfg) eqn:Ewant.
  - cbn [negb andb] in H.
    destruct (Z.ltb_spec (heap_cap wk)
                (if target_vocab_size cfg <=? mandn then 0 else target_vocab_size cfg - mandn));
      [inversion H; subst; unfold UNILM_ERR_RANGE in Hrc; lia|].
    prune_tail H Hrc.
  - cbn [negb andb] in H.
    destruct (PrimFloat.ltb 0 (mdl_lambda0 cfg) || PrimFloat.ltb 0 (mdl_lambda_len cfg));
      cbn [negb] in H.
    + prune_tail H Hrc.
    + inversion H; subst. left. reflexivity.
Qed.

End Pruned.

(** The bytes of the piece [i]. *)
Definition pkey (sb : list Z) (ps : list unilm_piece_t) (i : Z) : list Z :=
  bytes_at sb (str_off (pget ps i)) (len (pget ps i)).

Lemma NoDup_map_later {A B} (f : A -> B) (a : list A) (x : A) (b : list A) i :
  NoDup (map f (a ++ x :: b)) -> In i a -> f i <> f x.
Proof.
  rewrite map_app. cbn [map]. intros Hnd Hi E.
  apply NoDup_remove_2 in Hnd. apply Hnd. apply in_or_app. left.
  rewrite <- E. apply in_map. exact Hi.
Qed.

Lemma zget_In (l : list Z) i : 0 <= i < zlen l -> In (zget l i) l.
Proof.
  intros H. unfold zget. destruct (Z.ltb_spec i 0); [lia|]. apply nth_In. unfold zlen in H. lia.
Qed.

Section Rebuild.

Variable mem_limit : Z.
Variable m1 : unilm_model_t.

Let key := pkey (strbuf m1) (pieces m1).

Definition rebuild_ok (i : Z) : Prop :=
  0 <= i < vocab_size m1 /\ i <= 2147483646 /\ valid_key (key i).

Lemma rebuild_inv (ids : list Z) : forall done tr tr' phi,
  Rep tr (KP (map key done)) phi ->
  (forall i, In i done -> zget (base tr) (phi (key i ++ [0])) = - i - 1) ->
  NoDup (map key (done ++ ids)) ->
  Forall rebuild_ok (done ++ ids) ->
  rebuild_loop mem_limit m1 ids tr = (0, tr') ->
  exists phi',
    Rep tr' (KP (map key (done ++ ids))) phi' /\
    forall i, In i (done ++ ids) -> zget (base tr') (phi' (key i ++ [0])) = - i - 1.
Proof.
  induction ids as [|id rest IH]; intros done tr tr' phi HR Hval Hnd Hok H;
    cbn [rebuild_loop] in H.
  - inversion H; subst tr'. exists phi. rewrite app_nil_r. split; assumption.
  - assert (Hid : rebuild_ok id).
    { rewrite Forall_forall in Hok. apply Hok. apply in_or_app. right. left. reflexivity. }
    destruct Hid as (Hr & Hmax & Hk).
    assert (Hdone : Forall valid_key (map key done)).
    { apply Forall_forall. intros k Hkin. apply in_map_iff in Hkin.
      destruct Hkin as (i & <- & Hi). rewrite Forall_forall in Hok.
      apply (Hok i). apply in_or_app. left. exact Hi. }
    unfold unilm_model_piece_bytes in H.
    destruct (Z.leb_spec (vocab_size m1) id); [lia|].
    fold (pkey (strbuf m1) (pieces m1) id) in H. fold key in H.
    destruct (Z.eqb_spec (len (pget (pieces m1) id)) 0) as [E0|E0].
    { exfalso. destruct Hk as (Hne & _). apply Hne. unfold key, pkey, bytes_at.
      rewrite E0, range_nil by lia. reflexivity. }
    destruct (da_trie_add_bytes mem_limit tr (key id)) as (rc1, tr1) eqn:E1.
    destruct rc1 as [|?|?]; [|discriminate H|discriminate H].
    destruct (add_bytes_rep mem_limit tr (map key done) phi (key id) 0 tr1 HR Hk E1 eq_refl)
      as (phi1 & HR1 & V1).
    assert (Hall : Forall valid_key (key id :: map key done)) by (constructor; assumption).
    destruct (unilm_set_term_rep tr1 (key id :: map key done) phi1 (key id) id HR1 Hall
                                 ltac:(left; reflexivity) (proj1 Hk) ltac:(lia))
      as (tr2 & E2 & HR2 & Vnew & Vold).
    rewrite E2 in H. unfold UNILM_OK in H.
    destruct (IH (done ++ [id]) tr2 tr' phi1) as (phi' & HR' & Hval').
    + apply (Rep_P_ext tr2 (KP (key id :: map key done))); [|exact HR2].
      intros w. split; apply KP_in; intros x; rewrite map_app, in_app_iff; cbn [map In]; tauto.
    + intros i Hi. apply in_app_iff in Hi. destruct Hi as [Hi|[<-|[]]]; [|exact Vnew].
      rewrite Vold.
      * rewrite V1 by (apply KP_key, in_map; exact Hi). apply Hval. exact Hi.
      * right. apply in_map. exact Hi.
      * apply (NoDup_map_later key done id rest i Hnd Hi).
    + rewrite <- app_assoc. exact Hnd.
    + rewrite <- app_assoc. exact Hok.
    + exact H.
    + exists phi'. rewrite <- app_assoc in HR', Hval'. split; assumption.
Qed.

End Rebuild.

Section PrunedVocabulary.

Variable mem_limit : Z.
Variables c_exp c_log : float -> float.

Lemma pruned_inv m sl vs cfg wk counts rc m' wk' :
  VInv m sl vs ->
  unilm_prune_mdl mem_limit c_exp c_log m cfg wk counts = (rc, m', wk') -> 0 <= rc ->
  forall i, 0 <= i < vocab_size m' ->
    In (pkey (strbuf m') (pieces m') i) vs /\
    unilm_model_find_id m' (pkey (strbuf m') (pieces m') i) = i.
Proof.
  intros HI H Hrc.
  destruct HI as [Iinit Isize (Icap1 & Icap2) (Isl1 & Isl2) Ikeys Inodup
                        (phi & HR & Ival) Ipiece].
  pose proof (piece_keys_valid vs Ikeys) as Hvs.
  assert (Hkey : forall i, 0 <= i < klen vs -> pkey (strbuf m) (pieces m) i = kth vs i).
  { intros i Hi. destruct (Ipiece i Hi) as (P1 & _ & _ & P4). unfold pkey. rewrite P1. exact P4. }
  assert (HV : 0 <= vocab_size m < 2 ^ 31).
  { change (2 ^ 31) with 2147483648. unfold klen, plen in *. lia. }
  destruct (prune_ok_shape mem_limit c_exp c_log m cfg wk counts rc m' wk' HV H Hrc)
    as [->|(kp & ps & lp & newV & tr0 & tr & Ec & Et & Er & Em)].
  - (* nothing was pruned *)
    intros i Hi. rewrite Isize in Hi. rewrite (Hkey i Hi).
    pose proof (kth_in vs i Hi) as Hin. split; [exact Hin|].
    assert (Hkv : valid_key (kth vs i)) by (rewrite Forall_forall in Hvs; apply Hvs; exact Hin).
    apply (find_id_in m vs phi HR).
    + apply Iinit. intros ->. cbn in Hin. exact Hin.
    + exact Hin.
    + apply Hkv.
    + unfold klen, plen in *. lia.
    + apply Ival. exact Hi.
  - (* the trie was built again *)
    set (g := fun i => negb (zget kp i =? 0)) in *.
    set (kept := filter g (range 0 (vocab_size m))).
    pose proof (compact_spec kp (pieces m) (logp m) (vocab_size m) ltac:(lia) ps lp newV Ec)
      as (C1 & C2).
    fold g kept in C1, C2.
    pose proof (compact_plen kp (range 0 (vocab_size m)) (pieces m, logp m, 0)) as Cl.
    rewrite Ec in Cl. cbn [fst] in Cl.
    destruct (normalize_frame c_exp c_log
                {| strbuf := strbuf m; pieces := ps; logp := lp; vocab_size := newV; trie := tr |}
                (min_prob cfg)) as (N1 & N2 & N3 & N4).
    rewrite <- Em in N1, N2, N3, N4. cbn [strbuf trie pieces vocab_size] in N1, N2, N3, N4.
    pose proof (zlen_filter_le g (range 0 (vocab_size m))) as Hle.
    rewrite zlen_range in Hle by lia. fold kept in Hle.
    pose proof (zlen_nonneg kept) as Hge.
    assert (Hkept : forall r, 0 <= r < newV -> 0 <= zget kept r < klen vs).
    { intros r Hr. assert (Hin : In (zget kept r) kept) by (apply zget_In; lia).
      apply in_filter_range in Hin. rewrite <- Isize. apply Hin. }
    set (m1 := {| strbuf := strbuf m; pieces := ps; logp := lp; vocab_size := vocab_size m;
                  trie := trie m |}) in *.
    assert (Hk1 : forall r, 0 <= r < newV ->
              pkey (strbuf m1) (pieces m1) r = kth vs (zget kept r)).
    { intros r Hr. unfold pkey, m1. cbn [strbuf pieces]. rewrite (C2 r Hr).
      apply Hkey. apply Hkept. exact Hr. }
    assert (Hu : u32 newV = newV).
    { unfold u32, wrap_u. apply Z.mod_small. change (2 ^ 32) with 4294967296.
      change (2 ^ 31) with 2147483648 in HV. lia. }
    rewrite Hu in Er.
    assert (Hl : zlen (check (trie m)) = zlen (base (trie m))).
    { apply (rep_len _ _ _ HR). }
    destruct (clear_rep (trie m) 0 tr0 Hl Et eq_refl) as (HR0 & _).
    assert (Hinj : forall a b, In a (range 0 newV) -> In b (range 0 newV) ->
              pkey (strbuf m1) (pieces m1) a = pkey (strbuf m1) (pieces m1) b -> a = b).
    { intros a b Ha Hb E. apply in_range in Ha, Hb. rewrite !Hk1 in E by assumption.
      apply (kth_inj vs) in E; [|exact Inodup|apply Hkept; lia|apply Hkept; lia].
      assert (Hnk : NoDup kept) by (apply NoDup_filter, NoDup_range).
      unfold zget in E. destruct (Z.ltb_spec a 0); [lia|]. destruct (Z.ltb_spec b 0); [lia|].
      assert (Z.to_nat a = Z.to_nat b); [|lia].
      apply (proj1 (NoDup_nth kept 0) Hnk); [unfold zlen in *; lia|unfold zlen in *; lia|exact E]. }
    destruct (rebuild_inv mem_limit m1 (range 0 newV) [] tr0 tr (fun _ => DA_ROOT))
      as (phi' & HR' & Hval').
    + cbn [map]. apply (Rep_P_ext tr0 (fun w => w = [])); [intros w; apply KP_nil|exact HR0].
    + intros i [].
    + cbn [app]. apply NoDup_map_in; [exact Hinj|apply NoDup_range].
    + cbn [app]. apply Forall_forall. intros r Hr. apply in_range in Hr.
      unfold rebuild_ok. rewrite (Hk1 r Hr). cbn [vocab_size m1].
      split; [lia|]. split; [change (2 ^ 31) with 2147483648 in HV; lia|].
      rewrite Forall_forall in Hvs. apply Hvs, kth_in, Hkept, Hr.
    + exact Er.
    + cbn [app] in HR', Hval'.
      intros i Hi. rewrite N4 in Hi.
      assert (Ek : pkey (strbuf m') (pieces m') i = pkey (strbuf m1) (pieces m1) i).
      { unfold pkey. rewrite N1, N3. reflexivity. }
      rewrite Ek.
      assert (Hin : In (pkey (strbuf m1) (pieces m1) i) vs).
      { rewrite (Hk1 i Hi). apply kth_in, Hkept, Hi. }
      split; [exact Hin|].
      assert (Hkv : valid_key (pkey (strbuf m1) (pieces m1) i)).
      { rewrite Forall_forall in Hvs. apply Hvs. exact Hin. }
      rewrite <- N2 in HR', Hval'.
      apply (find_id_in m' _ phi' HR').
      * unfold unilm_model_is_init. rewrite N1, N3.
        fold (plen ps). rewrite Cl. cbn [fst].
        apply Iinit. intros ->. cbn in Hin. exact Hin.
      * apply in_map. apply in_range. exact Hi.
      * apply Hkv.
      * change (2 ^ 31) with 2147483648 in HV. lia.
      * apply Hval'. apply in_range. exact Hi.
Qed.

(** A vocabulary that was built with [unilm_model_add_piece] stays
    searchable through pruning.  After [unilm_model_clear], a sequence of
    [unilm_model_add_piece] calls that all return an id, and a successful
    [unilm_prune_mdl], every piece that is left is one of the keys that were
    added, and [unilm_model_find_id] on the bytes of the piece [i] returns
    [i]: the trie that the pruning builds again agrees with the compacted
    table of pieces. *)
Theorem pruned_pieces_are_found (m0 m1 m m' : unilm_model_t) (sl1 sl : Z)
        (reqs : list (list Z * Z)) (ids : list Z)
        (cfg : unilm_train_config_t) (wk wk' : unilm_workspace_t) (counts : list float)
        (rc : Z) :
  zlen (check (trie m0)) = zlen (base (trie m0)) ->
  plen (pieces m0) <= 2147483647 -> zlen (strbuf m0) <= 4294967295 ->
  unilm_model_clear m0 = (UNILM_OK, m1, sl1) ->
  Forall (fun r => valid_key (fst r) /\ zlen (fst r) <= 65535) reqs ->
  add_pieces mem_limit m1 sl1 reqs = (ids, m, sl) ->
  Forall (fun id => 0 <= id) ids ->
  unilm_prune_mdl mem_limit c_exp c_log m cfg wk counts = (rc, m', wk') -> 0 <= rc ->
  forall i, 0 <= i < vocab_size m' ->
    exists off n,
      unilm_model_piece_bytes m' i = Some (off, n) /\
      In (bytes_at (strbuf m') off n) (map fst reqs) /\
      unilm_model_find_id m' (bytes_at (strbuf m') off n) = i.
Proof.
  intros Hl Hp Hs Hclear Hreq Hadd Hids Hprune Hrc i Hi.
  pose proof (clear_inv m0 m1 sl1 Hl Hp Hs Hclear) as HI0.
  destruct (add_pieces_inv mem_limit reqs m1 sl1 [] ids m sl HI0 Hreq Hadd Hids)
    as (vs & HI & Hsub & _ & _).
  cbn [app] in HI.
  destruct (pruned_inv m sl vs cfg wk counts rc m' wk' HI Hprune Hrc i Hi) as (Hin & Hfind).
  exists (str_off (pget (pieces m') i)), (len (pget (pieces m') i)).
  split; [|split].
  - unfold unilm_model_piece_bytes. destruct (Z.leb_spec (vocab_size m') i); [lia|reflexivity].
  - apply Hsub. exact Hin.
  - exact Hfind.
Qed.

End PrunedVocabulary.

(** The pieces [a], [b], [ab] and [ba], and a limit of three pieces. *)
Definition ex_reqs4 : list (list Z * Z) := [([97], 0); ([98], 0); ([97; 98], 0); ([98; 97], 0)].

Definition ex_built : unilm_model_t := snd (fst (add_pieces 4096 ex_vocab0 0 ex_reqs4)).

Definition ex_pruned : unilm_model_t :=
  snd (fst (unilm_prune_mdl 4096 (fun x => x) (fun x => x)
                            ex_built ex_cfg_top ex_prune_work ex_counts)).

Lemma pruned_pieces_are_found_witness :
  exists off n,
    unilm_model_piece_bytes ex_pruned 2 = Some (off, n) /\
    In (bytes_at (strbuf ex_pruned) off n) (map fst ex_reqs4) /\
    unilm_model_find_id ex_pruned (bytes_at (strbuf ex_pruned) off n) = 2.
Proof.
  apply (pruned_pieces_are_found 4096 (fun x => x) (fun x => x)
           ex_vocab0 ex_vocab0 ex_built ex_pruned 0 6 ex_reqs4 [0; 1; 2; 3]
           ex_cfg_top ex_prune_work
           (snd (unilm_prune_mdl 4096 (fun x => x) (fun x => x)
                                 ex_built ex_cfg_top ex_prune_work ex_counts))
           ex_counts 3).
  - reflexivity.
  - vm_compute. discriminate.
  - vm_compute. discriminate.
  - vm_compute. reflexivity.
  - repeat constructor; try discriminate; try lia; vm_compute; discriminate.
  - vm_compute. reflexivity.
  - repeat constructor; lia.
  - vm_compute. reflexivity.
  - lia.
  - vm_compute. split; [discriminate|reflexivity].
Defined.

Import Lossless LosslessProofs Unilm.

(** * Counting code points *)

(** [unilm_utf8_next] looks at the first byte only; on the encoding of a code
    point it moves to the end of it. *)
Lemma next_after_encoding (pre rest : list Z) (cp : Z) :
  0 <= cp <= 0x10FFFF ->
  unilm_utf8_next (pre ++ utf8_encode_cp cp ++ rest) 0
                  (zlen (pre ++ utf8_encode_cp cp ++ rest)) (zlen pre)
  = zlen pre + zlen (utf8_encode_cp cp).
Proof.
  intros Hcp. unfold unilm_utf8_next.
  pose proof (encode_nonempty cp) as Hn. pose proof (zlen_nonneg rest) as Hr.
  rewrite !zlen_app.
  destruct (Z.leb_spec (zlen pre + (zlen (utf8_encode_cp cp) + zlen rest)) (zlen pre)); [lia|].
  cbv zeta. rewrite Z.add_0_l. rewrite zget_at0 by lia.
  unfold utf8_encode_cp in *.
  destruct (Z.leb_spec cp 0x7F).
  { change (zget [u8 cp] 0) with (u8 cp). rewrite u8_small by lia.
    destruct (Z.ltb_spec cp 0x80); [|lia]. reflexivity. }
  destruct (Z.leb_spec cp 0x7FF).
  { match goal with |- context [zget (?a :: ?l) 0] => change (zget (a :: l) 0) with a end.
    destruct (lead2 (Z.land (Z.shiftr cp 6) 0x1F)) as (A & B & _).
    { rewrite land_31. apply Z.mod_pos_bound. lia. }
    rewrite A, B. change (zlen [_; _]) with 2 in *.
    destruct (Z.ltb_spec (zlen pre + (2 + zlen rest)) (zlen pre + 2)); [lia|]. reflexivity. }
  destruct (Z.leb_spec cp 0xFFFF).
  { match goal with |- context [zget (?a :: ?l) 0] => change (zget (a :: l) 0) with a end.
    destruct (lead3 (Z.land (Z.shiftr cp 12) 0x0F)) as (A & B & C & _).
    { rewrite land_15. apply Z.mod_pos_bound. lia. }
    rewrite A, B, C. change (zlen [_; _; _]) with 3 in *.
    destruct (Z.ltb_spec (zlen pre + (3 + zlen rest)) (zlen pre + 3)); [lia|]. reflexivity. }
  match goal with |- context [zget (?a :: ?l) 0] => change (zget (a :: l) 0) with a end.
  destruct (lead4 (Z.land (Z.shiftr cp 18) 0x07)) as (A & B & C & D & _).
  { rewrite land_7. apply Z.mod_pos_bound. lia. }
  rewrite A, B, C, D. change (zlen [_; _; _; _]) with 4 in *.
  destruct (Z.ltb_spec (zlen pre + (4 + zlen rest)) (zlen pre + 4)); [lia|]. reflexivity.
Qed.

Lemma count_loop_encodings (cps : list Z) : forall fuel pre n,
  Forall (fun cp => 0 <= cp <= 0x10FFFF) cps -> (length cps <= fuel)%nat ->
  count_loop fuel (pre ++ flat_map utf8_encode_cp cps)
             (zlen (pre ++ flat_map utf8_encode_cp cps)) (zlen pre) n
  = n + zlen cps.
Proof.
  induction cps as [|cp cps IH]; intros fuel pre n Hok Hf.
  - cbn [flat_map]. rewrite app_nil_r.
    destruct fuel; cbn [count_loop]; rewrite Z.leb_refl; change (zlen []) with 0; lia.
  - apply Forall_cons_iff in Hok. destruct Hok as (Hcp & Hok).
    destruct fuel as [|fuel]; [cbn [length] in Hf; lia|].
    cbn [flat_map count_loop].
    pose proof (encode_nonempty cp) as Hn.
    pose proof (zlen_nonneg (flat_map utf8_encode_cp cps)) as Hr.
    destruct (Z.leb_spec (zlen (pre ++ utf8_encode_cp cp ++ flat_map utf8_encode_cp cps))
                         (zlen pre)) as [Hle|Hle]; [rewrite !zlen_app in Hle; lia|].
    rewrite next_after_encoding by exact Hcp.
    destruct (Z.leb_spec (zlen pre + zlen (utf8_encode_cp cp)) (zlen pre)); [lia|].
    rewrite <- zlen_app. rewrite app_assoc.
    rewrite IH; [rewrite zlen_cons; lia|exact Hok|cbn [length] in Hf; lia].
Qed.

Lemma scalars_in_range cps :
  forallb is_scalar cps = true -> Forall (fun cp => 0 <= cp <= 0x10FFFF) cps.
Proof.
  intros H. apply Forall_forall. intros cp Hcp. rewrite forallb_forall in H.
  apply is_scalar_range. apply H. exact Hcp.
Qed.

(** On valid UTF-8 [unilm_utf8_count_codepoints] counts the characters. *)
Lemma count_codepoints_valid (cps : list Z) :
  forallb is_scalar cps = true ->
  unilm_utf8_count_codepoints (flat_map utf8_encode_cp cps) = zlen cps.
Proof.
  intros H. unfold unilm_utf8_count_codepoints.
  pose proof (count_loop_encodings cps (length (flat_map utf8_encode_cp cps)) [] 0
                (scalars_in_range cps H)) as G.
  cbn [app] in G. change (zlen []) with 0 in G. rewrite G; [lia|].
  apply flat_map_length_ge. intros cp. apply encode_nonempty.
Qed.

(** A new piece of valid UTF-8 is stored with its number of characters.
    When [unilm_model_add_piece] returns an id for a key that
    [unilm_model_find_id] did not find, and the key is the UTF-8 encoding of
    at most 65535 Unicode scalar values, the id is the old vocabulary size,
    the vocabulary has grown by one, the piece holds the flags that were
    given and [len_cp] is the number of those values; a piece of one
    character is mandatory, whatever its flags. *)
Theorem new_piece_counts_characters (mem_limit : Z) (m m' : unilm_model_t) (sl sl' : Z)
        (cps : list Z) (fl id : Z) :
  forallb is_scalar cps = true -> zlen cps <= 65535 ->
  0 <= vocab_size m <= 2147483647 ->
  unilm_model_find_id m (flat_map utf8_encode_cp cps) < 0 ->
  unilm_model_add_piece mem_limit m sl (flat_map utf8_encode_cp cps) fl = (id, m', sl') ->
  0 <= id ->
  id = vocab_size m /\ vocab_size m' = vocab_size m + 1 /\
  flags (pget (pieces m') id) = fl /\
  len_cp (pget (pieces m') id) = zlen cps /\
  (zlen cps = 1 -> unilm_piece_is_mandatory m' id = true).
Proof.
  intros Hsc Hlen HV Hnew H Hid.
  pose proof (count_codepoints_valid cps Hsc) as Hcount.
  unfold unilm_model_add_piece in H.
  destruct (flat_map utf8_encode_cp cps) as [|c0 k0] eqn:Ek; [inversion H; subst; lia|].
  rewrite <- Ek in *. clear Ek c0 k0.
  destruct (unilm_model_is_init m); cbn [negb] in H; [|inversion H; subst; lia].
  cbv zeta in H.
  destruct (Z.leb_spec 0 (unilm_model_find_id m (flat_map utf8_encode_cp cps))); [lia|].
  fold (plen (pieces m)) in H.
  destruct (Z.leb_spec (plen (pieces m)) (vocab_size m)); [inversion H; subst; lia|].
  destruct (zlen (strbuf m) <? _); [inversion H; subst; lia|].
  assert (Eid : u32 (vocab_size m) = vocab_size m).
  { unfold u32, wrap_u. apply Z.mod_small. lia. }
  rewrite Eid in H.
  destruct (DA.da_trie_add_bytes mem_limit (trie m) _) as (rc1, tr1).
  destruct rc1 as [|?|?]; [|inversion H; subst; lia|inversion H; subst; lia].
  destruct (unilm_da_set_term_id tr1 _ (vocab_size m)) as (rc2, tr2).
  destruct rc2 as [|?|?]; [|inversion H; subst; lia|inversion H; subst; lia].
  assert (Ei : i32 (vocab_size m) = vocab_size m).
  { apply i32_id. unfold in_i32. lia. }
  rewrite Ei in H. inversion H; subst id m' sl'. clear H.
  cbn [pieces vocab_size]. rewrite pget_pset_same by lia. cbn [flags len_cp].
  rewrite Hcount.
  assert (Eu : u16 (zlen cps) = zlen cps).
  { unfold u16, wrap_u. apply Z.mod_small. pose proof (zlen_nonneg cps).
    change (2 ^ 16) with 65536. lia. }
  rewrite Eu. repeat split.
  intros E1. unfold unilm_piece_is_mandatory. cbn [pieces].
  rewrite pget_pset_same by lia. cbn [flags len_cp]. rewrite ?Hcount, ?Eu, E1.
  apply orb_true_r.
Qed.

(** The one character U+3042, three bytes. *)
Definition ex_empty_vocab : unilm_model_t :=
  {| strbuf := repeat 0 8; pieces := repeat piece0 4; logp := repeat 0%float 4;
     vocab_size := 0; trie := snd (DA.da_trie_init_dynamic 4096 16) |}.

Lemma new_piece_counts_characters_witness :
  len_cp (pget (pieces (snd (fst (unilm_model_add_piece 4096 ex_empty_vocab 0
                                     (flat_map utf8_encode_cp [0x3042]) 0)))) 0) = 1 /\
  unilm_piece_is_mandatory
    (snd (fst (unilm_model_add_piece 4096 ex_empty_vocab 0
                                     (flat_map utf8_encode_cp [0x3042]) 0))) 0 = true.
Proof.
  destruct (new_piece_counts_characters 4096 ex_empty_vocab
              (snd (fst (unilm_model_add_piece 4096 ex_empty_vocab 0
                                               (flat_map utf8_encode_cp [0x3042]) 0)))
              0 3 [0x3042] 0 0) as (_ & _ & _ & L & M).
  - reflexivity.
  - vm_compute. discriminate.
  - vm_compute. split; discriminate.
  - vm_compute. reflexivity.
  - vm_compute. reflexivity.
  - lia.
  - split; [exact L|apply M; reflexivity].
Defined.

End UnilmProofs.
